(* ===== verification/_CoqProject ===== *)
-Q . S2P
Prelude.v
GoStd.v
Text.v
Json.v
GoTime.v
Sha256.v
ObjectInventory.v
Model.v
Payloads.v
MemStore.v
QueueSpec.v
MemJobs.v
SqlStore.v
SqlJobs.v
SqlQueue.v
Approvals.v
Objects.v
Control.v
Config.v
StorageHealth.v
Requests.v
Placement.v
CasReconcile.v
Restore.v
Scheduler.v
Replication.v
Erasure.v
Maintenance.v
Repair.v
Reconciler.v
AgentServer.v
AgentRules.v
AgentTransfers.v
FileSystem.v
Cas.v
CasRules.v
CasCompact.v
CasDemo.v
JsonText.v
JsonStruct.v
Ledger.v
LedgerRules.v
LedgerAppend.v
LedgerDemo.v
FileTree.v
TempFiles.v
ErasureCodec.v
CodecRules.v
CodecDisk.v
CodecBack.v
CodecDemo.v
Settings.v
SettingsRules.v
Scrub.v
HealRules.v
ScrubRules.v
ScrubDemo.v
Tiers.v
TierRules.v
RepairRules.v
Signing.v
Checkpoint.v
CheckpointRules.v
CheckpointDemo.v
Protect.v
ProtectDemo.v
WebAuth.v
WebAuthRules.v
WebAuthDemo.v
