(* ===== verification/Prelude.v ===== *)
(** * RepoArk: a verification library

    RepoArk backs up Git repositories.  Its control plane
    ([internal/controlplane]) keeps repositories, jobs, generations (backups),
    replicas, agents and objects in a database; a scheduler and several
    reconcilers turn what should be into jobs; workers and remote agents lease
    the jobs, report back and relay encrypted copies through the control plane.
    On a node, files are kept in a content-addressed store, and what is done is
    recorded in an audit ledger.  This library models these parts as executable
    functions and proves what they promise.

    ** Parts

    Foundations:
    - Prelude: results, functional record update, 64-bit integers, the order of
      map iteration, [sort.Slice], automation;
    - GoStd, Text, Json, GoTime, Sha256: [time], [strings], [strconv],
      [encoding/json], [crypto/sha256] as far as they are used.

    Data ([model.go], [id.go], payload structs, [config.go]):
    - Model, Payloads, Config (the sections the control plane reads);
    - Settings is the whole configuration file: defaults, paths, [Load], [Save],
      [Validate]; SettingsRules: what loads is usable (C19).

    Stores:
    - MemStore is [memory.go], SqlStore is [sqlstore.go], one function for each
      method; Control has the interface [Store] of [store.go] as a type class
      with the two stores as instances, and the monad of programs over it;
    - QueueSpec is the abstract job queue, a labelled transition system; MemJobs
      and SqlJobs show that the two stores implement it, SqlQueue what the
      production store therefore guarantees (C1-C8);
    - Approvals (C9, C10) is about restore approvals, Objects (C11, C12) about
      object references and leases along histories of calls, adjustments included;
    - Requests states what clients need of a store as the class [QueueStore],
      proves it of both stores, and has the invariant of loops that file jobs.

    Clients, all proved against [QueueStore]:
    - Placement ([SelectRestoreAffinity], the predicates on agents);
    - Scheduler ([scheduler.go]): C16;
    - Replication ([replication.go]): C18, C20;
    - Erasure ([erasure_distributed.go]): C22-C24; Protect is the job
      [protectErasure] of the same file, on the files of a node and the store at
      once: the shards it records are protected, wherever it breaks off; ProtectDemo;
    - CasReconcile ([cas_reconcile.go]): C27; ObjectInventory
      ([internal/objectinventory]), which an agent's heartbeat carries unchanged: C32;
    - Restore ([restore.go]): C28; Maintenance ([storage_maintenance.go]): C29;
      Repair ([repair_distributed.go]): C30; StorageHealth
      ([internal/storagehealth/health.go]);
    - Reconciler: the whole of [ReplicationReconciler.Reconcile], which runs the
      reconcilers one after the other, each to its end: C31.

    The boundary with remote agents:
    - AgentServer ([agent_server.go], [transfer_meta.go]): every endpoint, over a
      store and a spool directory; AgentRules: who is refused and what a request
      may write in every table (C34, C35); AgentTransfers: upload, finish, download
      and the relay from end to end (C36-C39).

    The boundary with browsers:
    - WebAuth is [internal/webauth]; WebAuthRules: a session that passes the checks
      was opened by a callback for a verified ID token, and one that is opened is
      honoured; WebAuthDemo.

    The files of a node:
    - FileSystem: names, hard links and directories, the calls of [os] and
      [filepath], any of which may fail, and triples for programs made of them;
    - Cas is [internal/cas/cas.go] with the collection command of the command
      line; CasCompact: compaction changes no file (C13); CasRules: collection
      removes what nothing needs (C40); CasDemo: both on a concrete disk;
    - JsonText: the text of JSON values, printed and parsed; JsonStruct: values
      read into structs;
    - Ledger is [internal/audit] ([ledger.go], [recent.go], [lock.go]);
      LedgerRules: a ledger is determined by its last hash; LedgerAppend:
      appending (C15) and the latest records (C26); LedgerDemo: examples;
    - FileTree: handles, temporary directories, renamed and removed trees, and
      rules for programs on a disk that does not fail;
    - ErasureCodec is [internal/erasure/erasure.go] over a Reed-Solomon code with
      its laws; CodecRules: the texts of shards and what they decode to; CodecDisk:
      [EncodeFile]; CodecBack: what was encoded comes back (C25), and a
      reconstruction that succeeds has the hash of the manifest (C21); CodecDemo;
    - TempFiles: rules for files written under a temporary name and renamed;
    - Scrub is [internal/scrub] and [ProtectPaths]; HealRules: a damaged object is
      rebuilt in place; ScrubRules: the report of a scrub, and a full scrub heals
      the store (C14), from C25 and the content-addressed store; ScrubDemo;
    - Tiers is [internal/tiering] and the job [repairObject]; TierRules: cold copies
      are only ever good, and complete without an error; RepairRules: a repair that
      reports success has restored the object;
    - Signing is [internal/signing] over a signature scheme with its law, Checkpoint
      is [internal/audit/checkpoint.go]; CheckpointRules: a good checkpoint pins the
      ledger (C17), and one that was written is good (C33); CheckpointDemo.

    A name of the source is kept where it can be: the method [Enqueue] of
    [SQLStore] is [SqlStore.Sql.Enqueue], a struct is a record whose fields carry
    a prefix.

    ** How code is rendered

    A struct is a record, a slice a list, a map a [gmap]; the order in which Go
    ranges over a map is the parameter [MapOrder], and a theorem that does not
    mention it holds for every order.  [time.Now] and [newID] read from the
    streams of [Env].  Store calls are functions from the store to the store and a
    result; a client is a program ([Prog]) that threads store, clock and ids and
    stops at an error; a handler ([Handler]) can also stop with a response, and
    each of its calls on the file system may fail ([Faults]).  A program over
    files ([Disk]) threads the file system and the number of calls made, from which
    [OS] decides which calls fail and what a failed write leaves.  [int] and [int64]
    are [Z], wrapped where the code adds ([wrap64]); a float64 that is only
    compared is a rational.  JSON columns and payloads are decoded trees; times
    inside inventories are RFC 3339 text.

    ** Groups of theorems

    Of the queue: leases exclude each other, go to the best jobs, are bounded by
    the attempts; enqueueing twice is once, also in a race; both stores refine the
    specification.  Of approvals and objects: two persons, finality, counts that
    follow the owners up to the adjustments made.  Of the reconcilers: what they file is safe (the source has
    the data, the target may take it, in the right pool and failure domain, under
    a lease), sufficient (redundancy is restored when it is done), complete (what
    is missing is filed), additive (no job is lost) and independent of map order;
    health reports agree with it.  Of the agent server: refusal without effect,
    confinement, exact conditions of every transfer step and their composition.
    Of the store of objects, whatever calls fail: compaction keeps the content of
    every file, collection keeps what is reachable or protected.  Of the ledger:
    the chain cannot be rewritten under a known hash, and with a checkpoint not
    without the key; an append is read back, a broken ledger is not extended.  Of the erasure codec and the scrub: they end,
    and give back every file that can be given back.  Round trips: payloads, times, inventories,
    JSON text, transfers.

    Every theorem with hypotheses is applied to a concrete store in its witness,
    and examples run the functions; some of them record defects (an upload of two
    chunks cannot finish, retrying in memory duplicates an active job, the oldest
    object transfer decides, shards of the local worker are not counted, a rotten
    object replaces good files, a text that is not UTF-8 breaks the ledger, two
    shards of one index spoil an object, a checkpoint is lost when a rename fails,
    two copies go to one new failure domain, an object that vanishes empties an
    inventory, a step-up does not look at the class of the sign-in).

    ** Bounds and fuel

    [pick_shards] runs at most [copies] rounds, one for each agent still to be
    found; [Match] has fuel for every step over pattern and name; [duration_groups]
    and [sha_blocks] as much as the text is long; [month_from] eleven months.  In
    each case the fuel bounds what the Go loop consumes, and no theorem assumes
    that it suffices: the functions are total and the theorems are about their
    results.  [parse] has fuel for every character, which is enough for whatever
    [Marshal] prints ([parse_print]).  [encode_blocks] has fuel for every block of
    the file and two more, and C25 shows that this is enough.  A line of the ledger has less than
    [max_line] characters and a value nests at most [maxNestingDepth] deep, as in
    Go.

    ** Not modelled

    The SQL text, connections and driver errors; goroutines inside one process
    beyond the interleaving of statements in C4 and of calls in histories: apart
    from the read and the INSERT of [Enqueue], a method of the SQL store is one
    step, also where it runs two statements (the read that follows a refused
    INSERT, the SELECT and the UPDATE of [Fail]).  A walk over a tree meets the
    names that were there when it began; C14 takes a temporary name to be no
    beginning of another.  The
    listener, routing and TLS of net/http; the clients of the agent server
    ([agent_client.go], [remote_store.go]); the handlers of jobs on a node
    ([worker.go], git, archives, compression, encryption); the arithmetic of the
    Reed-Solomon code, Ed25519, AES-GCM, the client of OpenID Connect, PEM blocks,
    the YAML library, rclone (parameters);
    file modes; policies and signed manifests; the consoles,
    external services and the command line.  Case folding and white space are
    those of ASCII.  Log messages are left
    out, and a partial count that comes with an error is dropped. *)

From Stdlib Require Import Ascii String QArith.
From stdpp Require Export base gmap strings list fin_maps pretty sorting.
From Stdlib Require Export Lia.

#[global] Open Scope Z_scope.

(** ** Results of fallible Go calls: a value or a non-nil error *)

Inductive result (A : Type) : Type :=
| Ok (a : A)
| Err (e : string).
Arguments Ok {A} a.
Arguments Err {A} e.

Definition is_ok {A} (r : result A) : bool :=
  match r with Ok _ => true | Err _ => false end.

#[export] Instance result_eq_dec {A} `{EqDecision A} : EqDecision (result A).
Proof. solve_decision. Defined.

(** A Go call that returns, or one that panics. *)
Inductive outcome (A : Type) : Type :=
| Returns (a : A)
| Panics (e : string).
Arguments Returns {A} a.
Arguments Panics {A} e.

(** ** Functional record update

    [r <| f := v |>] is the Go assignment [r.f = v] on a copy of the struct
    [r]; the setter of a field is derived from the eta-expansion registered for
    the record. *)

Class Settable (R : Type) := eta_expand : R → R.
Class Setter {R T : Type} (proj : R → T) := upd : (T → T) → R → R.
Arguments upd {R T} proj {Setter} h r /.

Ltac derive_setter p :=
  match type of p with
  | ?R → ?T =>
      let inst := constr:(_ : Settable R) in
      let body := (eval red in inst) in
      let g := (eval pattern p in body) in
      match g with
      | ?F _ =>
          let s := (eval cbv beta in (fun h : T → T => F (fun x => h (p x)))) in
          exact s
      end
  end.

#[export] Hint Extern 1 (Setter ?p) => derive_setter p : typeclass_instances.

Declare Scope update_scope.
Delimit Scope update_scope with upd.
Notation "r <| p := v |>" := (upd p (fun _ => v) r)
  (at level 1, p at level 99, left associativity) : update_scope.
#[global] Open Scope update_scope.

(** ** Machine integers

    Go's [int] and [int64] are 64-bit two's complement on every platform
    RepoArk is built for. *)

Definition two63 : Z := 9223372036854775808.
Definition max_int64 : Z := two63 - 1.
Definition min_int64 : Z := - two63.

Definition wrap64 (z : Z) : Z := (z + two63) `mod` (2 * two63) - two63.

Definition in_int64 (z : Z) : Prop := min_int64 ≤ z ≤ max_int64.

Lemma wrap64_id z : in_int64 z → wrap64 z = z.
Proof.
  unfold in_int64, min_int64, max_int64, wrap64. intros H.
  rewrite Z.mod_small; unfold two63 in *; lia.
Qed.

Lemma wrap64_range z : in_int64 (wrap64 z).
Proof.
  unfold in_int64, min_int64, max_int64, wrap64.
  pose proof (Z.mod_pos_bound (z + two63) (2 * two63)) as H.
  unfold two63 in *; lia.
Qed.

(** ** Slices *)

Definition zlen {A} (l : list A) : Z := Z.of_nat (length l).

(** [if limit > 0 && len(out) > limit { out = out[:limit] }] *)
Definition clip {A} (limit : Z) (l : list A) : list A :=
  if (0 <? limit) && (limit <? zlen l) then take (Z.to_nat limit) l else l.

Lemma clip_incl {A} limit (l : list A) x : x ∈ clip limit l → x ∈ l.
Proof.
  unfold clip. destruct (_ && _); [|done]. intros H.
  rewrite <- (take_drop (Z.to_nat limit) l). apply elem_of_app. by left.
Qed.

Lemma clip_length {A} limit (l : list A) :
  0 < limit → zlen (clip limit l) = Z.min limit (zlen l).
Proof.
  intros Hl. unfold clip, zlen.
  destruct (Z.ltb_spec 0 limit); [|lia]. simpl.
  destruct (Z.ltb_spec limit (Z.of_nat (length l))); [|lia].
  rewrite length_take. lia.
Qed.

Lemma clip_all {A} limit (l : list A) : zlen l ≤ limit → clip limit l = l.
Proof.
  unfold clip. intros H. destruct (Z.ltb_spec limit (zlen l)); [lia|].
  by rewrite andb_false_r.
Qed.

(** ** [sort.Slice]

    [sort.Slice] leaves the order of elements that compare equal unspecified.
    The slices RepoArk sorts are mostly gathered from maps, whose iteration
    order is itself unspecified (below), so a stable sort of an arbitrary
    enumeration has exactly the results the two unspecified orders allow
    together; [sort_any] below is the sort of a slice that already has an
    order. *)

Section Sorting.
  Context {A : Type} (less : A → A → bool).

Fixpoint sorted_insert (x : A) (l : list A) : list A :=
  match l with
  | [] => [x]
  | y :: l' => if less y x then y :: sorted_insert x l' else x :: l
  end.

Definition sort_slice (l : list A) : list A := foldr sorted_insert [] l.

(** [less] as the ordering argument of [sort.Slice] has to be: a strict weak
    order. *)
Class StrictWeak : Prop := {
  less_asym x y : less x y = true → less y x = false;
  less_negtrans x y z : less x y = false → less y z = false → less x z = false
}.

Definition not_after (x y : A) : Prop := less y x = false.

Lemma sorted_insert_perm x l : sorted_insert x l ≡ₚ x :: l.
Proof.
  induction l as [|y l IH]; simpl; [done|].
  destruct (less y x); [|done]. rewrite IH. constructor.
Qed.

Lemma sort_slice_perm l : sort_slice l ≡ₚ l.
Proof.
  induction l as [|x l IH]; simpl; [done|].
  by rewrite sorted_insert_perm, IH.
Qed.

Lemma elem_of_sort_slice x l : x ∈ sort_slice l ↔ x ∈ l.
Proof. by rewrite sort_slice_perm. Qed.

Lemma sort_slice_length l : length (sort_slice l) = length l.
Proof. by rewrite sort_slice_perm. Qed.

Lemma sort_slice_zlen l : zlen (sort_slice l) = zlen l.
Proof. unfold zlen. by rewrite sort_slice_length. Qed.

Context `{!StrictWeak}.

Lemma sorted_insert_sorted x l :
  StronglySorted not_after l → StronglySorted not_after (sorted_insert x l).
Proof.
  induction 1 as [|y l Hl IH Hy]; simpl; [by repeat constructor|].
  destruct (less y x) eqn:E.
  - constructor; [done|]. rewrite sorted_insert_perm.
    constructor; [|done]. by apply less_asym.
  - constructor; [by constructor|]. constructor; [done|].
    eapply Forall_impl; [exact Hy|]. unfold not_after. intros z Hz.
    by apply (less_negtrans z y x).
Qed.

Lemma sort_slice_sorted l : StronglySorted not_after (sort_slice l).
Proof.
  induction l; simpl; [constructor|]. by apply sorted_insert_sorted.
Qed.

(** When the order separates distinct elements, the sorted slice does not
    depend on the order the elements were gathered in. *)
Lemma sort_slice_canonical l l' :
  (∀ x y, x ∈ l → y ∈ l → less x y = false → less y x = false → x = y) →
  l ≡ₚ l' → sort_slice l = sort_slice l'.
Proof.
  intros Htot Hp. eapply (StronglySorted_unique_strong not_after).
  - intros x y Hx Hy. rewrite elem_of_sort_slice in Hx.
    rewrite elem_of_sort_slice, <- Hp in Hy. unfold not_after.
    intros Hxy Hyx. by apply Htot.
  - apply sort_slice_sorted.
  - apply sort_slice_sorted.
  - by rewrite !sort_slice_perm.
Qed.
End Sorting.
Arguments StrictWeak {A} less.

(** Sorting by a key. *)
#[export] Instance less_by_key {A B} (key : A → B) (ltb : B → B → bool) :
  StrictWeak ltb → StrictWeak (fun x y => ltb (key x) (key y)).
Proof.
  intros H. split; intros *; [apply less_asym|apply less_negtrans]; exact H.
Qed.

#[export] Instance less_flip {A} (ltb : A → A → bool) :
  StrictWeak ltb → StrictWeak (fun x y => ltb y x).
Proof.
  intros H. split.
  - intros x y. apply (less_asym ltb).
  - intros x y z H1 H2. by apply (less_negtrans ltb z y x).
Qed.

#[export] Instance less_Z : StrictWeak Z.ltb.
Proof. split; intros *; rewrite ?Z.ltb_lt, ?Z.ltb_ge; lia. Qed.

(** [if a goes first { return true }; if b goes first { return false }; return
    rest]: refinement of an order by another. *)
Definition less_then {A} (first rest : A → A → bool) (x y : A) : bool :=
  if first x y then true else if first y x then false else rest x y.

#[export] Instance less_then_weak {A} (first rest : A → A → bool) :
  StrictWeak first → StrictWeak rest → StrictWeak (less_then first rest).
Proof.
  intros Hf Hr. unfold less_then. split.
  - intros x y. destruct (first x y) eqn:Exy.
    + by rewrite (less_asym first _ _ Exy).
    + destruct (first y x); [done|]. apply (less_asym rest).
  - intros x y z.
    destruct (first x y) eqn:Exy; [done|]. destruct (first y z) eqn:Eyz; [done|].
    rewrite (less_negtrans first x y z Exy Eyz).
    destruct (first z x) eqn:Ezx; [done|].
    assert (first y x = false) as -> by by apply (less_negtrans first y z x).
    assert (first z y = false) as -> by by apply (less_negtrans first z x y).
    apply (less_negtrans rest).
Qed.

(** Those with the flag come first. *)
#[export] Instance less_flag {A} (p : A → bool) : StrictWeak (fun x y => p x && negb (p y)).
Proof. split; intros *; destruct (p x), (p y); try destruct (p z); done. Qed.

(** [if a.k != b.k { return a.k < b.k }; return rest]: lexicographic
    refinement of an integer key by another order. *)
#[export] Instance less_lex_Z {A} (key : A → Z) (rest : A → A → bool) :
  StrictWeak rest →
  StrictWeak (fun x y => if key x =? key y then rest x y else key x <? key y).
Proof.
  intros H. split.
  - intros x y. destruct (Z.eqb_spec (key x) (key y)) as [E|E].
    + rewrite <- E, Z.eqb_refl. apply (less_asym rest).
    + destruct (Z.eqb_spec (key y) (key x)); [lia|].
      rewrite Z.ltb_lt, Z.ltb_ge. lia.
  - intros x y z.
    destruct (Z.eqb_spec (key x) (key y)), (Z.eqb_spec (key y) (key z)),
      (Z.eqb_spec (key x) (key z)); rewrite ?Z.ltb_ge; try lia.
    apply (less_negtrans rest).
Qed.

(** ** [sort.Strings] *)

Lemma string_compare_lt_trans s t u :
  String.compare s t = Lt → String.compare t u = Lt → String.compare s u = Lt.
Proof.
  revert t u.
  induction s as [|a s IH]; intros [|b t] [|c u]; simpl; try done.
  unfold Ascii.compare.
  destruct (N.compare_spec (N_of_ascii a) (N_of_ascii b)) as [E|E|E],
    (N.compare_spec (N_of_ascii b) (N_of_ascii c)) as [F|F|F]; try done; intros H1 H2;
    destruct (N.compare_spec (N_of_ascii a) (N_of_ascii c)); try lia; try done.
  by apply (IH t u).
Qed.

Definition str_less (s t : string) : bool :=
  match String.compare s t with Lt => true | _ => false end.

Lemma str_less_total s t : str_less s t = false → str_less t s = false → s = t.
Proof.
  unfold str_less. rewrite (String.compare_antisym s t).
  destruct (String.compare t s) eqn:E; simpl; try done.
  intros _ _. symmetry. by apply String.compare_eq_iff.
Qed.

#[export] Instance str_less_weak : StrictWeak str_less.
Proof.
  split.
  - intros s t. unfold str_less. rewrite (String.compare_antisym t s).
    by destruct (String.compare s t).
  - intros s t u H1 H2.
    destruct (str_less s u) eqn:E; [|done]. exfalso.
    destruct (str_less t s) eqn:E1.
    + unfold str_less in *.
      destruct (String.compare t s) eqn:?, (String.compare s u) eqn:?; try done.
      by rewrite (string_compare_lt_trans t s u) in H2.
    + rewrite (str_less_total s t) in E by done. congruence.
Qed.

Definition sort_strings : list string → list string := sort_slice str_less.

Lemma sort_strings_canonical l l' : l ≡ₚ l' → sort_strings l = sort_strings l'.
Proof.
  intros H. apply sort_slice_canonical; [apply _| |done].
  intros x y _ _. apply str_less_total.
Qed.

(** ** Go maps

    [for k, v := range m] visits every entry of a map once, in an order the
    language leaves open.  [range] is one such order; everything proved from
    [MapOrder] holds whichever order the runtime picks.  [shuffle] is the
    freedom [sort.Slice] has with the equal elements of a slice. *)

Class MapOrder := {
  range : ∀ {K V : Type} `{Countable K}, gmap K V → list (K * V);
  range_perm : ∀ {K V : Type} `{Countable K} (m : gmap K V), range m ≡ₚ map_to_list m;
  shuffle : ∀ {A : Type}, list A → list A;
  shuffle_perm : ∀ {A : Type} (l : list A), shuffle l ≡ₚ l
}.

#[export] Program Instance default_order : MapOrder | 100 := {
  range K V _ _ := map_to_list;
  shuffle A l := l
}.
Next Obligation. done. Qed.
Next Obligation. done. Qed.

Section Range.
  Context {MO : MapOrder} {K : Type} `{Countable K}.

Definition range_keys {V} (m : gmap K V) : list K := (range m).*1.
Definition range_vals {V} (m : gmap K V) : list V := (range m).*2.

Lemma elem_of_range {V} (m : gmap K V) k v : (k, v) ∈ range m ↔ m !! k = Some v.
Proof. by rewrite range_perm, elem_of_map_to_list. Qed.

Lemma elem_of_range_vals {V} (m : gmap K V) v :
  v ∈ range_vals m ↔ ∃ k, m !! k = Some v.
Proof.
  unfold range_vals. rewrite list_elem_of_fmap. split.
  - intros ([k w] & -> & Hk%elem_of_range). by exists k.
  - intros (k & Hk). exists (k, v). by rewrite elem_of_range.
Qed.

Lemma elem_of_range_keys {V} (m : gmap K V) k :
  k ∈ range_keys m ↔ is_Some (m !! k).
Proof.
  unfold range_keys. rewrite list_elem_of_fmap. split.
  - intros ([k' w] & -> & Hk%elem_of_range). by exists w.
  - intros (v & Hk). exists (k, v). by rewrite elem_of_range.
Qed.

Lemma range_keys_NoDup {V} (m : gmap K V) : NoDup (range_keys m).
Proof. unfold range_keys. rewrite range_perm. apply NoDup_fst_map_to_list. Qed.

Lemma range_keys_length {V} (m : gmap K V) : length (range_keys m) = size m.
Proof. unfold range_keys. by rewrite range_perm, length_fmap, length_map_to_list. Qed.

Lemma range_vals_length {V} (m : gmap K V) : length (range_vals m) = size m.
Proof. unfold range_vals. by rewrite range_perm, length_fmap, length_map_to_list. Qed.
End Range.

Definition sort_any {MO : MapOrder} {A} (less : A → A → bool) (l : list A) : list A :=
  sort_slice less (shuffle l).

Lemma sort_any_perm {MO : MapOrder} {A} (less : A → A → bool) l : sort_any less l ≡ₚ l.
Proof. unfold sort_any. by rewrite sort_slice_perm, shuffle_perm. Qed.

Lemma sort_any_sorted {MO : MapOrder} {A} (less : A → A → bool) `{!StrictWeak less} l :
  StronglySorted (not_after less) (sort_any less l).
Proof. by apply sort_slice_sorted. Qed.

(** A loop over a map that rewrites some of its entries in place. *)
Definition rewrite_entries {K V} `{Countable K} (p : K → V → bool) (f : K → V → V)
    (acc : gmap K V) (e : K * V) : gmap K V :=
  if p e.1 e.2 then <[e.1 := f e.1 e.2]> acc else acc.

Lemma lookup_rewrite_entries_list {K V} `{Countable K} p (f : K → V → V) l acc k :
  NoDup l.*1 → (∀ k v, (k, v) ∈ l → acc !! k = Some v) →
  foldl (rewrite_entries p f) acc l !! k =
  if bool_decide (k ∈ l.*1)
  then (fun v => if p k v then f k v else v) <$> acc !! k else acc !! k.
Proof.
  revert acc. induction l as [|[k' v'] l IH]; intros acc Hnd Hl; csimpl in *.
  { done. }
  apply NoDup_cons in Hnd as [Hk' Hnd].
  assert (acc !! k' = Some v') as Hk'v by (apply Hl; by left).
  rewrite IH; [|done|].
  - unfold rewrite_entries; simpl. destruct (decide (k = k')) as [->|Hne].
    + rewrite bool_decide_eq_false_2 by done.
      rewrite (bool_decide_eq_true_2 (k' ∈ k' :: l.*1)) by by left.
      rewrite Hk'v. simpl. by destruct (p k' v'); [rewrite lookup_insert_eq|].
    + assert (bool_decide (k ∈ k' :: l.*1) = bool_decide (k ∈ l.*1)) as ->.
      { apply bool_decide_ext. rewrite elem_of_cons. naive_solver. }
      destruct (p k' v'); [|done]. by rewrite lookup_insert_ne.
  - intros k2 v2 Hin. unfold rewrite_entries; simpl.
    assert (k2 ≠ k') by (intros ->; apply Hk'; rewrite list_elem_of_fmap; by exists (k', v2)).
    destruct (p k' v'); rewrite ?lookup_insert_ne by done; apply Hl; by right.
Qed.

Lemma lookup_rewrite_entries {MO : MapOrder} {K V} `{Countable K} p (f : K → V → V)
    (m : gmap K V) k :
  foldl (rewrite_entries p f) m (range m) !! k =
  (fun v => if p k v then f k v else v) <$> m !! k.
Proof.
  rewrite lookup_rewrite_entries_list.
  - case_bool_decide as Hk; [done|].
    destruct (m !! k) eqn:E; [|done]. exfalso. apply Hk, elem_of_range_keys. by exists v.
  - apply range_keys_NoDup.
  - intros k' v. apply elem_of_range.
Qed.

(** Storing a list of values under their own keys. *)
Lemma lookup_foldl_insert {K V} `{Countable K} (key : V → K) (l : list V)
    (m : gmap K V) k :
  NoDup (key <$> l) →
  (∀ v, v ∈ l → key v = k → foldl (fun m v => <[key v := v]> m) m l !! k = Some v) ∧
  (k ∉ key <$> l → foldl (fun m v => <[key v := v]> m) m l !! k = m !! k).
Proof.
  revert m. induction l as [|v l IH]; intros m Hnd; csimpl in *.
  { split; [|done]. intros v Hv. by apply not_elem_of_nil in Hv. }
  apply NoDup_cons in Hnd as [Hv Hnd]. destruct (IH (<[key v := v]> m) Hnd) as [IH1 IH2].
  split.
  - intros w [->|Hw]%elem_of_cons <-; [|by apply IH1].
    rewrite IH2 by done. apply lookup_insert_eq.
  - intros [Hne Hk]%not_elem_of_cons. rewrite IH2 by done. by apply lookup_insert_ne.
Qed.

(** The first elements of a sorted list come before the others. *)
Lemma StronglySorted_take_drop {A} (R : A → A → Prop) n l x y :
  StronglySorted R l → x ∈ take n l → y ∈ drop n l → R x y.
Proof.
  revert n. induction l as [|z l IH]; intros n Hs Hx Hy.
  { rewrite take_nil in Hx. by apply not_elem_of_nil in Hx. }
  inversion_clear Hs as [|? ? Hl Hz].
  destruct n as [|n]; simpl in *; [by apply not_elem_of_nil in Hx|].
  apply elem_of_cons in Hx as [->|Hx]; [|by eapply IH].
  rewrite Forall_forall in Hz. apply Hz. rewrite <- (take_drop n l), elem_of_app. by right.
Qed.

Lemma NoDup_fmap_filter {A B} (f : A → B) (p : A → bool) l :
  NoDup (f <$> l) → NoDup (f <$> List.filter p l).
Proof.
  induction l as [|x l IH]; csimpl; [done|]. intros [Hx Hl]%NoDup_cons.
  destruct (p x); [|by apply IH]. csimpl. apply NoDup_cons. split; [|by apply IH].
  rewrite list_elem_of_fmap. intros (y & E & Hy). apply Hx. rewrite E.
  apply list_elem_of_fmap_2. rewrite list_elem_of_In, filter_In in Hy. apply list_elem_of_In, Hy.
Qed.

Lemma filter_perm {A} (p : A → bool) l l' : l ≡ₚ l' → List.filter p l ≡ₚ List.filter p l'.
Proof.
  induction 1 as [|x l l' _ IH|x y l|l1 l2 l3 _ IH1 _ IH2]; simpl; [done|..].
  - destruct (p x); [by constructor|done].
  - destruct (p x), (p y); try done. apply perm_swap.
  - by etrans.
Qed.

Lemma NoDup_take {A} n (l : list A) : NoDup l → NoDup (take n l).
Proof. intros H. rewrite <- (take_drop n l) in H. by apply NoDup_app in H as [? _]. Qed.

(** A missing map key reads as the zero value of the element type. *)
Definition zero_or {V} (z : V) (o : option V) : V := default z o.

(** ** Counting *)

Definition count_if {A} (p : A → bool) (l : list A) : Z :=
  zlen (List.filter p l).

Lemma count_if_cons {A} (p : A → bool) x l :
  count_if p (x :: l) = (if p x then 1 else 0) + count_if p l.
Proof. unfold count_if, zlen. simpl. destruct (p x); simpl; lia. Qed.

Lemma count_if_perm {A} (p : A → bool) l l' : l ≡ₚ l' → count_if p l = count_if p l'.
Proof.
  unfold count_if, zlen. induction 1 as [|x l l' _ IH|x y l|]; simpl; try congruence.
  - destruct (p x); simpl; lia.
  - by destruct (p x), (p y).
Qed.

Lemma count_range_vals {MO : MapOrder} {K V} `{Countable K} (p : V → bool) (m : gmap K V) :
  count_if p (range_vals m) = Z.of_nat (size (filter (fun x => p x.2 = true) m)).
Proof.
  unfold range_vals. rewrite (count_if_perm p _ (map_to_list m).*2) by by rewrite range_perm.
  induction m as [|k v m Hk IH] using map_ind.
  { by rewrite map_to_list_empty. }
  rewrite (count_if_perm p _ (v :: (map_to_list m).*2)) by by rewrite map_to_list_insert.
  unfold count_if, zlen in *. simpl. destruct (p v) eqn:E.
  - rewrite map_filter_insert_True by done. rewrite map_size_insert_None.
    + simpl. lia.
    + apply map_lookup_filter_None. by left.
  - rewrite map_filter_insert_False by (simpl; congruence). rewrite delete_id by done. done.
Qed.

(** ** Automation *)

Create HintDb repoark.
#[export] Hint Resolve clip_incl range_keys_NoDup : repoark.
#[export] Hint Rewrite @elem_of_range @elem_of_range_vals @elem_of_range_keys
  @elem_of_sort_slice : repoark.

(** Case analysis on the innermost boolean test or match of the goal. *)
Ltac case_if :=
  match goal with
  | |- context [if ?b then _ else _] =>
      lazymatch b with context [if _ then _ else _] => fail | _ => destruct b eqn:? end
  | H : context [if ?b then _ else _] |- _ =>
      lazymatch b with context [if _ then _ else _] => fail | _ => destruct b eqn:? end
  end.

(** Turns boolean tests in the context into propositions. *)
Ltac bool_to_prop :=
  repeat match goal with
  | H : (_ && _)%bool = true |- _ => apply andb_true_iff in H; destruct H
  | H : (_ || _)%bool = false |- _ => apply orb_false_iff in H; destruct H
  | H : negb _ = true |- _ => apply negb_true_iff in H
  | H : negb _ = false |- _ => apply negb_false_iff in H
  | H : bool_decide _ = true |- _ => apply bool_decide_eq_true in H
  | H : bool_decide _ = false |- _ => apply bool_decide_eq_false in H
  | H : (_ =? _) = true |- _ => apply Z.eqb_eq in H
  | H : (_ =? _) = false |- _ => apply Z.eqb_neq in H
  | H : (_ <? _) = true |- _ => apply Z.ltb_lt in H
  | H : (_ <? _) = false |- _ => apply Z.ltb_ge in H
  | H : (_ <=? _) = true |- _ => apply Z.leb_le in H
  | H : (_ <=? _) = false |- _ => apply Z.leb_gt in H
  end.
