(* ===== verification/GoStd.v ===== *)
(** * The Go standard library as RepoArk uses it

    [time] (instants, durations, [ParseDuration]), [strings] and base64.
    Instants are nanoseconds since the zero [time.Time] (so [IsZero] is [= 0]);
    durations are int64 nanoseconds.  [strings] functions fold and trim ASCII,
    which is all RepoArk's identifiers hold.  JSON is in Json.v, dates as text in
    GoTime.v, SHA-256 in Sha256.v. *)

From Stdlib Require Import Ascii String QArith.
From S2P Require Import Prelude.

Declare Scope go_scope.
Delimit Scope go_scope with go.
Notation "x ≟ y" := (bool_decide (x = y)) (at level 70, no associativity) : go_scope.
Notation "x ≠? y" := (negb (bool_decide (x = y))) (at level 70, no associativity) : go_scope.
#[global] Open Scope go_scope.

(** ** [time] *)

Definition Time := Z.
Definition Duration := Z.

Definition time_zero : Time := 0.
Definition IsZero (t : Time) : bool := t =? 0.
Definition After (t u : Time) : bool := u <? t.
Definition Before (t u : Time) : bool := t <? u.
Definition time_add (t : Time) (d : Duration) : Time := t + d.

(** [Time.Sub] saturates at the largest and smallest duration. *)
Definition time_sub (t u : Time) : Duration :=
  Z.max min_int64 (Z.min max_int64 (t - u)).

Definition Nanosecond : Duration := 1.
Definition Microsecond : Duration := 1000.
Definition Millisecond : Duration := 1000000.
Definition Second : Duration := 1000000000.
Definition Minute : Duration := 60 * Second.
Definition Hour : Duration := 60 * Minute.

Lemma time_sub_le t u d : 0 ≤ d < max_int64 → time_sub t u ≤ d ↔ t - u ≤ d.
Proof. unfold time_sub, min_int64, max_int64, two63. lia. Qed.

(** ** [strings] *)

Definition ascii_lower (c : ascii) : ascii :=
  let n := N_of_ascii c in
  if (65 <=? n)%N && (n <=? 90)%N then ascii_of_N (n + 32) else c.

Fixpoint ToLower (s : string) : string :=
  match s with
  | EmptyString => EmptyString
  | String c s' => String (ascii_lower c) (ToLower s')
  end.

Definition EqualFold (s t : string) : bool := ToLower s ≟ ToLower t.

Definition is_space (c : ascii) : bool :=
  let n := N_of_ascii c in
  ((9 <=? n)%N && (n <=? 13)%N) || (n =? 32)%N.

Fixpoint trim_left (s : string) : string :=
  match s with
  | String c s' => if is_space c then trim_left s' else s
  | EmptyString => EmptyString
  end.

Fixpoint trim_right (s : string) : string :=
  match s with
  | EmptyString => EmptyString
  | String c s' =>
      match trim_right s' with
      | EmptyString => if is_space c then EmptyString else String c EmptyString
      | r => String c r
      end
  end.

Definition TrimSpace (s : string) : string := trim_right (trim_left s).

Definition HasPrefix (s p : string) : bool := String.prefix p s.

Definition TrimPrefix (s p : string) : string :=
  if HasPrefix s p
  then String.substring (String.length p) (String.length s - String.length p) s
  else s.

(** [strings.Cut] on a one-byte separator, without the [found] result. *)
Fixpoint cut_before (sep : ascii) (s : string) : string :=
  match s with
  | EmptyString => EmptyString
  | String c s' => if (c ≟ sep) then EmptyString else String c (cut_before sep s')
  end.

(** [strings.Map] with a function that keeps some ASCII letters and puts [_] for
    every other rune; a byte that starts no valid UTF-8 sequence is a rune of its
    own. *)
Definition byte_in (lo hi : N) (c : ascii) : bool := (lo <=? N_of_ascii c)%N && (N_of_ascii c <=? hi)%N.

(** The bytes of the rune at the head of [c :: l] after [c]. *)
Definition rune_rest (c : ascii) (l : list ascii) : nat :=
  let cont := byte_in 128 191 in
  match l with
  | x :: l1 =>
      if byte_in 194 223 c && cont x then 1%nat
      else
        let ok2 := ((N_of_ascii c =? 224)%N && byte_in 160 191 x)
                || ((byte_in 225 236 c || byte_in 238 239 c) && cont x)
                || ((N_of_ascii c =? 237)%N && byte_in 128 159 x) in
        let ok3 := ((N_of_ascii c =? 240)%N && byte_in 144 191 x)
                || (byte_in 241 243 c && cont x)
                || ((N_of_ascii c =? 244)%N && byte_in 128 143 x) in
        match l1 with
        | y :: l2 =>
            if ok2 && cont y then 2%nat
            else match l2 with
                 | z :: _ => if ok3 && cont y && cont z then 3%nat else 0%nat
                 | [] => 0%nat
                 end
        | [] => 0%nat
        end
  | [] => 0%nat
  end.

Fixpoint map_runes (keep : ascii → bool) (skip : nat) (l : list ascii) : list ascii :=
  match l with
  | [] => []
  | c :: l' =>
      match skip with
      | S skip' => map_runes keep skip' l'
      | O => (if keep c then c else "_"%char) :: map_runes keep (rune_rest c l') l'
      end
  end.

(** Whether [base64.RawStdEncoding.DecodeString] succeeds: line breaks are
    skipped, padding is not allowed, trailing bits are not looked at. *)
Definition base64_char (c : ascii) : bool :=
  byte_in 65 90 c || byte_in 97 122 c || byte_in 48 57 c || (c ≟ "+"%char) || (c ≟ "/"%char).

Definition RawStdEncoding_ok (s : string) : bool :=
  let l := List.filter (fun c => negb ((N_of_ascii c =? 10)%N || (N_of_ascii c =? 13)%N))
             (String.list_ascii_of_string s) in
  forallb base64_char l && negb (length l mod 4 =? 1)%nat.

Lemma ascii_lower_idem c : ascii_lower (ascii_lower c) = ascii_lower c.
Proof. by destruct c as [[] [] [] [] [] [] [] []]. Qed.

Lemma ToLower_idem s : ToLower (ToLower s) = ToLower s.
Proof. induction s; simpl; [done|]. by rewrite ascii_lower_idem, IHs. Qed.

Lemma ToLower_length s : String.length (ToLower s) = String.length s.
Proof. induction s; simpl; congruence. Qed.

Lemma EqualFold_refl s : EqualFold s s = true.
Proof. apply bool_decide_eq_true. done. Qed.

(** ** [time.ParseDuration] *)

Definition digit (c : ascii) : option Z :=
  let n := N_of_ascii c in
  if (48 <=? n)%N && (n <=? 57)%N then Some (Z.of_N n - 48) else None.

Definition is_digit (c : ascii) : bool :=
  match digit c with Some _ => true | None => false end.

(** [leadingInt]: the digits, failing beyond 2^63. *)
Fixpoint leading_int (v : Z) (s : list ascii) : option (Z * list ascii) :=
  match s with
  | [] => Some (v, [])
  | c :: s' =>
      match digit c with
      | None => Some (v, s)
      | Some d =>
          let v' := v * 10 + d in
          if two63 <? v' then None else leading_int v' s'
      end
  end.

(** [leadingFraction]: digits past the precision of an int64 are dropped. *)
Fixpoint leading_fraction (f scale : Z) (full : bool) (s : list ascii)
    : Z * Z * list ascii :=
  match s with
  | [] => (f, scale, [])
  | c :: s' =>
      match digit c with
      | None => (f, scale, s)
      | Some d =>
          if full || (max_int64 / 10 <? f) then leading_fraction f scale true s'
          else
            let f' := f * 10 + d in
            if two63 <? f' then leading_fraction f scale true s'
            else leading_fraction f' (scale * 10) full s'
      end
  end.

Fixpoint take_unit (s : list ascii) : list ascii * list ascii :=
  match s with
  | [] => ([], [])
  | c :: s' =>
      if (c ≟ "."%char) || is_digit c then ([], s)
      else let '(u, r) := take_unit s' in (c :: u, r)
  end.

Definition unit_value (u : list ascii) : option Z :=
  let n := N_of_ascii <$> u in
  if n ≟ [110; 115]%N then Some Nanosecond
  else if n ≟ [117; 115]%N then Some Microsecond
  else if n ≟ [194; 181; 115]%N then Some Microsecond
  else if n ≟ [206; 188; 115]%N then Some Microsecond
  else if n ≟ [109; 115]%N then Some Millisecond
  else if n ≟ [115]%N then Some Second
  else if n ≟ [109]%N then Some Minute
  else if n ≟ [104]%N then Some Hour
  else None.

(** One [number unit] group after another; [fuel] bounds the number of groups
    by the length of the text. *)
Fixpoint duration_groups (fuel : nat) (d : Z) (s : list ascii) : option Z :=
  match fuel, s with
  | _, [] => Some d
  | O, _ :: _ => None
  | S fuel', c :: _ =>
      if negb ((c ≟ "."%char) || is_digit c) then None
      else
      match leading_int 0 s with
      | None => None
      | Some (v, s1) =>
          let pre := negb (length s1 =? length s)%nat in
          let '(f, scale, s2, post) :=
            match s1 with
            | c1 :: s1' =>
                if c1 ≟ "."%char then
                  let '(f, scale, s2) := leading_fraction 0 1 false s1' in
                  (f, scale, s2, negb (length s2 =? length s1')%nat)
                else (0, 1, s1, false)
            | [] => (0, 1, s1, false)
            end in
          if negb pre && negb post then None
          else
          let '(u, s3) := take_unit s2 in
          match unit_value u with
          | None => None
          | Some unit =>
              if two63 / unit <? v then None
              else
                let v' := v * unit + (f * unit) / scale in
                if two63 <? v' then None
                else if two63 <? d + v' then None
                else duration_groups fuel' (d + v') s3
          end
      end
  end.

Definition ParseDuration (s : string) : option Duration :=
  let l := String.list_ascii_of_string s in
  let '(neg, l) :=
    match l with
    | c :: l' => if c ≟ "-"%char then (true, l') else if c ≟ "+"%char then (false, l') else (false, l)
    | [] => (false, l)
    end in
  if l ≟ ["0"%char] then Some 0
  else match l with
  | [] => None
  | _ =>
    match duration_groups (length l) 0 l with
    | None => None
    | Some d => if neg then Some (- d) else if max_int64 <? d then None else Some d
    end
  end.

(** The idiom [d, _ := time.ParseDuration(s); if d <= 0 { d = dflt }]. *)
Definition duration_or (s : string) (dflt : Duration) : Duration :=
  let d := default 0 (ParseDuration s) in if d <=? 0 then dflt else d.

Example parse_2m : ParseDuration "2m" = Some (2 * Minute).
Proof. reflexivity. Qed.
Example parse_1h30m : ParseDuration "1h30m" = Some (90 * Minute).
Proof. reflexivity. Qed.
Example parse_1_5h : ParseDuration "1.5h" = Some (90 * Minute).
Proof. reflexivity. Qed.
Example parse_neg : ParseDuration "-90s" = Some (- (90 * Second)).
Proof. reflexivity. Qed.
Example parse_bad : ParseDuration "3 days" = None.
Proof. reflexivity. Qed.

Lemma duration_or_pos s d : 0 < d → 0 < duration_or s d.
Proof. unfold duration_or. destruct (Z.leb_spec (default 0 (ParseDuration s)) 0); lia. Qed.
