(* ===== verification/Text.v ===== *)
(** * Strings as lists of characters

    What the proofs about texts share: cutting a text at a separator or after a
    token, and the characters of a printed number. *)

From Stdlib Require Import Ascii String.
From S2P Require Import Prelude GoStd.

Definition chars (s : string) : list ascii := String.list_ascii_of_string s.

Lemma chars_inj s t : chars s = chars t → s = t.
Proof.
  intros H. rewrite <- (String.string_of_list_ascii_of_string s),
    <- (String.string_of_list_ascii_of_string t). by f_equal.
Qed.

Lemma chars_app s t : chars (s +:+ t) = chars s ++ chars t.
Proof. induction s as [|c s IH]; simpl; [done|]. by rewrite IH. Qed.

Lemma text_assoc s t u : (s +:+ t) +:+ u = s +:+ (t +:+ u).
Proof. apply chars_inj. by rewrite !chars_app, app_assoc. Qed.

Lemma text_nil s : s +:+ "" = s.
Proof. apply chars_inj. rewrite chars_app. apply app_nil_r. Qed.

Lemma chars_length s : length (chars s) = String.length s.
Proof. induction s as [|c s IH]; simpl; congruence. Qed.

Lemma chars_of l : chars (String.string_of_list_ascii l) = l.
Proof. apply String.list_ascii_of_string_of_list_ascii. Qed.

(** ** Cutting *)

(** After a token: its characters satisfy [p], what follows does not begin with one. *)
Definition stops (p : ascii → bool) (r : list ascii) : Prop :=
  match r with c :: _ => p c = false | [] => True end.

Lemma cut_token (p : ascii → bool) a b r r' :
  Forall (fun c => p c = true) a → Forall (fun c => p c = true) b → stops p r → stops p r' →
  a ++ r = b ++ r' → a = b ∧ r = r'.
Proof.
  intros Ha. revert b. induction Ha as [|c a Hc Ha IH]; intros b Hb Hr Hr' E.
  - destruct Hb as [|d b Hd Hb]; [done|]. simpl in E. subst r. simpl in Hr. congruence.
  - destruct Hb as [|d b Hd Hb].
    + simpl in E. subst r'. simpl in Hr'. congruence.
    + injection E as -> E. by destruct (IH b Hb Hr Hr' E) as [-> ->].
Qed.

Lemma cut_separator (c : ascii) (a b r r' : list ascii) :
  c ∉ a → c ∉ b → a ++ c :: r = b ++ c :: r' → a = b ∧ r = r'.
Proof.
  intros Ha Hb E.
  destruct (cut_token (fun x => x ≠? c) a b (c :: r) (c :: r')) as [-> [=]]; try done.
  - apply Forall_forall. intros x Hx. apply negb_true_iff, bool_decide_eq_false. by intros ->.
  - apply Forall_forall. intros x Hx. apply negb_true_iff, bool_decide_eq_false. by intros ->.
  - simpl. by rewrite (bool_decide_eq_true_2 _ eq_refl).
  - simpl. by rewrite (bool_decide_eq_true_2 _ eq_refl).
Qed.

Lemma cut_length (a b r r' : list ascii) :
  length a = length b → a ++ r = b ++ r' → a = b ∧ r = r'.
Proof. intros. by apply app_inj_1. Qed.

(** ** Printed numbers *)

Definition number_char (c : ascii) : bool := is_digit c || (c ≟ "-"%char).

Lemma pretty_N_go_chars n s :
  Forall (fun c => number_char c = true) (chars s) →
  Forall (fun c => number_char c = true) (chars (pretty_N_go n s)).
Proof.
  revert s. induction (N.lt_wf_0 n) as [n _ IH]. intros s Hs.
  destruct (decide (n = 0%N)) as [->|Hn]; [by rewrite pretty_N_go_0|].
  rewrite pretty_N_go_step by lia. apply IH; [by apply N.div_lt; lia|].
  constructor; [|done].
  assert (∃ k, (k < 10)%nat ∧ (n `mod` 10)%N = N.of_nat k) as (k & Hk & ->).
  { exists (N.to_nat (n `mod` 10)). pose proof (N.mod_lt n 10). lia. }
  do 10 (destruct k as [|k]; [reflexivity|]). lia.
Qed.

Lemma pretty_Z_chars (z : Z) : Forall (fun c => number_char c = true) (chars (pretty z)).
Proof.
  assert (∀ n : N, Forall (fun c => number_char c = true) (chars (pretty n))) as Hn.
  { intros n. unfold pretty, pretty_N. case_decide; [by repeat constructor|].
    apply pretty_N_go_chars. constructor. }
  destruct z; simpl; [by repeat constructor|apply Hn|]. constructor; [done|apply Hn].
Qed.

Lemma pretty_N_go_length n s : (String.length s ≤ String.length (pretty_N_go n s))%nat.
Proof.
  revert s. induction (N.lt_wf_0 n) as [n _ IH]. intros s.
  destruct (decide (n = 0%N)) as [->|Hn]; [by rewrite pretty_N_go_0|].
  rewrite pretty_N_go_step by lia.
  etransitivity; [|apply IH, N.div_lt; lia]. simpl. lia.
Qed.

Lemma pretty_Z_nonempty (z : Z) : ∃ c l, chars (pretty z) = c :: l.
Proof.
  assert (∀ p, (1 ≤ String.length (pretty (Npos p)))%nat) as Hp.
  { intros p. unfold pretty, pretty_N. case_decide; [done|].
    rewrite pretty_N_go_step by lia. etransitivity; [|apply pretty_N_go_length]. simpl. lia. }
  destruct (chars (pretty z)) as [|c l] eqn:E; [|by eauto]. exfalso.
  apply (f_equal length) in E. rewrite chars_length in E. destruct z as [|p|p]; [done| |done].
  specialize (Hp p). change (pretty (Z.pos p)) with (pretty (Npos p)) in E. simpl length in E. lia.
Qed.
