(* ===== verification/Json.v ===== *)
(** * [encoding/json] on decoded values

    RepoArk stores job payloads, agent labels and inventories as JSON text.
    The model keeps the decoded value: [Json v] is text that parses to [v],
    [NotJson s] is text that does not parse.  [json.Marshal] of a struct builds
    the object field by field ([omitempty] included); [json.Unmarshal] into a
    struct reads the tagged fields, a missing or null field leaving the zero
    value and a value of another type being an error. *)

From Stdlib Require Import Ascii String QArith.
From S2P Require Import Prelude GoStd.

Inductive json :=
| JNull
| JBool (b : bool)
| JInt (z : Z)
| JFloat (q : Q)
| JStr (s : string)
| JArr (l : list json)
| JObj (fields : list (string * json)).

Inductive json_text :=
| NotJson (s : string)
| Json (v : json).

Definition empty_text : json_text := NotJson "".

(** ** Marshalling *)

Definition jfield (k : string) (v : json) : list (string * json) := [(k, v)].
Definition jfield_opt (omit : bool) (k : string) (v : json) : list (string * json) :=
  if omit then [] else [(k, v)].

Definition jstrs (l : list string) : json := JArr (JStr <$> l).

(** ** Unmarshalling

    [encoding/json] assigns object keys in order, so the last occurrence of a
    repeated key wins, and matches the name of a struct field up to case. *)

Fixpoint field (k : string) (fs : list (string * json)) : option json :=
  match fs with
  | [] => None
  | (k', v) :: fs' =>
      match field k fs' with
      | Some w => Some w
      | None => if EqualFold k k' then Some v else None
      end
  end.

Definition dec_str (fs : list (string * json)) (k : string) : option string :=
  match field k fs with
  | None | Some JNull => Some ""
  | Some (JStr s) => Some s
  | Some _ => None
  end.

Definition dec_int (fs : list (string * json)) (k : string) : option Z :=
  match field k fs with
  | None | Some JNull => Some 0
  | Some (JInt z) => if (min_int64 <=? z) && (z <=? max_int64) then Some z else None
  | Some _ => None
  end.

Fixpoint all_strs (l : list json) : option (list string) :=
  match l with
  | [] => Some []
  | JStr s :: l' => cons s <$> all_strs l'
  | JNull :: l' => cons "" <$> all_strs l'
  | _ => None
  end.

Definition dec_strs (fs : list (string * json)) (k : string) : option (list string) :=
  match field k fs with
  | None | Some JNull => Some []
  | Some (JArr l) => all_strs l
  | Some _ => None
  end.

(** The object of a text that decodes into a struct ([null] decodes to the
    zero struct). *)
Definition as_obj (t : json_text) : option (list (string * json)) :=
  match t with
  | Json (JObj fs) => Some fs
  | Json JNull => Some []
  | _ => None
  end.

(** [var m map[string]string; json.Unmarshal(text, &m)]: every value must be a
    string (or null, read as the empty string). *)
Fixpoint string_fields (fs : list (string * json)) : option (gmap string string) :=
  match fs with
  | [] => Some ∅
  | (k, v) :: fs' =>
      m ← string_fields fs';
      match v with
      | JStr s => Some (match m !! k with Some _ => m | None => <[k:=s]> m end)
      | JNull => Some (match m !! k with Some _ => m | None => <[k:=""]> m end)
      | _ => None
      end
  end.

Definition as_string_map (t : json_text) : option (gmap string string) :=
  fs ← as_obj t; string_fields fs.

(** [var m map[string]any; json.Unmarshal(text, &m); v, ok := m[k]]: the last
    occurrence of exactly that key. *)
Fixpoint map_field (k : string) (fs : list (string * json)) : option json :=
  match fs with
  | [] => None
  | (k', v) :: fs' =>
      match map_field k fs' with
      | Some w => Some w
      | None => if k ≟ k' then Some v else None
      end
  end.

Lemma all_strs_jstrs l : all_strs (JStr <$> l) = Some l.
Proof. induction l as [|s l IH]; csimpl; [done|]. by rewrite IH. Qed.

Lemma field_app k fs gs :
  field k (fs ++ gs) = match field k gs with Some v => Some v | None => field k fs end.
Proof.
  induction fs as [|[k' v] fs IH]; simpl.
  - by destruct (field k gs).
  - rewrite IH. by destruct (field k gs).
Qed.

Lemma dec_int_id fs k z : field k fs = Some (JInt z) → in_int64 z → dec_int fs k = Some z.
Proof.
  intros H [? ?]. unfold dec_int. rewrite H.
  destruct (Z.leb_spec min_int64 z), (Z.leb_spec z max_int64); (lia || done).
Qed.

(** Reads every field of a marshalled struct whose keys are literals. *)
Ltac json_fields :=
  unfold dec_str, dec_int, dec_strs, jfield, jfield_opt, jstrs;
  repeat (rewrite field_app || case_if);
  simpl; try done.
