(* ===== verification/GoTime.v ===== *)
(** * Dates and RFC 3339 text

    [time.Time] as [encoding/json] writes and reads it: the proleptic Gregorian
    calendar, [Format(RFC3339Nano)] and [Parse(RFC3339)].  An instant counts
    nanoseconds from the zero time, 1 January of year 1, so a date is its number
    of days from there; a [Zoned] time has the offset of its location as well,
    which its text shows. *)

From Stdlib Require Import Ascii String.
From S2P Require Import Prelude GoStd Json.
#[global] Open Scope Z_scope.

(** ** The calendar *)

Definition leap (y : Z) : bool :=
  (y mod 4 =? 0) && (negb (y mod 100 =? 0) || (y mod 400 =? 0)).

(** [daysIn] *)
Definition days_in (m y : Z) : Z :=
  if m =? 2 then if leap y then 29 else 28
  else if (m =? 4) || (m =? 6) || (m =? 9) || (m =? 11) then 30 else 31.

Fixpoint days_of_months (k : nat) (y : Z) : Z :=
  match k with
  | O => 0
  | S k' => days_of_months k' y + days_in (Z.of_nat k) y
  end.

Definition days_before (m y : Z) : Z := days_of_months (Z.to_nat (m - 1)) y.
Definition days_to_year (y : Z) : Z :=
  365 * (y - 1) + (y - 1) / 4 - (y - 1) / 100 + (y - 1) / 400.
Definition days_of (y m d : Z) : Z := days_to_year y + days_before m y + (d - 1).

Fixpoint month_from (k : nat) (m yday y : Z) : Z * Z :=
  match k with
  | O => (m, yday)
  | S k' =>
      if yday <? days_in m y then (m, yday) else month_from k' (m + 1) (yday - days_in m y) y
  end.

(** The year and the day of that year. *)
Definition year_of (n : Z) : Z * Z :=
  let n400 := n / 146097 in
  let r := n mod 146097 in
  let n100 := Z.min 3 (r / 36524) in
  let r := r - 36524 * n100 in
  let n4 := r / 1461 in
  let r := r mod 1461 in
  let n1 := Z.min 3 (r / 365) in
  (400 * n400 + 100 * n100 + 4 * n4 + n1 + 1, r - 365 * n1).

Definition civil (n : Z) : Z * Z * Z :=
  let '(y, yday) := year_of n in
  let '(m, d) := month_from 11 1 yday y in
  (y, m, d + 1).

Lemma leap_spec y : leap y = true ↔ y mod 4 = 0 ∧ (y mod 100 ≠ 0 ∨ y mod 400 = 0).
Proof.
  unfold leap. destruct (Z.eqb_spec (y mod 4) 0), (Z.eqb_spec (y mod 100) 0),
    (Z.eqb_spec (y mod 400) 0); simpl; naive_solver lia.
Qed.

Lemma days_in_pos m y : 28 ≤ days_in m y ≤ 31.
Proof. unfold days_in. repeat case_match; lia. Qed.

Lemma days_before_succ m y : 1 ≤ m → days_before (m + 1) y = days_before m y + days_in m y.
Proof.
  intros H. unfold days_before. replace (Z.to_nat (m + 1 - 1)) with (S (Z.to_nat (m - 1))) by lia.
  simpl. f_equal. f_equal. lia.
Qed.

Lemma year_length y : days_before 13 y = 365 + if leap y then 1 else 0.
Proof.
  unfold days_before. change (Z.to_nat (13 - 1)) with 12%nat. cbn -[leap].
  unfold days_in. simpl. destruct (leap y); lia.
Qed.

Lemma month_from_spec k m yday y :
  1 ≤ m → 0 ≤ yday → days_before m y + yday < days_before (m + Z.of_nat k + 1) y →
  let '(m', d) := month_from k m yday y in
  m ≤ m' ≤ m + Z.of_nat k ∧ 0 ≤ d < days_in m' y ∧
  days_before m' y + d = days_before m y + yday.
Proof.
  revert m yday. induction k as [|k IH]; intros m yday Hm Hd Hlt.
  - simpl in *. rewrite Z.add_0_r, days_before_succ in Hlt by lia. lia.
  - cbn [month_from]. destruct (Z.ltb_spec yday (days_in m y)); [lia|].
    specialize (IH (m + 1) (yday - days_in m y)). rewrite days_before_succ in IH by lia.
    destruct (month_from k (m + 1) (yday - days_in m y) y) as [m' d].
    destruct IH as (? & ? & ?); [lia|lia| |lia].
    replace (m + 1 + Z.of_nat k + 1) with (m + Z.of_nat (S k) + 1) by lia. lia.
Qed.

Lemma year_of_spec n :
  let '(y, yday) := year_of n in
  days_to_year y + yday = n ∧ 0 ≤ yday < 365 + if leap y then 1 else 0.
Proof.
  unfold year_of, days_to_year. cbv zeta.
  pose proof (Z.mod_pos_bound n 146097 ltac:(lia)) as Hr.
  pose proof (Z.div_mod n 146097 ltac:(lia)) as Hn.
  set (a := n / 146097) in *. set (r := n mod 146097) in *. clearbody a r.
  set (b := Z.min 3 (r / 36524)).
  assert (0 ≤ b ≤ 3 ∧ 0 ≤ r - 36524 * b ∧ (b < 3 → r - 36524 * b < 36524) ∧
    r - 36524 * b ≤ 36524) as (Hb & Hr0 & Hr1 & Hr2).
  { unfold b. pose proof (Z.div_mod r 36524 ltac:(lia)).
    pose proof (Z.mod_pos_bound r 36524 ltac:(lia)).
    destruct (Z.min_spec 3 (r / 36524)) as [[? ->]|[? ->]]; nia. }
  clearbody b. set (s := r - 36524 * b) in *.
  pose proof (Z.div_mod s 1461 ltac:(lia)) as Hs.
  pose proof (Z.mod_pos_bound s 1461 ltac:(lia)) as Ht.
  set (c := s / 1461) in *. set (t := s mod 1461) in *. clearbody c t.
  set (d := Z.min 3 (t / 365)).
  assert (0 ≤ d ≤ 3 ∧ 0 ≤ t - 365 * d ≤ 365 ∧ (t - 365 * d = 365 → d = 3 ∧ t = 1460)) as (Hd & Hu & Hl).
  { unfold d. pose proof (Z.div_mod t 365 ltac:(lia)).
    pose proof (Z.mod_pos_bound t 365 ltac:(lia)).
    destruct (Z.min_spec 3 (t / 365)) as [[? ->]|[? ->]]; nia. }
  clearbody d. assert (0 ≤ c ≤ 24) by lia.
  set (m := 400 * a + 100 * b + 4 * c + d).
  assert (m / 4 = 100 * a + 25 * b + c)
    by (symmetry; apply (Z.div_unique _ _ _ d); unfold m; lia).
  assert (m / 100 = 4 * a + b)
    by (symmetry; apply (Z.div_unique _ _ _ (4 * c + d)); unfold m; lia).
  assert (m / 400 = a)
    by (symmetry; apply (Z.div_unique _ _ _ (100 * b + 4 * c + d)); unfold m; lia).
  replace (m + 1 - 1) with m by lia.
  split; [unfold m in *; lia|]. split; [lia|].
  destruct (leap (m + 1)) eqn:El; [lia|].
  destruct (decide (t - 365 * d = 365)) as [E|]; [|lia]. exfalso.
  assert (leap (m + 1) = true); [|congruence].
  apply leap_spec. destruct (Hl E) as [-> Ht'].
  assert ((m + 1) mod 4 = 0) as ->
    by (symmetry; apply (Z.mod_unique _ _ (100 * a + 25 * b + c + 1)); unfold m; lia).
  split; [done|]. destruct (Z.eq_dec c 24) as [->|].
  - right. symmetry. apply (Z.mod_unique _ _ (a + 1)); unfold m; lia.
  - left. assert ((m + 1) mod 100 = 4 * c + 4) as ->; [|lia].
    symmetry. apply (Z.mod_unique _ _ (4 * a + b)); unfold m; lia.
Qed.

(** The calendar is right: a date stands for its day. *)
Lemma days_of_civil n :
  let '(y, m, d) := civil n in
  days_of y m d = n ∧ 1 ≤ m ≤ 12 ∧ 1 ≤ d ≤ days_in m y.
Proof.
  unfold civil. pose proof (year_of_spec n) as H. destruct (year_of n) as [y yday].
  destruct H as (Hn & Hy).
  pose proof (month_from_spec 11 1 yday y ltac:(lia) ltac:(lia)) as Hm.
  change (1 + Z.of_nat 11 + 1) with 13 in Hm. rewrite year_length in Hm.
  destruct (month_from 11 1 yday y) as [m d]. unfold days_of.
  change (days_before 1 y) with 0 in Hm. lia.
Qed.

Example civil_epoch : civil (days_of 1970 1 1) = (1970, 1, 1) ∧ days_of 1970 1 1 = 719162.
Proof. by vm_compute. Qed.
Example civil_leap_day : civil (days_of 2024 2 29 + 1) = (2024, 3, 1).
Proof. by vm_compute. Qed.

(** ** Digits *)

Definition digit_char (d : Z) : ascii := ascii_of_N (Z.to_N (48 + d)).

(** The [w] last decimal digits of [n]. *)
Fixpoint digits (w : nat) (n : Z) : list ascii :=
  match w with
  | O => []
  | S w' => digits w' (n / 10) ++ [digit_char (n mod 10)]
  end.

(** Exactly [w] digits. *)
Fixpoint read_digits (w : nat) (acc : Z) (l : list ascii) : option (Z * list ascii) :=
  match w, l with
  | O, _ => Some (acc, l)
  | S w', c :: l' =>
      match digit c with
      | Some d => read_digits w' (acc * 10 + d) l'
      | None => None
      end
  | S _, [] => None
  end.

Lemma digit_digit_char d : 0 ≤ d < 10 → digit (digit_char d) = Some d.
Proof.
  intros H. assert (∃ k, (k < 10)%nat ∧ d = Z.of_nat k) as (k & Hk & ->)
    by (exists (Z.to_nat d); lia).
  do 10 (destruct k as [|k]; [reflexivity|]). lia.
Qed.

Lemma read_digits_app w1 w2 acc l :
  read_digits (w1 + w2) acc l =
  match read_digits w1 acc l with Some (a, l') => read_digits w2 a l' | None => None end.
Proof.
  revert acc l. induction w1 as [|w1 IH]; intros acc [|c l]; simpl; try done.
  destruct (digit c); [apply IH|done].
Qed.

Lemma read_digits_digits w n acc r :
  read_digits w acc (digits w n ++ r)
  = Some (acc * 10 ^ Z.of_nat w + n mod 10 ^ Z.of_nat w, r).
Proof.
  revert n r. induction w as [|w IH]; intros n r.
  { simpl. rewrite Z.mod_1_r. do 2 f_equal. lia. }
  replace (S w) with (w + 1)%nat at 1 by lia. cbn [digits].
  rewrite <- app_assoc, read_digits_app, IH. simpl.
  rewrite digit_digit_char by (apply Z.mod_pos_bound; lia).
  replace (Z.of_nat (S w)) with (Z.of_nat w + 1) by lia.
  rewrite Z.pow_add_r by lia. change (10 ^ 1) with 10.
  rewrite (Z.mul_comm (10 ^ Z.of_nat w) 10), Z.rem_mul_r by lia. do 2 f_equal. lia.
Qed.

Lemma read_digits_small w n r :
  0 ≤ n < 10 ^ Z.of_nat w → read_digits w 0 (digits w n ++ r) = Some (n, r).
Proof. intros H. by rewrite read_digits_digits, Z.mod_small. Qed.

Lemma digits_length w n : length (digits w n) = w.
Proof. revert n. induction w; intros n; simpl; [done|]. rewrite length_app, IHw. simpl. lia. Qed.

Lemma digits_are_digits w n c : c ∈ digits w n → is_digit c = true.
Proof.
  revert n. induction w as [|w IH]; intros n; simpl; [by intros ?%not_elem_of_nil|].
  intros [?| ->%list_elem_of_singleton]%elem_of_app; [by eapply IH|].
  unfold is_digit. by rewrite digit_digit_char by (apply Z.mod_pos_bound; lia).
Qed.

(** ** Fractions of a second *)

(** Without the zeros at its end, as RFC3339Nano prints it. *)
Fixpoint trim_zeros (l : list ascii) : list ascii :=
  match l with
  | [] => []
  | c :: l' => match trim_zeros l' with [] => if c ≟ "0"%char then [] else [c] | l'' => c :: l'' end
  end.

(** [parseNanoseconds]: nine digits count, as if zeros followed. *)
Fixpoint nanos (k : nat) (l : list ascii) : Z :=
  match k, l with
  | S k', c :: l' => match digit c with Some d => d | None => 0 end * 10 ^ Z.of_nat k' + nanos k' l'
  | _, _ => 0
  end.

Fixpoint span_digits (l : list ascii) : list ascii * list ascii :=
  match l with
  | c :: l' => if is_digit c then let '(ds, r) := span_digits l' in (c :: ds, r) else ([], l)
  | [] => ([], [])
  end.

Lemma nanos_trim k l : nanos k (trim_zeros l) = nanos k l.
Proof.
  revert k. induction l as [|c l IH]; intros [|k]; try done.
  cbn [nanos]. rewrite <- IH. cbn [trim_zeros]. destruct (trim_zeros l) as [|x l'] eqn:Et; [|done].
  assert (nanos k [] = 0) as -> by by destruct k.
  destruct (bool_decide_reflect (c = "0"%char)) as [->|]; [simpl; lia|].
  cbn [nanos]. by destruct k.
Qed.

Lemma nanos_read k l acc n r : read_digits k acc (l ++ r) = Some (n, r) → length l = k →
  n = acc * 10 ^ Z.of_nat k + nanos k l.
Proof.
  revert l acc. induction k as [|k IH]; intros [|c l] acc; try done.
  - intros H _. simpl in *. injection H as <-. lia.
  - cbn [read_digits nanos app]. destruct (digit c) as [d|]; [|done]. intros H [= Hl].
    rewrite (IH l _ H Hl), Nat2Z.inj_succ, Z.pow_succ_r by lia. lia.
Qed.

Lemma nanos_digits k n : 0 ≤ n < 10 ^ Z.of_nat k → nanos k (digits k n) = n.
Proof.
  intros H. pose proof (read_digits_small k n [] H) as E.
  pose proof (nanos_read k (digits k n) 0 n [] E (digits_length k n)). lia.
Qed.

Lemma span_digits_app ds r :
  (∀ c, c ∈ ds → is_digit c = true) → match r with c :: _ => is_digit c = false | [] => True end →
  span_digits (ds ++ r) = (ds, r).
Proof.
  intros Hd Hr. induction ds as [|c ds IH]; simpl.
  - destruct r as [|c r]; simpl; [done|]. by rewrite Hr.
  - rewrite Hd by by left. rewrite IH; [done|]. intros x Hx. apply Hd. by right.
Qed.

Lemma trim_zeros_incl l c : c ∈ trim_zeros l → c ∈ l.
Proof.
  induction l as [|x l IH]; simpl; [done|].
  destruct (trim_zeros l) as [|y l'] eqn:Et.
  - destruct (x ≟ "0"%char); [by intros ?%not_elem_of_nil|].
    intros ->%list_elem_of_singleton. by left.
  - intros [->|H]%elem_of_cons; [by left|]. right. by apply IH.
Qed.

Lemma trim_zeros_last l : trim_zeros l ≠ [] → ∃ l' c, trim_zeros l = l' ++ [c].
Proof. intros H. destruct (exists_last H) as (l' & c & E). eauto. Qed.

(** ** RFC 3339 *)

(** An instant in a location [z_offset] seconds east of Greenwich. *)
Record Zoned := mkZoned {
  z_instant : Time;
  z_offset : Z
}.

Definition UTC (t : Time) : Zoned := mkZoned t 0.

Definition day_seconds : Z := 86400.

Definition zone_text (offset : Z) : list ascii :=
  if offset =? 0 then ["Z"%char]
  else
    let m := Z.abs offset / 60 in
    (if offset <? 0 then "-"%char else "+"%char)
      :: digits 2 (m / 60) ++ ":"%char :: digits 2 (m mod 60).

Definition fraction_text (ns : Z) : list ascii :=
  match trim_zeros (digits 9 ns) with [] => [] | ds => "."%char :: ds end.

Definition time_text (t : Zoned) : list ascii :=
  let local := t.(z_instant) / Second + t.(z_offset) in
  let '(y, m, d) := civil (local / day_seconds) in
  let s := local mod day_seconds in
  digits 4 y ++ "-"%char :: digits 2 m ++ "-"%char :: digits 2 d ++ "T"%char ::
  digits 2 (s / 3600) ++ ":"%char :: digits 2 (s / 60 mod 60) ++ ":"%char :: digits 2 (s mod 60) ++
  fraction_text (t.(z_instant) mod Second) ++ zone_text t.(z_offset).

(** [Time.MarshalJSON] refuses a year of more than four digits, and an offset of a
    day or more. *)
Definition marshal_time (t : Zoned) : option string :=
  let '(y, _, _) := civil ((t.(z_instant) / Second + t.(z_offset)) / day_seconds) in
  if (0 <=? y) && (y <=? 9999) && (Z.abs t.(z_offset) <? 24 * 3600)
  then Some (String.string_of_list_ascii (time_text t)) else None.

Definition expect (c : ascii) (l : list ascii) : option (list ascii) :=
  match l with x :: l' => if x ≟ c then Some l' else None | [] => None end.

Definition in_range (lo hi n : Z) : option unit := if (lo <=? n) && (n <=? hi) then Some tt else None.

(** An hour may have a single digit. *)
Definition read_hour (l : list ascii) : option (Z * list ascii) :=
  match l with
  | c :: d :: _ => if is_digit d then read_digits 2 0 l else read_digits 1 0 l
  | _ => read_digits 1 0 l
  end.

Definition read_fraction (l : list ascii) : Z * list ascii :=
  match l with
  | p :: c :: _ =>
      if ((p ≟ "."%char) || (p ≟ ","%char)) && is_digit c then
        let '(ds, r) := span_digits (tail l) in (nanos 9 ds, r)
      else (0, l)
  | _ => (0, l)
  end.

Definition read_zone (l : list ascii) : option Z :=
  match l with
  | ["Z"%char] => Some 0
  | c :: l' =>
      '(h, l1) ← read_digits 2 0 l';
      l2 ← expect ":"%char l1;
      '(m, l3) ← read_digits 2 0 l2;
      in_range 0 24 h;; in_range 0 60 m;;
      match l3 with
      | [] =>
          if c ≟ "+"%char then Some ((h * 60 + m) * 60)
          else if c ≟ "-"%char then Some (- ((h * 60 + m) * 60))
          else None
      | _ => None
      end
  | [] => None
  end.

(** [Parse(RFC3339, s)] *)
Definition parse_time (s : string) : option Zoned :=
  '(y, l) ← read_digits 4 0 (String.list_ascii_of_string s);
  l ← expect "-"%char l;
  '(m, l) ← read_digits 2 0 l;
  l ← expect "-"%char l;
  '(d, l) ← read_digits 2 0 l;
  l ← expect "T"%char l;
  '(hh, l) ← read_hour l;
  l ← expect ":"%char l;
  '(mm, l) ← read_digits 2 0 l;
  l ← expect ":"%char l;
  '(ss, l) ← read_digits 2 0 l;
  let '(ns, l) := read_fraction l in
  offset ← read_zone l;
  in_range 1 12 m;; in_range 1 (days_in m y) d;;
  in_range 0 23 hh;; in_range 0 59 mm;; in_range 0 59 ss;;
  Some (mkZoned ((days_of y m d * day_seconds + hh * 3600 + mm * 60 + ss - offset) * Second + ns)
    offset).

(** ** Reading back what was written *)

(** The offset of a location that [zone_text] shows in full. *)
Definition zone_ok (offset : Z) : Prop := offset mod 60 = 0 ∧ Z.abs offset < 24 * 3600.

Lemma read_hour_digits h r : 0 ≤ h < 100 → read_hour (digits 2 h ++ r) = Some (h, r).
Proof.
  intros H. rewrite <- (read_digits_small 2 h r) by done.
  assert (∃ a b, digits 2 h = [a; b] ∧ is_digit b = true) as (a & b & E & Hb).
  { eexists _, _. split; [reflexivity|]. apply (digits_are_digits 2 h).
    simpl. right. by left. }
  rewrite E. unfold read_hour. cbn [app]. by rewrite Hb.
Qed.

Lemma expect_cons c l : expect c (c :: l) = Some l.
Proof. simpl. by rewrite (bool_decide_eq_true_2 _ eq_refl). Qed.

Lemma read_fraction_skip c l :
  c ≠ "."%char → c ≠ ","%char → read_fraction (c :: l) = (0, c :: l).
Proof.
  intros H1 H2. simpl. destruct l; [done|].
  by rewrite (bool_decide_eq_false_2 _ H1), (bool_decide_eq_false_2 _ H2).
Qed.

Lemma zone_text_head o : ∃ c l, zone_text o = c :: l ∧ c ≠ "."%char ∧ c ≠ ","%char ∧ is_digit c = false.
Proof.
  unfold zone_text. destruct (o =? 0); [by eexists _, _|]. destruct (o <? 0); by eexists _, _.
Qed.

Lemma read_fraction_text ns o : 0 ≤ ns < Second →
  read_fraction (fraction_text ns ++ zone_text o) = (ns, zone_text o).
Proof.
  intros Hns. destruct (zone_text_head o) as (c & l & Ez & H1 & H2 & H3). unfold fraction_text.
  pose proof (nanos_trim 9 (digits 9 ns)) as Hn. rewrite nanos_digits in Hn by done.
  pose proof (trim_zeros_incl (digits 9 ns)) as Hi.
  destruct (trim_zeros (digits 9 ns)) as [|x ds] eqn:Et; simpl app.
  - rewrite Ez. rewrite read_fraction_skip by done. simpl in Hn. by rewrite <- Hn.
  - unfold read_fraction. assert (∀ y, y ∈ x :: ds → is_digit y = true) as Hd
      by (intros y Hy; by eapply digits_are_digits, Hi).
    rewrite (Hd x) by by left. simpl orb. cbv iota. simpl andb. cbv iota. cbn [tail].
    change (x :: ds ++ zone_text o) with ((x :: ds) ++ zone_text o).
    rewrite span_digits_app; [by rewrite Hn|done|]. by rewrite Ez.
Qed.

Lemma read_zone_text o : zone_ok o → read_zone (zone_text o) = Some o.
Proof.
  intros [Hm Ho]. unfold zone_text. destruct (Z.eqb_spec o 0) as [->|Hz]; [done|].
  pose proof (Z.div_mod o 60 ltac:(lia)) as Hq. rewrite Hm in Hq.
  assert (Z.abs o = 60 * (Z.abs o / 60)) as Hm'.
  { pose proof (Z.div_mod (Z.abs o) 60 ltac:(lia)).
    assert (Z.abs o mod 60 = 0); [|lia].
    rewrite Hq, Z.add_0_r, Z.abs_mul, Z.mul_comm. apply Z.mod_mul. lia. }
  set (m := Z.abs o / 60) in *. clearbody m.
  assert (0 ≤ m / 60 < 24) by (split; [apply Z.div_pos; lia|apply Z.div_lt_upper_bound; lia]).
  pose proof (Z.mod_pos_bound m 60 ltac:(lia)). pose proof (Z.div_mod m 60 ltac:(lia)) as Hd.
  assert (∀ c, c ≠ "Z"%char → read_zone (c :: digits 2 (m / 60) ++ ":"%char :: digits 2 (m mod 60))
    = if c ≟ "+"%char then Some (m * 60) else if c ≟ "-"%char then Some (- (m * 60)) else None) as Hr.
  { intros c Hc. unfold read_zone.
    rewrite read_digits_small by (simpl; lia). cbn [mbind option_bind].
    rewrite expect_cons. cbn [mbind option_bind].
    rewrite <- (app_nil_r (digits 2 (m mod 60))), read_digits_small by (simpl; lia).
    cbn [mbind option_bind]. unfold in_range.
    rewrite (proj2 (Z.leb_le 0 (m / 60)) ltac:(lia)), (proj2 (Z.leb_le (m / 60) 24) ltac:(lia)),
      (proj2 (Z.leb_le 0 (m mod 60)) ltac:(lia)), (proj2 (Z.leb_le (m mod 60) 60) ltac:(lia)).
    replace (m / 60 * 60 + m mod 60) with m by lia.
    destruct (digits 2 (m / 60)) eqn:E; [by apply (f_equal length) in E|].
    cbn -[bool_decide]. clear -Hc. destruct c as [[] [] [] [] [] [] [] []]; done. }
  destruct (Z.ltb_spec o 0); rewrite Hr by done; simpl; f_equal; lia.
Qed.

(** A time reads back as it was written. *)
Lemma parse_marshal_time t s :
  zone_ok t.(z_offset) → marshal_time t = Some s → parse_time s = Some t.
Proof.
  destruct t as [t o]. unfold marshal_time, parse_time, time_text. simpl z_instant. simpl z_offset.
  intros Ho. set (local := t / Second + o).
  pose proof (days_of_civil (local / day_seconds)) as Hc.
  destruct (civil (local / day_seconds)) as [[y m] d]. destruct Hc as (Hdays & Hm & Hd).
  destruct ((0 <=? y) && (y <=? 9999) && (Z.abs o <? 24 * 3600)) eqn:Ey; [|done].
  intros Es. apply (inj Some) in Es. rewrite <- Es. clear s Es. bool_to_prop.
  rewrite String.list_ascii_of_string_of_list_ascii.
  pose proof (days_in_pos m y).
  pose proof (Z.mod_pos_bound local day_seconds ltac:(unfold day_seconds; lia)) as Hs.
  pose proof (Z.div_mod local day_seconds ltac:(unfold day_seconds; lia)) as Hl.
  set (s := local mod day_seconds) in *. unfold day_seconds in Hs.
  pose proof (Z.mod_pos_bound t Second ltac:(unfold Second; lia)) as Hns.
  pose proof (Z.div_mod t Second ltac:(unfold Second; lia)) as Ht.
  assert (0 ≤ s / 3600 < 24) by (split; [apply Z.div_pos; lia|apply Z.div_lt_upper_bound; lia]).
  pose proof (Z.mod_pos_bound (s / 60) 60 ltac:(lia)) as Hmm.
  pose proof (Z.mod_pos_bound s 60 ltac:(lia)) as Hss.
  assert (s = s / 3600 * 3600 + s / 60 mod 60 * 60 + s mod 60) as Hsum.
  { pose proof (Z.div_mod s 60 ltac:(lia)). pose proof (Z.div_mod (s / 60) 60 ltac:(lia)) as H60.
    rewrite Z.div_div in H60 by lia. change (60 * 60) with 3600 in H60. lia. }
  rewrite read_digits_small by (simpl; lia). cbn [mbind option_bind].
  rewrite expect_cons. cbn [mbind option_bind].
  rewrite read_digits_small by (simpl; lia). cbn [mbind option_bind].
  rewrite expect_cons. cbn [mbind option_bind].
  rewrite read_digits_small by (simpl; lia). cbn [mbind option_bind].
  rewrite expect_cons. cbn [mbind option_bind].
  rewrite read_hour_digits by lia. cbn [mbind option_bind].
  rewrite expect_cons. cbn [mbind option_bind].
  rewrite read_digits_small by (simpl; lia). cbn [mbind option_bind].
  rewrite expect_cons. cbn [mbind option_bind].
  rewrite read_digits_small by (simpl; lia). cbn [mbind option_bind].
  rewrite read_fraction_text by done. rewrite read_zone_text by done. cbn [mbind option_bind].
  assert (∀ lo hi n, lo ≤ n ≤ hi → in_range lo hi n = Some tt) as Hin.
  { intros lo hi n Hn. unfold in_range.
    by rewrite (proj2 (Z.leb_le lo n)), (proj2 (Z.leb_le n hi)) by lia. }
  rewrite !Hin by lia. cbn [mbind option_bind]. do 2 f_equal. rewrite Hdays.
  replace (local / day_seconds * day_seconds + s / 3600 * 3600 + s / 60 mod 60 * 60 + s mod 60 - o)
    with (t / Second) by (unfold local in *; lia). lia.
Qed.

Example marshal_time_example :
  marshal_time (UTC ((days_of 2026 3 7 * day_seconds + 45296) * Second + 120000000))
  = Some "2026-03-07T12:34:56.12Z".
Proof. vm_compute. reflexivity. Qed.

Example parse_time_offset :
  parse_time "1970-01-01T01:00:00+01:00" = Some (mkZoned (days_of 1970 1 1 * day_seconds * Second) 3600).
Proof. vm_compute. reflexivity. Qed.

Example parse_time_rejects :
  parse_time "2023-02-29T00:00:00Z" = None ∧ parse_time "2023-02-28 00:00:00Z" = None.
Proof. by vm_compute. Qed.

(** ** Times in JSON objects *)

(** [null] and a missing field leave the zero time. *)
Definition dec_time (fs : list (string * json)) (k : string) : option Zoned :=
  match field k fs with
  | None | Some JNull => Some (UTC time_zero)
  | Some (JStr s) => parse_time s
  | Some _ => None
  end.

Lemma dec_time_id fs k t s :
  field k fs = Some (JStr s) → zone_ok t.(z_offset) → marshal_time t = Some s →
  dec_time fs k = Some t.
Proof. intros H Hz Hm. unfold dec_time. rewrite H. by apply parse_marshal_time. Qed.
