(* ===== verification/Sha256.v ===== *)
(** * SHA-256 ([crypto/sha256])

    FIPS 180-4 on strings of bytes, with 32-bit words in [Z].  RepoArk names
    repositories, inventories and audit entries by the hexadecimal digest. *)

From Stdlib Require Import Ascii String.
From S2P Require Import Prelude GoStd Text.

Definition w32 (z : Z) : Z := Z.land z 4294967295.
Definition rotr (n x : Z) : Z :=
  Z.lor (Z.shiftr x n) (w32 (Z.shiftl x (32 - n))).
Definition w32_not (x : Z) : Z := Z.lxor x 4294967295.

Definition sha_ch (x y z : Z) : Z := Z.lxor (Z.land x y) (Z.land (w32_not x) z).
Definition sha_maj (x y z : Z) : Z :=
  Z.lxor (Z.land x y) (Z.lxor (Z.land x z) (Z.land y z)).
Definition big_sigma0 (x : Z) : Z := Z.lxor (rotr 2 x) (Z.lxor (rotr 13 x) (rotr 22 x)).
Definition big_sigma1 (x : Z) : Z := Z.lxor (rotr 6 x) (Z.lxor (rotr 11 x) (rotr 25 x)).
Definition small_sigma0 (x : Z) : Z :=
  Z.lxor (rotr 7 x) (Z.lxor (rotr 18 x) (Z.shiftr x 3)).
Definition small_sigma1 (x : Z) : Z :=
  Z.lxor (rotr 17 x) (Z.lxor (rotr 19 x) (Z.shiftr x 10)).

Definition sha_k : list Z :=
  [1116352408; 1899447441; 3049323471; 3921009573; 961987163; 1508970993;
   2453635748; 2870763221; 3624381080; 310598401; 607225278; 1426881987;
   1925078388; 2162078206; 2614888103; 3248222580; 3835390401; 4022224774;
   264347078; 604807628; 770255983; 1249150122; 1555081692; 1996064986;
   2554220882; 2821834349; 2952996808; 3210313671; 3336571891; 3584528711;
   113926993; 338241895; 666307205; 773529912; 1294757372; 1396182291;
   1695183700; 1986661051; 2177026350; 2456956037; 2730485921; 2820302411;
   3259730800; 3345764771; 3516065817; 3600352804; 4094571909; 275423344;
   430227734; 506948616; 659060556; 883997877; 958139571; 1322822218;
   1537002063; 1747873779; 1955562222; 2024104815; 2227730452; 2361852424;
   2428436474; 2756734187; 3204031479; 3329325298].

Definition sha_init : list Z :=
  [1779033703; 3144134277; 1013904242; 2773480762; 1359893119; 2600822924;
   528734635; 1541459225].

Definition bytes_of (s : string) : list Z :=
  (fun c => Z.of_N (N_of_ascii c)) <$> String.list_ascii_of_string s.

Definition be_bytes (n : nat) (z : Z) : list Z :=
  (fun i => Z.land (Z.shiftr z (8 * Z.of_nat i)) 255) <$> rev (seq 0 n).

Definition sha_pad (m : list Z) : list Z :=
  let len := length m in
  m ++ [128] ++ replicate ((119 - len mod 64) mod 64) 0 ++ be_bytes 8 (8 * Z.of_nat len).

Fixpoint be_words (l : list Z) : list Z :=
  match l with
  | a :: b :: c :: d :: l' =>
      Z.lor (Z.shiftl a 24) (Z.lor (Z.shiftl b 16) (Z.lor (Z.shiftl c 8) d)) :: be_words l'
  | _ => []
  end.

(** The message schedule, newest word first. *)
Fixpoint sha_schedule (n : nat) (ws : list Z) : list Z :=
  match n with
  | O => ws
  | S n' =>
      let w i := nth i ws 0 in
      sha_schedule n'
        (w32 (small_sigma1 (w 1%nat) + w 6%nat + small_sigma0 (w 14%nat) + w 15%nat) :: ws)
  end.

Definition sha_round (st : list Z) (kw : Z * Z) : list Z :=
  match st with
  | [a; b; c; d; e; f; g; h] =>
      let t1 := w32 (h + big_sigma1 e + sha_ch e f g + fst kw + snd kw) in
      let t2 := w32 (big_sigma0 a + sha_maj a b c) in
      [w32 (t1 + t2); a; b; c; w32 (d + t1); e; f; g]
  | _ => st
  end.

Definition sha_block (st : list Z) (block : list Z) : list Z :=
  let ws := rev (sha_schedule 48 (rev block)) in
  zip_with (fun x y => w32 (x + y)) st (foldl sha_round st (zip sha_k ws)).

Fixpoint sha_blocks (fuel : nat) (st : list Z) (ws : list Z) : list Z :=
  match fuel, ws with
  | S fuel', _ :: _ => sha_blocks fuel' (sha_block st (take 16 ws)) (drop 16 ws)
  | _, _ => st
  end.

Definition hex_digit (n : Z) : ascii :=
  ascii_of_N (Z.to_N (if n <? 10 then 48 + n else 87 + n)).

Definition hex_encode (bs : list Z) : string :=
  String.string_of_list_ascii
    (bs ≫= fun b => [hex_digit (Z.shiftr b 4); hex_digit (Z.land b 15)]).

(** One step of fuel per 64-byte block: the number of words is always enough. *)
Definition sha256 (m : list Z) : list Z :=
  let ws := be_words (sha_pad m) in
  sha_blocks (length ws) sha_init ws ≫= be_bytes 4.

Definition sha256hex (s : string) : string := hex_encode (sha256 (bytes_of s)).

Example sha256_empty :
  sha256hex "" = "e3b0c44298fc1c149afbf4c8996fb92427ae41e4649b934ca495991b7852b855".
Proof. vm_compute. reflexivity. Qed.

Example sha256_abc :
  sha256hex "abc" = "ba7816bf8f01cfea414140de5dae2223b00361a396177a9cb410ff61f20015ad".
Proof. vm_compute. reflexivity. Qed.

Example sha256_two_blocks :
  sha256hex "abcdbcdecdefdefgefghfghighijhijkijkljklmklmnlmnomnopnopq" =
  "248d6a61d20638b8e5c026930c3e6039a33ce45964ff2167f6ecedd419db06c1".
Proof. vm_compute. reflexivity. Qed.

(** [newID]-style names that hash two strings separated by a NUL byte
    ([RepositoryID], sqlstore.go). *)
Definition nul : string := String zero EmptyString.

Definition RepositoryID (account fullName : string) : string :=
  "repo_" +:+ String.substring 0 24
    (sha256hex (ToLower (TrimSpace account) +:+ nul +:+ ToLower (TrimSpace fullName))).

(** ** The shape of a digest: 64 lower-case hexadecimal digits *)

Definition hex_char (c : ascii) : bool := byte_in 48 57 c || byte_in 97 102 c.

Lemma hex_digit_char n : 0 ≤ n < 16 → hex_char (hex_digit n) = true.
Proof.
  intros Hn. assert (H : n ∈ (Z.of_nat <$> seq 0 16)).
  { apply list_elem_of_fmap. exists (Z.to_nat n). split; [lia|]. apply elem_of_seq. lia. }
  clear Hn. revert n H. apply Forall_forall. by repeat constructor.
Qed.

Lemma nibbles b : 0 ≤ b < 256 → 0 ≤ Z.shiftr b 4 < 16 ∧ 0 ≤ Z.land b 15 < 16.
Proof.
  intros Hb. rewrite Z.shiftr_div_pow2 by lia. change 15 with (Z.ones 4).
  rewrite Z.land_ones by lia. change (2 ^ 4) with 16.
  split; [split; [apply Z.div_pos|apply Z.div_lt_upper_bound]; lia|apply Z.mod_pos_bound; lia].
Qed.

Lemma hex_encode_shape bs :
  Forall (fun b => 0 ≤ b < 256) bs →
  length (chars (hex_encode bs)) = (2 * length bs)%nat ∧
  Forall (fun c => hex_char c = true) (chars (hex_encode bs)).
Proof.
  unfold hex_encode. intros Hb. rewrite chars_of.
  induction Hb as [|b bs Hb _ [IHl IHc]]; [done|]. rewrite bind_cons, length_app, IHl. simpl.
  split; [lia|]. apply nibbles in Hb as []. repeat constructor; auto using hex_digit_char.
Qed.

Lemma be_bytes_shape n z : length (be_bytes n z) = n ∧ Forall (fun b => 0 ≤ b < 256) (be_bytes n z).
Proof.
  unfold be_bytes. split; [by rewrite length_fmap, length_rev, length_seq|].
  apply Forall_fmap, Forall_true. intros i. simpl. change 255 with (Z.ones 8).
  rewrite Z.land_ones by lia. by apply Z.mod_pos_bound.
Qed.

Lemma sha_rounds_length st kws : length st = 8%nat → length (foldl sha_round st kws) = 8%nat.
Proof.
  revert st. induction kws as [|kw kws IH]; intros st Hst; simpl; [done|]. apply IH.
  by destruct st as [|a [|b [|c [|d [|e [|f [|g [|h [|]]]]]]]]].
Qed.

Lemma sha_blocks_length fuel st ws : length st = 8%nat → length (sha_blocks fuel st ws) = 8%nat.
Proof.
  revert st ws. induction fuel as [|n IH]; intros st ws Hst; simpl; [done|].
  destruct ws; [done|]. apply IH. unfold sha_block.
  by rewrite length_zip_with, sha_rounds_length, Hst.
Qed.

Lemma sha256_shape m : length (sha256 m) = 32%nat ∧ Forall (fun b => 0 ≤ b < 256) (sha256 m).
Proof.
  unfold sha256. set (ws := sha_blocks _ _ _).
  assert (Hl : length ws = 8%nat) by by apply sha_blocks_length. clearbody ws.
  assert (H : ∀ l, length (l ≫= be_bytes 4) = (4 * length l)%nat ∧
              Forall (fun b => 0 ≤ b < 256) (l ≫= be_bytes 4)).
  { induction l as [|w l [IHl IHf]]; [done|]. rewrite bind_cons. destruct (be_bytes_shape 4 w) as [Hw Hf].
    rewrite length_app, Hw, IHl. split; [simpl; lia|]. by apply Forall_app. }
  destruct (H ws) as [-> Hf]. by rewrite Hl.
Qed.

Lemma sha256hex_length s : String.length (sha256hex s) = 64%nat.
Proof.
  destruct (sha256_shape (bytes_of s)) as [Hl Hf]. unfold sha256hex.
  by rewrite <- chars_length, (proj1 (hex_encode_shape _ Hf)), Hl.
Qed.

Lemma sha256hex_hex s :
  Forall (fun c => hex_char c = true) (chars (sha256hex s)).
Proof. apply hex_encode_shape, sha256_shape. Qed.

Lemma hex_char_lower c : hex_char c = true → ascii_lower c = c.
Proof. destruct c as [[] [] [] [] [] [] [] []]; by vm_compute. Qed.

Lemma sha256hex_lower s : ToLower (sha256hex s) = sha256hex s.
Proof.
  pose proof (sha256hex_hex s) as H. induction (sha256hex s) as [|c t IH]; simpl in *; [done|].
  apply Forall_cons in H as [Hc Ht]. by rewrite (hex_char_lower _ Hc), (IH Ht).
Qed.

(** Hashes are compared regardless of case. *)

Lemma EqualFold_sym s t : EqualFold s t = true → EqualFold t s = true.
Proof. unfold EqualFold. rewrite !bool_decide_eq_true. done. Qed.

Lemma EqualFold_trans s t u : EqualFold s t = true → EqualFold t u = true → EqualFold s u = true.
Proof. unfold EqualFold. rewrite !bool_decide_eq_true. congruence. Qed.

Lemma hash_fold t1 t2 : EqualFold (sha256hex t1) (sha256hex t2) = true → sha256hex t1 = sha256hex t2.
Proof. unfold EqualFold. rewrite bool_decide_eq_true, !sha256hex_lower. done. Qed.

#[global] Opaque sha256hex.
