(* ===== verification/ObjectInventory.v ===== *)
(** * The object inventory

    Models [internal/objectinventory/inventory.go]: an agent's summary of its
    content-addressed store, one Merkle segment per two-digit digest prefix, and
    the comparison of two summaries.  [Build] takes the files [WalkDir] meets
    under [<root>/sha256], as names and sizes in its order, and whether the walk then
    ends because something is not there: the directory itself, or a file that is
    removed before it is looked at. *)

From Stdlib Require Import Ascii String.
From S2P Require Import Prelude GoStd Text Json GoTime Sha256.
#[global] Open Scope Z_scope.

Module ObjectInventory.

Record Segment := mkSegment {
  Seg_Prefix : string;
  Seg_Root : string;
  Seg_Count : Z;
  Seg_Bytes : Z
}.

Record Inventory := mkInventory {
  Inv_Version : Z;
  Inv_Root : string;
  Inv_MerkleRoot : string;
  Inv_Objects : Z;
  Inv_Bytes : Z;
  Inv_CreatedAt : Zoned;
  Inv_Segments : list Segment
}.

Definition zero_Inventory : Inventory := mkInventory 0 "" "" 0 0 (UTC time_zero) [].

Definition leaf : Type := string * Z.

Definition newline : string := String (ascii_of_N 10) EmptyString.

Definition lines_text (lines : list string) : string :=
  foldl (fun h line => h +:+ line +:+ newline) "" lines.
Definition hashLines (lines : list string) : string := sha256hex (lines_text lines).

Definition hex_char (c : ascii) : bool :=
  byte_in 48 57 c || byte_in 97 102 c || byte_in 65 70 c.

(** The digest a file of the store is named by. *)
Definition object_digest (name : string) : option string :=
  let name := ToLower (TrimSpace name) in
  if (String.length name =? 64)%nat && forallb hex_char (chars name) then Some name else None.

Definition leaf_line (l : leaf) : string := l.1 +:+ ":" +:+ pretty l.2.
Definition sum_bytes (ls : list leaf) : Z := foldl (fun n l => wrap64 (n + l.2)) 0 ls.

Definition prefix2 (digest : string) : string := String.substring 0 2 digest.

(** The walk: every file is an object, or the whole fails. *)
Fixpoint walk (files : list (string * Z)) : option (list leaf) :=
  match files with
  | [] => Some []
  | (name, size) :: files' =>
      d ← object_digest name;
      ls ← walk files';
      Some ((d, size) :: ls)
  end.

Definition by_prefix (ls : list leaf) : gmap string (list leaf) :=
  foldl (fun m l => <[prefix2 l.1 := zero_or [] (m !! prefix2 l.1) ++ [l]]> m) ∅ ls.

Section Build.
Context {MO : MapOrder}.

Definition sorted_leaves (ls : list leaf) : list leaf := sort_any (fun x y => str_less x.1 y.1) ls.

Definition segment (prefix : string) (ls : list leaf) : Segment :=
  mkSegment prefix (hashLines (leaf_line <$> sorted_leaves ls)) (zlen ls)
    (sum_bytes (sorted_leaves ls)).

Definition top_line (s : Segment) : string :=
  s.(Seg_Prefix) +:+ ":" +:+ s.(Seg_Root) +:+ ":" +:+ pretty s.(Seg_Count) +:+ ":"
    +:+ pretty s.(Seg_Bytes).

Definition Build (casRoot : string) (now : Time) (files : list (string * Z)) (gone : bool)
    : result Inventory :=
  match walk files with
  | None => Err "invalid CAS object name"
  | Some ls =>
      if gone then Ok (mkInventory 1 casRoot (hashLines []) (zlen ls) (sum_bytes ls) (UTC now) [])
      else
          let byPrefix := by_prefix ls in
          let segments := (fun p => segment p (zero_or [] (byPrefix !! p)))
                          <$> sort_strings (range_keys byPrefix) in
          Ok (mkInventory 1 casRoot (hashLines (top_line <$> segments)) (zlen ls) (sum_bytes ls)
                (UTC now) segments)
  end.

(** The later of two segments with one prefix counts. *)
Definition segment_map (inv : Inventory) : gmap string Segment :=
  foldl (fun m s => <[s.(Seg_Prefix) := s]> m) ∅ inv.(Inv_Segments).

Definition same_segment (x y : option Segment) : bool :=
  match x, y with
  | Some x, Some y =>
      (x.(Seg_Root) ≟ y.(Seg_Root)) && (x.(Seg_Count) =? y.(Seg_Count))
      && (x.(Seg_Bytes) =? y.(Seg_Bytes))
  | _, _ => false
  end.

Definition DivergentPrefixes (a b : Inventory) : list string :=
  let am := segment_map a in
  let bm := segment_map b in
  let keys : gmap string unit := gset_to_gmap tt (dom am ∪ dom bm) in
  sort_strings (List.filter (fun k => negb (same_segment (am !! k) (bm !! k))) (range_keys keys)).
End Build.

(** ** Encoding *)

(** A nil slice is [null]. *)
Definition jslice (l : list json) : json := match l with [] => JNull | _ => JArr l end.

Definition marshal_segment (s : Segment) : json :=
  JObj [("prefix", JStr s.(Seg_Prefix)); ("root", JStr s.(Seg_Root));
        ("count", JInt s.(Seg_Count)); ("bytes", JInt s.(Seg_Bytes))].

Definition EncodeCompact (inv : Inventory) : json_text :=
  match marshal_time inv.(Inv_CreatedAt) with
  | None => empty_text
  | Some created =>
      Json (JObj [("version", JInt inv.(Inv_Version)); ("root", JStr inv.(Inv_Root));
        ("merkle_root", JStr inv.(Inv_MerkleRoot)); ("objects", JInt inv.(Inv_Objects));
        ("bytes", JInt inv.(Inv_Bytes)); ("created_at", JStr created);
        ("segments", jslice (marshal_segment <$> inv.(Inv_Segments)))])
  end.

Definition decode_segment (v : json) : option Segment :=
  match v with
  | JNull => Some (mkSegment "" "" 0 0)
  | JObj fs =>
      p ← dec_str fs "prefix"; r ← dec_str fs "root"; c ← dec_int fs "count";
      b ← dec_int fs "bytes"; Some (mkSegment p r c b)
  | _ => None
  end.

Definition dec_segments (fs : list (string * json)) (k : string) : option (list Segment) :=
  match field k fs with
  | None | Some JNull => Some []
  | Some (JArr l) => mapM decode_segment l
  | Some _ => None
  end.

Definition unmarshal_inventory (t : json_text) : option Inventory :=
  fs ← as_obj t;
  v ← dec_int fs "version"; r ← dec_str fs "root"; m ← dec_str fs "merkle_root";
  o ← dec_int fs "objects"; b ← dec_int fs "bytes"; c ← dec_time fs "created_at";
  s ← dec_segments fs "segments";
  Some (mkInventory v r m o b c s).

Definition DecodeCompact (t : json_text) : option Inventory :=
  match t with
  | NotJson s => if TrimSpace s ≟ "" then Some zero_Inventory else None
  | Json _ => unmarshal_inventory t
  end.

(** ** Round trip *)

Definition segment_in_range (s : Segment) : Prop := in_int64 s.(Seg_Count) ∧ in_int64 s.(Seg_Bytes).

Record inventory_in_range (inv : Inventory) : Prop := {
  ir_version : in_int64 inv.(Inv_Version);
  ir_objects : in_int64 inv.(Inv_Objects);
  ir_bytes : in_int64 inv.(Inv_Bytes);
  ir_zone : zone_ok inv.(Inv_CreatedAt).(z_offset);
  ir_year : is_Some (marshal_time inv.(Inv_CreatedAt));
  ir_segments : Forall segment_in_range inv.(Inv_Segments)
}.

Lemma decode_marshal_segment s : segment_in_range s → decode_segment (marshal_segment s) = Some s.
Proof.
  destruct s as [p r c b]. intros [Hc Hb]. unfold decode_segment, marshal_segment. simpl in *.
  by rewrite (dec_int_id _ "count" c), (dec_int_id _ "bytes" b).
Qed.

(** An inventory that an agent encodes, the control plane decodes unchanged. *)
Theorem inventory_roundtrip inv :
  inventory_in_range inv → DecodeCompact (EncodeCompact inv) = Some inv.
Proof.
  destruct inv as [v r m o b c s]. intros [Hv Ho Hb Hz [t Ht] Hs]. simpl in *.
  unfold EncodeCompact. simpl. rewrite Ht. unfold DecodeCompact, unmarshal_inventory, as_obj.
  cbn [mbind option_bind]. match goal with |- context [dec_int ?l "version"] => set (fs := l) end.
  rewrite (dec_int_id fs "version" v), (dec_int_id fs "objects" o), (dec_int_id fs "bytes" b) by done.
  rewrite (dec_time_id fs "created_at" c t) by done.
  assert (dec_segments fs "segments" = Some s) as ->; [|done].
  unfold dec_segments. change (field "segments" fs) with (Some (jslice (marshal_segment <$> s))).
  destruct s as [|x s]; [done|]. unfold jslice. cbn [fmap list_fmap].
  change (mapM decode_segment (marshal_segment <$> (x :: s)) = Some (x :: s)).
  induction Hs as [|y l Hy _ IH]; [done|]. cbn [fmap list_fmap mapM].
  by rewrite decode_marshal_segment, IH.
Qed.

(** ** What the comparison finds *)

(** The objects of one prefix. *)
Definition leaves (p : string) (ls : list leaf) : list leaf :=
  List.filter (fun l : leaf => prefix2 l.1 ≟ p) ls.

Lemma by_prefix_snoc ls l :
  by_prefix (ls ++ [l])
  = <[prefix2 l.1 := zero_or [] (by_prefix ls !! prefix2 l.1) ++ [l]]> (by_prefix ls).
Proof. unfold by_prefix. by rewrite foldl_app. Qed.

Lemma by_prefix_lookup ls p :
  by_prefix ls !! p = match leaves p ls with [] => None | xs => Some xs end.
Proof.
  induction ls as [|l ls IH] using rev_ind; [done|].
  rewrite by_prefix_snoc. unfold leaves in *. rewrite List.filter_app. cbn [List.filter].
  destruct (bool_decide_reflect (prefix2 l.1 = p)) as [Hp|Hp].
  - rewrite Hp, lookup_insert_eq, IH. by destruct (List.filter _ ls).
  - by rewrite lookup_insert_ne, IH, app_nil_r by done.
Qed.

Lemma walk_digests files ls l : walk files = Some ls → l ∈ ls →
  String.length l.1 = 64%nat ∧ forallb hex_char (chars l.1) = true.
Proof.
  revert ls. induction files as [|[name size] files IH]; intros ls; simpl.
  { intros [= <-] H. by apply not_elem_of_nil in H. }
  unfold object_digest. destruct (_ && _) eqn:E; [|done]. cbn [mbind option_bind].
  destruct (walk files) as [ls'|]; [|done]. intros [= <-] [->|H]%elem_of_cons; [|by eapply IH].
  apply andb_true_iff in E as [E1%Nat.eqb_eq E2]. done.
Qed.

Lemma hash_text_app h lines :
  foldl (fun h line => h +:+ line +:+ newline) h lines = h +:+ lines_text lines.
Proof.
  unfold lines_text. revert h. induction lines as [|x l IH]; intros h; simpl.
  { apply chars_inj. by rewrite chars_app, app_nil_r. }
  rewrite IH, (IH ("" +:+ x +:+ newline)). apply chars_inj. rewrite !chars_app.
  simpl. by rewrite !app_assoc.
Qed.

(** The text of a segment determines its objects. *)
Lemma leaf_lines_inj (l1 l2 : list leaf) :
  (∀ l, l ∈ l1 → String.length l.1 = 64%nat) → (∀ l, l ∈ l2 → String.length l.1 = 64%nat) →
  lines_text (leaf_line <$> l1) = lines_text (leaf_line <$> l2) → l1 = l2.
Proof.
  assert (∀ x : leaf, ∀ l, lines_text (leaf_line <$> (x :: l))
    = leaf_line x +:+ newline +:+ lines_text (leaf_line <$> l)) as Hcons.
  { intros x l. unfold lines_text at 1. cbn [fmap list_fmap foldl]. rewrite hash_text_app.
    apply chars_inj. rewrite !chars_app. simpl. by rewrite <- !app_assoc. }
  assert (∀ x : leaf, ∀ l, lines_text (leaf_line <$> (x :: l)) ≠ "") as Hne.
  { intros x l E. rewrite Hcons in E. apply (f_equal (length ∘ chars)) in E. simpl in E.
    rewrite !chars_app, !length_app in E. simpl in E. lia. }
  revert l2. induction l1 as [|x l1 IH]; intros [|y l2] H1 H2 E; [done| | |].
  { by symmetry in E; apply Hne in E. }
  { by apply Hne in E. }
  rewrite !Hcons in E. apply (f_equal chars) in E. unfold leaf_line in E. rewrite !chars_app in E.
  rewrite <- !app_assoc in E. apply cut_length in E as [Ed E].
  2: { rewrite !chars_length. rewrite H1, H2 by by left. done. }
  change (chars ":") with [":"%char] in E. change (chars newline) with ["010"%char] in E.
  simpl app in E. apply (inj (cons _)) in E. apply cut_token with (p := number_char) in E as [Es E];
    [|apply pretty_Z_chars..|done|done].
  apply (inj (cons _)) in E. apply chars_inj in Ed, Es, E. apply (inj pretty) in Es.
  destruct x, y; simpl in *. subst. f_equal.
  apply IH; [intros; apply H1; by right|intros; apply H2; by right|done].
Qed.

Lemma sorted_leaves_canonical {MO : MapOrder} l l' :
  NoDup l.*1 → l ≡ₚ l' → sorted_leaves l = sorted_leaves l'.
Proof.
  intros Hd Hp. unfold sorted_leaves, sort_any. apply sort_slice_canonical.
  - exact (less_by_key fst str_less _).
  - intros [d1 s1] [d2 s2]. rewrite !shuffle_perm. simpl. intros Hx Hy H1 H2.
    assert (d1 = d2) as <- by by apply str_less_total. f_equal.
    assert (map_to_list (list_to_map l : gmap string Z) ≡ₚ l) as Hl by by apply map_to_list_to_map.
    rewrite <- Hl in Hx, Hy. apply elem_of_map_to_list in Hx, Hy. congruence.
  - by rewrite !shuffle_perm.
Qed.

Section Divergence.
Context {MO : MapOrder}.

Lemma segment_map_built root now files inv ls p :
  Build root now files false = Ok inv → walk files = Some ls →
  segment_map inv !! p = match leaves p ls with [] => None | xs => Some (segment p xs) end.
Proof.
  unfold Build. intros H Hw. rewrite Hw in H. injection H as <-. unfold segment_map. simpl.
  set (m := by_prefix ls). set (key := fun p => segment p (zero_or [] (m !! p))).
  assert (NoDup (Seg_Prefix <$> (key <$> sort_strings (range_keys m)))) as Hnd.
  { rewrite <- list_fmap_compose. replace (Seg_Prefix ∘ key <$> sort_strings (range_keys m))
      with (sort_strings (range_keys m)).
    - unfold sort_strings. rewrite sort_slice_perm. apply range_keys_NoDup.
    - induction (sort_strings (range_keys m)) as [|q l IH]; csimpl; [done|]. by f_equal. }
  destruct (lookup_foldl_insert Seg_Prefix _ ∅ p Hnd) as [Hin Hout].
  pose proof (by_prefix_lookup ls p) as Hl. fold m in Hl.
  assert (∀ q, q ∈ sort_strings (range_keys m) ↔ is_Some (m !! q)) as Hk.
  { intros q. unfold sort_strings. by rewrite elem_of_sort_slice, elem_of_range_keys. }
  destruct (leaves p ls) as [|x xs] eqn:El.
  - rewrite Hout; [done|]. rewrite <- list_fmap_compose, list_elem_of_fmap.
    intros (q & Eq & Hq%Hk). simpl in Eq. subst q. rewrite Hl in Hq. by destruct Hq.
  - apply Hin; [|done]. apply list_elem_of_fmap. exists p.
    split; [unfold key; by rewrite Hl|]. apply Hk. by rewrite Hl.
Qed.

Lemma elem_of_divergent a b p :
  p ∈ DivergentPrefixes a b ↔
  (is_Some (segment_map a !! p) ∨ is_Some (segment_map b !! p)) ∧
  same_segment (segment_map a !! p) (segment_map b !! p) = false.
Proof.
  unfold DivergentPrefixes, sort_strings.
  rewrite elem_of_sort_slice, list_elem_of_In, filter_In, <- list_elem_of_In, elem_of_range_keys.
  rewrite lookup_gset_to_gmap, negb_true_iff.
  rewrite <- !elem_of_dom, <- elem_of_union.
  destruct (decide (p ∈ dom (segment_map a) ∪ dom (segment_map b))) as [H|H].
  - rewrite option_guard_True by done. naive_solver.
  - rewrite option_guard_False by done. split; [by intros [[] _]|by intros [? _]].
Qed.

(** The text whose hash is the Merkle root of a segment. *)
Definition segment_text (ls : list leaf) : string := lines_text (leaf_line <$> sorted_leaves ls).

End Divergence.

Module InventoryDemo.
Definition name (c : string) : string :=
  c +:+ "aaaaaaaaaaaaaaaaaaaaaaaaaaaaaaaaaaaaaaaaaaaaaaaaaaaaaaaaaaaaaaa".
Definition files : list (string * Z) := [(name "a", 10); (name "b", 20)].
Definition others : list (string * Z) := [(name "b", 20)].
Definition built (fs : list (string * Z)) : Inventory :=
  match Build "/cas" 0 fs false with Ok inv => inv | Err _ => zero_Inventory end.

(** An object that is collected during the walk empties the summary, which then
    diverges from every other on all its prefixes. *)
Example an_object_vanishes :
  ∃ inv, Build "/cas" 0 files true = Ok inv ∧ inv.(Inv_Objects) = 2 ∧ inv.(Inv_Segments) = [] ∧
    DivergentPrefixes inv (built files) = ["aa"; "ba"].
Proof. eexists. split_and!; [vm_compute; reflexivity..]. Qed.

Example demo_divergent : DivergentPrefixes (built files) (built others) = ["aa"].
Proof. vm_compute. reflexivity. Qed.


Definition summary : Inventory :=
  mkInventory 1 "/cas" "root" 2 30 (UTC 0) [mkSegment "aa" "r1" 1 10; mkSegment "ba" "r2" 1 20].

Lemma inventory_roundtrip_witness : DecodeCompact (EncodeCompact summary) = Some summary.
Proof.
  apply inventory_roundtrip. split.
  1-4: by vm_compute.
  - eexists. vm_compute. reflexivity.
  - by repeat constructor.
Defined.
End InventoryDemo.

End ObjectInventory.
