(* ===== verification/Model.v ===== *)
(** * The control-plane data model ([internal/controlplane/model.go])

    One record per Go struct; the field [F] of struct [S] is [S_F], with the
    prefixes shortened for the long names ([Repo_], [Gen_], [Replica_],
    [Transfer_], [Ref_], [OLease_], [ESet_], [Shard_], [Approval_]).  [zero_S]
    is Go's zero value of [S], what a missing map key reads as.  Finite float64
    fields are rationals: the code only compares them.  JSON columns are
    decoded values ([Json.v]). *)

From Stdlib Require Import QArith.
From S2P Require Import Prelude GoStd Json.

Record Job := mkJob {
  Job_ID : string;
  Job_Kind : string;
  Job_Target : string;
  Job_Payload : json_text;
  Job_Status : string;
  Job_Priority : Z;
  Job_Attempts : Z;
  Job_MaxAttempts : Z;
  Job_NotBefore : Time;
  Job_Affinity : string;
  Job_LeaseOwner : string;
  Job_LeaseUntil : Time;
  Job_CreatedAt : Time;
  Job_UpdatedAt : Time;
  Job_LastError : string
}.

#[export] Instance Job_settable : Settable Job :=
  fun r => mkJob (r.(Job_ID)) (r.(Job_Kind)) (r.(Job_Target)) (r.(Job_Payload))
    (r.(Job_Status)) (r.(Job_Priority)) (r.(Job_Attempts)) (r.(Job_MaxAttempts))
    (r.(Job_NotBefore)) (r.(Job_Affinity)) (r.(Job_LeaseOwner)) (r.(Job_LeaseUntil))
    (r.(Job_CreatedAt)) (r.(Job_UpdatedAt)) (r.(Job_LastError)).

Definition zero_Job : Job :=
  mkJob "" "" "" empty_text "" 0 0 0 time_zero "" "" time_zero time_zero time_zero "".

Record Repository := mkRepository {
  Repo_ID : string;
  Repo_Account : string;
  Repo_FullName : string;
  Repo_BackupRoot : string;
  Repo_IntervalSeconds : Z;
  Repo_Priority : Z;
  Repo_MirrorGitLab : bool;
  Repo_Enabled : bool;
  Repo_NextRunAt : Time;
  Repo_LastBackupAt : Time;
  Repo_LastGenerationID : string;
  Repo_LastBackupSuccessful : bool;
  Repo_UpdatedAt : Time
}.

#[export] Instance Repository_settable : Settable Repository :=
  fun r => mkRepository (r.(Repo_ID)) (r.(Repo_Account)) (r.(Repo_FullName))
    (r.(Repo_BackupRoot)) (r.(Repo_IntervalSeconds)) (r.(Repo_Priority))
    (r.(Repo_MirrorGitLab)) (r.(Repo_Enabled)) (r.(Repo_NextRunAt))
    (r.(Repo_LastBackupAt)) (r.(Repo_LastGenerationID)) (r.(Repo_LastBackupSuccessful))
    (r.(Repo_UpdatedAt)).

Definition zero_Repository : Repository :=
  mkRepository "" "" "" "" 0 0 false false time_zero time_zero "" false time_zero.

Record Generation := mkGeneration {
  Gen_ID : string;
  Gen_RepositoryID : string;
  Gen_Repository : string;
  Gen_MetaPath : string;
  Gen_CreatedAt : Time;
  Gen_Verified : bool;
  Gen_BundleSHA256 : string;
  Gen_LFSSHA256 : string
}.

#[export] Instance Generation_settable : Settable Generation :=
  fun r => mkGeneration (r.(Gen_ID)) (r.(Gen_RepositoryID)) (r.(Gen_Repository))
    (r.(Gen_MetaPath)) (r.(Gen_CreatedAt)) (r.(Gen_Verified)) (r.(Gen_BundleSHA256))
    (r.(Gen_LFSSHA256)).

Definition zero_Generation : Generation :=
  mkGeneration "" "" "" "" time_zero false "" "".

Record Agent := mkAgent {
  Agent_ID : string;
  Agent_Name : string;
  Agent_CertSubject : string;
  Agent_LabelsJSON : json_text;
  Agent_ReplicationPublicKey : string;
  Agent_Status : string;
  Agent_StorageHealth : string;
  Agent_StorageTotalBytes : Z;
  Agent_StorageFreeBytes : Z;
  Agent_StorageFreePercent : Q;
  Agent_StorageProbeMS : Z;
  Agent_StorageError : string;
  Agent_DiskRiskScore : Z;
  Agent_DiskModel : string;
  Agent_DiskSerial : string;
  Agent_DiskTemperatureC : Q;
  Agent_DiskPercentageUsed : Q;
  Agent_DiskMediaErrors : Z;
  Agent_DiskCriticalWarning : Z;
  Agent_InventoryRoot : string;
  Agent_InventoryObjects : Z;
  Agent_InventoryBytes : Z;
  Agent_InventoryJSON : json_text;
  Agent_LastSeenAt : Time;
  Agent_UpdatedAt : Time
}.

#[export] Instance Agent_settable : Settable Agent :=
  fun r => mkAgent (r.(Agent_ID)) (r.(Agent_Name)) (r.(Agent_CertSubject))
    (r.(Agent_LabelsJSON)) (r.(Agent_ReplicationPublicKey)) (r.(Agent_Status))
    (r.(Agent_StorageHealth)) (r.(Agent_StorageTotalBytes)) (r.(Agent_StorageFreeBytes))
    (r.(Agent_StorageFreePercent)) (r.(Agent_StorageProbeMS)) (r.(Agent_StorageError))
    (r.(Agent_DiskRiskScore)) (r.(Agent_DiskModel)) (r.(Agent_DiskSerial))
    (r.(Agent_DiskTemperatureC)) (r.(Agent_DiskPercentageUsed))
    (r.(Agent_DiskMediaErrors)) (r.(Agent_DiskCriticalWarning))
    (r.(Agent_InventoryRoot)) (r.(Agent_InventoryObjects)) (r.(Agent_InventoryBytes))
    (r.(Agent_InventoryJSON)) (r.(Agent_LastSeenAt)) (r.(Agent_UpdatedAt)).

Definition zero_Agent : Agent :=
  mkAgent "" "" "" empty_text "" "" "" 0 0 0%Q 0 "" 0 "" "" 0%Q 0%Q 0 0 "" 0 0
    empty_text time_zero time_zero.

Record GenerationReplica := mkGenerationReplica {
  Replica_GenerationID : string;
  Replica_RepositoryID : string;
  Replica_AgentID : string;
  Replica_MetaPath : string;
  Replica_State : string;
  Replica_Bytes : Z;
  Replica_SHA256 : string;
  Replica_VerifiedAt : Time;
  Replica_UpdatedAt : Time
}.

#[export] Instance GenerationReplica_settable : Settable GenerationReplica :=
  fun r => mkGenerationReplica (r.(Replica_GenerationID)) (r.(Replica_RepositoryID))
    (r.(Replica_AgentID)) (r.(Replica_MetaPath)) (r.(Replica_State)) (r.(Replica_Bytes))
    (r.(Replica_SHA256)) (r.(Replica_VerifiedAt)) (r.(Replica_UpdatedAt)).

Definition zero_GenerationReplica : GenerationReplica :=
  mkGenerationReplica "" "" "" "" "" 0 "" time_zero time_zero.

Record ReplicationTransfer := mkReplicationTransfer {
  Transfer_ID : string;
  Transfer_GenerationID : string;
  Transfer_RepositoryID : string;
  Transfer_SourceAgent : string;
  Transfer_TargetAgent : string;
  Transfer_SpoolPath : string;
  Transfer_State : string;
  Transfer_Bytes : Z;
  Transfer_SHA256 : string;
  Transfer_ExpiresAt : Time;
  Transfer_UpdatedAt : Time
}.

#[export] Instance ReplicationTransfer_settable : Settable ReplicationTransfer :=
  fun r => mkReplicationTransfer (r.(Transfer_ID)) (r.(Transfer_GenerationID))
    (r.(Transfer_RepositoryID)) (r.(Transfer_SourceAgent)) (r.(Transfer_TargetAgent))
    (r.(Transfer_SpoolPath)) (r.(Transfer_State)) (r.(Transfer_Bytes))
    (r.(Transfer_SHA256)) (r.(Transfer_ExpiresAt)) (r.(Transfer_UpdatedAt)).

Definition zero_ReplicationTransfer : ReplicationTransfer :=
  mkReplicationTransfer "" "" "" "" "" "" "" 0 "" time_zero time_zero.

Record ObjectRef := mkObjectRef {
  Ref_Digest : string;
  Ref_Kind : string;
  Ref_Bytes : Z;
  Ref_RefCount : Z;
  Ref_UpdatedAt : Time
}.

#[export] Instance ObjectRef_settable : Settable ObjectRef :=
  fun r => mkObjectRef (r.(Ref_Digest)) (r.(Ref_Kind)) (r.(Ref_Bytes))
    (r.(Ref_RefCount)) (r.(Ref_UpdatedAt)).

Definition zero_ObjectRef : ObjectRef :=
  mkObjectRef "" "" 0 0 time_zero.

Record ObjectLease := mkObjectLease {
  OLease_ID : string;
  OLease_Digest : string;
  OLease_Owner : string;
  OLease_ExpiresAt : Time;
  OLease_UpdatedAt : Time
}.

#[export] Instance ObjectLease_settable : Settable ObjectLease :=
  fun r => mkObjectLease (r.(OLease_ID)) (r.(OLease_Digest)) (r.(OLease_Owner))
    (r.(OLease_ExpiresAt)) (r.(OLease_UpdatedAt)).

Definition zero_ObjectLease : ObjectLease :=
  mkObjectLease "" "" "" time_zero time_zero.

Record ErasureSet := mkErasureSet {
  ESet_ObjectSHA256 : string;
  ESet_OriginalBytes : Z;
  ESet_DataShards : Z;
  ESet_ParityShards : Z;
  ESet_BlockBytes : Z;
  ESet_State : string;
  ESet_CreatedAt : Time;
  ESet_UpdatedAt : Time
}.

#[export] Instance ErasureSet_settable : Settable ErasureSet :=
  fun r => mkErasureSet (r.(ESet_ObjectSHA256)) (r.(ESet_OriginalBytes))
    (r.(ESet_DataShards)) (r.(ESet_ParityShards)) (r.(ESet_BlockBytes)) (r.(ESet_State))
    (r.(ESet_CreatedAt)) (r.(ESet_UpdatedAt)).

Definition zero_ErasureSet : ErasureSet :=
  mkErasureSet "" 0 0 0 0 "" time_zero time_zero.

Record ErasureShard := mkErasureShard {
  Shard_ObjectSHA256 : string;
  Shard_ShardIndex : Z;
  Shard_ShardSHA256 : string;
  Shard_AgentID : string;
  Shard_FailureDomain : string;
  Shard_State : string;
  Shard_Bytes : Z;
  Shard_UpdatedAt : Time
}.

#[export] Instance ErasureShard_settable : Settable ErasureShard :=
  fun r => mkErasureShard (r.(Shard_ObjectSHA256)) (r.(Shard_ShardIndex))
    (r.(Shard_ShardSHA256)) (r.(Shard_AgentID)) (r.(Shard_FailureDomain))
    (r.(Shard_State)) (r.(Shard_Bytes)) (r.(Shard_UpdatedAt)).

Definition zero_ErasureShard : ErasureShard :=
  mkErasureShard "" 0 "" "" "" "" 0 time_zero.

Record RestoreApproval := mkRestoreApproval {
  Approval_ID : string;
  Approval_Repository : string;
  Approval_GenerationID : string;
  Approval_Target : string;
  Approval_RequestedBy : string;
  Approval_ApprovedBy : string;
  Approval_Status : string;
  Approval_CreatedAt : Time;
  Approval_ExpiresAt : Time;
  Approval_UpdatedAt : Time
}.

#[export] Instance RestoreApproval_settable : Settable RestoreApproval :=
  fun r => mkRestoreApproval (r.(Approval_ID)) (r.(Approval_Repository))
    (r.(Approval_GenerationID)) (r.(Approval_Target)) (r.(Approval_RequestedBy))
    (r.(Approval_ApprovedBy)) (r.(Approval_Status)) (r.(Approval_CreatedAt))
    (r.(Approval_ExpiresAt)) (r.(Approval_UpdatedAt)).

Definition zero_RestoreApproval : RestoreApproval :=
  mkRestoreApproval "" "" "" "" "" "" "" time_zero time_zero time_zero.

Record Stats := mkStats {
  Stats_QueuedJobs : Z;
  Stats_RunningJobs : Z;
  Stats_FailedJobs : Z;
  Stats_Repositories : Z;
  Stats_DueRepositories : Z;
  Stats_Generations : Z;
  Stats_ConnectedAgents : Z;
  Stats_StrandedJobs : Z;
  Stats_ReadyReplicas : Z;
  Stats_ReplicaDeficits : Z;
  Stats_PendingApprovals : Z;
  Stats_ActiveTransfers : Z;
  Stats_DegradedStorageAgents : Z;
  Stats_UnhealthyStorageAgents : Z;
  Stats_ObjectRefs : Z;
  Stats_ActiveObjectLeases : Z;
  Stats_ErasureSets : Z;
  Stats_ErasureShardCopies : Z
}.

#[export] Instance Stats_settable : Settable Stats :=
  fun r => mkStats (r.(Stats_QueuedJobs)) (r.(Stats_RunningJobs)) (r.(Stats_FailedJobs))
    (r.(Stats_Repositories)) (r.(Stats_DueRepositories)) (r.(Stats_Generations))
    (r.(Stats_ConnectedAgents)) (r.(Stats_StrandedJobs)) (r.(Stats_ReadyReplicas))
    (r.(Stats_ReplicaDeficits)) (r.(Stats_PendingApprovals)) (r.(Stats_ActiveTransfers))
    (r.(Stats_DegradedStorageAgents)) (r.(Stats_UnhealthyStorageAgents))
    (r.(Stats_ObjectRefs)) (r.(Stats_ActiveObjectLeases)) (r.(Stats_ErasureSets))
    (r.(Stats_ErasureShardCopies)).

Definition zero_Stats : Stats :=
  mkStats 0 0 0 0 0 0 0 0 0 0 0 0 0 0 0 0 0 0.

(** ** Constants *)

Definition LocalWorkerAffinity : string := "__repoark_local__".

Definition JobQueued : string := "queued".
Definition JobRunning : string := "running".
Definition JobSucceeded : string := "succeeded".
Definition JobFailed : string := "failed".

Definition ReplicaReady : string := "ready".
Definition ReplicaStaging : string := "staging".
Definition ReplicaFailed : string := "failed".

Definition TransferReceiving : string := "receiving".
Definition TransferReady : string := "ready".
Definition TransferConsumed : string := "consumed".

Definition ApprovalPending : string := "pending".
Definition ApprovalApproved : string := "approved".
Definition ApprovalScheduled : string := "scheduled".
Definition ApprovalExecuted : string := "executed".
Definition ApprovalExpired : string := "expired".

Definition ErasureReady : string := "ready".
Definition ErasureDegraded : string := "degraded".
Definition ErasureFailed : string := "failed".
Definition ShardReady : string := "ready".
Definition ShardStaging : string := "staging".
Definition ShardFailed : string := "failed".

(** [newID(prefix)]: the prefix and a token made of the current time and 80
    random bits ([crypto/rand]); the token is an argument of the operations
    that draw one. *)
Definition newID (prefix token : string) : string := prefix +:+ "_" +:+ token.

#[export] Instance newID_inj prefix : Inj (=) (=) (newID prefix).
Proof. intros x y H. unfold newID in H. by simplify_eq. Qed.
