(* ===== verification/Payloads.v ===== *)
(** * Job payloads

    The structs [encoding/json] writes to and reads from [Job.Payload], each
    with its [marshal_] and [unmarshal_] function (tags and [omitempty] as
    declared) and the round-trip lemma the handlers rely on. *)

From Stdlib Require Import QArith.
From S2P Require Import Prelude GoStd Json Model.

(** ** [restoreGenerationPayload] (worker.go) *)

Record restoreGenerationPayload := mkRestorePayload {
  rg_Repository : string;
  rg_GenerationID : string;
  rg_Target : string;
  rg_ApprovalID : string
}.

Definition marshal_restore (p : restoreGenerationPayload) : json_text :=
  Json (JObj (jfield "repository" (JStr p.(rg_Repository))
    ++ jfield "generation_id" (JStr p.(rg_GenerationID))
    ++ jfield_opt (p.(rg_Target) ≟ "") "target" (JStr p.(rg_Target))
    ++ jfield_opt (p.(rg_ApprovalID) ≟ "") "approval_id" (JStr p.(rg_ApprovalID)))).

Definition unmarshal_restore (t : json_text) : option restoreGenerationPayload :=
  fs ← as_obj t;
  r ← dec_str fs "repository"; g ← dec_str fs "generation_id";
  tg ← dec_str fs "target"; a ← dec_str fs "approval_id";
  Some (mkRestorePayload r g tg a).

Lemma restore_roundtrip p : unmarshal_restore (marshal_restore p) = Some p.
Proof.
  destruct p as [r g t a]. unfold unmarshal_restore, marshal_restore; simpl.
  by destruct (bool_decide_reflect (t = "")) as [->|], (bool_decide_reflect (a = "")) as [->|].
Qed.

(** ** [replicateGenerationPayload] and [installReplicaPayload] (replication.go) *)

Record replicateGenerationPayload := mkReplicateGen {
  rp_TransferID : string;
  rp_RepositoryID : string;
  rp_Repository : string;
  rp_GenerationID : string;
  rp_SourceAgent : string;
  rp_TargetAgent : string;
  rp_TargetReplicationPubKey : string
}.

Definition marshal_replicate (p : replicateGenerationPayload) : json_text :=
  Json (JObj [("transfer_id", JStr p.(rp_TransferID));
    ("repository_id", JStr p.(rp_RepositoryID));
    ("repository", JStr p.(rp_Repository));
    ("generation_id", JStr p.(rp_GenerationID));
    ("source_agent", JStr p.(rp_SourceAgent));
    ("target_agent", JStr p.(rp_TargetAgent));
    ("target_replication_public_key", JStr p.(rp_TargetReplicationPubKey))]).

Definition unmarshal_replicate (t : json_text) : option replicateGenerationPayload :=
  fs ← as_obj t;
  a ← dec_str fs "transfer_id"; b ← dec_str fs "repository_id";
  c ← dec_str fs "repository"; d ← dec_str fs "generation_id";
  e ← dec_str fs "source_agent"; f ← dec_str fs "target_agent";
  g ← dec_str fs "target_replication_public_key";
  Some (mkReplicateGen a b c d e f g).

Lemma replicate_roundtrip p : unmarshal_replicate (marshal_replicate p) = Some p.
Proof. by destruct p. Qed.

Record installReplicaPayload := mkInstallReplica {
  ir_TransferID : string;
  ir_RepositoryID : string;
  ir_Repository : string;
  ir_GenerationID : string;
  ir_SourceAgent : string;
  ir_TargetAgent : string;
  ir_CipherSHA256 : string;
  ir_CipherBytes : Z
}.

Definition marshal_install_replica (p : installReplicaPayload) : json_text :=
  Json (JObj ([("transfer_id", JStr p.(ir_TransferID));
    ("repository_id", JStr p.(ir_RepositoryID));
    ("repository", JStr p.(ir_Repository));
    ("generation_id", JStr p.(ir_GenerationID));
    ("source_agent", JStr p.(ir_SourceAgent));
    ("target_agent", JStr p.(ir_TargetAgent))]
    ++ jfield_opt (p.(ir_CipherSHA256) ≟ "") "cipher_sha256" (JStr p.(ir_CipherSHA256))
    ++ jfield_opt (p.(ir_CipherBytes) =? 0) "cipher_bytes" (JInt p.(ir_CipherBytes)))).

Definition unmarshal_install_replica (t : json_text) : option installReplicaPayload :=
  fs ← as_obj t;
  a ← dec_str fs "transfer_id"; b ← dec_str fs "repository_id";
  c ← dec_str fs "repository"; d ← dec_str fs "generation_id";
  e ← dec_str fs "source_agent"; f ← dec_str fs "target_agent";
  g ← dec_str fs "cipher_sha256"; h ← dec_int fs "cipher_bytes";
  Some (mkInstallReplica a b c d e f g h).

Lemma dec_int_in_range z :
  in_int64 z → (min_int64 <=? z) && (z <=? max_int64) = true.
Proof. intros [? ?]. apply andb_true_iff. rewrite !Z.leb_le. done. Qed.

Lemma install_replica_roundtrip p :
  in_int64 p.(ir_CipherBytes) →
  unmarshal_install_replica (marshal_install_replica p) = Some p.
Proof.
  destruct p as [a b c d e f g h]. simpl. intros Hh.
  unfold unmarshal_install_replica, marshal_install_replica; simpl.
  destruct (bool_decide_reflect (g = "")) as [->|], (Z.eqb_spec h 0) as [->|];
    simpl; try done;
    unfold dec_int; simpl; by rewrite dec_int_in_range.
Qed.

(** ** [erasureShardTransfer], [replicateCASPayload], [installCASPayload]
    (cas_reconcile.go) *)

Record erasureShardTransfer := mkShardTransfer {
  es_ObjectSHA256 : string;
  es_ShardIndex : Z;
  es_ShardSHA256 : string;
  es_ShardBytes : Z;
  es_LeaseID : string
}.

Definition marshal_shard_transfer (p : erasureShardTransfer) : json :=
  JObj ([("object_sha256", JStr p.(es_ObjectSHA256));
    ("shard_index", JInt p.(es_ShardIndex));
    ("shard_sha256", JStr p.(es_ShardSHA256));
    ("shard_bytes", JInt p.(es_ShardBytes))]
    ++ jfield_opt (p.(es_LeaseID) ≟ "") "lease_id" (JStr p.(es_LeaseID))).

Definition unmarshal_shard_transfer (v : json) : option erasureShardTransfer :=
  fs ← as_obj (Json v);
  a ← dec_str fs "object_sha256"; b ← dec_int fs "shard_index";
  c ← dec_str fs "shard_sha256"; d ← dec_int fs "shard_bytes";
  e ← dec_str fs "lease_id";
  Some (mkShardTransfer a b c d e).

(** A pointer field: null or absent is nil. *)
Definition dec_shard_transfer (fs : list (string * json)) (k : string)
    : option (option erasureShardTransfer) :=
  match field k fs with
  | None | Some JNull => Some None
  | Some v => Some <$> unmarshal_shard_transfer v
  end.

Definition erasure_field (e : option erasureShardTransfer) : list (string * json) :=
  match e with
  | None => []
  | Some s => jfield "erasure" (marshal_shard_transfer s)
  end.

Record replicateCASPayload := mkReplicateCAS {
  rc_TransferID : string;
  rc_SourceAgent : string;
  rc_TargetAgent : string;
  rc_TargetReplicationPubKey : string;
  rc_PoolAgents : list string;
  rc_Factor : Z;
  rc_Prefixes : list string;
  rc_Digests : list string;
  rc_Erasure : option erasureShardTransfer;
  rc_SourceInventoryRoot : string;
  rc_TargetInventoryRoot : string
}.

Definition marshal_replicate_cas (p : replicateCASPayload) : json_text :=
  Json (JObj ([("transfer_id", JStr p.(rc_TransferID));
    ("source_agent", JStr p.(rc_SourceAgent));
    ("target_agent", JStr p.(rc_TargetAgent));
    ("target_replication_public_key", JStr p.(rc_TargetReplicationPubKey));
    ("pool_agents", jstrs p.(rc_PoolAgents));
    ("factor", JInt p.(rc_Factor))]
    ++ jfield_opt (p.(rc_Prefixes) ≟ []) "prefixes" (jstrs p.(rc_Prefixes))
    ++ jfield_opt (p.(rc_Digests) ≟ []) "digests" (jstrs p.(rc_Digests))
    ++ erasure_field p.(rc_Erasure)
    ++ [("source_inventory_root", JStr p.(rc_SourceInventoryRoot));
        ("target_inventory_root", JStr p.(rc_TargetInventoryRoot))])).

Definition unmarshal_replicate_cas (t : json_text) : option replicateCASPayload :=
  fs ← as_obj t;
  a ← dec_str fs "transfer_id"; b ← dec_str fs "source_agent";
  c ← dec_str fs "target_agent"; d ← dec_str fs "target_replication_public_key";
  e ← dec_strs fs "pool_agents"; f ← dec_int fs "factor";
  g ← dec_strs fs "prefixes"; h ← dec_strs fs "digests";
  i ← dec_shard_transfer fs "erasure";
  j ← dec_str fs "source_inventory_root"; k ← dec_str fs "target_inventory_root";
  Some (mkReplicateCAS a b c d e f g h i j k).

Definition shard_transfer_in_range (p : erasureShardTransfer) : Prop :=
  in_int64 p.(es_ShardIndex) ∧ in_int64 p.(es_ShardBytes).

Lemma shard_transfer_roundtrip p :
  shard_transfer_in_range p →
  unmarshal_shard_transfer (marshal_shard_transfer p) = Some p.
Proof.
  destruct p as [a b c d e]. intros [Hb Hd]; simpl in *.
  unfold unmarshal_shard_transfer, marshal_shard_transfer, dec_int; simpl.
  destruct (bool_decide_reflect (e = "")) as [->|]; simpl;
    by rewrite !dec_int_in_range by done.
Qed.

Lemma dec_shard_transfer_some fs k s :
  field k fs = Some (marshal_shard_transfer s) → shard_transfer_in_range s →
  dec_shard_transfer fs k = Some (Some s).
Proof.
  intros H Hs. unfold dec_shard_transfer. rewrite H.
  pose proof (shard_transfer_roundtrip s Hs) as E.
  destruct (marshal_shard_transfer s) eqn:M; [discriminate M|..]; by rewrite E.
Qed.

Lemma dec_strs_some fs k l : field k fs = Some (jstrs l) → dec_strs fs k = Some l.
Proof. intros H. unfold dec_strs. rewrite H. apply all_strs_jstrs. Qed.

Lemma dec_strs_none fs k : field k fs = None → dec_strs fs k = Some [].
Proof. intros H. unfold dec_strs. by rewrite H. Qed.

Lemma dec_shard_transfer_none fs k :
  field k fs = None → dec_shard_transfer fs k = Some None.
Proof. intros H. unfold dec_shard_transfer. by rewrite H. Qed.

Lemma replicate_cas_roundtrip p :
  in_int64 p.(rc_Factor) →
  (∀ s, p.(rc_Erasure) = Some s → shard_transfer_in_range s) →
  unmarshal_replicate_cas (marshal_replicate_cas p) = Some p.
Proof.
  destruct p as [a b c d e f g h i j k]. intros Hf Hi. simpl in Hf, Hi.
  unfold unmarshal_replicate_cas, marshal_replicate_cas, as_obj;
    cbn [mbind option_bind rc_TransferID rc_SourceAgent rc_TargetAgent
      rc_TargetReplicationPubKey rc_PoolAgents rc_Factor rc_Prefixes rc_Digests
      rc_Erasure rc_SourceInventoryRoot rc_TargetInventoryRoot].
  match goal with |- context [dec_str ?l "transfer_id"] => set (fs := l) end.
  assert (dec_shard_transfer fs "erasure" = Some i) as ->.
  { destruct i as [s|];
      [apply dec_shard_transfer_some; [|by apply Hi]|apply dec_shard_transfer_none];
      unfold fs; by destruct (bool_decide (g = [])), (bool_decide (h = [])). }
  assert (dec_strs fs "prefixes" = Some g) as ->.
  { unfold fs. destruct (bool_decide_reflect (g = [])) as [->|];
      [apply dec_strs_none|apply dec_strs_some]; by destruct i, (bool_decide (h = [])). }
  assert (dec_strs fs "digests" = Some h) as ->.
  { unfold fs. destruct (bool_decide_reflect (h = [])) as [->|];
      [apply dec_strs_none|apply dec_strs_some]; by destruct i, (bool_decide (g = [])). }
  assert (dec_strs fs "pool_agents" = Some e) as ->.
  { apply dec_strs_some. unfold fs.
    by destruct i, (bool_decide (g = [])), (bool_decide (h = [])). }
  assert (dec_int fs "factor" = Some f) as ->.
  { apply dec_int_id; [|done]. unfold fs.
    by destruct i, (bool_decide (g = [])), (bool_decide (h = [])). }
  unfold fs. by destruct i, (bool_decide (g = [])), (bool_decide (h = [])).
Qed.

(** What has been decoded is in range. *)
Lemma dec_int_range fs k z : dec_int fs k = Some z → in_int64 z.
Proof.
  unfold dec_int, in_int64. intros H. repeat case_match; simplify_eq; bool_to_prop;
    first [done|by split; vm_compute|unfold min_int64, max_int64, two63; lia].
Qed.

Lemma unmarshal_shard_transfer_range v e :
  unmarshal_shard_transfer v = Some e → shard_transfer_in_range e.
Proof.
  unfold unmarshal_shard_transfer. intros H. repeat (apply bind_Some in H as (? & ? & H)).
  injection H as <-. split; simpl; by eapply dec_int_range.
Qed.

Lemma unmarshal_replicate_cas_range t p e :
  unmarshal_replicate_cas t = Some p → p.(rc_Erasure) = Some e → shard_transfer_in_range e.
Proof.
  unfold unmarshal_replicate_cas. intros H He. repeat (apply bind_Some in H as (? & ? & H)).
  injection H as <-. simpl in He. subst.
  match goal with H : dec_shard_transfer _ _ = _ |- _ => unfold dec_shard_transfer in H; rename H into Hd end.
  repeat case_match; simplify_eq; try by eapply unmarshal_shard_transfer_range.
  all: apply fmap_Some in Hd as (y & Hy & [= ->]); by eapply unmarshal_shard_transfer_range.
Qed.

Record installCASPayload := mkInstallCAS {
  ic_TransferID : string;
  ic_SourceAgent : string;
  ic_TargetAgent : string;
  ic_CipherSHA256 : string;
  ic_CipherBytes : Z;
  ic_Erasure : option erasureShardTransfer
}.

Definition marshal_install_cas (p : installCASPayload) : json_text :=
  Json (JObj ([("transfer_id", JStr p.(ic_TransferID));
    ("source_agent", JStr p.(ic_SourceAgent));
    ("target_agent", JStr p.(ic_TargetAgent));
    ("cipher_sha256", JStr p.(ic_CipherSHA256));
    ("cipher_bytes", JInt p.(ic_CipherBytes))] ++ erasure_field p.(ic_Erasure))).

Definition unmarshal_install_cas (t : json_text) : option installCASPayload :=
  fs ← as_obj t;
  a ← dec_str fs "transfer_id"; b ← dec_str fs "source_agent";
  c ← dec_str fs "target_agent"; d ← dec_str fs "cipher_sha256";
  e ← dec_int fs "cipher_bytes"; f ← dec_shard_transfer fs "erasure";
  Some (mkInstallCAS a b c d e f).

Lemma install_cas_roundtrip p :
  in_int64 p.(ic_CipherBytes) →
  (∀ s, p.(ic_Erasure) = Some s → shard_transfer_in_range s) →
  unmarshal_install_cas (marshal_install_cas p) = Some p.
Proof.
  destruct p as [a b c d e f]; simpl. intros He Hf.
  unfold unmarshal_install_cas, marshal_install_cas, as_obj; cbn [mbind option_bind].
  match goal with |- context [dec_str ?l "transfer_id"] => set (fs := l) end.
  assert (dec_shard_transfer fs "erasure" = Some f) as ->.
  { destruct f as [s|]; [apply dec_shard_transfer_some; [done|by apply Hf]|done]. }
  assert (dec_int fs "cipher_bytes" = Some e) as ->.
  { unfold fs, dec_int. destruct f; simpl; by rewrite dec_int_in_range. }
  unfold fs. by destruct f.
Qed.

(** ** [repairShard] and [repairObjectPayload] (repair_distributed.go) *)

Record repairShard := mkRepairShard {
  rs_Index : Z;
  rs_Digest : string;
  rs_Bytes : Z
}.

Definition marshal_repair_shard (s : repairShard) : json :=
  JObj [("index", JInt s.(rs_Index)); ("digest", JStr s.(rs_Digest));
    ("bytes", JInt s.(rs_Bytes))].

Record repairObjectPayload := mkRepairObject {
  ro_Digest : string;
  ro_OriginalBytes : Z;
  ro_DataShards : Z;
  ro_ParityShards : Z;
  ro_BlockBytes : Z;
  ro_Shards : list repairShard
}.

Definition marshal_repair_object (p : repairObjectPayload) : json_text :=
  Json (JObj [("digest", JStr p.(ro_Digest));
    ("original_bytes", JInt p.(ro_OriginalBytes));
    ("data_shards", JInt p.(ro_DataShards));
    ("parity_shards", JInt p.(ro_ParityShards));
    ("block_bytes", JInt p.(ro_BlockBytes));
    ("shards", JArr (marshal_repair_shard <$> p.(ro_Shards)))]).

(** ** [backupPayload] and [protectErasurePayload]

    The scheduler writes the backup payload with [%q], which yields the JSON
    encoding for the names GitHub allows. *)

Record backupPayload := mkBackup { bp_RepositoryID : string; bp_FullName : string }.

Definition marshal_backup (p : backupPayload) : json_text :=
  Json (JObj [("repository_id", JStr p.(bp_RepositoryID));
    ("full_name", JStr p.(bp_FullName))]).

Definition unmarshal_backup (t : json_text) : option backupPayload :=
  fs ← as_obj t; a ← dec_str fs "repository_id"; b ← dec_str fs "full_name";
  Some (mkBackup a b).

Lemma backup_roundtrip p : unmarshal_backup (marshal_backup p) = Some p.
Proof. by destruct p. Qed.

Record protectErasurePayload := mkProtect { pe_Limit : Z }.

Definition marshal_protect (p : protectErasurePayload) : json_text :=
  Json (JObj (jfield_opt (p.(pe_Limit) =? 0) "limit" (JInt p.(pe_Limit)))).

#[export] Hint Rewrite restore_roundtrip replicate_roundtrip backup_roundtrip : repoark.
#[export] Hint Resolve install_replica_roundtrip install_cas_roundtrip
  replicate_cas_roundtrip : repoark.
