(* ===== verification/MemStore.v ===== *)
(** * The in-memory store ([internal/controlplane/memory.go])

    [MemoryStore] is the record of the struct's maps; every method is a
    function from the store to the new store and the method's results.  The
    mutex makes each method atomic.  [time.Now] is the argument [now] (one per
    call of it: [now1], [now2]), the random part of [newID] the argument
    [token], and the order a map is ranged over the instance [MapOrder]. *)

From Stdlib Require Import QArith.
From S2P Require Import Prelude GoStd Json Sha256 Model Payloads.
#[global] Open Scope Z_scope.

Module Mem.

Record MemoryStore := mkMemoryStore {
  Jobs : gmap string Job;
  Repos : gmap string Repository;
  Generations : gmap string (list Generation);
  Replicas : gmap string (list GenerationReplica);
  Agents : gmap string Agent;
  Approvals : gmap string RestoreApproval;
  Transfers : gmap string ReplicationTransfer;
  ObjectRefs : gmap string ObjectRef;
  ObjectRefOwners : gmap string (gset string);
  ObjectLeases : gmap string ObjectLease;
  ErasureSets : gmap string ErasureSet;
  ErasureShards : gmap string (list ErasureShard);
  Meta : gmap string string
}.

#[global] Instance MemoryStore_settable : Settable MemoryStore :=
  fun r => mkMemoryStore (r.(Jobs)) (r.(Repos)) (r.(Generations)) (r.(Replicas))
    (r.(Agents)) (r.(Approvals)) (r.(Transfers)) (r.(ObjectRefs)) (r.(ObjectRefOwners))
    (r.(ObjectLeases)) (r.(ErasureSets)) (r.(ErasureShards)) (r.(Meta)).

Definition NewMemoryStore : MemoryStore := mkMemoryStore ∅ ∅ ∅ ∅ ∅ ∅ ∅ ∅ ∅ ∅ ∅ ∅ ∅.

Section Methods.
Context {MO : MapOrder}.
Implicit Types (m : MemoryStore) (now : Time).

(** ** Jobs *)

Definition active (j : Job) : bool :=
  (j.(Job_Status) ≟ JobQueued) || (j.(Job_Status) ≟ JobRunning).

Definition same_key (x j : Job) : bool :=
  (x.(Job_Kind) ≟ j.(Job_Kind)) && (x.(Job_Target) ≟ j.(Job_Target))
  && (x.(Job_Affinity) ≟ j.(Job_Affinity)).

Definition new_job (now : Time) (token : string) (j : Job) : Job :=
  let j := if j.(Job_ID) ≟ "" then j <| Job_ID := newID "job" token |> else j in
  let j := if j.(Job_Status) ≟ "" then j <| Job_Status := JobQueued |> else j in
  let j := if j.(Job_MaxAttempts) =? 0 then j <| Job_MaxAttempts := 5 |> else j in
  let j := if IsZero j.(Job_NotBefore) then j <| Job_NotBefore := now |> else j in
  j <| Job_CreatedAt := now |> <| Job_UpdatedAt := now |>.

Definition Enqueue (now : Time) (token : string) (j : Job) (m : MemoryStore)
    : MemoryStore * (Job * bool) :=
  match List.find (fun x => same_key x j && active x) (range_vals m.(Jobs)) with
  | Some x => (m, (x, false))
  | None =>
      let j := new_job now token j in
      (m <| Jobs := <[j.(Job_ID) := j]> m.(Jobs) |>, (j, true))
  end.

Definition lease_lapsed (now : Time) (j : Job) : bool :=
  (j.(Job_Status) ≟ JobRunning) && negb (IsZero j.(Job_LeaseUntil))
  && negb (After j.(Job_LeaseUntil) now).

Definition on_final_attempt (now : Time) (j : Job) : bool :=
  lease_lapsed now j && (j.(Job_MaxAttempts) <=? j.(Job_Attempts)).

Definition reap (now : Time) (j : Job) : Job :=
  let j := j <| Job_Status := JobFailed |> <| Job_LeaseOwner := "" |>
             <| Job_LeaseUntil := time_zero |> <| Job_UpdatedAt := now |> in
  if j.(Job_LastError) ≟ "" then j <| Job_LastError := "lease expired on final attempt" |> else j.

Definition leasable (now : Time) (owner : string) (j : Job) : bool :=
  (j.(Job_Attempts) <? j.(Job_MaxAttempts)) && negb (After j.(Job_NotBefore) now)
  && ((j.(Job_Affinity) ≟ "") || (j.(Job_Affinity) ≟ owner))
  && ((j.(Job_Status) ≟ JobQueued) || lease_lapsed now j).

(** The loop over the jobs: reap in place, gather what may be leased. *)
Definition lease_scan (now : Time) (owner : string)
    (acc : gmap string Job * list Job) (e : string * Job) : gmap string Job * list Job :=
  let '(id, j) := e in
  if on_final_attempt now j then (<[id := reap now j]> acc.1, acc.2)
  else if leasable now owner j then (acc.1, acc.2 ++ [j])
  else acc.

(** Higher priority first, then older first. *)
Definition lease_order (x y : Job) : bool :=
  if x.(Job_Priority) =? y.(Job_Priority)
  then Before x.(Job_CreatedAt) y.(Job_CreatedAt)
  else y.(Job_Priority) <? x.(Job_Priority).

Definition issue (now : Time) (owner : string) (lease : Duration) (j : Job) : Job :=
  j <| Job_Status := JobRunning |> <| Job_Attempts := wrap64 (j.(Job_Attempts) + 1) |>
    <| Job_LeaseOwner := owner |> <| Job_LeaseUntil := time_add now lease |>
    <| Job_UpdatedAt := now |>.

Definition insert_job (jobs : gmap string Job) (j : Job) : gmap string Job :=
  <[j.(Job_ID) := j]> jobs.

Definition Lease (now : Time) (owner : string) (limit : Z) (lease : Duration)
    (m : MemoryStore) : MemoryStore * list Job :=
  let '(jobs, xs) := foldl (lease_scan now owner) (m.(Jobs), []) (range m.(Jobs)) in
  let xs := sort_slice lease_order xs in
  let limit := if (limit <=? 0) || (zlen xs <? limit) then zlen xs else limit in
  let xs := issue now owner lease <$> take (Z.to_nat limit) xs in
  (m <| Jobs := foldl insert_job jobs xs |>, xs).

Definition finish (now : Time) (j : Job) : Job :=
  j <| Job_Status := JobSucceeded |> <| Job_LeaseOwner := "" |>
    <| Job_LeaseUntil := time_zero |> <| Job_UpdatedAt := now |>.

Definition Complete (now1 now2 : Time) (id owner : string) (m : MemoryStore)
    : MemoryStore * result unit :=
  match m.(Jobs) !! id with
  | None => (m, Err "job not leased")
  | Some j =>
    if (j.(Job_Status) ≠? JobRunning) || (j.(Job_LeaseOwner) ≠? owner)
    then (m, Err "job not leased")
    else
      let close m := (m <| Jobs := <[id := finish now2 j]> m.(Jobs) |>, Ok tt) in
      if j.(Job_Kind) ≟ "restore-generation" then
        match unmarshal_restore j.(Job_Payload) with
        | Some p =>
            if p.(rg_ApprovalID) ≟ "" then close m
            else
              match m.(Approvals) !! p.(rg_ApprovalID) with
              | Some a =>
                  if a.(Approval_Status) ≟ ApprovalScheduled then
                    let a := a <| Approval_Status := ApprovalExecuted |>
                               <| Approval_UpdatedAt := now1 |> in
                    close (m <| Approvals := <[p.(rg_ApprovalID) := a]> m.(Approvals) |>)
                  else (m, Err "restore approval is not scheduled")
              | None => (m, Err "restore approval is not scheduled")
              end
        | None => close m
        end
      else close m
  end.

Definition fail_job (now : Time) (detail : string) (retry : Duration) (j : Job) : Job :=
  let j := j <| Job_LastError := detail |> <| Job_LeaseOwner := "" |>
             <| Job_LeaseUntil := time_zero |> <| Job_UpdatedAt := now |> in
  if j.(Job_MaxAttempts) <=? j.(Job_Attempts) then j <| Job_Status := JobFailed |>
  else j <| Job_Status := JobQueued |>
         <| Job_NotBefore := time_add j.(Job_UpdatedAt) retry |>.

Definition Fail (now : Time) (id owner detail : string) (retry : Duration)
    (m : MemoryStore) : MemoryStore * result unit :=
  match m.(Jobs) !! id with
  | Some j =>
      if j.(Job_LeaseOwner) ≠? owner then (m, Err "job not leased")
      else (m <| Jobs := <[id := fail_job now detail retry j]> m.(Jobs) |>, Ok tt)
  | None => (m, Err "job not leased")
  end.

Definition newest_job (x y : Job) : bool := After x.(Job_CreatedAt) y.(Job_CreatedAt).

Definition ListJobs (limit : Z) (m : MemoryStore) : list Job :=
  clip limit (sort_slice newest_job (range_vals m.(Jobs))).

Definition GetJob (id : string) (m : MemoryStore) : result Job :=
  match m.(Jobs) !! id with Some j => Ok j | None => Err "job not found" end.

Definition RetryJob (now : Time) (id : string) (m : MemoryStore)
    : MemoryStore * result unit :=
  match m.(Jobs) !! id with
  | Some j =>
      if j.(Job_Status) ≠? JobFailed then (m, Err "failed job not found")
      else
        let j := j <| Job_Status := JobQueued |> <| Job_Attempts := 0 |>
                   <| Job_LastError := "" |> <| Job_NotBefore := now |> in
        (m <| Jobs := <[id := j]> m.(Jobs) |>, Ok tt)
  | None => (m, Err "failed job not found")
  end.

(** ** Repositories *)

Definition UpsertRepository (now1 now2 : Time) (r : Repository) (m : MemoryStore)
    : MemoryStore :=
  let r := if r.(Repo_ID) ≟ "" then r <| Repo_ID := RepositoryID r.(Repo_Account) r.(Repo_FullName) |>
           else r in
  let r :=
    match m.(Repos) !! r.(Repo_ID) with
    | Some old =>
        let r := r <| Repo_LastBackupAt := old.(Repo_LastBackupAt) |>
                   <| Repo_LastGenerationID := old.(Repo_LastGenerationID) |>
                   <| Repo_LastBackupSuccessful := old.(Repo_LastBackupSuccessful) |> in
        if IsZero r.(Repo_NextRunAt) then r <| Repo_NextRunAt := old.(Repo_NextRunAt) |> else r
    | None => r
    end in
  let r := if IsZero r.(Repo_NextRunAt) then r <| Repo_NextRunAt := now1 |> else r in
  let r := r <| Repo_UpdatedAt := now2 |> in
  m <| Repos := <[r.(Repo_ID) := r]> m.(Repos) |>.

Definition repo_by_name (x y : Repository) : bool :=
  str_less x.(Repo_FullName) y.(Repo_FullName).

Definition ListRepositories (m : MemoryStore) : list Repository :=
  sort_slice repo_by_name (range_vals m.(Repos)).

Definition due (now : Time) (r : Repository) : bool :=
  r.(Repo_Enabled) && negb (After r.(Repo_NextRunAt) now).

Definition DueRepositories (now : Time) (limit : Z) (m : MemoryStore) : list Repository :=
  clip limit (sort_slice (fun x y => Before x.(Repo_NextRunAt) y.(Repo_NextRunAt))
    (List.filter (due now) (range_vals m.(Repos)))).

Definition MarkScheduled (now : Time) (id : string) (next : Time) (m : MemoryStore)
    : MemoryStore :=
  let r := zero_or zero_Repository (m.(Repos) !! id) in
  m <| Repos := <[id := r <| Repo_NextRunAt := next |> <| Repo_UpdatedAt := now |>]> m.(Repos) |>.

Definition MarkBackupResult (now : Time) (id : string) (ok : bool) (gid : string)
    (at_ : Time) (m : MemoryStore) : MemoryStore :=
  let r := zero_or zero_Repository (m.(Repos) !! id) in
  let r := r <| Repo_LastBackupAt := at_ |> <| Repo_LastBackupSuccessful := ok |>
             <| Repo_LastGenerationID := gid |> <| Repo_UpdatedAt := now |> in
  m <| Repos := <[id := r]> m.(Repos) |>.

(** [now] is read once per repository disabled: [clock id]. *)
Definition DisableMissingRepositories (clock : string → Time) (account : string)
    (seen : gset string) (m : MemoryStore) : MemoryStore :=
  m <| Repos := foldl (fun repos '(id, r) =>
    if r.(Repo_Account) ≠? account then repos
    else if bool_decide (id ∈ seen) then repos
    else <[id := r <| Repo_Enabled := false |> <| Repo_UpdatedAt := clock id |>]> repos)
    m.(Repos) (range m.(Repos)) |>.

(** ** Generations and replicas *)

Definition RecordGeneration (g : Generation) (m : MemoryStore) : MemoryStore :=
  m <| Generations := <[g.(Gen_RepositoryID) :=
    zero_or [] (m.(Generations) !! g.(Gen_RepositoryID)) ++ [g]]> m.(Generations) |>.

Definition newest_generation (x y : Generation) : bool :=
  After x.(Gen_CreatedAt) y.(Gen_CreatedAt).

Definition ListAllGenerations (limit : Z) (m : MemoryStore) : list Generation :=
  clip limit (sort_any newest_generation (concat (range_vals m.(Generations)))).

Definition ListGenerations (rid : string) (limit : Z) (m : MemoryStore) : list Generation :=
  clip limit (sort_any newest_generation (zero_or [] (m.(Generations) !! rid))).

Fixpoint replace_replica (r : GenerationReplica) (xs : list GenerationReplica)
    : list GenerationReplica :=
  match xs with
  | [] => [r]
  | x :: xs' => if x.(Replica_AgentID) ≟ r.(Replica_AgentID) then r :: xs'
                else x :: replace_replica r xs'
  end.

Definition RecordReplica (now : Time) (r : GenerationReplica) (m : MemoryStore)
    : MemoryStore :=
  let r := r <| Replica_UpdatedAt := now |> in
  let xs := zero_or [] (m.(Replicas) !! r.(Replica_GenerationID)) in
  m <| Replicas := <[r.(Replica_GenerationID) := replace_replica r xs]> m.(Replicas) |>.

Definition ListReplicas (generationID : string) (m : MemoryStore)
    : list GenerationReplica := zero_or [] (m.(Replicas) !! generationID).

Definition ListAllReplicas (limit : Z) (m : MemoryStore) : list GenerationReplica :=
  clip limit (sort_any (fun x y => After x.(Replica_UpdatedAt) y.(Replica_UpdatedAt))
    (concat (range_vals m.(Replicas)))).

Definition PruneGenerationRecords (repoID : string) (keep : Z) (m : MemoryStore)
    : MemoryStore :=
  let xs := sort_any newest_generation (zero_or [] (m.(Generations) !! repoID)) in
  if (0 <? keep) && (keep <? zlen xs) then
    let removed := drop (Z.to_nat keep) xs in
    m <| Replicas := foldl (fun rs g => delete g.(Gen_ID) rs) m.(Replicas) removed |>
      <| Generations := <[repoID := take (Z.to_nat keep) xs]> m.(Generations) |>
  else m <| Generations := <[repoID := xs]> m.(Generations) |>.

(** ** Replication transfers *)

Definition RecordReplicationTransfer (now : Time) (t : ReplicationTransfer)
    (m : MemoryStore) : MemoryStore * result unit :=
  if t.(Transfer_ID) ≟ "" then (m, Err "replication transfer id is required")
  else
    let t := if t.(Transfer_State) ≟ "" then t <| Transfer_State := TransferReady |> else t in
    let t := t <| Transfer_UpdatedAt := now |> in
    (m <| Transfers := <[t.(Transfer_ID) := t]> m.(Transfers) |>, Ok tt).

Definition GetReplicationTransfer (id : string) (m : MemoryStore)
    : result ReplicationTransfer :=
  match m.(Transfers) !! id with
  | Some t => Ok t
  | None => Err "replication transfer not found"
  end.

Definition transfer_expired (now : Time) (t : ReplicationTransfer) : bool :=
  negb (IsZero t.(Transfer_ExpiresAt)) && negb (After t.(Transfer_ExpiresAt) now).

Definition ListExpiredReplicationTransfers (now : Time) (limit : Z) (m : MemoryStore)
    : list ReplicationTransfer :=
  clip limit (sort_slice (fun x y => Before x.(Transfer_ExpiresAt) y.(Transfer_ExpiresAt))
    (List.filter (transfer_expired now) (range_vals m.(Transfers)))).

Definition DeleteReplicationTransfer (id : string) (m : MemoryStore) : MemoryStore :=
  m <| Transfers := delete id m.(Transfers) |>.

(** ** Agents *)

Definition HeartbeatAgent (now : Time) (a : Agent) (m : MemoryStore) : MemoryStore :=
  let a := if a.(Agent_ID) ≟ "" then a <| Agent_ID := a.(Agent_Name) |> else a in
  let a := a <| Agent_LastSeenAt := now |> <| Agent_UpdatedAt := now |>
             <| Agent_Status := "online" |> in
  m <| Agents := <[a.(Agent_ID) := a]> m.(Agents) |>.

Definition ListAgents (m : MemoryStore) : list Agent := range_vals m.(Agents).

Definition GetAgent (id : string) (m : MemoryStore) : result Agent :=
  match m.(Agents) !! id with Some a => Ok a | None => Err "agent not found" end.

(** ** Restore approvals *)

Definition CreateRestoreApproval (now : Time) (token : string) (a : RestoreApproval)
    (m : MemoryStore) : MemoryStore * result unit :=
  let a := if a.(Approval_ID) ≟ "" then a <| Approval_ID := newID "restore" token |> else a in
  let a := if IsZero a.(Approval_CreatedAt) then a <| Approval_CreatedAt := now |> else a in
  let a := a <| Approval_UpdatedAt := now |> in
  let a := if a.(Approval_Status) ≟ "" then a <| Approval_Status := ApprovalPending |> else a in
  (m <| Approvals := <[a.(Approval_ID) := a]> m.(Approvals) |>, Ok tt).

Definition GetRestoreApproval (id : string) (m : MemoryStore) : result RestoreApproval :=
  match m.(Approvals) !! id with
  | Some a => Ok a
  | None => Err "restore approval not found"
  end.

Definition ListRestoreApprovals (limit : Z) (m : MemoryStore) : list RestoreApproval :=
  clip limit (sort_slice (fun x y => After x.(Approval_CreatedAt) y.(Approval_CreatedAt))
    (range_vals m.(Approvals))).

Definition set_approval (id status : string) (now : Time) (a : RestoreApproval)
    (m : MemoryStore) : MemoryStore :=
  m <| Approvals := <[id := a <| Approval_Status := status |>
                              <| Approval_UpdatedAt := now |>]> m.(Approvals) |>.

Definition not_in_status (a : RestoreApproval) : string :=
  "restore approval is " +:+ a.(Approval_Status).

Definition ApproveRestore (now : Time) (id actor : string) (requireDistinct : bool)
    (m : MemoryStore) : MemoryStore * result unit :=
  match m.(Approvals) !! id with
  | None => (m, Err "restore approval not found")
  | Some a =>
      if a.(Approval_Status) ≠? ApprovalPending then (m, Err (not_in_status a))
      else if negb (IsZero a.(Approval_ExpiresAt)) && negb (After a.(Approval_ExpiresAt) now)
      then (set_approval id ApprovalExpired now a m, Err "restore approval expired")
      else if requireDistinct && (a.(Approval_RequestedBy) ≟ actor)
      then (m, Err "requester cannot approve own restore")
      else (set_approval id ApprovalApproved now (a <| Approval_ApprovedBy := actor |>) m, Ok tt)
  end.

Definition move_approval (now : Time) (id from to : string) (m : MemoryStore)
    : MemoryStore * result unit :=
  match m.(Approvals) !! id with
  | None => (m, Err "restore approval not found")
  | Some a =>
      if a.(Approval_Status) ≠? from then (m, Err (not_in_status a))
      else (set_approval id to now a m, Ok tt)
  end.

Definition ScheduleRestore (now : Time) (id : string) :=
  move_approval now id ApprovalApproved ApprovalScheduled.
Definition ReleaseRestoreSchedule (now : Time) (id : string) :=
  move_approval now id ApprovalScheduled ApprovalApproved.
Definition MarkRestoreExecuted (now : Time) (id : string) :=
  move_approval now id ApprovalScheduled ApprovalExecuted.

(** ** Statistics *)

Definition agent_connected (now : Time) (a : Agent) : bool :=
  After a.(Agent_LastSeenAt) (time_add now (-2 * Minute)).

Definition job_stranded (connected : gset string) (j : Job) : bool :=
  negb ((j.(Job_Affinity) ≟ "") || (j.(Job_Affinity) ≟ LocalWorkerAffinity)
        || ((j.(Job_Status) ≠? JobQueued) && (j.(Job_Status) ≠? JobRunning)))
  && negb (bool_decide (j.(Job_Affinity) ∈ connected)).

Definition sum_len {A} (xs : list (list A)) : Z := foldr (fun l n => zlen l + n) 0 xs.

Definition Stats_ (now : Time) (m : MemoryStore) : Stats :=
  let jobs := range_vals m.(Jobs) in
  let agents := range_vals m.(Agents) in
  let connected : gset string :=
    list_to_set (Agent_ID <$> List.filter (agent_connected now) agents) in
  {| Stats_QueuedJobs := count_if (fun j => j.(Job_Status) ≟ JobQueued) jobs;
     Stats_RunningJobs := count_if (fun j => j.(Job_Status) ≟ JobRunning) jobs;
     Stats_FailedJobs := count_if (fun j => j.(Job_Status) ≟ JobFailed) jobs;
     Stats_Repositories := zlen (range_vals m.(Repos));
     Stats_DueRepositories := count_if (due now) (range_vals m.(Repos));
     Stats_Generations := sum_len (range_vals m.(Generations));
     Stats_ConnectedAgents := count_if (agent_connected now) agents;
     Stats_StrandedJobs := count_if (job_stranded connected) jobs;
     Stats_ReadyReplicas :=
       count_if (fun r => r.(Replica_State) ≟ ReplicaReady) (concat (range_vals m.(Replicas)));
     Stats_ReplicaDeficits := 0;
     Stats_PendingApprovals :=
       count_if (fun a => (a.(Approval_Status) ≟ ApprovalPending)
         && (IsZero a.(Approval_ExpiresAt) || After a.(Approval_ExpiresAt) now))
         (range_vals m.(Approvals));
     Stats_ActiveTransfers := zlen (range_vals m.(Transfers));
     Stats_DegradedStorageAgents := count_if (fun a => a.(Agent_StorageHealth) ≟ "degraded") agents;
     Stats_UnhealthyStorageAgents := count_if (fun a => a.(Agent_StorageHealth) ≟ "unhealthy") agents;
     Stats_ObjectRefs := zlen (range_vals m.(ObjectRefs));
     Stats_ActiveObjectLeases :=
       count_if (fun l => After l.(OLease_ExpiresAt) now) (range_vals m.(ObjectLeases));
     Stats_ErasureSets := zlen (range_vals m.(ErasureSets));
     Stats_ErasureShardCopies :=
       count_if (fun sh => sh.(Shard_State) ≟ ShardReady)
         (concat (range_vals m.(ErasureShards))) |}.

Definition SetMeta (k v : string) (m : MemoryStore) : MemoryStore :=
  m <| Meta := <[k := v]> m.(Meta) |>.
Definition GetMeta (k : string) (m : MemoryStore) : string * bool :=
  match m.(Meta) !! k with Some v => (v, true) | None => ("", false) end.

(** ** Object references *)

(** [if ref.Kind != ""] and [if ref.Bytes > 0] overwrite the stored values. *)
Definition merge_ref (ref cur : ObjectRef) : ObjectRef :=
  let cur := if cur.(Ref_Digest) ≟ "" then ref else cur in
  let cur := if ref.(Ref_Kind) ≟ "" then cur else cur <| Ref_Kind := ref.(Ref_Kind) |> in
  if 0 <? ref.(Ref_Bytes) then cur <| Ref_Bytes := ref.(Ref_Bytes) |> else cur.

Definition AdjustObjectRef (now : Time) (ref : ObjectRef) (delta : Z) (m : MemoryStore)
    : MemoryStore * result ObjectRef :=
  if ref.(Ref_Digest) ≟ "" then (m, Err "object digest is required")
  else
    let cur := merge_ref ref (zero_or zero_ObjectRef (m.(ObjectRefs) !! ref.(Ref_Digest))) in
    let cur := cur <| Ref_RefCount := wrap64 (cur.(Ref_RefCount) + delta) |> in
    if cur.(Ref_RefCount) <? 0 then (m, Err ("negative refcount for " +:+ ref.(Ref_Digest)))
    else
      let cur := cur <| Ref_UpdatedAt := now |> in
      (m <| ObjectRefs := <[ref.(Ref_Digest) := cur]> m.(ObjectRefs) |>, Ok cur).

Definition EnsureObjectRef (now : Time) (ref : ObjectRef) (owner : string)
    (m : MemoryStore) : MemoryStore * result bool :=
  if (ref.(Ref_Digest) ≟ "") || (owner ≟ "") then (m, Err "digest and owner are required")
  else
    let owners := zero_or ∅ (m.(ObjectRefOwners) !! ref.(Ref_Digest)) in
    let m := m <| ObjectRefOwners := <[ref.(Ref_Digest) := owners]> m.(ObjectRefOwners) |> in
    if bool_decide (owner ∈ owners) then (m, Ok false)
    else
      let cur := merge_ref ref (zero_or zero_ObjectRef (m.(ObjectRefs) !! ref.(Ref_Digest))) in
      let cur := cur <| Ref_RefCount := wrap64 (cur.(Ref_RefCount) + 1) |>
                     <| Ref_UpdatedAt := now |> in
      (m <| ObjectRefs := <[ref.(Ref_Digest) := cur]> m.(ObjectRefs) |>
         <| ObjectRefOwners := <[ref.(Ref_Digest) := {[owner]} ∪ owners]> m.(ObjectRefOwners) |>,
       Ok true).

Definition ReleaseObjectRef (now : Time) (digest owner : string) (m : MemoryStore)
    : MemoryStore * result bool :=
  let owners := zero_or ∅ (m.(ObjectRefOwners) !! digest) in
  if bool_decide (owner ∈ owners) then
    let cur := zero_or zero_ObjectRef (m.(ObjectRefs) !! digest) in
    let cur := if 0 <? cur.(Ref_RefCount)
               then cur <| Ref_RefCount := wrap64 (cur.(Ref_RefCount) - 1) |> else cur in
    let cur := cur <| Ref_UpdatedAt := now |> in
    (m <| ObjectRefOwners := <[digest := owners ∖ {[owner]}]> m.(ObjectRefOwners) |>
       <| ObjectRefs := <[digest := cur]> m.(ObjectRefs) |>, Ok true)
  else (m, Ok false).

Definition GetObjectRef (digest : string) (m : MemoryStore) : ObjectRef * bool :=
  match m.(ObjectRefs) !! digest with
  | Some r => (r, true)
  | None => (zero_ObjectRef, false)
  end.

Definition ListObjectRefs (limit : Z) (m : MemoryStore) : list ObjectRef :=
  clip limit (sort_slice (fun x y => str_less x.(Ref_Digest) y.(Ref_Digest))
    (range_vals m.(ObjectRefs))).

Definition AcquireObjectLease (now : Time) (token : string) (l : ObjectLease)
    (m : MemoryStore) : MemoryStore * result unit :=
  let l := if l.(OLease_ID) ≟ "" then l <| OLease_ID := newID "olease" token |> else l in
  if (l.(OLease_Digest) ≟ "") || (l.(OLease_Owner) ≟ "") || IsZero l.(OLease_ExpiresAt)
  then (m, Err "invalid object lease")
  else
    let l := l <| OLease_UpdatedAt := now |> in
    (m <| ObjectLeases := <[l.(OLease_ID) := l]> m.(ObjectLeases) |>, Ok tt).

Definition ReleaseObjectLease (id : string) (m : MemoryStore) : MemoryStore :=
  m <| ObjectLeases := delete id m.(ObjectLeases) |>.

Definition lease_live (now : Time) (l : ObjectLease) : bool := After l.(OLease_ExpiresAt) now.

Definition ListActiveObjectLeases (now : Time) (limit : Z) (m : MemoryStore)
    : list ObjectLease :=
  clip limit (sort_slice (fun x y => Before x.(OLease_ExpiresAt) y.(OLease_ExpiresAt))
    (List.filter (lease_live now) (range_vals m.(ObjectLeases)))).

Definition ProtectedObjectDigests (now : Time) (m : MemoryStore) : gset string :=
  let out := foldl (fun (out : gset string) '(d, r) =>
    if 0 <? r.(Ref_RefCount) then {[d]} ∪ out else out) ∅ (range m.(ObjectRefs)) in
  foldl (fun (out : gset string) l =>
    if lease_live now l then {[l.(OLease_Digest)]} ∪ out else out)
    out (range_vals m.(ObjectLeases)).

(** ** Erasure sets and shards *)

Definition RecordErasureSet (now : Time) (e : ErasureSet) (m : MemoryStore)
    : MemoryStore * result unit :=
  if e.(ESet_ObjectSHA256) ≟ "" then (m, Err "erasure object digest is required")
  else
    let e := if IsZero e.(ESet_CreatedAt) then e <| ESet_CreatedAt := now |> else e in
    let e := e <| ESet_UpdatedAt := now |> in
    (m <| ErasureSets := <[e.(ESet_ObjectSHA256) := e]> m.(ErasureSets) |>, Ok tt).

Definition GetErasureSet (digest : string) (m : MemoryStore) : ErasureSet * bool :=
  match m.(ErasureSets) !! digest with
  | Some e => (e, true)
  | None => (zero_ErasureSet, false)
  end.

Definition ListErasureSets (limit : Z) (m : MemoryStore) : list ErasureSet :=
  clip limit (sort_slice (fun x y => str_less x.(ESet_ObjectSHA256) y.(ESet_ObjectSHA256))
    (range_vals m.(ErasureSets))).

Definition same_shard (index : Z) (agent : string) (sh : ErasureShard) : bool :=
  (sh.(Shard_ShardIndex) =? index) && (sh.(Shard_AgentID) ≟ agent).

Fixpoint replace_shard (sh : ErasureShard) (xs : list ErasureShard) : list ErasureShard :=
  match xs with
  | [] => [sh]
  | x :: xs' =>
      if same_shard sh.(Shard_ShardIndex) sh.(Shard_AgentID) x then sh :: xs'
      else x :: replace_shard sh xs'
  end.

Definition RecordErasureShard (now : Time) (sh : ErasureShard) (m : MemoryStore)
    : MemoryStore * result unit :=
  if (sh.(Shard_ObjectSHA256) ≟ "") || (sh.(Shard_ShardSHA256) ≟ "") || (sh.(Shard_AgentID) ≟ "")
  then (m, Err "invalid erasure shard")
  else
    let sh := sh <| Shard_UpdatedAt := now |> in
    let xs := zero_or [] (m.(ErasureShards) !! sh.(Shard_ObjectSHA256)) in
    (m <| ErasureShards := <[sh.(Shard_ObjectSHA256) := replace_shard sh xs]> m.(ErasureShards) |>,
     Ok tt).

Definition DeleteErasureShard (digest : string) (index : Z) (agent : string)
    (m : MemoryStore) : MemoryStore :=
  let xs := zero_or [] (m.(ErasureShards) !! digest) in
  m <| ErasureShards :=
    <[digest := List.filter (fun sh => negb (same_shard index agent sh)) xs]> m.(ErasureShards) |>.

Definition ListErasureShards (digest : string) (m : MemoryStore) : list ErasureShard :=
  zero_or [] (m.(ErasureShards) !! digest).

End Methods.
End Mem.
