(* ===== verification/QueueSpec.v ===== *)
(** * Abstract specification of the job queue

    What the control plane relies on from a [Store]: a labelled transition
    system on jobs whose state is one of four, with the lease a part of the
    state that has one.  [JobQueue] is the interface the clients are proved
    against; MemJobs.v and SqlJobs.v discharge its laws for the two stores.
    The theorems about runs of the system hold of every implementation. *)

From Stdlib Require Import QArith.
From S2P Require Import Prelude GoStd Json Model.
#[global] Open Scope Z_scope.

(** ** Jobs, abstractly *)

Inductive jstate :=
| Waiting
| Held (owner : string) (until : Time)
| Done
| Dead.

#[export] Instance jstate_eq_dec : EqDecision jstate.
Proof. solve_decision. Defined.

Record ajob := mkAJob {
  a_kind : string;
  a_target : string;
  a_affinity : string;
  a_payload : json_text;
  a_priority : Z;
  a_created : Time;
  a_not_before : Time;
  a_attempts : Z;
  a_max : Z;
  a_state : jstate
}.

#[export] Instance ajob_settable : Settable ajob :=
  fun r => mkAJob (r.(a_kind)) (r.(a_target)) (r.(a_affinity)) (r.(a_payload))
    (r.(a_priority)) (r.(a_created)) (r.(a_not_before)) (r.(a_attempts)) (r.(a_max))
    (r.(a_state)).

Notation queue := (gmap string ajob).
Implicit Types (q : queue) (a : ajob).

Definition a_key (a : ajob) : string * string * string :=
  (a.(a_kind), a.(a_target), a.(a_affinity)).

(** An active job is one that will still run or is running. *)
Definition is_active (a : ajob) : bool :=
  match a.(a_state) with Waiting | Held _ _ => true | _ => false end.

Definition no_active_twin (a : ajob) (q : queue) : Prop :=
  ∀ id b, q !! id = Some b → is_active b = true → a_key b ≠ a_key a.

(** A lease lapses at its deadline; the zero deadline never comes. *)
Definition lapsed (now : Time) (a : ajob) : bool :=
  match a.(a_state) with
  | Held _ u => negb (IsZero u) && negb (After u now)
  | _ => false
  end.

Definition spent (now : Time) (a : ajob) : bool :=
  lapsed now a && (a.(a_max) <=? a.(a_attempts)).

Definition bury (now : Time) (a : ajob) : ajob :=
  if spent now a then a <| a_state := Dead |> else a.

Definition available (now : Time) (owner : string) (a : ajob) : bool :=
  (a.(a_attempts) <? a.(a_max)) && negb (After a.(a_not_before) now)
  && ((a.(a_affinity) ≟ "") || (a.(a_affinity) ≟ owner))
  && ((a.(a_state) ≟ Waiting) || lapsed now a).

Definition grant (owner : string) (until : Time) (a : ajob) : ajob :=
  a <| a_state := Held owner until |> <| a_attempts := a.(a_attempts) + 1 |>.

(** [served_before x y]: [x] is offered to workers strictly before [y]. *)
Definition served_before (x y : ajob) : bool :=
  if x.(a_priority) =? y.(a_priority) then Before x.(a_created) y.(a_created)
  else y.(a_priority) <? x.(a_priority).

Definition give_back (now : Time) (retry : Duration) (a : ajob) : ajob :=
  if a.(a_max) <=? a.(a_attempts) then a <| a_state := Dead |>
  else a <| a_state := Waiting |> <| a_not_before := time_add now retry |>.

Definition lease_effect (now : Time) (owner : string) (until : Time)
    (ids : list string) (q : queue) : queue :=
  map_imap (fun id a => Some (if bool_decide (id ∈ ids) then grant owner until a
                              else bury now a)) q.

(** ** The transition system *)

Inductive event :=
| Enqueued (id : string)
| Leased (owner : string) (until : Time) (ids : list string)
| Completed (id owner : string)
| Failed (id owner : string)
| Retried (id : string).

(** A final attempt that has run out leaves [Dead] jobs with some
    [not_before]: the stores differ in what they write there, and nothing reads
    it before the job is retried. *)
Definition same_but_not_before (a b : ajob) : Prop :=
  a <| a_not_before := 0 |> = b <| a_not_before := 0 |>.

(** What a job is, apart from its state, counters and [not_before], is fixed
    when it is enqueued. *)
Definition identity (a : ajob) :=
  (a_key a, a.(a_payload), a.(a_priority), a.(a_created), a.(a_max)).

Inductive qstep (now : Time) : event → queue → queue → Prop :=
| step_enqueue id a q :
    q !! id = None → a.(a_state) = Waiting → a.(a_attempts) = 0 → 0 < a.(a_max) →
    a.(a_max) ≤ max_int64 → no_active_twin a q →
    qstep now (Enqueued id) q (<[id := a]> q)
| step_lease owner until n ids q :
    NoDup ids → (length ids ≤ n)%nat →
    (∀ id, id ∈ ids → ∃ a, q !! id = Some a ∧ available now owner a = true) →
    (∀ id b, q !! id = Some b → available now owner b = true → id ∉ ids →
       length ids = n ∧
       ∀ id' a, id' ∈ ids → q !! id' = Some a → served_before b a = false) →
    qstep now (Leased owner until ids) q (lease_effect now owner until ids q)
| step_complete id owner u a q :
    q !! id = Some a → a.(a_state) = Held owner u →
    qstep now (Completed id owner) q (<[id := a <| a_state := Done |>]> q)
| step_fail id owner u a b retry q :
    q !! id = Some a → a.(a_state) = Held owner u →
    b = give_back now retry a ∨
      (a.(a_max) ≤ a.(a_attempts) ∧ same_but_not_before b (give_back now retry a)) →
    qstep now (Failed id owner) q (<[id := b]> q)
| step_retry id a q :
    q !! id = Some a → a.(a_state) = Dead → no_active_twin a q →
    qstep now (Retried id) q
      (<[id := a <| a_state := Waiting |> <| a_attempts := 0 |> <| a_not_before := now |>]> q).

(** Runs: a sequence of timed events. *)
Inductive qrun : queue → list (Time * event) → queue → Prop :=
| run_nil q : qrun q [] q
| run_cons now e q q1 tr q2 :
    qstep now e q q1 → qrun q1 tr q2 → qrun q ((now, e) :: tr) q2.

(** ** The invariant *)

Definition ajob_inv (a : ajob) : Prop :=
  0 ≤ a.(a_attempts) ≤ a.(a_max) ∧ 0 < a.(a_max) ≤ max_int64 ∧
  match a.(a_state) with
  | Waiting => a.(a_attempts) < a.(a_max)
  | Held _ _ => 0 < a.(a_attempts)
  | Done | Dead => True
  end.

(** At most one active job per (kind, target, affinity). *)
Definition unique_active (q : queue) : Prop :=
  ∀ i j a b, q !! i = Some a → q !! j = Some b →
    is_active a = true → is_active b = true → a_key a = a_key b → i = j.

Definition queue_inv (q : queue) : Prop :=
  map_Forall (fun _ => ajob_inv) q ∧ unique_active q.

Lemma lookup_lease_effect now owner until ids q id :
  lease_effect now owner until ids q !! id =
  (fun a => if bool_decide (id ∈ ids) then grant owner until a else bury now a) <$> q !! id.
Proof. unfold lease_effect. rewrite map_lookup_imap. by destruct (q !! id). Qed.

Lemma same_but_not_before_fields a b :
  same_but_not_before a b →
  identity a = identity b ∧ a.(a_attempts) = b.(a_attempts) ∧ a.(a_state) = b.(a_state).
Proof.
  unfold same_but_not_before. intros H. destruct a, b; simpl in H.
  injection H as -> -> -> -> -> -> -> -> ->. done.
Qed.

Lemma identity_key a b : identity a = identity b → a_key a = a_key b.
Proof. unfold identity. congruence. Qed.

Lemma identity_max a b : identity a = identity b → a.(a_max) = b.(a_max).
Proof. unfold identity. congruence. Qed.

Lemma give_back_identity now retry a : identity (give_back now retry a) = identity a.
Proof. unfold give_back. by case_if. Qed.

Lemma give_back_attempts now retry a :
  (give_back now retry a).(a_attempts) = a.(a_attempts).
Proof. unfold give_back. by case_if. Qed.

(** The result of [step_fail], in either form. *)
Lemma failed_fields now retry a b :
  b = give_back now retry a ∨
    (a.(a_max) ≤ a.(a_attempts) ∧ same_but_not_before b (give_back now retry a)) →
  identity b = identity a ∧ b.(a_attempts) = a.(a_attempts) ∧
  b.(a_state) = (give_back now retry a).(a_state).
Proof.
  intros [->|[_ (Hi & Ha & Hs)%same_but_not_before_fields]];
    rewrite ?Hi, ?Ha, ?Hs, give_back_identity, give_back_attempts; done.
Qed.

Lemma bury_key now a : a_key (bury now a) = a_key a.
Proof. unfold bury. by destruct (spent now a). Qed.

Lemma grant_key owner until a : a_key (grant owner until a) = a_key a.
Proof. done. Qed.

Lemma bury_active now a : is_active (bury now a) = true → is_active a = true.
Proof. unfold bury. by destruct (spent now a). Qed.

Lemma available_active now owner a : available now owner a = true → is_active a = true.
Proof.
  unfold available, lapsed, is_active. intros H. bool_to_prop.
  by destruct (a_state a).
Qed.

Lemma available_attempts now owner a :
  available now owner a = true → a.(a_attempts) < a.(a_max).
Proof. unfold available. intros H. by bool_to_prop. Qed.

Lemma grant_inv now owner until a :
  ajob_inv a → available now owner a = true → ajob_inv (grant owner until a).
Proof.
  intros (H1 & H2 & _) Ha%available_attempts.
  unfold ajob_inv, grant; simpl. lia.
Qed.

Lemma bury_inv now a : ajob_inv a → ajob_inv (bury now a).
Proof.
  intros (H1 & H2 & H3). unfold bury. destruct (spent now a); [|done].
  split_and!; simpl; (lia || done).
Qed.

Lemma give_back_inv now retry owner u a :
  ajob_inv a → a.(a_state) = Held owner u → ajob_inv (give_back now retry a).
Proof.
  intros (H1 & H2 & H3) E. unfold give_back.
  destruct (Z.leb_spec (a_max a) (a_attempts a)); split_and!; simpl; (lia || done).
Qed.

Lemma unique_active_insert q id a :
  unique_active q →
  (is_active a = true → ∀ i b, i ≠ id → q !! i = Some b → is_active b = true → a_key b ≠ a_key a) →
  unique_active (<[id := a]> q).
Proof.
  intros Hu Ha i j b c.
  destruct (decide (i = id)) as [->|Hi], (decide (j = id)) as [->|Hj];
    rewrite ?lookup_insert_eq, ?lookup_insert_ne by done;
    intros Hb Hc Hab Hac E; try done.
  - injection Hb as ->. exfalso. by apply (Ha Hab j c).
  - injection Hc as ->. exfalso. by apply (Ha Hac i b).
  - by eapply Hu.
Qed.

(** Replacing an active job by one of the same key keeps keys unique. *)
Lemma unique_active_replace q id a b :
  unique_active q → q !! id = Some a → a_key b = a_key a →
  (is_active b = true → is_active a = true) → unique_active (<[id := b]> q).
Proof.
  intros Hu Hq Hk Hab. apply unique_active_insert; [done|].
  intros Hb i c Hi Hc Hac E. apply Hi. eapply Hu; [done..| |by rewrite E, Hk]; auto.
Qed.

Lemma lease_effect_inv now owner until ids q :
  (∀ id, id ∈ ids → ∃ a, q !! id = Some a ∧ available now owner a = true) →
  queue_inv q → queue_inv (lease_effect now owner until ids q).
Proof.
  intros Hav [Hall Hu]. split.
  - intros id b. rewrite lookup_lease_effect.
    destruct (q !! id) as [a|] eqn:Hq; [|done]. intros [= <-].
    specialize (Hall _ _ Hq). case_bool_decide as Hi; [|by apply bury_inv].
    destruct (Hav _ Hi) as (a' & Ha' & Hv). simplify_eq. by eapply grant_inv.
  - assert (∀ i a, q !! i = Some a →
      is_active (if bool_decide (i ∈ ids) then grant owner until a else bury now a) = true →
      is_active a = true) as Hact.
    { intros i a Hi. case_bool_decide as Hin; [|apply bury_active].
      destruct (Hav _ Hin) as (? & ? & ?). simplify_eq. intros _.
      by eapply available_active. }
    intros i j b c. rewrite !lookup_lease_effect.
    destruct (q !! i) as [a|] eqn:Hi, (q !! j) as [a'|] eqn:Hj; [|done..].
    simpl. intros [= <-] [= <-] Hb%Hact Hc%Hact E; [|done..].
    eapply Hu; [done..|]. revert E.
    repeat case_bool_decide; rewrite ?grant_key, ?bury_key; done.
Qed.

Lemma qstep_inv now e q q' : qstep now e q q' → queue_inv q → queue_inv q'.
Proof.
  destruct 1 as [id a q Hid Hs Ha0 Hm Hmx Ht | owner until n ids q Hnd Hn Hav Hmax
    | id owner u a q Hq Hs | id owner u a b retry q Hq Hs Hb | id a q Hq Hs Ht];
    intros [Hall Hu].
  - split.
    + apply map_Forall_insert_2; [|done]. unfold ajob_inv. rewrite Hs. lia.
    + apply unique_active_insert; [done|]. intros _ i b _ Hb Hab. by eapply Ht.
  - by apply lease_effect_inv.
  - split.
    + apply map_Forall_insert_2; [|done].
      destruct (Hall _ _ Hq) as (? & ? & _).
      split_and!; simpl; (lia || done).
    + eapply unique_active_replace; [done..|]. simpl. done.
  - pose proof (Hall _ _ Hq) as Ha.
    destruct (failed_fields _ _ _ _ Hb) as (Hid & Hat & Hst).
    assert (ajob_inv b) as Hbi.
    { destruct (give_back_inv now retry _ _ _ Ha Hs) as (H1 & H2 & H3).
      rewrite give_back_attempts in H1, H3.
      rewrite (identity_max _ _ (give_back_identity now retry a)) in H1, H2, H3.
      apply identity_max in Hid. unfold ajob_inv. by rewrite Hat, Hid, Hst. }
    split; [by apply map_Forall_insert_2|].
    eapply unique_active_replace; [done|done|by apply identity_key|].
    intros _. unfold is_active. by rewrite Hs.
  - destruct (Hall _ _ Hq) as (? & ? & _). split.
    + apply map_Forall_insert_2; [|done]. unfold ajob_inv; simpl. lia.
    + apply unique_active_insert; [done|]. intros _ i b _ Hb Hab. by eapply Ht.
Qed.

Lemma qrun_inv q tr q' : qrun q tr q' → queue_inv q → queue_inv q'.
Proof. induction 1; eauto using qstep_inv. Qed.

Lemma qrun_app q tr1 q1 tr2 q2 : qrun q tr1 q1 → qrun q1 tr2 q2 → qrun q (tr1 ++ tr2) q2.
Proof. induction 1; simpl; [done|]. econstructor; eauto. Qed.

(** ** What a run can do to a held job *)

Definition concludes (id owner : string) (e : event) : bool :=
  match e with
  | Completed i o | Failed i o => (i ≟ id) && (o ≟ owner)
  | _ => false
  end.

Definition leases_id (id : string) (e : event) : bool :=
  match e with Leased _ _ ids => bool_decide (id ∈ ids) | _ => false end.

Definition retries_id (id : string) (e : event) : bool :=
  match e with Retried i => i ≟ id | _ => false end.

Lemma not_lapsed_before now u a owner :
  a.(a_state) = Held owner u → now < u → lapsed now a = false.
Proof.
  intros E Hu. unfold lapsed, After. rewrite E.
  destruct (Z.ltb_spec now u); [|lia]. by rewrite andb_false_r.
Qed.

(** Before its deadline a held job is only touched by its holder. *)
Lemma held_step now e q q' id a owner u :
  qstep now e q q' → q !! id = Some a → a.(a_state) = Held owner u → now < u →
  concludes id owner e = true ∨ q' !! id = Some a.
Proof.
  intros Hst Hq Hs Hu. pose proof (not_lapsed_before _ _ _ _ Hs Hu) as Hl.
  destruct Hst as [i b q Hi _ _ _ _ Ht | o t n ids q Hnd Hn Hav _
    | i o v b q Hb Hsb | i o v b c retry q Hb Hsb Hc | i b q Hb Hsb Ht].
  - right. rewrite lookup_insert_ne; [done|]. intros ->. congruence.
  - right. rewrite lookup_lease_effect, Hq. simpl. case_bool_decide as Hin.
    + destruct (Hav _ Hin) as (a' & Ha' & Hv). simplify_eq. exfalso.
      unfold available in Hv. rewrite Hl, Hs in Hv.
      by rewrite orb_false_r, andb_false_r in Hv.
    + unfold bury, spent. by rewrite Hl.
  - destruct (decide (i = id)) as [->|]; [left|right; by rewrite lookup_insert_ne].
    simplify_eq. simpl. by rewrite !bool_decide_eq_true_2 by congruence.
  - destruct (decide (i = id)) as [->|]; [left|right; by rewrite lookup_insert_ne].
    simplify_eq. simpl. by rewrite !bool_decide_eq_true_2 by congruence.
  - right. rewrite lookup_insert_ne; [done|]. intros ->. congruence.
Qed.

Lemma held_run q tr q' id a owner u :
  qrun q tr q' → q !! id = Some a → a.(a_state) = Held owner u →
  Forall (fun te => te.1 < u) tr →
  existsb (fun te => concludes id owner te.2) tr = true ∨ q' !! id = Some a.
Proof.
  induction 1 as [|now e q q1 tr q2 Hst Hrun IH]; [by right|].
  intros Hq Hs [Hnow Htr]%Forall_cons. simpl in *.
  destruct (held_step _ _ _ _ _ _ _ _ Hst Hq Hs Hnow) as [->|Hq1]; [by left|].
  destruct (IH Hq1 Hs Htr) as [Hc|]; [left|by right].
  rewrite Hc. apply orb_true_r.
Qed.

(** Done is final. *)
Lemma done_step now e q q' id a :
  qstep now e q q' → q !! id = Some a → a.(a_state) = Done → q' !! id = Some a.
Proof.
  intros Hst Hq Hs.
  destruct Hst as [i b q Hi _ _ _ _ Ht | o t n ids q Hnd Hn Hav _
    | i o v b q Hb Hsb | i o v b c retry q Hb Hsb Hc | i b q Hb Hsb Ht];
    try (rewrite lookup_insert_ne; [done|]; intros ->; congruence).
  rewrite lookup_lease_effect, Hq. simpl. case_bool_decide as Hin.
  - destruct (Hav _ Hin) as (a' & Ha' & Hv%available_active). simplify_eq.
    unfold is_active in Hv. by rewrite Hs in Hv.
  - unfold bury, spent, lapsed. by rewrite Hs.
Qed.

Lemma done_run q tr q' id a :
  qrun q tr q' → q !! id = Some a → a.(a_state) = Done → q' !! id = Some a.
Proof. induction 1; eauto using done_step. Qed.

(** One step moves the attempt counter of a job up by one exactly when it
    leases it, and back to zero exactly when it is retried. *)
Lemma attempts_step now e q q' id a :
  qstep now e q q' → q !! id = Some a →
  ∃ b, q' !! id = Some b ∧ identity b = identity a ∧
    b.(a_attempts) =
      if retries_id id e then 0
      else a.(a_attempts) + (if leases_id id e then 1 else 0).
Proof.
  intros Hst Hq.
  destruct Hst as [i b q Hi _ _ _ _ Ht | o t n ids q Hnd Hn Hav _
    | i o v b q Hb Hsb | i o v b c retry q Hb Hsb Hc | i b q Hb Hsb Ht]; simpl.
  - rewrite lookup_insert_ne by congruence. exists a. split_and!; (lia || done).
  - rewrite lookup_lease_effect, Hq. simpl. eexists; split; [done|].
    case_bool_decide; [by split; [|simpl; lia]|]. unfold bury.
    destruct (spent now a); split; simpl; (lia || done).
  - destruct (decide (i = id)) as [->|]; [|rewrite lookup_insert_ne by done; exists a];
      [rewrite lookup_insert_eq; eexists; split; [done|]|]; simplify_eq;
      split_and!; simpl; (lia || done).
  - destruct (decide (i = id)) as [->|];
      [|rewrite lookup_insert_ne by done; exists a; split_and!; (lia || done)].
    rewrite lookup_insert_eq. simplify_eq. exists c. split; [done|].
    destruct (failed_fields _ _ _ _ Hc) as (? & ? & _). split; [done|lia].
  - destruct (decide (i = id)) as [->|].
    + rewrite lookup_insert_eq. simplify_eq. eexists; split; [done|].
      rewrite bool_decide_eq_true_2 by done. done.
    + rewrite lookup_insert_ne by done. exists a.
      rewrite bool_decide_eq_false_2 by done. split_and!; (lia || done).
Qed.

Definition count_leases (id : string) (tr : list (Time * event)) : Z :=
  count_if (fun te => leases_id id te.2) tr.

Lemma attempts_run q tr q' id a :
  qrun q tr q' → q !! id = Some a → existsb (fun te => retries_id id te.2) tr = false →
  ∃ b, q' !! id = Some b ∧ identity b = identity a ∧
    b.(a_attempts) = a.(a_attempts) + count_leases id tr.
Proof.
  intros Hrun. revert a. induction Hrun as [|now e q q1 tr q2 Hst Hrun IH]; intros a Hq Hr.
  - exists a. unfold count_leases, count_if, zlen; simpl. split_and!; (lia || done).
  - simpl in Hr. apply orb_false_iff in Hr as [He Htr].
    destruct (attempts_step _ _ _ _ _ _ Hst Hq) as (b & Hb & Hid & Hat). rewrite He in Hat.
    destruct (IH b Hb Htr) as (c & Hc & Hid' & Hac). exists c. split; [done|].
    split; [congruence|]. rewrite Hac, Hat. unfold count_leases, count_if, zlen; simpl.
    destruct (leases_id id e); simpl; lia.
Qed.

(** ** Concrete jobs as abstract ones *)

Definition state_of (j : Job) : jstate :=
  if j.(Job_Status) ≟ JobQueued then Waiting
  else if j.(Job_Status) ≟ JobRunning then Held j.(Job_LeaseOwner) j.(Job_LeaseUntil)
  else if j.(Job_Status) ≟ JobSucceeded then Done
  else Dead.

Definition ajob_of (j : Job) : ajob :=
  mkAJob j.(Job_Kind) j.(Job_Target) j.(Job_Affinity) j.(Job_Payload) j.(Job_Priority)
    j.(Job_CreatedAt) j.(Job_NotBefore) j.(Job_Attempts) j.(Job_MaxAttempts) (state_of j).

(** Stored jobs: filed under their id, in one of the four statuses, owned only
    while they run. *)
Record job_wf (id : string) (j : Job) : Prop := {
  wf_id : j.(Job_ID) = id;
  wf_status : j.(Job_Status) ∈ [JobQueued; JobRunning; JobSucceeded; JobFailed];
  wf_owner : j.(Job_Status) ≠ JobRunning → j.(Job_LeaseOwner) = ""
}.

Definition jobs_view (jobs : gmap string Job) : queue := ajob_of <$> jobs.

Definition jobs_wf (jobs : gmap string Job) : Prop :=
  map_Forall job_wf jobs ∧ queue_inv (jobs_view jobs).

(** What the scheduler, the reconcilers and the handlers submit: a job that has
    not run. *)
Record job_request (j : Job) : Prop := {
  req_status : j.(Job_Status) = "" ∨ j.(Job_Status) = JobQueued;
  req_attempts : j.(Job_Attempts) = 0;
  req_max : 0 ≤ j.(Job_MaxAttempts) ≤ max_int64;
  req_owner : j.(Job_LeaseOwner) = ""
}.

Lemma state_of_running j :
  j.(Job_Status) = JobRunning → state_of j = Held j.(Job_LeaseOwner) j.(Job_LeaseUntil).
Proof. unfold state_of. by intros ->. Qed.

Lemma state_of_held j owner u :
  state_of j = Held owner u →
  j.(Job_Status) = JobRunning ∧ j.(Job_LeaseOwner) = owner ∧ j.(Job_LeaseUntil) = u.
Proof.
  unfold state_of. intros H. repeat case_if; bool_to_prop; try done. by simplify_eq.
Qed.

Lemma lookup_jobs_view jobs id : jobs_view jobs !! id = ajob_of <$> jobs !! id.
Proof. apply lookup_fmap. Qed.

Lemma jobs_view_insert jobs id j :
  jobs_view (<[id := j]> jobs) = <[id := ajob_of j]> (jobs_view jobs).
Proof. apply fmap_insert. Qed.

Lemma jobs_view_Some jobs id a :
  jobs_view jobs !! id = Some a ↔ ∃ j, jobs !! id = Some j ∧ ajob_of j = a.
Proof.
  rewrite lookup_jobs_view. destruct (jobs !! id); simpl; [|naive_solver].
  split; [intros [= <-]; eauto|intros (? & [= <-] & <-); done].
Qed.

Lemma jobs_wf_empty : jobs_wf ∅.
Proof.
  split; [apply map_Forall_empty|]. unfold jobs_view. rewrite fmap_empty.
  split; [apply map_Forall_empty|]. by intros i j a b.
Qed.

Lemma is_active_of j :
  is_active (ajob_of j) = (j.(Job_Status) ≟ JobQueued) || (j.(Job_Status) ≟ JobRunning).
Proof. unfold is_active, ajob_of, state_of; simpl. by repeat case_bool_decide. Qed.

Lemma lapsed_of now j :
  lapsed now (ajob_of j) =
  (j.(Job_Status) ≟ JobRunning) && negb (IsZero j.(Job_LeaseUntil))
  && negb (After j.(Job_LeaseUntil) now).
Proof.
  unfold lapsed, ajob_of, state_of; simpl.
  destruct (bool_decide_reflect (Job_Status j = JobQueued)) as [->|]; [done|].
  destruct (bool_decide_reflect (Job_Status j = JobRunning)); [done|].
  by destruct (bool_decide _).
Qed.

Lemma available_of now owner j :
  available now owner (ajob_of j) =
  (j.(Job_Attempts) <? j.(Job_MaxAttempts)) && negb (After j.(Job_NotBefore) now)
  && ((j.(Job_Affinity) ≟ "") || (j.(Job_Affinity) ≟ owner))
  && ((j.(Job_Status) ≟ JobQueued) || lapsed now (ajob_of j)).
Proof.
  unfold available. simpl. f_equal. f_equal. unfold state_of.
  by repeat case_bool_decide.
Qed.

(** ** The interface of a job store

    [js_exec] runs one call and reports the event it amounts to (none when it
    changed nothing); [js_ok] is what the store asks of the caller. *)

Inductive job_call :=
| CallEnqueue (token : string) (j : Job)
| CallLease (owner : string) (limit : Z) (lease : Duration)
| CallComplete (id owner : string) (later : Time)
| CallFail (id owner detail : string) (retry : Duration)
| CallRetry (id : string) (later : Time).

Definition stamp (now : Time) (evs : list event) : list (Time * event) :=
  (fun e => (now, e)) <$> evs.

Class JobStore (S : Type) := {
  js_view : S → queue;
  js_wf : S → Prop;
  js_ok : job_call → S → Prop;
  js_exec : Time → job_call → S → S * list event;
  js_wf_inv s : js_wf s → queue_inv (js_view s);
  js_refines now c s s' evs :
    js_wf s → js_ok c s → js_exec now c s = (s', evs) →
    js_wf s' ∧ qrun (js_view s) (stamp now evs) (js_view s')
}.

Section JobStore.
Context {S : Type} `{!JobStore S}.

(** A history of calls, each made as the store asks. *)
Inductive history : S → list (Time * job_call) → list (Time * event) → S → Prop :=
| history_nil s : history s [] [] s
| history_cons now c s s1 evs calls tr s2 :
    js_ok c s → js_exec now c s = (s1, evs) → history s1 calls tr s2 →
    history s ((now, c) :: calls) (stamp now evs ++ tr) s2.

Lemma history_refines s calls tr s' :
  history s calls tr s' → js_wf s → js_wf s' ∧ qrun (js_view s) tr (js_view s').
Proof.
  induction 1 as [s|now c s s1 evs calls tr s2 Hok He Hh IH]; intros Hwf.
  { split; [done|constructor]. }
  destruct (js_refines _ _ _ _ _ Hwf Hok He) as [Hwf1 Hq].
  destruct (IH Hwf1) as [Hwf2 Hq']. split; [done|]. by eapply qrun_app.
Qed.

Lemma stamp_times now evs (P : Time → Prop) :
  P now → Forall (fun te : Time * event => P te.1) (stamp now evs).
Proof. intros H. apply Forall_fmap, Forall_true. done. Qed.

Lemma history_times s calls tr s' (P : Time → Prop) :
  history s calls tr s' → Forall (fun c => P c.1) calls → Forall (fun te => P te.1) tr.
Proof.
  induction 1; [done|]. intros [Hn Hc]%Forall_cons. apply Forall_app.
  split; [by apply stamp_times|auto].
Qed.

(** A job in someone's hands stays there, untouched, until its deadline or
    until its holder reports. *)
Lemma history_held s calls tr s' id a owner u :
  js_wf s → history s calls tr s' → js_view s !! id = Some a → a.(a_state) = Held owner u →
  Forall (fun c => c.1 < u) calls →
  existsb (fun te => concludes id owner te.2) tr = false →
  js_view s' !! id = Some a.
Proof.
  intros Hwf Hh Ha Hs Ht Hc. destruct (history_refines _ _ _ _ Hh Hwf) as [_ Hq].
  destruct (held_run _ _ _ _ _ _ _ Hq Ha Hs (history_times _ _ _ _ (fun t => t < u) Hh Ht));
    [congruence|done].
Qed.

(** Between two retries a job is leased at most [a_max] times. *)
Lemma history_attempts s calls tr s' id a :
  js_wf s → history s calls tr s' → js_view s !! id = Some a →
  existsb (fun te => retries_id id te.2) tr = false →
  ∃ b, js_view s' !! id = Some b ∧ identity b = identity a ∧
    b.(a_attempts) = a.(a_attempts) + count_leases id tr ∧
    a.(a_attempts) + count_leases id tr ≤ a.(a_max).
Proof.
  intros Hwf Hh Ha Hr. destruct (history_refines _ _ _ _ Hh Hwf) as [Hwf' Hq].
  destruct (attempts_run _ _ _ _ _ Hq Ha Hr) as (b & Hb & Hid & Hat).
  exists b. split_and!; try done. rewrite <- Hat.
  destruct (js_wf_inv _ Hwf') as [Hinv _]. destruct (Hinv _ _ Hb) as ([_ Hle] & _ & _).
  by rewrite <- (identity_max _ _ Hid).
Qed.

Lemma history_done s calls tr s' id a :
  js_wf s → history s calls tr s' → js_view s !! id = Some a → a.(a_state) = Done →
  js_view s' !! id = Some a.
Proof.
  intros Hwf Hh Ha Hd. destruct (history_refines _ _ _ _ Hh Hwf) as [_ Hq].
  by eapply done_run.
Qed.
End JobStore.
