(* ===== verification/MemJobs.v ===== *)
(** * The job queue of the in-memory store

    The job methods of MemStore.v implement QueueSpec.v: each call that
    succeeds is one step of the transition system, under the stated conditions
    where [memory.go] does not check them itself. *)

From Stdlib Require Import QArith.
From S2P Require Import Prelude GoStd Json Sha256 Model Payloads QueueSpec MemStore.
#[global] Open Scope Z_scope.

Module MemJobs.
Import Mem.

Section MemJobs.
Context {MO : MapOrder}.
Implicit Types (m : MemoryStore) (now : Time) (j : Job).

Definition view (m : MemoryStore) : queue := jobs_view m.(Jobs).
Definition wf (m : MemoryStore) : Prop := jobs_wf m.(Jobs).

(** ** The scan of [Lease] *)

Lemma lease_lapsed_of now j : lease_lapsed now j = lapsed now (ajob_of j).
Proof. by rewrite lapsed_of. Qed.

Lemma leasable_of now owner j : leasable now owner j = available now owner (ajob_of j).
Proof. unfold leasable. by rewrite available_of, lease_lapsed_of. Qed.

Lemma on_final_attempt_of now j : on_final_attempt now j = spent now (ajob_of j).
Proof. unfold on_final_attempt, spent. by rewrite lease_lapsed_of. Qed.

Lemma final_not_leasable now owner j :
  leasable now owner j = true → on_final_attempt now j = false.
Proof.
  unfold leasable, on_final_attempt. intros H. bool_to_prop.
  apply andb_false_iff. right. apply Z.leb_gt. lia.
Qed.

Lemma lease_scan_split now owner l acc :
  foldl (lease_scan now owner) acc l =
  (foldl (rewrite_entries (fun _ => on_final_attempt now) (fun _ => reap now)) acc.1 l,
   acc.2 ++ List.filter (leasable now owner) l.*2).
Proof.
  revert acc. induction l as [|[id j] l IH]; intros [jobs xs]; csimpl.
  { by rewrite app_nil_r. }
  rewrite IH.
  assert (rewrite_entries (fun _ => on_final_attempt now) (fun _ => reap now) jobs (id, j) =
    if on_final_attempt now j then <[id := reap now j]> jobs else jobs) as -> by done.
  destruct (leasable now owner j) eqn:Hl; simpl.
  - rewrite (final_not_leasable _ _ _ Hl). simpl. by rewrite <- app_assoc.
  - by destruct (on_final_attempt now j).
Qed.

Definition candidates (now : Time) (owner : string) m : list Job :=
  sort_slice lease_order (List.filter (leasable now owner) (range_vals m.(Jobs))).

Definition granted (now : Time) (owner : string) (limit : Z) m : list Job :=
  let xs := candidates now owner m in
  take (Z.to_nat (if (limit <=? 0) || (zlen xs <? limit) then zlen xs else limit)) xs.

Lemma mem_Lease_eq now owner limit lease m :
  Lease now owner limit lease m =
  let xs := issue now owner lease <$> granted now owner limit m in
  (m <| Jobs := foldl insert_job
         (foldl (rewrite_entries (fun _ => on_final_attempt now) (fun _ => reap now))
            m.(Jobs) (range m.(Jobs))) xs |>, xs).
Proof. unfold Lease. by rewrite lease_scan_split. Qed.

Lemma mem_elem_of_candidates now owner m j :
  j ∈ candidates now owner m ↔
  (∃ id, m.(Jobs) !! id = Some j) ∧ leasable now owner j = true.
Proof.
  unfold candidates. rewrite elem_of_sort_slice, list_elem_of_In, filter_In,
    <- list_elem_of_In, elem_of_range_vals. done.
Qed.

#[export] Instance lease_order_weak : StrictWeak lease_order.
Proof.
  unfold lease_order, Before. split.
  - intros x y. destruct (Z.eqb_spec (Job_Priority x) (Job_Priority y)) as [E|E].
    + rewrite <- E, Z.eqb_refl, Z.ltb_lt, Z.ltb_ge. lia.
    + destruct (Z.eqb_spec (Job_Priority y) (Job_Priority x)); [lia|].
      rewrite Z.ltb_lt, Z.ltb_ge. lia.
  - intros x y z.
    destruct (Z.eqb_spec (Job_Priority x) (Job_Priority y)),
      (Z.eqb_spec (Job_Priority y) (Job_Priority z)),
      (Z.eqb_spec (Job_Priority x) (Job_Priority z)); rewrite ?Z.ltb_ge; lia.
Qed.

Lemma lease_order_of x y : lease_order x y = served_before (ajob_of x) (ajob_of y).
Proof. done. Qed.

(** ** Jobs filed under their ids *)

Lemma mem_wf_lookup m id j : wf m → m.(Jobs) !! id = Some j → j.(Job_ID) = id.
Proof. intros [H _] Hj. by apply (wf_id _ _ (H _ _ Hj)). Qed.

Lemma mem_wf_ids_NoDup m l :
  wf m → l ⊆+ range_vals m.(Jobs) → NoDup (Job_ID <$> l).
Proof.
  intros Hwf [k Hk]%submseteq_Permutation.
  assert (NoDup (Job_ID <$> l ++ k)) as Hnd;
    [|rewrite fmap_app in Hnd; by apply NoDup_app in Hnd as [? _]].
  rewrite <- Hk. unfold range_vals. rewrite <- list_fmap_compose.
  rewrite (list_fmap_ext _ fst); [apply range_keys_NoDup|].
  intros i [id j] Hi. simpl. apply list_elem_of_lookup_2, elem_of_range in Hi.
  by eapply mem_wf_lookup.
Qed.

Lemma mem_candidates_ids_NoDup now owner m : wf m → NoDup (Job_ID <$> candidates now owner m).
Proof.
  intros Hwf. unfold candidates. rewrite sort_slice_perm.
  apply (mem_wf_ids_NoDup m); [done|]. induction (range_vals (Jobs m)) as [|j l IH]; simpl; [done|].
  destruct (leasable now owner j); by constructor.
Qed.

Lemma granted_candidates now owner limit m : ∃ n,
  granted now owner limit m = take n (candidates now owner m) ∧
  (length (granted now owner limit m) ≤ n)%nat ∧
  (0 < limit → Z.of_nat (length (granted now owner limit m)) ≤ limit).
Proof.
  unfold granted. eexists. split; [done|].
  rewrite length_take. split; [lia|]. intros Hl. unfold zlen.
  destruct (Z.leb_spec limit 0); [lia|]. simpl.
  destruct (Z.ltb_spec (Z.of_nat (length (candidates now owner m))) limit); lia.
Qed.

Lemma elem_of_granted now owner limit m j :
  j ∈ granted now owner limit m → j ∈ candidates now owner m.
Proof.
  destruct (granted_candidates now owner limit m) as (n & -> & _). intros H.
  rewrite <- (take_drop n (candidates _ _ _)). apply elem_of_app. by left.
Qed.

Lemma granted_ids_NoDup now owner limit m :
  wf m → NoDup (Job_ID <$> granted now owner limit m).
Proof.
  intros Hwf. destruct (granted_candidates now owner limit m) as (n & -> & _).
  rewrite fmap_take. by apply NoDup_take, mem_candidates_ids_NoDup.
Qed.

(** Whatever is left out of a lease was cut off by the limit, behind jobs that
    are served no later. *)
Lemma granted_best now owner limit m j :
  j ∈ candidates now owner m → j ∉ granted now owner limit m →
  Z.of_nat (length (granted now owner limit m)) = limit ∧
  ∀ x, x ∈ granted now owner limit m → lease_order j x = false.
Proof.
  unfold granted. set (n := Z.to_nat _). intros Hj Hn.
  rewrite <- (take_drop n (candidates _ _ _)), elem_of_app in Hj.
  destruct Hj as [Hj|Hj]; [done|]. split.
  - assert (n < length (candidates now owner m))%nat as Hlt.
    { destruct (decide (n < length (candidates now owner m))%nat); [done|].
      rewrite drop_ge in Hj by lia. by apply not_elem_of_nil in Hj. }
    rewrite length_take. revert Hlt. unfold n, zlen.
    destruct (Z.leb_spec limit 0); simpl; [lia|].
    destruct (Z.ltb_spec (Z.of_nat (length (candidates now owner m))) limit); lia.
  - intros x Hx. change (not_after lease_order x j).
    eapply StronglySorted_take_drop; [|exact Hx|exact Hj].
    apply sort_slice_sorted. apply _.
Qed.

(** ** The steps *)

Lemma reap_of now j :
  job_wf j.(Job_ID) j →
  ajob_of (if on_final_attempt now j then reap now j else j) = bury now (ajob_of j).
Proof.
  intros Hj. unfold bury. rewrite <- on_final_attempt_of.
  destruct (on_final_attempt now j); [|done]. unfold reap, ajob_of; simpl.
  by destruct (bool_decide (Job_LastError j = "")).
Qed.

Lemma issue_of now owner lease j :
  0 ≤ j.(Job_Attempts) < j.(Job_MaxAttempts) → j.(Job_MaxAttempts) ≤ max_int64 →
  ajob_of (issue now owner lease j) = grant owner (time_add now lease) (ajob_of j).
Proof.
  intros Ha Hm. unfold issue, grant, ajob_of; simpl. rewrite wrap64_id; [done|].
  unfold in_int64, min_int64, max_int64, two63 in *. lia.
Qed.

Lemma mem_wf_job_inv m id j : wf m → m.(Jobs) !! id = Some j → ajob_inv (ajob_of j).
Proof.
  intros [_ [H _]] Hj. eapply (H id). unfold jobs_view. by rewrite lookup_fmap, Hj.
Qed.

Lemma mem_lookup_Lease now owner limit lease m id :
  wf m →
  (Lease now owner limit lease m).1.(Jobs) !! id =
  (fun j => if bool_decide (id ∈ Job_ID <$> granted now owner limit m)
            then issue now owner lease j
            else if on_final_attempt now j then reap now j else j) <$> m.(Jobs) !! id.
Proof.
  intros Hwf. rewrite mem_Lease_eq. simpl.
  pose proof (granted_ids_NoDup now owner limit m Hwf) as Hnd.
  assert (Job_ID <$> (issue now owner lease <$> granted now owner limit m) =
    Job_ID <$> granted now owner limit m) as Hids by by rewrite <- list_fmap_compose.
  unfold insert_job. set (jobs := foldl (rewrite_entries _ _) _ _).
  destruct (lookup_foldl_insert Job_ID (issue now owner lease <$> granted now owner limit m)
    jobs id) as [Hin Hout]; [by rewrite Hids|].
  case_bool_decide as Hid.
  - rewrite list_elem_of_fmap in Hid. destruct Hid as (j & -> & Hj).
    rewrite (Hin (issue now owner lease j)) by (done || by apply list_elem_of_fmap; exists j).
    apply elem_of_granted, mem_elem_of_candidates in Hj as [[id Hj] Hl].
    by rewrite (mem_wf_lookup _ _ _ Hwf Hj), Hj.
  - rewrite Hids in Hout. rewrite (Hout Hid). unfold jobs.
    by rewrite lookup_rewrite_entries.
Qed.

Lemma granted_leasable now owner limit m id j :
  wf m → m.(Jobs) !! id = Some j → id ∈ Job_ID <$> granted now owner limit m →
  leasable now owner j = true.
Proof.
  intros Hwf Hj (x & -> & Hx)%list_elem_of_fmap.
  apply elem_of_granted, mem_elem_of_candidates in Hx as [[i Hi] Hl].
  rewrite (mem_wf_lookup _ _ _ Hwf Hi) in Hj. by simplify_eq.
Qed.

Lemma mem_view_Lease now owner limit lease m :
  wf m →
  view (Lease now owner limit lease m).1 =
  lease_effect now owner (time_add now lease) (Job_ID <$> granted now owner limit m) (view m).
Proof.
  intros Hwf. apply map_eq. intros id. unfold view.
  rewrite lookup_lease_effect, !lookup_jobs_view, mem_lookup_Lease by done.
  destruct (m.(Jobs) !! id) as [j|] eqn:Hj; [|done]. simpl. f_equal.
  case_bool_decide as Hid.
  - pose proof (granted_leasable _ _ _ _ _ _ Hwf Hj Hid) as Hl.
    destruct (mem_wf_job_inv _ _ _ Hwf Hj) as (H1 & H2 & _).
    rewrite leasable_of in Hl. apply available_attempts in Hl. simpl in *.
    apply issue_of; lia.
  - apply reap_of. destruct Hwf as [Hwf _].
    rewrite (wf_id _ _ (Hwf _ _ Hj)); by apply Hwf.
Qed.

Lemma mem_Lease_step now owner limit lease m :
  wf m →
  qstep now
    (Leased owner (time_add now lease) (Job_ID <$> (Lease now owner limit lease m).2))
    (view m) (view (Lease now owner limit lease m).1).
Proof.
  intros Hwf.
  rewrite mem_view_Lease by done.
  assert (Job_ID <$> (Lease now owner limit lease m).2 =
    Job_ID <$> granted now owner limit m) as ->.
  { rewrite mem_Lease_eq. simpl. by rewrite <- list_fmap_compose. }
  apply (step_lease now owner _ (length (granted now owner limit m))).
  - by apply granted_ids_NoDup.
  - by rewrite length_fmap.
  - intros id (j & -> & Hj)%list_elem_of_fmap.
    apply elem_of_granted, mem_elem_of_candidates in Hj as [[id Hj] Hl].
    exists (ajob_of j). rewrite (mem_wf_lookup _ _ _ Hwf Hj). unfold view.
    by rewrite lookup_jobs_view, Hj, <- leasable_of.
  - intros id b Hb Hav Hid. split; [by rewrite length_fmap|].
    apply jobs_view_Some in Hb as (j & Hj & <-). rewrite <- leasable_of in Hav.
    intros id' a Hid' Ha. apply jobs_view_Some in Ha as (x & Hx & <-).
    rewrite <- lease_order_of.
    apply list_elem_of_fmap in Hid' as (x' & -> & Hx').
    pose proof (elem_of_granted _ _ _ _ _ Hx') as [[i Hi] _]%mem_elem_of_candidates.
    pose proof (mem_wf_lookup _ _ _ Hwf Hi) as Hxi. rewrite Hxi in Hx. simplify_eq.
    apply (granted_best now owner limit m j); [|intros Hjg|done].
    + apply mem_elem_of_candidates. eauto.
    + apply Hid. apply list_elem_of_fmap. exists j. split; [|done].
      symmetry. by eapply mem_wf_lookup.
Qed.

(** Stored jobs stay well formed along every step of the view. *)
Lemma mem_wf_step m now e jobs :
  wf m → qstep now e (view m) (jobs_view jobs) → map_Forall job_wf jobs → jobs_wf jobs.
Proof. intros [_ Hq] Hst Hj. split; [done|]. by eapply qstep_inv. Qed.

Lemma mem_Lease_wf now owner limit lease m : wf m → wf (Lease now owner limit lease m).1.
Proof.
  intros Hwf. eapply mem_wf_step; [done|by apply mem_Lease_step|].
  intros id j'. rewrite mem_lookup_Lease by done.
  destruct (m.(Jobs) !! id) as [j|] eqn:Hj; [|done]. simpl. intros [= <-].
  destruct (proj1 Hwf _ _ Hj) as [H1 H2 H3].
  case_bool_decide; [|destruct (on_final_attempt now j); [|done]].
  - split; simpl; [done|set_solver|done].
  - unfold reap; simpl. case_if; split; simpl; (done || set_solver).
Qed.

Lemma new_job_eq now token j :
  new_job now token j =
  mkJob (if j.(Job_ID) ≟ "" then newID "job" token else j.(Job_ID))
    j.(Job_Kind) j.(Job_Target) j.(Job_Payload)
    (if j.(Job_Status) ≟ "" then JobQueued else j.(Job_Status))
    j.(Job_Priority) j.(Job_Attempts)
    (if j.(Job_MaxAttempts) =? 0 then 5 else j.(Job_MaxAttempts))
    (if IsZero j.(Job_NotBefore) then now else j.(Job_NotBefore))
    j.(Job_Affinity) j.(Job_LeaseOwner) j.(Job_LeaseUntil) now now j.(Job_LastError).
Proof.
  destruct j as [i k t p s pr at_ mx nb af ow un cr up le]; unfold new_job; simpl.
  destruct (bool_decide (i = "")); simpl; destruct (bool_decide (s = "")); simpl;
    destruct (mx =? 0); simpl; destruct (IsZero nb); done.
Qed.

(** [Enqueue] adds the job, or finds an active one with the same kind, target
    and affinity. *)
Lemma Enqueue_new now token j m m' j' :
  wf m → job_request j → m.(Jobs) !! (new_job now token j).(Job_ID) = None →
  Enqueue now token j m = (m', (j', true)) →
  wf m' ∧ qstep now (Enqueued j'.(Job_ID)) (view m) (view m') ∧
  m'.(Jobs) !! j'.(Job_ID) = Some j' ∧ j' = new_job now token j.
Proof.
  intros Hwf [Hs Ha Hm Ho] Hid. unfold Enqueue.
  destruct (List.find _ _) as [x|] eqn:Hf; intros H; simplify_eq.
  assert ((new_job now token j).(Job_Status) = JobQueued ∧
    (new_job now token j).(Job_Attempts) = 0 ∧
    0 < (new_job now token j).(Job_MaxAttempts) ≤ max_int64 ∧
    (new_job now token j).(Job_LeaseOwner) = "" ∧
    same_key j (new_job now token j) = true) as (Hs' & Ha' & Hm' & Ho' & Hk').
  { rewrite new_job_eq. unfold same_key; cbn [Job_Status Job_Attempts Job_MaxAttempts
      Job_LeaseOwner Job_Kind Job_Target Job_Affinity].
    split_and!; try done; [..|by rewrite !bool_decide_eq_true_2].
    - destruct Hs as [->| ->]; done.
    - destruct (Z.eqb_spec (Job_MaxAttempts j) 0); unfold max_int64, two63 in *; lia.
    - destruct (Z.eqb_spec (Job_MaxAttempts j) 0); unfold max_int64, two63 in *; lia. }
  set (n := new_job now token j) in *. clearbody n.
  assert (qstep now (Enqueued n.(Job_ID)) (view m)
    (view (m <| Jobs := <[n.(Job_ID) := n]> m.(Jobs) |>))) as Hst.
  { unfold view; simpl. rewrite jobs_view_insert. apply step_enqueue; simpl; try lia.
    - by rewrite lookup_jobs_view, Hid.
    - unfold state_of. by rewrite Hs'.
    - intros id b Hb Hact Hkey. apply jobs_view_Some in Hb as (x & Hx & <-).
      pose proof (List.find_none _ _ Hf x) as Hn.
      rewrite <- list_elem_of_In, elem_of_range_vals in Hn.
      specialize (Hn (ex_intro _ _ Hx)). rewrite is_active_of in Hact.
      unfold active in Hn. rewrite Hact, andb_true_r in Hn.
      unfold a_key in Hkey; simpl in Hkey. unfold same_key in *. bool_to_prop.
      injection Hkey as E1 E2 E3. by rewrite !bool_decide_eq_true_2 in Hn by congruence. }
  split_and!; [|done|by simpl; rewrite lookup_insert_eq|done].
  eapply mem_wf_step; [done|exact Hst|]. apply map_Forall_insert_2; [|apply Hwf].
  split; [done| |done]. rewrite Hs'. set_solver.
Qed.

Lemma Enqueue_no_twin now token j m m' x id y :
  Enqueue now token j m = (m', (x, true)) → m.(Jobs) !! id = Some y →
  is_active (ajob_of y) = true → a_key (ajob_of y) ≠ a_key (ajob_of j).
Proof.
  unfold Enqueue. destruct (List.find _ _) as [z|] eqn:Hf; [done|].
  intros _ Hy Ha Hk. pose proof (List.find_none _ _ Hf y) as Hn.
  rewrite <- list_elem_of_In, elem_of_range_vals in Hn. specialize (Hn (ex_intro _ _ Hy)).
  rewrite is_active_of in Ha. unfold active in Hn. simpl in Hn.
  rewrite Ha, andb_true_r in Hn. unfold a_key in Hk; simpl in Hk. injection Hk as E1 E2 E3.
  unfold same_key in Hn. by rewrite !bool_decide_eq_true_2 in Hn by done.
Qed.

Lemma Enqueue_dup now token j m m' x :
  Enqueue now token j m = (m', (x, false)) →
  m' = m ∧ same_key x j = true ∧ active x = true ∧ ∃ id, m.(Jobs) !! id = Some x.
Proof.
  unfold Enqueue. destruct (List.find _ _) as [y|] eqn:Hf; intros H; simplify_eq.
  apply List.find_some in Hf as [Hx Hb]. bool_to_prop.
  split_and!; try done. apply elem_of_range_vals. by apply list_elem_of_In.
Qed.

(** [Complete] and [Fail] act only for the holder of the lease. *)
Lemma finish_step now id j m :
  wf m → m.(Jobs) !! id = Some j → j.(Job_Status) = JobRunning →
  ∀ t, qstep t (Completed id j.(Job_LeaseOwner)) (view m)
         (jobs_view (<[id := finish now j]> m.(Jobs))) ∧
       jobs_wf (<[id := finish now j]> m.(Jobs)).
Proof.
  intros Hwf Hj Hs t.
  assert (qstep t (Completed id j.(Job_LeaseOwner)) (view m)
         (jobs_view (<[id := finish now j]> m.(Jobs)))) as Hst.
  { rewrite jobs_view_insert.
    change (ajob_of (finish now j)) with ((ajob_of j) <| a_state := Done |>).
    eapply step_complete; [unfold view; by rewrite lookup_jobs_view, Hj|].
    by apply state_of_running. }
  split; [done|]. eapply mem_wf_step; [done..|].
  apply map_Forall_insert_2; [|apply Hwf].
  split; simpl; [by eapply mem_wf_lookup|set_solver|done].
Qed.

Lemma mem_Complete_ok now1 now2 id owner m m' :
  Complete now1 now2 id owner m = (m', Ok tt) →
  ∃ j, m.(Jobs) !! id = Some j ∧ j.(Job_Status) = JobRunning ∧
    j.(Job_LeaseOwner) = owner ∧ m'.(Jobs) = <[id := finish now2 j]> m.(Jobs).
Proof.
  unfold Complete. destruct (m.(Jobs) !! id) as [j|]; [|done].
  destruct (_ || _) eqn:E; [done|]. bool_to_prop. intros Hc. exists j.
  split_and!; try done.
  repeat (case_match || case_if); by simplify_eq.
Qed.

Lemma mem_Complete_err now1 now2 id owner m m' e :
  Complete now1 now2 id owner m = (m', Err e) → m' = m.
Proof.
  unfold Complete. intros H. repeat (case_match || case_if); by simplify_eq.
Qed.

Lemma mem_Complete_step now1 now2 id owner m m' :
  wf m → Complete now1 now2 id owner m = (m', Ok tt) →
  qstep now1 (Completed id owner) (view m) (view m') ∧ wf m'.
Proof.
  intros Hwf (j & Hj & Hs & <- & Hm')%mem_Complete_ok. unfold wf, view at 2. rewrite Hm'.
  by apply finish_step.
Qed.

Lemma fail_job_of now detail retry j :
  ajob_of (fail_job now detail retry j) = give_back now retry (ajob_of j).
Proof. unfold fail_job, give_back; simpl. by destruct (_ <=? _). Qed.

Lemma mem_Fail_step now id owner detail retry m m' :
  wf m → owner ≠ "" → Fail now id owner detail retry m = (m', Ok tt) →
  qstep now (Failed id owner) (view m) (view m') ∧ wf m'.
Proof.
  intros Hwf Ho. unfold Fail. destruct (m.(Jobs) !! id) as [j|] eqn:Hj; [|done].
  destruct (negb _) eqn:E; [done|]. intros Hc. bool_to_prop. simplify_eq.
  destruct (proj1 Hwf _ _ Hj) as [Hid Hst Hown].
  assert (j.(Job_Status) = JobRunning) as Hs by (apply dec_stable; naive_solver).
  assert (qstep now (Failed id (Job_LeaseOwner j)) (view m)
    (jobs_view (<[id := fail_job now detail retry j]> m.(Jobs)))) as Hq.
  { rewrite jobs_view_insert, fail_job_of.
    eapply step_fail; [unfold view; by rewrite lookup_jobs_view, Hj| |by left].
    by apply state_of_running. }
  split; [done|]. eapply mem_wf_step; [done..|]. apply map_Forall_insert_2; [|apply Hwf].
  unfold fail_job; simpl. case_if; split; simpl; (done || set_solver).
Qed.

Lemma mem_Fail_err now id owner detail retry m m' e :
  Fail now id owner detail retry m = (m', Err e) → m' = m.
Proof. unfold Fail. intros H. repeat (case_match || case_if); by simplify_eq. Qed.

(** [RetryJob] looks only at the job itself: a twin may be active. *)
Lemma mem_RetryJob_step now id j m m' :
  wf m → m.(Jobs) !! id = Some j → no_active_twin (ajob_of j) (view m) →
  RetryJob now id m = (m', Ok tt) →
  qstep now (Retried id) (view m) (view m') ∧ wf m'.
Proof.
  intros Hwf Hj Ht. unfold RetryJob. rewrite Hj.
  destruct (negb _) eqn:E; [done|]. intros Hc. bool_to_prop. simplify_eq.
  destruct (proj1 Hwf _ _ Hj) as [Hid Hst Hown].
  match goal with |- context [<[id := ?x]> m.(Jobs)] => set (j' := x) end.
  assert (qstep now (Retried id) (view m) (jobs_view (<[id := j']> m.(Jobs)))) as Hq.
  { rewrite jobs_view_insert. change (ajob_of j') with
      ((ajob_of j) <| a_state := Waiting |> <| a_attempts := 0 |> <| a_not_before := now |>).
    apply step_retry; [unfold view; by rewrite lookup_jobs_view, Hj| |done].
    simpl. unfold state_of. by rewrite E. }
  split; [done|]. eapply mem_wf_step; [done..|]. apply map_Forall_insert_2; [|apply Hwf].
  split; simpl; [done|set_solver|]. intros _. apply Hown. by rewrite E.
Qed.

(** ** The store as a [JobStore] *)

Definition exec (now : Time) (c : job_call) (m : MemoryStore) : MemoryStore * list event :=
  match c with
  | CallEnqueue token j =>
      let '(m', (j', fresh)) := Enqueue now token j m in
      (m', if (fresh : bool) then [Enqueued j'.(Job_ID)] else [])
  | CallLease owner limit lease =>
      let '(m', js) := Lease now owner limit lease m in
      (m', [Leased owner (time_add now lease) (Job_ID <$> js)])
  | CallComplete id owner later =>
      match Complete now later id owner m with
      | (m', Ok _) => (m', [Completed id owner])
      | (m', _) => (m', [])
      end
  | CallFail id owner detail retry =>
      match Fail now id owner detail retry m with
      | (m', Ok _) => (m', [Failed id owner])
      | (m', _) => (m', [])
      end
  | CallRetry id _ =>
      match RetryJob now id m with
      | (m', Ok _) => (m', [Retried id])
      | (m', _) => (m', [])
      end
  end.

(** What [memory.go] leaves to its callers: submitted jobs have not run, ids are
    fresh, nobody fails a job in the name of the empty owner, and a job is not
    retried while a twin is active. *)
Definition call_ok (c : job_call) (m : MemoryStore) : Prop :=
  match c with
  | CallEnqueue token j =>
      job_request j ∧
      m.(Jobs) !! (if j.(Job_ID) ≟ "" then newID "job" token else j.(Job_ID)) = None
  | CallFail _ owner _ _ => owner ≠ ""
  | CallRetry id _ => ∀ j, m.(Jobs) !! id = Some j → no_active_twin (ajob_of j) (view m)
  | _ => True
  end.

Lemma RetryJob_err now id m m' e : RetryJob now id m = (m', Err e) → m' = m.
Proof. unfold RetryJob. intros H. repeat (case_match || case_if); by simplify_eq. Qed.

Lemma mem_exec_refines now c m m' evs :
  wf m → call_ok c m → exec now c m = (m', evs) →
  wf m' ∧ qrun (view m) (stamp now evs) (view m').
Proof.
  assert (∀ e q q', qstep now e q q' → qrun q (stamp now [e]) q') as Hone.
  { intros e q q' H. econstructor; [exact H|constructor]. }
  intros Hwf Hok. destruct c as [token j|owner limit lease|id owner later|id owner d r|id later];
    simpl in *.
  - destruct Hok as [Hreq Hid]. destruct (Enqueue now token j m) as [m1 [j' []]] eqn:E;
      intros E'; simplify_eq.
    + destruct (Enqueue_new now token j m m' j' Hwf Hreq) as (? & ? & _ & _); [|done|].
      { by rewrite new_job_eq. }
      split; [done|by apply Hone].
    + apply Enqueue_dup in E as [-> _]. split; [done|constructor].
  - pose proof (mem_Lease_wf now owner limit lease m Hwf) as Hwf'.
    pose proof (mem_Lease_step now owner limit lease m Hwf) as Hst.
    destruct (Lease now owner limit lease m) as [m1 js]. intros E'; simplify_eq.
    split; [done|by apply Hone].
  - destruct (Complete now later id owner m) as [m1 [[]|e]] eqn:E; intros E'; simplify_eq.
    + apply mem_Complete_step in E as [? ?]; [|done]. by split; [|apply Hone].
    + apply mem_Complete_err in E as ->. split; [done|constructor].
  - destruct (Fail now id owner d r m) as [m1 [[]|e]] eqn:E; intros E'; simplify_eq.
    + apply mem_Fail_step in E as [? ?]; [|done..]. by split; [|apply Hone].
    + apply mem_Fail_err in E as ->. split; [done|constructor].
  - destruct (RetryJob now id m) as [m1 [[]|e]] eqn:E; intros E'; simplify_eq.
    + destruct (m.(Jobs) !! id) as [j|] eqn:Hj; [|by unfold RetryJob in E; rewrite Hj in E].
      destruct (mem_RetryJob_step now id j m m' Hwf Hj (Hok _ eq_refl) E).
      by split; [|apply Hone].
    + apply RetryJob_err in E as ->. split; [done|constructor].
Qed.

#[export] Instance mem_job_store : JobStore MemoryStore := {
  js_view := view; js_wf := wf; js_ok := call_ok; js_exec := exec;
  js_wf_inv m := fun H : wf m => proj2 H;
  js_refines := mem_exec_refines
}.

(** C8. The in-memory store implements the abstract queue: along every history
    of calls that meets its conditions, its jobs stay well formed and the history
    is a run of the transition system of QueueSpec.v. *)
Theorem mem_refines_queue m calls tr m' :
  wf m → history m calls tr m' → wf m' ∧ qrun (view m) tr (view m').
Proof. intros Hwf Hh. exact (history_refines m calls tr m' Hh Hwf). Qed.
End MemJobs.

(** ** Small stores *)

Definition demo_job : Job :=
  zero_Job <| Job_Kind := "backup-repository" |> <| Job_Target := "org/app" |>
    <| Job_MaxAttempts := 1 |>.
Definition demo1 : MemoryStore := (exec 100 (CallEnqueue "a" demo_job) NewMemoryStore).1.
Definition demo2 : MemoryStore := (exec 200 (CallLease "w" 0 1000) demo1).1.
Definition demo3 : MemoryStore := (exec 300 (CallFail (newID "job" "a") "w" "boom" 10) demo2).1.
Definition demo4 : MemoryStore := (exec 400 (CallEnqueue "b" demo_job) demo3).1.

Lemma mem_demo_request : job_request demo_job.
Proof. split; [by left|done|split; done|done]. Qed.

Lemma mem_exec_wf {MO : MapOrder} now c m : wf m → call_ok c m → wf (exec now c m).1.
Proof.
  intros Hwf Hok. destruct (exec now c m) as [m' evs] eqn:E.
  exact (proj1 (mem_exec_refines now c m m' evs Hwf Hok E)).
Qed.

Lemma mem_wf_empty : wf NewMemoryStore.
Proof. apply jobs_wf_empty. Qed.

Lemma mem_demo1_wf : wf demo1.
Proof.
  apply (mem_exec_wf 100 (CallEnqueue "a" demo_job)); [apply mem_wf_empty|].
  split; [apply mem_demo_request|]. vm_compute. reflexivity.
Qed.

Lemma mem_demo2_wf : wf demo2.
Proof. apply (mem_exec_wf 200 (CallLease "w" 0 1000)); [apply mem_demo1_wf|exact I]. Qed.

Lemma demo3_wf : wf demo3.
Proof.
  apply (mem_exec_wf 300 (CallFail (newID "job" "a") "w" "boom" 10)); [apply mem_demo2_wf|discriminate].
Qed.

Lemma demo4_wf : wf demo4.
Proof.
  apply (mem_exec_wf 400 (CallEnqueue "b" demo_job)); [apply demo3_wf|].
  split; [apply mem_demo_request|]. vm_compute. reflexivity.
Qed.

Lemma mem_refines_queue_witness :
  wf demo2 ∧ qrun (view demo1) [(200, Leased "w" 1200 [newID "job" "a"])] (view demo2).
Proof.
  apply (mem_refines_queue demo1 [(200, CallLease "w" 0 1000)]
    [(200, Leased "w" 1200 [newID "job" "a"])] demo2 mem_demo1_wf).
  assert (exec 200 (CallLease "w" 0 1000) demo1 =
    (demo2, [Leased "w" 1200 [newID "job" "a"]])) as E by (vm_compute; reflexivity).
  exact (history_cons 200 (CallLease "w" 0 1000) demo1 demo2
    [Leased "w" 1200 [newID "job" "a"]] [] [] demo2 I E (history_nil demo2)).
Defined.

(** [RetryJob] does not look for a twin: a failed job retried after it was
    enqueued anew leaves two active jobs of one kind, target and affinity, which
    [SQLStore] rejects. *)
Lemma mem_retry_duplicates :
  wf demo4 ∧ is_ok (RetryJob 500 (newID "job" "a") demo4).2 = true ∧
  ¬ unique_active (view (RetryJob 500 (newID "job" "a") demo4).1).
Proof.
  split; [apply demo4_wf|]. split; [vm_compute; reflexivity|]. intros Hu.
  set (q := view _) in Hu.
  assert (q !! newID "job" "a" = Some (default (ajob_of zero_Job) (q !! newID "job" "a")) ∧
    q !! newID "job" "b" = Some (default (ajob_of zero_Job) (q !! newID "job" "b")))
    as [Ha Hb] by (vm_compute; done).
  specialize (Hu _ _ _ _ Ha Hb). assert (newID "job" "a" = newID "job" "b") as E; [|done].
  apply Hu; vm_compute; reflexivity.
Qed.
End MemJobs.
