(* ===== verification/SqlStore.v ===== *)
(** * The SQL store ([internal/controlplane/sqlstore.go])

    The tables are maps from primary key to row, a row being the model record
    the [scan] functions rebuild ([ts] writes fixed-width UTC text, which
    compares as the instants do; the empty [lease_until] and [verified_at] read
    back as the zero time).  Each statement is a function on the tables with
    its [WHERE], [ORDER BY], [LIMIT], [ON CONFLICT], unique-index and
    foreign-key behaviour as the schema of [Migrate] declares it; rows that tie
    under [ORDER BY] come in any order ([MapOrder]).  A method runs without
    interference (SQLite has one connection, see [OpenStore]); the phases of
    [Enqueue], which is not a transaction, are also given separately.  The
    database answers: driver failures are not modelled. *)

From Stdlib Require Import QArith.
From S2P Require Import Prelude GoStd Json Sha256 Model Payloads.
#[global] Open Scope Z_scope.

Module Sql.

Record SQLStore := mkSQLStore {
  jobs : gmap string Job;
  repositories : gmap string Repository;
  generations : gmap string Generation;
  generation_replicas : gmap (string * string) GenerationReplica;
  agents : gmap string Agent;
  restore_approvals : gmap string RestoreApproval;
  replication_transfers : gmap string ReplicationTransfer;
  object_refs : gmap string ObjectRef;
  object_ref_owners : gmap (string * string) Time;
  object_leases : gmap string ObjectLease;
  erasure_sets : gmap string ErasureSet;
  erasure_shards : gmap (string * Z * string) ErasureShard;
  repoark_meta : gmap string string
}.

#[global] Instance SQLStore_settable : Settable SQLStore :=
  fun r => mkSQLStore (r.(jobs)) (r.(repositories)) (r.(generations))
    (r.(generation_replicas)) (r.(agents)) (r.(restore_approvals))
    (r.(replication_transfers)) (r.(object_refs)) (r.(object_ref_owners))
    (r.(object_leases)) (r.(erasure_sets)) (r.(erasure_shards)) (r.(repoark_meta)).

Definition empty_store : SQLStore := mkSQLStore ∅ ∅ ∅ ∅ ∅ ∅ ∅ ∅ ∅ ∅ ∅ ∅ ∅.

Definition ErrNoRows : string := "sql: no rows in result set".
Definition ErrUnique : string := "UNIQUE constraint failed".
Definition ErrForeignKey : string := "FOREIGN KEY constraint failed".

(** [UPDATE t SET f WHERE p]. *)
Definition update_where {K R} `{Countable K} (p : R → bool) (f : R → R) (t : gmap K R)
    : gmap K R := (fun r => if p r then f r else r) <$> t.

(** [UPDATE t SET f WHERE id=k AND p], with the number of rows affected. *)
Definition update_row {K R} `{Countable K} (k : K) (p : R → bool) (f : R → R)
    (t : gmap K R) : gmap K R * Z :=
  match t !! k with
  | Some r => if p r then (<[k := f r]> t, 1) else (t, 0)
  | None => (t, 0)
  end.

(** [INSERT ... ON CONFLICT(pk) DO UPDATE SET merge]. *)
Definition upsert {K R} `{Countable K} (k : K) (merge : R → R → R) (new : R)
    (t : gmap K R) : gmap K R :=
  <[k := match t !! k with Some old => merge new old | None => new end]> t.

Section Methods.
Context {MO : MapOrder}.
Implicit Types (s : SQLStore) (now : Time).

Definition select {K R} `{Countable K} (p : R → bool) (t : gmap K R) : list R :=
  List.filter p (range_vals t).

(** [LIMIT ?] *)
Definition LIMIT {A} (n : Z) (l : list A) : list A := take (Z.to_nat n) l.

Definition all_rows {R} (_ : R) : bool := true.

(** ** Jobs *)

Definition status_active (j : Job) : bool :=
  (j.(Job_Status) ≟ "queued") || (j.(Job_Status) ≟ "running").

Definition older_job (x y : Job) : bool := Before x.(Job_CreatedAt) y.(Job_CreatedAt).

(** The active job with the kind, target and affinity of [j], if any. *)
Definition find_active (j : Job) (s : SQLStore) : option Job :=
  head (LIMIT 1 (sort_slice older_job (select (fun x =>
    (x.(Job_Kind) ≟ j.(Job_Kind)) && (x.(Job_Target) ≟ j.(Job_Target))
    && (x.(Job_Affinity) ≟ j.(Job_Affinity)) && status_active x) s.(jobs)))).

Definition GetJob (id : string) (s : SQLStore) : result Job :=
  match s.(jobs) !! id with Some j => Ok j | None => Err ErrNoRows end.

(** The partial unique index on (kind, target, affinity) of active jobs. *)
Definition violates_active_index (j : Job) (s : SQLStore) : bool :=
  status_active j &&
  existsb (fun x => (x.(Job_ID) ≠? j.(Job_ID))
    && (x.(Job_Kind) ≟ j.(Job_Kind)) && (x.(Job_Target) ≟ j.(Job_Target))
    && (x.(Job_Affinity) ≟ j.(Job_Affinity)) && status_active x) (range_vals s.(jobs)).

Definition prepare_job (now : Time) (token : string) (j : Job) : Job :=
  let j := if j.(Job_ID) ≟ "" then j <| Job_ID := newID "job" token |> else j in
  let j := if j.(Job_Status) ≟ "" then j <| Job_Status := JobQueued |> else j in
  let j := if j.(Job_MaxAttempts) <=? 0 then j <| Job_MaxAttempts := 5 |> else j in
  let j := if IsZero j.(Job_NotBefore) then j <| Job_NotBefore := now |> else j in
  j <| Job_CreatedAt := now |> <| Job_UpdatedAt := now |>.

(** The row written: no lease, no error. *)
Definition job_row (j : Job) : Job :=
  j <| Job_LeaseOwner := "" |> <| Job_LeaseUntil := time_zero |> <| Job_LastError := "" |>.

Definition existing_job (x : Job) (s : SQLStore) : result (Job * bool) :=
  match GetJob x.(Job_ID) s with Ok y => Ok (y, false) | Err e => Err e end.

(** The [INSERT] of [Enqueue] and the re-read when it fails. *)
Definition EnqueueInsert (j : Job) (s : SQLStore) : SQLStore * result (Job * bool) :=
  if bool_decide (is_Some (s.(jobs) !! j.(Job_ID))) || violates_active_index (job_row j) s then
    match find_active j s with
    | Some x => (s, existing_job x s)
    | None => (s, Err ErrUnique)
    end
  else (s <| jobs := <[j.(Job_ID) := job_row j]> s.(jobs) |>, Ok (j, true)).

Definition Enqueue (now : Time) (token : string) (j : Job) (s : SQLStore)
    : SQLStore * result (Job * bool) :=
  let j := prepare_job now token j in
  match find_active j s with
  | Some x => (s, existing_job x s)
  | None => EnqueueInsert j s
  end.

Definition lease_expired (now : Time) (j : Job) : bool :=
  (j.(Job_Status) ≟ "running") && (j.(Job_LeaseUntil) ≠? time_zero)
  && (j.(Job_LeaseUntil) <=? now).

Definition reap_row (now : Time) (j : Job) : Job :=
  j <| Job_Status := "failed" |> <| Job_LeaseOwner := "" |> <| Job_LeaseUntil := time_zero |>
    <| Job_UpdatedAt := now |>
    <| Job_LastError := if j.(Job_LastError) ≟ "" then "lease expired on final attempt"
                        else j.(Job_LastError) |>.

Definition may_lease (now : Time) (owner : string) (j : Job) : bool :=
  (j.(Job_Attempts) <? j.(Job_MaxAttempts))
  && ((j.(Job_Affinity) ≟ "") || (j.(Job_Affinity) ≟ owner))
  && ((j.(Job_Status) ≟ "queued") || lease_expired now j).

(** [ORDER BY priority DESC, created_at ASC] *)
Definition lease_order (x y : Job) : bool :=
  if x.(Job_Priority) =? y.(Job_Priority)
  then x.(Job_CreatedAt) <? y.(Job_CreatedAt)
  else y.(Job_Priority) <? x.(Job_Priority).

Definition take_lease (now : Time) (owner : string) (until : Time) (j : Job) : Job :=
  j <| Job_Status := "running" |> <| Job_Attempts := j.(Job_Attempts) + 1 |>
    <| Job_LeaseOwner := owner |> <| Job_LeaseUntil := until |> <| Job_UpdatedAt := now |>.

(** The loop over the candidates: a row is leased if the guarded [UPDATE] hits. *)
Definition lease_candidate (now : Time) (owner : string) (until : Time)
    (acc : gmap string Job * list Job) (j : Job) : gmap string Job * list Job :=
  let '(t, n) := update_row j.(Job_ID) (may_lease now owner) (take_lease now owner until) acc.1 in
  if n ≠? 1 then (t, acc.2)
  else (t, acc.2 ++ [j <| Job_Status := JobRunning |>
    <| Job_Attempts := wrap64 (j.(Job_Attempts) + 1) |> <| Job_LeaseOwner := owner |>
    <| Job_LeaseUntil := until |> <| Job_UpdatedAt := now |>]).

Definition Lease (now : Time) (owner : string) (limit : Z) (lease : Duration)
    (s : SQLStore) : SQLStore * result (list Job) :=
  let limit := if limit <=? 0 then 1 else limit in
  let until := time_add now lease in
  let t := update_where (fun j => lease_expired now j && (j.(Job_MaxAttempts) <=? j.(Job_Attempts)))
             (reap_row now) s.(jobs) in
  let candidates := LIMIT limit (sort_slice lease_order
    (select (fun j => (j.(Job_NotBefore) <=? now) && may_lease now owner j) t)) in
  let '(t, leased) := foldl (lease_candidate now owner until) (t, []) candidates in
  (s <| jobs := t |>, Ok leased).

Definition leased_by (owner : string) (j : Job) : bool :=
  (j.(Job_Status) ≟ "running") && (j.(Job_LeaseOwner) ≟ owner).

Definition not_leased (id owner : string) : string :=
  "job " +:+ id +:+ " is not leased by " +:+ owner.

Definition succeed_row (now : Time) (j : Job) : Job :=
  j <| Job_Status := "succeeded" |> <| Job_LeaseOwner := "" |>
    <| Job_LeaseUntil := time_zero |> <| Job_UpdatedAt := now |> <| Job_LastError := "" |>.

(** A transaction: an error returns the tables unchanged. *)
Definition Complete (now : Time) (id owner : string) (s : SQLStore)
    : SQLStore * result unit :=
  match s.(jobs) !! id with
  | Some j =>
    if negb (leased_by owner j) then (s, Err (not_leased id owner)) else
    let close s1 :=
      let '(t, n) := update_row id (leased_by owner) (succeed_row now) s1.(jobs) in
      if n ≠? 1 then (s, Err (not_leased id owner)) else (s1 <| jobs := t |>, Ok tt) in
    if j.(Job_Kind) ≟ "restore-generation" then
      match unmarshal_restore j.(Job_Payload) with
      | Some p =>
          if p.(rg_ApprovalID) ≟ "" then close s
          else
            let '(t, n) := update_row p.(rg_ApprovalID)
              (fun a => a.(Approval_Status) ≟ ApprovalScheduled)
              (fun a => a <| Approval_Status := ApprovalExecuted |> <| Approval_UpdatedAt := now |>)
              s.(restore_approvals) in
            if n ≠? 1 then (s, Err "restore approval is not scheduled")
            else close (s <| restore_approvals := t |>)
      | None => close s
      end
    else close s
  | None => (s, Err (not_leased id owner))
  end.

Definition fail_row (now : Time) (status : string) (notBefore : Time) (detail : string)
    (j : Job) : Job :=
  j <| Job_Status := status |> <| Job_NotBefore := notBefore |> <| Job_LeaseOwner := "" |>
    <| Job_LeaseUntil := time_zero |> <| Job_UpdatedAt := now |> <| Job_LastError := detail |>.

Definition Fail (now : Time) (id owner detail : string) (retryAfter : Duration)
    (s : SQLStore) : SQLStore * result unit :=
  match s.(jobs) !! id with
  | Some j =>
    if negb (leased_by owner j) then (s, Err ErrNoRows) else
    let '(status, notBefore) :=
      if j.(Job_MaxAttempts) <=? j.(Job_Attempts) then (JobFailed, now)
      else (JobQueued, time_add now retryAfter) in
    let '(t, n) := update_row id (leased_by owner) (fail_row now status notBefore detail) s.(jobs) in
    if n ≠? 1 then (s, Err ("job " +:+ id +:+ " is no longer leased by " +:+ owner))
    else (s <| jobs := t |>, Ok tt)
  | None => (s, Err ErrNoRows)
  end.

Definition newest_job (x y : Job) : bool := After x.(Job_CreatedAt) y.(Job_CreatedAt).

(** A limit out of 1..1000 becomes 100. *)
Definition ListJobs (limit : Z) (s : SQLStore) : list Job :=
  let limit := if (limit <=? 0) || (1000 <? limit) then 100 else limit in
  LIMIT limit (sort_slice newest_job (select all_rows s.(jobs))).

Definition RetryJob (now1 now2 : Time) (id : string) (s : SQLStore)
    : SQLStore * result unit :=
  let retry j := j <| Job_Status := "queued" |> <| Job_Attempts := 0 |>
    <| Job_NotBefore := now1 |> <| Job_LeaseOwner := "" |> <| Job_LeaseUntil := time_zero |>
    <| Job_LastError := "" |> <| Job_UpdatedAt := now2 |> in
  match s.(jobs) !! id with
  | Some j =>
      if j.(Job_Status) ≟ "failed" then
        if violates_active_index (retry j) s then (s, Err ErrUnique)
        else (s <| jobs := <[id := retry j]> s.(jobs) |>, Ok tt)
      else (s, Err ("failed job " +:+ id +:+ " not found"))
  | None => (s, Err ("failed job " +:+ id +:+ " not found"))
  end.

(** ** Repositories *)

(** [ON CONFLICT(account,full_name)]: the row found by the unique constraint. *)
Definition same_repo (r x : Repository) : bool :=
  (x.(Repo_Account) ≟ r.(Repo_Account)) && (x.(Repo_FullName) ≟ r.(Repo_FullName)).

Definition merge_repo (new old : Repository) : Repository :=
  old <| Repo_BackupRoot := new.(Repo_BackupRoot) |>
      <| Repo_IntervalSeconds := new.(Repo_IntervalSeconds) |>
      <| Repo_Priority := new.(Repo_Priority) |>
      <| Repo_MirrorGitLab := new.(Repo_MirrorGitLab) |>
      <| Repo_Enabled := new.(Repo_Enabled) |> <| Repo_UpdatedAt := new.(Repo_UpdatedAt) |>.

Definition UpsertRepository (now1 now2 : Time) (r : Repository) (s : SQLStore)
    : SQLStore * result unit :=
  let r := if r.(Repo_ID) ≟ "" then r <| Repo_ID := RepositoryID r.(Repo_Account) r.(Repo_FullName) |>
           else r in
  let r := if IsZero r.(Repo_NextRunAt) then r <| Repo_NextRunAt := now1 |> else r in
  let r := r <| Repo_UpdatedAt := now2 |> in
  match select (same_repo r) s.(repositories) with
  | old :: _ =>
      (s <| repositories := <[old.(Repo_ID) := merge_repo r old]> s.(repositories) |>, Ok tt)
  | [] =>
      if bool_decide (is_Some (s.(repositories) !! r.(Repo_ID))) then (s, Err ErrUnique)
      else (s <| repositories := <[r.(Repo_ID) := r]> s.(repositories) |>, Ok tt)
  end.

(** [ORDER BY account,full_name] *)
Definition repo_order (x y : Repository) : bool :=
  if x.(Repo_Account) ≟ y.(Repo_Account) then str_less x.(Repo_FullName) y.(Repo_FullName)
  else str_less x.(Repo_Account) y.(Repo_Account).

Definition ListRepositories (s : SQLStore) : list Repository :=
  sort_slice repo_order (select all_rows s.(repositories)).

(** [ORDER BY priority DESC,next_run_at ASC] *)
Definition due_order (x y : Repository) : bool :=
  if x.(Repo_Priority) =? y.(Repo_Priority) then x.(Repo_NextRunAt) <? y.(Repo_NextRunAt)
  else y.(Repo_Priority) <? x.(Repo_Priority).

Definition due (now : Time) (r : Repository) : bool :=
  r.(Repo_Enabled) && (r.(Repo_NextRunAt) <=? now).

Definition DueRepositories (now : Time) (limit : Z) (s : SQLStore) : list Repository :=
  let limit := if limit <=? 0 then 100 else limit in
  LIMIT limit (sort_slice due_order (select (due now) s.(repositories))).

Definition MarkScheduled (now : Time) (id : string) (next : Time) (s : SQLStore) : SQLStore :=
  s <| repositories := (update_row id all_rows (fun r =>
    r <| Repo_NextRunAt := next |> <| Repo_UpdatedAt := now |>) s.(repositories)).1 |>.

Definition MarkBackupResult (now : Time) (id : string) (ok : bool) (generationID : string)
    (at_ : Time) (s : SQLStore) : SQLStore :=
  s <| repositories := (update_row id all_rows (fun r =>
    r <| Repo_LastBackupAt := at_ |> <| Repo_LastGenerationID := generationID |>
      <| Repo_LastBackupSuccessful := ok |> <| Repo_UpdatedAt := now |>) s.(repositories)).1 |>.

Definition DisableMissingRepositories (now : Time) (account : string) (seen : gset string)
    (s : SQLStore) : SQLStore :=
  s <| repositories := foldl (fun t r =>
    if r.(Repo_Account) ≠? account then t
    else if bool_decide (r.(Repo_ID) ∈ seen) then t
    else (update_row r.(Repo_ID) all_rows (fun r =>
      r <| Repo_Enabled := false |> <| Repo_UpdatedAt := now |>) t).1)
    s.(repositories) (ListRepositories s) |>.

(** ** Generations and replicas *)

Definition RecordGeneration (g : Generation) (s : SQLStore) : SQLStore * result unit :=
  match s.(generations) !! g.(Gen_ID) with
  | Some _ => (s, Ok tt)
  | None =>
      if bool_decide (is_Some (s.(repositories) !! g.(Gen_RepositoryID)))
      then (s <| generations := <[g.(Gen_ID) := g]> s.(generations) |>, Ok tt)
      else (s, Err ErrForeignKey)
  end.

Definition newest_generation (x y : Generation) : bool :=
  After x.(Gen_CreatedAt) y.(Gen_CreatedAt).

Definition ListAllGenerations (limit : Z) (s : SQLStore) : list Generation :=
  let limit := if limit <=? 0 then 10000 else limit in
  LIMIT limit (sort_slice newest_generation (select all_rows s.(generations))).

Definition of_repository (repoID : string) (g : Generation) : bool :=
  g.(Gen_RepositoryID) ≟ repoID.

Definition ListGenerations (repoID : string) (limit : Z) (s : SQLStore) : list Generation :=
  let limit := if limit <=? 0 then 100 else limit in
  LIMIT limit (sort_slice newest_generation (select (of_repository repoID) s.(generations))).

(** The replicas of a generation go with it ([ON DELETE CASCADE]). *)
Definition delete_generation (s : SQLStore) (id : string) : SQLStore :=
  s <| generations := delete id s.(generations) |>
    <| generation_replicas :=
         filter (fun e : (string * string) * GenerationReplica => e.1.1 ≠ id)
           s.(generation_replicas) |>.

(** [ids[keep:]] is a slice expression: it panics beyond the length. *)
Definition PruneGenerationRecords (repoID : string) (keep : Z) (s : SQLStore)
    : SQLStore * outcome (result unit) :=
  if keep <=? 0 then (s, Returns (Ok tt))
  else
    let ids := Gen_ID <$> sort_slice newest_generation
                 (select (of_repository repoID) s.(generations)) in
    if zlen ids <? keep then (s, Panics "slice bounds out of range")
    else (foldl delete_generation s (drop (Z.to_nat keep) ids), Returns (Ok tt)).

Definition RecordReplica (now : Time) (r : GenerationReplica) (s : SQLStore)
    : SQLStore * result unit :=
  let r := if r.(Replica_State) ≟ "" then r <| Replica_State := ReplicaReady |> else r in
  let r := r <| Replica_UpdatedAt := now |> in
  if bool_decide (is_Some (s.(generations) !! r.(Replica_GenerationID))) then
    (s <| generation_replicas := upsert (r.(Replica_GenerationID), r.(Replica_AgentID))
            (fun new _ => new) r s.(generation_replicas) |>, Ok tt)
  else (s, Err ErrForeignKey).

Definition ListReplicas (generationID : string) (s : SQLStore) : list GenerationReplica :=
  sort_slice (fun x y => str_less x.(Replica_AgentID) y.(Replica_AgentID))
    (select (fun r => r.(Replica_GenerationID) ≟ generationID) s.(generation_replicas)).

Definition ListAllReplicas (limit : Z) (s : SQLStore) : list GenerationReplica :=
  let limit := if limit <=? 0 then 50000 else limit in
  LIMIT limit (sort_slice (fun x y => After x.(Replica_UpdatedAt) y.(Replica_UpdatedAt))
    (select all_rows s.(generation_replicas))).

(** ** Replication transfers *)

Definition RecordReplicationTransfer (now : Time) (t : ReplicationTransfer) (s : SQLStore)
    : SQLStore * result unit :=
  if TrimSpace t.(Transfer_ID) ≟ "" then (s, Err "replication transfer id is required")
  else
    let t := if t.(Transfer_State) ≟ "" then t <| Transfer_State := TransferReady |> else t in
    let t := t <| Transfer_UpdatedAt := now |> in
    (s <| replication_transfers :=
       upsert t.(Transfer_ID) (fun new _ => new) t s.(replication_transfers) |>, Ok tt).

Definition GetReplicationTransfer (id : string) (s : SQLStore) : result ReplicationTransfer :=
  match s.(replication_transfers) !! id with Some t => Ok t | None => Err ErrNoRows end.

Definition ListExpiredReplicationTransfers (now : Time) (limit : Z) (s : SQLStore)
    : list ReplicationTransfer :=
  let limit := if limit <=? 0 then 1000 else limit in
  LIMIT limit (sort_slice (fun x y => Before x.(Transfer_ExpiresAt) y.(Transfer_ExpiresAt))
    (select (fun t => t.(Transfer_ExpiresAt) <=? now) s.(replication_transfers))).

Definition DeleteReplicationTransfer (id : string) (s : SQLStore) : SQLStore :=
  s <| replication_transfers := delete id s.(replication_transfers) |>.

(** ** Agents *)

Definition HeartbeatAgent (now : Time) (a : Agent) (s : SQLStore) : SQLStore :=
  let a := if a.(Agent_ID) ≟ "" then a <| Agent_ID := a.(Agent_Name) |> else a in
  let a := if a.(Agent_Status) ≟ "" then a <| Agent_Status := "online" |> else a in
  let a := a <| Agent_LastSeenAt := now |> <| Agent_UpdatedAt := now |> in
  s <| agents := upsert a.(Agent_ID) (fun new _ => new) a s.(agents) |>.

Definition ListAgents (s : SQLStore) : list Agent :=
  sort_slice (fun x y => str_less x.(Agent_Name) y.(Agent_Name)) (select all_rows s.(agents)).

Definition GetAgent (id : string) (s : SQLStore) : result Agent :=
  match s.(agents) !! id with Some a => Ok a | None => Err ErrNoRows end.

(** ** Restore approvals *)

Definition CreateRestoreApproval (now : Time) (token : string) (a : RestoreApproval)
    (s : SQLStore) : SQLStore * result unit :=
  let a := if a.(Approval_ID) ≟ "" then a <| Approval_ID := newID "restore" token |> else a in
  let a := if IsZero a.(Approval_CreatedAt) then a <| Approval_CreatedAt := now |> else a in
  let a := if a.(Approval_Status) ≟ "" then a <| Approval_Status := ApprovalPending |> else a in
  let a := a <| Approval_UpdatedAt := now |> in
  if bool_decide (is_Some (s.(restore_approvals) !! a.(Approval_ID))) then (s, Err ErrUnique)
  else (s <| restore_approvals := <[a.(Approval_ID) := a]> s.(restore_approvals) |>, Ok tt).

Definition GetRestoreApproval (id : string) (s : SQLStore) : result RestoreApproval :=
  match s.(restore_approvals) !! id with Some a => Ok a | None => Err ErrNoRows end.

Definition ListRestoreApprovals (limit : Z) (s : SQLStore) : list RestoreApproval :=
  let limit := if limit <=? 0 then 200 else limit in
  LIMIT limit (sort_slice (fun x y => After x.(Approval_CreatedAt) y.(Approval_CreatedAt))
    (select all_rows s.(restore_approvals))).

Definition set_approval (id : string) (p : RestoreApproval → bool)
    (f : RestoreApproval → RestoreApproval) (s : SQLStore) : SQLStore * Z :=
  let '(t, n) := update_row id p f s.(restore_approvals) in
  (s <| restore_approvals := t |>, n).

Definition approval_in (status : string) (a : RestoreApproval) : bool :=
  a.(Approval_Status) ≟ status.

Definition with_status (status : string) (now : Time) (a : RestoreApproval)
    : RestoreApproval :=
  a <| Approval_Status := status |> <| Approval_UpdatedAt := now |>.

Definition ApproveRestore (now : Time) (id actor : string) (distinct : bool) (s : SQLStore)
    : SQLStore * result unit :=
  match s.(restore_approvals) !! id with
  | None => (s, Err ErrNoRows)
  | Some a =>
      if a.(Approval_Status) ≠? ApprovalPending
      then (s, Err ("restore approval is " +:+ a.(Approval_Status)))
      else if negb (IsZero a.(Approval_ExpiresAt)) && negb (After a.(Approval_ExpiresAt) now)
      then ((set_approval id all_rows (with_status ApprovalExpired now) s).1,
            Err "restore approval expired")
      else if distinct && (a.(Approval_RequestedBy) ≟ actor)
      then (s, Err "requester cannot approve own restore")
      else ((set_approval id (approval_in ApprovalPending) (fun a =>
               with_status ApprovalApproved now (a <| Approval_ApprovedBy := actor |>)) s).1, Ok tt)
  end.

Definition one_row {S} (s : S) (upd : S * Z) (err : string) : S * result unit :=
  if upd.2 ≠? 1 then (s, Err err) else (upd.1, Ok tt).

Definition ScheduleRestore (now1 now2 : Time) (id : string) (s : SQLStore)
    : SQLStore * result unit :=
  one_row s (set_approval id
    (fun a => approval_in ApprovalApproved a && After a.(Approval_ExpiresAt) now2)
    (with_status ApprovalScheduled now1) s) "restore approval is not approved or expired".

Definition ReleaseRestoreSchedule (now : Time) (id : string) (s : SQLStore)
    : SQLStore * result unit :=
  one_row s (set_approval id (approval_in ApprovalScheduled)
    (with_status ApprovalApproved now) s) "restore approval is not scheduled".

Definition MarkRestoreExecuted (now : Time) (id : string) (s : SQLStore)
    : SQLStore * result unit :=
  one_row s (set_approval id (approval_in ApprovalScheduled)
    (with_status ApprovalExecuted now) s) "restore approval is not approved".

(** ** Statistics *)

Definition COUNT {K R} `{Countable K} (p : R → bool) (t : gmap K R) : Z := zlen (select p t).

Definition stranded (since : Time) (s : SQLStore) (j : Job) : bool :=
  status_active j && (j.(Job_Affinity) ≠? "") && (j.(Job_Affinity) ≠? LocalWorkerAffinity)
  && match s.(agents) !! j.(Job_Affinity) with
     | Some a => negb (since <=? a.(Agent_LastSeenAt))
     | None => true
     end.

Definition Stats_ (now : Time) (s : SQLStore) : Stats :=
  let since := time_add now (-2 * Minute) in
  {| Stats_QueuedJobs := COUNT (fun j => j.(Job_Status) ≟ "queued") s.(jobs);
     Stats_RunningJobs := COUNT (fun j => j.(Job_Status) ≟ "running") s.(jobs);
     Stats_FailedJobs := COUNT (fun j => j.(Job_Status) ≟ "failed") s.(jobs);
     Stats_Repositories := COUNT all_rows s.(repositories);
     Stats_DueRepositories := COUNT (due now) s.(repositories);
     Stats_Generations := COUNT all_rows s.(generations);
     Stats_ConnectedAgents := COUNT (fun a => since <=? a.(Agent_LastSeenAt)) s.(agents);
     Stats_StrandedJobs := COUNT (stranded since s) s.(jobs);
     Stats_ReadyReplicas := COUNT (fun r => r.(Replica_State) ≟ "ready") s.(generation_replicas);
     Stats_ReplicaDeficits := 0;
     Stats_PendingApprovals :=
       COUNT (fun a => (a.(Approval_Status) ≟ "pending") && After a.(Approval_ExpiresAt) now)
         s.(restore_approvals);
     Stats_ActiveTransfers := COUNT all_rows s.(replication_transfers);
     Stats_DegradedStorageAgents := COUNT (fun a => a.(Agent_StorageHealth) ≟ "degraded") s.(agents);
     Stats_UnhealthyStorageAgents := COUNT (fun a => a.(Agent_StorageHealth) ≟ "unhealthy") s.(agents);
     Stats_ObjectRefs := COUNT all_rows s.(object_refs);
     Stats_ActiveObjectLeases := COUNT (fun l => After l.(OLease_ExpiresAt) now) s.(object_leases);
     Stats_ErasureSets := COUNT all_rows s.(erasure_sets);
     Stats_ErasureShardCopies := COUNT (fun sh => sh.(Shard_State) ≟ "ready") s.(erasure_shards) |}.

Definition SetMeta (k v : string) (s : SQLStore) : SQLStore :=
  s <| repoark_meta := <[k := v]> s.(repoark_meta) |>.
Definition GetMeta (k : string) (s : SQLStore) : string * bool :=
  match s.(repoark_meta) !! k with Some v => (v, true) | None => ("", false) end.

(** ** Object references *)

Definition negative_refcount (digest : string) : string :=
  "negative refcount for " +:+ digest.

Definition AdjustObjectRef (now : Time) (ref : ObjectRef) (delta : Z) (s : SQLStore)
    : SQLStore * result ObjectRef :=
  if TrimSpace ref.(Ref_Digest) ≟ "" then (s, Err "object digest is required")
  else
    match s.(object_refs) !! ref.(Ref_Digest) with
    | None =>
        if delta <? 0 then (s, Err (negative_refcount ref.(Ref_Digest)))
        else
          let cur := ref <| Ref_RefCount := delta |> <| Ref_UpdatedAt := now |> in
          (s <| object_refs := <[ref.(Ref_Digest) := cur]> s.(object_refs) |>, Ok cur)
    | Some cur =>
        let cur := if ref.(Ref_Kind) ≟ "" then cur else cur <| Ref_Kind := ref.(Ref_Kind) |> in
        let cur := if 0 <? ref.(Ref_Bytes) then cur <| Ref_Bytes := ref.(Ref_Bytes) |> else cur in
        let cur := cur <| Ref_RefCount := wrap64 (cur.(Ref_RefCount) + delta) |> in
        if cur.(Ref_RefCount) <? 0 then (s, Err (negative_refcount ref.(Ref_Digest)))
        else
          let cur := cur <| Ref_UpdatedAt := now |> in
          (s <| object_refs := <[ref.(Ref_Digest) := cur]> s.(object_refs) |>, Ok cur)
    end.

Definition merge_ref (new old : ObjectRef) : ObjectRef :=
  old <| Ref_Kind := if new.(Ref_Kind) ≟ "" then old.(Ref_Kind) else new.(Ref_Kind) |>
      <| Ref_Bytes := if new.(Ref_Bytes) <=? 0 then old.(Ref_Bytes) else new.(Ref_Bytes) |>
      <| Ref_RefCount := old.(Ref_RefCount) + 1 |>
      <| Ref_UpdatedAt := new.(Ref_UpdatedAt) |>.

Definition EnsureObjectRef (now1 now2 : Time) (ref : ObjectRef) (owner : string)
    (s : SQLStore) : SQLStore * result bool :=
  let digest := ToLower (TrimSpace ref.(Ref_Digest)) in
  let owner := TrimSpace owner in
  if (digest ≟ "") || (owner ≟ "") then (s, Err "digest and owner are required")
  else if bool_decide (is_Some (s.(object_ref_owners) !! (digest, owner))) then (s, Ok false)
  else
    let new := ref <| Ref_Digest := digest |> <| Ref_RefCount := 1 |> <| Ref_UpdatedAt := now2 |> in
    (s <| object_ref_owners := <[(digest, owner) := now1]> s.(object_ref_owners) |>
       <| object_refs := upsert digest merge_ref new s.(object_refs) |>, Ok true).

Definition ReleaseObjectRef (now : Time) (digest owner : string) (s : SQLStore)
    : SQLStore * result bool :=
  let digest := ToLower (TrimSpace digest) in
  let owner := TrimSpace owner in
  if (digest ≟ "") || (owner ≟ "") then (s, Err "digest and owner are required")
  else if bool_decide (is_Some (s.(object_ref_owners) !! (digest, owner))) then
    (s <| object_ref_owners := delete (digest, owner) s.(object_ref_owners) |>
       <| object_refs := (update_row digest all_rows (fun r =>
            r <| Ref_RefCount := if 0 <? r.(Ref_RefCount) then r.(Ref_RefCount) - 1 else 0 |>
              <| Ref_UpdatedAt := now |>) s.(object_refs)).1 |>, Ok true)
  else (s, Ok false).

Definition GetObjectRef (digest : string) (s : SQLStore) : ObjectRef * bool :=
  match s.(object_refs) !! digest with
  | Some r => (r, true)
  | None => (zero_ObjectRef, false)
  end.

(** A [LIMIT] clause only for a positive limit. *)
Definition opt_limit {A} (limit : Z) (l : list A) : list A :=
  if 0 <? limit then LIMIT limit l else l.

Definition ListObjectRefs (limit : Z) (s : SQLStore) : list ObjectRef :=
  opt_limit limit (sort_slice (fun x y => str_less x.(Ref_Digest) y.(Ref_Digest))
    (select all_rows s.(object_refs))).

Definition AcquireObjectLease (now : Time) (token : string) (l : ObjectLease) (s : SQLStore)
    : SQLStore * result unit :=
  let l := if l.(OLease_ID) ≟ "" then l <| OLease_ID := newID "olease" token |> else l in
  if (l.(OLease_Digest) ≟ "") || (l.(OLease_Owner) ≟ "") || IsZero l.(OLease_ExpiresAt)
  then (s, Err "invalid object lease")
  else
    let l := l <| OLease_UpdatedAt := now |> in
    (s <| object_leases := upsert l.(OLease_ID) (fun new _ => new) l s.(object_leases) |>, Ok tt).

Definition ReleaseObjectLease (id : string) (s : SQLStore) : SQLStore :=
  s <| object_leases := delete id s.(object_leases) |>.

Definition lease_live (now : Time) (l : ObjectLease) : bool := now <? l.(OLease_ExpiresAt).

Definition ListActiveObjectLeases (now : Time) (limit : Z) (s : SQLStore) : list ObjectLease :=
  opt_limit limit (sort_slice (fun x y => Before x.(OLease_ExpiresAt) y.(OLease_ExpiresAt))
    (select (lease_live now) s.(object_leases))).

(** [SELECT ... UNION SELECT ...] *)
Definition ProtectedObjectDigests (now : Time) (s : SQLStore) : gset string :=
  list_to_set (Ref_Digest <$> select (fun r => 0 <? r.(Ref_RefCount)) s.(object_refs))
  ∪ list_to_set (OLease_Digest <$> select (lease_live now) s.(object_leases)).

(** ** Erasure sets and shards *)

Definition RecordErasureSet (now : Time) (e : ErasureSet) (s : SQLStore)
    : SQLStore * result unit :=
  if e.(ESet_ObjectSHA256) ≟ "" then (s, Err "erasure object digest is required")
  else
    let e := if IsZero e.(ESet_CreatedAt) then e <| ESet_CreatedAt := now |> else e in
    let e := e <| ESet_UpdatedAt := now |> in
    (s <| erasure_sets := upsert e.(ESet_ObjectSHA256)
       (fun new old => new <| ESet_CreatedAt := old.(ESet_CreatedAt) |>) e s.(erasure_sets) |>,
     Ok tt).

Definition GetErasureSet (digest : string) (s : SQLStore) : ErasureSet * bool :=
  match s.(erasure_sets) !! digest with
  | Some e => (e, true)
  | None => (zero_ErasureSet, false)
  end.

Definition ListErasureSets (limit : Z) (s : SQLStore) : list ErasureSet :=
  opt_limit limit (sort_slice (fun x y => str_less x.(ESet_ObjectSHA256) y.(ESet_ObjectSHA256))
    (select all_rows s.(erasure_sets))).

Definition shard_key (sh : ErasureShard) : string * Z * string :=
  (sh.(Shard_ObjectSHA256), sh.(Shard_ShardIndex), sh.(Shard_AgentID)).

Definition RecordErasureShard (now : Time) (sh : ErasureShard) (s : SQLStore)
    : SQLStore * result unit :=
  if (sh.(Shard_ObjectSHA256) ≟ "") || (sh.(Shard_ShardSHA256) ≟ "") || (sh.(Shard_AgentID) ≟ "")
  then (s, Err "invalid erasure shard")
  else if bool_decide (is_Some (s.(erasure_sets) !! sh.(Shard_ObjectSHA256))) then
    let sh := sh <| Shard_UpdatedAt := now |> in
    (s <| erasure_shards := upsert (shard_key sh) (fun new _ => new) sh s.(erasure_shards) |>, Ok tt)
  else (s, Err ErrForeignKey).

Definition DeleteErasureShard (digest : string) (index : Z) (agent : string) (s : SQLStore)
    : SQLStore :=
  s <| erasure_shards := delete (digest, index, agent) s.(erasure_shards) |>.

(** [ORDER BY shard_index,agent_id] *)
Definition shard_order (x y : ErasureShard) : bool :=
  if x.(Shard_ShardIndex) =? y.(Shard_ShardIndex)
  then str_less x.(Shard_AgentID) y.(Shard_AgentID)
  else x.(Shard_ShardIndex) <? y.(Shard_ShardIndex).

Definition ListErasureShards (digest : string) (s : SQLStore) : list ErasureShard :=
  sort_slice shard_order
    (select (fun sh => sh.(Shard_ObjectSHA256) ≟ digest) s.(erasure_shards)).
End Methods.
End Sql.
