(* ===== verification/SqlJobs.v ===== *)
(** * The job queue of the SQL store

    The job methods of SqlStore.v implement QueueSpec.v without conditions on
    the caller beyond the shape of a submitted job: the unique index does what
    the in-memory store leaves to its callers. *)

From Stdlib Require Import QArith.
From S2P Require Import Prelude GoStd Json Sha256 Model Payloads QueueSpec SqlStore.
#[global] Open Scope Z_scope.

Module SqlJobs.
Import Sql.

Section SqlJobs.
Context {MO : MapOrder}.
Implicit Types (s : SQLStore) (now : Time) (j : Job).

Definition view (s : SQLStore) : queue := jobs_view s.(jobs).
Definition wf (s : SQLStore) : Prop := jobs_wf s.(jobs).

Lemma wf_step s now e t :
  wf s → qstep now e (view s) (jobs_view t) → map_Forall job_wf t → jobs_wf t.
Proof. intros [_ Hq] Hst Hj. split; [done|]. by eapply qstep_inv. Qed.

Lemma wf_lookup s id j : wf s → s.(jobs) !! id = Some j → j.(Job_ID) = id.
Proof. intros [H _] Hj. by apply (wf_id _ _ (H _ _ Hj)). Qed.

Lemma wf_job_inv s id j : wf s → s.(jobs) !! id = Some j → ajob_inv (ajob_of j).
Proof.
  intros [_ [H _]] Hj. eapply (H id). by rewrite lookup_jobs_view, Hj.
Qed.

Lemma elem_of_select {K R} `{Countable K} p (t : gmap K R) r :
  r ∈ select p t ↔ (∃ k, t !! k = Some r) ∧ p r = true.
Proof.
  unfold select. by rewrite list_elem_of_In, filter_In, <- list_elem_of_In,
    elem_of_range_vals.
Qed.

Lemma update_row_hit {K R} `{Countable K} k p f (t : gmap K R) r :
  t !! k = Some r → p r = true → update_row k p f t = (<[k := f r]> t, 1).
Proof. unfold update_row. by intros -> ->. Qed.

(** ** [Lease] *)

Lemma lease_expired_of now j : lease_expired now j = lapsed now (ajob_of j).
Proof.
  rewrite lapsed_of. unfold lease_expired, IsZero, After, time_zero.
  rewrite <- Z.leb_antisym. do 2 f_equal.
  by destruct (bool_decide_reflect (Job_LeaseUntil j = 0)), (Z.eqb_spec (Job_LeaseUntil j) 0).
Qed.

Definition ready (now : Time) (owner : string) (j : Job) : bool :=
  (j.(Job_NotBefore) <=? now) && may_lease now owner j.

Lemma ready_of now owner j : ready now owner j = available now owner (ajob_of j).
Proof.
  rewrite available_of. unfold ready, may_lease, After.
  rewrite lease_expired_of, <- Z.leb_antisym.
  destruct (Job_NotBefore j <=? now), (Job_Attempts j <? Job_MaxAttempts j); done.
Qed.

Definition reaped (now : Time) (t : gmap string Job) : gmap string Job :=
  update_where (fun j => lease_expired now j && (j.(Job_MaxAttempts) <=? j.(Job_Attempts)))
    (reap_row now) t.

Lemma lookup_reaped now t id :
  reaped now t !! id =
  (fun j => if spent now (ajob_of j) then reap_row now j else j) <$> t !! id.
Proof.
  unfold reaped, update_where. rewrite lookup_fmap. destruct (t !! id); simpl; [|done].
  unfold spent. by rewrite lease_expired_of.
Qed.

Lemma ready_not_spent now owner j :
  ready now owner j = true → spent now (ajob_of j) = false.
Proof.
  rewrite ready_of. intros H%available_attempts. unfold spent.
  apply andb_false_iff. right. apply Z.leb_gt. done.
Qed.

Lemma reap_row_not_ready now owner j : ready now owner (reap_row now j) = false.
Proof.
  rewrite ready_of, available_of, lapsed_of. unfold reap_row; simpl. by rewrite andb_false_r.
Qed.

Lemma reaped_ready now owner t id j :
  reaped now t !! id = Some j → ready now owner j = true → t !! id = Some j.
Proof.
  rewrite lookup_reaped. destruct (t !! id) as [x|]; simpl; [|done].
  intros [= <-]. destruct (spent now (ajob_of x)); [|done].
  by rewrite reap_row_not_ready.
Qed.

Lemma ready_reaped now owner t id j :
  t !! id = Some j → ready now owner j = true → reaped now t !! id = Some j.
Proof.
  intros Hj Hr. rewrite lookup_reaped, Hj. simpl. by rewrite (ready_not_spent _ _ _ Hr).
Qed.

Definition candidates (now : Time) (owner : string) (limit : Z) s : list Job :=
  LIMIT (if limit <=? 0 then 1 else limit)
    (sort_slice lease_order (select (ready now owner) (reaped now s.(jobs)))).

Definition leased_copy (now : Time) (owner : string) (until : Time) (j : Job) : Job :=
  j <| Job_Status := JobRunning |> <| Job_Attempts := wrap64 (j.(Job_Attempts) + 1) |>
    <| Job_LeaseOwner := owner |> <| Job_LeaseUntil := until |> <| Job_UpdatedAt := now |>.

Lemma lease_candidates now owner until l t acc :
  NoDup (Job_ID <$> l) →
  (∀ j, j ∈ l → t !! j.(Job_ID) = Some j ∧ may_lease now owner j = true) →
  foldl (lease_candidate now owner until) (t, acc) l =
  (foldl (fun t j => <[j.(Job_ID) := j]> t) t (take_lease now owner until <$> l),
   acc ++ (leased_copy now owner until <$> l)).
Proof.
  revert t acc. induction l as [|j l IH]; intros t acc Hnd Hl; csimpl in *.
  { by rewrite app_nil_r. }
  apply NoDup_cons in Hnd as [Hj Hnd]. destruct (Hl j) as [Hjt Hjm]; [by left|].
  assert (lease_candidate now owner until (t, acc) j =
    (<[j.(Job_ID) := take_lease now owner until j]> t,
     acc ++ [leased_copy now owner until j])) as ->.
  { unfold lease_candidate. simpl. by rewrite (update_row_hit _ _ _ _ j). }
  rewrite IH; [|done|].
  - rewrite <- app_assoc. done.
  - intros x Hx. rewrite lookup_insert_ne; [apply Hl; by right|].
    intros E. apply Hj. rewrite E. by apply list_elem_of_fmap_2.
Qed.

Lemma wf_ids_NoDup s p t :
  wf s → (∀ id j, t !! id = Some j → s.(jobs) !! id = Some j ∨ j.(Job_ID) = id) →
  NoDup (Job_ID <$> select p t).
Proof.
  intros Hwf Ht. assert (NoDup (Job_ID <$> range_vals t)) as Hnd.
  { unfold range_vals. rewrite <- list_fmap_compose.
    rewrite (list_fmap_ext _ fst); [apply range_keys_NoDup|].
    intros i [id j] Hi. simpl. apply list_elem_of_lookup_2, elem_of_range in Hi.
    destruct (Ht _ _ Hi) as [Hj|]; [by eapply wf_lookup|done]. }
  unfold select. revert Hnd. induction (range_vals t) as [|j l IH]; csimpl; [done|].
  intros [Hj Hnd]%NoDup_cons. destruct (p j); [|by apply IH]. csimpl.
  apply NoDup_cons. split; [|by apply IH].
  rewrite list_elem_of_fmap. intros (x & E & Hx). apply Hj. rewrite E.
  apply list_elem_of_fmap_2. rewrite list_elem_of_In, filter_In in Hx.
  apply list_elem_of_In, Hx.
Qed.

Lemma reaped_ids s now id j :
  wf s → reaped now s.(jobs) !! id = Some j → j.(Job_ID) = id.
Proof.
  intros Hwf. rewrite lookup_reaped. destruct (jobs s !! id) as [x|] eqn:Hx; [|done].
  simpl. intros [= <-]. rewrite <- (wf_lookup _ _ _ Hwf Hx). by destruct (spent now (ajob_of x)).
Qed.

Lemma candidates_ids_NoDup now owner limit s :
  wf s → NoDup (Job_ID <$> candidates now owner limit s).
Proof.
  intros Hwf. unfold candidates, LIMIT. rewrite fmap_take. apply NoDup_take.
  rewrite sort_slice_perm. apply (wf_ids_NoDup s); [done|].
  intros id j Hj. right. by eapply reaped_ids.
Qed.

Lemma elem_of_candidates now owner limit s j :
  j ∈ candidates now owner limit s →
  ready now owner j = true ∧ ∃ id, s.(jobs) !! id = Some j.
Proof.
  unfold candidates, LIMIT. intros Hj.
  assert (j ∈ sort_slice lease_order (select (ready now owner) (reaped now s.(jobs)))) as H.
  { rewrite <- (take_drop (Z.to_nat (if limit <=? 0 then 1 else limit)) (sort_slice _ _)).
    apply elem_of_app. by left. }
  rewrite elem_of_sort_slice, elem_of_select in H. destruct H as [[id Hid] Hr].
  split; [done|]. exists id. by eapply reaped_ready.
Qed.

Lemma Lease_eq now owner limit lease s :
  wf s →
  Lease now owner limit lease s =
  (s <| jobs := foldl (fun t j => <[j.(Job_ID) := j]> t) (reaped now s.(jobs))
        (take_lease now owner (time_add now lease) <$> candidates now owner limit s) |>,
   Ok (leased_copy now owner (time_add now lease) <$> candidates now owner limit s)).
Proof.
  intros Hwf. unfold Lease.
  change (update_where _ (reap_row now) s.(jobs)) with (reaped now s.(jobs)).
  change (LIMIT _ (sort_slice _ (select _ (reaped now s.(jobs))))) with
    (candidates now owner limit s).
  rewrite lease_candidates; [done|by apply candidates_ids_NoDup|].
  intros j Hj. apply elem_of_candidates in Hj as [Hr [id Hid]].
  rewrite (wf_lookup _ _ _ Hwf Hid). split; [by eapply ready_reaped|].
  unfold ready in Hr. by bool_to_prop.
Qed.

Lemma lookup_Lease now owner limit lease s id :
  wf s →
  (Lease now owner limit lease s).1.(jobs) !! id =
  (fun j => if bool_decide (id ∈ Job_ID <$> candidates now owner limit s)
            then take_lease now owner (time_add now lease) j
            else if spent now (ajob_of j) then reap_row now j else j) <$> s.(jobs) !! id.
Proof.
  intros Hwf. rewrite Lease_eq by done. simpl.
  pose proof (candidates_ids_NoDup now owner limit s Hwf) as Hnd.
  set (until := time_add now lease).
  assert (Job_ID <$> (take_lease now owner until <$> candidates now owner limit s) =
    Job_ID <$> candidates now owner limit s) as Hids by by rewrite <- list_fmap_compose.
  destruct (lookup_foldl_insert Job_ID
    (take_lease now owner until <$> candidates now owner limit s)
    (reaped now s.(jobs)) id) as [Hin Hout]; [by rewrite Hids|].
  case_bool_decide as Hid.
  - rewrite list_elem_of_fmap in Hid. destruct Hid as (j & -> & Hj).
    rewrite (Hin (take_lease now owner until j))
      by (done || by apply list_elem_of_fmap; exists j).
    apply elem_of_candidates in Hj as [_ [id Hj]].
    by rewrite (wf_lookup _ _ _ Hwf Hj), Hj.
  - rewrite Hids in Hout. rewrite (Hout Hid). by rewrite lookup_reaped.
Qed.

Lemma candidate_available now owner limit s id j :
  wf s → s.(jobs) !! id = Some j → id ∈ Job_ID <$> candidates now owner limit s →
  available now owner (ajob_of j) = true.
Proof.
  intros Hwf Hj (x & -> & Hx)%list_elem_of_fmap.
  apply elem_of_candidates in Hx as [Hr [i Hi]].
  rewrite (wf_lookup _ _ _ Hwf Hi) in Hj. simplify_eq. by rewrite <- ready_of.
Qed.

Lemma view_Lease now owner limit lease s :
  wf s →
  view (Lease now owner limit lease s).1 =
  lease_effect now owner (time_add now lease)
    (Job_ID <$> candidates now owner limit s) (view s).
Proof.
  intros Hwf. apply map_eq. intros id. unfold view.
  rewrite lookup_lease_effect, !lookup_jobs_view, lookup_Lease by done.
  destruct (s.(jobs) !! id) as [j|] eqn:Hj; [|done]. simpl. f_equal.
  case_bool_decide as Hid; [done|]. unfold bury. by destruct (spent now (ajob_of j)).
Qed.

#[export] Instance lease_order_weak : StrictWeak lease_order.
Proof.
  unfold lease_order. split.
  - intros x y. destruct (Z.eqb_spec (Job_Priority x) (Job_Priority y)) as [E|E].
    + rewrite <- E, Z.eqb_refl, Z.ltb_lt, Z.ltb_ge. lia.
    + destruct (Z.eqb_spec (Job_Priority y) (Job_Priority x)); [lia|].
      rewrite Z.ltb_lt, Z.ltb_ge. lia.
  - intros x y z.
    destruct (Z.eqb_spec (Job_Priority x) (Job_Priority y)),
      (Z.eqb_spec (Job_Priority y) (Job_Priority z)),
      (Z.eqb_spec (Job_Priority x) (Job_Priority z)); rewrite ?Z.ltb_ge; lia.
Qed.

(** What a [LIMIT] leaves out comes no earlier in the order. *)
Lemma candidates_best now owner limit s id j :
  s.(jobs) !! id = Some j → ready now owner j = true → j ∉ candidates now owner limit s →
  length (candidates now owner limit s) = Z.to_nat (if limit <=? 0 then 1 else limit) ∧
  ∀ x, x ∈ candidates now owner limit s → lease_order j x = false.
Proof.
  intros Hj Hr. unfold candidates, LIMIT. set (n := Z.to_nat _). set (l := sort_slice _ _).
  assert (j ∈ l) as Hjl.
  { apply elem_of_sort_slice, elem_of_select. split; [|done].
    exists id. by eapply ready_reaped. }
  rewrite <- (take_drop n l), elem_of_app in Hjl. intros Hn.
  destruct Hjl as [Hjl|Hjl]; [done|]. split.
  - rewrite length_take. destruct (decide (n < length l)%nat); [lia|].
    rewrite drop_ge in Hjl by lia. by apply not_elem_of_nil in Hjl.
  - intros x Hx. change (not_after lease_order x j).
    eapply StronglySorted_take_drop; [|exact Hx|exact Hjl]. apply sort_slice_sorted, _.
Qed.

Lemma Lease_step now owner limit lease s js s' :
  wf s → Lease now owner limit lease s = (s', Ok js) →
  qstep now (Leased owner (time_add now lease) (Job_ID <$> js)) (view s) (view s') ∧
  zlen js ≤ (if limit <=? 0 then 1 else limit).
Proof.
  intros Hwf E.
  assert (Job_ID <$> js = Job_ID <$> candidates now owner limit s ∧
          view s' = view (Lease now owner limit lease s).1) as [Hids ->].
  { rewrite E. split; [|done]. rewrite Lease_eq in E by done. simplify_eq.
    by rewrite <- list_fmap_compose. }
  assert (length js = length (candidates now owner limit s)) as Hlen.
  { rewrite <- (length_fmap Job_ID js), Hids. apply length_fmap. }
  rewrite view_Lease, Hids by done. split.
  2: { unfold zlen. rewrite Hlen. unfold candidates, LIMIT. rewrite length_take.
       destruct (Z.leb_spec limit 0); lia. }
  apply (step_lease now owner _ (Z.to_nat (if limit <=? 0 then 1 else limit))).
  - by apply candidates_ids_NoDup.
  - rewrite length_fmap. unfold candidates, LIMIT. rewrite length_take. lia.
  - intros id Hid. pose proof Hid as (j & -> & Hj)%list_elem_of_fmap.
    apply elem_of_candidates in Hj as [Hr [i Hi]].
    rewrite (wf_lookup _ _ _ Hwf Hi) in *. exists (ajob_of j).
    unfold view. by rewrite lookup_jobs_view, Hi, <- ready_of.
  - intros id b Hb Hav Hid. apply jobs_view_Some in Hb as (j & Hj & <-).
    rewrite <- ready_of in Hav. rewrite length_fmap.
    destruct (candidates_best now owner limit s id j Hj Hav) as [Hl Hbest].
    { intros Hc. apply Hid. apply list_elem_of_fmap. exists j. split; [|done].
      symmetry. by eapply wf_lookup. }
    split; [done|]. intros id' a (x & -> & Hx)%list_elem_of_fmap Ha.
    apply jobs_view_Some in Ha as (y & Hy & <-).
    pose proof (elem_of_candidates _ _ _ _ _ Hx) as [_ [i Hi]].
    rewrite (wf_lookup _ _ _ Hwf Hi) in Hy. simplify_eq.
    change (lease_order j y = false). by apply Hbest.
Qed.

Lemma Lease_ok now owner limit lease s :
  wf s → ∃ s' js, Lease now owner limit lease s = (s', Ok js).
Proof. intros Hwf. rewrite Lease_eq by done. eauto. Qed.

Lemma Lease_wf now owner limit lease s : wf s → wf (Lease now owner limit lease s).1.
Proof.
  intros Hwf. destruct (Lease_ok now owner limit lease s Hwf) as (s' & js & E).
  destruct (Lease_step _ _ _ _ _ _ _ Hwf E) as [Hst _]. rewrite E.
  eapply wf_step; [done|exact Hst|].
  intros id j'. pose proof (lookup_Lease now owner limit lease s id Hwf) as HL.
  rewrite E in HL. simpl in *. rewrite HL.
  destruct (s.(jobs) !! id) as [j|] eqn:Hj; [|done]. simpl. intros [= <-].
  destruct (proj1 Hwf _ _ Hj) as [H1 H2 H3].
  case_bool_decide; [|destruct (spent now (ajob_of j)); [|done]];
    split; simpl; (done || set_solver).
Qed.

(** ** [Enqueue] *)

Lemma prepare_job_eq now token j :
  prepare_job now token j =
  mkJob (if j.(Job_ID) ≟ "" then newID "job" token else j.(Job_ID))
    j.(Job_Kind) j.(Job_Target) j.(Job_Payload)
    (if j.(Job_Status) ≟ "" then JobQueued else j.(Job_Status))
    j.(Job_Priority) j.(Job_Attempts)
    (if j.(Job_MaxAttempts) <=? 0 then 5 else j.(Job_MaxAttempts))
    (if IsZero j.(Job_NotBefore) then now else j.(Job_NotBefore))
    j.(Job_Affinity) j.(Job_LeaseOwner) j.(Job_LeaseUntil) now now j.(Job_LastError).
Proof.
  destruct j as [i k t p st pr at_ mx nb af ow un cr up le]; unfold prepare_job; simpl.
  destruct (bool_decide (i = "")); simpl; destruct (bool_decide (st = "")); simpl;
    destruct (mx <=? 0); simpl; destruct (IsZero nb); done.
Qed.

(** A job ready to be inserted: what [prepare_job] makes of a request. *)
Record insertable (j : Job) : Prop := {
  ins_status : j.(Job_Status) = JobQueued;
  ins_attempts : j.(Job_Attempts) = 0;
  ins_max : 0 < j.(Job_MaxAttempts) ≤ max_int64
}.

Lemma prepare_job_insertable now token j :
  job_request j → insertable (prepare_job now token j).
Proof.
  intros [Hs Ha Hm Ho]. rewrite prepare_job_eq. split; simpl; [|done|].
  - destruct Hs as [->| ->]; done.
  - destruct (Z.leb_spec (Job_MaxAttempts j) 0); unfold max_int64, two63 in *; lia.
Qed.

Lemma find_active_Some j s x :
  find_active j s = Some x →
  (∃ id, s.(jobs) !! id = Some x) ∧ status_active x = true ∧
  a_key (ajob_of x) = a_key (ajob_of j).
Proof.
  unfold find_active, LIMIT. set (l := sort_slice _ _). intros Hh.
  assert (x ∈ l) as Hx.
  { destruct l as [|y l']; [done|]. simpl in Hh. simplify_eq. by left. }
  unfold l in Hx. rewrite elem_of_sort_slice, elem_of_select in Hx.
  destruct Hx as [Hx Hp]. bool_to_prop. unfold a_key; simpl. by split_and!; [..|congruence].
Qed.

Lemma find_active_None j s x id :
  find_active j s = None → s.(jobs) !! id = Some x → status_active x = true →
  a_key (ajob_of x) ≠ a_key (ajob_of j).
Proof.
  unfold find_active, LIMIT. intros Hf Hx Ha Hk.
  match type of Hf with head (take _ ?l) = None => assert (x ∈ l) as Hin end.
  { apply elem_of_sort_slice, elem_of_select. split; [by exists id|].
    unfold a_key in Hk; simpl in Hk. injection Hk as -> -> ->.
    by rewrite !bool_decide_eq_true_2 by done. }
  match type of Hf with head (take _ ?l) = None => destruct l end; [|done].
  by apply not_elem_of_nil in Hin.
Qed.

Lemma violates_false j s :
  wf s → status_active j = true →
  violates_active_index j s = false ↔
  ∀ id x, s.(jobs) !! id = Some x → id ≠ j.(Job_ID) → status_active x = true →
    a_key (ajob_of x) ≠ a_key (ajob_of j).
Proof.
  intros Hwf Ha. unfold violates_active_index. rewrite Ha. simpl.
  rewrite <- not_true_iff_false, existsb_exists. split.
  - intros H id x Hx Hid Hax Hk. apply H. exists x. split.
    + apply list_elem_of_In, elem_of_range_vals. by exists id.
    + unfold a_key in Hk; simpl in Hk. injection Hk as -> -> ->.
      rewrite (wf_lookup _ _ _ Hwf Hx), Hax.
      rewrite (bool_decide_eq_false_2 (id = _)) by done.
      by rewrite !bool_decide_eq_true_2 by done.
  - intros H (x & Hx & Hb). rewrite <- list_elem_of_In, elem_of_range_vals in Hx.
    destruct Hx as [id Hx]. bool_to_prop.
    apply (H id x Hx); [|done|].
    + rewrite <- (wf_lookup _ _ _ Hwf Hx). done.
    + unfold a_key; simpl. congruence.
Qed.

Lemma no_active_twin_of j s :
  wf s → s.(jobs) !! j.(Job_ID) = None → status_active j = true →
  violates_active_index j s = false → no_active_twin (ajob_of j) (view s).
Proof.
  intros Hwf Hn Ha Hv id b Hb Hact. apply jobs_view_Some in Hb as (x & Hx & <-).
  rewrite is_active_of in Hact. eapply violates_false; [done..| |done]. intros ->. congruence.
Qed.

(** The [INSERT] never files a second active job of the same key, whatever was
    read before it. *)
Lemma EnqueueInsert_new now j s s' j' :
  wf s → insertable j → EnqueueInsert j s = (s', Ok (j', true)) →
  wf s' ∧ qstep now (Enqueued j.(Job_ID)) (view s) (view s') ∧
  s'.(jobs) !! j.(Job_ID) = Some (job_row j) ∧ j' = j.
Proof.
  intros Hwf [Hs Ha Hm]. unfold EnqueueInsert.
  destruct (_ || _) eqn:Hc.
  { destruct (find_active j s) as [x|]; [|done]. unfold existing_job.
    by destruct (GetJob _ s). }
  intros E. simplify_eq. apply orb_false_iff in Hc as [Hn Hv].
  apply bool_decide_eq_false in Hn. apply eq_None_not_Some in Hn.
  assert (status_active (job_row j') = true) as Hact.
  { unfold status_active. simpl. by rewrite Hs. }
  pose proof (no_active_twin_of (job_row j') s Hwf Hn Hact Hv) as Ht.
  assert (qstep now (Enqueued j'.(Job_ID)) (view s)
    (jobs_view (<[j'.(Job_ID) := job_row j']> s.(jobs)))) as Hst.
  { rewrite jobs_view_insert. apply step_enqueue; simpl; try lia; [| |done].
    - unfold view. by rewrite lookup_jobs_view, Hn.
    - unfold state_of; simpl. by rewrite Hs. }
  split_and!; [|done|by simpl; rewrite lookup_insert_eq|done].
  eapply wf_step; [done|exact Hst|]. apply map_Forall_insert_2; [|apply Hwf].
  split; simpl; [done| |done]. rewrite Hs. set_solver.
Qed.

(** Otherwise nothing changes, and the job returned is active. *)
Lemma EnqueueInsert_old j s s' r :
  wf s → EnqueueInsert j s = (s', r) → (∀ j', r ≠ Ok (j', true)) →
  s' = s ∧
  ((∃ x, r = Ok (x, false) ∧ s.(jobs) !! x.(Job_ID) = Some x ∧ status_active x = true ∧
     a_key (ajob_of x) = a_key (ajob_of j)) ∨ r = Err ErrUnique).
Proof.
  intros Hwf. unfold EnqueueInsert.
  destruct (_ || _); [|intros E Hr; simplify_eq; by destruct (Hr j)].
  destruct (find_active j s) as [x|] eqn:Hf; intros E Hr; simplify_eq; [|by split; [|right]].
  split; [done|]. left. apply find_active_Some in Hf as ([id Hx] & Ha & Hk).
  pose proof (wf_lookup _ _ _ Hwf Hx) as Hid. rewrite <- Hid in Hx.
  exists x. split_and!; try done. unfold existing_job, GetJob. by rewrite Hx.
Qed.

Lemma Enqueue_find now token j s x :
  wf s → find_active (prepare_job now token j) s = Some x →
  Enqueue now token j s = (s, Ok (x, false)) ∧ s.(jobs) !! x.(Job_ID) = Some x ∧
  status_active x = true ∧ a_key (ajob_of x) = a_key (ajob_of j).
Proof.
  intros Hwf Hf. unfold Enqueue. rewrite Hf.
  apply find_active_Some in Hf as ([id Hx] & Ha & Hk).
  rewrite prepare_job_eq in Hk.
  pose proof (wf_lookup _ _ _ Hwf Hx) as Hid. rewrite <- Hid in Hx.
  unfold existing_job, GetJob. by rewrite Hx.
Qed.

(** ** [Complete], [Fail], [RetryJob] *)

Lemma leased_by_true owner j :
  leased_by owner j = true ↔ j.(Job_Status) = JobRunning ∧ j.(Job_LeaseOwner) = owner.
Proof. unfold leased_by. rewrite andb_true_iff, !bool_decide_eq_true. done. Qed.

Lemma Complete_ok now id owner s s' :
  Complete now id owner s = (s', Ok tt) →
  ∃ j, s.(jobs) !! id = Some j ∧ j.(Job_Status) = JobRunning ∧
    j.(Job_LeaseOwner) = owner ∧ s'.(jobs) = <[id := succeed_row now j]> s.(jobs).
Proof.
  unfold Complete. destruct (s.(jobs) !! id) as [j|] eqn:Hj; [|done].
  destruct (leased_by owner j) eqn:Hl; [simpl|done]. intros E.
  exists j. apply leased_by_true in Hl as Hl'. destruct Hl' as [Hs Ho]. split_and!; try done.
  rewrite (update_row_hit _ _ _ _ _ Hj Hl) in E. simpl in E.
  repeat (case_match || case_if); by simplify_eq.
Qed.

Lemma Complete_err now id owner s s' e : Complete now id owner s = (s', Err e) → s' = s.
Proof.
  unfold Complete. destruct (s.(jobs) !! id) as [j|] eqn:Hj; [|naive_solver].
  destruct (leased_by owner j) eqn:Hl; [simpl|naive_solver].
  rewrite (update_row_hit _ _ _ _ _ Hj Hl). simpl. intros E.
  repeat (case_match || case_if); by simplify_eq.
Qed.

Lemma Complete_step now id owner s s' :
  wf s → Complete now id owner s = (s', Ok tt) →
  qstep now (Completed id owner) (view s) (view s') ∧ wf s'.
Proof.
  intros Hwf (j & Hj & Hs & <- & Hm')%Complete_ok. unfold wf, view at 2. rewrite Hm'.
  assert (qstep now (Completed id j.(Job_LeaseOwner)) (view s)
         (jobs_view (<[id := succeed_row now j]> s.(jobs)))) as Hst.
  { rewrite jobs_view_insert.
    change (ajob_of (succeed_row now j)) with ((ajob_of j) <| a_state := Done |>).
    eapply step_complete; [unfold view; by rewrite lookup_jobs_view, Hj|].
    by apply state_of_running. }
  split; [done|]. eapply wf_step; [done..|].
  apply map_Forall_insert_2; [|apply Hwf].
  split; simpl; [by eapply wf_lookup|set_solver|done].
Qed.

Lemma Fail_ok now id owner detail retry s s' :
  Fail now id owner detail retry s = (s', Ok tt) →
  ∃ j, s.(jobs) !! id = Some j ∧ j.(Job_Status) = JobRunning ∧ j.(Job_LeaseOwner) = owner ∧
    s'.(jobs) = <[id := if j.(Job_MaxAttempts) <=? j.(Job_Attempts)
                        then fail_row now JobFailed now detail j
                        else fail_row now JobQueued (time_add now retry) detail j]> s.(jobs).
Proof.
  unfold Fail. destruct (s.(jobs) !! id) as [j|] eqn:Hj; [|done].
  destruct (leased_by owner j) eqn:Hl; [simpl|done]. intros E.
  exists j. apply leased_by_true in Hl as Hl'. destruct Hl' as [Hs Ho]. split_and!; try done.
  destruct (_ <=? _); rewrite (update_row_hit _ _ _ _ _ Hj Hl) in E; simpl in E; by simplify_eq.
Qed.

Lemma Fail_err now id owner detail retry s s' e :
  Fail now id owner detail retry s = (s', Err e) → s' = s.
Proof.
  unfold Fail. intros E. repeat (case_match || case_if); by simplify_eq.
Qed.

Lemma Fail_step now id owner detail retry s s' :
  wf s → Fail now id owner detail retry s = (s', Ok tt) →
  qstep now (Failed id owner) (view s) (view s') ∧ wf s'.
Proof.
  intros Hwf (j & Hj & Hs & <- & Hm')%Fail_ok. unfold wf, view at 2. rewrite Hm'.
  match goal with |- context [<[id := ?x]> _] => set (j' := x) end.
  assert (qstep now (Failed id (Job_LeaseOwner j)) (view s)
    (jobs_view (<[id := j']> s.(jobs)))) as Hq.
  { rewrite jobs_view_insert.
    eapply (step_fail now id _ _ (ajob_of j) (ajob_of j') retry);
      [unfold view; by rewrite lookup_jobs_view, Hj|by apply state_of_running|].
    unfold give_back, j'; simpl.
    destruct (Z.leb_spec (Job_MaxAttempts j) (Job_Attempts j)); [right|by left].
    split; [done|]. unfold same_but_not_before. done. }
  split; [done|]. eapply wf_step; [done..|]. apply map_Forall_insert_2; [|apply Hwf].
  pose proof (wf_lookup _ _ _ Hwf Hj) as Hid.
  unfold j'. destruct (_ <=? _); split; simpl; (done || set_solver).
Qed.

Lemma RetryJob_step now1 now2 id s s' :
  wf s → RetryJob now1 now2 id s = (s', Ok tt) →
  qstep now1 (Retried id) (view s) (view s') ∧ wf s'.
Proof.
  intros Hwf. unfold RetryJob. destruct (s.(jobs) !! id) as [j|] eqn:Hj; [|done].
  destruct (bool_decide_reflect (Job_Status j = "failed")) as [Hst|]; [|done].
  match goal with |- context [violates_active_index ?x s] => set (j' := x) end.
  destruct (violates_active_index j' s) eqn:Hv; [done|]. intros E. simplify_eq.
  pose proof (wf_lookup _ _ _ Hwf Hj) as Hid.
  assert (qstep now1 (Retried id) (view s) (jobs_view (<[id := j']> s.(jobs)))) as Hq.
  { rewrite jobs_view_insert. change (ajob_of j') with
      ((ajob_of j) <| a_state := Waiting |> <| a_attempts := 0 |> <| a_not_before := now1 |>).
    apply step_retry; [unfold view; by rewrite lookup_jobs_view, Hj| |].
    { simpl. unfold state_of. by rewrite Hst. }
    intros i b Hb Hact. apply jobs_view_Some in Hb as (x & Hx & <-).
    rewrite is_active_of in Hact. apply (violates_false j' s) with (id := i); try done.
    intros ->. simpl in Hx. rewrite Hid in Hx. simplify_eq. by rewrite Hst in Hact. }
  split; [done|]. eapply wf_step; [done..|]. apply map_Forall_insert_2; [|apply Hwf].
  split; simpl; [done|set_solver|done].
Qed.
End SqlJobs.
End SqlJobs.
