(* ===== verification/SqlQueue.v ===== *)
(** * The production queue: what the control plane can count on

    [SQLStore] as a [JobStore], and the theorems about its job methods: leases
    are exclusive, attempts are bounded, the best jobs go first, enqueueing is
    idempotent under concurrent schedulers, and completing a restore job
    executes its approval. *)

From Stdlib Require Import QArith.
From S2P Require Import Prelude GoStd Json Sha256 Model Payloads QueueSpec SqlStore SqlJobs.
#[global] Open Scope Z_scope.

Module SqlQueue.
Import Sql SqlJobs.

Section SqlQueue.
Context {MO : MapOrder}.
Implicit Types (s : SQLStore) (now t : Time) (j : Job).

Definition exec (now : Time) (c : job_call) (s : SQLStore) : SQLStore * list event :=
  match c with
  | CallEnqueue token j =>
      match Enqueue now token j s with
      | (s', Ok (j', true)) => (s', [Enqueued j'.(Job_ID)])
      | (s', _) => (s', [])
      end
  | CallLease owner limit lease =>
      match Lease now owner limit lease s with
      | (s', Ok js) => (s', [Leased owner (time_add now lease) (Job_ID <$> js)])
      | (s', _) => (s', [])
      end
  | CallComplete id owner _ =>
      match Complete now id owner s with
      | (s', Ok _) => (s', [Completed id owner])
      | (s', _) => (s', [])
      end
  | CallFail id owner detail retry =>
      match Fail now id owner detail retry s with
      | (s', Ok _) => (s', [Failed id owner])
      | (s', _) => (s', [])
      end
  | CallRetry id later =>
      match RetryJob now later id s with
      | (s', Ok _) => (s', [Retried id])
      | (s', _) => (s', [])
      end
  end.

(** The only demand on callers: submitted jobs have not run yet. *)
Definition call_ok (c : job_call) (_ : SQLStore) : Prop :=
  match c with CallEnqueue _ j => job_request j | _ => True end.

Lemma step_run now e q q' : qstep now e q q' → qrun q (stamp now [e]) q'.
Proof. intros H. econstructor; [exact H|constructor]. Qed.

Lemma no_step_run now q : qrun q (stamp now []) q.
Proof. constructor. Qed.

Lemma exec_refines now c s s' evs :
  wf s → call_ok c s → exec now c s = (s', evs) →
  wf s' ∧ qrun (view s) (stamp now evs) (view s').
Proof.
  intros Hwf Hok. destruct c as [token j|owner limit lease|id owner later|id owner d r|id later];
    simpl in *.
  - unfold Enqueue. pose proof (prepare_job_insertable now token j Hok) as Hins.
    destruct (find_active _ s) as [x|].
    { unfold existing_job. destruct (GetJob _ s); intros E; simplify_eq;
        (split; [done|apply no_step_run]). }
    destruct (EnqueueInsert _ s) as [s1 r] eqn:E.
    destruct r as [[j' [|]]|e]; intros E'; simplify_eq.
    + destruct (EnqueueInsert_new now _ _ _ _ Hwf Hins E) as (? & Hst & _ & ->).
      split; [done|by apply step_run].
    + apply EnqueueInsert_old in E as [-> _]; [split; [done|apply no_step_run]|done..].
    + apply EnqueueInsert_old in E as [-> _]; [split; [done|apply no_step_run]|done..].
  - destruct (Lease_ok now owner limit lease s Hwf) as (s1 & js & E). rewrite E.
    intros E'; simplify_eq. destruct (Lease_step _ _ _ _ _ _ _ Hwf E) as [Hst _].
    split; [|by apply step_run]. pose proof (Lease_wf now owner limit lease s Hwf) as H.
    by rewrite E in H.
  - destruct (Complete now id owner s) as [s1 [[]|e]] eqn:E; intros E'; simplify_eq.
    + apply Complete_step in E as [? ?]; [|done]. by split; [|apply step_run].
    + apply Complete_err in E as ->. split; [done|apply no_step_run].
  - destruct (Fail now id owner d r s) as [s1 [[]|e]] eqn:E; intros E'; simplify_eq.
    + apply Fail_step in E as [? ?]; [|done]. by split; [|apply step_run].
    + apply Fail_err in E as ->. split; [done|apply no_step_run].
  - destruct (RetryJob now later id s) as [s1 [[]|e]] eqn:E; intros E'; simplify_eq.
    + apply RetryJob_step in E as [? ?]; [|done]. by split; [|apply step_run].
    + unfold RetryJob in E. repeat (case_match || case_if); simplify_eq;
        (split; [done|apply no_step_run]).
Qed.

#[export] Instance sql_job_store : JobStore SQLStore := {
  js_view := view; js_wf := wf; js_ok := call_ok; js_exec := exec;
  js_wf_inv s := fun H : wf s => proj2 H;
  js_refines := exec_refines
}.

(** ** Lemmas for the theorems *)

Lemma wf_empty : wf empty_store.
Proof. apply jobs_wf_empty. Qed.

Lemma leased_copy_of now owner until j :
  0 ≤ j.(Job_Attempts) < j.(Job_MaxAttempts) → j.(Job_MaxAttempts) ≤ max_int64 →
  leased_copy now owner until j = take_lease now owner until j.
Proof.
  intros Ha Hm. unfold leased_copy, take_lease. simpl. rewrite wrap64_id; [done|].
  unfold in_int64, min_int64, max_int64, two63 in *. lia.
Qed.

(** The jobs a [Lease] returns are the rows it wrote. *)
Lemma Lease_returned now owner limit lease s s' js j :
  wf s → Lease now owner limit lease s = (s', Ok js) → j ∈ js →
  ∃ x, s.(jobs) !! j.(Job_ID) = Some x ∧ ready now owner x = true ∧
    x ∈ candidates now owner limit s ∧
    j = take_lease now owner (time_add now lease) x ∧ s'.(jobs) !! j.(Job_ID) = Some j.
Proof.
  intros Hwf E Hj. pose proof (Lease_eq now owner limit lease s Hwf) as E'.
  rewrite E in E'. injection E' as Hs' Hjs. rewrite Hjs in Hj.
  apply list_elem_of_fmap in Hj as (x & -> & Hx).
  pose proof (elem_of_candidates _ _ _ _ _ Hx) as [Hr [id Hid]].
  pose proof (wf_lookup _ _ _ Hwf Hid) as Hxi. rewrite <- Hxi in Hid.
  destruct (wf_job_inv _ _ _ Hwf Hid) as (H1 & H2 & _). simpl in *.
  pose proof Hr as Ha. rewrite ready_of in Ha. apply available_attempts in Ha. simpl in Ha.
  rewrite leased_copy_of by lia. exists x. split_and!; try done.
  pose proof (lookup_Lease now owner limit lease s x.(Job_ID) Hwf) as HL.
  rewrite E in HL. simpl in HL. simpl. rewrite HL, Hid. simpl.
  rewrite bool_decide_eq_true_2; [done|]. by apply list_elem_of_fmap_2.
Qed.

(** A lease call never hands out a job that is held past its time. *)
Lemma Lease_not_held now owner limit lease s s' js id j :
  wf s → Lease now owner limit lease s = (s', Ok js) → s.(jobs) !! id = Some j →
  j.(Job_Status) = JobRunning → now < j.(Job_LeaseUntil) → id ∉ Job_ID <$> js.
Proof.
  intros Hwf E Hj Hs Ht (y & -> & Hy)%list_elem_of_fmap.
  destruct (Lease_returned _ _ _ _ _ _ _ _ Hwf E Hy) as (x & Hx & Hr & _). simplify_eq.
  rewrite ready_of, available_of, lapsed_of, Hs in Hr. unfold After in Hr.
  rewrite (proj2 (Z.ltb_lt _ _) Ht) in Hr. simpl in Hr. by rewrite !andb_false_r in Hr.
Qed.

Lemma EnqueueInsert_spec p s s' r :
  insertable p → wf s → EnqueueInsert p s = (s', r) →
  wf s' ∧
  match r with
  | Ok (x, true) => x = p ∧ s'.(jobs) !! x.(Job_ID) = Some (job_row x) ∧
      no_active_twin (ajob_of x) (view s)
  | Ok (x, false) => s' = s ∧ s.(jobs) !! x.(Job_ID) = Some x ∧ status_active x = true ∧
      a_key (ajob_of x) = a_key (ajob_of p)
  | Err _ => s' = s ∧ is_Some (s.(jobs) !! p.(Job_ID))
  end.
Proof.
  intros Hins Hwf E. destruct r as [[x [|]]|e].
  - destruct (EnqueueInsert_new 0 _ _ _ _ Hwf Hins E) as (Hwf' & Hst & Hx & ->).
    split_and!; [done..|].
    revert E. unfold EnqueueInsert. destruct (_ || _) eqn:Hc.
    { destruct (find_active p s); [|done]. unfold existing_job. by destruct (GetJob _ s). }
    intros _. apply orb_false_iff in Hc as [Hn Hv].
    apply bool_decide_eq_false in Hn. apply eq_None_not_Some in Hn.
    assert (status_active (job_row p) = true) as Ha.
    { unfold status_active, job_row; simpl. by rewrite (ins_status _ Hins). }
    exact (no_active_twin_of (job_row p) s Hwf Hn Ha Hv).
  - destruct (EnqueueInsert_old _ _ _ _ Hwf E) as [-> [(y & Hy & H1 & H2 & H3)|?]]; [done| |done].
    injection Hy as ->. by split_and!.
  - destruct (EnqueueInsert_old _ _ _ _ Hwf E) as [-> [(y & Hy & _)|_]]; [done|done|].
    split_and!; [done..|].
    revert E. unfold EnqueueInsert. destruct (_ || _) eqn:Hc; [|done].
    destruct (find_active p s) as [y|] eqn:Hf.
    { apply find_active_Some in Hf as ([i Hi] & _). unfold existing_job, GetJob.
      rewrite (wf_lookup _ _ _ Hwf Hi), Hi. done. }
    intros _. apply orb_true_iff in Hc as [Hc|Hc]; [by apply bool_decide_eq_true in Hc|].
    exfalso. unfold violates_active_index in Hc. bool_to_prop.
    match goal with H : existsb _ _ = true |- _ => apply existsb_exists in H as (y & Hy & Hb) end.
    rewrite <- list_elem_of_In, elem_of_range_vals in Hy. destruct Hy as [i Hy].
    bool_to_prop. apply (find_active_None p s y i Hf Hy); [done|].
    unfold a_key; simpl in *. congruence.
Qed.

(** ** Theorems *)

(** C1. A lease is exclusive until its deadline.  After [Lease] hands job [j] to
    [owner], whatever calls other schedulers, workers and handlers make before
    the deadline, as long as [owner] itself has not completed or failed the job,
    the stored job is still [owner]'s and no [Lease] call by anyone before the
    deadline hands it out again. *)
Theorem lease_exclusive s s1 s2 s3 t owner limit lease js j calls tr t' owner' limit' lease' js' :
  wf s → Lease t owner limit lease s = (s1, Ok js) → j ∈ js →
  history s1 calls tr s2 → Forall (fun c => c.1 < time_add t lease) calls →
  existsb (fun te => concludes j.(Job_ID) owner te.2) tr = false →
  t' < time_add t lease → Lease t' owner' limit' lease' s2 = (s3, Ok js') →
  view s2 !! j.(Job_ID) = Some (ajob_of j) ∧ j.(Job_ID) ∉ Job_ID <$> js'.
Proof.
  intros Hwf E Hj Hh Ht Hc Ht' E'.
  destruct (Lease_returned _ _ _ _ _ _ _ _ Hwf E Hj) as (x & _ & _ & _ & Hjx & Hs1).
  assert (wf s1) as Hwf1.
  { pose proof (Lease_wf t owner limit lease s Hwf) as H. by rewrite E in H. }
  assert (view s1 !! j.(Job_ID) = Some (ajob_of j)) as Hv1.
  { unfold view. by rewrite lookup_jobs_view, Hs1. }
  assert (view s2 !! j.(Job_ID) = Some (ajob_of j)) as Hv2.
  { assert ((ajob_of j).(a_state) = Held owner (time_add t lease)) as Hst by by rewrite Hjx.
    exact (history_held s1 calls tr s2 _ _ _ _ Hwf1 Hh Hv1 Hst Ht Hc). }
  split; [done|]. destruct (history_refines _ _ _ _ Hh Hwf1) as [Hwf2 _].
  apply jobs_view_Some in Hv2 as (y & Hy & Hyj).
  assert (state_of y = Held owner (time_add t lease)) as Hst.
  { change (state_of y) with ((ajob_of y).(a_state)). by rewrite Hyj, Hjx. }
  apply state_of_held in Hst as (Hs & _ & Hu).
  eapply Lease_not_held; [exact Hwf2|exact E'|exact Hy|done|by rewrite Hu].
Qed.

(** C2. [Lease] returns the right jobs: distinct, at most the limit (one when
    the limit is not positive), each one queued or lapsed, due, with attempts
    left and open to this owner, now stored as running for [owner] until the
    deadline with one more attempt; and a leasable job it passes over was cut
    off by the limit and comes no earlier in (priority, age) order than any job
    returned. *)
Theorem lease_selects_best now owner limit lease s s' js :
  wf s → Lease now owner limit lease s = (s', Ok js) →
  NoDup (Job_ID <$> js) ∧ zlen js ≤ (if limit <=? 0 then 1 else limit) ∧
  (∀ j, j ∈ js → ∃ x, s.(jobs) !! j.(Job_ID) = Some x ∧
     available now owner (ajob_of x) = true ∧
     j = take_lease now owner (time_add now lease) x ∧ s'.(jobs) !! j.(Job_ID) = Some j) ∧
  (∀ id y, s.(jobs) !! id = Some y → available now owner (ajob_of y) = true →
     id ∉ Job_ID <$> js →
     zlen js = (if limit <=? 0 then 1 else limit) ∧
     ∀ j, j ∈ js → lease_order y j = false).
Proof.
  intros Hwf E. pose proof (Lease_eq now owner limit lease s Hwf) as E'.
  rewrite E in E'. injection E' as _ Hjs.
  assert (Job_ID <$> js = Job_ID <$> candidates now owner limit s) as Hids.
  { rewrite Hjs. by rewrite <- list_fmap_compose. }
  destruct (Lease_step _ _ _ _ _ _ _ Hwf E) as [_ Hlen].
  split_and!; [by rewrite Hids; apply candidates_ids_NoDup|done| |].
  - intros j Hj. destruct (Lease_returned _ _ _ _ _ _ _ _ Hwf E Hj) as (x & ? & Hr & _ & ? & ?).
    exists x. by rewrite <- ready_of.
  - intros id y Hy Hav Hid. rewrite <- ready_of in Hav.
    destruct (candidates_best now owner limit s id y Hy Hav) as [Hn Hbest].
    { intros Hc. apply Hid. rewrite Hids. apply list_elem_of_fmap. exists y.
      split; [|done]. symmetry. by eapply wf_lookup. }
    split.
    + rewrite Hjs. unfold zlen. rewrite length_fmap, Hn. destruct (Z.leb_spec limit 0); lia.
    + intros j Hj. rewrite Hjs in Hj. apply list_elem_of_fmap in Hj as (x & -> & Hx).
      change (lease_order y x = false). by apply Hbest.
Qed.

(** C3. Attempts are bounded: along any history, a job is leased, counting the
    attempts it already had, at most [max_attempts] times unless an operator
    retries it; its kind, target, affinity, payload and priority never change. *)
Theorem attempts_bounded s calls tr s' id j :
  wf s → history s calls tr s' → s.(jobs) !! id = Some j →
  existsb (fun te => retries_id id te.2) tr = false →
  ∃ j', s'.(jobs) !! id = Some j' ∧ identity (ajob_of j') = identity (ajob_of j) ∧
    j'.(Job_Attempts) = j.(Job_Attempts) + count_leases id tr ∧
    j.(Job_Attempts) + count_leases id tr ≤ j.(Job_MaxAttempts).
Proof.
  intros Hwf Hh Hj Hr.
  destruct (@history_attempts SQLStore sql_job_store s calls tr s' id (ajob_of j) Hwf Hh) as (b & Hb & Hid & Hat & Hle);
    [|done|].
  { simpl. unfold view. by rewrite lookup_jobs_view, Hj. }
  simpl in Hb. apply jobs_view_Some in Hb as (j' & Hj' & <-). by exists j'.
Qed.

(** C4. [Enqueue] is idempotent under concurrent schedulers: its reads and its
    [INSERT] are separate statements, so let [s] be any state another process
    left at the time of the [INSERT].  The result is consistent: either the job
    is inserted and no active job of the same kind, target and affinity existed,
    or nothing changes and the active twin is returned; an error can only be a
    clash of job ids.  In every case at most one job per key stays active. *)
Theorem enqueue_race now token j s s' r :
  job_request j → wf s → EnqueueInsert (prepare_job now token j) s = (s', r) →
  wf s' ∧ unique_active (view s') ∧
  match r with
  | Ok (x, true) => x = prepare_job now token j ∧ s'.(jobs) !! x.(Job_ID) = Some (job_row x) ∧
      no_active_twin (ajob_of x) (view s)
  | Ok (x, false) => s' = s ∧ s.(jobs) !! x.(Job_ID) = Some x ∧ status_active x = true ∧
      a_key (ajob_of x) = a_key (ajob_of j)
  | Err _ => s' = s ∧ is_Some (s.(jobs) !! (prepare_job now token j).(Job_ID))
  end.
Proof.
  intros Hreq Hwf E.
  destruct (EnqueueInsert_spec _ _ _ _ (prepare_job_insertable now token j Hreq) Hwf E)
    as [Hwf' Hr].
  split; [done|]. split; [apply Hwf'|]. destruct r as [[x [|]]|e]; try done.
  rewrite prepare_job_eq in Hr. exact Hr.
Qed.

(** C5. [Complete] succeeds only for the holder of a running job, and then
    closes the job and, for a restore that names an approval, marks the approval
    executed in the same transaction, which requires it to be scheduled; when it
    fails nothing has changed. *)
Theorem complete_executes_approval now id owner s s' r :
  Complete now id owner s = (s', r) →
  match r with
  | Ok _ => ∃ j, s.(jobs) !! id = Some j ∧ j.(Job_Status) = JobRunning ∧
      j.(Job_LeaseOwner) = owner ∧ s'.(jobs) = <[id := succeed_row now j]> s.(jobs) ∧
      match unmarshal_restore j.(Job_Payload) with
      | Some p =>
          if (j.(Job_Kind) ≟ "restore-generation") && negb (p.(rg_ApprovalID) ≟ "") then
            ∃ a, s.(restore_approvals) !! p.(rg_ApprovalID) = Some a ∧
              a.(Approval_Status) = ApprovalScheduled ∧
              s'.(restore_approvals) = <[p.(rg_ApprovalID) :=
                a <| Approval_Status := ApprovalExecuted |> <| Approval_UpdatedAt := now |>]>
                s.(restore_approvals)
          else s'.(restore_approvals) = s.(restore_approvals)
      | None => s'.(restore_approvals) = s.(restore_approvals)
      end
  | Err _ => s' = s
  end.
Proof.
  intros E. destruct r as [[]|e]; [|by eapply Complete_err].
  pose proof (Complete_ok _ _ _ _ _ E) as (j & Hj & Hs & Ho & Hs').
  exists j. split_and!; try done. revert E. unfold Complete. rewrite Hj.
  assert (leased_by owner j = true) as Hl by (by apply leased_by_true).
  rewrite Hl. rewrite (update_row_hit _ _ _ _ _ Hj Hl). simpl.
  destruct (bool_decide (Job_Kind j = "restore-generation")), (unmarshal_restore _) as [p|];
    simpl; try (intros E; by simplify_eq).
  destruct (bool_decide_reflect (rg_ApprovalID p = "")); simpl; [intros E; by simplify_eq|].
  unfold update_row. destruct (s.(restore_approvals) !! rg_ApprovalID p) as [a|]; [|done].
  destruct (bool_decide_reflect (Approval_Status a = ApprovalScheduled)); [|done].
  simpl. rewrite Hj, Hl. simpl. intros E. simplify_eq. by exists a.
Qed.

(** C6. [Fail] gives the job back: on the final attempt it becomes failed for
    good, otherwise it is queued again and not offered to anyone before the retry
    delay has passed; either way the lease is gone and the error recorded. *)
Theorem fail_backs_off now id owner detail retry s s' :
  wf s → Fail now id owner detail retry s = (s', Ok tt) →
  ∃ j j', s.(jobs) !! id = Some j ∧ s'.(jobs) !! id = Some j' ∧
    leased_by owner j = true ∧ j'.(Job_LeaseOwner) = "" ∧ j'.(Job_LastError) = detail ∧
    (j.(Job_Attempts) = j.(Job_MaxAttempts) → j'.(Job_Status) = JobFailed) ∧
    (j.(Job_Attempts) < j.(Job_MaxAttempts) → j'.(Job_Status) = JobQueued ∧
       ∀ t w, t < time_add now retry → available t w (ajob_of j') = false).
Proof.
  intros Hwf (j & Hj & Hs & Ho & Hs')%Fail_ok.
  destruct (wf_job_inv _ _ _ Hwf Hj) as ([H0 Hle] & _). simpl in Hle.
  assert (leased_by owner j = true) as Hl by (by apply leased_by_true).
  eexists j, _. rewrite Hs', lookup_insert_eq. split; [done|]. split; [done|].
  destruct (Z.leb_spec (Job_MaxAttempts j) (Job_Attempts j)); simpl;
    split_and!; try done; try lia.
  intros _. split; [done|]. intros t w Ht. unfold available, After; simpl.
  rewrite (proj2 (Z.ltb_lt _ _) Ht). simpl. by rewrite andb_false_r.
Qed.

(** C7. The SQL store implements the abstract queue: along every history of
    calls by schedulers, workers and handlers its jobs stay well formed and the
    history is a run of the transition system of QueueSpec.v. *)
Theorem sql_refines_queue s calls tr s' :
  wf s → history s calls tr s' → wf s' ∧ qrun (view s) tr (view s').
Proof. intros Hwf Hh. exact (history_refines s calls tr s' Hh Hwf). Qed.
End SqlQueue.

(** ** The theorems at work on a small store *)

Definition demo_job : Job :=
  zero_Job <| Job_Kind := "backup-repository" |> <| Job_Target := "org/app" |>.
Definition demo1 : SQLStore := (exec 100 (CallEnqueue "a" demo_job) empty_store).1.
Definition demo_id : string := newID "job" "a".
Definition demo2 : SQLStore := (Lease 200 "w1" 5 1000 demo1).1.
Definition demo_leased : list Job :=
  match (Lease 200 "w1" 5 1000 demo1).2 with Ok js => js | Err _ => [] end.
Definition demo_taken : Job := default zero_Job (head demo_leased).

Lemma demo_request : job_request demo_job.
Proof. split; [by left|done|split; done|done]. Qed.

Lemma exec_wf {MO : MapOrder} now c s : wf s → call_ok c s → wf (exec now c s).1.
Proof.
  intros Hwf Hok. destruct (exec now c s) as [s' evs] eqn:E.
  exact (proj1 (exec_refines now c s s' evs Hwf Hok E)).
Qed.

Lemma demo1_wf : wf demo1.
Proof. exact (exec_wf 100 (CallEnqueue "a" demo_job) empty_store wf_empty demo_request). Qed.

Lemma demo_leased_eq : demo_leased = [demo_taken].
Proof. vm_compute. reflexivity. Qed.

Lemma demo2_wf : wf demo2.
Proof. apply Lease_wf, demo1_wf. Qed.

Lemma demo_history s now c s1 e :
  call_ok c s → exec now c s = (s1, [e]) → history s [(now, c)] [(now, e)] s1.
Proof.
  intros Hok E. exact (history_cons now c s s1 [e] [] [] s1 Hok E (history_nil s1)).
Qed.

Lemma lease_exclusive_witness :
  view (exec 300 (CallLease "w2" 5 1000) demo2).1 !! demo_id = Some (ajob_of demo_taken) ∧
  demo_id ∉ Job_ID <$> ([] : list Job).
Proof.
  refine (lease_exclusive demo1 demo2 (exec 300 (CallLease "w2" 5 1000) demo2).1
    (Lease 1100 "w3" 1 1000 (exec 300 (CallLease "w2" 5 1000) demo2).1).1
    200 "w1" 5 1000 demo_leased demo_taken [(300, CallLease "w2" 5 1000)]
    [(300, Leased "w2" 1300 [])] 1100 "w3" 1 1000 [] demo1_wf _ _ _ _ _ _ _).
  - vm_compute. reflexivity.
  - rewrite demo_leased_eq. left.
  - apply (demo_history demo2 300 (CallLease "w2" 5 1000)); [exact I|vm_compute; reflexivity].
  - repeat constructor.
  - vm_compute. reflexivity.
  - reflexivity.
  - vm_compute. reflexivity.
Defined.

Lemma lease_selects_best_witness :
  NoDup (Job_ID <$> demo_leased) ∧ zlen demo_leased ≤ 5 ∧
  (∀ j, j ∈ demo_leased → ∃ x, demo1.(jobs) !! j.(Job_ID) = Some x ∧
     available 200 "w1" (ajob_of x) = true ∧
     j = take_lease 200 "w1" 1200 x ∧ demo2.(jobs) !! j.(Job_ID) = Some j) ∧
  (∀ id y, demo1.(jobs) !! id = Some y → available 200 "w1" (ajob_of y) = true →
     id ∉ Job_ID <$> demo_leased →
     zlen demo_leased = 5 ∧ ∀ j, j ∈ demo_leased → lease_order y j = false).
Proof.
  apply (lease_selects_best 200 "w1" 5 1000 demo1 demo2 demo_leased demo1_wf).
  vm_compute. reflexivity.
Defined.

Definition demo_stored : Job := default zero_Job (demo1.(jobs) !! demo_id).

Lemma attempts_bounded_witness :
  ∃ j', demo2.(jobs) !! demo_id = Some j' ∧ identity (ajob_of j') = identity (ajob_of demo_stored) ∧
    j'.(Job_Attempts) =
      demo_stored.(Job_Attempts) + count_leases demo_id [(200, Leased "w1" 1200 [demo_id])] ∧
    demo_stored.(Job_Attempts) + count_leases demo_id [(200, Leased "w1" 1200 [demo_id])]
      ≤ demo_stored.(Job_MaxAttempts).
Proof.
  apply (attempts_bounded demo1 [(200, CallLease "w1" 5 1000)]
    [(200, Leased "w1" 1200 [demo_id])] demo2 demo_id demo_stored demo1_wf).
  - apply (demo_history demo1 200 (CallLease "w1" 5 1000)); [exact I|vm_compute; reflexivity].
  - vm_compute. reflexivity.
  - reflexivity.
Defined.

Lemma enqueue_race_witness :
  wf demo1 ∧ unique_active (view demo1) ∧
  (demo1 = demo1 ∧ demo1.(jobs) !! demo_stored.(Job_ID) = Some demo_stored ∧
   status_active demo_stored = true ∧
   a_key (ajob_of demo_stored) = a_key (ajob_of demo_job)).
Proof.
  refine (enqueue_race 150 "b" demo_job demo1 demo1 (Ok (demo_stored, false))
    demo_request demo1_wf _).
  vm_compute. reflexivity.
Defined.

(** A restore whose approval has been scheduled. *)
Definition demo_restore_job : Job :=
  zero_Job <| Job_ID := "j" |> <| Job_Kind := "restore-generation" |>
    <| Job_Status := JobRunning |> <| Job_LeaseOwner := "w1" |>
    <| Job_Payload := marshal_restore (mkRestorePayload "org/app" "g1" "/srv" "ap") |>.
Definition demo_approval : RestoreApproval :=
  zero_RestoreApproval <| Approval_ID := "ap" |> <| Approval_Status := ApprovalScheduled |>.
Definition demo3 : SQLStore :=
  empty_store <| jobs := {[ "j" := demo_restore_job ]} |>
    <| restore_approvals := {[ "ap" := demo_approval ]} |>.

Lemma complete_executes_approval_witness :
  ∃ j, demo3.(jobs) !! "j" = Some j ∧ j.(Job_Status) = JobRunning ∧
    j.(Job_LeaseOwner) = "w1" ∧
    (Complete 500 "j" "w1" demo3).1.(jobs) = <["j" := succeed_row 500 j]> demo3.(jobs) ∧
    match unmarshal_restore j.(Job_Payload) with
    | Some p =>
        if (j.(Job_Kind) ≟ "restore-generation") && negb (p.(rg_ApprovalID) ≟ "") then
          ∃ a, demo3.(restore_approvals) !! p.(rg_ApprovalID) = Some a ∧
            a.(Approval_Status) = ApprovalScheduled ∧
            (Complete 500 "j" "w1" demo3).1.(restore_approvals) = <[p.(rg_ApprovalID) :=
              a <| Approval_Status := ApprovalExecuted |> <| Approval_UpdatedAt := 500 |>]>
              demo3.(restore_approvals)
        else (Complete 500 "j" "w1" demo3).1.(restore_approvals) = demo3.(restore_approvals)
    | None => (Complete 500 "j" "w1" demo3).1.(restore_approvals) = demo3.(restore_approvals)
    end.
Proof.
  refine (complete_executes_approval 500 "j" "w1" demo3
    (Complete 500 "j" "w1" demo3).1 (Ok tt) _).
  vm_compute. reflexivity.
Defined.

Lemma fail_backs_off_witness :
  ∃ j j', demo2.(jobs) !! demo_id = Some j ∧
    (Fail 600 demo_id "w1" "boom" 50 demo2).1.(jobs) !! demo_id = Some j' ∧
    leased_by "w1" j = true ∧ j'.(Job_LeaseOwner) = "" ∧ j'.(Job_LastError) = "boom" ∧
    (j.(Job_Attempts) = j.(Job_MaxAttempts) → j'.(Job_Status) = JobFailed) ∧
    (j.(Job_Attempts) < j.(Job_MaxAttempts) → j'.(Job_Status) = JobQueued ∧
       ∀ t w, t < 650 → available t w (ajob_of j') = false).
Proof.
  apply (fail_backs_off 600 demo_id "w1" "boom" 50 demo2 _ demo2_wf).
  vm_compute. reflexivity.
Defined.

Lemma sql_refines_queue_witness :
  wf demo2 ∧ qrun (view demo1) [(200, Leased "w1" 1200 [demo_id])] (view demo2).
Proof.
  apply (sql_refines_queue demo1 [(200, CallLease "w1" 5 1000)]
    [(200, Leased "w1" 1200 [demo_id])] demo2 demo1_wf).
  apply (demo_history demo1 200 (CallLease "w1" 5 1000)); [exact I|vm_compute; reflexivity].
Defined.
End SqlQueue.
