(* ===== verification/Approvals.v ===== *)
(** * Restore approvals

    The life of a [RestoreApproval] under the calls of the restore wizard, the
    command line and the workers (SqlStore.v): requested, approved by a second
    person before it expires, scheduled, executed once. *)

From Stdlib Require Import QArith.
From S2P Require Import Prelude GoStd Json Sha256 Model Payloads SqlStore.
#[global] Open Scope Z_scope.

Module Approvals.
Import Sql.

(** The calls that reach the [restore_approvals] table. *)
Inductive approval_call :=
| ACreate (token : string) (a : RestoreApproval)
| AApprove (id actor : string) (distinct : bool)
| ASchedule (later : Time) (id : string)
| ARelease (id : string)
| AExecute (id : string)
| AComplete (id owner : string).

Definition call (now : Time) (c : approval_call) (s : SQLStore) : SQLStore * result unit :=
  match c with
  | ACreate token a => CreateRestoreApproval now token a s
  | AApprove id actor distinct => ApproveRestore now id actor distinct s
  | ASchedule later id => ScheduleRestore now later id s
  | ARelease id => ReleaseRestoreSchedule now id s
  | AExecute id => MarkRestoreExecuted now id s
  | AComplete id owner => Complete now id owner s
  end.

(** The wizard and the command line submit pending, unapproved requests. *)
Definition submits_pending (c : approval_call) : Prop :=
  match c with
  | ACreate _ a =>
      (a.(Approval_Status) = "" ∨ a.(Approval_Status) = ApprovalPending) ∧
      a.(Approval_ApprovedBy) = ""
  | _ => True
  end.

Definition demands_distinct (c : approval_call) : Prop :=
  match c with AApprove _ _ distinct => distinct = true | _ => True end.

(** ** One approval, one step *)

Inductive moves (now : Time) : approval_call → RestoreApproval → RestoreApproval → Prop :=
| moves_approve id actor distinct a :
    a.(Approval_Status) = ApprovalPending →
    (IsZero a.(Approval_ExpiresAt) || After a.(Approval_ExpiresAt) now = true) →
    (distinct = true → a.(Approval_RequestedBy) ≠ actor) →
    moves now (AApprove id actor distinct) a
      (with_status ApprovalApproved now (a <| Approval_ApprovedBy := actor |>))
| moves_expire id actor distinct a :
    a.(Approval_Status) = ApprovalPending →
    a.(Approval_ExpiresAt) ≠ time_zero → a.(Approval_ExpiresAt) ≤ now →
    moves now (AApprove id actor distinct) a (with_status ApprovalExpired now a)
| moves_schedule later id a :
    a.(Approval_Status) = ApprovalApproved → later < a.(Approval_ExpiresAt) →
    moves now (ASchedule later id) a (with_status ApprovalScheduled now a)
| moves_release id a :
    a.(Approval_Status) = ApprovalScheduled →
    moves now (ARelease id) a (with_status ApprovalApproved now a)
| moves_execute id a :
    a.(Approval_Status) = ApprovalScheduled →
    moves now (AExecute id) a (with_status ApprovalExecuted now a)
| moves_complete id owner a :
    a.(Approval_Status) = ApprovalScheduled →
    moves now (AComplete id owner) a (with_status ApprovalExecuted now a).

(** The table after a call: one approval moved, one was filed, or none. *)
Definition table_step (now : Time) (c : approval_call)
    (t t' : gmap string RestoreApproval) : Prop :=
  t' = t ∨
  (∃ id a a', t !! id = Some a ∧ moves now c a a' ∧ t' = <[id := a']> t) ∨
  (∃ token r a id, c = ACreate token r ∧ t !! id = None ∧ t' = <[id := a]> t ∧
     a.(Approval_RequestedBy) = r.(Approval_RequestedBy) ∧
     a.(Approval_ApprovedBy) = r.(Approval_ApprovedBy) ∧
     a.(Approval_Status) =
       if r.(Approval_Status) ≟ "" then ApprovalPending else r.(Approval_Status)).

Lemma set_approval_hit id p f s a :
  s.(restore_approvals) !! id = Some a → p a = true →
  set_approval id p f s =
  (s <| restore_approvals := <[id := f a]> s.(restore_approvals) |>, 1).
Proof. intros H Hp. unfold set_approval, update_row. by rewrite H, Hp. Qed.

Lemma one_row_set s id p f err s' r :
  one_row s (set_approval id p f s) err = (s', r) →
  s' = s ∨ ∃ a, s.(restore_approvals) !! id = Some a ∧ p a = true ∧
    s'.(restore_approvals) = <[id := f a]> s.(restore_approvals).
Proof.
  unfold one_row, set_approval, update_row.
  destruct (s.(restore_approvals) !! id) as [a|]; [destruct (p a) eqn:Hp|];
    intros [= <- _]; [right; by exists a|by left|by left].
Qed.

Definition filed (now : Time) (token : string) (r : RestoreApproval) : RestoreApproval :=
  mkRestoreApproval (if r.(Approval_ID) ≟ "" then newID "restore" token else r.(Approval_ID))
    r.(Approval_Repository) r.(Approval_GenerationID) r.(Approval_Target)
    r.(Approval_RequestedBy) r.(Approval_ApprovedBy)
    (if r.(Approval_Status) ≟ "" then ApprovalPending else r.(Approval_Status))
    (if IsZero r.(Approval_CreatedAt) then now else r.(Approval_CreatedAt))
    r.(Approval_ExpiresAt) now.

Lemma create_eq now token r s :
  CreateRestoreApproval now token r s =
  if bool_decide (is_Some (s.(restore_approvals) !! (filed now token r).(Approval_ID)))
  then (s, Err ErrUnique)
  else (s <| restore_approvals :=
          <[(filed now token r).(Approval_ID) := filed now token r]> s.(restore_approvals) |>, Ok tt).
Proof.
  destruct r as [i rp g tg rq ab st cr ex up]. unfold CreateRestoreApproval, filed. simpl.
  destruct (bool_decide (i = "")); simpl; destruct (IsZero cr); simpl;
    destruct (bool_decide (st = "")); done.
Qed.

Lemma create_step now token r s s' e :
  CreateRestoreApproval now token r s = (s', e) →
  table_step now (ACreate token r) s.(restore_approvals) s'.(restore_approvals).
Proof.
  rewrite create_eq. case_bool_decide as Hn; intros [= <- _]; [by left|right; right].
  apply eq_None_not_Some in Hn. by eexists token, r, (filed now token r), _.
Qed.

Lemma approve_step now id actor distinct s s' e :
  ApproveRestore now id actor distinct s = (s', e) →
  table_step now (AApprove id actor distinct) s.(restore_approvals) s'.(restore_approvals).
Proof.
  unfold ApproveRestore.
  destruct (s.(restore_approvals) !! id) as [a|] eqn:Ha; [|intros E; simplify_eq; by left].
  destruct (bool_decide_reflect (Approval_Status a = ApprovalPending)) as [Hs|]; simpl;
    [|intros E; simplify_eq; by left].
  destruct (negb (IsZero (Approval_ExpiresAt a)) && _) eqn:Hex.
  - rewrite (set_approval_hit _ _ _ _ _ Ha) by done. simpl. intros E; simplify_eq.
    right; left. exists id, a, (with_status ApprovalExpired now a). split_and!; try done.
    unfold IsZero, After in Hex. bool_to_prop. by apply moves_expire.
  - destruct (distinct && _) eqn:Hd; [intros E; simplify_eq; by left|].
    rewrite (set_approval_hit _ _ _ _ _ Ha) by (by apply bool_decide_eq_true). simpl.
    intros E; simplify_eq. right; left. eexists id, a, _. split_and!; [done| |done].
    apply moves_approve; [done| |].
    + by destruct (IsZero _), (After _ _).
    + intros ->. by apply bool_decide_eq_false in Hd.
Qed.

Lemma complete_step now id owner s s' e :
  Complete now id owner s = (s', e) →
  table_step now (AComplete id owner) s.(restore_approvals) s'.(restore_approvals).
Proof.
  unfold Complete. destruct (s.(jobs) !! id) as [j|] eqn:Hj; [|intros E; simplify_eq; by left].
  destruct (leased_by owner j) eqn:Hl; simpl; [|intros [= <- _]; by left].
  assert (∀ s1 : SQLStore, s1.(jobs) = s.(jobs) →
    update_row id (leased_by owner) (succeed_row now) s1.(jobs) =
    (<[id := succeed_row now j]> s.(jobs), 1)) as Hup.
  { intros s1 ->. unfold update_row. by rewrite Hj, Hl. }
  destruct (bool_decide (Job_Kind j = "restore-generation")), (unmarshal_restore (Job_Payload j)) as [p|];
    try (rewrite Hup by done; intros [= <- _]; by left).
  destruct (bool_decide (rg_ApprovalID p = ""));
    [rewrite Hup by done; intros [= <- _]; by left|].
  unfold update_row at 1.
  destruct (s.(restore_approvals) !! rg_ApprovalID p) as [a|] eqn:Ha;
    [|intros [= <- _]; by left].
  destruct (bool_decide_reflect (Approval_Status a = ApprovalScheduled)) as [Hs|];
    [|intros [= <- _]; by left].
  intros E. rewrite Hup in E by done. injection E as <- _.
  right; left. eexists _, a, _. split_and!; [exact Ha| |done]. by apply moves_complete.
Qed.

Lemma call_step now c s s' e :
  call now c s = (s', e) → table_step now c s.(restore_approvals) s'.(restore_approvals).
Proof.
  destruct c; simpl.
  - apply create_step.
  - apply approve_step.
  - intros [->|(a & Ha & Hp & ->)]%one_row_set; [by left|right; left].
    unfold approval_in, After in Hp. bool_to_prop.
    eexists _, a, _. split_and!; [done| |done]. by apply moves_schedule.
  - intros [->|(a & Ha & Hp & ->)]%one_row_set; [by left|right; left].
    unfold approval_in in Hp. bool_to_prop.
    eexists _, a, _. split_and!; [done| |done]. by apply moves_release.
  - intros [->|(a & Ha & Hp & ->)]%one_row_set; [by left|right; left].
    unfold approval_in in Hp. bool_to_prop.
    eexists _, a, _. split_and!; [done| |done]. by apply moves_execute.
  - apply complete_step.
Qed.

(** ** Histories *)

Inductive approval_history : SQLStore → list (Time * approval_call) → SQLStore → Prop :=
| ahist_nil s : approval_history s [] s
| ahist_cons now c s s1 r cs s2 :
    call now c s = (s1, r) → approval_history s1 cs s2 →
    approval_history s ((now, c) :: cs) s2.

(** Approved, scheduled and executed approvals carry a second person's name. *)
Definition two_person (a : RestoreApproval) : Prop :=
  a.(Approval_Status) ∈ [ApprovalApproved; ApprovalScheduled; ApprovalExecuted] →
  a.(Approval_ApprovedBy) ≠ a.(Approval_RequestedBy).

Lemma moves_two_person now c a a' :
  moves now c a a' → demands_distinct c → two_person a → two_person a'.
Proof.
  unfold two_person.
  destruct 1 as [id actor distinct a Hs _ Hd|id actor distinct a Hs _ _|l id a Hs _|
    id a Hs|id a Hs|id o a Hs]; simpl; intros Hdd Ha Hin.
  - intros E. by apply (Hd Hdd).
  - set_solver.
  - apply Ha. rewrite Hs. set_solver.
  - apply Ha. rewrite Hs. set_solver.
  - apply Ha. rewrite Hs. set_solver.
  - apply Ha. rewrite Hs. set_solver.
Qed.

Lemma table_step_two_person now c t t' :
  table_step now c t t' → submits_pending c → demands_distinct c →
  map_Forall (fun _ => two_person) t → map_Forall (fun _ => two_person) t'.
Proof.
  intros [->|[(id & a & a' & Ha & Hm & ->)|(tk & r & a & id & -> & _ & -> & _ & _ & Hst)]] Hp Hd Ht;
    [done| |].
  - apply map_Forall_insert_2; [|done]. eapply moves_two_person; [done..|]. by eapply (Ht id).
  - apply map_Forall_insert_2; [|done]. intros Hin. exfalso. destruct Hp as [[Hr|Hr] _];
      rewrite Hst, Hr in Hin; simpl in Hin; set_solver.
Qed.

(** The request and the identity of an approval never change; its status only
    moves along the life cycle, and an executed one is final. *)
Definition progress (a a' : RestoreApproval) : Prop :=
  (a'.(Approval_ID), a'.(Approval_Repository), a'.(Approval_GenerationID), a'.(Approval_Target),
   a'.(Approval_RequestedBy), a'.(Approval_ExpiresAt)) =
  (a.(Approval_ID), a.(Approval_Repository), a.(Approval_GenerationID), a.(Approval_Target),
   a.(Approval_RequestedBy), a.(Approval_ExpiresAt)) ∧
  (a.(Approval_Status) ∈ [ApprovalExecuted; ApprovalExpired] → a' = a) ∧
  (a.(Approval_Status) ≠ ApprovalPending → a'.(Approval_ApprovedBy) = a.(Approval_ApprovedBy)).

Lemma progress_refl a : progress a a.
Proof. by split_and!. Qed.

Lemma moves_progress now c a a' : moves now c a a' → progress a a'.
Proof.
  destruct 1 as [? ? ? ? Hs| ? ? ? ? Hs|? ? ? Hs|? ? Hs|? ? Hs|? ? ? Hs];
    (split_and!; [done| |by rewrite ?Hs]); rewrite Hs; set_solver.
Qed.

Lemma moves_status now c a a' :
  moves now c a a' → a.(Approval_Status) ≠ ApprovalPending → a'.(Approval_Status) ≠ ApprovalPending.
Proof. by destruct 1. Qed.

Lemma table_step_progress now c t t' id a :
  table_step now c t t' → t !! id = Some a →
  ∃ a', t' !! id = Some a' ∧ progress a a' ∧
    (a.(Approval_Status) ≠ ApprovalPending → a'.(Approval_Status) ≠ ApprovalPending).
Proof.
  intros [->|[(i & b & b' & Hb & Hm & ->)|(tk & r & b & i & -> & Hn & -> & _)]] Ha.
  - exists a. split_and!; [done|apply progress_refl|done].
  - destruct (decide (i = id)) as [->|].
    + simplify_eq. exists b'. rewrite lookup_insert_eq.
      split_and!; [done|by eapply moves_progress|by eapply moves_status].
    + exists a. rewrite lookup_insert_ne by done.
      split_and!; [done|apply progress_refl|done].
  - exists a. rewrite lookup_insert_ne by congruence.
    split_and!; [done|apply progress_refl|done].
Qed.

Lemma progress_trans a b c :
  progress a b → progress b c →
  (a.(Approval_Status) ≠ ApprovalPending → b.(Approval_Status) ≠ ApprovalPending) →
  progress a c.
Proof.
  intros (H1 & H2 & H3) (G1 & G2 & G3) Hp. split_and!.
  - congruence.
  - intros Ha. pose proof (H2 Ha) as ->. by apply G2.
  - intros Ha. rewrite <- H3 by done. apply G3. auto.
Qed.

(** C9. The two-person rule: if every approval call demands a distinct approver,
    then in every state reachable from the empty store by any interleaving of
    requests, approvals, schedulings, releases and completions, an approval that
    is approved, scheduled or executed was approved by somebody other than its
    requester. *)
Theorem two_person_rule calls s :
  approval_history empty_store calls s →
  Forall (fun c => submits_pending c.2 ∧ demands_distinct c.2) calls →
  ∀ id a, s.(restore_approvals) !! id = Some a →
    a.(Approval_Status) ∈ [ApprovalApproved; ApprovalScheduled; ApprovalExecuted] →
    a.(Approval_ApprovedBy) ≠ a.(Approval_RequestedBy).
Proof.
  assert (∀ s0, approval_history s0 calls s →
    Forall (fun c => submits_pending c.2 ∧ demands_distinct c.2) calls →
    map_Forall (fun _ => two_person) s0.(restore_approvals) →
    map_Forall (fun _ => two_person) s.(restore_approvals)) as Hgen.
  { induction 1 as [s0|now c s0 s1 r cs s2 Hc Hh IH]; [done|].
    intros [[Hp Hd] Hcs]%Forall_cons Ht. apply IH; [done|].
    eapply table_step_two_person; [by eapply call_step|done..]. }
  intros Hh Hc. exact (Hgen empty_store Hh Hc (map_Forall_empty _)).
Qed.

(** C10. An approval authorises one restore, as requested: along every history
    its request, target and expiry never change, the approver is fixed once it is
    no longer pending, and an executed or expired approval is never touched
    again. *)
Theorem approval_is_final calls s s' id a :
  approval_history s calls s' → s.(restore_approvals) !! id = Some a →
  ∃ a', s'.(restore_approvals) !! id = Some a' ∧ progress a a'.
Proof.
  intros Hh. revert a. induction Hh as [s|now c s s1 r cs s2 Hc Hh IH]; intros a Ha.
  - exists a. split; [done|apply progress_refl].
  - destruct (table_step_progress _ _ _ _ _ _ (call_step _ _ _ _ _ Hc) Ha) as (b & Hb & Hp & Hs).
    destruct (IH _ Hb) as (a' & Ha' & Hp'). exists a'. split; [done|].
    by eapply progress_trans.
Qed.

(** ** A small history *)

Definition demo_request : RestoreApproval :=
  zero_RestoreApproval <| Approval_ID := "ap" |> <| Approval_RequestedBy := "alice" |>
    <| Approval_ExpiresAt := 1000 |>.
Definition demo_calls : list (Time * approval_call) :=
  [(100, ACreate "t" demo_request); (200, AApprove "ap" "alice" true);
   (300, AApprove "ap" "bob" true); (400, ASchedule 400 "ap"); (500, AExecute "ap")].
Definition run_calls (s : SQLStore) (cs : list (Time * approval_call)) : SQLStore :=
  foldl (fun s c => (call c.1 c.2 s).1) s cs.

Lemma run_calls_history s cs : approval_history s cs (run_calls s cs).
Proof.
  revert s. induction cs as [|[now c] cs IH]; intros s; [constructor|].
  econstructor; [apply surjective_pairing|]. apply IH.
Qed.

Definition demo_done : RestoreApproval :=
  default zero_RestoreApproval
    ((run_calls empty_store demo_calls).(restore_approvals) !! "ap").

Lemma two_person_rule_witness :
  demo_done.(Approval_Status) = ApprovalExecuted ∧
  demo_done.(Approval_ApprovedBy) ≠ demo_done.(Approval_RequestedBy).
Proof.
  split; [vm_compute; reflexivity|].
  apply (two_person_rule demo_calls (run_calls empty_store demo_calls)
    (run_calls_history empty_store demo_calls) ltac:(repeat constructor) "ap" demo_done).
  - vm_compute. reflexivity.
  - vm_compute. by right; right; left.
Defined.

Example demo_executed :
  Approval_Status <$> (run_calls empty_store demo_calls).(restore_approvals) !! "ap"
  = Some ApprovalExecuted.
Proof. vm_compute. reflexivity. Qed.

Lemma approval_is_final_witness :
  ∃ a', (run_calls empty_store demo_calls).(restore_approvals) !! "ap" = Some a' ∧
    progress (default zero_RestoreApproval
      ((run_calls empty_store (take 1 demo_calls)).(restore_approvals) !! "ap")) a'.
Proof.
  apply (approval_is_final (drop 1 demo_calls)
    (run_calls empty_store (take 1 demo_calls)) (run_calls empty_store demo_calls)).
  - apply (run_calls_history (run_calls empty_store (take 1 demo_calls)) (drop 1 demo_calls)).
  - vm_compute. reflexivity.
Defined.
End Approvals.
