(* ===== verification/Objects.v ===== *)
(** * Object references and leases

    The reference counts and transfer leases the garbage collector is given as
    roots ([EnsureObjectRef], [ReleaseObjectRef], [AcquireObjectLease],
    [AdjustObjectRef], [ReleaseObjectLease], [ProtectedObjectDigests]; SqlStore.v):
    a count is the number of owners on record up to the adjustments, so an object
    somebody owns or transfers is not handed to the collector unless it was lowered. *)

From Stdlib Require Import QArith.
From S2P Require Import Prelude GoStd Json Sha256 Model Payloads SqlStore SqlJobs.
#[global] Open Scope Z_scope.

Module Objects.
Import Sql.

Section Objects.
Context {MO : MapOrder}.
Implicit Types (s : SQLStore) (now : Time).

(** ** Owners on record *)

Definition owners_of (d : string) (s : SQLStore) : gset (string * string) :=
  filter (fun k : string * string => k.1 = d) (dom s.(object_ref_owners)).

Definition refcount (d : string) (s : SQLStore) : Z :=
  match s.(object_refs) !! d with Some r => r.(Ref_RefCount) | None => 0 end.

Record refs_wf (s : SQLStore) : Prop := {
  refs_count d : refcount d s = Z.of_nat (size (owners_of d s));
  refs_digest d r : s.(object_refs) !! d = Some r → r.(Ref_Digest) = d
}.

Lemma refs_wf_empty : refs_wf empty_store.
Proof. by split. Qed.

Lemma owners_of_insert (d o : string) now (d' : string) (t : gmap (string * string) Time) :
  filter (fun k : string * string => k.1 = d') (dom (<[(d, o) := now]> t)) =
  if bool_decide (d = d') then {[(d, o)]} ∪ filter (fun k : string * string => k.1 = d') (dom t)
  else filter (fun k : string * string => k.1 = d') (dom t).
Proof.
  rewrite dom_insert_L. apply set_eq. intros [x y]. case_bool_decide; set_solver.
Qed.

Lemma owners_of_delete (d o d' : string) (t : gmap (string * string) Time) :
  filter (fun k : string * string => k.1 = d') (dom (delete (d, o) t)) =
  filter (fun k : string * string => k.1 = d') (dom t) ∖ {[(d, o)]}.
Proof. rewrite dom_delete_L. set_solver. Qed.

(** The stored form of a digest and an owner. *)
Definition norm (d : string) : string := ToLower (TrimSpace d).

(** ** The two operations *)

Lemma Ensure_inv now1 now2 ref owner s s' r :
  refs_wf s → EnsureObjectRef now1 now2 ref owner s = (s', r) →
  refs_wf s' ∧
  (∀ b, r = Ok b →
     is_Some (s'.(object_ref_owners) !! (norm ref.(Ref_Digest), TrimSpace owner)) ∧
     b = negb (bool_decide
           (is_Some (s.(object_ref_owners) !! (norm ref.(Ref_Digest), TrimSpace owner))))) ∧
  (∀ k, is_Some (s.(object_ref_owners) !! k) → is_Some (s'.(object_ref_owners) !! k)).
Proof.
  intros [Hc Hd]. unfold EnsureObjectRef. fold (norm ref.(Ref_Digest)).
  set (d := norm _). set (o := TrimSpace owner).
  destruct (_ || _); [intros [= <- <-]; done|].
  case_bool_decide as Ho; intros [= <- <-].
  { split; [done|]. split; [|done]. intros b [= <-]. done. }
  split_and!.
  - split; simpl.
    + intros d'. unfold refcount, owners_of in *; simpl. specialize (Hc d') as Hc'.
      rewrite owners_of_insert. unfold upsert. case_bool_decide as Hdd.
      * subst d'. rewrite lookup_insert_eq, size_union, size_singleton.
        { destruct (s.(object_refs) !! d); simpl in *; lia. }
        intros k ->%elem_of_singleton (_ & Hk)%elem_of_filter. apply Ho.
        by apply elem_of_dom in Hk.
      * by rewrite lookup_insert_ne.
    + intros d' r'. unfold upsert. destruct (decide (d = d')) as [<-|].
      * rewrite lookup_insert_eq. intros [= <-].
        destruct (s.(object_refs) !! d) as [old|] eqn:E; simpl; [by apply Hd|done].
      * rewrite lookup_insert_ne by done. apply Hd.
  - intros b [= <-]. simpl. split; [|done]. rewrite lookup_insert_eq. by eexists.
  - intros k Hk. simpl. destruct (decide (k = (d, o))) as [->|].
    + rewrite lookup_insert_eq. by eexists.
    + by rewrite lookup_insert_ne.
Qed.

Lemma Release_inv now digest owner s s' r :
  refs_wf s → ReleaseObjectRef now digest owner s = (s', r) →
  refs_wf s' ∧
  (∀ b, r = Ok b → s'.(object_ref_owners) !! (norm digest, TrimSpace owner) = None ∧
     b = bool_decide (is_Some (s.(object_ref_owners) !! (norm digest, TrimSpace owner)))) ∧
  (∀ k, k ≠ (norm digest, TrimSpace owner) →
     s'.(object_ref_owners) !! k = s.(object_ref_owners) !! k).
Proof.
  intros [Hc Hd]. unfold ReleaseObjectRef. fold (norm digest).
  set (d := norm digest). set (o := TrimSpace owner).
  destruct (_ || _); [intros [= <- <-]; done|].
  case_bool_decide as Ho; intros [= <- <-].
  2: { split; [done|]. split; [|done]. intros b [= <-].
       split; [by apply eq_None_not_Some|done]. }
  split_and!; simpl.
  - assert (∃ old, s.(object_refs) !! d = Some old ∧ 0 < old.(Ref_RefCount)) as (old & Hold & Hpos).
    { specialize (Hc d). unfold refcount in Hc.
      assert ((d, o) ∈ owners_of d s) as Hin.
      { apply elem_of_filter. split; [done|]. by apply elem_of_dom. }
      assert (size (owners_of d s) ≠ 0%nat) as Hne.
      { intros E%size_empty_inv. by apply (E (d, o)) in Hin. }
      destruct (s.(object_refs) !! d) as [old|]; [|lia]. exists old. split; [done|lia]. }
    assert (update_row d all_rows (fun r => r <| Ref_RefCount := if 0 <? r.(Ref_RefCount)
              then r.(Ref_RefCount) - 1 else 0 |> <| Ref_UpdatedAt := now |>) s.(object_refs) =
            (<[d := old <| Ref_RefCount := old.(Ref_RefCount) - 1 |> <| Ref_UpdatedAt := now |>]>
               s.(object_refs), 1)) as Hup.
    { unfold update_row, all_rows. rewrite Hold. simpl. by rewrite (proj2 (Z.ltb_lt _ _) Hpos). }
    split; simpl in *; rewrite Hup; simpl.
    + intros d'. unfold refcount, owners_of in *; simpl. specialize (Hc d') as Hc'.
      rewrite owners_of_delete. destruct (decide (d = d')) as [<-|].
      * rewrite lookup_insert_eq, Hold in *. simpl.
        rewrite size_difference, size_singleton; [lia|].
        intros k ->%elem_of_singleton. apply elem_of_filter. split; [done|].
        by apply elem_of_dom.
      * rewrite lookup_insert_ne by done.
        assert (filter (fun k : string * string => k.1 = d') (dom s.(object_ref_owners)) ∖ {[(d, o)]} =
          filter (fun k : string * string => k.1 = d') (dom s.(object_ref_owners))) as ->;
          [set_solver|done].
    + intros d' r'. destruct (decide (d = d')) as [<-|].
      * rewrite lookup_insert_eq. intros [= <-]. simpl. by apply Hd.
      * rewrite lookup_insert_ne by done. apply Hd.
  - intros b [= <-]. split; [apply lookup_delete_eq|done].
  - intros k Hk. by apply lookup_delete_ne.
Qed.

(** ** The collector's roots *)

Lemma elem_of_protected now s d :
  d ∈ ProtectedObjectDigests now s ↔
  (∃ k r, s.(object_refs) !! k = Some r ∧ r.(Ref_Digest) = d ∧ 0 < r.(Ref_RefCount)) ∨
  (∃ k l, s.(object_leases) !! k = Some l ∧ l.(OLease_Digest) = d ∧ now < l.(OLease_ExpiresAt)).
Proof.
  unfold ProtectedObjectDigests. rewrite elem_of_union, !elem_of_list_to_set,
    !list_elem_of_fmap. f_equiv; split.
  - intros (r & -> & ([k Hk] & Hr)%SqlJobs.elem_of_select). exists k, r.
    split_and!; [done|done|]. by apply Z.ltb_lt.
  - intros (k & r & Hk & <- & Hr). exists r. split; [done|].
    apply SqlJobs.elem_of_select. split; [by exists k|by apply Z.ltb_lt].
  - intros (l & -> & ([k Hk] & Hl)%SqlJobs.elem_of_select). exists k, l.
    split_and!; [done|done|]. by apply Z.ltb_lt.
  - intros (k & l & Hk & <- & Hl). exists l. split; [done|].
    apply SqlJobs.elem_of_select. split; [by exists k|by apply Z.ltb_lt].
Qed.

(** ** Histories

    Agents may also adjust a count directly ([AdjustObjectRef]), without an owner
    and under the digest as it is spelled; the adjustments account for every
    difference between the count and the owners. *)

Inductive object_call :=
| OEnsure (later : Time) (ref : ObjectRef) (owner : string)
| ORelease (digest owner : string)
| OAdjust (ref : ObjectRef) (delta : Z)
| OAcquire (token : string) (l : ObjectLease)
| ODrop (id : string).

Definition call (now : Time) (c : object_call) (s : SQLStore) : SQLStore :=
  match c with
  | OEnsure later ref owner => (EnsureObjectRef now later ref owner s).1
  | ORelease digest owner => (ReleaseObjectRef now digest owner s).1
  | OAdjust ref delta => (AdjustObjectRef now ref delta s).1
  | OAcquire token l => (AcquireObjectLease now token l s).1
  | ODrop id => ReleaseObjectLease id s
  end.

Definition run (calls : list (Time * object_call)) (s : SQLStore) : SQLStore :=
  foldl (fun s c => call c.1 c.2 s) s calls.

(** The agent server lets through steps of one. *)
Definition call_ok (c : object_call) : Prop :=
  match c with OAdjust _ delta => -1 ≤ delta ≤ 1 | _ => True end.

(** By how much the calls may have raised and lowered the count of [d]. *)
Definition adjusts (d : string) (c : object_call) : Z :=
  match c with OAdjust ref delta => if ref.(Ref_Digest) ≟ d then delta else 0 | _ => 0 end.

Definition raised (d : string) (calls : list (Time * object_call)) : Z :=
  foldr (fun c n => Z.max 0 (adjusts d c.2) + n) 0 calls.
Definition lowered (d : string) (calls : list (Time * object_call)) : Z :=
  foldr (fun c n => Z.max 0 (- adjusts d c.2) + n) 0 calls.

Definition owner_count (d : string) (s : SQLStore) : Z := Z.of_nat (size (owners_of d s)).

(** The count of every object is between 0 and [n], and within [lo] and [up] of its
    owners. *)
Record refs_near (n : Z) (lo up : string → Z) (s : SQLStore) : Prop := {
  near_pos d : 0 ≤ refcount d s ≤ n;
  near_up d : refcount d s ≤ owner_count d s + up d;
  near_lo d : owner_count d s - lo d ≤ refcount d s;
  near_digest d r : s.(object_refs) !! d = Some r → r.(Ref_Digest) = d
}.

Lemma refs_near_empty : refs_near 0 (fun _ => 0) (fun _ => 0) empty_store.
Proof. by split. Qed.

Lemma refcount_insert d r (t : gmap string ObjectRef) s :
  s.(object_refs) = <[d := r]> t → ∀ d', refcount d' s = if bool_decide (d = d') then r.(Ref_RefCount)
    else match t !! d' with Some x => x.(Ref_RefCount) | None => 0 end.
Proof.
  intros E d'. unfold refcount. rewrite E. case_bool_decide as Hd; [by rewrite Hd, lookup_insert_eq|by rewrite lookup_insert_ne].
Qed.

Lemma digest_insert d r (t : gmap string ObjectRef) :
  r.(Ref_Digest) = d → (∀ d' x, t !! d' = Some x → x.(Ref_Digest) = d') →
  ∀ d' x, <[d := r]> t !! d' = Some x → x.(Ref_Digest) = d'.
Proof. intros Hr Ht d' x [[<- <-]|[_ Hx]]%lookup_insert_Some; [done|by apply Ht]. Qed.

(** Owners come and go one at a time. *)
Lemma owner_count_insert d o now s s' :
  s'.(object_ref_owners) = <[(d, o) := now]> s.(object_ref_owners) → s.(object_ref_owners) !! (d, o) = None →
  ∀ d', owner_count d' s' = owner_count d' s + if bool_decide (d = d') then 1 else 0.
Proof.
  intros E Hn d'. unfold owner_count, owners_of. rewrite E, owners_of_insert. case_bool_decide as Hd; [|lia]. subst d'.
  rewrite size_union, size_singleton; [lia|]. intros k ->%elem_of_singleton (_ & Hk)%elem_of_filter.
  apply elem_of_dom in Hk as [x Hk]. congruence.
Qed.

Lemma owner_count_delete d o s s' :
  s'.(object_ref_owners) = delete (d, o) s.(object_ref_owners) → is_Some (s.(object_ref_owners) !! (d, o)) →
  ∀ d', owner_count d' s' = owner_count d' s - if bool_decide (d = d') then 1 else 0.
Proof.
  intros E Ho d'. unfold owner_count, owners_of. rewrite E, owners_of_delete. case_bool_decide as Hd.
  - subst d'. assert (Hin : (d, o) ∈ owners_of d s) by (apply elem_of_filter; split; [done|by apply elem_of_dom]).
    assert (size (owners_of d s) ≠ 0%nat) by (intros Hz%size_empty_inv; by apply (Hz (d, o)) in Hin).
    rewrite size_difference, size_singleton; [unfold owners_of in *; lia|].
    by intros k ->%elem_of_singleton.
  - assert (∀ X : gset (string * string), filter (λ k, k.1 = d') X ∖ {[(d, o)]} = filter (λ k, k.1 = d') X) as ->;
      [set_solver|lia].
Qed.

Lemma owner_count_same s s' d : s'.(object_ref_owners) = s.(object_ref_owners) → owner_count d s' = owner_count d s.
Proof. unfold owner_count, owners_of. by intros ->. Qed.

Lemma near_more n lo up n' lo' up' s :
  n ≤ n' →   (∀ d, lo d ≤ lo' d) → (∀ d, up d ≤ up' d) → refs_near n lo up s → refs_near n' lo' up' s.
Proof.
  intros Hn Hl Hu [H1 H2 H3 H4]. split; [..|done]; intros d; specialize (Hl d); specialize (Hu d);
    specialize (H1 d); specialize (H2 d); specialize (H3 d); lia.
Qed.

Lemma ensure_near n lo up now later ref owner s :
  refs_near n lo up s → refs_near (n + 1) lo up (EnsureObjectRef now later ref owner s).1.
Proof.
  intros Hs. assert (refs_near (n + 1) lo up s) by (eapply near_more, Hs; intros; lia). destruct Hs as [H1 H2 H3 H4].
  unfold EnsureObjectRef. destruct (_ || _); [done|]. case_bool_decide as Ho; [done|].
  apply eq_None_not_Some in Ho. set (d := ToLower _) in *. set (s' := (_, _).1).
  pose proof (owner_count_insert d (TrimSpace owner) now s s' eq_refl Ho) as Hcount.
  pose proof (refcount_insert d _ s.(object_refs) s' eq_refl) as Href.
  assert (Hr : ∀ d', refcount d' s' = refcount d' s + if bool_decide (d = d') then 1 else 0).
  { intros d'. rewrite Href. case_bool_decide as Hd; [|unfold refcount; destruct (_ !! d'); lia]. subst d'. unfold refcount.
    destruct (object_refs s !! d); cbn; lia. }
  split.
  - intros d'. rewrite Hr. specialize (H1 d'). case_bool_decide; lia.
  - intros d'. rewrite Hr, Hcount. specialize (H2 d'). lia.
  - intros d'. rewrite Hr, Hcount. specialize (H3 d'). lia.
  - apply digest_insert; [|exact H4]. destruct (object_refs s !! d) as [old|] eqn:Eo; [exact (H4 d old Eo)|done].
Qed.

Lemma release_near n lo up now digest owner s :
  (∀ d, 0 ≤ up d) → refs_near n lo up s → refs_near n lo up (ReleaseObjectRef now digest owner s).1.
Proof.
  intros Hup [H1 H2 H3 H4]. unfold ReleaseObjectRef. destruct (_ || _); [done|]. case_bool_decide as Ho; [|done].
  set (d := ToLower _) in *. set (s' := (_, _).1).
  pose proof (owner_count_delete d (TrimSpace owner) s s' eq_refl Ho) as Hcount.
  assert (Hr : ∀ d', refcount d' s' = if bool_decide (d = d') then Z.max 0 (refcount d' s - 1) else refcount d' s).
  { intros d'. unfold refcount at 1, s', update_row, all_rows. cbn. specialize (H1 d'). unfold refcount in *.
    destruct (object_refs s !! d) as [old|] eqn:Eo; cbn.
    - case_bool_decide as Hd; [|by rewrite lookup_insert_ne]. subst d'. rewrite lookup_insert_eq, Eo in *. cbn.
      destruct (Z.ltb_spec 0 old.(Ref_RefCount)); lia.
    - case_bool_decide as Hd; [|done]. subst d'. by rewrite Eo. }
  assert (Hpos : 1 ≤ owner_count d s).
  { specialize (Hcount d). rewrite bool_decide_eq_true_2 in Hcount by done. unfold owner_count in *. lia. }
  split.
  - intros d'. rewrite Hr. specialize (H1 d'). case_bool_decide; lia.
  - intros d'. rewrite Hr, Hcount. specialize (H2 d'). specialize (Hup d'). case_bool_decide; [subst|]; lia.
  - intros d'. rewrite Hr, Hcount. specialize (H3 d'). case_bool_decide; lia.
  - intros d' x. unfold s', update_row, all_rows. cbn. destruct (object_refs s !! d) as [old|] eqn:Eo; [|apply H4].
    apply digest_insert; [exact (H4 d old Eo)|exact H4].
Qed.

Lemma adjust_near n lo up now ref delta s :
  call_ok (OAdjust ref delta) → n < max_int64 → refs_near n lo up s →
  refs_near (n + 1) (fun d => lo d + Z.max 0 (- adjusts d (OAdjust ref delta)))
    (fun d => up d + Z.max 0 (adjusts d (OAdjust ref delta))) (AdjustObjectRef now ref delta s).1.
Proof.
  cbn [call_ok]. intros Hdelta Hn Hs. set (lo' d := lo d + _). set (up' d := up d + _).
  assert (Hsame : refs_near (n + 1) lo' up' s) by (eapply near_more, Hs; unfold lo', up'; intros; lia).
  destruct Hs as [H1 H2 H3 H4]. unfold AdjustObjectRef. case_bool_decide; [done|]. set (d := ref.(Ref_Digest)) in *.
  assert (Hnew : ∀ cur, cur.(Ref_Digest) = d → 0 ≤ cur.(Ref_RefCount) → cur.(Ref_RefCount) = refcount d s + delta →
    refs_near (n + 1) lo' up' (s <| object_refs := <[d := cur]> s.(object_refs) |>)).
  { intros cur Hd Hpos Hcur. set (s' := s <| object_refs := _ |>).
    pose proof (refcount_insert d cur s.(object_refs) s' eq_refl) as Href.
    assert (Hr : ∀ d', refcount d' s' = refcount d' s + adjusts d' (OAdjust ref delta)).
    { intros d'. rewrite Href. unfold adjusts. fold d. case_bool_decide as Hdd; [by subst d'|]. unfold refcount. lia. }
    split; [intros d'; rewrite Hr|intros d'; rewrite Hr, (owner_count_same s s') by done|
      intros d'; rewrite Hr, (owner_count_same s s') by done|by apply digest_insert];
      specialize (H1 d'); specialize (H2 d'); specialize (H3 d'); unfold lo', up', adjusts; fold d; case_bool_decide as Hdd;
      try subst d'; lia. }
  specialize (H1 d). unfold refcount in Hnew, H1. destruct (object_refs s !! d) as [old|] eqn:Eo.
  - set (cur1 := if Ref_Kind ref ≟ "" then old else _). set (cur2 := if 0 <? Ref_Bytes ref then _ else _).
    assert (Hd2 : cur2.(Ref_Digest) = d ∧ cur2.(Ref_RefCount) = old.(Ref_RefCount)).
    { pose proof (H4 d old Eo). unfold cur2, cur1. by repeat case_match. }
    destruct Hd2 as [Hd2 Hc2]. cbn. rewrite Hc2, wrap64_id.
    2: { unfold in_int64, min_int64, max_int64, two63 in *. lia. }
    destruct (Z.ltb_spec (Ref_RefCount old + delta) 0) as [|Hpos]; [done|]. by apply Hnew.
  - destruct (Z.ltb_spec delta 0); [done|]. apply Hnew; cbn; [done|lia|lia].
Qed.

Lemma call_near n lo up now c s :
  (∀ d, 0 ≤ up d) → call_ok c → n < max_int64 → refs_near n lo up s →
  refs_near (n + 1) (fun d => lo d + Z.max 0 (- adjusts d c)) (fun d => up d + Z.max 0 (adjusts d c)) (call now c s).
Proof.
  intros Hup Hok Hn Hs. destruct c as [later ref owner|digest owner|ref delta|token l|id]; [| |by apply adjust_near| |];
    cbn [call].
  - eapply near_more; [..|by apply ensure_near]; cbn; intros; lia.
  - eapply near_more; [..|by apply release_near]; cbn; intros; lia.
  - eapply (near_more n lo up); [cbn; intros; lia..|].
    unfold AcquireObjectLease. destruct (bool_decide (OLease_ID l = "")), (_ || _); try done; by destruct Hs.
  - eapply (near_more n lo up); [cbn; intros; lia..|]. by destruct Hs.
Qed.

Lemma run_near calls n lo up s :
  (∀ d, 0 ≤ up d) → Forall (fun c => call_ok c.2) calls → n + zlen calls ≤ max_int64 → refs_near n lo up s →
  refs_near (n + zlen calls) (fun d => lo d + lowered d calls) (fun d => up d + raised d calls) (run calls s).
Proof.
  intros Hup Hok. revert n lo up Hup s. induction Hok as [|[now c] calls Hc Hok IH]; intros n lo up Hup s Hlen Hs; cbn.
  - eapply near_more, Hs; unfold zlen; cbn; intros; lia.
  - assert (Hz : zlen ((now, c) :: calls) = 1 + zlen calls) by (unfold zlen; cbn; lia).
    assert (0 ≤ zlen calls) by (unfold zlen; lia).
    eapply near_more; [..|apply (IH (n + 1)); [|lia|apply call_near; [done|done|lia|exact Hs]]].
    + lia.
    + intros d. unfold lowered. cbn. lia.
    + intros d. unfold raised. cbn. lia.
    + intros d. specialize (Hup d). lia.
Qed.

(** The history is short enough for 64 bits. *)
Definition history_ok (calls : list (Time * object_call)) : Prop :=
  Forall (fun c => call_ok c.2) calls ∧ zlen calls ≤ max_int64.

Definition unadjusted (d : string) (calls : list (Time * object_call)) : Prop := Forall (fun c => adjusts d c.2 = 0) calls.

Lemma history_near calls :
  history_ok calls → refs_near (zlen calls) (fun d => lowered d calls) (fun d => raised d calls) (run calls empty_store).
Proof. intros [Hok Hlen]. by apply (run_near calls 0 (fun _ => 0) (fun _ => 0) empty_store). Qed.

Lemma unadjusted_zero d calls : unadjusted d calls → lowered d calls = 0 ∧ raised d calls = 0.
Proof. induction 1 as [|c calls Hc _ [IH1 IH2]]; [done|]. unfold lowered, raised in *. cbn. rewrite Hc. lia. Qed.

Lemma owned_count d s : 0 < owner_count d s ↔ ∃ o, is_Some (s.(object_ref_owners) !! (d, o)).
Proof.
  unfold owner_count. split.
  - intros Hs. destruct (set_choose_L (owners_of d s)) as ([d' o] & Hk).
    { intros E. rewrite E, size_empty in Hs. lia. }
    apply elem_of_filter in Hk as [Hd Hk]. simpl in Hd. subst d'. exists o. by apply elem_of_dom.
  - intros (o & Ho). destruct (size (owners_of d s)) eqn:E; [|lia]. apply size_empty_inv in E. exfalso.
    apply (not_elem_of_empty (C:=gset (string * string)) (d, o)). rewrite <- E. apply elem_of_filter.
    split; [done|]. by apply elem_of_dom.
Qed.

Lemma counted_iff n lo up s d : refs_near n lo up s →
  (∃ k r, s.(object_refs) !! k = Some r ∧ r.(Ref_Digest) = d ∧ 0 < r.(Ref_RefCount)) ↔ 0 < refcount d s.
Proof.
  intros Hs. unfold refcount. split.
  - intros (k & r & Hk & <- & Hr). by rewrite (near_digest _ _ _ _ Hs _ _ Hk), Hk.
  - destruct (s.(object_refs) !! d) as [r|] eqn:E; [|lia]. intros Hr. exists d, r.
    split_and!; [done|by apply (near_digest _ _ _ _ Hs)|done].
Qed.

(** C11. Reference counts follow the owners: after any sequence of ensures,
    releases, adjustments and leases from the empty store, the count of an object
    is never negative and differs from the number of owners on record for it by no
    more than the adjustments account for; so it is that number for every object
    that has not been adjusted (ensuring twice for one owner counts once, releasing
    what was never ensured counts nothing). *)
Theorem refcount_follows_the_owners calls d :
  history_ok calls →
  let s := run calls empty_store in
  0 ≤ refcount d s ∧
  owner_count d s - lowered d calls ≤ refcount d s ≤ owner_count d s + raised d calls ∧
  (unadjusted d calls → refcount d s = owner_count d s).
Proof.
  intros Hok s. destruct (history_near calls Hok) as [H1 H2 H3 _]. fold s in H1, H2, H3.
  specialize (H1 d). specialize (H2 d). specialize (H3 d). split_and!; [lia..|].
  intros [E1 E2]%unadjusted_zero. lia.
Qed.

(** C12. The garbage collector's roots are the objects somebody owns or is
    transferring, as far as the counts have not been adjusted: along any history, a
    digest with a running lease, or with more owners than it was lowered by, is
    protected at [now]; and one that is protected has an owner or a running lease or
    was raised.  For a digest that was never adjusted this is an equivalence. *)
Theorem owned_or_leased_is_protected calls now d :
  history_ok calls →
  let s := run calls empty_store in
  let owned := ∃ o, is_Some (s.(object_ref_owners) !! (d, o)) in
  let leased := ∃ k l, s.(object_leases) !! k = Some l ∧ l.(OLease_Digest) = d ∧ now < l.(OLease_ExpiresAt) in
  (lowered d calls < owner_count d s ∨ leased → d ∈ ProtectedObjectDigests now s) ∧
  (d ∈ ProtectedObjectDigests now s → owned ∨ leased ∨ 0 < raised d calls) ∧
  (unadjusted d calls → (d ∈ ProtectedObjectDigests now s ↔ owned ∨ leased)).
Proof.
  intros Hok s owned leased. pose proof (history_near calls Hok) as Hn. fold s in Hn.
  pose proof (near_up _ _ _ _ Hn d) as Hu. pose proof (near_lo _ _ _ _ Hn d) as Hl.
  cbv beta in Hu, Hl.
  assert (Hp : d ∈ ProtectedObjectDigests now s ↔ 0 < refcount d s ∨ leased).
  { rewrite elem_of_protected, (counted_iff _ _ _ _ _ Hn). done. }
  pose proof (owned_count d s) as Ho. fold owned in Ho. rewrite Hp, <- Ho. split_and!.
  - intros [?|?]; [left; lia|by right].
  - intros [?|?]; [|by right; left]. destruct (decide (0 < owner_count d s)); [by left|right; right; lia].
  - intros [E1 E2]%unadjusted_zero. assert (refcount d s = owner_count d s) as -> by lia. done.
Qed.

Lemma owned_iff d s : refs_wf s → 0 < refcount d s ↔ ∃ o, is_Some (s.(object_ref_owners) !! (d, o)).
Proof. intros [Hc _]. rewrite Hc. apply owned_count. Qed.

(** Ensuring and releasing are idempotent inverses for an owner: an
    [EnsureObjectRef] that succeeds puts the owner on record and reports whether it
    was new, a [ReleaseObjectRef] that succeeds takes it off and reports whether it
    was there, and neither touches any other owner of any object. *)
Theorem ensure_then_release now1 now2 now3 ref owner s s1 s2 b1 b2 :
  refs_wf s → EnsureObjectRef now1 now2 ref owner s = (s1, Ok b1) →
  ReleaseObjectRef now3 ref.(Ref_Digest) owner s1 = (s2, Ok b2) →
  b2 = true ∧
  b1 = negb (bool_decide
         (is_Some (s.(object_ref_owners) !! (norm ref.(Ref_Digest), TrimSpace owner)))) ∧
  s2.(object_ref_owners) = delete (norm ref.(Ref_Digest), TrimSpace owner) s.(object_ref_owners) ∧
  ∀ d, d ≠ norm ref.(Ref_Digest) → refcount d s2 = refcount d s.
Proof.
  intros Hwf E1 E2. destruct (Ensure_inv _ _ _ _ _ _ _ Hwf E1) as (Hwf1 & Hb1 & _).
  destruct (Hb1 _ eq_refl) as [Ho ->]. clear Hb1.
  destruct (Release_inv _ _ _ _ _ _ Hwf1 E2) as (Hwf2 & Hb2 & Hrest).
  destruct (Hb2 _ eq_refl) as [Hn ->]. clear Hb2.
  assert (s2.(object_ref_owners) =
    delete (norm ref.(Ref_Digest), TrimSpace owner) s.(object_ref_owners)) as Hdel.
  { apply map_eq. intros k. destruct (decide (k = (norm ref.(Ref_Digest), TrimSpace owner))) as [->|Hk].
    - by rewrite Hn, lookup_delete_eq.
    - rewrite lookup_delete_ne, Hrest by done. revert E1. unfold EnsureObjectRef.
      destruct (_ || _); [done|]. intros Es%(f_equal fst). simpl in Es. rewrite <- Es.
      case_bool_decide; [done|]. simpl. by rewrite lookup_insert_ne. }
  split_and!; [by rewrite bool_decide_eq_true_2|done|done|].
  intros d Hd. rewrite (refs_count _ Hwf2), (refs_count _ Hwf). f_equal. f_equal.
  unfold owners_of. rewrite Hdel, owners_of_delete. set_solver.
Qed.
End Objects.

(** ** A small history *)

Definition demo_ref : ObjectRef := zero_ObjectRef <| Ref_Digest := "AB" |> <| Ref_Bytes := 7 |>.

(** Two owners, of which one goes, and an adjustment of another object. *)
Definition demo_history : list (Time * object_call) :=
  [(100, OEnsure 100 demo_ref "gen:1"); (200, OEnsure 200 demo_ref "gen:2"); (300, ORelease "ab" "gen:1");
   (400, OAdjust (zero_ObjectRef <| Ref_Digest := "cd" |>) 1); (500, OAdjust (zero_ObjectRef <| Ref_Digest := "ef" |>) (-1))].

Lemma demo_history_ok : history_ok demo_history.
Proof. split; [repeat constructor; cbn; lia|]. by vm_compute. Qed.

Lemma unadjusted_ab : unadjusted "ab" demo_history.
Proof. by repeat constructor. Qed.

(** An object that nobody owns is protected once an agent has raised its count. *)
Example raised_without_owner :
  owner_count "cd" (run demo_history empty_store) = 0 ∧ "cd" ∈ ProtectedObjectDigests 600 (run demo_history empty_store).
Proof. split; [by vm_compute|]. apply (bool_decide_unpack _). by vm_compute. Qed.

Lemma refcount_follows_the_owners_witness :
  refcount "ab" (run demo_history empty_store) = owner_count "ab" (run demo_history empty_store).
Proof. apply (refcount_follows_the_owners demo_history "ab" demo_history_ok), unadjusted_ab. Defined.

Lemma owned_or_leased_is_protected_witness : "ab" ∈ ProtectedObjectDigests 600 (run demo_history empty_store).
Proof.
  apply (owned_or_leased_is_protected demo_history 600 "ab" demo_history_ok); [exact unadjusted_ab|].
  left. exists "gen:2". apply (bool_decide_unpack _). vm_compute. exact I.
Defined.

Lemma ensure_then_release_witness :
  true = true ∧
  true = negb (bool_decide (is_Some
    (empty_store.(object_ref_owners) !! (norm demo_ref.(Ref_Digest), TrimSpace "gen:1")))) ∧
  (ReleaseObjectRef 300 "AB" "gen:1"
    (EnsureObjectRef 100 200 demo_ref "gen:1" empty_store).1).1.(object_ref_owners) =
    delete (norm demo_ref.(Ref_Digest), TrimSpace "gen:1") empty_store.(object_ref_owners) ∧
  ∀ d, d ≠ norm demo_ref.(Ref_Digest) →
    refcount d (ReleaseObjectRef 300 "AB" "gen:1"
      (EnsureObjectRef 100 200 demo_ref "gen:1" empty_store).1).1 = refcount d empty_store.
Proof.
  apply (ensure_then_release 100 200 300 demo_ref "gen:1" empty_store
    (EnsureObjectRef 100 200 demo_ref "gen:1" empty_store).1 _ true true refs_wf_empty);
    vm_compute; reflexivity.
Defined.
End Objects.
