(* ===== verification/Control.v ===== *)
(** * The [Store] interface and its clients' programs

    [Store] is the Go interface of store.go as the schedulers and reconcilers
    use it; MemStore.v and SqlStore.v are its instances.  The clients read the
    clock and draw ids between store calls, so they are programs in a small
    state and error monad over a store, a position in the stream of clock
    readings and a position in the stream of random tokens ([Env]).  A Go
    function that returns [(n, err)] is a program that ends in [Ok n] or
    [Err err]; the partial count that comes with an error is dropped. *)

From Stdlib Require Import QArith.
From S2P Require Import Prelude GoStd Json Sha256 Model Payloads MemStore SqlStore.
#[global] Open Scope Z_scope.

(** ** The operations *)

Class Store (S : Type) := {
  st_Enqueue : Time → string → Job → S → S * result (Job * bool);
  st_ListJobs : Z → S → result (list Job);
  st_UpsertRepository : Time → Time → Repository → S → S * result unit;
  st_ListRepositories : S → result (list Repository);
  st_DueRepositories : Time → Z → S → result (list Repository);
  st_MarkScheduled : Time → string → Time → S → S * result unit;
  st_DisableMissingRepositories : Time → string → gset string → S → S * result unit;
  st_ListAllGenerations : Z → S → result (list Generation);
  st_ListGenerations : string → Z → S → result (list Generation);
  st_ListReplicas : string → S → result (list GenerationReplica);
  st_ListExpiredReplicationTransfers : Time → Z → S → result (list ReplicationTransfer);
  st_DeleteReplicationTransfer : string → S → S * result unit;
  st_ListAgents : S → result (list Agent);
  st_RecordErasureSet : Time → ErasureSet → S → S * result unit;
  st_ListErasureSets : Z → S → result (list ErasureSet);
  st_GetErasureSet : string → S → result (ErasureSet * bool);
  st_RecordErasureShard : Time → ErasureShard → S → S * result unit;
  st_DeleteErasureShard : string → Z → string → S → S * result unit;
  st_ListErasureShards : string → S → result (list ErasureShard);
  st_GetObjectRef : string → S → result (ObjectRef * bool);
  st_AcquireObjectLease : Time → string → ObjectLease → S → S * result unit;
  st_ReleaseObjectLease : string → S → S * result unit
}.

Definition no_error {S} (s : S) : S * result unit := (s, Ok tt).

#[export] Instance mem_store {MO : MapOrder} : Store Mem.MemoryStore := {
  st_Enqueue now token j m := let '(m', r) := Mem.Enqueue now token j m in (m', Ok r);
  st_ListJobs limit m := Ok (Mem.ListJobs limit m);
  st_UpsertRepository now1 now2 r m := no_error (Mem.UpsertRepository now1 now2 r m);
  st_ListRepositories m := Ok (Mem.ListRepositories m);
  st_DueRepositories now limit m := Ok (Mem.DueRepositories now limit m);
  st_MarkScheduled now id next m := no_error (Mem.MarkScheduled now id next m);
  st_DisableMissingRepositories now account seen m :=
    no_error (Mem.DisableMissingRepositories (fun _ => now) account seen m);
  st_ListAllGenerations limit m := Ok (Mem.ListAllGenerations limit m);
  st_ListGenerations rid limit m := Ok (Mem.ListGenerations rid limit m);
  st_ListReplicas gid m := Ok (Mem.ListReplicas gid m);
  st_ListExpiredReplicationTransfers now limit m :=
    Ok (Mem.ListExpiredReplicationTransfers now limit m);
  st_DeleteReplicationTransfer id m := no_error (Mem.DeleteReplicationTransfer id m);
  st_ListAgents m := Ok (Mem.ListAgents m);
  st_RecordErasureSet := Mem.RecordErasureSet;
  st_ListErasureSets limit m := Ok (Mem.ListErasureSets limit m);
  st_GetErasureSet d m := Ok (Mem.GetErasureSet d m);
  st_RecordErasureShard := Mem.RecordErasureShard;
  st_DeleteErasureShard d i a m := no_error (Mem.DeleteErasureShard d i a m);
  st_ListErasureShards d m := Ok (Mem.ListErasureShards d m);
  st_GetObjectRef d m := Ok (Mem.GetObjectRef d m);
  st_AcquireObjectLease := Mem.AcquireObjectLease;
  st_ReleaseObjectLease id m := no_error (Mem.ReleaseObjectLease id m)
}.

#[export] Instance sql_store {MO : MapOrder} : Store Sql.SQLStore := {
  st_Enqueue := Sql.Enqueue;
  st_ListJobs limit s := Ok (Sql.ListJobs limit s);
  st_UpsertRepository := Sql.UpsertRepository;
  st_ListRepositories s := Ok (Sql.ListRepositories s);
  st_DueRepositories now limit s := Ok (Sql.DueRepositories now limit s);
  st_MarkScheduled now id next s := no_error (Sql.MarkScheduled now id next s);
  st_DisableMissingRepositories now account seen s :=
    no_error (Sql.DisableMissingRepositories now account seen s);
  st_ListAllGenerations limit s := Ok (Sql.ListAllGenerations limit s);
  st_ListGenerations rid limit s := Ok (Sql.ListGenerations rid limit s);
  st_ListReplicas gid s := Ok (Sql.ListReplicas gid s);
  st_ListExpiredReplicationTransfers now limit s :=
    Ok (Sql.ListExpiredReplicationTransfers now limit s);
  st_DeleteReplicationTransfer id s := no_error (Sql.DeleteReplicationTransfer id s);
  st_ListAgents s := Ok (Sql.ListAgents s);
  st_RecordErasureSet := Sql.RecordErasureSet;
  st_ListErasureSets limit s := Ok (Sql.ListErasureSets limit s);
  st_GetErasureSet d s := Ok (Sql.GetErasureSet d s);
  st_RecordErasureShard := Sql.RecordErasureShard;
  st_DeleteErasureShard d i a s := no_error (Sql.DeleteErasureShard d i a s);
  st_ListErasureShards d s := Ok (Sql.ListErasureShards d s);
  st_GetObjectRef d s := Ok (Sql.GetObjectRef d s);
  st_AcquireObjectLease := Sql.AcquireObjectLease;
  st_ReleaseObjectLease id s := no_error (Sql.ReleaseObjectLease id s)
}.

(** ** Programs *)

(** The readings [time.Now] returns and the tokens [newID] draws, in order. *)
Class Env := { clock : nat → Time; fresh_token : nat → string }.

Section Prog.
Context {S : Type} {E : Env}.

Definition Prog (A : Type) : Type := nat → S → nat * S * result A.

Definition pret {A} (a : A) : Prog A := fun i s => (i, s, Ok a).
Definition pfail {A} (e : string) : Prog A := fun i s => (i, s, Err e).

Definition pbind {A B} (p : Prog A) (f : A → Prog B) : Prog B := fun i s =>
  match p i s with
  | (i', s', Ok a) => f a i' s'
  | (i', s', Err e) => (i', s', Err e)
  end.

(** [time.Now] *)
Definition pnow : Prog Time := fun i s => (Datatypes.S i, s, Ok (clock i)).
(** [newID(prefix)] *)
Definition pnew_id (prefix : string) : Prog string :=
  fun i s => (Datatypes.S i, s, Ok (newID prefix (fresh_token i))).

(** A store call that only reads. *)
Definition pread {A} (f : S → result A) : Prog A := fun i s => (i, s, f s).
(** A store call that writes, given the clock and the token it may use. *)
Definition pwrite {A} (f : Time → string → S → S * result A) : Prog A :=
  fun i s => let '(s', r) := f (clock i) (fresh_token i) s in (Datatypes.S i, s', r).

(** [x, _ := call]: the error of a call is ignored for its zero value. *)
Definition pignore {A} (dflt : A) (p : Prog A) : Prog A := fun i s =>
  match p i s with
  | (i', s', Ok a) => (i', s', Ok a)
  | (i', s', Err _) => (i', s', Ok dflt)
  end.

(** [for _, x := range l { acc = body(x, acc) }], an error ending the loop. *)
Fixpoint pfor {A B} (l : list A) (body : A → B → Prog B) (acc : B) : Prog B :=
  match l with
  | [] => pret acc
  | x :: l' => pbind (body x acc) (pfor l' body)
  end.
End Prog.
Arguments Prog S A : clear implicits.

(** stdpp's [x ← p; q] and [p ;; q] for programs. *)
#[export] Instance prog_ret {S} : MRet (Prog S) := fun A => pret.
#[export] Instance prog_bind {S} : MBind (Prog S) := fun A B f p => pbind p f.

Section ProgLemmas.
Context {S : Type} {E : Env}.
Implicit Types (s : S) (i : nat).

Lemma bind_Ok {A B} (p : Prog S A) (f : A → Prog S B) i s i' s' b :
  (p ≫= f) i s = (i', s', Ok b) →
  ∃ i1 s1 a, p i s = (i1, s1, Ok a) ∧ f a i1 s1 = (i', s', Ok b).
Proof.
  unfold mbind, prog_bind, pbind. destruct (p i s) as [[i1 s1] [a|e]]; [|done]. intros H. eauto 10.
Qed.

(** The invariant rule for loops: [Inv done acc i s] after the elements [done]. *)
Lemma pfor_inv {A B} (Inv : list A → B → nat → S → Prop) (body : A → B → Prog S B) l :
  ∀ pre acc i s i' s' b,
  Inv pre acc i s →
  (∀ x pre acc i s i' s' b, x ∈ l → Inv pre acc i s →
     body x acc i s = (i', s', Ok b) → Inv (pre ++ [x]) b i' s') →
  pfor l body acc i s = (i', s', Ok b) → Inv (pre ++ l) b i' s'.
Proof.
  induction l as [|x l IH]; intros pre acc i s i' s' b HI Hstep; simpl.
  { intros [= <- <- <-]. by rewrite app_nil_r. }
  intros (i1 & s1 & a & E1 & E2)%bind_Ok.
  replace (pre ++ x :: l) with ((pre ++ [x]) ++ l) by by rewrite <- app_assoc.
  eapply IH; [|intros; eapply Hstep; eauto; by right|exact E2].
  eapply Hstep; [by left|done|done].
Qed.

(** The same rule for total correctness: the loop succeeds. *)
Lemma pfor_total {A B} (Inv : list A → B → nat → S → Prop) (body : A → B → Prog S B) l acc i s :
  Inv [] acc i s →
  (∀ pre x post acc i s, l = pre ++ x :: post → Inv pre acc i s →
     ∃ i' s' b, body x acc i s = (i', s', Ok b) ∧ Inv (pre ++ [x]) b i' s') →
  ∃ i' s' b, pfor l body acc i s = (i', s', Ok b) ∧ Inv l b i' s'.
Proof.
  intros HI Hstep.
  assert (∀ post pre acc i s, l = pre ++ post → Inv pre acc i s →
    ∃ i' s' b, pfor post body acc i s = (i', s', Ok b) ∧ Inv l b i' s') as Hgen; [|by apply (Hgen l [])].
  clear acc i s HI. induction post as [|x post IH]; intros pre acc i s Hl HI; simpl.
  { exists i, s, acc. by rewrite Hl, app_nil_r. }
  destruct (Hstep pre x post acc i s Hl HI) as (i1 & s1 & b1 & E1 & HI1).
  destruct (IH (pre ++ [x]) b1 i1 s1) as (i2 & s2 & b2 & E2 & HI2); [by rewrite <- app_assoc|done|].
  exists i2, s2, b2. unfold pbind. by rewrite E1, E2.
Qed.

(** Total correctness of a loop that keeps [P], moves the store along [R] and does
    something lasting for each element. *)
Lemma pfor_each {A B} (P : B → nat → S → Prop) (R : relation S) `{!PreOrder R}
    (D : A → S → Prop) (body : A → B → Prog S B) l acc i s :
  (∀ x s s', D x s → R s s' → D x s') →
  (∀ x acc i s, x ∈ l → P acc i s →
     ∃ i' s' b, body x acc i s = (i', s', Ok b) ∧ P b i' s' ∧ R s s' ∧ D x s') →
  P acc i s →
  ∃ i' s' b, pfor l body acc i s = (i', s', Ok b) ∧ P b i' s' ∧ R s s' ∧ ∀ x, x ∈ l → D x s'.
Proof.
  intros Hmono. revert acc i s. induction l as [|x l IH]; intros acc i s Hstep HP.
  { exists i, s, acc. split_and!; [done|done|done|]. by intros x ?%not_elem_of_nil. }
  destruct (Hstep x acc i s ltac:(by left) HP) as (i1 & s1 & b1 & E1 & HP1 & HR1 & HD1).
  destruct (IH b1 i1 s1) as (i2 & s2 & b2 & E2 & HP2 & HR2 & HD2); [|done|].
  { intros y acc' i' s' Hy. apply Hstep. by right. }
  exists i2, s2, b2. split_and!; [|done|by etrans|].
  - simpl. unfold pbind. by rewrite E1, E2.
  - intros y [->|Hy]%elem_of_cons; [by eapply Hmono|by apply HD2].
Qed.

(** A loop whose body only reads is a fold. *)
Lemma pfor_pure {A B} (g : A → B → B) (body : A → B → Prog S B) l acc i s :
  (∀ x b, x ∈ l → body x b i s = (i, s, Ok (g x b))) →
  pfor l body acc i s = (i, s, Ok (foldl (fun b x => g x b) acc l)).
Proof.
  revert acc. induction l as [|x l IH]; intros acc Hb; [done|]. simpl.
  unfold pbind. rewrite Hb by by left. apply IH. intros y b Hy. apply Hb. by right.
Qed.

Lemma bind_eq {A B} (p : Prog S A) (f : A → Prog S B) i s i1 s1 a :
  p i s = (i1, s1, Ok a) → (p ≫= f) i s = f a i1 s1.
Proof. unfold mbind, prog_bind, pbind. by intros ->. Qed.
End ProgLemmas.

(** A clock that ticks every nanosecond and tokens that count, for the examples. *)
Definition tick_env : Env := {|
  clock i := 1000 * Second + Z.of_nat i;
  fresh_token i := pretty i
|}.

Lemma tick_tokens_inj i j : @fresh_token tick_env i = @fresh_token tick_env j → i = j.
Proof. simpl. apply (inj pretty). Qed.
