(* ===== verification/Config.v ===== *)
(** * The configuration the control plane reads ([internal/config/config.go])

    The fields the modelled code uses, one record per Go struct; the rest of
    [Config] (credentials, endpoints, the standalone backup command) plays no
    part in it.  A float64 threshold is a rational. *)

From Stdlib Require Import QArith.
From S2P Require Import Prelude GoStd.

Record WorkerConfig := mkWorkerConfig {
  w_Concurrency : Z;
  w_PollInterval : string;
  w_Lease : string;
  w_MaxAttempts : Z
}.

Record RepoSchedulePolicy := mkPolicy {
  pol_Pattern : string;
  pol_Interval : string;
  pol_Priority : Z;
  pol_MirrorGitLab : bool
}.

Record SchedulerConfig := mkSchedulerConfig {
  sch_Enabled : bool;
  sch_Tick : string;
  sch_DiscoveryInterval : string;
  sch_DefaultInterval : string;
  sch_Policies : list RepoSchedulePolicy
}.

Record ReplicationConfig := mkReplicationConfig {
  rep_Enabled : bool;
  rep_Factor : Z;
  rep_MinHealthy : Z;
  rep_ReconcileInterval : string;
  rep_AgentTimeout : string;
  rep_TransferTTL : string;
  rep_SpoolRoot : string;
  rep_LocalKeyPath : string;
  rep_IncludeLocal : bool;
  rep_MaxTransferBytes : Z;
  rep_FailureDomainLabel : string;
  rep_MinFailureDomains : Z;
  rep_AllowedAgents : list string;
  rep_ExcludedAgents : list string
}.

Record DiskTelemetryConfig := mkDiskTelemetryConfig {
  dt_Enabled : bool;
  dt_Interval : string;
  dt_SmartctlPath : string;
  dt_NVMePath : string;
  dt_Device : string;
  dt_MaxTemperatureC : Q;
  dt_MaxPercentageUsed : Q;
  dt_MaxMediaErrors : Z;
  dt_RiskThreshold : Z
}.

Record ScrubConfig := mkScrubConfig {
  scrub_Enabled : bool;
  scrub_Interval : string;
  scrub_SampleObjects : Z;
  scrub_Repair : bool;
  scrub_SeedSalt : string
}.

Record TieringConfig := mkTieringConfig {
  tier_Enabled : bool;
  tier_ColdRoot : string;
  tier_MinAge : string;
  tier_MinBytes : Z;
  tier_RcloneRemote : string
}.

Record ErasureConfig := mkErasureConfig {
  er_Enabled : bool;
  er_MinObjectBytes : Z;
  er_DataShards : Z;
  er_ParityShards : Z;
  er_BlockBytes : Z;
  er_Distributed : bool;
  er_ShardReplication : Z;
  er_FailureDomainLabel : string;
  er_MinFailureDomains : Z;
  er_ShardPoolLabel : string;
  er_ReconcileInterval : string
}.

Record StorageDataConfig := mkStorageDataConfig {
  sd_Enabled : bool;
  sd_MinFreeBytes : Z;
  sd_MinFreePercent : Q;
  sd_MaxProbe : string;
  sd_EvacuateDegraded : bool;
  sd_InventoryEnabled : bool;
  sd_InventoryInterval : string;
  sd_ChunkBytes : Z;
  sd_ChunkRetries : Z;
  sd_BandwidthLimitMbps : Z;
  sd_ObjectReplicationFactor : Z;
  sd_ObjectPoolLabel : string;
  sd_DiskTelemetry : DiskTelemetryConfig;
  sd_Scrub : ScrubConfig;
  sd_Tiering : TieringConfig;
  sd_Erasure : ErasureConfig
}.

(** The part of [config.Config] that the models read: [GitHub.IncludeForks] and
    [IncludeArchived], [Backup.Root], [CAS.Root] and, of [ControlPlane],
    [Agents.Labels], [Generations.Root], [Mirroring.Enabled] and the four
    sections above. *)
Record Config := mkConfig {
  cfg_IncludeForks : bool;
  cfg_IncludeArchived : bool;
  cfg_BackupRoot : string;
  cfg_CASRoot : string;
  cfg_AgentLabels : gmap string string;
  cfg_GenerationsRoot : string;
  cfg_MirroringEnabled : bool;
  cfg_Workers : WorkerConfig;
  cfg_Scheduler : SchedulerConfig;
  cfg_Replication : ReplicationConfig;
  cfg_Storage : StorageDataConfig
}.

#[export] Instance ReplicationConfig_settable : Settable ReplicationConfig :=
  fun r => mkReplicationConfig (r.(rep_Enabled)) (r.(rep_Factor)) (r.(rep_MinHealthy))
    (r.(rep_ReconcileInterval)) (r.(rep_AgentTimeout)) (r.(rep_TransferTTL)) (r.(rep_SpoolRoot))
    (r.(rep_LocalKeyPath)) (r.(rep_IncludeLocal)) (r.(rep_MaxTransferBytes))
    (r.(rep_FailureDomainLabel)) (r.(rep_MinFailureDomains)) (r.(rep_AllowedAgents))
    (r.(rep_ExcludedAgents)).
#[export] Instance ErasureConfig_settable : Settable ErasureConfig :=
  fun r => mkErasureConfig (r.(er_Enabled)) (r.(er_MinObjectBytes)) (r.(er_DataShards))
    (r.(er_ParityShards)) (r.(er_BlockBytes)) (r.(er_Distributed)) (r.(er_ShardReplication))
    (r.(er_FailureDomainLabel)) (r.(er_MinFailureDomains)) (r.(er_ShardPoolLabel))
    (r.(er_ReconcileInterval)).
#[export] Instance StorageDataConfig_settable : Settable StorageDataConfig :=
  fun r => mkStorageDataConfig (r.(sd_Enabled)) (r.(sd_MinFreeBytes)) (r.(sd_MinFreePercent))
    (r.(sd_MaxProbe)) (r.(sd_EvacuateDegraded)) (r.(sd_InventoryEnabled)) (r.(sd_InventoryInterval))
    (r.(sd_ChunkBytes)) (r.(sd_ChunkRetries)) (r.(sd_BandwidthLimitMbps))
    (r.(sd_ObjectReplicationFactor)) (r.(sd_ObjectPoolLabel)) (r.(sd_DiskTelemetry))
    (r.(sd_Scrub)) (r.(sd_Tiering)) (r.(sd_Erasure)).
#[export] Instance Config_settable : Settable Config :=
  fun r => mkConfig (r.(cfg_IncludeForks)) (r.(cfg_IncludeArchived)) (r.(cfg_BackupRoot))
    (r.(cfg_CASRoot)) (r.(cfg_AgentLabels)) (r.(cfg_GenerationsRoot)) (r.(cfg_MirroringEnabled))
    (r.(cfg_Workers)) (r.(cfg_Scheduler)) (r.(cfg_Replication)) (r.(cfg_Storage)).

(** The zero values, [config.StorageDataConfig{}] and so on. *)
Definition zero_ReplicationConfig : ReplicationConfig :=
  mkReplicationConfig false 0 0 "" "" "" "" "" false 0 "" 0 [] [].
Definition zero_StorageDataConfig : StorageDataConfig :=
  mkStorageDataConfig false 0 0 "" false false "" 0 0 0 0 ""
    (mkDiskTelemetryConfig false "" "" "" "" 0 0 0 0)
    (mkScrubConfig false "" 0 false "") (mkTieringConfig false "" "" 0 "")
    (mkErasureConfig false 0 0 0 0 false 0 "" 0 "" "").
Definition zero_Config : Config :=
  mkConfig false false "" "" ∅ "" false (mkWorkerConfig 0 "" "" 0)
    (mkSchedulerConfig false "" "" "" []) zero_ReplicationConfig zero_StorageDataConfig.
