(* ===== verification/StorageHealth.v ===== *)
(** * The storage probe ([internal/storagehealth/health.go])

    [Probe] as a function of what the operating system answers.  Sizes are
    uint64; the float64 percentage is the exact quotient. *)

From Stdlib Require Import QArith.
From S2P Require Import Prelude GoStd.
#[global] Open Scope Z_scope.

Module StorageHealth.

Definition Healthy : string := "healthy".
Definition Degraded : string := "degraded".
Definition Unhealthy : string := "unhealthy".

Definition Qltb (x y : Q) : bool := negb (Qle_bool y x).

Lemma Qltb_lt x y : Qltb x y = true ↔ (x < y)%Q.
Proof.
  unfold Qltb. rewrite negb_true_iff, <- not_true_iff_false, Qle_bool_iff.
  split; [apply Qnot_le_lt|apply Qlt_not_le].
Qed.

#[export] Instance less_Q : StrictWeak Qltb.
Proof.
  split; intros *; rewrite <- !not_true_iff_false, !Qltb_lt.
  - apply Qlt_not_le || (intros H H'; by apply (Qlt_irrefl x), (Qlt_trans _ y)).
  - intros H1 H2. apply Qle_not_lt. apply Qnot_lt_le in H1, H2. by apply (Qle_trans _ y).
Qed.

Record Report := mkReport {
  sr_Health : string;
  sr_TotalBytes : Z;
  sr_FreeBytes : Z;
  sr_FreePercent : Q;
  sr_ProbeMS : Z;
  sr_Error : string
}.

Record Thresholds := mkThresholds {
  th_MinFreeBytes : Z;
  th_MinFreePercent : Q;
  th_MaxProbe : Duration
}.

(** What the system answers to one probe: [None] is success, [Some e] an error;
    [da_buf] the random bytes written, [da_read] what is read back. *)
Record disk_answers := mkDiskAnswers {
  da_mkdir : option string;
  da_space : result (Z * Z);
  da_buf : string;
  da_open : option string;
  da_write : option string;
  da_sync : option string;
  da_close : option string;
  da_read : result string;
  da_elapsed : Duration
}.

Definition first_error (l : list (option string)) : option string :=
  match omap id l with e :: _ => Some e | [] => None end.

(** Write, sync and close, then read back; a file that does not open is not
    closed. *)
Definition write_probe (d : disk_answers) : option string :=
  let err := match d.(da_open) with
             | Some e => Some e
             | None => first_error [d.(da_write); d.(da_sync); d.(da_close)]
             end in
  match err with
  | Some e => Some e
  | None =>
      match d.(da_read) with
      | Err e => Some e
      | Ok got => if got ≠? d.(da_buf) then Some "storage probe readback mismatch" else None
      end
  end.

Definition Milliseconds (d : Duration) : Z := Z.quot d Millisecond.

Definition Probe (d : disk_answers) (th : Thresholds) : Report :=
  match d.(da_mkdir) with
  | Some e => mkReport Unhealthy 0 0 0 0 e
  | None =>
      match d.(da_space) with
      | Err e => mkReport Unhealthy 0 0 0 0 e
      | Ok (total, free) =>
          let pct := if 0 <? total then (inject_Z free * 100 / inject_Z total)%Q else 0%Q in
          let ms := Milliseconds d.(da_elapsed) in
          match write_probe d with
          | Some e => mkReport Unhealthy total free pct ms e
          | None =>
              let h := Healthy in
              let h := if (0 <? th.(th_MinFreeBytes)) && (free <? th.(th_MinFreeBytes))
                       then Degraded else h in
              let h := if Qltb 0 th.(th_MinFreePercent) && Qltb pct th.(th_MinFreePercent)
                       then Degraded else h in
              let h := if (0 <? th.(th_MaxProbe)) && (th.(th_MaxProbe) <? wrap64 (ms * Millisecond))
                       then Degraded else h in
              mkReport h total free pct ms ""
          end
      end
  end.

(** A healthy report means the probe went through and every threshold holds. *)
Lemma Probe_healthy d th :
  (Probe d th).(sr_Health) = Healthy ↔
  d.(da_mkdir) = None ∧ write_probe d = None ∧ ∃ total free, d.(da_space) = Ok (total, free) ∧
    (0 < th.(th_MinFreeBytes) → th.(th_MinFreeBytes) ≤ free) ∧
    ((0 < th.(th_MinFreePercent))%Q →
     (th.(th_MinFreePercent) <= (Probe d th).(sr_FreePercent))%Q) ∧
    (0 < th.(th_MaxProbe) → wrap64 ((Probe d th).(sr_ProbeMS) * Millisecond) ≤ th.(th_MaxProbe)).
Proof.
  unfold Probe. destruct (da_mkdir d); [simpl; naive_solver|].
  destruct (da_space d) as [[total free]|]; [|simpl; naive_solver].
  destruct (write_probe d); [simpl; naive_solver|]. simpl.
  set (pct := if 0 <? total then _ else _). set (ms := Milliseconds _).
  destruct ((0 <? th_MaxProbe th) && _) eqn:E3.
  { split; [done|]. intros (_ & _ & t & f & [= <- <-] & _ & _ & H3).
    apply andb_true_iff in E3 as [?%Z.ltb_lt ?%Z.ltb_lt]. lia. }
  destruct (Qltb 0 (th_MinFreePercent th) && _) eqn:E2.
  { split; [done|]. intros (_ & _ & t & f & [= <- <-] & _ & H2 & _).
    apply andb_true_iff in E2 as [H0%Qltb_lt H1%Qltb_lt]. exfalso. apply (Qlt_not_le _ _ H1), H2, H0. }
  destruct ((0 <? th_MinFreeBytes th) && _) eqn:E1.
  { split; [done|]. intros (_ & _ & t & f & [= <- <-] & H1 & _).
    apply andb_true_iff in E1 as [?%Z.ltb_lt ?%Z.ltb_lt]. lia. }
  split; [intros _|done]. split_and!; try done. exists total, free.
  apply andb_false_iff in E1, E2, E3. rewrite !Z.ltb_ge in E1, E3. split_and!; try done.
  - lia.
  - intros H0. destruct E2 as [E2|E2]; [by apply Qltb_lt in H0; congruence|].
    apply Qnot_lt_le. rewrite <- Qltb_lt. by rewrite E2.
  - lia.
Qed.
End StorageHealth.
