(* ===== verification/Requests.v ===== *)
(** * What a scheduler needs of the queue

    The scheduler and the reconcilers file jobs through [Store.Enqueue] and read
    the other tables in between.  [QueueStore] states what they rely on: an
    [Enqueue] of a fresh request adds one row or finds the active twin, and
    disturbs nothing a reader sees.  [filed] is the invariant of their loops. *)

From S2P Require Import Prelude GoStd Json Sha256 Model Payloads QueueSpec MemStore MemJobs SqlStore SqlJobs Control.
#[global] Open Scope Z_scope.

Definition active_key (k : string * string * string) (jobs : gmap string Job) : Prop :=
  ∃ id j, jobs !! id = Some j ∧ is_active (ajob_of j) = true ∧ a_key (ajob_of j) = k.

(** The row [y] is what was asked for in [j]. *)
Record row_of (j y : Job) : Prop := {
  row_key : a_key (ajob_of y) = a_key (ajob_of j);
  row_payload : y.(Job_Payload) = j.(Job_Payload);
  row_priority : y.(Job_Priority) = j.(Job_Priority);
  row_active : is_active (ajob_of y) = true
}.

Class QueueStore (S : Type) `{!Store S} := {
  qs_jobs : S → gmap string Job;
  qs_wf : S → Prop;
  (** the two stores differ in their jobs, transfers and object leases at most *)
  qs_frame : relation S;
  qs_preorder :: PreOrder qs_frame;
  qs_enqueue now token j s :
    qs_wf s → job_request j → j.(Job_ID) = "" → qs_jobs s !! newID "job" token = None →
    ∃ s' x created, st_Enqueue now token j s = (s', Ok (x, created)) ∧
      qs_wf s' ∧ qs_frame s s' ∧
      if (created : bool)
      then ¬ active_key (a_key (ajob_of j)) (qs_jobs s) ∧
           ∃ y, qs_jobs s' = <[newID "job" token := y]> (qs_jobs s) ∧ row_of j y
      else s' = s ∧ active_key (a_key (ajob_of j)) (qs_jobs s);
  qs_listed n s : ∃ js, st_ListJobs n s = Ok js ∧
    ∀ j, j ∈ js → ∃ id, qs_jobs s !! id = Some j;
  qs_expired now n s : ∃ xs, st_ListExpiredReplicationTransfers now n s = Ok xs;
  qs_delete_transfer id s : qs_wf s → ∃ s', st_DeleteReplicationTransfer id s = (s', Ok tt) ∧
    qs_wf s' ∧ qs_frame s s' ∧ qs_jobs s' = qs_jobs s;
  qs_leases : S → gmap string ObjectLease;
  qs_enqueue_leases now token j s s' r :
    st_Enqueue now token j s = (s', r) → qs_leases s' = qs_leases s;
  qs_acquire now token l s :
    qs_wf s → l.(OLease_ID) ≠ "" → l.(OLease_Digest) ≠ "" → l.(OLease_Owner) ≠ "" →
    l.(OLease_ExpiresAt) ≠ time_zero →
    ∃ s', st_AcquireObjectLease now token l s = (s', Ok tt) ∧
      qs_wf s' ∧ qs_frame s s' ∧ qs_jobs s' = qs_jobs s ∧
      qs_leases s' = <[l.(OLease_ID) := l <| OLease_UpdatedAt := now |>]> (qs_leases s);
  qs_agents s s' : qs_frame s s' → st_ListAgents s' = st_ListAgents s;
  qs_generations s s' n : qs_frame s s' → st_ListAllGenerations n s' = st_ListAllGenerations n s;
  qs_replicas s s' gid : qs_frame s s' → st_ListReplicas gid s' = st_ListReplicas gid s;
  qs_sets s s' n : qs_frame s s' → st_ListErasureSets n s' = st_ListErasureSets n s;
  qs_shards s s' d : qs_frame s s' → st_ListErasureShards d s' = st_ListErasureShards d s;
  qs_ref s s' d : qs_frame s s' → st_GetObjectRef d s' = st_GetObjectRef d s
}.

Section Requests.
Context {S : Type} `{!Store S} {E : Env}.

(** [_, created, err := Store.Enqueue(ctx, j); if created { n++ }] *)
Definition enqueue (j : Job) (n : Z) : Prog S Z :=
  x ← pwrite (fun t token => st_Enqueue t token j);
  mret (if (x.2 : bool) then n + 1 else n).

Context `{!QueueStore S}.

(** No job has been given one of the tokens still to be drawn. *)
Definition unused_tokens (i : nat) (s : S) : Prop :=
  ∀ k, (i ≤ k)%nat → qs_jobs s !! newID "job" (fresh_token k) = None.

Definition distinct_tokens : Prop := ∀ a b, fresh_token a = fresh_token b → a = b.

Lemma active_key_mono k jobs jobs' :
  (∀ id j, jobs !! id = Some j → jobs' !! id = Some j) →
  active_key k jobs → active_key k jobs'.
Proof. intros H (id & j & Hj & ? & ?). exists id, j. auto. Qed.

(** What filing jobs does to the store: jobs are added, none is changed. *)
Definition grows (s s' : S) : Prop :=
  qs_frame s s' ∧ ∀ id y, qs_jobs s !! id = Some y → qs_jobs s' !! id = Some y.

#[export] Instance grows_preorder : PreOrder grows.
Proof.
  split; [by intros s|]. intros s1 s2 s3 [F1 G1] [F2 G2]. split; [by etrans|auto].
Qed.

(** From [s0], exactly the requests [reqs] have been filed: [n] rows are new. *)
Record filed (s0 : S) (reqs : list Job) (n : Z) (i : nat) (s : S) : Prop := {
  fl_wf : qs_wf s;
  fl_tokens : unused_tokens i s;
  fl_kept : ∀ id j, qs_jobs s0 !! id = Some j → qs_jobs s !! id = Some j;
  fl_new : ∀ id y, qs_jobs s !! id = Some y → qs_jobs s0 !! id = None →
    ∃ j, j ∈ reqs ∧ row_of j y;
  fl_done : ∀ j, j ∈ reqs → active_key (a_key (ajob_of j)) (qs_jobs s);
  fl_count : Z.of_nat (size (qs_jobs s)) = Z.of_nat (size (qs_jobs s0)) + n
}.

Lemma filed_start i s : qs_wf s → unused_tokens i s → filed s [] 0 i s.
Proof.
  intros Hwf Ht. split; try done; [congruence| |lia].
  intros j Hj. by apply not_elem_of_nil in Hj.
Qed.

Lemma filed_later s0 reqs n i i' s : (i ≤ i')%nat → filed s0 reqs n i s → filed s0 reqs n i' s.
Proof. intros Hi []. split; try done. intros k Hk. apply fl_tokens0. lia. Qed.

(** A write that leaves the jobs alone. *)
Lemma filed_same_jobs s0 reqs n i i' s s' :
  (i ≤ i')%nat → qs_wf s' → qs_jobs s' = qs_jobs s → filed s0 reqs n i s → filed s0 reqs n i' s'.
Proof.
  intros Hi Hwf Hj []. split; rewrite ?Hj; try done.
  intros k Hk. rewrite Hj. apply fl_tokens0. lia.
Qed.

Lemma filed_weaken s0 reqs reqs' n i s :
  (∀ j, j ∈ reqs → j ∈ reqs') → (∀ j, j ∈ reqs' → active_key (a_key (ajob_of j)) (qs_jobs s)) →
  filed s0 reqs n i s → filed s0 reqs' n i s.
Proof.
  intros Hi Hd []. split; try done. intros id y Hy Hn.
  destruct (fl_new0 id y Hy Hn) as (j & Hj & Hr). eauto.
Qed.

(** One more request. *)
Lemma enqueue_filed s0 reqs n i s j :
  distinct_tokens → job_request j → j.(Job_ID) = "" → filed s0 reqs n i s →
  ∃ s' n', enqueue j n i s = (Datatypes.S i, s', Ok n') ∧
    filed s0 (reqs ++ [j]) n' (Datatypes.S i) s' ∧ qs_frame s s' ∧
    (∀ id y, qs_jobs s !! id = Some y → qs_jobs s' !! id = Some y) ∧
    qs_leases s' = qs_leases s.
Proof.
  intros Htok Hreq Hid [Hwf Hun Hkept Hnew Hdone Hcount].
  pose proof (Hun i ltac:(lia)) as Hfree.
  destruct (qs_enqueue (clock i) (fresh_token i) j s Hwf Hreq Hid Hfree)
    as (s' & x & created & E1 & Hwf' & Hfr & Hc).
  exists s', (if created then n + 1 else n). split.
  { unfold enqueue. rewrite (bind_eq _ _ i s (Datatypes.S i) s' (x, created)); [done|].
    unfold pwrite. by rewrite E1. }
  assert (∀ id y, qs_jobs s !! id = Some y → qs_jobs s' !! id = Some y) as Hmono.
  { intros id z Hz. destruct created; [|by destruct Hc as [-> _]].
    destruct Hc as (_ & y & -> & _). rewrite lookup_insert_ne; [done|]. intros <-. congruence. }
  pose proof (qs_enqueue_leases _ _ _ _ _ _ E1) as Hleases. split; [|done]. destruct created.
  - destruct Hc as (_ & y & Hs' & Hy). split; try done.
    + intros k Hk. rewrite Hs', lookup_insert_ne; [apply Hun; lia|].
      intros E'%(inj (newID "job"))%Htok. lia.
    + auto.
    + intros id z Hz Hn. rewrite Hs' in Hz. apply lookup_insert_Some in Hz as [[_ <-]|[_ Hz]].
      * exists j. split; [|done]. apply elem_of_app. right. by left.
      * destruct (Hnew id z Hz Hn) as (j' & Hj' & Hr). exists j'. split; [|done].
        apply elem_of_app. by left.
    + intros j' [Hj'| ->%list_elem_of_singleton]%elem_of_app.
      * eapply active_key_mono; [exact Hmono|auto].
      * exists (newID "job" (fresh_token i)), y. rewrite Hs', lookup_insert_eq.
        split_and!; [done|apply Hy|apply Hy].
    + rewrite Hs', map_size_insert_None by done. lia.
  - destruct Hc as [-> Hact]. split; try done.
    + intros k Hk. apply Hun. lia.
    + intros id z Hz Hn. destruct (Hnew id z Hz Hn) as (j' & Hj' & Hr). exists j'.
      split; [|done]. apply elem_of_app. by left.
    + intros j' [Hj'| ->%list_elem_of_singleton]%elem_of_app; auto.
Qed.
End Requests.

(** ** Reconcilers in sequence *)

(** One part's run: it succeeds, and adds the [n] jobs it counts, each of them asked
    for in a request with [P], and nothing else to the jobs. *)
Record ran {S} `{!Store S} `{!QueueStore S} {E : Env} (P : Job → Prop) (p : Prog S Z)
    (i : nat) (s : S) (i' : nat) (s' : S) (n : Z) : Prop := {
  ran_eq : p i s = (i', s', Ok n);
  ran_wf : qs_wf s';
  ran_unused : unused_tokens i' s';
  ran_grows : grows s s';
  ran_count : Z.of_nat (size (qs_jobs s')) = Z.of_nat (size (qs_jobs s)) + n;
  ran_new : ∀ id y, qs_jobs s' !! id = Some y → qs_jobs s !! id = None → ∃ j, P j ∧ row_of j y
}.
#[global] Arguments ran_grows {_ _ _ _ _ _ _ _ _ _ _} _.

Section Sequence.
Context {S : Type} `{!Store S} `{!QueueStore S} {E : Env} (P : Job → Prop).

(** [cn, err := p; if err != nil { return }; n += cn] *)
Definition and_then (p q : Prog S Z) : Prog S Z := n ← p; m ← q; mret (n + m).

Lemma ran_ret i s : qs_wf s → unused_tokens i s → ran P (mret 0) i s i s 0.
Proof. intros Hw Hu. split; try done; [lia|congruence]. Qed.

(** What the invariant of the loops gives at their end. *)
Lemma ran_filed p i s i' s' n reqs :
  p i s = (i', s', Ok n) → filed s reqs n i' s' → grows s s' → (∀ j, j ∈ reqs → P j) →
  ran P p i s i' s' n.
Proof.
  intros Hp [Hw Hu Hk Hn Hd Hc] Hfr HP. split; try done.
  intros id y Hy Hno. destruct (Hn id y Hy Hno) as (j & ? & ?). eauto.
Qed.

Lemma ran_and_then p q i s i1 s1 n1 i2 s2 n2 :
  ran P p i s i1 s1 n1 → ran P q i1 s1 i2 s2 n2 → ran P (and_then p q) i s i2 s2 (n1 + n2).
Proof.
  intros [E1 Hw1 Hu1 G1 C1 N1] [E2 Hw2 Hu2 G2 C2 N2]. split; try done; [|by etrans|lia|].
  - unfold and_then. by rewrite (bind_eq _ _ _ _ _ _ _ E1), (bind_eq _ _ _ _ _ _ _ E2).
  - intros id y Hy Hn. destruct (qs_jobs s1 !! id) as [z|] eqn:Ez; [|by eapply N2].
    destruct G2 as [_ G2]. rewrite (G2 id z Ez) in Hy. injection Hy as <-. by eapply N1.
Qed.
End Sequence.

(** ** The two stores serve *)

#[export] Program Instance sql_queue_store {MO : MapOrder} : QueueStore Sql.SQLStore := {
  qs_jobs s := s.(Sql.jobs);
  qs_wf := SqlJobs.wf;
  qs_leases s := s.(Sql.object_leases);
  qs_frame s s' := s' = s <| Sql.jobs := s'.(Sql.jobs) |>
    <| Sql.replication_transfers := s'.(Sql.replication_transfers) |>
    <| Sql.object_leases := s'.(Sql.object_leases) |>
}.
Next Obligation.
  intros MO. split; [by intros []|]. intros s1 s2 s3 H12 H23. rewrite H12 in H23. exact H23.
Qed.
Next Obligation.
  intros MO now token j s Hwf Hreq Hid Hfresh. simpl.
  pose proof (SqlJobs.prepare_job_insertable now token j Hreq) as Hins.
  assert ((Sql.prepare_job now token j).(Job_ID) = newID "job" token ∧
    row_of j (Sql.job_row (Sql.prepare_job now token j))) as [Hpid Hrow].
  { split; [by rewrite SqlJobs.prepare_job_eq, Hid|].
    split; try (rewrite SqlJobs.prepare_job_eq; done).
    rewrite is_active_of. change (Job_Status (Sql.job_row ?p)) with (Job_Status p).
    by rewrite (SqlJobs.ins_status _ Hins). }
  pose proof (row_key _ _ Hrow) as Hpk.
  change (a_key (ajob_of (Sql.job_row (Sql.prepare_job now token j))))
    with (a_key (ajob_of (Sql.prepare_job now token j))) in Hpk.
  unfold Sql.Enqueue. set (p := Sql.prepare_job now token j) in *. clearbody p.
  destruct (Sql.find_active p s) as [x|] eqn:Hf.
  - apply SqlJobs.find_active_Some in Hf as ([i Hx] & Ha & Hk). exists s, x, false.
    pose proof (SqlJobs.wf_lookup _ _ _ Hwf Hx) as Hxi.
    unfold Sql.existing_job, Sql.GetJob. rewrite Hxi, Hx. split_and!; try done.
    { by destruct s. }
    exists i, x. split_and!; [done|by rewrite is_active_of|by rewrite Hk].
  - exists (s <| Sql.jobs := <[p.(Job_ID) := Sql.job_row p]> s.(Sql.jobs) |>), p, true.
    assert (Sql.EnqueueInsert p s =
      (s <| Sql.jobs := <[p.(Job_ID) := Sql.job_row p]> s.(Sql.jobs) |>, Ok (p, true))) as E.
    { unfold Sql.EnqueueInsert. rewrite Hpid, Hfresh.
      assert (Sql.violates_active_index (Sql.job_row p) s = false) as ->; [|done].
      apply SqlJobs.violates_false; [done| |].
      { unfold Sql.status_active, Sql.job_row; simpl.
        by rewrite (SqlJobs.ins_status _ Hins). }
      intros i x Hx _ Ha. change (a_key (ajob_of (Sql.job_row p))) with (a_key (ajob_of p)).
      by eapply SqlJobs.find_active_None. }
    destruct (SqlJobs.EnqueueInsert_new now p s _ p Hwf Hins E) as (Hwf' & _ & _ & _).
    split; [done|]. split; [done|]. split; [done|]. split.
    + intros (i & x & Hx & Ha & Hk). rewrite is_active_of in Ha.
      eapply (SqlJobs.find_active_None p s x i); try done. by rewrite Hk.
    + exists (Sql.job_row p). simpl. by rewrite Hpid.
Qed.
Next Obligation.
  intros MO n s. eexists. split; [done|]. intros j Hj.
  unfold Sql.ListJobs, Sql.LIMIT in Hj. set (k := Z.to_nat _) in Hj.
  assert (j ∈ sort_slice Sql.newest_job (Sql.select Sql.all_rows s.(Sql.jobs))) as H
    by (rewrite <- (take_drop k (sort_slice _ _)); apply elem_of_app; by left).
  rewrite elem_of_sort_slice in H. apply SqlJobs.elem_of_select in H. naive_solver.
Qed.
Next Obligation. intros MO now n s. by eexists. Qed.
Next Obligation. intros MO id s Hwf. eexists. by destruct s. Qed.
Next Obligation.
  intros MO now token j s s' r. simpl. unfold Sql.Enqueue, Sql.EnqueueInsert.
  repeat case_match; by intros [= <- _].
Qed.
Next Obligation.
  intros MO now token l s Hwf Hid Hd Ho He. simpl. unfold Sql.AcquireObjectLease, IsZero.
  rewrite (bool_decide_eq_false_2 _ Hid), (bool_decide_eq_false_2 _ Hd),
    (bool_decide_eq_false_2 _ Ho). apply Z.eqb_neq in He. unfold time_zero in He. rewrite He.
  simpl. eexists.
  split_and!; try done. simpl. unfold Sql.upsert. by case_match.
Qed.
Next Obligation. by intros MO s s' ->. Qed.
Next Obligation. by intros MO s s' n ->. Qed.
Next Obligation. by intros MO s s' gid ->. Qed.
Next Obligation. by intros MO s s' n ->. Qed.
Next Obligation. by intros MO s s' d ->. Qed.
Next Obligation. by intros MO s s' d ->. Qed.

#[export] Program Instance mem_queue_store {MO : MapOrder} : QueueStore Mem.MemoryStore := {
  qs_jobs m := m.(Mem.Jobs);
  qs_wf := MemJobs.wf;
  qs_leases m := m.(Mem.ObjectLeases);
  qs_frame m m' := m' = m <| Mem.Jobs := m'.(Mem.Jobs) |>
    <| Mem.Transfers := m'.(Mem.Transfers) |> <| Mem.ObjectLeases := m'.(Mem.ObjectLeases) |>
}.
Next Obligation.
  intros MO. split; [by intros []|]. intros s1 s2 s3 H12 H23. rewrite H12 in H23. exact H23.
Qed.
Next Obligation.
  intros MO now token j m Hwf Hreq Hid Hfresh. simpl.
  destruct (Mem.Enqueue now token j m) as [m' [x created]] eqn:E.
  exists m', x, created. split; [done|]. destruct created.
  - assert ((Mem.new_job now token j).(Job_ID) = newID "job" token ∧
      row_of j (Mem.new_job now token j)) as [Hn Hrow].
    { split; [by rewrite MemJobs.new_job_eq, Hid|]. split; try (rewrite MemJobs.new_job_eq; done).
      rewrite is_active_of, MemJobs.new_job_eq. simpl.
      destruct (req_status _ Hreq) as [->| ->]; done. }
    destruct (MemJobs.Enqueue_new now token j m m' x Hwf Hreq) as (Hwf' & Hst & Hx & ->);
      [by rewrite Hn|done|].
    assert (m' = m <| Mem.Jobs := <[newID "job" token := Mem.new_job now token j]> m.(Mem.Jobs) |>)
      as Hm'.
    { revert E. unfold Mem.Enqueue. destruct (List.find _ _); [done|].
      rewrite Hn. intros E'. by injection E' as <-. }
    split_and!; [done|by rewrite Hm'|..].
    + intros (i & y & Hy & Ha & Hky). by apply (MemJobs.Enqueue_no_twin _ _ _ _ _ _ _ _ E Hy Ha).
    + exists (Mem.new_job now token j). by rewrite Hm'.
  - destruct (MemJobs.Enqueue_dup _ _ _ _ _ _ E) as (-> & Hk & Ha & [i Hi]).
    split_and!; try done; [by destruct m|].
    exists i, x. split_and!; [done|by rewrite is_active_of|].
    unfold Mem.same_key in Hk. bool_to_prop. unfold a_key; simpl. congruence.
Qed.
Next Obligation.
  intros MO n s. eexists. split; [done|]. intros j Hj.
  unfold Mem.ListJobs in Hj. apply clip_incl in Hj.
  by rewrite elem_of_sort_slice, elem_of_range_vals in Hj.
Qed.
Next Obligation. intros MO now n s. by eexists. Qed.
Next Obligation. intros MO id s Hwf. eexists. by destruct s. Qed.
Next Obligation.
  intros MO now token j s s' r. simpl. unfold Mem.Enqueue.
  destruct (List.find _ _); by intros [= <- _].
Qed.
Next Obligation.
  intros MO now token l s Hwf Hid Hd Ho He. simpl. unfold Mem.AcquireObjectLease, IsZero.
  rewrite (bool_decide_eq_false_2 _ Hid), (bool_decide_eq_false_2 _ Hd),
    (bool_decide_eq_false_2 _ Ho). apply Z.eqb_neq in He. unfold time_zero in He. rewrite He.
  simpl. eexists.
  split_and!; try done.
Qed.
Next Obligation. by intros MO s s' ->. Qed.
Next Obligation. by intros MO s s' n ->. Qed.
Next Obligation. by intros MO s s' gid ->. Qed.
Next Obligation. by intros MO s s' n ->. Qed.
Next Obligation. by intros MO s s' d ->. Qed.
Next Obligation. by intros MO s s' d ->. Qed.
