(* ===== verification/Placement.v ===== *)
(** * Which agents may hold what (replication.go, cas_reconcile.go,
    erasure_distributed.go, worker.go)

    The predicates on agents the reconcilers share: health, capacity, failure
    domain, pool, allow lists; the choice of the node a restore runs on
    ([SelectRestoreAffinityWithStorage]). *)

From Stdlib Require Import Ascii String QArith.
From S2P Require Import Prelude GoStd Json Sha256 Model Payloads SqlStore Config StorageHealth Control.
#[global] Open Scope Z_scope.

Module Placement.
Import StorageHealth(Healthy, Degraded, Unhealthy, Qltb, Qltb_lt).

Definition agentReadable (a : Agent) (cfg : StorageDataConfig) : bool :=
  if negb cfg.(sd_Enabled) then true
  else a.(Agent_StorageHealth) ≠? Unhealthy.

Definition agentAcceptsPlacement (a : Agent) (cfg : StorageDataConfig) : bool :=
  if negb cfg.(sd_Enabled) then true
  else if (a.(Agent_StorageHealth) ≟ Unhealthy) || (a.(Agent_StorageHealth) ≟ Degraded)
          || (TrimSpace a.(Agent_StorageHealth) ≟ "") then false
  else if (0 <? cfg.(sd_MinFreeBytes)) && (0 <? a.(Agent_StorageFreeBytes))
          && (a.(Agent_StorageFreeBytes) <? cfg.(sd_MinFreeBytes)) then false
  else if Qltb 0 cfg.(sd_MinFreePercent) && (0 <? a.(Agent_StorageTotalBytes))
          && Qltb a.(Agent_StorageFreePercent) cfg.(sd_MinFreePercent) then false
  else true.

Definition agentCountsDurable (a : Agent) (cfg : StorageDataConfig) : bool :=
  if negb cfg.(sd_Enabled) then true
  else if (a.(Agent_StorageHealth) ≟ Unhealthy) || (TrimSpace a.(Agent_StorageHealth) ≟ "")
  then false
  else if cfg.(sd_EvacuateDegraded) && (a.(Agent_StorageHealth) ≟ Degraded) then false
  else true.

Definition agentHasCapacityFor (a : Agent) (cfg : StorageDataConfig) (objectBytes : Z) : bool :=
  if negb (agentAcceptsPlacement a cfg) then false
  else if (objectBytes <=? 0) || (a.(Agent_StorageFreeBytes) <=? 0) then true
  else
    let reserve := if cfg.(sd_MinFreeBytes) <? 0 then 0 else cfg.(sd_MinFreeBytes) in
    reserve <=? wrap64 (a.(Agent_StorageFreeBytes) - objectBytes).

(** [fmt.Sscanf(s, "%d", &n)] with its error ignored: the leading integer of
    [s], 0 if there is none or it does not fit. *)
Fixpoint digits_value (acc : Z) (n : nat) (l : list ascii) : Z * nat :=
  match l with
  | c :: l' =>
      match digit c with
      | Some d => digits_value (acc * 10 + d) (S n) l'
      | None => (acc, n)
      end
  | [] => (acc, n)
  end.

Definition sscanf_d (s : string) : Z :=
  let l := String.list_ascii_of_string s in
  let '(neg, l) :=
    match l with
    | c :: l' => if c ≟ "-"%char then (true, l') else if c ≟ "+"%char then (false, l') else (false, l)
    | [] => (false, l)
    end in
  let '(v, n) := digits_value 0 0 l in
  let v := if neg then - v else v in
  if (n =? 0)%nat then 0
  else if (min_int64 <=? v) && (v <=? max_int64) then v else 0.

(** A JSON number is a float64 truncated to an int. *)
Definition agentBandwidthMbps (a : Agent) : Z :=
  match as_obj a.(Agent_LabelsJSON) with
  | None => 0
  | Some labels =>
      match map_field "bandwidth_mbps" labels with
      | Some (JInt z) => z
      | Some (JFloat q) => Z.quot (Qnum q) (Z.pos (Qden q))
      | Some (JStr s) => sscanf_d (TrimSpace s)
      | _ => 0
      end
  end.

Definition agentFailureDomain (a : Agent) (key : string) : string :=
  let key := TrimSpace key in
  if key ≟ "" then ""
  else if a.(Agent_ID) ≟ LocalWorkerAffinity then "__local__"
  else
    match as_string_map a.(Agent_LabelsJSON) with
    | None => ""
    | Some labels => TrimSpace (zero_or "" (labels !! key))
    end.

Definition agentAllowed (id : string) (allowed excluded : list string) : bool :=
  if existsb (fun x => EqualFold (TrimSpace x) id) excluded then false
  else match allowed with
  | [] => true
  | _ => existsb (fun x => EqualFold (TrimSpace x) id) allowed
  end.

Definition agentPool (a : Agent) (label : string) : string :=
  let label := TrimSpace label in
  if label ≟ "" then "default"
  else
    match as_string_map a.(Agent_LabelsJSON) with
    | None => "default"
    | Some m =>
        let v := TrimSpace (zero_or "" (m !! label)) in
        if v ≟ "" then "default" else v
    end.

(** [fmt.Sprint] of anything but a string is never blank. *)
Definition agentInShardPool (a : Agent) (label : string) : bool :=
  let label := TrimSpace label in
  if label ≟ "" then true
  else
    match as_obj a.(Agent_LabelsJSON) with
    | None => false
    | Some m =>
        match map_field label m with
        | None => false
        | Some (JStr s) => TrimSpace s ≠? ""
        | Some _ => true
        end
    end.

(** [agent://<identity>/...] *)
Definition AffinityFromMetaPath (metaPath : string) : string :=
  if negb (HasPrefix metaPath "agent://") then LocalWorkerAffinity
  else TrimSpace (cut_before "/"%char (TrimPrefix metaPath "agent://")).

(** ** Capacity *)

Lemma agentAcceptsPlacement_health a cfg :
  cfg.(sd_Enabled) = true → agentAcceptsPlacement a cfg = true →
  a.(Agent_StorageHealth) ≠ Unhealthy ∧ a.(Agent_StorageHealth) ≠ Degraded.
Proof.
  unfold agentAcceptsPlacement. intros ->. simpl. intros H. repeat case_if; by bool_to_prop.
Qed.

Lemma accepts_readable a cfg :
  agentAcceptsPlacement a cfg = true → agentReadable a cfg = true.
Proof.
  intros H. unfold agentReadable. destruct (sd_Enabled cfg) eqn:E; [|done]. simpl.
  destruct (agentAcceptsPlacement_health _ _ E H) as [Hn _].
  by rewrite bool_decide_eq_false_2.
Qed.

Lemma accepts_durable a cfg :
  agentAcceptsPlacement a cfg = true → agentCountsDurable a cfg = true.
Proof.
  unfold agentAcceptsPlacement, agentCountsDurable.
  destruct (sd_Enabled cfg); [|done]. simpl. intros H.
  destruct (bool_decide (Agent_StorageHealth a = Unhealthy)); [done|].
  destruct (bool_decide (Agent_StorageHealth a = Degraded)); [done|].
  destruct (bool_decide (TrimSpace (Agent_StorageHealth a) = "")); [done|].
  by rewrite andb_false_r.
Qed.

Lemma agentAllowed_excluded id allowed excluded :
  id ∈ excluded → TrimSpace id = id → agentAllowed id allowed excluded = false.
Proof.
  intros Hin Ht. unfold agentAllowed.
  assert (existsb (fun x => EqualFold (TrimSpace x) id) excluded = true) as ->; [|done].
  apply existsb_exists. exists id. split; [by apply list_elem_of_In|].
  rewrite Ht. apply EqualFold_refl.
Qed.

(** A replica placed with [agentHasCapacityFor] leaves the reserve free. *)
Lemma capacity_leaves_reserve a cfg n :
  in_int64 a.(Agent_StorageFreeBytes) → 0 < n ≤ max_int64 →
  0 < a.(Agent_StorageFreeBytes) → agentHasCapacityFor a cfg n = true →
  n + Z.max 0 cfg.(sd_MinFreeBytes) ≤ a.(Agent_StorageFreeBytes).
Proof.
  unfold agentHasCapacityFor, in_int64. intros Hf Hn Hpos.
  destruct (agentAcceptsPlacement a cfg); [simpl|done].
  destruct (Z.leb_spec n 0); [lia|].
  destruct (Z.leb_spec (Agent_StorageFreeBytes a) 0); [lia|]. simpl.
  rewrite wrap64_id; [|unfold in_int64, min_int64, max_int64, two63 in *; lia].
  rewrite Z.leb_le. destruct (Z.ltb_spec (sd_MinFreeBytes cfg) 0); lia.
Qed.

(** ** Where a restore runs *)

Section Restore.
Context {MO : MapOrder} {S : Type} `{!Store S} {E : Env}.
Local Notation "'prog' A" := (Prog S A) (at level 10).

Definition agent_timeout (cfg : ReplicationConfig) : Duration :=
  duration_or cfg.(rep_AgentTimeout) (2 * Minute).

Definition fresh (now : Time) (timeout : Duration) (a : Agent) : bool :=
  time_sub now a.(Agent_LastSeenAt) <=? timeout.

(** The pure part: from the agents and the replicas to the choice. *)
Definition choose_restore (now : Time) (generationID preferred : string)
    (cfg : ReplicationConfig) (storageCfg : StorageDataConfig)
    (agents : list Agent) (reps : list GenerationReplica) : result string :=
  let online : gset string :=
    {[LocalWorkerAffinity]} ∪
    list_to_set (Agent_ID <$> List.filter (fun a =>
      fresh now (agent_timeout cfg) a && agentReadable a storageCfg) agents) in
  let available : gset string :=
    list_to_set (Replica_AgentID <$> List.filter (fun rp =>
      (rp.(Replica_State) ≟ ReplicaReady) && bool_decide (rp.(Replica_AgentID) ∈ online)) reps) in
  if bool_decide (preferred ∈ available) then Ok preferred
  else
    match sort_strings (elements available) with
    | id :: _ => Ok id
    | [] => Err ("generation " +:+ generationID +:+ " has no online ready replica")
    end.

Definition SelectRestoreAffinityWithStorage (generationID preferredMetaPath : string)
    (cfg : ReplicationConfig) (storageCfg : StorageDataConfig) : prog string :=
  now ← pnow;
  agents ← pread st_ListAgents;
  reps ← pread (st_ListReplicas generationID);
  pread (fun _ => choose_restore now generationID (AffinityFromMetaPath preferredMetaPath)
    cfg storageCfg agents reps).

Definition SelectRestoreAffinity (generationID preferredMetaPath : string)
    (cfg : ReplicationConfig) : prog string :=
  SelectRestoreAffinityWithStorage generationID preferredMetaPath cfg zero_StorageDataConfig.

(** The agent can serve the generation: a ready replica on the local worker or
    on an agent that is online with readable storage. *)
Definition servable (now : Time) (cfg : ReplicationConfig) (storageCfg : StorageDataConfig)
    (agents : list Agent) (reps : list GenerationReplica) (id : string) : Prop :=
  (∃ rp, rp ∈ reps ∧ rp.(Replica_AgentID) = id ∧ rp.(Replica_State) = ReplicaReady) ∧
  (id = LocalWorkerAffinity ∨
   ∃ a, a ∈ agents ∧ a.(Agent_ID) = id ∧ fresh now (agent_timeout cfg) a = true ∧
     agentReadable a storageCfg = true).

Lemma choose_restore_spec now gid preferred cfg sc agents reps :
  let r := choose_restore now gid preferred cfg sc agents reps in
  (∀ id, r = Ok id → servable now cfg sc agents reps id) ∧
  (servable now cfg sc agents reps preferred → r = Ok preferred) ∧
  (is_ok r = false ↔ ∀ id, ¬ servable now cfg sc agents reps id).
Proof.
  unfold choose_restore. set (online := _ ∪ _). set (available := list_to_set _).
  assert (∀ id, id ∈ available ↔ servable now cfg sc agents reps id) as Hav.
  { intros id. unfold available, servable.
    rewrite elem_of_list_to_set, list_elem_of_fmap.
    assert (id ∈ online ↔ id = LocalWorkerAffinity ∨
      ∃ a, a ∈ agents ∧ a.(Agent_ID) = id ∧ fresh now (agent_timeout cfg) a = true ∧
        agentReadable a sc = true) as Hon.
    { unfold online. rewrite elem_of_union, elem_of_singleton, elem_of_list_to_set,
        list_elem_of_fmap. f_equiv. split.
      - intros (a & -> & Ha). rewrite list_elem_of_In, filter_In, <- list_elem_of_In in Ha.
        destruct Ha as [Ha Hf]. bool_to_prop. by exists a.
      - intros (a & Ha & <- & Hf & Hr). exists a. split; [done|].
        rewrite list_elem_of_In, filter_In, <- list_elem_of_In. by rewrite Hf, Hr. }
    rewrite <- Hon. split.
    - intros (rp & -> & Hrp). rewrite list_elem_of_In, filter_In, <- list_elem_of_In in Hrp.
      destruct Hrp as [Hrp Hb]. bool_to_prop. split; [by exists rp|done].
    - intros [(rp & Hrp & <- & Hs) Hin]. exists rp. split; [done|].
      rewrite list_elem_of_In, filter_In, <- list_elem_of_In. split; [done|].
      by rewrite !bool_decide_eq_true_2. }
  case_bool_decide as Hp; simpl.
  { split_and!; [by intros id [= <-]; apply Hav|done|].
    split; [done|]. intros Hn. exfalso. by apply (Hn preferred), Hav. }
  assert (∀ id, id ∈ sort_strings (elements available) ↔ id ∈ available) as Hel.
  { intros id. unfold sort_strings. by rewrite elem_of_sort_slice, elem_of_elements. }
  destruct (sort_strings (elements available)) as [|x l] eqn:El; simpl.
  - split_and!; [done|by intros H; exfalso; apply Hp, Hav|]. split; [|done].
    intros _ id Hid. apply Hav, Hel in Hid. by apply not_elem_of_nil in Hid.
  - assert (x ∈ available) as Hx by (apply Hel; by left).
    split_and!; [by intros id [= <-]; apply Hav|by intros H; exfalso; apply Hp, Hav|].
    split; [done|]. intros Hn. exfalso. by apply (Hn x), Hav.
Qed.

(** A restore is routed to a node that can serve it: the affinity chosen
    always has a ready replica and is the local worker or an agent that is online
    with readable storage; the node that produced the generation is preferred
    whenever it qualifies; and the call fails exactly when no node qualifies. *)
Theorem restore_goes_to_a_servable_node gid meta cfg sc i (s : S) agents reps :
  st_ListAgents s = Ok agents → st_ListReplicas gid s = Ok reps →
  ∃ r, SelectRestoreAffinityWithStorage gid meta cfg sc i s = (Datatypes.S i, s, r) ∧
    (∀ id, r = Ok id → servable (clock i) cfg sc agents reps id) ∧
    (servable (clock i) cfg sc agents reps (AffinityFromMetaPath meta) →
       r = Ok (AffinityFromMetaPath meta)) ∧
    (is_ok r = false ↔ ∀ id, ¬ servable (clock i) cfg sc agents reps id).
Proof.
  intros Ha Hr. unfold SelectRestoreAffinityWithStorage, mbind, prog_bind, pbind, pnow, pread.
  rewrite Ha, Hr. eexists. split; [done|]. apply choose_restore_spec.
Qed.
End Restore.

(** Two agents hold the generation; the one that made it is unhealthy. *)
Definition demo_storage : StorageDataConfig := zero_StorageDataConfig <| sd_Enabled := true |>.
Definition demo_replication : ReplicationConfig :=
  zero_ReplicationConfig <| rep_AgentTimeout := "5m" |>.
Definition demo_agent (id health : string) : Agent :=
  zero_Agent <| Agent_ID := id |> <| Agent_StorageHealth := health |>
    <| Agent_LastSeenAt := 1000 * Second |>.
Definition demo_replica (id : string) : GenerationReplica :=
  zero_GenerationReplica <| Replica_GenerationID := "g1" |> <| Replica_AgentID := id |>
    <| Replica_State := ReplicaReady |>.
Definition demo_store : Sql.SQLStore :=
  Sql.empty_store
    <| Sql.agents := {[ "a1" := demo_agent "a1" Unhealthy; "a2" := demo_agent "a2" Healthy ]} |>
    <| Sql.generation_replicas :=
         {[ ("g1", "a1") := demo_replica "a1"; ("g1", "a2") := demo_replica "a2" ]} |>.

Example demo_route :
  (SelectRestoreAffinityWithStorage (E := tick_env) "g1" "agent://a1/g1.json"
    demo_replication demo_storage 0%nat demo_store).2 = Ok "a2".
Proof. vm_compute. reflexivity. Qed.

Lemma restore_goes_to_a_servable_node_witness :
  ∃ r, SelectRestoreAffinityWithStorage (E := tick_env) "g1" "agent://a1/g1.json"
      demo_replication demo_storage 0%nat demo_store = (1%nat, demo_store, r) ∧
    (∀ id, r = Ok id → servable (1000 * Second) demo_replication demo_storage
       (Sql.ListAgents demo_store) (Sql.ListReplicas "g1" demo_store) id) ∧
    (servable (1000 * Second) demo_replication demo_storage (Sql.ListAgents demo_store)
       (Sql.ListReplicas "g1" demo_store) "a1" → r = Ok "a1") ∧
    (is_ok r = false ↔ ∀ id, ¬ servable (1000 * Second) demo_replication demo_storage
       (Sql.ListAgents demo_store) (Sql.ListReplicas "g1" demo_store) id).
Proof.
  apply (restore_goes_to_a_servable_node (E := tick_env) "g1" "agent://a1/g1.json"
    demo_replication demo_storage 0%nat demo_store); reflexivity.
Defined.
End Placement.
