(* ===== verification/CasReconcile.v ===== *)
(** * Reconciliation of content-addressed objects

    Models [CASReconciler.Reconcile] of [internal/controlplane/cas_reconcile.go]
    and the comparison of [inventory.go]: agents of one pool whose inventories
    diverge are sent each other's objects.  The theorem says which transfers are
    filed: exactly the wanted ones that the job history does not hold back. *)

From Stdlib Require Import Ascii String.
From S2P Require Import Prelude GoStd Text Json GoTime Sha256 ObjectInventory Model Payloads QueueSpec SqlStore Config Control StorageHealth Requests Placement.
#[global] Open Scope Z_scope.

Module CasReconcile.
Import StorageHealth Placement ObjectInventory.

Definition shortRoot (s : string) : string :=
  if (12 <? String.length s)%nat then String.substring 0 12 s else s.

Definition divergentSourceBytes (inv : Inventory) (prefixes : list string) : Z :=
  let want : gset string := list_to_set ((fun p => ToLower (TrimSpace p)) <$> prefixes) in
  foldl (fun n seg => if bool_decide (ToLower seg.(Seg_Prefix) ∈ want)
                      then wrap64 (n + seg.(Seg_Bytes)) else n) 0 inv.(Inv_Segments).

Definition no_text (t : json_text) : bool :=
  match t with NotJson s => s ≟ "" | Json _ => false end.

Section Reconcile.
Context {MO : MapOrder} {S : Type} `{!Store S} {E : Env}.
Context (cfg : Config).
Local Notation rcfg := cfg.(cfg_Replication).
Local Notation scfg := cfg.(cfg_Storage).

Record pools := mkPools {
  eligible : gmap string Agent;
  inventories : gmap string Inventory;
  sourcePools : gmap string (list string);
  targetPools : gmap string (list string)
}.

(** The inventory of an agent that takes part. *)
Definition cas_agent (now : Time) (a : Agent) : option Inventory :=
  if negb (agentAllowed a.(Agent_ID) rcfg.(rep_AllowedAgents) rcfg.(rep_ExcludedAgents))
     || negb (fresh now (agent_timeout rcfg) a)
     || (TrimSpace a.(Agent_ReplicationPublicKey) ≟ "") || no_text a.(Agent_InventoryJSON)
  then None
  else if negb (agentReadable a scfg) then None
  else DecodeCompact a.(Agent_InventoryJSON).

Definition append_to (pool id : string) (m : gmap string (list string)) : gmap string (list string) :=
  <[pool := zero_or [] (m !! pool) ++ [id]]> m.

Definition scan_cas_agent (now : Time) (p : pools) (a : Agent) : pools :=
  match cas_agent now a with
  | None => p
  | Some x =>
      let pool := agentPool a scfg.(sd_ObjectPoolLabel) in
      mkPools (<[a.(Agent_ID) := a]> p.(eligible)) (<[a.(Agent_ID) := x]> p.(inventories))
        (append_to pool a.(Agent_ID) p.(sourcePools))
        (if agentAcceptsPlacement a scfg then append_to pool a.(Agent_ID) p.(targetPools)
         else p.(targetPools))
  end.

Definition pools_of (now : Time) (agents : list Agent) : pools :=
  foldl (scan_cas_agent now) (mkPools ∅ ∅ ∅ ∅) agents.

(** The last job listed for a target is the one remembered. *)
Definition known_jobs (jobs : list Job) : gmap string Job :=
  foldl (fun m j => if j.(Job_Kind) ≟ "replicate-cas" then <[j.(Job_Target) := j]> m else m) ∅ jobs.

Definition retry_cooldown : Duration := duration_or scfg.(sd_InventoryInterval) (10 * Minute).

(** A transfer under way or done is not repeated, a failed one not at once. *)
Definition blocked (now : Time) (prev : option Job) : bool :=
  match prev with
  | None => false
  | Some prev =>
      (prev.(Job_Status) ≟ JobQueued) || (prev.(Job_Status) ≟ JobRunning)
      || (prev.(Job_Status) ≟ JobSucceeded)
      || ((prev.(Job_Status) ≟ JobFailed)
          && (time_sub now prev.(Job_UpdatedAt) <? retry_cooldown))
  end.

Definition target_key (source target : string) (x y : Inventory) : string :=
  "cas:" +:+ source +:+ ">" +:+ target +:+ ":" +:+ shortRoot x.(Inv_MerkleRoot) +:+ ":"
    +:+ shortRoot y.(Inv_MerkleRoot).

Definition cas_job (now : Time) (transferID source : string) (ta : Agent) (target : string)
    (targets : list string) (factor : Z) (x y : Inventory) : Job :=
  zero_Job <| Job_Kind := "replicate-cas" |> <| Job_Target := target_key source target x y |>
    <| Job_Payload := marshal_replicate_cas (mkReplicateCAS transferID source target
         ta.(Agent_ReplicationPublicKey) targets factor (DivergentPrefixes x y) [] None
         x.(Inv_MerkleRoot) y.(Inv_MerkleRoot)) |>
    <| Job_Affinity := source |> <| Job_Priority := 120 |>
    <| Job_MaxAttempts := cfg.(cfg_Workers).(w_MaxAttempts) |> <| Job_NotBefore := now |>.

(** One ordered pair of a pool; the count grows exactly when a job was created. *)
Definition reconcile_pair (now : Time) (p : pools) (targets : list string) (factor : Z)
    (source target : string) (st : Z * gmap string Job) : Prog S (Z * gmap string Job) :=
  let '(n, known) := st in
  if source ≟ target then mret (n, known)
  else
    let ta := zero_or zero_Agent (p.(eligible) !! target) in
    let x := zero_or zero_Inventory (p.(inventories) !! source) in
    let y := zero_or zero_Inventory (p.(inventories) !! target) in
    let diff := DivergentPrefixes x y in
    if zlen diff =? 0 then mret (n, known)
    else if negb (agentHasCapacityFor ta scfg (divergentSourceBytes x diff)) then mret (n, known)
    else
      let key := target_key source target x y in
      if blocked now (known !! key) then mret (n, known)
      else
        transferID ← pnew_id "casrepl";
        n' ← enqueue (cas_job now transferID source ta target targets factor x y) n;
        mret (n', if n <? n'
                  then <[key := zero_Job <| Job_Target := key |> <| Job_Status := JobQueued |>
                           <| Job_UpdatedAt := now |>]> known
                  else known).

Definition reconcile_pool (now : Time) (p : pools) (e : string * list string)
    (st : Z * gmap string Job) : Prog S (Z * gmap string Job) :=
  let targets := sort_strings (zero_or [] (p.(targetPools) !! e.1)) in
  let sources := sort_strings e.2 in
  let factor := if zlen targets <? scfg.(sd_ObjectReplicationFactor) then zlen targets
                else scfg.(sd_ObjectReplicationFactor) in
  if factor <? 1 then mret st
  else pfor sources (fun source => pfor targets (reconcile_pair now p targets factor source)) st.

Definition Reconcile : Prog S Z :=
  if negb scfg.(sd_Enabled) || negb scfg.(sd_InventoryEnabled)
     || (scfg.(sd_ObjectReplicationFactor) <=? 0)
  then mret 0
  else
    now ← pnow;
    agents ← pread st_ListAgents;
    let p := pools_of now agents in
    jobs ← pignore [] (pread (st_ListJobs 20000));
    st ← pfor (range p.(sourcePools)) (reconcile_pool now p) (0, known_jobs jobs);
    mret st.1.
End Reconcile.


(** ** Which transfers are wanted *)

Section Spec.
Context {MO : MapOrder} {E : Env}.
Context (cfg : Config).
Local Notation rcfg := cfg.(cfg_Replication).
Local Notation scfg := cfg.(cfg_Storage).
Local Notation pool_of a := (agentPool a scfg.(sd_ObjectPoolLabel)).

(** From an agent that takes part to another of its pool, fit for placement, whose
    inventory diverges and that has room for what the source has. *)
Record wanted (now : Time) (agents : list Agent) (a b : Agent) (x y : Inventory) : Prop := {
  wa_source : a ∈ agents;
  wa_target : b ∈ agents;
  wa_other : a.(Agent_ID) ≠ b.(Agent_ID);
  wa_source_inv : cas_agent cfg now a = Some x;
  wa_target_inv : cas_agent cfg now b = Some y;
  wa_fit : agentAcceptsPlacement b scfg = true;
  wa_pool : pool_of a = pool_of b;
  wa_diverges : DivergentPrefixes x y ≠ [];
  wa_room : agentHasCapacityFor b scfg (divergentSourceBytes x (DivergentPrefixes x y)) = true
}.

Record pools_ok (now : Time) (agents : list Agent) (p : pools) : Prop := {
  po_agent a x : a ∈ agents → cas_agent cfg now a = Some x →
    p.(eligible) !! a.(Agent_ID) = Some a ∧ p.(inventories) !! a.(Agent_ID) = Some x;
  po_sources pool id : id ∈ zero_or [] (p.(sourcePools) !! pool) ↔
    ∃ a x, a ∈ agents ∧ cas_agent cfg now a = Some x ∧ pool_of a = pool ∧ a.(Agent_ID) = id;
  po_targets pool id : id ∈ zero_or [] (p.(targetPools) !! pool) ↔
    ∃ a x, a ∈ agents ∧ cas_agent cfg now a = Some x ∧ pool_of a = pool ∧ a.(Agent_ID) = id ∧
      agentAcceptsPlacement a scfg = true
}.

Lemma append_to_elem pool id m q i :
  i ∈ zero_or [] (append_to pool id m !! q) ↔
  i ∈ zero_or [] (m !! q) ∨ (q = pool ∧ i = id).
Proof.
  unfold append_to. destruct (decide (pool = q)) as [<-|Hq].
  - rewrite lookup_insert_eq. simpl. rewrite elem_of_app, list_elem_of_singleton. naive_solver.
  - rewrite lookup_insert_ne by done. naive_solver.
Qed.

Lemma exists_snoc {A B} (l : list A) b (P : A → B → Prop) :
  (∃ a x, a ∈ l ++ [b] ∧ P a x) ↔ (∃ a x, a ∈ l ∧ P a x) ∨ ∃ x, P b x.
Proof.
  split.
  - intros (a & x & [Ha| ->%list_elem_of_singleton]%elem_of_app & HP); [left|right]; eauto.
  - intros [(a & x & Ha & HP)|[x HP]]; [exists a, x|exists b, x]; (split; [|done]);
      apply elem_of_app; [by left|right; by left].
Qed.

Lemma pools_of_ok now agents :
  NoDup (Agent_ID <$> agents) → pools_ok now agents (pools_of cfg now agents).
Proof.
  induction agents as [|b l IH] using rev_ind; intros Hnd.
  { split; [by intros ? ? ?%not_elem_of_nil|..]; intros pool id; simpl;
      (split; [by intros ?%not_elem_of_nil|]); intros (a & x & ?%not_elem_of_nil & _); done. }
  rewrite fmap_app in Hnd. apply NoDup_app in Hnd as (Hl & Hb & _).
  destruct (IH Hl) as [Ha Hs Ht]. unfold pools_of. rewrite foldl_app. cbn [foldl].
  fold (pools_of cfg now l). set (p := pools_of cfg now l) in *. clearbody p. unfold scan_cas_agent.
  assert (∀ a, a ∈ l → a.(Agent_ID) ≠ b.(Agent_ID)) as Hne.
  { intros a Hin Heq. apply (Hb a.(Agent_ID)); [by apply list_elem_of_fmap_2|]. rewrite Heq. by left. }
  destruct (cas_agent cfg now b) as [y|] eqn:Ey.
  - split.
    + intros a x [Hin| ->%list_elem_of_singleton]%elem_of_app Hx; simpl.
      * specialize (Hne a Hin). rewrite !lookup_insert_ne by done. by apply Ha.
      * rewrite !lookup_insert_eq. split; congruence.
    + intros pool id. simpl. rewrite append_to_elem, Hs, exists_snoc. rewrite Ey. naive_solver.
    + intros pool id. simpl. rewrite exists_snoc, <- Ht, Ey.
      destruct (agentAcceptsPlacement b _) eqn:Eb; rewrite ?append_to_elem; naive_solver.
  - split.
    + intros a x [Hin| ->%list_elem_of_singleton]%elem_of_app Hx; [by apply Ha|congruence].
    + intros pool id. rewrite exists_snoc, <- Hs, Ey. naive_solver.
    + intros pool id. rewrite exists_snoc, <- Ht, Ey. naive_solver.
Qed.
End Spec.

Section Run.
Context {MO : MapOrder} {S : Type} `{!Store S} {E : Env}.
Context (cfg : Config).
Context `{!QueueStore S}.
Context (max_attempts_ok : 0 ≤ cfg.(cfg_Workers).(w_MaxAttempts) ≤ max_int64).
Context (tokens_fresh : distinct_tokens).
Context (now : Time) (agents : list Agent) (jobs : list Job) (s0 : S).
Context (distinct_ids : NoDup (Agent_ID <$> agents)).
Local Notation scfg := cfg.(cfg_Storage).
Local Notation p := (pools_of cfg now agents).

(** An active transfer to the target key. *)
Definition transferring (key : string) (s : S) : Prop :=
  ∃ source, active_key ("replicate-cas", key, source) (qs_jobs s).

Definition wanted_job (j : Job) : Prop :=
  ∃ a b x y tid targets factor, wanted cfg now agents a b x y ∧
    j = cas_job cfg now tid a.(Agent_ID) b b.(Agent_ID) targets factor x y.

Record reconciling (st : Z * gmap string Job) (i : nat) (s : S) : Prop := {
  rc_filed : ∃ reqs, filed s0 reqs st.1 i s ∧ ∀ j, j ∈ reqs → wanted_job j;
  rc_known key : blocked cfg now (st.2 !! key) = true →
    blocked cfg now (known_jobs jobs !! key) = true ∨ transferring key s
}.

(** The pair has been seen to: if it is wanted, it is held back or under way. *)
Definition seen (a b : Agent) (s : S) : Prop := ∀ x y, wanted cfg now agents a b x y →
  let key := target_key a.(Agent_ID) b.(Agent_ID) x y in
  blocked cfg now (known_jobs jobs !! key) = true ∨ transferring key s.

Lemma transferring_grows key s s' : transferring key s → grows s s' → transferring key s'.
Proof. intros (src & H) [_ G]. exists src. by eapply active_key_mono. Qed.

Lemma seen_grows a b s s' : seen a b s → grows s s' → seen a b s'.
Proof.
  intros H G x y Hw. destruct (H x y Hw); [by left|right]. by eapply transferring_grows.
Qed.

Lemma reconcile_pair_run a b x y targets factor st i s :
  a ∈ agents → b ∈ agents → cas_agent cfg now a = Some x → cas_agent cfg now b = Some y →
  agentPool a scfg.(sd_ObjectPoolLabel) = agentPool b scfg.(sd_ObjectPoolLabel) →
  agentAcceptsPlacement b scfg = true → reconciling st i s →
  ∃ i' s' st', reconcile_pair cfg now p targets factor a.(Agent_ID) b.(Agent_ID) st i s
    = (i', s', Ok st') ∧ reconciling st' i' s' ∧ grows s s' ∧ seen a b s'.
Proof.
  intros Ha Hb Hx Hy Hpool Hfit HI. destruct st as [n known].
  destruct (po_agent _ _ _ _ (pools_of_ok cfg now agents distinct_ids) a x Ha Hx) as [_ Ea].
  destruct (po_agent _ _ _ _ (pools_of_ok cfg now agents distinct_ids) b y Hb Hy) as [Eb Ebi].
  unfold reconcile_pair. rewrite Ea, Eb, Ebi. cbn [zero_or default from_option id].
  assert (∀ P : Prop, (∀ x y, wanted cfg now agents a b x y → P → False) → P → seen a b s) as Hskip.
  { intros P H HP x' y' Hw. by destruct (H x' y' Hw). }
  assert (∀ x' y', wanted cfg now agents a b x' y' → x' = x ∧ y' = y) as Huniq
    by (intros x' y' []; split; congruence).
  destruct (bool_decide_reflect (a.(Agent_ID) = b.(Agent_ID))) as [Eid|Hid].
  { exists i, s, (n, known). split_and!; [done|done|done|].
    apply (Hskip _ (fun _ _ Hw He => wa_other _ _ _ _ _ _ _ Hw He) Eid). }
  destruct (Z.eqb_spec (zlen (DivergentPrefixes x y)) 0) as [Ed|Hd].
  { exists i, s, (n, known). split_and!; [done|done|done|]. intros x' y' Hw. exfalso.
    destruct (Huniq x' y' Hw) as [-> ->]. apply (wa_diverges _ _ _ _ _ _ _ Hw).
    by destruct (DivergentPrefixes x y). }
  destruct (agentHasCapacityFor b scfg _) eqn:Ec;
    [change (negb true) with false|change (negb false) with true]; cbv iota.
  2: { exists i, s, (n, known). split_and!; [done|done|done|]. intros x' y' Hw. exfalso.
       destruct (Huniq x' y' Hw) as [-> ->]. pose proof (wa_room _ _ _ _ _ _ _ Hw). congruence. }
  set (key := target_key _ _ x y). destruct HI as [(reqs & Hf & Hr) Hk].
  destruct (blocked cfg now (known !! key)) eqn:Ek.
  { exists i, s, (n, known). split_and!; [done|by split; eauto|done|]. intros x' y' Hw.
    destruct (Huniq x' y' Hw) as [-> ->]. by apply (Hk key). }
  rewrite (bind_eq _ _ i s (Datatypes.S i) s (newID "casrepl" (fresh_token i))) by done.
  set (tid := newID "casrepl" (fresh_token i)).
  set (j := cas_job _ _ _ _ _ _ _ _ _ _).
  destruct (enqueue_filed s0 reqs n (Datatypes.S i) s j tokens_fresh) as (s2 & n2 & E2 & Hf2 & Hfr & Hm & _);
    [by split; [left|..]|done|by eapply filed_later, Hf; lia|].
  rewrite (bind_eq _ _ _ _ _ _ _ E2).
  assert (transferring key s2) as Ht.
  { exists a.(Agent_ID). apply (fl_done _ _ _ _ _ Hf2 j). apply elem_of_app. right. by left. }
  assert (grows s s2) as Hg by done.
  eexists _, _, _. split; [done|]. split_and!; [|done|].
  - split.
    + exists (reqs ++ [j]). split; [done|]. intros j' [Hj'| ->%list_elem_of_singleton]%elem_of_app;
        [by apply Hr|]. exists a, b, x, y, tid, targets, factor. split; [|done]. split; try done.
      by intros E'; rewrite E' in Hd.
    + intros key'. cbn [snd]. intros Hb'. destruct (decide (key' = key)) as [->|Hne]; [by right|].
      assert (blocked cfg now (known !! key') = true) as Hb''.
      { revert Hb'. destruct (n <? n2); [|done]. by rewrite lookup_insert_ne by done. }
      destruct (Hk key' Hb''); [by left|right]. by eapply transferring_grows.
  - intros x' y' Hw. destruct (Huniq x' y' Hw) as [-> ->]. by right.
Qed.

Lemma same_agent a b : a ∈ agents → b ∈ agents → a.(Agent_ID) = b.(Agent_ID) → a = b.
Proof.
  intros [k Hk]%list_elem_of_lookup [k' Hk']%list_elem_of_lookup Hid.
  assert (k = k') as <-; [|congruence]. eapply NoDup_lookup; [exact distinct_ids|..];
    rewrite list_lookup_fmap; [by rewrite Hk|rewrite Hk'; simpl; by f_equal].
Qed.

Lemma reconcile_source_run a x targets factor st i s :
  a ∈ agents → cas_agent cfg now a = Some x →
  (∀ id, id ∈ targets ↔ ∃ b y, b ∈ agents ∧ cas_agent cfg now b = Some y ∧
     agentPool b scfg.(sd_ObjectPoolLabel) = agentPool a scfg.(sd_ObjectPoolLabel) ∧
     b.(Agent_ID) = id ∧ agentAcceptsPlacement b scfg = true) →
  reconciling st i s →
  ∃ i' s' st', pfor targets (reconcile_pair cfg now p targets factor a.(Agent_ID)) st i s
    = (i', s', Ok st') ∧ reconciling st' i' s' ∧ grows s s' ∧ ∀ b, seen a b s'.
Proof.
  intros Ha Hx Ht HI.
  destruct (pfor_each reconciling grows
    (fun tgt s' => ∀ b, b ∈ agents → b.(Agent_ID) = tgt → seen a b s')
    (reconcile_pair cfg now p targets factor a.(Agent_ID)) targets st i s)
    as (i' & s' & st' & Er & HI' & Hg & Hall); [| |done|].
  - intros tgt t t' H G b Hb Hid. by eapply seen_grows; [apply H|].
  - intros tgt acc i1 s1 Htin HI1. apply Ht in Htin as (b & y & Hb & Hy & Hp & <- & Hfit).
    destruct (reconcile_pair_run a b x y targets factor acc i1 s1) as (i2 & s2 & st2 & E2 & HI2 & Hg2 & Hs);
      [done..|].
    exists i2, s2, st2. split_and!; try done. intros b' Hb' Hid. by rewrite (same_agent b' b).
  - exists i', s', st'. split_and!; try done. intros b y1 y2 Hw.
    apply (Hall b.(Agent_ID)); [|apply Hw|done|done].
    apply Ht. exists b, y2. destruct Hw. by split_and!.
Qed.

Lemma reconcile_pool_run pool sources st i s :
  p.(sourcePools) !! pool = Some sources → reconciling st i s →
  0 < scfg.(sd_ObjectReplicationFactor) →
  ∃ i' s' st', reconcile_pool cfg now p (pool, sources) st i s = (i', s', Ok st') ∧
    reconciling st' i' s' ∧ grows s s' ∧
    ∀ a b, agentPool a scfg.(sd_ObjectPoolLabel) = pool → seen a b s'.
Proof.
  intros Hpool HI Hfac. unfold reconcile_pool. cbn [fst snd].
  set (targets := sort_strings (zero_or [] _)).
  set (factor := if zlen targets <? _ then _ else _).
  pose proof (pools_of_ok cfg now agents distinct_ids) as Hok.
  assert (∀ id, id ∈ sort_strings sources ↔ ∃ a x, a ∈ agents ∧ cas_agent cfg now a = Some x ∧
    agentPool a scfg.(sd_ObjectPoolLabel) = pool ∧ a.(Agent_ID) = id) as Hsrc.
  { intros id. unfold sort_strings. rewrite elem_of_sort_slice, <- (po_sources _ _ _ _ Hok), Hpool. done. }
  assert (∀ id, id ∈ targets ↔ ∃ a x, a ∈ agents ∧ cas_agent cfg now a = Some x ∧
    agentPool a scfg.(sd_ObjectPoolLabel) = pool ∧ a.(Agent_ID) = id ∧
    agentAcceptsPlacement a scfg = true) as Htgt.
  { intros id. unfold targets, sort_strings. by rewrite elem_of_sort_slice, (po_targets _ _ _ _ Hok). }
  destruct (Z.ltb_spec factor 1) as [Hlow|Hfactor].
  { exists i, s, st. split_and!; [done|done|done|]. intros a b Hp x y Hw. exfalso.
    assert (b.(Agent_ID) ∈ targets) as Hin.
    { apply Htgt. exists b, y. destruct Hw. split_and!; try done. congruence. }
    assert (0 < zlen targets) by (unfold zlen; destruct targets; [by apply not_elem_of_nil in Hin|simpl; lia]).
    unfold factor in Hlow. destruct (Z.ltb_spec (zlen targets) scfg.(sd_ObjectReplicationFactor)); lia. }
  destruct (pfor_each reconciling grows
    (fun src s' => ∀ a, a ∈ agents → a.(Agent_ID) = src → ∀ b, seen a b s')
    (fun source => pfor targets (reconcile_pair cfg now p targets factor source))
    (sort_strings sources) st i s) as (i' & s' & st' & Er & HI' & Hg & Hall); [| |done|].
  - intros src t t' H G a Ha Hid b. by eapply seen_grows; [apply H|].
  - intros src acc i1 s1 Hsin HI1. apply Hsrc in Hsin as (a & x & Ha & Hx & Hp & <-).
    destruct (reconcile_source_run a x targets factor acc i1 s1 Ha Hx) as (i2 & s2 & st2 & E2 & HI2 & Hg2 & Hs);
      [by rewrite Hp|done|].
    exists i2, s2, st2. split_and!; try done. intros a' Ha' Hid b. by rewrite (same_agent a' a).
  - exists i', s', st'. split_and!; try done. intros a b Hp x y Hw.
    apply (Hall a.(Agent_ID)); [|apply Hw|done|done].
    apply Hsrc. exists a, x. destruct Hw. by split_and!.
Qed.

End Run.

Lemma cas_run {MO : MapOrder} {S} `{!Store S} `{!QueueStore S} {E : Env}
    (cfg : Config) i s agents jobs :
  cfg.(cfg_Storage).(sd_Enabled) = true → cfg.(cfg_Storage).(sd_InventoryEnabled) = true →
  0 < cfg.(cfg_Storage).(sd_ObjectReplicationFactor) →
  0 ≤ cfg.(cfg_Workers).(w_MaxAttempts) ≤ max_int64 → distinct_tokens →
  qs_wf s → unused_tokens i s →
  st_ListAgents s = Ok agents → NoDup (Agent_ID <$> agents) → st_ListJobs 20000 s = Ok jobs →
  let now := clock i in
  ∃ i' s' n reqs, Reconcile cfg i s = (i', s', Ok n) ∧ filed s reqs n i' s' ∧ grows s s' ∧
    (∀ j, j ∈ reqs → wanted_job cfg now agents j) ∧
    (∀ a b x y, wanted cfg now agents a b x y →
       let key := target_key a.(Agent_ID) b.(Agent_ID) x y in
       blocked cfg now (known_jobs jobs !! key) = true ∨ transferring key s').
Proof.
  intros Hen Hinv Hfac Hmax Htok Hwf Hun Hag Hids Hjobs now. unfold Reconcile.
  rewrite Hen, Hinv. destruct (Z.leb_spec cfg.(cfg_Storage).(sd_ObjectReplicationFactor) 0); [lia|].
  change (negb true || negb true || false) with false. cbv iota.
  set (i1 := Datatypes.S i). rewrite (bind_eq _ _ i s i1 s now) by done.
  rewrite (bind_eq _ _ i1 s i1 s agents) by (unfold pread; by rewrite Hag).
  rewrite (bind_eq _ _ i1 s i1 s jobs) by (unfold pignore, pread; by rewrite Hjobs).
  set (p := pools_of cfg now agents).
  destruct (pfor_each (reconciling cfg now agents jobs s) grows
    (fun e s' => p.(sourcePools) !! e.1 = Some e.2 →
       ∀ a b, agentPool a cfg.(cfg_Storage).(sd_ObjectPoolLabel) = e.1 →
       seen cfg now agents jobs a b s')
    (reconcile_pool cfg now p) (range p.(sourcePools)) (0, known_jobs jobs) i1 s)
    as (i' & s' & [n known'] & Er & [(reqs & Hf & Hr) _] & Hg & Hall).
  - intros e t t' Hse G He a b Hp. by eapply seen_grows; [apply Hse|].
  - intros [pool sources] acc i2 s2 Hin HI. apply elem_of_range in Hin.
    destruct (reconcile_pool_run cfg Hmax Htok now agents jobs s Hids pool sources acc i2 s2)
      as (i3 & s3 & st3 & E3 & ? & ? & ?); [done..|]. by exists i3, s3, st3.
  - split; [|by left]. exists []. split; [|by intros j ?%not_elem_of_nil].
    apply filed_start; [done|]. intros k Hk. apply Hun. unfold i1 in *. lia.
  - rewrite (bind_eq _ _ _ _ _ _ _ Er). exists i', s', n, reqs. split_and!; try done.
    intros a b x y Hw'.
    pose proof (pools_of_ok cfg now agents Hids) as Hok. fold p in Hok.
    assert (a.(Agent_ID) ∈ zero_or [] (p.(sourcePools) !! agentPool a cfg.(cfg_Storage).(sd_ObjectPoolLabel)))
      as Hin by (apply (po_sources _ _ _ _ Hok); exists a, x; by destruct Hw').
    destruct (p.(sourcePools) !! _) as [sources|] eqn:Ep; [|by apply not_elem_of_nil in Hin].
    apply (Hall (agentPool a cfg.(cfg_Storage).(sd_ObjectPoolLabel), sources));
      [by apply elem_of_range|done|done|done].
Qed.

(** C27. Object reconciliation files exactly what is wanted: it succeeds and loses
    no job; every job it files carries the objects of an agent to another of its
    pool whose inventory diverges and that has room; and every such transfer is
    under way afterwards, unless the listed history of its key holds it back. *)
Theorem cas_reconcile_exact {MO : MapOrder} {S} `{!Store S} `{!QueueStore S} {E : Env}
    (cfg : Config) i s agents jobs :
  cfg.(cfg_Storage).(sd_Enabled) = true → cfg.(cfg_Storage).(sd_InventoryEnabled) = true →
  0 < cfg.(cfg_Storage).(sd_ObjectReplicationFactor) →
  0 ≤ cfg.(cfg_Workers).(w_MaxAttempts) ≤ max_int64 → distinct_tokens →
  qs_wf s → unused_tokens i s →
  st_ListAgents s = Ok agents → NoDup (Agent_ID <$> agents) → st_ListJobs 20000 s = Ok jobs →
  let now := clock i in
  ∃ i' s' n, Reconcile cfg i s = (i', s', Ok n) ∧ qs_wf s' ∧
    (∀ id j, qs_jobs s !! id = Some j → qs_jobs s' !! id = Some j) ∧
    Z.of_nat (size (qs_jobs s')) = Z.of_nat (size (qs_jobs s)) + n ∧
    (∀ id y, qs_jobs s' !! id = Some y → qs_jobs s !! id = None →
       ∃ j, wanted_job cfg now agents j ∧ row_of j y) ∧
    (∀ a b x y, wanted cfg now agents a b x y →
       let key := target_key a.(Agent_ID) b.(Agent_ID) x y in
       blocked cfg now (known_jobs jobs !! key) = true ∨ transferring key s').
Proof.
  intros Hen Hinv Hfac Hmax Htok Hwf Hun Hag Hids Hjobs now.
  destruct (cas_run cfg i s agents jobs Hen Hinv Hfac Hmax Htok Hwf Hun Hag Hids Hjobs)
    as (i' & s' & n & reqs & Er & [Hw _ Hkept Hnew _ Hc] & _ & Hr & Hall).
  exists i', s', n. split_and!; try done. intros id y Hy Hn.
  destruct (Hnew id y Hy Hn) as (j & Hj & Hrow). eauto.
Qed.

Module CasDemo.
Definition summary (root : string) : Inventory :=
  mkInventory 1 "/cas" root 1 10 (UTC 0) [mkSegment "aa" root 1 10].
Definition agent (id root : string) : Agent :=
  zero_Agent <| Agent_ID := id |> <| Agent_ReplicationPublicKey := "AAAA" |>
    <| Agent_StorageHealth := Healthy |> <| Agent_LastSeenAt := 1000 * Second |>
    <| Agent_InventoryJSON := EncodeCompact (summary root) |>.
Definition agents : list Agent := [agent "c" "r2"; agent "a" "r1"; agent "b" "r2"].
Definition config : Config :=
  zero_Config <| cfg_Storage := zero_StorageDataConfig <| sd_Enabled := true |>
    <| sd_InventoryEnabled := true |> <| sd_ObjectReplicationFactor := 2 |> |>.
Definition store : Sql.SQLStore :=
  Sql.empty_store <| Sql.agents := list_to_map ((fun a => (a.(Agent_ID), a)) <$> agents) |>.

#[local] Existing Instance tick_env.

Lemma cas_reconcile_exact_witness :
  ∃ i' s' n, Reconcile config 0%nat store = (i', s', Ok n) ∧ qs_wf s' ∧
    Z.of_nat (size s'.(Sql.jobs)) = n ∧ transferring "cas:a>b:r1:r2" s'.
Proof.
  destruct (cas_reconcile_exact config 0%nat store agents [])
    as (i' & s' & n & Hrun & Hw & _ & Hn & _ & Hall).
  - reflexivity.
  - reflexivity.
  - reflexivity.
  - split; done.
  - exact tick_tokens_inj.
  - apply jobs_wf_empty.
  - done.
  - vm_compute. reflexivity.
  - apply (bool_decide_unpack _). vm_compute. reflexivity.
  - vm_compute. reflexivity.
  - exists i', s', n. split_and!; [exact Hrun|exact Hw|exact Hn|].
    destruct (Hall (agent "a" "r1") (agent "b" "r2") (summary "r1") (summary "r2")) as [H|H].
    + split; try (vm_compute; reflexivity); [by right; left|by right; right; left|done|vm_compute; done].
    + vm_compute in H. discriminate H.
    + exact H.
Defined.

Example cas_demo_filed :
  Job_Target <$> range_vals (Reconcile config 0%nat store).1.2.(Sql.jobs)
  = ["cas:b>a:r2:r1"; "cas:a>b:r1:r2"; "cas:a>c:r1:r2"; "cas:c>a:r2:r1"].
Proof. vm_compute. reflexivity. Qed.

(** Jobs are listed newest first, so the oldest transfer of a key decides: one that
    failed long ago hides that it has since succeeded. *)
Example oldest_attempt_decides :
  let old := zero_Job <| Job_Kind := "replicate-cas" |> <| Job_Target := "k" |>
    <| Job_Status := JobFailed |> <| Job_UpdatedAt := 0 |> in
  let new := old <| Job_Status := JobSucceeded |> <| Job_UpdatedAt := 900 * Second |> in
  blocked config (1000 * Second) (known_jobs [new; old] !! "k") = false.
Proof. vm_compute. reflexivity. Qed.
End CasDemo.
End CasReconcile.
