(* ===== verification/Restore.v ===== *)
(** * Filing a restore

    Models [internal/controlplane/restore.go]: the generation asked for is looked
    up in the store, a node that can serve it is chosen, and one job is filed
    there.  The theorem follows every way out, the errors included. *)

From Stdlib Require Import Ascii String.
From S2P Require Import Prelude GoStd Json Sha256 Model Payloads QueueSpec SqlStore Config Control StorageHealth Requests Placement.
#[global] Open Scope Z_scope.

Module Restore.
Import StorageHealth Placement.

Section Restore.
Context {S : Type} `{!Store S} {E : Env}.

Definition ResolveGeneration (repository generationID : string) : Prog S (Repository * Generation) :=
  repos ← pread st_ListRepositories;
  match List.find (fun r => EqualFold r.(Repo_FullName) repository) repos with
  | None => pfail ("repository " +:+ repository +:+ " is not in control-plane store")
  | Some rec =>
      gens ← pread (st_ListGenerations rec.(Repo_ID) 10000);
      match List.find (fun g => g.(Gen_ID) ≟ generationID) gens with
      | None => pfail ("generation " +:+ generationID +:+ " for " +:+ repository +:+ " not found")
      | Some g => mret (rec, g)
      end
  end.

(** [sum[:6]] in hexadecimal. *)
Definition RestoreJobTarget (repo generation target : string) : string :=
  "restore:" +:+ repo +:+ "@" +:+ generation +:+ "@"
    +:+ String.substring 0 12 (sha256hex (repo +:+ nul +:+ generation +:+ nul +:+ target)).

Definition restore_job (cfg : Config) (rec : Repository) (generationID target approvalID : string)
    (priority : Z) (affinity : string) : Job :=
  let jobTarget := RestoreJobTarget rec.(Repo_FullName) generationID target in
  zero_Job <| Job_Kind := "restore-generation" |>
    <| Job_Target := if approvalID ≠? "" then jobTarget +:+ "@" +:+ approvalID else jobTarget |>
    <| Job_Payload := marshal_restore (mkRestorePayload rec.(Repo_FullName) generationID target
                                         approvalID) |>
    <| Job_Affinity := affinity |> <| Job_Priority := if priority <=? 0 then 200 else priority |>
    <| Job_MaxAttempts := cfg.(cfg_Workers).(w_MaxAttempts) |>.

Definition EnqueueGenerationRestore (cfg : Config)
    (repository generationID target approvalID : string) (priority : Z) : Prog S (Job * bool) :=
  rg ← ResolveGeneration repository generationID;
  affinity ← (if cfg.(cfg_Replication).(rep_Enabled)
              then SelectRestoreAffinityWithStorage rg.2.(Gen_ID) rg.2.(Gen_MetaPath)
                     cfg.(cfg_Replication) cfg.(cfg_Storage)
              else mret (AffinityFromMetaPath rg.2.(Gen_MetaPath)));
  pwrite (fun t token => st_Enqueue t token
            (restore_job cfg rg.1 generationID target approvalID priority affinity)).

(** ** What is found *)

(** The repository asked for, up to case, and its generation. *)
Definition resolves (repos : list Repository) (gens_of : string → list Generation)
    (repository generationID : string) (rec : Repository) (g : Generation) : Prop :=
  List.find (fun r => EqualFold r.(Repo_FullName) repository) repos = Some rec ∧
  List.find (fun g => g.(Gen_ID) ≟ generationID) (gens_of rec.(Repo_ID)) = Some g.

Lemma ResolveGeneration_run repository generationID i s repos gens_of :
  st_ListRepositories s = Ok repos →
  (∀ rid, st_ListGenerations rid 10000 s = Ok (gens_of rid)) →
  (∃ rec g, resolves repos gens_of repository generationID rec g ∧
     ResolveGeneration repository generationID i s = (i, s, Ok (rec, g))) ∨
  (¬ (∃ rec g, resolves repos gens_of repository generationID rec g) ∧
   ∃ e, ResolveGeneration repository generationID i s = (i, s, Err e)).
Proof.
  intros Hr Hg. unfold ResolveGeneration, resolves, mbind, prog_bind, pbind, pread. rewrite Hr.
  destruct (List.find _ repos) as [rec|] eqn:Er.
  - rewrite Hg. destruct (List.find _ (gens_of _)) as [g|] eqn:Eg.
    + left. exists rec, g. by split_and!.
    + right. split; [|by eexists]. intros (rec' & g' & [= <-] & H). congruence.
  - right. split; [|by eexists]. by intros (rec' & g' & H & _).
Qed.

Context `{!QueueStore S}.

(** The nodes a restore of [g] may be sent to. *)
Definition may_serve (cfg : Config) (now : Time) (agents : list Agent)
    (reps_of : string → list GenerationReplica) (g : Generation) (node : string) : Prop :=
  if cfg.(cfg_Replication).(rep_Enabled)
  then servable now cfg.(cfg_Replication) cfg.(cfg_Storage) agents (reps_of g.(Gen_ID)) node
  else node = AffinityFromMetaPath g.(Gen_MetaPath).

(** C28. Filing a restore works exactly when it can: if the repository and its
    generation are in the store and some node can serve it, one such node has an
    active job that carries the request, at most one job is new and none is lost;
    otherwise the call fails and the store is untouched. *)
Theorem enqueue_restore_routes cfg repository generationID target approvalID priority i s
    repos gens_of agents reps_of :
  0 ≤ cfg.(cfg_Workers).(w_MaxAttempts) ≤ max_int64 →
  qs_wf s → unused_tokens i s →
  st_ListRepositories s = Ok repos → (∀ rid, st_ListGenerations rid 10000 s = Ok (gens_of rid)) →
  st_ListAgents s = Ok agents → (∀ gid, st_ListReplicas gid s = Ok (reps_of gid)) →
  ∃ i' s' r, EnqueueGenerationRestore cfg repository generationID target approvalID priority i s
    = (i', s', r) ∧
  match r with
  | Ok (_, created) =>
      ∃ rec g node, resolves repos gens_of repository generationID rec g ∧
        may_serve cfg (clock i) agents reps_of g node ∧
        let j := restore_job cfg rec generationID target approvalID priority node in
        active_key (a_key (ajob_of j)) (qs_jobs s') ∧
        unmarshal_restore j.(Job_Payload)
          = Some (mkRestorePayload rec.(Repo_FullName) generationID target approvalID) ∧
        (∀ id x, qs_jobs s !! id = Some x → qs_jobs s' !! id = Some x) ∧
        (∀ id y, qs_jobs s' !! id = Some y → qs_jobs s !! id = None → created = true ∧ row_of j y)
  | Err _ =>
      s' = s ∧ ¬ ∃ rec g node, resolves repos gens_of repository generationID rec g ∧
        may_serve cfg (clock i) agents reps_of g node
  end.
Proof.
  intros Hmax Hwf Hun Hrepos Hgens Hag Hreps. unfold EnqueueGenerationRestore.
  destruct (ResolveGeneration_run repository generationID i s repos gens_of Hrepos Hgens)
    as [(rec & g & Hrg & E1)|(Hno & e & E1)].
  2: { unfold mbind, prog_bind, pbind. rewrite E1. eexists _, _, _. split; [done|]. split; [done|].
       intros (rec & g & node & H & _). apply Hno. eauto. }
  rewrite (bind_eq _ _ _ _ _ _ _ E1). cbn [fst snd].
  assert (∀ rec' g', resolves repos gens_of repository generationID rec' g' → rec' = rec ∧ g' = g) as Huniq.
  { intros rec' g' [H1 H2]. destruct Hrg as [H3 H4]. split; [congruence|].
    assert (rec' = rec) as -> by congruence. congruence. }
  set (choose := if rep_Enabled _ then _ else _).
  assert (∃ i1 r, (i ≤ i1)%nat ∧ choose i s = (i1, s, r) ∧
    (∀ node, r = Ok node → may_serve cfg (clock i) agents reps_of g node) ∧
    (is_ok r = false → ∀ node, ¬ may_serve cfg (clock i) agents reps_of g node))
    as (i1 & r & Hi1 & E2 & Hok & Hbad).
  { unfold choose, may_serve. destruct (rep_Enabled _).
    - eexists _, _. split_and!; [|unfold SelectRestoreAffinityWithStorage, mbind, prog_bind, pbind,
        pnow, pread; rewrite Hag, Hreps; reflexivity|..].
      + lia.
      + intros node. apply choose_restore_spec.
      + apply choose_restore_spec.
    - exists i, (Ok (AffinityFromMetaPath g.(Gen_MetaPath))). split_and!; try done.
      by intros node [= <-]. }
  destruct r as [node|e].
  2: { unfold mbind at 1, prog_bind at 1, pbind at 1. rewrite E2. eexists _, _, _. split; [done|].
       split; [done|]. intros (rec' & g' & node & H & Hn). destruct (Huniq _ _ H) as [-> ->].
       by apply (Hbad eq_refl node). }
  rewrite (bind_eq _ _ _ _ _ _ _ E2). set (j := restore_job _ _ _ _ _ _ _).
  destruct (qs_enqueue (clock i1) (fresh_token i1) j s Hwf) as (s' & x & created & E3 & _ & _ & Hc);
    [by split; [left|..]|done|by apply Hun|].
  exists (Datatypes.S i1), s', (Ok (x, created)). split; [by unfold pwrite; rewrite E3|].
  exists rec, g, node. split; [done|]. split; [by apply Hok|]. fold j. cbv zeta.
  destruct created.
  - destruct Hc as (_ & y & Hs' & Hrow). pose proof (Hun i1 Hi1) as Hnone. split_and!.
    + exists (newID "job" (fresh_token i1)), y. rewrite Hs', lookup_insert_eq.
      split_and!; [done|apply Hrow|apply Hrow].
    + apply restore_roundtrip.
    + intros id z Hz. rewrite Hs', lookup_insert_ne; [done|]. intros <-. congruence.
    + intros id z Hz Hn. rewrite Hs' in Hz.
      apply lookup_insert_Some in Hz as [[_ <-]|[_ Hz]]; [done|congruence].
  - destruct Hc as [-> Hact]. split_and!; [done|apply restore_roundtrip|done|congruence].
Qed.
End Restore.

Module RestoreDemo.
Definition repo : Repository :=
  zero_Repository <| Repo_ID := "r1" |> <| Repo_FullName := "Acme/API" |>.
Definition gen : Generation :=
  zero_Generation <| Gen_ID := "g1" |> <| Gen_RepositoryID := "r1" |>
    <| Gen_MetaPath := "agent://a1/g1.json" |>.
Definition config : Config :=
  zero_Config <| cfg_Replication := demo_replication <| rep_Enabled := true |> |>
    <| cfg_Storage := demo_storage |>.
Definition store : Sql.SQLStore :=
  demo_store <| Sql.repositories := {[ "r1" := repo ]} |> <| Sql.generations := {[ "g1" := gen ]} |>.

#[local] Existing Instance tick_env.

(** The node that made the generation is unhealthy: the restore goes to the other. *)
Example demo_restore :
  (fun j => (j.(Job_Kind), j.(Job_Affinity), unmarshal_restore j.(Job_Payload))) <$>
    range_vals (EnqueueGenerationRestore config "acme/api" "g1" "/tmp/x" "" 0 0%nat store).1.2.(Sql.jobs)
  = [("restore-generation", "a2", Some (mkRestorePayload "Acme/API" "g1" "/tmp/x" ""))].
Proof. vm_compute. reflexivity. Qed.

Lemma enqueue_restore_routes_witness :
  ∃ s' x, (EnqueueGenerationRestore config "acme/api" "g1" "/tmp/x" "" 0 0%nat store)
    = (2%nat, s', Ok (x, true)) ∧
  ∃ node, active_key ("restore-generation", RestoreJobTarget "Acme/API" "g1" "/tmp/x", node)
    s'.(Sql.jobs).
Proof.
  destruct (enqueue_restore_routes config "acme/api" "g1" "/tmp/x" "" 0 0%nat store [repo]
    (fun rid => Sql.ListGenerations rid 10000 store) (Sql.ListAgents store)
    (fun gid => Sql.ListReplicas gid store)) as (i' & s' & r & Hrun & Hr).
  - done.
  - apply jobs_wf_empty.
  - done.
  - vm_compute. reflexivity.
  - done.
  - done.
  - done.
  - destruct r as [[x created]|e].
    + destruct Hr as (rec & g & node & Hres & _ & Hact & _).
      exists s', x. split.
      * rewrite Hrun. vm_compute in Hrun. by injection Hrun as <- <- <- <-.
      * exists node. destruct Hres as [Hrec _]. vm_compute in Hrec. injection Hrec as <-. exact Hact.
    + exfalso. vm_compute in Hrun. discriminate Hrun.
Defined.
End RestoreDemo.
End Restore.
