(* ===== verification/Scheduler.v ===== *)
(** * The backup scheduler ([internal/controlplane/scheduler.go])

    [SyncRepositories] records what GitHub lists (the login and the repositories
    are its arguments: the HTTP client is not modelled), [scheduleFor] picks the
    policy of a repository, [EnqueueDue] turns due repositories into jobs.
    [SchedulerStore] states what the scheduler needs of a store; both stores
    provide it. *)

From Stdlib Require Import Ascii String QArith.
From S2P Require Import Prelude GoStd Json Sha256 Model Payloads Config QueueSpec MemStore MemJobs SqlStore SqlJobs Control Requests.
#[global] Open Scope Z_scope.

(** ** [path.Match] *)

Module PathMatch.

(** One possibly escaped character of a class, and what follows, which is never
    the end of the pattern. *)
Definition get_esc (p : list ascii) : option (ascii * list ascii) :=
  match p with
  | [] => None
  | c :: p1 =>
      if (c ≟ "-"%char) || (c ≟ "]"%char) then None
      else
        match (if c ≟ "\"%char then p1 else p) with
        | d :: e :: p2 => Some (d, e :: p2)
        | _ => None
        end
  end.

Definition in_class (r lo hi : ascii) : bool :=
  (N_of_ascii lo <=? N_of_ascii r)%N && (N_of_ascii r <=? N_of_ascii hi)%N.

(** The ranges of a class up to its closing bracket: whether one holds [r]. *)
Fixpoint class_ranges (fuel : nat) (first found : bool) (p : list ascii) (r : ascii)
    : option (bool * list ascii) :=
  match fuel with
  | O => None
  | S fuel' =>
      let close := match p with c :: _ => (c ≟ "]"%char) && negb first | [] => false end in
      if close then Some (found, tail p)
      else
        match get_esc p with
        | None => None
        | Some (lo, p1) =>
            match p1 with
            | c :: p2 =>
                if c ≟ "-"%char then
                  match get_esc p2 with
                  | None => None
                  | Some (hi, p3) => class_ranges fuel' false (found || in_class r lo hi) p3 r
                  end
                else class_ranges fuel' false (found || in_class r lo lo) p1 r
            | [] => None
            end
        end
  end.

(** Whether the pattern matches all of the name; a malformed pattern does not
    ([matched, _ = path.Match]). *)
Fixpoint pmatch (fuel : nat) (p s : list ascii) : bool :=
  match fuel with
  | O => false
  | S fuel' =>
      match p with
      | [] => match s with [] => true | _ => false end
      | c :: p' =>
          if c ≟ "*"%char then
            pmatch fuel' p' s ||
            match s with x :: s' => (x ≠? "/"%char) && pmatch fuel' p s' | [] => false end
          else
            match s with
            | [] => false
            | x :: s' =>
                if c ≟ "?"%char then (x ≠? "/"%char) && pmatch fuel' p' s'
                else if c ≟ "["%char then
                  let '(negated, p1) :=
                    match p' with
                    | d :: p1 => if d ≟ "^"%char then (true, p1) else (false, p')
                    | [] => (false, p')
                    end in
                  match class_ranges (length p1) true false p1 x with
                  | None => false
                  | Some (found, p2) => negb (Bool.eqb found negated) && pmatch fuel' p2 s'
                  end
                else if c ≟ "\"%char then
                  match p' with
                  | d :: p1 => (d ≟ x) && pmatch fuel' p1 s'
                  | [] => false
                  end
                else (c ≟ x) && pmatch fuel' p' s'
            end
      end
  end.

(** Every step consumes a character of the pattern or of the name. *)
Definition Match (pattern name : string) : bool :=
  let p := String.list_ascii_of_string pattern in
  let s := String.list_ascii_of_string name in
  pmatch (length p + length s + 1) p s.

Example match_owner : Match "acme/*" "acme/api" = true.
Proof. reflexivity. Qed.
Example match_no_slash : Match "*" "acme/api" = false.
Proof. reflexivity. Qed.
Example match_class : Match "acme/[a-c]pi-?" "acme/api-2" = true.
Proof. reflexivity. Qed.
Example match_negated : Match "acme/[^a]pi" "acme/api" = false.
Proof. reflexivity. Qed.
Example match_malformed : Match "acme/[a" "acme/a" = false.
Proof. reflexivity. Qed.
End PathMatch.

(** ** What the scheduler needs of a store, besides the queue *)

Class SchedulerStore (S : Type) `{!Store S, !QueueStore S} := {
  ss_repos : S → gmap string Repository;
  ss_repos_wf : S → Prop;
  ss_frame s s' : qs_frame s s' → ss_repos s' = ss_repos s ∧ (ss_repos_wf s → ss_repos_wf s');
  ss_due now limit s :
    ss_repos_wf s → 0 < limit → ∃ rs, st_DueRepositories now limit s = Ok rs ∧
    NoDup (Repo_ID <$> rs) ∧ zlen rs ≤ limit ∧
    (∀ r, r ∈ rs → ss_repos s !! r.(Repo_ID) = Some r ∧
       r.(Repo_Enabled) = true ∧ r.(Repo_NextRunAt) ≤ now) ∧
    (zlen rs < limit → ∀ id r, ss_repos s !! id = Some r → r.(Repo_Enabled) = true →
       r.(Repo_NextRunAt) ≤ now → r ∈ rs);
  ss_mark now id next s r :
    qs_wf s → ss_repos_wf s → ss_repos s !! id = Some r →
    ∃ s', st_MarkScheduled now id next s = (s', Ok tt) ∧ qs_wf s' ∧ ss_repos_wf s' ∧
      qs_jobs s' = qs_jobs s ∧
      ss_repos s' = <[id := r <| Repo_NextRunAt := next |> <| Repo_UpdatedAt := now |>]>
                      (ss_repos s)
}.

(** ** The scheduler *)

Section Scheduler.
Context {S : Type} `{!Store S} {E : Env}.
Context (cfg : Config).

(** The first policy whose pattern is a wildcard or matches the name. *)
Definition policy_matches (fullName : string) (p : RepoSchedulePolicy) : bool :=
  (p.(pol_Pattern) ≟ "*") || (p.(pol_Pattern) ≟ "**")
  || PathMatch.Match p.(pol_Pattern) fullName.

Definition scheduleFor (fullName : string) : Duration * Z * bool :=
  let fallback := duration_or cfg.(cfg_Scheduler).(sch_DefaultInterval) (24 * Hour) in
  match List.find (policy_matches fullName) cfg.(cfg_Scheduler).(sch_Policies) with
  | None => (fallback, 50, cfg.(cfg_MirroringEnabled))
  | Some p =>
      (match ParseDuration p.(pol_Interval) with
       | Some d => if 0 <? d then d else fallback
       | None => fallback
       end, p.(pol_Priority), p.(pol_MirrorGitLab))
  end.

(** A repository as GitHub lists it. *)
Record listed := mkListed { li_FullName : string; li_Fork : bool; li_Archived : bool }.

Definition wanted (r : listed) : bool :=
  negb (r.(li_Fork) && negb cfg.(cfg_IncludeForks))
  && negb (r.(li_Archived) && negb cfg.(cfg_IncludeArchived)).

(** [int64(interval.Seconds())] truncates. *)
Definition repository_of (now : Time) (login : string) (r : listed) : Repository :=
  let '(interval, priority, mirror) := scheduleFor r.(li_FullName) in
  zero_Repository <| Repo_ID := RepositoryID login r.(li_FullName) |>
    <| Repo_Account := login |> <| Repo_FullName := r.(li_FullName) |>
    <| Repo_BackupRoot := cfg.(cfg_BackupRoot) |>
    <| Repo_IntervalSeconds := Z.quot interval Second |> <| Repo_Priority := priority |>
    <| Repo_MirrorGitLab := mirror |> <| Repo_Enabled := true |> <| Repo_NextRunAt := now |>.

Definition SyncRepositories (login : string) (repos : list listed) : Prog S Z :=
  now ← pnow;
  st ← pfor repos (fun r '(n, seen) =>
    if wanted r then
      let rec := repository_of now login r in
      pwrite (fun t _ => st_UpsertRepository t t rec);;
      mret (n + 1, {[rec.(Repo_ID)]} ∪ seen)
    else mret (n, seen)) (0, ∅ : gset string);
  pwrite (fun t _ => st_DisableMissingRepositories t login st.2);;
  mret st.1.

(** The payload is written with [%q], which is JSON for the names GitHub and
    [RepositoryID] produce. *)
Definition backup_job (now : Time) (r : Repository) : Job :=
  zero_Job <| Job_Kind := "backup-repo" |> <| Job_Target := r.(Repo_FullName) |>
    <| Job_Payload := marshal_backup (mkBackup r.(Repo_ID) r.(Repo_FullName)) |>
    <| Job_Priority := r.(Repo_Priority) |>
    <| Job_MaxAttempts := cfg.(cfg_Workers).(w_MaxAttempts) |> <| Job_NotBefore := now |>.

(** [now.Add(time.Duration(r.IntervalSeconds) * time.Second)] *)
Definition next_run (now : Time) (r : Repository) : Time :=
  time_add now (wrap64 (r.(Repo_IntervalSeconds) * Second)).

Definition schedule_one (now : Time) (r : Repository) (n : Z) : Prog S Z :=
  n' ← enqueue (backup_job now r) n;
  pwrite (fun t _ => st_MarkScheduled t r.(Repo_ID) (next_run now r));;
  mret n'.

Definition EnqueueDue (now : Time) : Prog S Z :=
  repos ← pread (st_DueRepositories now 500);
  pfor repos (schedule_one now) 0.

(** ** Policies *)

(** The schedule of a repository is that of the first policy in the
    configuration that matches it: its priority and mirroring flag as they stand
    and its interval if it parses to a positive duration; without a match the
    defaults apply; and the interval is positive in every case. *)
Theorem scheduleFor_first_match fullName interval priority mirror :
  scheduleFor fullName = (interval, priority, mirror) →
  0 < interval ∧
  ((∃ pre p post, cfg.(cfg_Scheduler).(sch_Policies) = pre ++ p :: post ∧
      policy_matches fullName p = true ∧
      Forall (fun p' => policy_matches fullName p' = false) pre ∧
      priority = p.(pol_Priority) ∧ mirror = p.(pol_MirrorGitLab) ∧
      (∀ d, ParseDuration p.(pol_Interval) = Some d → 0 < d → interval = d)) ∨
   (Forall (fun p' => policy_matches fullName p' = false) cfg.(cfg_Scheduler).(sch_Policies) ∧
    interval = duration_or cfg.(cfg_Scheduler).(sch_DefaultInterval) (24 * Hour) ∧
    priority = 50 ∧ mirror = cfg.(cfg_MirroringEnabled))).
Proof.
  unfold scheduleFor.
  assert (0 < duration_or cfg.(cfg_Scheduler).(sch_DefaultInterval) (24 * Hour)) as Hpos
    by by apply duration_or_pos.
  assert (∀ l, (∃ pre p post, l = pre ++ p :: post ∧ policy_matches fullName p = true ∧
      Forall (fun p' => policy_matches fullName p' = false) pre ∧
      List.find (policy_matches fullName) l = Some p) ∨
    (Forall (fun p' => policy_matches fullName p' = false) l ∧
     List.find (policy_matches fullName) l = None)) as Hfind.
  { induction l as [|p l IH]; [by right|]. simpl.
    destruct (policy_matches fullName p) eqn:Hp; [left; by exists [], p, l|].
    destruct IH as [(pre & q & post & -> & Hq & Hpre & Hf)|[Hl Hf]].
    - left. exists (p :: pre), q, post. split_and!; [done|done|by constructor|done].
    - right. split; [by constructor|done]. }
  destruct (Hfind (cfg.(cfg_Scheduler).(sch_Policies)))
    as [(pre & p & post & Hl & Hp & Hpre & ->)|[Hl ->]].
  - intros [= <- <- <-]. split.
    + destruct (ParseDuration _) as [d|]; [|done]. by destruct (Z.ltb_spec 0 d).
    + left. exists pre, p, post. split_and!; try done.
      intros d -> Hd. by rewrite (proj2 (Z.ltb_lt _ _) Hd).
  - intros [= <- <- <-]. split; [done|]. by right.
Qed.

(** ** Due repositories *)

Section EnqueueDue.
Context `{!QueueStore S, !SchedulerStore S}.
Context (max_attempts_ok : 0 ≤ cfg.(cfg_Workers).(w_MaxAttempts) ≤ max_int64).
Context (tokens_fresh : distinct_tokens).

Definition is_due (now : Time) (r : Repository) : Prop := r.(Repo_Enabled) = true ∧ r.(Repo_NextRunAt) ≤ now.

Definition rescheduled (now : Time) (r r' : Repository) : Prop :=
  ∃ t, r' = r <| Repo_NextRunAt := next_run now r |> <| Repo_UpdatedAt := t |>.

(** What the loop has done after the repositories [pre]. *)
Record due_inv (now : Time) (s0 : S) (pre : list Repository) (n : Z) (i : nat) (s : S) : Prop := {
  di_filed : filed s0 (backup_job now <$> pre) n i s;
  di_wf : ss_repos_wf s;
  di_done : ∀ r, r ∈ pre → ∃ r', ss_repos s !! r.(Repo_ID) = Some r' ∧ rescheduled now r r';
  di_rest : ∀ id, id ∉ Repo_ID <$> pre → ss_repos s !! id = ss_repos s0 !! id
}.

Lemma schedule_one_step now s0 pre r n i s :
  r.(Repo_ID) ∉ Repo_ID <$> pre → ss_repos s0 !! r.(Repo_ID) = Some r →
  due_inv now s0 pre n i s →
  ∃ i' s' n', schedule_one now r n i s = (i', s', Ok n') ∧ due_inv now s0 (pre ++ [r]) n' i' s'.
Proof.
  intros Hnew Hr [Hf Hwf Hdone Hrest].
  assert (job_request (backup_job now r)) as Hreq by (split; [by left|done|done|done]).
  destruct (enqueue_filed s0 _ n i s (backup_job now r) tokens_fresh Hreq eq_refl Hf)
    as (s1 & n1 & E1 & Hf1 & Hfr & _ & _).
  destruct (ss_frame _ _ Hfr) as [Hrep1 Hwf1].
  destruct (ss_mark (clock (Datatypes.S i)) r.(Repo_ID) (next_run now r) s1 r)
    as (s2 & E2 & Hq2 & Hwf2 & Hj2 & Hrep2); [apply Hf1|auto|by rewrite Hrep1, Hrest|].
  exists (Datatypes.S (Datatypes.S i)), s2, n1. split.
  { unfold schedule_one. rewrite (bind_eq _ _ i s _ _ _ E1).
    rewrite (bind_eq _ _ (Datatypes.S i) s1 (Datatypes.S (Datatypes.S i)) s2 tt)
      by (unfold pwrite; by rewrite E2).
    done. }
  split; [rewrite fmap_app; eapply filed_same_jobs, Hf1; [lia|done..]|done| |].
  - intros r' [Hr'| ->%list_elem_of_singleton]%elem_of_app.
    + destruct (Hdone r' Hr') as (r'' & Hr'' & Hres).
      exists r''. split; [|done]. rewrite Hrep2, Hrep1, lookup_insert_ne; [done|].
      intros E'. apply Hnew. rewrite E'. by apply list_elem_of_fmap_2.
    + eexists. rewrite Hrep2, lookup_insert_eq. split; [done|]. by eexists.
  - intros id Hid. rewrite fmap_app in Hid. apply not_elem_of_app in Hid as [Hid Hid'].
    rewrite Hrep2, Hrep1, lookup_insert_ne; [by apply Hrest|]. intros <-. apply Hid'. by left.
Qed.

Lemma EnqueueDue_total now i s :
  qs_wf s → ss_repos_wf s → unused_tokens i s →
  ∃ rs i' s' n, st_DueRepositories now 500 s = Ok rs ∧
    EnqueueDue now i s = (i', s', Ok n) ∧ due_inv now s rs n i' s'.
Proof.
  intros Hq Hwf Htok. destruct (ss_due now 500 s Hwf ltac:(lia)) as (rs & Hrs & Hnd & _ & Hin & _).
  destruct (pfor_total (due_inv now s) (schedule_one now) rs 0 i s)
    as (i' & s' & n & Hfor & HI).
  - split; try done; [by apply filed_start|]. intros r Hr. by apply not_elem_of_nil in Hr.
  - intros pre r post n j s1 -> HI. apply schedule_one_step; [|by apply Hin; set_solver|done].
    rewrite fmap_app in Hnd. csimpl in Hnd. apply NoDup_app in Hnd as (_ & Hd & _).
    intros Hp. apply (Hd _ Hp). by left.
  - exists rs, i', s', n. split; [done|]. split; [|done].
    unfold EnqueueDue. rewrite (bind_eq _ _ i s i s rs); [done|].
    unfold pread. by rewrite Hrs.
Qed.

(** C16. [EnqueueDue] schedules a batch of at most 500 due repositories, which holds
    all of them when there are fewer: it succeeds; afterwards each of the batch has
    an active backup job for its name and its next run is one interval away; every
    other repository is as it was (the due ones that do not fit stay due), no
    existing job is lost, every new job is the backup of a repository of the
    batch, and the count it returns is the number of jobs added. *)
Theorem enqueue_due_schedules_all now i s :
  qs_wf s → ss_repos_wf s → unused_tokens i s →
  ∃ rs i' s' n, st_DueRepositories now 500 s = Ok rs ∧
    EnqueueDue now i s = (i', s', Ok n) ∧ qs_wf s' ∧ ss_repos_wf s' ∧
    zlen rs ≤ 500 ∧ (∀ r, r ∈ rs → ss_repos s !! r.(Repo_ID) = Some r ∧ is_due now r) ∧
    (zlen rs < 500 → ∀ id r, ss_repos s !! id = Some r → is_due now r → r ∈ rs) ∧
    (∀ r, r ∈ rs → active_key ("backup-repo", r.(Repo_FullName), "") (qs_jobs s') ∧
      ∃ r', ss_repos s' !! r.(Repo_ID) = Some r' ∧ rescheduled now r r') ∧
    (∀ id, id ∉ Repo_ID <$> rs → ss_repos s' !! id = ss_repos s !! id) ∧
    (∀ id j, qs_jobs s !! id = Some j → qs_jobs s' !! id = Some j) ∧
    (∀ id y, qs_jobs s' !! id = Some y → qs_jobs s !! id = None →
       ∃ r, r ∈ rs ∧ row_of (backup_job now r) y) ∧
    Z.of_nat (size (qs_jobs s')) = Z.of_nat (size (qs_jobs s)) + n.
Proof.
  intros Hq Hwf Htok. destruct (EnqueueDue_total now i s Hq Hwf Htok)
    as (rs & i' & s' & n & Hrs & Hrun & [[Hq' _ Hkept Hnew Hact Hcount] ? ? ?]).
  destruct (ss_due now 500 s Hwf ltac:(lia)) as (rs1 & Hrs1 & _ & Hlen & Hin & Hall).
  rewrite Hrs in Hrs1. injection Hrs1 as <-. unfold is_due. exists rs, i', s', n. split_and!; try done.
  { intros Hl id r Hr []. by eapply Hall. }
  - intros r Hr. split; [|auto]. by apply (Hact (backup_job now r)), list_elem_of_fmap_2.
  - intros id y Hy Hn. destruct (Hnew id y Hy Hn) as (j & Hj & Hrow).
    apply list_elem_of_fmap in Hj as (r & -> & Hr). eauto.
Qed.

(** [EnqueueDue] is idempotent: when the batch held every due repository and
    their intervals are positive, a second call at the same instant finds nothing
    due, adds no job and changes nothing. *)
Theorem enqueue_due_idempotent now i s rs :
  qs_wf s → ss_repos_wf s → unused_tokens i s →
  st_DueRepositories now 500 s = Ok rs → zlen rs < 500 →
  (∀ r, r ∈ rs → 0 < r.(Repo_IntervalSeconds) ≤ max_int64 / Second) →
  ∃ i' s' n, EnqueueDue now i s = (i', s', Ok n) ∧ EnqueueDue now i' s' = (i', s', Ok 0).
Proof.
  intros Hq Hwf Htok Hrs Hlen Hint. destruct (EnqueueDue_total now i s Hq Hwf Htok)
    as (rs1 & i' & s' & n & Hrs1 & Hrun & HI).
  rewrite Hrs in Hrs1. injection Hrs1 as <-. exists i', s', n. split; [done|].
  destruct (ss_due now 500 s Hwf ltac:(lia)) as (rs1 & Hrs1 & _ & _ & _ & Hall).
  rewrite Hrs in Hrs1. injection Hrs1 as <-. specialize (Hall Hlen).
  destruct HI as [_ Hwf' Hdone Hrest].
  destruct (ss_due now 500 s' Hwf' ltac:(lia)) as (rs2 & Hrs2 & _ & _ & Hin2 & _).
  assert (rs2 = []) as ->.
  { destruct rs2 as [|r2 rs2]; [done|]. exfalso.
    destruct (Hin2 r2) as (Hr2 & Hen & Hle); [by left|].
    destruct (decide (r2.(Repo_ID) ∈ Repo_ID <$> rs)) as [Hin|Hin].
    - apply list_elem_of_fmap in Hin as (r & Hid & Hr).
      destruct (Hdone r Hr) as (r' & Hr' & t & Hres). rewrite <- Hid, Hr2 in Hr'.
      simplify_eq. simpl in Hle. destruct (Hint r Hr) as [H0 Hmx]. revert Hle.
      unfold next_run, time_add. rewrite wrap64_id.
      + unfold Second in *. lia.
      + unfold in_int64, min_int64, max_int64, two63, Second in *.
        pose proof (Z.mul_div_le (9223372036854775808 - 1) 1000000000). lia.
    - apply Hin. rewrite Hrest in Hr2 by done. apply list_elem_of_fmap_2.
      eapply Hall; done. }
  unfold EnqueueDue. rewrite (bind_eq _ _ i' s' i' s' []); [done|].
  unfold pread. by rewrite Hrs2.
Qed.
End EnqueueDue.
End Scheduler.

(** ** The two stores serve the scheduler *)

Definition repos_filed (repos : gmap string Repository) : Prop :=
  map_Forall (fun id r => r.(Repo_ID) = id) repos.

Lemma repos_ids_NoDup {MO : MapOrder} (repos : gmap string Repository) :
  repos_filed repos → NoDup (Repo_ID <$> range_vals repos).
Proof.
  intros Hf. unfold range_vals. rewrite <- list_fmap_compose.
  rewrite (list_fmap_ext _ fst); [apply range_keys_NoDup|].
  intros i [id r] Hi. simpl. apply list_elem_of_lookup_2, elem_of_range in Hi. by apply Hf.
Qed.

(** The due repositories both stores gather, whatever their order, cut at the
    limit. *)
Lemma due_batch {MO : MapOrder} now (limit : Z) (repos : gmap string Repository) less p rs :
  repos_filed repos → 0 < limit →
  (∀ r, p r = true ↔ r.(Repo_Enabled) = true ∧ r.(Repo_NextRunAt) ≤ now) →
  rs = take (Z.to_nat limit) (sort_slice less (List.filter p (range_vals repos))) →
  NoDup (Repo_ID <$> rs) ∧ zlen rs ≤ limit ∧
  (∀ r, r ∈ rs → repos !! r.(Repo_ID) = Some r ∧
     r.(Repo_Enabled) = true ∧ r.(Repo_NextRunAt) ≤ now) ∧
  (zlen rs < limit → ∀ id r, repos !! id = Some r → r.(Repo_Enabled) = true →
     r.(Repo_NextRunAt) ≤ now → r ∈ rs).
Proof.
  intros Hf Hl Hp ->. set (l := sort_slice _ _).
  assert (∀ r, r ∈ l ↔ (∃ id, repos !! id = Some r) ∧ p r = true) as Hel.
  { intros r. unfold l. by rewrite elem_of_sort_slice, list_elem_of_In, filter_In,
      <- list_elem_of_In, elem_of_range_vals. }
  split_and!.
  - rewrite fmap_take. apply NoDup_take. unfold l. rewrite sort_slice_perm.
    by apply NoDup_fmap_filter, repos_ids_NoDup.
  - unfold zlen. rewrite length_take. lia.
  - intros r Hr. assert (r ∈ l) as Hrl.
    { rewrite <- (take_drop (Z.to_nat limit) l). apply elem_of_app. by left. }
    apply Hel in Hrl as [[id Hid] Hpr]. rewrite (Hf _ _ Hid). split; [done|]. by apply Hp.
  - intros Hlen id r Hid He Hd. unfold zlen in Hlen. rewrite length_take in Hlen.
    rewrite take_ge by lia. apply Hel. split; [by exists id|]. by apply Hp.
Qed.

#[export] Program Instance sql_scheduler_store {MO : MapOrder} : SchedulerStore Sql.SQLStore := {
  ss_repos s := s.(Sql.repositories);
  ss_repos_wf s := repos_filed s.(Sql.repositories)
}.
Next Obligation. by intros MO s s' ->. Qed.
Next Obligation.
  intros MO now limit s Hrep Hl. simpl. eexists. split; [done|].
  unfold Sql.DueRepositories, Sql.LIMIT, Sql.select.
  destruct (Z.leb_spec limit 0); [lia|].
  eapply due_batch; [done|done| |done]. intros r. unfold Sql.due.
  by rewrite andb_true_iff, Z.leb_le.
Qed.
Next Obligation.
  intros MO now id next s r Hwf Hrep Hr. simpl in *. eexists. split; [done|].
  unfold Sql.MarkScheduled, Sql.update_row. rewrite Hr. simpl. split_and!; try done.
  apply map_Forall_insert_2; [|done]. simpl. by apply Hrep.
Qed.

#[export] Program Instance mem_scheduler_store {MO : MapOrder} : SchedulerStore Mem.MemoryStore := {
  ss_repos m := m.(Mem.Repos);
  ss_repos_wf m := repos_filed m.(Mem.Repos)
}.
Next Obligation. by intros MO s s' ->. Qed.
Next Obligation.
  intros MO now limit m Hrep Hl. simpl. eexists. split; [done|].
  assert (∀ l : list Repository, clip limit l = take (Z.to_nat limit) l) as Hclip.
  { intros l. unfold clip. rewrite (proj2 (Z.ltb_lt _ _) Hl). simpl.
    destruct (Z.ltb_spec limit (zlen l)); [done|]. rewrite take_ge; [done|].
    unfold zlen in *. lia. }
  unfold Mem.DueRepositories. rewrite Hclip.
  eapply due_batch; [done|done| |done]. intros r. unfold Mem.due, After.
  by rewrite andb_true_iff, negb_true_iff, Z.ltb_ge.
Qed.
Next Obligation.
  intros MO now id next m r Hwf Hrep Hr. simpl in *. eexists. split; [done|].
  unfold Mem.MarkScheduled. rewrite Hr. simpl. split_and!; try done.
  apply map_Forall_insert_2; [|done]. simpl. by apply Hrep.
Qed.

(** ** A store with one due repository *)

Module SchedulerDemo.

Definition demo_cfg : Config :=
  mkConfig false false "/backup" "/cas" ∅ "/gen" true (mkWorkerConfig 1 "" "" 3)
    (mkSchedulerConfig true "" "" "12h"
       [mkPolicy "acme/*" "1h" 80 false; mkPolicy "*" "2d" 10 true])
    zero_ReplicationConfig zero_StorageDataConfig.

Definition demo_repo : Repository :=
  zero_Repository <| Repo_ID := "r1" |> <| Repo_FullName := "org/app" |>
    <| Repo_Enabled := true |> <| Repo_IntervalSeconds := 3600 |> <| Repo_NextRunAt := 50 |>.

Definition demo_store : Sql.SQLStore :=
  Sql.empty_store <| Sql.repositories := {[ "r1" := demo_repo ]} |>.

#[local] Existing Instance tick_env.

Lemma demo_wf : qs_wf demo_store.
Proof. apply jobs_wf_empty. Qed.

Lemma demo_repos_wf : ss_repos_wf demo_store.
Proof. by apply map_Forall_singleton. Qed.

Lemma demo_unused : unused_tokens 0%nat demo_store.
Proof. done. Qed.

Lemma scheduleFor_first_match_witness :
  0 < 3600 * Second ∧
  ((∃ pre p post, demo_cfg.(cfg_Scheduler).(sch_Policies) = pre ++ p :: post ∧
      policy_matches "acme/api" p = true ∧
      Forall (fun p' => policy_matches "acme/api" p' = false) pre ∧
      80 = p.(pol_Priority) ∧ false = p.(pol_MirrorGitLab) ∧
      (∀ d, ParseDuration p.(pol_Interval) = Some d → 0 < d → 3600 * Second = d)) ∨
   (Forall (fun p' => policy_matches "acme/api" p' = false) demo_cfg.(cfg_Scheduler).(sch_Policies) ∧
    3600 * Second = duration_or demo_cfg.(cfg_Scheduler).(sch_DefaultInterval) (24 * Hour) ∧
    80 = 50 ∧ false = demo_cfg.(cfg_MirroringEnabled))).
Proof. apply (scheduleFor_first_match demo_cfg "acme/api"). vm_compute. reflexivity. Defined.

Lemma enqueue_due_schedules_all_witness :
  ∃ rs i' s' n, st_DueRepositories 100 500 demo_store = Ok rs ∧
    EnqueueDue demo_cfg 100 0%nat demo_store = (i', s', Ok n) ∧ qs_wf s' ∧ ss_repos_wf s' ∧
    zlen rs ≤ 500 ∧ (∀ r, r ∈ rs → ss_repos demo_store !! r.(Repo_ID) = Some r ∧ is_due 100 r) ∧
    (zlen rs < 500 → ∀ id r, ss_repos demo_store !! id = Some r → is_due 100 r → r ∈ rs) ∧
    (∀ r, r ∈ rs → active_key ("backup-repo", r.(Repo_FullName), "") (qs_jobs s') ∧
      ∃ r', ss_repos s' !! r.(Repo_ID) = Some r' ∧ rescheduled 100 r r') ∧
    (∀ id, id ∉ Repo_ID <$> rs → ss_repos s' !! id = ss_repos demo_store !! id) ∧
    (∀ id j, qs_jobs demo_store !! id = Some j → qs_jobs s' !! id = Some j) ∧
    (∀ id y, qs_jobs s' !! id = Some y → qs_jobs demo_store !! id = None →
       ∃ r, r ∈ rs ∧ row_of (backup_job demo_cfg 100 r) y) ∧
    Z.of_nat (size (qs_jobs s')) = Z.of_nat (size (qs_jobs demo_store)) + n.
Proof.
  apply (enqueue_due_schedules_all demo_cfg); [split; done|exact tick_tokens_inj|
    apply demo_wf|apply demo_repos_wf|apply demo_unused].
Defined.

Lemma enqueue_due_idempotent_witness :
  ∃ i' s' n, EnqueueDue demo_cfg 100 0%nat demo_store = (i', s', Ok n) ∧
    EnqueueDue demo_cfg 100 i' s' = (i', s', Ok 0).
Proof.
  apply (enqueue_due_idempotent demo_cfg ltac:(split; done) tick_tokens_inj 100 0%nat demo_store
    [demo_repo] demo_wf demo_repos_wf demo_unused).
  - vm_compute. reflexivity.
  - done.
  - intros r ->%list_elem_of_singleton. split; [done|vm_compute; discriminate].
Defined.

Example demo_scheduled :
  snd <$> map_to_list (EnqueueDue demo_cfg 100 0%nat demo_store).1.2.(Sql.repositories)
  = [demo_repo <| Repo_NextRunAt := 100 + 3600 * Second |>
       <| Repo_UpdatedAt := 1000 * Second + 1 |>].
Proof. vm_compute. reflexivity. Qed.
End SchedulerDemo.
