(* ===== verification/Replication.v ===== *)
(** * Replication of generations (replication.go)

    [ReplicationReconciler.Reconcile] up to the reconcilers it calls at the end
    (those are in CasReconcile.v, Erasure.v and Maintenance.v, and Reconciler.v
    puts them together), the health report, and the cleanup of
    expired transfers.  Log messages are not modelled.  The maps of Go that only
    serve as sets are sets here. *)

From Stdlib Require Import Ascii String QArith.
From S2P Require Import Prelude GoStd Json Sha256 Model Payloads Config StorageHealth QueueSpec SqlStore Control Requests Placement.
#[global] Open Scope Z_scope.

Module Replication.
Import StorageHealth Placement.

Section Reconcile.
Context {MO : MapOrder}.
Context (cfg : Config).
Local Notation rcfg := cfg.(cfg_Replication).
Local Notation scfg := cfg.(cfg_Storage).

(** ** The fleet: who holds replicas, who can send, who can receive *)

Record fleet := mkFleet {
  placement : gmap string Agent;
  onlineSources : gmap string Agent;
  targetEligible : gmap string Agent
}.

Definition key_ok (a : Agent) : bool :=
  (TrimSpace a.(Agent_ReplicationPublicKey) ≠? "")
  && RawStdEncoding_ok a.(Agent_ReplicationPublicKey).

Definition scan_agent (now : Time) (f : fleet) (a : Agent) : fleet :=
  if negb (agentAllowed a.(Agent_ID) rcfg.(rep_AllowedAgents) rcfg.(rep_ExcludedAgents)) then f
  else
    let p := <[a.(Agent_ID) := a]> f.(placement) in
    if negb (fresh now (agent_timeout rcfg) a && key_ok a)
    then mkFleet p f.(onlineSources) f.(targetEligible)
    else
      mkFleet p (<[a.(Agent_ID) := a]> f.(onlineSources))
        (if agentAcceptsPlacement a scfg then <[a.(Agent_ID) := a]> f.(targetEligible)
         else f.(targetEligible)).

Definition local_thresholds : Thresholds :=
  mkThresholds (Z.max scfg.(sd_MinFreeBytes) 0) scfg.(sd_MinFreePercent)
    (default 0 (ParseDuration scfg.(sd_MaxProbe))).

(** The control plane's own worker, from its key and the probe of its disk. *)
Definition local_agent (now : Time) (pub : string) (hr : Report) : Agent :=
  zero_Agent <| Agent_ID := LocalWorkerAffinity |> <| Agent_Name := LocalWorkerAffinity |>
    <| Agent_LabelsJSON := Json (JObj [("__repoark_local_domain", JStr "local")]) |>
    <| Agent_ReplicationPublicKey := pub |> <| Agent_LastSeenAt := now |>
    <| Agent_Status := "online" |> <| Agent_StorageHealth := hr.(sr_Health) |>
    <| Agent_StorageTotalBytes := wrap64 hr.(sr_TotalBytes) |>
    <| Agent_StorageFreeBytes := wrap64 hr.(sr_FreeBytes) |>
    <| Agent_StorageFreePercent := hr.(sr_FreePercent) |>
    <| Agent_StorageProbeMS := hr.(sr_ProbeMS) |> <| Agent_StorageError := hr.(sr_Error) |>.

Definition add_local (local : Agent) (f : fleet) : fleet :=
  let id := LocalWorkerAffinity in
  mkFleet (<[id := local]> f.(placement)) (<[id := local]> f.(onlineSources))
    (if agentAcceptsPlacement local scfg then <[id := local]> f.(targetEligible)
     else f.(targetEligible)).

Definition fleet_of (now : Time) (agents : list Agent) (local : option Agent) : fleet :=
  let f := foldl (scan_agent now) (mkFleet ∅ ∅ ∅) agents in
  match local with Some l => add_local l f | None => f end.

(** ** How a generation stands *)

Record standing := mkStanding {
  ready : gset string;
  healthyReady : gset string;
  healthyDomains : gset string
}.

Definition scan_replica (f : fleet) (st : standing) (rp : GenerationReplica) : standing :=
  if rp.(Replica_State) ≠? ReplicaReady then st
  else
    match f.(placement) !! rp.(Replica_AgentID) with
    | None => st
    | Some a =>
        let r := if negb scfg.(sd_EvacuateDegraded) || agentCountsDurable a scfg
                 then {[rp.(Replica_AgentID)]} ∪ st.(ready) else st.(ready) in
        match f.(targetEligible) !! rp.(Replica_AgentID) with
        | Some a =>
            let d := agentFailureDomain a rcfg.(rep_FailureDomainLabel) in
            mkStanding r ({[rp.(Replica_AgentID)]} ∪ st.(healthyReady))
              (if d ≠? "" then {[d]} ∪ st.(healthyDomains) else st.(healthyDomains))
        | None => mkStanding r st.(healthyReady) st.(healthyDomains)
        end
    end.

Definition standing_of (f : fleet) (replicas : list GenerationReplica) : standing :=
  foldl (scan_replica f) (mkStanding ∅ ∅ ∅) replicas.

Definition len (s : gset string) : Z := Z.of_nat (size s).

Definition domains_demanded : bool :=
  (TrimSpace rcfg.(rep_FailureDomainLabel) ≠? "") && (0 <? rcfg.(rep_MinFailureDomains)).

Definition satisfied (st : standing) : bool :=
  (rcfg.(rep_Factor) <=? len st.(ready)) && (rcfg.(rep_MinHealthy) <=? len st.(healthyReady))
  && (negb domains_demanded || (rcfg.(rep_MinFailureDomains) <=? len st.(healthyDomains))).

(** ** Where the copies come from and go to *)

Definition agent_at (m : gmap string Agent) (id : string) : Agent :=
  zero_or zero_Agent (m !! id).

Definition source_order (f : fleet) : string → string → bool :=
  let a id := agent_at f.(onlineSources) id in
  less_then (fun x y => agentCountsDurable (a x) scfg && negb (agentCountsDurable (a y) scfg))
    (less_then (fun x y => agentBandwidthMbps (a y) <? agentBandwidthMbps (a x)) str_less).

Definition sources_of (f : fleet) (replicas : list GenerationReplica) : list string :=
  sort_slice (source_order f) (Replica_AgentID <$> List.filter (fun rp =>
    (rp.(Replica_State) ≟ ReplicaReady)
    && bool_decide (is_Some (f.(onlineSources) !! rp.(Replica_AgentID)))) replicas).

Definition generationBytes (replicas : list GenerationReplica) : Z :=
  foldl (fun n rp => if n <? rp.(Replica_Bytes) then rp.(Replica_Bytes) else n) 0 replicas.

(** The agent would add a failure domain. *)
Definition new_domain (f : fleet) (st : standing) (id : string) : bool :=
  let d := agentFailureDomain (agent_at f.(targetEligible) id) rcfg.(rep_FailureDomainLabel) in
  (d ≠? "") && negb (bool_decide (d ∈ st.(healthyDomains))).

Definition target_order (f : fleet) (st : standing) : string → string → bool :=
  let a id := agent_at f.(targetEligible) id in
  less_then (fun x y => new_domain f st x && negb (new_domain f st y))
    (less_then (fun x y => agentBandwidthMbps (a y) <? agentBandwidthMbps (a x))
      (less_then (fun x y => Qltb (a y).(Agent_StorageFreePercent) (a x).(Agent_StorageFreePercent))
        (less_then (fun x y => (a y).(Agent_StorageFreeBytes) <? (a x).(Agent_StorageFreeBytes))
          str_less))).

Definition may_receive (st : standing) (bytes : Z) (x : string * Agent) : bool :=
  negb (bool_decide (x.1 ∈ st.(ready))) && agentHasCapacityFor x.2 scfg bytes.

Definition targets_of (f : fleet) (st : standing) (bytes : Z) : list string :=
  sort_slice (target_order f st)
    (fst <$> List.filter (may_receive st bytes) (range f.(targetEligible))).

Definition need_of (st : standing) : Z :=
  let needCopies := Z.max 0 (rcfg.(rep_Factor) - len st.(ready)) in
  let needHealthy := Z.max 0 (rcfg.(rep_MinHealthy) - len st.(healthyReady)) in
  let needDomains := if domains_demanded
    then Z.max 0 (rcfg.(rep_MinFailureDomains) - len st.(healthyDomains)) else 0 in
  let need := needCopies in
  let need := if need <? needHealthy then needHealthy else need in
  if need <? needDomains then needDomains else need.

(** [source := sources[i%len(sources)]] for the [i]-th target. *)
Definition nth_source (sources : list string) (i : nat) : string :=
  nth (i mod length sources) sources "".

Definition placements (f : fleet) (replicas : list GenerationReplica) : list (string * string) :=
  let st := standing_of f replicas in
  if satisfied st then []
  else
    match sources_of f replicas with
    | [] => []
    | sources =>
        imap (fun i target => (nth_source sources i, target))
          (take (Z.to_nat (need_of st)) (targets_of f st (generationBytes replicas)))
    end.

(** ** The reconciler *)

Section Program.
Context {S : Type} `{!Store S} {E : Env}.

(** [g.ID@target] *)
Definition job_target (g : Generation) (target : string) : string :=
  g.(Gen_ID) +:+ "@" +:+ target.

Definition replicate_job (now : Time) (f : fleet) (g : Generation) (transferID : string)
    (x : string * string) : Job :=
  zero_Job <| Job_Kind := "replicate-generation" |> <| Job_Target := job_target g x.2 |>
    <| Job_Payload := marshal_replicate (mkReplicateGen transferID g.(Gen_RepositoryID)
         g.(Gen_Repository) g.(Gen_ID) x.1 x.2
         (agent_at f.(targetEligible) x.2).(Agent_ReplicationPublicKey)) |>
    <| Job_Affinity := x.1 |> <| Job_Priority := 150 |>
    <| Job_MaxAttempts := cfg.(cfg_Workers).(w_MaxAttempts) |> <| Job_NotBefore := now |>.

(** A placement already under way is not started twice. *)
Definition place_one (now : Time) (f : fleet) (busy : gset string) (g : Generation)
    (x : string * string) (n : Z) : Prog S Z :=
  if bool_decide (job_target g x.2 ∈ busy) then mret n
  else
    transferID ← pnew_id "repl";
    enqueue (replicate_job now f g transferID x) n.

Definition reconcile_generation (now : Time) (f : fleet) (busy : gset string)
    (g : Generation) (n : Z) : Prog S Z :=
  replicas ← pread (st_ListReplicas g.(Gen_ID));
  pfor (placements f replicas) (place_one now f busy g) n.

Definition placing (j : Job) : bool :=
  ((j.(Job_Kind) ≟ "replicate-generation") || (j.(Job_Kind) ≟ "install-replica"))
  && ((j.(Job_Status) ≟ JobQueued) || (j.(Job_Status) ≟ JobRunning)).

Definition activePlacement (jobs : list Job) : gset string :=
  list_to_set (Job_Target <$> List.filter placing jobs).

(** Transfers past their deadline are deleted and their spool files removed: the
    result counts them and names the files under the spool directory. *)
Definition replicationSpoolPath (transferID : string) : string :=
  String.string_of_list_ascii (map_runes (fun c =>
    byte_in 97 122 c || byte_in 65 90 c || byte_in 48 57 c || (c ≟ "-"%char) || (c ≟ "_"%char))
    0 (String.list_ascii_of_string transferID)) +:+ ".blob".

Definition CleanupExpiredReplicationTransfers (now : Time) : Prog S (Z * list string) :=
  xs ← pread (st_ListExpiredReplicationTransfers now 1000);
  pfor xs (fun t '(n, removed) =>
    let spool := replicationSpoolPath t.(Transfer_ID) in
    pwrite (fun _ _ => st_DeleteReplicationTransfer t.(Transfer_ID));;
    mret (n + 1, removed ++ [spool; spool +:+ ".part"])) (0, []).

Definition replicationTransferExpiry (now : Time) : Time :=
  time_add now (duration_or rcfg.(rep_TransferTTL) (2 * Hour)).

(** [Reconcile] without the three reconcilers it ends with; [key] and [disk] are
    what [EnsureKey] and the disk answer when the local worker takes part. *)
Definition reconcile_generations (key : result string) (disk : disk_answers) : Prog S Z :=
  if negb rcfg.(rep_Enabled) then mret 0
  else
    start ← pnow;
    CleanupExpiredReplicationTransfers start;;
    now ← pnow;
    agents ← pread st_ListAgents;
    local ← (if rcfg.(rep_IncludeLocal)
             then pub ← pread (fun _ => key);
                  mret (Some (local_agent now pub (Probe disk local_thresholds)))
             else mret None);
    gens ← pread (st_ListAllGenerations 20000);
    jobs ← pignore [] (pread (st_ListJobs 10000));
    pfor gens (reconcile_generation now (fleet_of now agents local) (activePlacement jobs)) 0.
End Program.

(** ** The health report *)

Record ReplicationHealthReport := mkHealthReport {
  rh_Enabled : bool;
  rh_Generations : Z;
  rh_HealthyGenerations : Z;
  rh_Deficits : Z;
  rh_ReadyReplicas : Z;
  rh_OnlineReadyReplicas : Z;
  rh_MinHealthy : Z;
  rh_MinFailureDomains : Z;
  rh_FailureDomainDeficits : Z
}.

#[global] Instance ReplicationHealthReport_settable : Settable ReplicationHealthReport :=
  fun r => mkHealthReport (r.(rh_Enabled)) (r.(rh_Generations)) (r.(rh_HealthyGenerations))
    (r.(rh_Deficits)) (r.(rh_ReadyReplicas)) (r.(rh_OnlineReadyReplicas)) (r.(rh_MinHealthy))
    (r.(rh_MinFailureDomains)) (r.(rh_FailureDomainDeficits)).

(** [online] and [onlineAgents], whose keys agree. *)
Definition online_agents (now : Time) (agents : list Agent) : gmap string Agent :=
  foldl (fun m a =>
    if negb (agentAllowed a.(Agent_ID) rcfg.(rep_AllowedAgents) rcfg.(rep_ExcludedAgents)) then m
    else if fresh now (agent_timeout rcfg) a && agentCountsDurable a scfg
    then <[a.(Agent_ID) := a]> m else m)
    (if rcfg.(rep_IncludeLocal)
     then {[LocalWorkerAffinity := zero_Agent <| Agent_ID := LocalWorkerAffinity |>
             <| Agent_LabelsJSON := Json (JObj [("__repoark_local_domain", JStr "local")]) |>]}
     else ∅) agents.

Definition ready_replicas (reps : list GenerationReplica) : list GenerationReplica :=
  List.filter (fun rp => rp.(Replica_State) ≟ ReplicaReady) reps.

Definition online_replicas (online : gmap string Agent) (reps : list GenerationReplica)
    : list GenerationReplica :=
  List.filter (fun rp => bool_decide (is_Some (online !! rp.(Replica_AgentID)))) (ready_replicas reps).

Definition online_domains (online : gmap string Agent) (reps : list GenerationReplica)
    : gset string :=
  list_to_set (List.filter (fun d => d ≠? "") ((fun rp =>
    agentFailureDomain (agent_at online rp.(Replica_AgentID)) rcfg.(rep_FailureDomainLabel))
    <$> online_replicas online reps)).

Definition min_healthy : Z := if rcfg.(rep_MinHealthy) <? 1 then 1 else rcfg.(rep_MinHealthy).

Definition domains_ok (domains : gset string) : bool :=
  negb domains_demanded || (rcfg.(rep_MinFailureDomains) <=? len domains).

Definition generation_healthy (online : gmap string Agent) (reps : list GenerationReplica) : bool :=
  (min_healthy <=? zlen (online_replicas online reps)) && domains_ok (online_domains online reps).

(** One generation's contribution to the report. *)
Definition count_generation (online : gmap string Agent) (reps : list GenerationReplica)
    (r : ReplicationHealthReport) : ReplicationHealthReport :=
  let r := r
    <| rh_ReadyReplicas := r.(rh_ReadyReplicas) + zlen (ready_replicas reps) |>
    <| rh_OnlineReadyReplicas := r.(rh_OnlineReadyReplicas) + zlen (online_replicas online reps) |> in
  let r := if domains_ok (online_domains online reps) then r
    else r <| rh_FailureDomainDeficits := r.(rh_FailureDomainDeficits) + 1 |> in
  if generation_healthy online reps
  then r <| rh_HealthyGenerations := r.(rh_HealthyGenerations) + 1 |>
  else r <| rh_Deficits := r.(rh_Deficits) + 1 |>.

Definition ReplicationHealthWithStorage {S : Type} `{!Store S} {E : Env}
    : Prog S ReplicationHealthReport :=
  now ← pnow;
  agents ← pread st_ListAgents;
  gens ← pread (st_ListAllGenerations 20000);
  pfor gens (fun g r =>
    reps ← pread (st_ListReplicas g.(Gen_ID));
    mret (count_generation (online_agents now agents) reps r))
    (mkHealthReport rcfg.(rep_Enabled) (zlen gens) 0 0 0 0 min_healthy
       rcfg.(rep_MinFailureDomains) 0).

(** ** The fleet *)

(** Agents a replica may be placed on are placed agents, online and fit. *)
Record fleet_ok (f : fleet) : Prop := {
  fo_target id a : f.(targetEligible) !! id = Some a →
    f.(placement) !! id = Some a ∧ f.(onlineSources) !! id = Some a ∧
    agentAcceptsPlacement a scfg = true;
  fo_id id a : f.(placement) !! id = Some a → a.(Agent_ID) = id
}.

Lemma scan_agent_ok now f a :
  f.(placement) !! a.(Agent_ID) = None → fleet_ok f → fleet_ok (scan_agent now f a).
Proof.
  intros Hn [Ht Hi]. unfold scan_agent. case_if; [done|].
  assert (f.(targetEligible) !! a.(Agent_ID) = None) as Hnt.
  { destruct (targetEligible f !! _) eqn:E; [|done]. apply Ht in E as [E _]. congruence. }
  assert (∀ id b, f.(targetEligible) !! id = Some b → id ≠ a.(Agent_ID)) as Hne by naive_solver.
  case_if; split; simpl.
  - intros id b Hb. rewrite lookup_insert_ne by (apply not_eq_sym; eauto). eauto.
  - intros id b. rewrite lookup_insert_Some. naive_solver.
  - intros id b Hb. destruct (agentAcceptsPlacement a scfg) eqn:Ea.
    + apply lookup_insert_Some in Hb as [[<- <-]|[? Hb]]; [by rewrite !lookup_insert_eq|].
      rewrite !lookup_insert_ne by done. eauto.
    + rewrite !lookup_insert_ne by (apply not_eq_sym; eauto). eauto.
  - intros id b. rewrite lookup_insert_Some. naive_solver.
Qed.

Lemma scan_agent_placed now f a id :
  is_Some ((scan_agent now f a).(placement) !! id) → id = a.(Agent_ID) ∨ is_Some (f.(placement) !! id).
Proof.
  unfold scan_agent. case_if; [by right|]. case_if; simpl;
    rewrite lookup_insert_is_Some; naive_solver.
Qed.

Lemma scan_agents_ok now agents :
  NoDup (Agent_ID <$> agents) →
  fleet_ok (foldl (scan_agent now) (mkFleet ∅ ∅ ∅) agents) ∧
  ∀ id, is_Some ((foldl (scan_agent now) (mkFleet ∅ ∅ ∅) agents).(placement) !! id) →
    id ∈ Agent_ID <$> agents.
Proof.
  induction agents as [|a l IH] using rev_ind; intros Hnd.
  { simpl. split; [|by intros id [? ?]]. by split. }
  rewrite fmap_app in Hnd. apply NoDup_app in Hnd as (Hl & Hd & _).
  destruct (IH Hl) as [Hok Hin]. rewrite foldl_app. simpl. split.
  - apply scan_agent_ok; [|done]. apply eq_None_not_Some. intros Hs. apply Hin in Hs.
    apply (Hd _ Hs). by left.
  - intros id [->|Hs]%scan_agent_placed; rewrite fmap_app; apply elem_of_app;
      [right; by left|left; by apply Hin].
Qed.

(** The agents reported are distinct, and none is the local worker. *)
Definition agents_ok (agents : list Agent) : Prop :=
  NoDup (Agent_ID <$> agents) ∧ LocalWorkerAffinity ∉ Agent_ID <$> agents.

Definition local_ok (local : option Agent) : Prop :=
  ∀ l, local = Some l → l.(Agent_ID) = LocalWorkerAffinity.

Lemma fleet_of_ok now agents local :
  agents_ok agents → local_ok local → fleet_ok (fleet_of now agents local).
Proof.
  intros [Hnd Hloc] Hl. unfold fleet_of. destruct (scan_agents_ok now agents Hnd) as [Hok Hin].
  set (f := foldl _ _ _) in *. destruct local as [l|]; [|done].
  assert (f.(placement) !! LocalWorkerAffinity = None) as Hn.
  { apply eq_None_not_Some. intros Hs. by apply Hloc, Hin. }
  destruct Hok as [Ht Hi].
  assert (∀ id b, f.(targetEligible) !! id = Some b → id ≠ LocalWorkerAffinity) as Hne.
  { intros id b Hb ->. apply Ht in Hb as [Hb _]. congruence. }
  split; unfold add_local; simpl.
  - intros id b Hb. destruct (agentAcceptsPlacement l scfg) eqn:Ea.
    + apply lookup_insert_Some in Hb as [[<- <-]|[? Hb]]; [by rewrite !lookup_insert_eq|].
      rewrite !lookup_insert_ne by done. eauto.
    + rewrite !lookup_insert_ne by (apply not_eq_sym; eauto). eauto.
  - intros id b. rewrite lookup_insert_Some. intros [[<- <-]|[_ Hb]]; [by apply Hl|eauto].
Qed.

(** ** The standing of a generation *)

Definition holds (reps : list GenerationReplica) (id : string) : Prop :=
  ∃ rp, rp ∈ reps ∧ rp.(Replica_AgentID) = id ∧ rp.(Replica_State) = ReplicaReady.

Lemma holds_snoc reps rp id :
  holds (reps ++ [rp]) id ↔
  holds reps id ∨ (rp.(Replica_AgentID) = id ∧ rp.(Replica_State) = ReplicaReady).
Proof. unfold holds. setoid_rewrite elem_of_app. setoid_rewrite list_elem_of_singleton. naive_solver. Qed.

Lemma standing_snoc f reps rp :
  standing_of f (reps ++ [rp]) = scan_replica f (standing_of f reps) rp.
Proof. unfold standing_of. by rewrite foldl_app. Qed.

Lemma elem_of_ready f reps id :
  id ∈ (standing_of f reps).(ready) ↔
  holds reps id ∧ ∃ a, f.(placement) !! id = Some a ∧
    (scfg.(sd_EvacuateDegraded) = true → agentCountsDurable a scfg = true).
Proof.
  induction reps as [|rp l IH] using rev_ind.
  { unfold standing_of, holds. simpl. set_solver. }
  rewrite standing_snoc, holds_snoc. unfold scan_replica.
  destruct (bool_decide_reflect (Replica_State rp = ReplicaReady)) as [Hr|Hr]; simpl;
    [|rewrite IH; naive_solver].
  destruct (placement f !! Replica_AgentID rp) as [a|] eqn:Ea;
    [|rewrite IH; naive_solver].
  transitivity (id ∈ (if negb (sd_EvacuateDegraded scfg) || agentCountsDurable a scfg
    then {[Replica_AgentID rp]} ∪ ready (standing_of f l) else ready (standing_of f l)));
    [by destruct (targetEligible f !! Replica_AgentID rp)|].
  destruct (sd_EvacuateDegraded scfg), (agentCountsDurable a scfg) eqn:Ed; simpl;
    rewrite ?elem_of_union, ?elem_of_singleton, IH; split.
  all: try (intros [->|(? & ? & ? & ?)]; eauto 10; fail).
  all: try (intros ([?|[<- _]] & b & Hb & Hd); [eauto 10|by left]; fail).
  - intros (? & ? & ? & ?). eauto 10.
  - intros ([?|[<- _]] & b & Hb & Hd); [eauto 10|]. rewrite Ea in Hb. simplify_eq.
    by rewrite Hd in Ed.
Qed.

Lemma elem_of_healthy f reps id :
  id ∈ (standing_of f reps).(healthyReady) ↔
  holds reps id ∧ is_Some (f.(placement) !! id) ∧ is_Some (f.(targetEligible) !! id).
Proof.
  induction reps as [|rp l IH] using rev_ind.
  { unfold standing_of, holds. simpl. set_solver. }
  rewrite standing_snoc, holds_snoc. unfold scan_replica.
  destruct (bool_decide_reflect (Replica_State rp = ReplicaReady)) as [Hr|Hr]; simpl;
    [|rewrite IH; naive_solver].
  destruct (placement f !! Replica_AgentID rp) as [a|] eqn:Ea;
    [|rewrite IH; unfold is_Some; naive_solver].
  destruct (targetEligible f !! Replica_AgentID rp) eqn:Et; simpl;
    rewrite ?elem_of_union, ?elem_of_singleton, IH; unfold is_Some; naive_solver.
Qed.

Lemma elem_of_domains f reps d :
  d ∈ (standing_of f reps).(healthyDomains) ↔
  d ≠ "" ∧ ∃ id a, id ∈ (standing_of f reps).(healthyReady) ∧ f.(targetEligible) !! id = Some a ∧
    d = agentFailureDomain a rcfg.(rep_FailureDomainLabel).
Proof.
  induction reps as [|rp l IH] using rev_ind.
  { unfold standing_of. simpl. set_solver. }
  rewrite standing_snoc. unfold scan_replica.
  destruct (bool_decide_reflect (Replica_State rp = ReplicaReady)) as [Hr|Hr]; simpl; [|done].
  destruct (placement f !! Replica_AgentID rp) as [a|] eqn:Ea; [|done].
  destruct (targetEligible f !! Replica_AgentID rp) as [t|] eqn:Et; simpl; [|done].
  setoid_rewrite elem_of_union. setoid_rewrite elem_of_singleton.
  case_if; rewrite ?elem_of_union, ?elem_of_singleton, IH; bool_to_prop; naive_solver.
Qed.

(** ** The placements *)

#[local] Instance target_order_weak f st : StrictWeak (target_order f st).
Proof.
  unfold target_order.
  apply less_then_weak; [apply (less_flag (new_domain f st))|].
  apply less_then_weak.
  { apply (less_by_key (fun x => agentBandwidthMbps (agent_at f.(targetEligible) x))
      (fun x y => y <? x)), less_flip, less_Z. }
  apply less_then_weak.
  { apply (less_by_key (fun x => Agent_StorageFreePercent (agent_at f.(targetEligible) x))
      (fun x y => Qltb y x)), less_flip, less_Q. }
  apply less_then_weak; [|apply str_less_weak].
  apply (less_by_key (fun x => Agent_StorageFreeBytes (agent_at f.(targetEligible) x))
    (fun x y => y <? x)), less_flip, less_Z.
Qed.

(** Ties are broken by the agent's name. *)
Lemma target_order_total f st x y :
  target_order f st x y = false → target_order f st y x = false → x = y.
Proof.
  unfold target_order, less_then. intros H1 H2. apply str_less_total;
    repeat match goal with
    | H : (if ?b then _ else _) = false |- _ => destruct b; try done
    end.
Qed.

Lemma elem_of_targets f st bytes id :
  id ∈ targets_of f st bytes ↔ ∃ a, f.(targetEligible) !! id = Some a ∧
    id ∉ st.(ready) ∧ agentHasCapacityFor a scfg bytes = true.
Proof.
  unfold targets_of. rewrite elem_of_sort_slice, list_elem_of_fmap. split.
  - intros ([k a] & -> & Hx). rewrite list_elem_of_In, filter_In, <- list_elem_of_In, elem_of_range in Hx.
    destruct Hx as [Hk Hm]. unfold may_receive in Hm. bool_to_prop. exists a. naive_solver.
  - intros (a & Ha & Hn & Hc). exists (id, a). split; [done|].
    rewrite list_elem_of_In, filter_In, <- list_elem_of_In, elem_of_range. split; [done|].
    unfold may_receive. simpl. by rewrite bool_decide_eq_false_2, Hc.
Qed.

Lemma targets_NoDup f st bytes : NoDup (targets_of f st bytes).
Proof.
  unfold targets_of. rewrite sort_slice_perm. apply (NoDup_fmap_filter fst), range_keys_NoDup.
Qed.

Lemma elem_of_sources f reps id :
  id ∈ sources_of f reps ↔ holds reps id ∧ is_Some (f.(onlineSources) !! id).
Proof.
  unfold sources_of, holds. rewrite elem_of_sort_slice, list_elem_of_fmap. split.
  - intros (rp & -> & Hrp). rewrite list_elem_of_In, filter_In, <- list_elem_of_In in Hrp.
    destruct Hrp as [Hin Hb]. bool_to_prop. naive_solver.
  - intros [(rp & Hin & <- & Hs) Ho]. exists rp. split; [done|].
    rewrite list_elem_of_In, filter_In, <- list_elem_of_In. split; [done|].
    rewrite Hs. simpl. by apply bool_decide_eq_true_2.
Qed.

Lemma nth_source_in sources i : sources ≠ [] → nth_source sources i ∈ sources.
Proof.
  intros Hn. unfold nth_source. apply list_elem_of_In, nth_In, Nat.mod_upper_bound.
  by destruct sources.
Qed.

Lemma placements_inv f reps x :
  x ∈ placements f reps →
  satisfied (standing_of f reps) = false ∧ x.1 ∈ sources_of f reps ∧
  x.2 ∈ targets_of f (standing_of f reps) (generationBytes reps).
Proof.
  unfold placements. destruct (satisfied _); [by intros ?%not_elem_of_nil|].
  destruct (sources_of f reps) as [|s0 l] eqn:Es; [by intros ?%not_elem_of_nil|].
  rewrite elem_of_lookup_imap. intros (i & t & -> & Ht). split; [done|]. simpl. split.
  - by apply nth_source_in.
  - apply list_elem_of_lookup_2 in Ht. rewrite <- (take_drop (Z.to_nat (need_of (standing_of f reps)))).
    apply elem_of_app. by left.
Qed.

Lemma placements_targets f reps :
  satisfied (standing_of f reps) = false → sources_of f reps ≠ [] →
  (placements f reps).*2 = take (Z.to_nat (need_of (standing_of f reps)))
    (targets_of f (standing_of f reps) (generationBytes reps)).
Proof.
  unfold placements. intros -> Hs. destruct (sources_of f reps); [done|].
  rewrite fmap_imap. apply list_eq. intros i. rewrite list_lookup_imap.
  by destruct (take _ _ !! i).
Qed.

(** A placement copies from an online agent that has a ready replica to an online
    and fit agent with the room for it that has none. *)
Record safe_placement (f : fleet) (reps : list GenerationReplica) (x : string * string) : Prop := {
  sp_source : holds reps x.1;
  sp_online : is_Some (f.(onlineSources) !! x.1);
  sp_target : ∃ a, f.(targetEligible) !! x.2 = Some a ∧
    agentAcceptsPlacement a scfg = true ∧
    agentHasCapacityFor a scfg (generationBytes reps) = true;
  sp_fresh : ¬ holds reps x.2
}.

Lemma accepted_in_ready f reps id :
  fleet_ok f → is_Some (f.(targetEligible) !! id) → holds reps id →
  id ∈ (standing_of f reps).(ready).
Proof.
  intros [Ht _] [a Ha] Hh. apply Ht in Ha as (Hp & _ & Hacc). apply elem_of_ready.
  split; [done|]. exists a. split; [done|]. intros _. by apply accepts_durable.
Qed.

Lemma placements_safe f reps x :
  fleet_ok f → x ∈ placements f reps → safe_placement f reps x.
Proof.
  intros Hf Hx. apply placements_inv in Hx as (_ & [Hs Ho]%elem_of_sources & Ht).
  apply elem_of_targets in Ht as (a & Ha & Hn & Hc). split; try done.
  - exists a. split_and!; [done| |done]. by apply (fo_target f Hf) in Ha as (_ & _ & ?).
  - intros Hh. apply Hn. apply accepted_in_ready; eauto.
Qed.

Lemma safe_placement_distinct f reps x : safe_placement f reps x → x.1 ≠ x.2.
Proof. intros [Hs _ _ Hn] E. apply Hn. by rewrite <- E. Qed.

(** ** What the placements achieve *)

(** The replicas once every placement has been carried out. *)
Definition carried_out (f : fleet) (reps : list GenerationReplica) : list GenerationReplica :=
  reps ++ ((fun x => zero_GenerationReplica <| Replica_AgentID := x.2 |>
              <| Replica_State := ReplicaReady |>) <$> placements f reps).

Lemma holds_carried_out f reps id :
  holds (carried_out f reps) id ↔ holds reps id ∨ id ∈ (placements f reps).*2.
Proof.
  unfold carried_out, holds. setoid_rewrite elem_of_app. setoid_rewrite list_elem_of_fmap. split.
  - intros (rp & [Hrp|(x & -> & Hx)] & Hid & Hs); [left; eauto|right]. exists x. by split.
  - intros [(rp & Hrp & ?)|(x & -> & Hx)]; [exists rp; by split; [left|]|].
    eexists. split; [right; exists x; split; [reflexivity|done]|done].
Qed.

Lemma ready_carried_out f reps :
  fleet_ok f →
  (standing_of f (carried_out f reps)).(ready)
  = (standing_of f reps).(ready) ∪ list_to_set (placements f reps).*2.
Proof.
  intros Hf. apply set_eq. intros id.
  rewrite elem_of_union, elem_of_list_to_set, !elem_of_ready, holds_carried_out.
  split; [naive_solver|]. intros [(? & ? & ? & ?)|Hp]; [naive_solver|]. split; [by right|].
  apply list_elem_of_fmap in Hp as (x & -> & Hx).
  apply placements_inv in Hx as (_ & _ & (a & Ha & _ & _)%elem_of_targets).
  apply (fo_target f Hf) in Ha as (Hp & _ & Hacc). exists a. split; [done|].
  intros _. by apply accepts_durable.
Qed.

Lemma healthy_carried_out f reps :
  fleet_ok f →
  (standing_of f (carried_out f reps)).(healthyReady)
  = (standing_of f reps).(healthyReady) ∪ list_to_set (placements f reps).*2.
Proof.
  intros Hf. apply set_eq. intros id.
  rewrite elem_of_union, elem_of_list_to_set, !elem_of_healthy, holds_carried_out.
  split; [naive_solver|]. intros [(? & ? & ?)|Hp]; [naive_solver|]. split; [by right|].
  apply list_elem_of_fmap in Hp as (x & -> & Hx).
  apply placements_inv in Hx as (_ & _ & (a & Ha & _ & _)%elem_of_targets).
  pose proof Ha as (Hp & _ & _)%(fo_target f Hf). by split; eexists.
Qed.

Lemma healthy_subseteq_ready f reps :
  fleet_ok f → (standing_of f reps).(healthyReady) ⊆ (standing_of f reps).(ready).
Proof. intros Hf id (Hh & _ & Ht)%elem_of_healthy. by apply accepted_in_ready. Qed.

Lemma size_union_fresh (X : gset string) l :
  NoDup l → (∀ x, x ∈ l → x ∉ X) → len (X ∪ list_to_set l) = len X + zlen l.
Proof.
  intros Hnd Hx. unfold len, zlen. rewrite size_union by set_solver.
  rewrite size_list_to_set by done. lia.
Qed.

Lemma placements_fresh f reps :
  NoDup (placements f reps).*2 ∧
  ∀ id, id ∈ (placements f reps).*2 → id ∉ (standing_of f reps).(ready).
Proof.
  split.
  - unfold placements. destruct (satisfied _); [constructor|].
    destruct (sources_of f reps) as [|s0 l]; [constructor|]. rewrite fmap_imap.
    match goal with |- NoDup (imap ?g ?l) => replace (imap g l) with l end.
    + apply NoDup_take, targets_NoDup.
    + apply list_eq. intros i. rewrite list_lookup_imap. by destruct (_ !! i).
  - intros id (x & -> & Hx)%list_elem_of_fmap.
    by apply placements_inv in Hx as (_ & _ & (a & _ & ? & _)%elem_of_targets).
Qed.

(** The first target adds a failure domain if any does. *)
Lemma first_target_new_domain f st bytes id :
  id ∈ targets_of f st bytes → new_domain f st id = true →
  ∃ t l, targets_of f st bytes = t :: l ∧ new_domain f st t = true.
Proof.
  intros Hid Hn. pose proof (sort_slice_sorted (target_order f st)
    (fst <$> List.filter (may_receive st bytes) (range f.(targetEligible)))) as Hs.
  change (StronglySorted (not_after (target_order f st)) (targets_of f st bytes)) in Hs.
  destruct (targets_of f st bytes) as [|t l]; [by apply not_elem_of_nil in Hid|].
  exists t, l. split; [done|]. apply elem_of_cons in Hid as [->|Hid]; [done|].
  apply StronglySorted_inv in Hs as [_ Hs]. rewrite Forall_forall in Hs.
  specialize (Hs id Hid). unfold not_after, target_order, less_then in Hs.
  rewrite Hn in Hs. by destruct (new_domain f st t).
Qed.

Definition domains_short (st : standing) : Prop :=
  domains_demanded = true ∧ len st.(healthyDomains) < rcfg.(rep_MinFailureDomains).

Lemma need_of_bounds st :
  rcfg.(rep_Factor) - len st.(ready) ≤ need_of st ∧
  rcfg.(rep_MinHealthy) - len st.(healthyReady) ≤ need_of st ∧ 0 ≤ need_of st ∧
  (domains_short st → 0 < need_of st).
Proof.
  unfold need_of, domains_short. destruct domains_demanded;
    repeat case_if; bool_to_prop; split_and!; try lia; intros [? ?]; try done; lia.
Qed.

Lemma placements_add_domain f reps :
  fleet_ok f → satisfied (standing_of f reps) = false → sources_of f reps ≠ [] →
  domains_short (standing_of f reps) →
  (∃ id, id ∈ targets_of f (standing_of f reps) (generationBytes reps) ∧
     new_domain f (standing_of f reps) id = true) →
  len (standing_of f reps).(healthyDomains)
  < len (standing_of f (carried_out f reps)).(healthyDomains).
Proof.
  intros Hf Hsat Hsrc Hshort (id & Hid & Hnew).
  pose proof (placements_targets f reps Hsat Hsrc) as Htg.
  destruct (need_of_bounds (standing_of f reps)) as (_ & _ & H0 & Hd).
  destruct (first_target_new_domain f _ _ id Hid Hnew) as (t & l & Et & Hnt).
  rewrite Et in Htg.
  assert (t ∈ (placements f reps).*2) as Ht.
  { rewrite Htg. specialize (Hd Hshort). destruct (Z.to_nat (need_of (standing_of f reps))) eqn:E; [lia|].
    simpl. by left. }
  assert (t ∈ targets_of f (standing_of f reps) (generationBytes reps)) as Htt by (rewrite Et; by left).
  apply elem_of_targets in Htt as (a & Ha & _ & _).
  unfold new_domain, agent_at in Hnt. rewrite Ha in Hnt. simpl in Hnt.
  set (d := agentFailureDomain a _) in *.
  apply andb_true_iff in Hnt as [Hd0%negb_true_iff%bool_decide_eq_false Hdn%negb_true_iff%bool_decide_eq_false].
  unfold len.
  apply inj_lt, subset_size. split.
  + intros e (He & i & b & Hi & Hb & ->)%elem_of_domains. apply elem_of_domains.
    split; [done|]. exists i, b. split; [|done]. rewrite healthy_carried_out by done.
    apply elem_of_union. by left.
  + intros Hsub. assert (d ∈ (standing_of f (carried_out f reps)).(healthyDomains)) as Hd'; [|by apply Hsub in Hd'].
    apply elem_of_domains. split; [done|]. exists t, a.
    rewrite healthy_carried_out, elem_of_union, elem_of_list_to_set by done. auto.
Qed.

(** C18. Replication restores redundancy: every copy is from an online agent with a
    ready replica to an online and fit agent that has room and none; the agents
    chosen are distinct and as many as are needed or available; when enough are
    available, carrying the placements out gives the generation its copies and its
    healthy copies; and when failure domains are missing, at least one is added
    whenever some candidate is in a new one.  (More than one need not be: the order
    of the candidates is fixed before the first is taken, see [two_in_one_zone].) *)
Theorem placements_restore_redundancy f reps :
  fleet_ok f → satisfied (standing_of f reps) = false → sources_of f reps ≠ [] →
  let st := standing_of f reps in
  let targets := targets_of f st (generationBytes reps) in
  let st' := standing_of f (carried_out f reps) in
  (∀ x, x ∈ placements f reps → safe_placement f reps x) ∧
  NoDup (placements f reps).*2 ∧
  zlen (placements f reps) = Z.min (need_of st) (zlen targets) ∧
  len st'.(ready) = len st.(ready) + zlen (placements f reps) ∧
  (need_of st ≤ zlen targets →
     rcfg.(rep_Factor) ≤ len st'.(ready) ∧ rcfg.(rep_MinHealthy) ≤ len st'.(healthyReady)) ∧
  (domains_short st → (∃ id, id ∈ targets ∧ new_domain f st id = true) →
     len st.(healthyDomains) < len st'.(healthyDomains)).
Proof.
  intros Hf Hsat Hsrc st targets st'. destruct (placements_fresh f reps) as [Hnd Hfresh].
  pose proof (placements_targets f reps Hsat Hsrc) as Htg. fold st in Htg. fold targets in Htg.
  pose proof (need_of_bounds st) as (Hc & Hh & H0 & _).
  assert (zlen (placements f reps) = Z.min (need_of st) (zlen targets)) as Hlen.
  { unfold zlen. rewrite <- (length_fmap snd), Htg, length_take. lia. }
  assert (zlen (placements f reps).*2 = zlen (placements f reps)) as Hl2.
  { unfold zlen. by rewrite length_fmap. }
  assert (len st'.(ready) = len st.(ready) + zlen (placements f reps)) as Hr.
  { unfold st'. rewrite ready_carried_out, size_union_fresh, Hl2 by done. done. }
  assert (len st'.(healthyReady) = len st.(healthyReady) + zlen (placements f reps)) as Hhr.
  { unfold st'. rewrite healthy_carried_out, size_union_fresh, Hl2; try done.
    intros id Hid Hin. apply (Hfresh id Hid). by apply healthy_subseteq_ready. }
  split_and!; try done.
  - intros x. by apply placements_safe.
  - intros Hle. clearbody st st' targets. split; lia.
  - intros Hshort Hnew. by apply placements_add_domain.
Qed.

(** ** The report agrees with the reconciler *)

(** A target the scan finds is one of the agents, allowed, fresh and fit. *)
Lemma scan_agents_target now agents id a :
  (foldl (scan_agent now) (mkFleet ∅ ∅ ∅) agents).(targetEligible) !! id = Some a →
  a ∈ agents ∧ a.(Agent_ID) = id ∧
  agentAllowed id rcfg.(rep_AllowedAgents) rcfg.(rep_ExcludedAgents) = true ∧
  fresh now (agent_timeout rcfg) a = true ∧ agentAcceptsPlacement a scfg = true.
Proof.
  induction agents as [|x l IH] using rev_ind; [done|].
  rewrite foldl_app. simpl. set (f := foldl _ _ _) in *. unfold scan_agent.
  assert (targetEligible f !! id = Some a →
    a ∈ l ++ [x] ∧ a.(Agent_ID) = id ∧
    agentAllowed id rcfg.(rep_AllowedAgents) rcfg.(rep_ExcludedAgents) = true ∧
    fresh now (agent_timeout rcfg) a = true ∧ agentAcceptsPlacement a scfg = true) as Hold.
  { intros H. destruct (IH H) as (? & ?). split; [apply elem_of_app; by left|done]. }
  destruct (agentAllowed (Agent_ID x) _ _) eqn:Eal; simpl; [|done].
  destruct (fresh now _ x) eqn:Ef; simpl; [|done].
  destruct (key_ok x); simpl; [|done].
  destruct (agentAcceptsPlacement x scfg) eqn:Eac; [|done].
  intros [[<- <-]|[_ H]]%lookup_insert_Some; [|auto].
  split_and!; try done. apply elem_of_app. right. by left.
Qed.

Lemma online_agents_Some now agents id a :
  NoDup (Agent_ID <$> agents) → a ∈ agents → a.(Agent_ID) = id →
  agentAllowed id rcfg.(rep_AllowedAgents) rcfg.(rep_ExcludedAgents) = true →
  fresh now (agent_timeout rcfg) a = true → agentCountsDurable a scfg = true →
  online_agents now agents !! id = Some a.
Proof.
  unfold online_agents. set (m0 := if rep_IncludeLocal rcfg then _ else _). clearbody m0.
  induction agents as [|x l IH] using rev_ind; [by intros _ ?%not_elem_of_nil|].
  rewrite fmap_app. intros (Hl & Hd & _)%NoDup_app Ha Hid Hal Hf Hdu. rewrite foldl_app. simpl.
  apply elem_of_app in Ha as [Ha|Ha%list_elem_of_singleton].
  - assert (x.(Agent_ID) ≠ id) as Hne.
    { intros E. apply (Hd id); [rewrite <- Hid; by apply list_elem_of_fmap_2|]. rewrite <- E. by left. }
    case_if; [by apply IH|]. case_if; [|by apply IH].
    rewrite lookup_insert_ne by done. by apply IH.
  - subst x. rewrite Hid, Hal, Hf, Hdu. simpl. by rewrite lookup_insert_eq.
Qed.

Lemma online_agents_local now agents :
  rcfg.(rep_IncludeLocal) = true → LocalWorkerAffinity ∉ Agent_ID <$> agents →
  ∃ a, online_agents now agents !! LocalWorkerAffinity = Some a ∧
    a.(Agent_ID) = LocalWorkerAffinity.
Proof.
  intros Hi. unfold online_agents. rewrite Hi.
  induction agents as [|x l IH] using rev_ind; intros Hn.
  { simpl. eexists. by rewrite lookup_singleton_eq. }
  rewrite fmap_app in Hn. apply not_elem_of_app in Hn as [Hl Hx]. rewrite foldl_app. simpl.
  assert (x.(Agent_ID) ≠ LocalWorkerAffinity) as Hne
    by (intros E; apply Hx; rewrite <- E; by left).
  case_if; [by apply IH|]. case_if; [|by apply IH]. rewrite lookup_insert_ne by done. by apply IH.
Qed.

Lemma failure_domain_local a b key :
  a.(Agent_ID) = LocalWorkerAffinity → b.(Agent_ID) = LocalWorkerAffinity →
  agentFailureDomain a key = agentFailureDomain b key.
Proof. unfold agentFailureDomain. intros -> ->. by case_if. Qed.

(** Every agent a replica may be placed on is online for the report, with the
    same failure domain. *)
Lemma target_online now agents local id a :
  agents_ok agents → local_ok local → (is_Some local → rcfg.(rep_IncludeLocal) = true) →
  (fleet_of now agents local).(targetEligible) !! id = Some a →
  ∃ b, online_agents now agents !! id = Some b ∧
    agentFailureDomain b rcfg.(rep_FailureDomainLabel)
    = agentFailureDomain a rcfg.(rep_FailureDomainLabel).
Proof.
  intros [Hnd Hloc] Hl Hinc Ha.
  assert ((foldl (scan_agent now) (mkFleet ∅ ∅ ∅) agents).(targetEligible) !! id = Some a ∨
    (id = LocalWorkerAffinity ∧ local = Some a)) as [H|[-> ->]].
  { unfold fleet_of in Ha. destruct local as [l|]; [|by left]. unfold add_local in Ha. simpl in Ha.
    destruct (agentAcceptsPlacement l scfg); [|by left].
    apply lookup_insert_Some in Ha as [[<- <-]|[_ Ha]]; [by right|by left]. }
  - apply scan_agents_target in H as (Hin & Hid & Hal & Hf & Hac). exists a. split; [|done].
    apply online_agents_Some; try done. by apply accepts_durable.
  - destruct (online_agents_local now agents) as (b & Hb & Hbid); [eauto|done|].
    exists b. split; [done|]. apply failure_domain_local; [done|by apply Hl].
Qed.

Lemma elem_of_online_replicas online reps rp :
  rp ∈ online_replicas online reps ↔
  rp ∈ reps ∧ rp.(Replica_State) = ReplicaReady ∧ is_Some (online !! rp.(Replica_AgentID)).
Proof.
  unfold online_replicas, ready_replicas.
  rewrite list_elem_of_In, !filter_In, <- list_elem_of_In, !bool_decide_eq_true. naive_solver.
Qed.

(** The reconciler and the health report agree: a generation the reconciler
    leaves alone because it has enough copies, healthy copies and failure domains
    is one the report, at the same instant, counts as healthy. *)
Theorem satisfied_is_healthy now agents local reps :
  agents_ok agents → local_ok local → (is_Some local → rcfg.(rep_IncludeLocal) = true) →
  1 ≤ rcfg.(rep_MinHealthy) →
  satisfied (standing_of (fleet_of now agents local) reps) = true →
  generation_healthy (online_agents now agents) reps = true.
Proof.
  intros Hag Hl Hinc Hmin. set (f := fleet_of now agents local).
  unfold satisfied. rewrite !andb_true_iff, orb_true_iff, !Z.leb_le, negb_true_iff.
  intros [[_ Hh] Hd]. unfold generation_healthy, min_healthy, domains_ok.
  destruct (Z.ltb_spec rcfg.(rep_MinHealthy) 1); [lia|].
  assert (∀ id, id ∈ (standing_of f reps).(healthyReady) → ∃ rp a b, rp ∈ online_replicas
    (online_agents now agents) reps ∧ rp.(Replica_AgentID) = id ∧
    f.(targetEligible) !! id = Some a ∧ online_agents now agents !! id = Some b ∧
    agentFailureDomain b rcfg.(rep_FailureDomainLabel)
    = agentFailureDomain a rcfg.(rep_FailureDomainLabel)) as Hon.
  { intros id ((rp & Hrp & Hid & Hs) & _ & [a Ha])%elem_of_healthy.
    destruct (target_online now agents local id a Hag Hl Hinc Ha) as (b & Hb & Hdom).
    exists rp, a, b. split_and!; try done. apply elem_of_online_replicas. rewrite Hid. eauto. }
  apply andb_true_iff. split.
  - apply Z.leb_le. etrans; [exact Hh|]. unfold len, zlen. apply inj_le.
    rewrite <- (length_fmap Replica_AgentID). change (size (healthyReady (standing_of f reps)))
      with (length (elements (healthyReady (standing_of f reps)))).
    apply submseteq_length, NoDup_submseteq; [apply NoDup_elements|].
    intros id Hid%elem_of_elements. destruct (Hon id Hid) as (rp & _ & _ & Hrp & <- & _).
    by apply list_elem_of_fmap_2.
  - apply orb_true_iff. rewrite negb_true_iff, Z.leb_le. destruct Hd as [Hd|Hd]; [by left|right].
    etrans; [exact Hd|]. unfold len. apply inj_le, subseteq_size.
    intros d (Hne & id & a & Hid & Ha & ->)%elem_of_domains.
    destruct (Hon id Hid) as (rp & a' & b & Hrp & Hri & Ha' & Hb & Hdom).
    rewrite Ha in Ha'. injection Ha' as <-. apply elem_of_list_to_set.
    rewrite list_elem_of_In, filter_In, <- list_elem_of_In, list_elem_of_fmap. split.
    + exists rp. split; [|done]. unfold agent_at. by rewrite Hri, Hb.
    + by apply negb_true_iff, bool_decide_eq_false.
Qed.

(** ** The reconciler's run *)

Section Run.
Context {S : Type} `{!Store S} {E : Env} `{!QueueStore S}.
Context (max_attempts_ok : 0 ≤ cfg.(cfg_Workers).(w_MaxAttempts) ≤ max_int64).
Context (tokens_fresh : distinct_tokens).

Definition placed (f : fleet) (busy : gset string) (jobs : gmap string Job) (g : Generation)
    (x : string * string) : Prop :=
  job_target g x.2 ∈ busy ∨ active_key ("replicate-generation", job_target g x.2, x.1) jobs.

(** From [s0] the loops have only filed replication jobs for safe placements. *)
Record replicating (now : Time) (f : fleet) (gens : list Generation) (s0 : S) (n : Z)
    (i : nat) (s : S) : Prop := {
  rp_frame : qs_frame s0 s;
  rp_filed : ∃ reqs, filed s0 reqs n i s ∧ ∀ j, j ∈ reqs → ∃ g reps x tid, g ∈ gens ∧
    st_ListReplicas g.(Gen_ID) s0 = Ok reps ∧ x ∈ placements f reps ∧
    j = replicate_job now f g tid x
}.

Lemma place_one_run now f busy gens g reps x s0 n i s :
  g ∈ gens → st_ListReplicas g.(Gen_ID) s0 = Ok reps → x ∈ placements f reps →
  replicating now f gens s0 n i s →
  ∃ i' s' n', place_one now f busy g x n i s = (i', s', Ok n') ∧
    replicating now f gens s0 n' i' s' ∧ placed f busy (qs_jobs s') g x ∧
    (∀ id j, qs_jobs s !! id = Some j → qs_jobs s' !! id = Some j).
Proof.
  intros Hg Hreps Hx [Hfr (reqs & Hf & Hr)]. unfold place_one. case_bool_decide as Hb.
  { exists i, s, n. split; [done|]. split; [split; eauto|]. by split; [left|]. }
  set (tid := newID "repl" (fresh_token i)).
  rewrite (bind_eq _ _ i s (Datatypes.S i) s tid) by done.
  destruct (enqueue_filed s0 reqs n (Datatypes.S i) s (replicate_job now f g tid x) tokens_fresh)
    as (s' & n' & Er & Hf' & Hfr' & Hmono & _); [by split; [left|..]|done|by apply (filed_later s0 reqs n i); [lia|]|].
  exists (Datatypes.S (Datatypes.S i)), s', n'. split; [done|]. split_and!.
  - split; [by etrans|]. exists (reqs ++ [replicate_job now f g tid x]). split; [done|].
    intros j [Hj| ->%list_elem_of_singleton]%elem_of_app; [eauto|]. by exists g, reps, x, tid.
  - right. apply (fl_done _ _ _ _ _ Hf' (replicate_job now f g tid x)). apply elem_of_app. right. by left.
  - done.
Qed.

Lemma placed_mono f busy jobs jobs' g x :
  (∀ id j, jobs !! id = Some j → jobs' !! id = Some j) →
  placed f busy jobs g x → placed f busy jobs' g x.
Proof. intros H [Hb|Ha]; [by left|right]. by eapply active_key_mono. Qed.

(** One generation: every placement is under way at the end. *)
Lemma reconcile_generation_run now f busy gens g reps s0 n i s :
  g ∈ gens → st_ListReplicas g.(Gen_ID) s0 = Ok reps → replicating now f gens s0 n i s →
  ∃ i' s' n', reconcile_generation now f busy g n i s = (i', s', Ok n') ∧
    replicating now f gens s0 n' i' s' ∧
    (∀ x, x ∈ placements f reps → placed f busy (qs_jobs s') g x) ∧
    (∀ id j, qs_jobs s !! id = Some j → qs_jobs s' !! id = Some j).
Proof.
  intros Hg Hreps HI. unfold reconcile_generation.
  rewrite (bind_eq _ _ i s i s reps).
  2: { unfold pread. by rewrite (qs_replicas _ _ _ (rp_frame _ _ _ _ _ _ _ HI)), Hreps. }
  destruct (pfor_total (fun pre n i s' => replicating now f gens s0 n i s' ∧
      (∀ x, x ∈ pre → placed f busy (qs_jobs s') g x) ∧
      (∀ id j, qs_jobs s !! id = Some j → qs_jobs s' !! id = Some j))
    (place_one now f busy g) (placements f reps) n i s) as (i' & s' & n' & E' & H1 & H2 & H3).
  - split_and!; [done| |done]. intros x Hx. by apply not_elem_of_nil in Hx.
  - intros pre x post n1 i1 s1 Hl (HI1 & Hp & Hm).
    assert (x ∈ placements f reps) as Hx by (rewrite Hl; apply elem_of_app; right; by left).
    destruct (place_one_run now f busy gens g reps x s0 n1 i1 s1 Hg Hreps Hx HI1)
      as (i2 & s2 & n2 & E2 & HI2 & Hp2 & Hm2).
    exists i2, s2, n2. split_and!; [done|done| |auto].
    intros y [Hy| ->%list_elem_of_singleton]%elem_of_app; [|done].
    eapply placed_mono; [exact Hm2|auto].
  - eauto 10.
Qed.

Lemma reconcile_loop now f busy gens s0 n i s :
  (∀ g, g ∈ gens → is_ok (st_ListReplicas g.(Gen_ID) s0) = true) →
  replicating now f gens s0 n i s →
  ∃ i' s' n', pfor gens (reconcile_generation now f busy) n i s = (i', s', Ok n') ∧
    replicating now f gens s0 n' i' s' ∧
    ∀ g reps x, g ∈ gens → st_ListReplicas g.(Gen_ID) s0 = Ok reps → x ∈ placements f reps →
      placed f busy (qs_jobs s') g x.
Proof.
  intros Hok HI.
  apply (pfor_total (fun pre n i s' => replicating now f gens s0 n i s' ∧
    ∀ g reps x, g ∈ pre → st_ListReplicas g.(Gen_ID) s0 = Ok reps → x ∈ placements f reps →
      placed f busy (qs_jobs s') g x)).
  - split; [done|]. intros g reps x Hg. by apply not_elem_of_nil in Hg.
  - intros pre g post n1 i1 s1 Hl [HI1 Hp].
    assert (g ∈ gens) as Hg by (rewrite Hl; apply elem_of_app; right; by left).
    specialize (Hok g Hg). destruct (st_ListReplicas _ s0) as [reps|] eqn:Er; [|done].
    destruct (reconcile_generation_run now f busy gens g reps s0 n1 i1 s1 Hg Er HI1)
      as (i2 & s2 & n2 & E2 & HI2 & Hp2 & Hm2).
    exists i2, s2, n2. split_and!; [done|done|].
    intros g' reps' x [Hg'| ->%list_elem_of_singleton]%elem_of_app Hr' Hx.
    + eapply placed_mono; [exact Hm2|eauto].
    + rewrite Er in Hr'. injection Hr' as <-. auto.
Qed.

Lemma cleanup_run now i s :
  qs_wf s → ∃ i' s' r, CleanupExpiredReplicationTransfers now i s = (i', s', Ok r) ∧
    (i ≤ i')%nat ∧ qs_wf s' ∧ qs_frame s s' ∧ qs_jobs s' = qs_jobs s.
Proof.
  intros Hwf. unfold CleanupExpiredReplicationTransfers.
  destruct (qs_expired now 1000 s) as [xs Hxs].
  rewrite (bind_eq _ _ i s i s xs) by (unfold pread; by rewrite Hxs).
  apply (pfor_total (fun _ _ i' s' => (i ≤ i')%nat ∧ qs_wf s' ∧ qs_frame s s' ∧
    qs_jobs s' = qs_jobs s)); [done|].
  intros pre t post [m removed] i1 s1 _ (Hi & Hw & Hf & Hj).
  destruct (qs_delete_transfer t.(Transfer_ID) s1 Hw) as (s2 & E2 & Hw2 & Hf2 & Hj2).
  exists (Datatypes.S i1), s2. eexists. split.
  { rewrite (bind_eq _ _ i1 s1 (Datatypes.S i1) s2 tt); [reflexivity|].
    unfold pwrite. by rewrite E2. }
  split_and!; [lia|done|by etrans|congruence].
Qed.

Lemma active_placement_live n s js t :
  st_ListJobs n s = Ok js → t ∈ activePlacement js →
  ∃ id j, qs_jobs s !! id = Some j ∧ placing j = true ∧ j.(Job_Target) = t.
Proof.
  intros Hjs. unfold activePlacement. rewrite elem_of_list_to_set, list_elem_of_fmap.
  intros (j & -> & Hj). rewrite list_elem_of_In, filter_In, <- list_elem_of_In in Hj.
  destruct Hj as [Hj Hp]. destruct (qs_listed n s) as (js' & E' & Hall).
  rewrite Hjs in E'. injection E' as <-. destruct (Hall j Hj) as [id Hid]. eauto.
Qed.

Lemma active_key_placing t a jobs :
  active_key ("replicate-generation", t, a) jobs →
  ∃ id j, jobs !! id = Some j ∧ placing j = true ∧ j.(Job_Target) = t.
Proof.
  intros (id & j & Hj & Ha & Hk). exists id, j. rewrite is_active_of in Ha.
  unfold a_key in Hk. simpl in Hk. injection Hk as Hk Ht _. unfold placing. by rewrite Hk.
Qed.

(** The worker the control plane contributes. *)
Definition local_of (now : Time) (pub : string) (disk : disk_answers) : option Agent :=
  if rcfg.(rep_IncludeLocal) then Some (local_agent now pub (Probe disk local_thresholds)) else None.

Lemma local_of_ok now pub disk : local_ok (local_of now pub disk).
Proof. unfold local_of. intros l. by case_if; intros [= <-]. Qed.

Lemma reconcile_run pub disk i s agents gens :
  rcfg.(rep_Enabled) = true → qs_wf s → unused_tokens i s →
  st_ListAgents s = Ok agents → agents_ok agents →
  st_ListAllGenerations 20000 s = Ok gens →
  (∀ g, g ∈ gens → is_ok (st_ListReplicas g.(Gen_ID) s) = true) →
  ∃ now i' s' n, reconcile_generations (Ok pub) disk i s = (i', s', Ok n) ∧
    let f := fleet_of now agents (local_of now pub disk) in
    qs_wf s' ∧ unused_tokens i' s' ∧ grows s s' ∧
    Z.of_nat (size (qs_jobs s')) = Z.of_nat (size (qs_jobs s)) + n ∧
    (∀ id y, qs_jobs s' !! id = Some y → qs_jobs s !! id = None →
       ∃ g reps x tid, g ∈ gens ∧ st_ListReplicas g.(Gen_ID) s = Ok reps ∧
         safe_placement f reps x ∧ row_of (replicate_job now f g tid x) y) ∧
    (∀ g reps x, g ∈ gens → st_ListReplicas g.(Gen_ID) s = Ok reps → x ∈ placements f reps →
       ∃ id j, qs_jobs s' !! id = Some j ∧ placing j = true ∧
         j.(Job_Target) = job_target g x.2).
Proof.
  intros Hen Hwf Hun Hag Hagok Hgens Hreps. unfold reconcile_generations. rewrite Hen. change (negb true) with false. cbv iota.
  rewrite (bind_eq _ _ i s (Datatypes.S i) s (clock i)) by done.
  destruct (cleanup_run (clock i) (Datatypes.S i) s Hwf) as (i1 & s1 & r1 & E1 & Hi1 & Hwf1 & Hf1 & Hj1).
  rewrite (bind_eq _ _ _ _ _ _ _ E1).
  set (now := clock i1). set (i2 := Datatypes.S i1).
  rewrite (bind_eq _ _ i1 s1 i2 s1 now) by done.
  rewrite (bind_eq _ _ i2 s1 i2 s1 agents) by (unfold pread; by rewrite (qs_agents _ _ Hf1), Hag).
  rewrite (bind_eq _ _ i2 s1 i2 s1 (local_of now pub disk)) by (unfold local_of; by case_if).
  rewrite (bind_eq _ _ i2 s1 i2 s1 gens)
    by (unfold pread; by rewrite (qs_generations _ _ _ Hf1), Hgens).
  destruct (qs_listed 10000 s1) as (js & Hjs & Hlisted).
  rewrite (bind_eq _ _ i2 s1 i2 s1 js) by (unfold pignore, pread; by rewrite Hjs).
  set (f := fleet_of now agents (local_of now pub disk)).
  destruct (reconcile_loop now f (activePlacement js) gens s1 0 i2 s1) as (i' & s' & n & Er & [Hfr (reqs & Hfl & Hreqs)] & Hall).
  { intros g Hg. rewrite (qs_replicas _ _ _ Hf1). auto. }
  { split; [done|]. exists []. split; [|by intros j ?%not_elem_of_nil].
    apply filed_start; [done|]. intros k Hk. rewrite Hj1. apply Hun. lia. }
  exists now, i', s', n. split; [done|]. simpl. destruct Hfl as [Hw Htk Hkept Hnew Hdone Hcount].
  rewrite Hj1 in Hkept, Hnew, Hcount. split_and!; try done.
  { split; [by etrans|done]. }
  - intros id y Hy Hn. destruct (Hnew id y Hy Hn) as (j & Hj & Hrow).
    destruct (Hreqs j Hj) as (g & reps & x & tid & Hg & Hr & Hx & ->).
    exists g, reps, x, tid. rewrite (qs_replicas _ _ _ Hf1) in Hr. split_and!; try done.
    apply placements_safe; [|done]. apply fleet_of_ok; [done|apply local_of_ok].
  - intros g reps x Hg Hr Hx. rewrite <- (qs_replicas _ _ _ Hf1) in Hr.
    destruct (Hall g reps x Hg Hr Hx) as [Hb|Ha]; [|by eapply active_key_placing].
    apply (active_placement_live _ _ _ _ Hjs) in Hb as (id & j & Hj & ?). exists id, j.
    split; [|done]. apply Hkept. by rewrite <- Hj1.
Qed.

End Run.
End Reconcile.

(** The plan does not depend on the order in which Go ranges over its maps:
    two runs on the same agents and replicas choose the same sources and
    targets in the same order. *)
Theorem placements_deterministic (MO1 MO2 : MapOrder) cfg f reps :
  placements (MO := MO1) cfg f reps = placements (MO := MO2) cfg f reps.
Proof.
  unfold placements. destruct (satisfied _ _); [done|]. destruct (sources_of _ _ _); [done|].
  do 2 f_equal. unfold targets_of. apply sort_slice_canonical; [apply target_order_weak| |].
  - intros x y _ _. apply target_order_total.
  - apply fmap_Permutation, filter_perm.
    by rewrite (range_perm (MapOrder := MO1)), (range_perm (MapOrder := MO2)).
Qed.

(** ** A fleet of three *)

Module Demo.

Definition rep : ReplicationConfig :=
  zero_ReplicationConfig <| rep_Enabled := true |> <| rep_Factor := 2 |> <| rep_MinHealthy := 2 |>
    <| rep_AgentTimeout := "5m" |> <| rep_FailureDomainLabel := "zone" |>
    <| rep_MinFailureDomains := 2 |>.
Definition config : Config :=
  zero_Config <| cfg_Replication := rep |>
    <| cfg_Storage := zero_StorageDataConfig <| sd_Enabled := true |> |>.
Definition agent (id zone : string) : Agent :=
  zero_Agent <| Agent_ID := id |> <| Agent_Name := id |> <| Agent_ReplicationPublicKey := "AAAA" |>
    <| Agent_StorageHealth := Healthy |> <| Agent_LastSeenAt := 1000 * Second |>
    <| Agent_LabelsJSON := Json (JObj [("zone", JStr zone)]) |>.
Definition agents : list Agent := [agent "a" "east"; agent "b" "east"; agent "c" "west"].
Definition gen : Generation := zero_Generation <| Gen_ID := "g1" |>.
Definition reps : list GenerationReplica :=
  [zero_GenerationReplica <| Replica_GenerationID := "g1" |> <| Replica_AgentID := "a" |>
     <| Replica_State := ReplicaReady |>].
Definition fleet1 : fleet := fleet_of config (1000 * Second) agents None.

Lemma agents_are_ok : agents_ok agents.
Proof. split; apply (bool_decide_unpack _); vm_compute; reflexivity. Qed.

Lemma fleet1_ok : fleet_ok config fleet1.
Proof. by apply fleet_of_ok; [apply agents_are_ok|]. Qed.

(** The copy goes to the agent in the other zone, not to the first by name. *)
Example demo_plan : placements config fleet1 reps = [("a", "c")].
Proof. vm_compute. reflexivity. Qed.

(** Three zones are wanted and there are three, but both copies go to one of them:
    the second target is not ranked again after the first has been taken. *)
Definition wide : Config :=
  config <| cfg_Replication := rep <| rep_Factor := 3 |> <| rep_MinFailureDomains := 3 |> |>.
Definition three_zones : list Agent := [agent "a" "east"; agent "b1" "west"; agent "b2" "west"; agent "c" "north"].

Example two_in_one_zone :
  let f := fleet_of wide (1000 * Second) three_zones None in
  placements wide f reps = [("a", "b1"); ("a", "b2")] ∧
  satisfied wide (standing_of wide f (carried_out wide f reps)) = false.
Proof. split; vm_compute; reflexivity. Qed.

Lemma placements_restore_redundancy_witness :
  zlen (placements config fleet1 reps) = 1 ∧
  2 ≤ len (standing_of config fleet1 (carried_out config fleet1 reps)).(ready).
Proof.
  destruct (placements_restore_redundancy config fleet1 reps fleet1_ok) as (_ & _ & Hl & _ & Hn & _).
  - vm_compute. reflexivity.
  - vm_compute. discriminate.
  - split.
    + rewrite Hl. vm_compute. reflexivity.
    + apply Hn. vm_compute. discriminate.
Defined.

Definition two_copies : list GenerationReplica :=
  reps ++ [zero_GenerationReplica <| Replica_AgentID := "c" |> <| Replica_State := ReplicaReady |>].

Lemma satisfied_is_healthy_witness :
  generation_healthy config (online_agents config (1000 * Second) agents) two_copies = true.
Proof.
  apply (satisfied_is_healthy config (1000 * Second) agents None two_copies agents_are_ok).
  - done.
  - by intros [? ?].
  - simpl. lia.
  - vm_compute. reflexivity.
Defined.

Definition store : Sql.SQLStore :=
  Sql.empty_store <| Sql.generations := {[ "g1" := gen ]} |>
    <| Sql.agents := list_to_map ((fun a => (a.(Agent_ID), a)) <$> agents) |>
    <| Sql.generation_replicas := {[ ("g1", "a") := zero_GenerationReplica
         <| Replica_GenerationID := "g1" |> <| Replica_AgentID := "a" |>
         <| Replica_State := ReplicaReady |> ]} |>.

#[local] Existing Instance tick_env.

Definition no_disk : disk_answers := mkDiskAnswers None (Ok (0, 0)) "" None None None None (Ok "") 0.


Example demo_queued :
  (fun j => (j.(Job_Target), j.(Job_Affinity))) <$>
    range_vals (reconcile_generations config (Ok "") no_disk 0%nat store).1.2.(Sql.jobs)
  = [("g1@c", "a")].
Proof. vm_compute. reflexivity. Qed.
End Demo.
End Replication.
