(* ===== verification/Erasure.v ===== *)
(** * Distributed erasure coding (erasure_distributed.go)

    Where the shards of an object should be, the reconciler that brings them
    there under object leases, and the health report.  [protectErasure], which
    encodes objects in the local store, is not modelled. *)

From Stdlib Require Import Ascii String QArith.
From stdpp Require Import pretty.
From S2P Require Import Prelude GoStd Json Sha256 Model Payloads Config StorageHealth QueueSpec SqlStore Control Requests Placement Replication.
#[global] Open Scope Z_scope.

Module Erasure.
Import StorageHealth Placement.

(** ** Where a shard should be *)

(** [binary.BigEndian.Uint64(h[:8])] of
    [sha256("object:index:copyIndex:agent")]. *)
Definition rendezvousScore (object : string) (index copyIndex : Z) (agent : string) : Z :=
  foldl (fun acc b => acc * 256 + b) 0
    (take 8 (sha256 (bytes_of (object +:+ ":" +:+ pretty index +:+ ":" +:+ pretty copyIndex
                               +:+ ":" +:+ agent)))).

(** The failure domain of an agent; without one it is a domain of its own. *)
Definition shard_domain (domainKey : string) (id : string) (a : Agent) : string :=
  let d := agentFailureDomain a domainKey in
  if d ≟ "" then "__agent__:" +:+ id else d.

Section Desired.
Context {MO : MapOrder}.

Definition by_domain (agents : gmap string Agent) (domainKey : string)
    : gmap string (list string) :=
  sort_strings <$> foldl (fun m x =>
    let d := shard_domain domainKey x.1 x.2 in
    <[d := zero_or [] (m !! d) ++ [x.1]]> m) ∅ (range agents).

(** The best scoring id that is not used yet; [""] if there is none. *)
Definition best_of (score : string → Z) (used : list string) (ids : list string) : string :=
  (foldl (fun best id =>
     if bool_decide (id ∈ used) then best
     else if (best.1 ≟ "") || (best.2 <? score id) then (id, score id) else best)
     ("", 0) ids).1.

(** The loop, [copies - len(out)] times at most: every round adds an agent or
    stops. *)
Fixpoint pick_shards (object : string) (index : Z) (agents : gmap string Agent)
    (byDomain : gmap string (list string)) (domains : list string)
    (copyIndex : Z) (out : list string) (rounds : nat) : list string :=
  match rounds with
  | O => out
  | S rounds' =>
      let d := nth (Z.to_nat (Z.rem (index + copyIndex) (zlen domains))) domains "" in
      let score := rendezvousScore object index copyIndex in
      let best := best_of score out (zero_or [] (byDomain !! d)) in
      let best := if best ≟ "" then best_of score out (range_keys agents) else best in
      if best ≟ "" then out
      else pick_shards object index agents byDomain domains (copyIndex + 1) (out ++ [best]) rounds'
  end.

Definition desiredShardAgents (object : string) (index copies : Z)
    (agents : gmap string Agent) (domainKey : string) : list string :=
  if (copies <? 1) || (Z.of_nat (size agents) =? 0) then []
  else
    let byDomain := by_domain agents domainKey in
    let domains := sort_strings (range_keys byDomain) in
    let copies := if Z.of_nat (size agents) <? copies then Z.of_nat (size agents) else copies in
    pick_shards object index agents byDomain domains 0 [] (Z.to_nat copies).

(** ** The reconciler *)

Definition recentlyRanJob (jobs : list Job) (kind affinity : string) (interval : Duration)
    (now : Time) : bool :=
  existsb (fun j =>
    (j.(Job_Kind) ≟ kind) && (j.(Job_Affinity) ≟ affinity)
    && ((j.(Job_Status) ≟ JobQueued) || (j.(Job_Status) ≟ JobRunning)
        || ((j.(Job_Status) ≟ JobSucceeded) && (time_sub now j.(Job_UpdatedAt) <? interval)))) jobs.

Definition activeJobExists (jobs : list Job) (kind target : string) : bool :=
  existsb (fun j =>
    (j.(Job_Kind) ≟ kind) && (j.(Job_Target) ≟ target)
    && ((j.(Job_Status) ≟ JobQueued) || (j.(Job_Status) ≟ JobRunning))) jobs.

Definition hasReadyShardOn (xs : list ErasureShard) (agent : string) : bool :=
  existsb (fun sh => (sh.(Shard_AgentID) ≟ agent) && (sh.(Shard_State) ≟ ShardReady)) xs.

Definition selectShardSource (xs : list ErasureShard) (agents : gmap string Agent)
    (digest : string) : string :=
  match sort_strings (Shard_AgentID <$> List.filter (fun sh =>
      (sh.(Shard_State) ≟ ShardReady) && EqualFold sh.(Shard_ShardSHA256) digest
      && bool_decide (is_Some (agents !! sh.(Shard_AgentID)))) xs) with
  | [] => ""
  | id :: _ => id
  end.

(** ** The best unused agent *)

(** A step of [best_of]: the running best is kept or replaced by a better one. *)
Lemma best_of_fold (score : string → Z) (used l : list string) (b : string * Z) :
  "" ∉ l →
  let r := foldl (fun (best : string * Z) (id : string) =>
     if bool_decide (id ∈ used) then best
     else if (best.1 ≟ "") || (best.2 <? score id) then (id, score id) else best) b l in
  (r = b ∨ (r.1 ∈ l ∧ r.1 ∉ used ∧ r.2 = score r.1)) ∧
  (b.1 ≠ "" → r.1 ≠ "" ∧ b.2 ≤ r.2) ∧
  (∀ x, x ∈ l → x ∉ used → r.1 ≠ "" ∧ score x ≤ r.2).
Proof.
  revert b. induction l as [|y l IH]; intros b Hne; simpl.
  { split_and!; [by left|by split|by intros x ?%not_elem_of_nil]. }
  apply not_elem_of_cons in Hne as [Hy Hl].
  destruct (bool_decide_reflect (y ∈ used)) as [Hu|Hu].
  { destruct (IH b Hl) as (H1 & H2 & H3). split_and!; [|done|].
    - destruct H1 as [->|(? & ? & ?)]; [by left|right]. by split_and!; [right|..].
    - intros x [->|Hx]%elem_of_cons Hn; [done|]. by apply H3. }
  destruct ((b.1 ≟ "") || (b.2 <? score y)) eqn:E.
  - destruct (IH (y, score y) Hl) as (H1 & H2 & H3). simpl in *.
    destruct (H2 (not_eq_sym Hy)) as [H2a H2b]. split_and!.
    + right. destruct H1 as [->|(? & ? & ?)]; simpl; [by split_and!; [left|..]|].
      by split_and!; [right|..].
    + intros Hb. split; [done|]. apply orb_true_iff in E as [E%bool_decide_eq_true|E%Z.ltb_lt]; [done|lia].
    + intros x [->|Hx]%elem_of_cons Hn; [by split|]. by apply H3.
  - apply orb_false_iff in E as [Hb%bool_decide_eq_false Hs%Z.ltb_ge].
    destruct (IH b Hl) as (H1 & H2 & H3). destruct (H2 Hb) as [H2a H2b]. split_and!; [|done|].
    + destruct H1 as [->|(? & ? & ?)]; [by left|right]. by split_and!; [right|..].
    + intros x [->|Hx]%elem_of_cons Hn; [split; [done|lia]|]. by apply H3.
Qed.

Lemma best_of_none score used ids x :
  "" ∉ ids → best_of score used ids = "" → x ∈ ids → x ∈ used.
Proof.
  intros Hne Hb Hx. destruct (decide (x ∈ used)) as [|Hn]; [done|]. exfalso.
  destruct (best_of_fold score used ids ("", 0) Hne) as (_ & _ & H). by destruct (H x Hx Hn).
Qed.

Lemma best_of_some score used ids :
  "" ∉ ids → best_of score used ids ≠ "" →
  best_of score used ids ∈ ids ∧ best_of score used ids ∉ used ∧
  ∀ x, x ∈ ids → x ∉ used → score x ≤ score (best_of score used ids).
Proof.
  intros Hne Hb. unfold best_of in *.
  destruct (best_of_fold score used ids ("", 0) Hne) as ([E|(H1 & H2 & H3)] & _ & H4).
  - by rewrite E in Hb.
  - split_and!; [done|done|]. intros x Hx Hn. rewrite <- H3. by apply H4.
Qed.

(** ** The agents by domain *)

Lemma by_domain_fold key l d x :
  let m := foldl (fun m (x : string * Agent) =>
    let d := shard_domain key x.1 x.2 in
    <[d := zero_or [] (m !! d) ++ [x.1]]> m) (∅ : gmap string (list string)) l in
  (x ∈ zero_or [] (m !! d) ↔ ∃ a, (x, a) ∈ l ∧ shard_domain key x a = d) ∧
  (is_Some (m !! d) ↔ ∃ y, y ∈ l ∧ shard_domain key y.1 y.2 = d).
Proof.
  induction l as [|[y b] l IH] using rev_ind; simpl.
  { rewrite lookup_empty. simpl. split; split.
    - by intros ?%not_elem_of_nil.
    - by intros (? & ?%not_elem_of_nil & _).
    - by intros [].
    - by intros (? & ?%not_elem_of_nil & _). }
  rewrite foldl_app. simpl. set (m := foldl _ _ l) in *. destruct IH as [IH1 IH2].
  setoid_rewrite elem_of_app. setoid_rewrite list_elem_of_singleton.
  destruct (decide (shard_domain key y b = d)) as [<-|Hd].
  - rewrite lookup_insert_eq. simpl. split.
    + rewrite elem_of_app, list_elem_of_singleton, IH1. naive_solver.
    + split; [|eauto]. intros _. exists (y, b). by split; [right|].
  - rewrite lookup_insert_ne by done. rewrite IH1, IH2. split; [naive_solver|].
    split; [naive_solver|]. intros (z & [Hz| ->] & Hzd); [eauto|done].
Qed.

Lemma elem_of_by_domain agents key d x :
  x ∈ zero_or [] (by_domain agents key !! d) ↔
  ∃ a, agents !! x = Some a ∧ shard_domain key x a = d.
Proof.
  destruct (by_domain_fold key (range agents) d x) as [H _]. unfold by_domain.
  setoid_rewrite elem_of_range in H. rewrite <- H, lookup_fmap.
  destruct (foldl _ _ _ !! d) as [l|]; simpl; [|done].
  unfold sort_strings. by rewrite elem_of_sort_slice.
Qed.

Lemma elem_of_shard_domains agents key d :
  d ∈ sort_strings (range_keys (by_domain agents key)) ↔
  ∃ x a, agents !! x = Some a ∧ shard_domain key x a = d.
Proof.
  destruct (by_domain_fold key (range agents) d "") as [_ H].
  unfold sort_strings. rewrite elem_of_sort_slice, elem_of_range_keys. unfold by_domain.
  rewrite lookup_fmap, fmap_is_Some, H. split.
  - intros ([x a] & Hx%elem_of_range & Hd). eauto.
  - intros (x & a & Hx & Hd). exists (x, a). split; [by apply elem_of_range|done].
Qed.

Lemma domains_NoDup agents key : NoDup (sort_strings (range_keys (by_domain agents key))).
Proof. unfold sort_strings. rewrite sort_slice_perm. apply range_keys_NoDup. Qed.

(** ** The loop *)

Section Pick.
Context (object : string) (index : Z) (agents : gmap string Agent) (key : string).
Context (named : agents !! "" = None) (index_ok : 0 ≤ index).
Local Notation domains := (sort_strings (range_keys (by_domain agents key))).

Definition domain_of (x : string) : string :=
  shard_domain key x (Replication.agent_at agents x).

(** The domain whose turn it is. *)
Definition turn (c : nat) : string :=
  nth (Z.to_nat (Z.rem (index + Z.of_nat c) (zlen domains))) domains "".

Lemma domains_nonempty : (0 < size agents)%nat → (0 < length domains)%nat.
Proof.
  intros Hs. destruct (map_choose agents) as (x & a & Ha).
  { intros E. rewrite E, map_size_empty in Hs. lia. }
  assert (shard_domain key x a ∈ domains) as H by (apply elem_of_shard_domains; eauto).
  apply list_elem_of_lookup in H as [i Hi%lookup_lt_Some]. lia.
Qed.

Lemma turn_in c : (0 < size agents)%nat → turn c ∈ domains.
Proof.
  intros Hs. pose proof (domains_nonempty Hs). unfold turn. apply list_elem_of_In, nth_In.
  unfold zlen. rewrite Z.rem_mod_nonneg by lia.
  pose proof (Z.mod_pos_bound (index + Z.of_nat c) (Z.of_nat (length domains))). lia.
Qed.

(** The turns of the first [length domains] rounds are distinct. *)
Lemma turn_inj c c' :
  (c < length domains)%nat → (c' < length domains)%nat → turn c = turn c' → c = c'.
Proof.
  intros Hc Hc'. unfold turn, zlen. rewrite !Z.rem_mod_nonneg by lia.
  set (n := Z.of_nat (length domains)).
  pose proof (Z.mod_pos_bound (index + Z.of_nat c) n ltac:(lia)).
  pose proof (Z.mod_pos_bound (index + Z.of_nat c') n ltac:(lia)).
  intros E. apply NoDup_nth in E; [|apply NoDup_ListNoDup, domains_NoDup|lia..].
  pose proof (Z.div_mod (index + Z.of_nat c) n ltac:(lia)).
  pose proof (Z.div_mod (index + Z.of_nat c') n ltac:(lia)).
  assert ((index + Z.of_nat c) `mod` n = (index + Z.of_nat c') `mod` n) as Em by lia.
  set (q := (index + Z.of_nat c) / n) in *. set (q' := (index + Z.of_nat c') / n) in *.
  clearbody q q'. assert (q = q') as ->; [|lia].
  destruct (Z.lt_trichotomy q q') as [?|[?|?]]; [nia|done|nia].
Qed.

(** After [length out] rounds. *)
Record picked (out : list string) : Prop := {
  pk_NoDup : NoDup out;
  pk_in x : x ∈ out → is_Some (agents !! x);
  pk_turn i x : out !! i = Some x → (i < length domains)%nat → domain_of x = turn i
}.

Lemma unused_agent out :
  picked out → (length out < size agents)%nat → ∃ x, is_Some (agents !! x) ∧ x ∉ out.
Proof.
  intros Hp Hlt. destruct (decide (Forall (fun x => x ∈ out) (range_keys agents))) as [H|H].
  - exfalso. assert (length (range_keys agents) ≤ length out)%nat as Hle.
    { apply submseteq_length, NoDup_submseteq; [apply range_keys_NoDup|].
      by apply Forall_forall. }
    rewrite range_keys_length in Hle. lia.
  - apply not_Forall_Exists in H; [|apply _]. apply Exists_exists in H as (x & Hx & Hn).
    exists x. split; [by apply elem_of_range_keys|done].
Qed.

Lemma no_empty_member d : "" ∉ zero_or [] (by_domain agents key !! d).
Proof. intros (a & Ha & _)%elem_of_by_domain. congruence. Qed.

Lemma no_empty_agent : "" ∉ range_keys agents.
Proof. intros [a Ha]%elem_of_range_keys. congruence. Qed.

Definition pick (out : list string) : string :=
  let score := rendezvousScore object index (Z.of_nat (length out)) in
  let best := best_of score out (zero_or [] (by_domain agents key !! turn (length out))) in
  if best ≟ "" then best_of score out (range_keys agents) else best.

(** While not every domain has had its turn, nobody in the next one is used. *)
Lemma turn_unused out x :
  picked out → (length out < length domains)%nat →
  x ∈ zero_or [] (by_domain agents key !! turn (length out)) → x ∉ out.
Proof.
  intros Hp Hlt (a & Ha & Hd)%elem_of_by_domain [i Hi]%list_elem_of_lookup.
  pose proof (lookup_lt_Some _ _ _ Hi) as Hl.
  pose proof (pk_turn _ Hp i x Hi ltac:(lia)) as Ht. unfold domain_of, Replication.agent_at in Ht.
  rewrite Ha in Ht. simpl in Ht. rewrite Hd in Ht.
  apply turn_inj in Ht; lia.
Qed.

Lemma pick_spec out :
  picked out → (length out < size agents)%nat → pick out ≠ "" ∧ picked (out ++ [pick out]).
Proof.
  intros Hp Hlt. destruct (unused_agent out Hp Hlt) as (u & Hu & Hun).
  set (score := rendezvousScore object index (Z.of_nat (length out))).
  set (mem := zero_or [] (by_domain agents key !! turn (length out))).
  assert (pick out ≠ "" ∧ pick out ∉ out ∧ is_Some (agents !! pick out) ∧
    ((length out < length domains)%nat → domain_of (pick out) = turn (length out)))
    as (Hne & Hnew & Hin & Hdom).
  { unfold pick. fold score mem. destruct (bool_decide_reflect (best_of score out mem = "")) as [E|E].
    - assert (best_of score out (range_keys agents) ≠ "") as Hb.
      { intros Hb. apply Hun. apply (best_of_none _ _ _ u no_empty_agent Hb).
        by apply elem_of_range_keys. }
      destruct (best_of_some _ _ _ no_empty_agent Hb) as (H1 & H2 & _).
      split_and!; [done|done|by apply elem_of_range_keys|]. intros Hl. exfalso.
      pose proof (turn_in (length out) ltac:(lia)) as (y & a & Ha & Hd)%elem_of_shard_domains.
      assert (y ∈ mem) as Hy by (apply elem_of_by_domain; eauto).
      apply (turn_unused out y Hp Hl Hy).
      by apply (best_of_none _ _ _ y (no_empty_member _) E).
    - destruct (best_of_some _ _ _ (no_empty_member _) E) as (H1 & H2 & _).
      apply elem_of_by_domain in H1 as (a & Ha & Hd).
      fold mem in Ha, Hd. split_and!; [done|done|by eexists|]. intros _.
      unfold domain_of, Replication.agent_at. by rewrite Ha. }
  split; [done|]. destruct Hp as [Hnd Hi Ht]. split.
  - apply NoDup_app. split_and!; [done| |apply NoDup_singleton].
    intros x Hx ->%list_elem_of_singleton. done.
  - intros x [Hx| ->%list_elem_of_singleton]%elem_of_app; auto.
  - intros i x Hx Hl. apply lookup_app_Some in Hx as [Hx|[Hge Hx]]; [by apply Ht|].
    apply list_lookup_singleton_Some in Hx as [Hz <-].
    assert (i = length out) as -> by lia. auto.
Qed.

Lemma pick_shards_eq out rounds :
  pick_shards object index agents (by_domain agents key) domains (Z.of_nat (length out)) out
    (S rounds) =
  if pick out ≟ "" then out
  else pick_shards object index agents (by_domain agents key) domains
         (Z.of_nat (length (out ++ [pick out]))) (out ++ [pick out]) rounds.
Proof.
  rewrite length_app. simpl length. replace (Z.of_nat (length out + 1)) with (Z.of_nat (length out) + 1) by lia.
  reflexivity.
Qed.

Lemma pick_shards_spec rounds out :
  picked out → (length out + rounds ≤ size agents)%nat →
  let r := pick_shards object index agents (by_domain agents key) domains
             (Z.of_nat (length out)) out rounds in
  picked r ∧ length r = (length out + rounds)%nat.
Proof.
  revert out. induction rounds as [|rounds IH]; intros out Hp Hle.
  { simpl. split; [done|lia]. }
  cbv zeta. rewrite pick_shards_eq.
  destruct (pick_spec out Hp ltac:(lia)) as [Hne Hp']. rewrite bool_decide_eq_false_2 by done.
  destruct (IH _ Hp') as [H1 H2]; [rewrite length_app; simpl; lia|].
  split; [done|]. rewrite H2, length_app. simpl. lia.
Qed.
End Pick.

(** ** The promise *)

(** The failure domains of a set of agents. *)
Definition domains_of (agents : gmap string Agent) (key : string) : gset string :=
  set_map (domain_of agents key) (dom agents).

Lemma domains_of_list agents key :
  domains_of agents key = list_to_set (sort_strings (range_keys (by_domain agents key))).
Proof.
  apply set_eq. intros d. unfold domains_of.
  rewrite elem_of_map, elem_of_list_to_set, elem_of_shard_domains. split.
  - intros (x & -> & [a Ha]%elem_of_dom). exists x, a. split; [done|].
    unfold domain_of, Replication.agent_at. by rewrite Ha.
  - intros (x & a & Ha & <-). exists x. split; [|by apply elem_of_dom].
    unfold domain_of, Replication.agent_at. by rewrite Ha.
Qed.

Lemma domains_of_size agents key :
  size (domains_of agents key) = length (sort_strings (range_keys (by_domain agents key))).
Proof. rewrite domains_of_list. apply size_list_to_set, domains_NoDup. Qed.

Lemma size_list_to_set_le (l : list string) : (size (list_to_set l : gset string) ≤ length l)%nat.
Proof.
  induction l as [|x l IH]; [done|]. rewrite list_to_set_cons, size_union_alt, size_singleton.
  pose proof (subseteq_size (list_to_set l ∖ {[x]}) (list_to_set l : gset string) ltac:(set_solver)).
  simpl. lia.
Qed.

Lemma domains_of_le agents key : (size (domains_of agents key) ≤ size agents)%nat.
Proof.
  unfold domains_of. rewrite <- (size_dom (D := gset string) agents).
  unfold set_map. etrans; [apply size_list_to_set_le|]. by rewrite length_fmap.
Qed.

(** As many domains as copies or as there are. *)
Lemma picked_spread index agents key out :
  0 ≤ index → picked index agents key out → (length out ≤ size agents)%nat →
  size (list_to_set (domain_of agents key <$> out) : gset string)
  = (length out `min` size (domains_of agents key))%nat.
Proof.
  intros Hidx Hp Hle. set (n := size (domains_of agents key)).
  set (D := list_to_set (domain_of agents key <$> out) : gset string).
  assert (size D ≤ length out)%nat as H1.
  { unfold D. etrans; [apply size_list_to_set_le|]. by rewrite length_fmap. }
  assert (size D ≤ n)%nat as H2.
  { apply subseteq_size. intros d. unfold D, domains_of.
    rewrite elem_of_list_to_set, list_elem_of_fmap, elem_of_map.
    intros (x & -> & Hx). exists x. split; [done|]. by apply elem_of_dom, (pk_in _ _ _ _ Hp). }
  assert (length out `min` n ≤ size D)%nat as H3; [|lia].
  assert (NoDup (domain_of agents key <$> take n out)) as Hnd.
  { apply NoDup_alt. intros i j d. rewrite !list_lookup_fmap, !fmap_Some.
    intros (x & Hx & ->) (y & Hy & E).
    apply lookup_take_Some in Hx as [Hx Hi]. apply lookup_take_Some in Hy as [Hy Hj].
    unfold n in Hi, Hj. rewrite domains_of_size in Hi, Hj.
    rewrite (pk_turn _ _ _ _ Hp i x Hx Hi), (pk_turn _ _ _ _ Hp j y Hy Hj) in E.
    by apply (turn_inj index agents key Hidx) in E. }
  rewrite Nat.min_comm, <- length_take, <- (length_fmap (domain_of agents key)).
  rewrite <- (size_list_to_set (C := gset string) _ Hnd). apply subseteq_size.
  intros d. unfold D. rewrite !elem_of_list_to_set, !list_elem_of_fmap.
  intros (x & -> & Hx). exists x. split; [done|].
  rewrite <- (take_drop n out). apply elem_of_app. by left.
Qed.

(** C22. Shards are spread: for at least one copy, [desiredShardAgents] names
    distinct agents of the pool, as many as copies or as there are, and in as many
    failure domains as copies or as there are. *)
Theorem desired_shards_spread object index copies agents key :
  agents !! "" = None → 0 ≤ index → 1 ≤ copies →
  let out := desiredShardAgents object index copies agents key in
  NoDup out ∧ (∀ x, x ∈ out → is_Some (agents !! x)) ∧
  zlen out = Z.min copies (Z.of_nat (size agents)) ∧
  Z.of_nat (size (list_to_set (domain_of agents key <$> out) : gset string))
  = Z.min copies (Z.of_nat (size (domains_of agents key))).
Proof.
  intros Hne Hidx Hc out. unfold out, desiredShardAgents.
  destruct (Z.ltb_spec copies 1); [lia|]. simpl orb.
  destruct (Z.eqb_spec (Z.of_nat (size agents)) 0) as [E0|E0].
  { assert (agents = ∅) as -> by (apply map_size_empty_inv; lia).
    split_and!; [constructor|by intros x ?%not_elem_of_nil| |]; vm_compute; by destruct copies. }
  set (k := if Z.of_nat (size agents) <? copies then _ else copies).
  assert (k = Z.min copies (Z.of_nat (size agents))) as Hk by (unfold k; case_match; lia).
  assert (picked index agents key []) as Hp0.
  { split; [constructor|by intros x ?%not_elem_of_nil|]. intros i x Hi. done. }
  destruct (pick_shards_spec object index agents key Hne Hidx (Z.to_nat k) [] Hp0) as [Hp Hl];
    [simpl; lia|]. simpl length in *. change (Z.of_nat 0) with 0 in *.
  set (r := pick_shards _ _ _ _ _ _ _ _) in *. assert (length r ≤ size agents)%nat as Hle by lia.
  pose proof (domains_of_le agents key) as Hdl.
  split_and!; [apply Hp|apply Hp|unfold zlen; lia|].
  rewrite (picked_spread index agents key r Hidx Hp Hle). lia.
Qed.
End Desired.

Section Reconcile.
Context {MO : MapOrder} {S : Type} `{!Store S} {E : Env}.
Context (cfg : Config).
Local Notation rcfg := cfg.(cfg_Replication).
Local Notation scfg := cfg.(cfg_Storage).
Local Notation ecfg := cfg.(cfg_Storage).(sd_Erasure).

(** Allowed, online agents with a key, in the shard pool. *)
Definition shard_agent (now : Time) (a : Agent) : bool :=
  agentAllowed a.(Agent_ID) rcfg.(rep_AllowedAgents) rcfg.(rep_ExcludedAgents)
  && fresh now (agent_timeout rcfg) a && (TrimSpace a.(Agent_ReplicationPublicKey) ≠? "")
  && agentInShardPool a ecfg.(er_ShardPoolLabel).

Definition collect (p : Agent → bool) (m : gmap string Agent) (a : Agent) : gmap string Agent :=
  if p a then <[a.(Agent_ID) := a]> m else m.

(** The [readable] and the [eligible] agents, the local worker last. *)
Definition shard_nodes (fit : Agent → bool) (now : Time) (agents : list Agent)
    (local : option Agent) : gmap string Agent :=
  let m := foldl (collect (fun a => shard_agent now a && fit a)) ∅ agents in
  match local with Some l => collect fit m l | None => m end.

Definition readable_nodes := shard_nodes (fun a => agentReadable a scfg).
Definition eligible_nodes := shard_nodes (fun a => agentAcceptsPlacement a scfg).

(** [json.Marshal] of the labels: the keys in order. *)
Definition labels_json (labels : gmap string string) : json_text :=
  Json (JObj ((fun k => (k, JStr (zero_or "" (labels !! k))))
              <$> sort_strings (elements (dom labels)))).

Definition localAgent (now : Time) (pub : string) (hr : Report) : Agent :=
  (Replication.local_agent now pub hr) <| Agent_LabelsJSON := labels_json cfg.(cfg_AgentLabels) |>.

(** [localAgent] fails when the key cannot be had, and then takes no part. *)
Definition local_node (now : Time) (key : result string) (disk : disk_answers) : option Agent :=
  if rcfg.(rep_IncludeLocal) then
    match key with
    | Ok pub => Some (localAgent now pub (Probe disk (Replication.local_thresholds cfg)))
    | Err _ => None
    end
  else None.

Definition erasure_interval : Duration := duration_or ecfg.(er_ReconcileInterval) (5 * Minute).
Definition transfer_ttl : Duration := duration_or rcfg.(rep_TransferTTL) (2 * Hour).

Definition protect_job (now : Time) (id : string) : Job :=
  zero_Job <| Job_Kind := "protect-erasure" |> <| Job_Target := id |>
    <| Job_Payload := marshal_protect (mkProtect 0) |> <| Job_Affinity := id |>
    <| Job_Priority := 90 |> <| Job_MaxAttempts := cfg.(cfg_Workers).(w_MaxAttempts) |>
    <| Job_NotBefore := now |>.

(** [%03d] *)
Definition pad3 (n : Z) : string :=
  let s := pretty n in
  if (String.length s <? 3)%nat then
    String.substring 0 (3 - String.length s) "000" +:+ s
  else s.

Definition shard_job_target (object : string) (idx : Z) (target : string) : string :=
  "ers:" +:+ object +:+ ":" +:+ pad3 idx +:+ "@" +:+ target.

Definition shard_job (now : Time) (transferID source : string) (target : string * Agent)
    (object : string) (idx : Z) (shardDigest : string) (shardBytes : Z) : Job :=
  zero_Job <| Job_Kind := "replicate-cas" |>
    <| Job_Target := shard_job_target object idx target.1 |>
    <| Job_Payload := marshal_replicate_cas (mkReplicateCAS transferID source target.1
         target.2.(Agent_ReplicationPublicKey) [target.1] 1 [] [shardDigest]
         (Some (mkShardTransfer object idx shardDigest shardBytes ("xfer:" +:+ transferID))) "" "") |>
    <| Job_Affinity := source |> <| Job_Priority := 135 |>
    <| Job_MaxAttempts := cfg.(cfg_Workers).(w_MaxAttempts) |> <| Job_NotBefore := now |>.

Definition shard_lease (now : Time) (transferID shardDigest jobTarget : string) : ObjectLease :=
  zero_ObjectLease <| OLease_ID := "xfer:" +:+ transferID |> <| OLease_Digest := shardDigest |>
    <| OLease_Owner := jobTarget |> <| OLease_ExpiresAt := time_add now transfer_ttl |>.

(** One desired holder of one shard: the copy is leased, then its transfer is
    filed. *)
Definition place_shard (now : Time) (jobs : list Job) (readable eligible : gmap string Agent)
    (object : string) (idx : Z) (existing : list ErasureShard) (target : string) (n : Z)
    : Prog S Z :=
  let shardDigest := from_option Shard_ShardSHA256 "" (head existing) in
  let shardBytes := from_option Shard_Bytes 0 (head existing) in
  if hasReadyShardOn existing target then mret n
  else
    let source := selectShardSource existing readable shardDigest in
    if (source ≟ "") || (source ≟ target) then mret n
    else
      let ta := Replication.agent_at eligible target in
      if negb (agentHasCapacityFor ta scfg shardBytes) then mret n
      else
        let jobTarget := shard_job_target object idx target in
        if activeJobExists jobs "replicate-cas" jobTarget then mret n
        else
          transferID ← pnew_id "ersrepl";
          pwrite (fun t token => st_AcquireObjectLease t token
                    (shard_lease now transferID shardDigest jobTarget));;
          enqueue (shard_job now transferID source (target, ta) object idx shardDigest shardBytes) n.

Definition ready_at (shards : list ErasureShard) (idx : Z) : list ErasureShard :=
  List.filter (fun sh => (sh.(Shard_State) ≟ ShardReady) && (sh.(Shard_ShardIndex) =? idx)) shards.

(** A shard nobody holds yet has no source; protection creates it first. *)
Definition reconcile_shard (now : Time) (jobs : list Job) (readable eligible : gmap string Agent)
    (object : string) (shards : list ErasureShard) (idx : Z) (n : Z) : Prog S Z :=
  match ready_at shards idx with
  | [] => mret n
  | existing =>
      pfor (desiredShardAgents object idx ecfg.(er_ShardReplication) eligible
              ecfg.(er_FailureDomainLabel))
        (place_shard now jobs readable eligible object idx existing) n
  end.

Definition shard_indices (set : ErasureSet) : list Z :=
  Z.of_nat <$> seq 0 (Z.to_nat (set.(ESet_DataShards) + set.(ESet_ParityShards))).

Definition reconcile_set (now : Time) (jobs : list Job) (readable eligible : gmap string Agent)
    (set : ErasureSet) (n : Z) : Prog S Z :=
  shards ← pread (st_ListErasureShards set.(ESet_ObjectSHA256));
  pfor (shard_indices set)
    (reconcile_shard now jobs readable eligible set.(ESet_ObjectSHA256) shards) n.

Definition protect_node (now : Time) (jobs : list Job) (id : string) (n : Z) : Prog S Z :=
  if recentlyRanJob jobs "protect-erasure" id erasure_interval now then mret n
  else enqueue (protect_job now id) n.

Definition Reconcile (key : result string) (disk : disk_answers) : Prog S Z :=
  if negb ecfg.(er_Enabled) || negb ecfg.(er_Distributed) then mret 0
  else
    now ← pnow;
    agents ← pread st_ListAgents;
    let local := local_node now key disk in
    let readable := readable_nodes now agents local in
    let eligible := eligible_nodes now agents local in
    jobs ← pignore [] (pread (st_ListJobs 50000));
    queued ← pfor (range_keys readable) (protect_node now jobs) 0;
    sets ← pread (st_ListErasureSets 20000);
    pfor sets (reconcile_set now jobs readable eligible) queued.

(** ** The health report *)

Record DistributedErasureHealth := mkErasureHealth {
  eh_Sets : Z;
  eh_Healthy : Z;
  eh_Degraded : Z;
  eh_Unrecoverable : Z;
  eh_ShardCopies : Z;
  eh_FailureDomainDeficits : Z
}.

Definition health_nodes (now : Time) (agents : list Agent) : gmap string Agent :=
  foldl (collect (fun a => fresh now (agent_timeout rcfg) a && agentCountsDurable a scfg
    && agentInShardPool a ecfg.(er_ShardPoolLabel))) ∅ agents.

(** Ready shards on online agents, as (index, domain). *)
Definition shard_copies (online : gmap string Agent) (shards : list ErasureShard)
    : list (Z * string) :=
  omap (fun sh =>
    if sh.(Shard_State) ≠? ShardReady then None
    else (fun a => (sh.(Shard_ShardIndex), shard_domain ecfg.(er_FailureDomainLabel)
                      sh.(Shard_AgentID) a)) <$> online !! sh.(Shard_AgentID)) shards.

Definition index_domains (copies : list (Z * string)) : gmap Z (gset string) :=
  foldl (fun m c => <[c.1 := {[c.2]} ∪ zero_or ∅ (m !! c.1)]> m) ∅ copies.

Definition all_domains (m : gmap Z (gset string)) : gset string := ⋃ (range_vals m).

(** The shards left when one domain is lost. *)
Definition remaining (m : gmap Z (gset string)) (lost : string) : Z :=
  count_if (fun ds => existsb (fun d => d ≠? lost) (elements ds)) (range_vals m).

Inductive set_health := Unrecoverable | DegradedSet | HealthySet.

#[export] Instance set_health_eq_dec : EqDecision set_health.
Proof. solve_decision. Defined.

Definition judge_set (online : gmap string Agent) (set : ErasureSet) (shards : list ErasureShard)
    : set_health :=
  let m := index_domains (shard_copies online shards) in
  if Z.of_nat (size m) <? set.(ESet_DataShards) then Unrecoverable
  else
    let domains := all_domains m in
    let resilient := forallb (fun lost => set.(ESet_DataShards) <=? remaining m lost)
                       (elements domains) in
    if (Z.of_nat (size domains) <? ecfg.(er_MinFailureDomains)) || negb resilient
    then DegradedSet else HealthySet.

Definition count_set (online : gmap string Agent) (set : ErasureSet) (shards : list ErasureShard)
    (out : DistributedErasureHealth) : DistributedErasureHealth :=
  let copies := out.(eh_ShardCopies) + zlen (shard_copies online shards) in
  match judge_set online set shards with
  | Unrecoverable => mkErasureHealth out.(eh_Sets) out.(eh_Healthy) out.(eh_Degraded)
      (out.(eh_Unrecoverable) + 1) copies out.(eh_FailureDomainDeficits)
  | DegradedSet => mkErasureHealth out.(eh_Sets) out.(eh_Healthy) (out.(eh_Degraded) + 1)
      out.(eh_Unrecoverable) copies (out.(eh_FailureDomainDeficits) + 1)
  | HealthySet => mkErasureHealth out.(eh_Sets) (out.(eh_Healthy) + 1) out.(eh_Degraded)
      out.(eh_Unrecoverable) copies out.(eh_FailureDomainDeficits)
  end.

Definition EvaluateDistributedErasureHealth (now : Time) : Prog S DistributedErasureHealth :=
  if negb ecfg.(er_Enabled) || negb ecfg.(er_Distributed) then mret (mkErasureHealth 0 0 0 0 0 0)
  else
    agents ← pread st_ListAgents;
    sets ← pread (st_ListErasureSets 20000);
    pfor sets (fun set out =>
      shards ← pread (st_ListErasureShards set.(ESet_ObjectSHA256));
      mret (count_set (health_nodes now agents) set shards out))
      (mkErasureHealth (zlen sets) 0 0 0 0 0).

(** ** What the report means *)

Definition indices (copies : list (Z * string)) : gset Z := list_to_set copies.*1.

Definition without (lost : string) (copies : list (Z * string)) : list (Z * string) :=
  List.filter (fun c => c.2 ≠? lost) copies.

Lemma index_domains_spec copies i :
  (∀ d, d ∈ zero_or ∅ (index_domains copies !! i) ↔ (i, d) ∈ copies) ∧
  (is_Some (index_domains copies !! i) ↔ i ∈ copies.*1).
Proof.
  unfold index_domains. induction copies as [|[j e] l [IH1 IH2]] using rev_ind.
  { simpl. rewrite lookup_empty. split; [set_solver|].
    split; [by intros []|by intros ?%not_elem_of_nil]. }
  rewrite foldl_app, fmap_app. simpl. set (m := foldl _ _ l) in *.
  setoid_rewrite elem_of_app. setoid_rewrite list_elem_of_singleton.
  destruct (decide (j = i)) as [->|Hne].
  - rewrite lookup_insert_eq. simpl. split; [|split; [by right|done]].
    intros d. rewrite elem_of_union, elem_of_singleton, IH1. naive_solver.
  - rewrite lookup_insert_ne by done. rewrite IH2. setoid_rewrite IH1. naive_solver.
Qed.

Lemma index_domains_dom copies : dom (index_domains copies) = indices copies.
Proof.
  apply set_eq. intros i. unfold indices. rewrite elem_of_dom, elem_of_list_to_set.
  apply index_domains_spec.
Qed.

Lemma index_domains_size copies : size (index_domains copies) = size (indices copies).
Proof. by rewrite <- index_domains_dom, size_dom. Qed.

(** [remaining] counts the shards with a copy outside the lost domain. *)
Lemma remaining_without copies lost :
  remaining (index_domains copies) lost = Z.of_nat (size (indices (without lost copies))).
Proof.
  unfold remaining. rewrite count_range_vals. f_equal.
  rewrite <- (size_dom (D := gset Z)). apply (f_equal size), set_eq. intros i.
  rewrite elem_of_dom. unfold indices, without. rewrite elem_of_list_to_set, list_elem_of_fmap.
  destruct (index_domains_spec copies i) as [Hd _].
  destruct (index_domains copies !! i) as [ds|] eqn:Ei; simpl in Hd; split.
  - intros [ds' H%map_lookup_filter_Some]. destruct H as [Hi He]. rewrite Ei in Hi.
    injection Hi as <-. simpl in He. apply existsb_exists in He as (d & Hin & Hne).
    rewrite <- list_elem_of_In, elem_of_elements, Hd in Hin. exists (i, d).
    by rewrite list_elem_of_In, filter_In, <- list_elem_of_In.
  - intros ([j d] & -> & Hin). rewrite list_elem_of_In, filter_In, <- list_elem_of_In in Hin.
    destruct Hin as [Hin Hne]. exists ds. apply map_lookup_filter_Some. split; [done|]. simpl.
    apply existsb_exists. exists d. rewrite <- list_elem_of_In, elem_of_elements, Hd. by split.
  - intros [ds' H%map_lookup_filter_Some]. destruct H as [Hi _]. congruence.
  - intros ([j d] & -> & Hin). rewrite list_elem_of_In, filter_In, <- list_elem_of_In in Hin.
    destruct Hin as [Hin%Hd _]. by apply elem_of_empty in Hin.
Qed.

Lemma elem_of_all_domains copies d :
  d ∈ all_domains (index_domains copies) ↔ d ∈ copies.*2.
Proof.
  unfold all_domains. rewrite elem_of_union_list, list_elem_of_fmap. split.
  - intros (ds & [i Hi]%elem_of_range_vals & Hd). exists (i, d). split; [done|].
    apply index_domains_spec. by rewrite Hi.
  - intros ([i e] & -> & Hin). simpl. apply index_domains_spec in Hin.
    destruct (index_domains copies !! i) as [ds|] eqn:Ei; [|by apply elem_of_empty in Hin].
    exists ds. split; [|done]. apply elem_of_range_vals. by exists i.
Qed.

Lemma without_absent lost copies : lost ∉ copies.*2 → without lost copies = copies.
Proof.
  unfold without. induction copies as [|[i d] l IH]; [done|]. csimpl.
  intros [Hne Hl]%not_elem_of_cons. rewrite bool_decide_eq_false_2 by done. simpl. by rewrite IH.
Qed.

(** C23. The report judges an erasure-coded object by the ready shards on the agents
    it counts, the durable online ones: the object is called healthy exactly when
    it can be rebuilt from these, even after any one failure domain is lost, and
    they span enough domains; and unrecoverable exactly when they are too few to
    rebuild it.  (The shards that the local worker holds are not among them, see
    [local_shards_not_counted].) *)
Theorem erasure_health_sound online set shards :
  let copies := shard_copies online shards in
  (judge_set online set shards = Unrecoverable ↔
     Z.of_nat (size (indices copies)) < set.(ESet_DataShards)) ∧
  (judge_set online set shards = HealthySet ↔
     set.(ESet_DataShards) ≤ Z.of_nat (size (indices copies)) ∧
     ecfg.(er_MinFailureDomains) ≤ Z.of_nat (size (list_to_set copies.*2 : gset string)) ∧
     ∀ lost, set.(ESet_DataShards) ≤ Z.of_nat (size (indices (without lost copies)))).
Proof.
  intros copies. unfold judge_set. fold copies. rewrite index_domains_size.
  assert (all_domains (index_domains copies) = list_to_set copies.*2) as Hall.
  { apply set_eq. intros d. by rewrite elem_of_all_domains, elem_of_list_to_set. }
  rewrite Hall. set (D := list_to_set copies.*2 : gset string).
  destruct (Z.ltb_spec (Z.of_nat (size (indices copies))) set.(ESet_DataShards)) as [Hlt|Hge].
  { split; [by split|]. split; [done|lia]. }
  set (res := forallb _ _). assert (res = true ↔ ∀ lost,
    set.(ESet_DataShards) ≤ Z.of_nat (size (indices (without lost copies)))) as Hres.
  { unfold res. rewrite forallb_forall. setoid_rewrite <- list_elem_of_In.
    setoid_rewrite elem_of_elements. setoid_rewrite Z.leb_le.
    setoid_rewrite remaining_without. unfold D. setoid_rewrite elem_of_list_to_set.
    split; [|auto]. intros H lost. destruct (decide (lost ∈ copies.*2)) as [Hin|Hin]; [auto|].
    by rewrite without_absent. }
  destruct (Z.ltb_spec (Z.of_nat (size D)) ecfg.(er_MinFailureDomains)), res eqn:Ei; simpl;
    rewrite <- Hres; (split; [split; [done|lia]|]); split; intros; try done; try lia.
  all: destruct_and?; done.
Qed.

(** ** The reconciler's run *)

Lemma desired_eligible object index copies agents key x :
  agents !! "" = None → 0 ≤ index → x ∈ desiredShardAgents object index copies agents key →
  is_Some (agents !! x).
Proof.
  intros Hne Hi Hx. destruct (Z.lt_ge_cases copies 1) as [Hc|Hc].
  - unfold desiredShardAgents in Hx. rewrite (proj2 (Z.ltb_lt _ _) Hc) in Hx.
    by apply not_elem_of_nil in Hx.
  - by apply (desired_shards_spread object index copies agents key Hne Hi Hc).
Qed.

(** A copy of one shard from one agent to another. *)
Record shard_move := mkMove {
  mv_object : string;
  mv_index : Z;
  mv_source : string;
  mv_target : string;
  mv_digest : string;
  mv_bytes : Z
}.

(** From a readable agent that has the shard to one chosen for it, fit and with
    room, that has not. *)
Record move_ok (readable eligible : gmap string Agent) (shards : list ErasureShard)
    (mv : shard_move) : Prop := {
  mo_source : ∃ sh, sh ∈ shards ∧ sh.(Shard_State) = ShardReady ∧
    sh.(Shard_ShardIndex) = mv.(mv_index) ∧ sh.(Shard_AgentID) = mv.(mv_source) ∧
    EqualFold sh.(Shard_ShardSHA256) mv.(mv_digest) = true;
  mo_readable : is_Some (readable !! mv.(mv_source));
  mo_desired : mv.(mv_target) ∈ desiredShardAgents mv.(mv_object) mv.(mv_index)
    ecfg.(er_ShardReplication) eligible ecfg.(er_FailureDomainLabel);
  mo_room : ∃ a, eligible !! mv.(mv_target) = Some a ∧
    agentHasCapacityFor a scfg mv.(mv_bytes) = true;
  mo_absent sh : sh ∈ shards → sh.(Shard_State) = ShardReady →
    sh.(Shard_ShardIndex) = mv.(mv_index) → sh.(Shard_AgentID) ≠ mv.(mv_target)
}.

Definition move_job (now : Time) (eligible : gmap string Agent) (tid : string) (mv : shard_move)
    : Job :=
  shard_job now tid mv.(mv_source)
    (mv.(mv_target), Replication.agent_at eligible mv.(mv_target))
    mv.(mv_object) mv.(mv_index) mv.(mv_digest) mv.(mv_bytes).

Lemma selectShardSource_spec xs agents digest :
  selectShardSource xs agents digest ≠ "" →
  ∃ sh, sh ∈ xs ∧ sh.(Shard_State) = ShardReady ∧
    sh.(Shard_AgentID) = selectShardSource xs agents digest ∧
    EqualFold sh.(Shard_ShardSHA256) digest = true ∧
    is_Some (agents !! selectShardSource xs agents digest).
Proof.
  unfold selectShardSource. set (ids := sort_strings _).
  assert (∀ id, id ∈ ids → ∃ sh, sh ∈ xs ∧ sh.(Shard_State) = ShardReady ∧
    sh.(Shard_AgentID) = id ∧ EqualFold sh.(Shard_ShardSHA256) digest = true ∧
    is_Some (agents !! id)) as H.
  { intros id. unfold ids, sort_strings. rewrite elem_of_sort_slice, list_elem_of_fmap.
    intros (sh & -> & Hsh). rewrite list_elem_of_In, filter_In, <- list_elem_of_In in Hsh.
    destruct Hsh as [Hin Hb]. apply andb_true_iff in Hb as [[Hs He]%andb_true_iff Ha].
    apply bool_decide_eq_true in Hs, Ha. exists sh. by split_and!. }
  destruct ids as [|id l]; [done|]. intros _. apply H. by left.
Qed.

Lemma hasReadyShardOn_false shards idx target sh :
  hasReadyShardOn (ready_at shards idx) target = false →
  sh ∈ shards → sh.(Shard_State) = ShardReady → sh.(Shard_ShardIndex) = idx →
  sh.(Shard_AgentID) ≠ target.
Proof.
  intros Hf Hin Hs Hi Ha. assert (hasReadyShardOn (ready_at shards idx) target = true) as Ht;
    [|congruence].
  unfold hasReadyShardOn, ready_at. apply existsb_exists. exists sh.
  rewrite filter_In, <- list_elem_of_In, Hs, Hi, Ha, Z.eqb_refl. split; [by split|].
  by rewrite !bool_decide_eq_true_2.
Qed.

Section Run.
Context `{!QueueStore S}.
Context (max_attempts_ok : 0 ≤ cfg.(cfg_Workers).(w_MaxAttempts) ≤ max_int64).
Context (tokens_fresh : distinct_tokens).
Context (now : Time) (readable eligible : gmap string Agent) (sets : list ErasureSet) (s0 : S).
Context (expiry_set : time_add now transfer_ttl ≠ time_zero).
Context (named : eligible !! "" = None).

(** The digest is leased until the transfer has had its time. *)
Definition leased_for (s : S) (tid digest : string) : Prop :=
  ∃ l, qs_leases s !! ("xfer:" +:+ tid) = Some l ∧ l.(OLease_Digest) = digest ∧
    l.(OLease_ExpiresAt) = time_add now transfer_ttl.

(** What may have been filed by position [i]. *)
Definition filed_ok (i : nat) (s : S) (j : Job) : Prop :=
  (∃ id, is_Some (readable !! id) ∧ j = protect_job now id) ∨
  (∃ set shards mv k, set ∈ sets ∧
     st_ListErasureShards set.(ESet_ObjectSHA256) s0 = Ok shards ∧
     mv.(mv_object) = set.(ESet_ObjectSHA256) ∧ move_ok readable eligible shards mv ∧
     (k < i)%nat ∧ j = move_job now eligible (newID "ersrepl" (fresh_token k)) mv ∧
     leased_for s (newID "ersrepl" (fresh_token k)) mv.(mv_digest)).

Record protecting (n : Z) (i : nat) (s : S) : Prop := {
  er_frame : qs_frame s0 s;
  er_filed : ∃ reqs, filed s0 reqs n i s ∧ ∀ j, j ∈ reqs → filed_ok i s j
}.

(** A node that is to protect its objects, and one shard that is to be copied, given
    the jobs that were listed. *)
Definition protected (jobs : list Job) (id : string) (s : S) : Prop :=
  recentlyRanJob jobs "protect-erasure" id erasure_interval now = true ∨
  active_key (a_key (ajob_of (protect_job now id))) (qs_jobs s).

Definition wanted_move (jobs : list Job) (object : string) (shards : list ErasureShard) (idx : Z)
    (target source : string) : Prop :=
  ∃ sh rest, ready_at shards idx = sh :: rest ∧ hasReadyShardOn (sh :: rest) target = false ∧
    selectShardSource (sh :: rest) readable sh.(Shard_ShardSHA256) = source ∧ source ≠ "" ∧ source ≠ target ∧
    agentHasCapacityFor (Replication.agent_at eligible target) scfg sh.(Shard_Bytes) = true ∧
    activeJobExists jobs "replicate-cas" (shard_job_target object idx target) = false.

Definition shard_moved (jobs : list Job) (object : string) (shards : list ErasureShard) (idx : Z)
    (target : string) (s : S) : Prop :=
  ∀ source, wanted_move jobs object shards idx target source →
    active_key ("replicate-cas", shard_job_target object idx target, source) (qs_jobs s).

Definition desired (set : ErasureSet) (idx : Z) : list string :=
  desiredShardAgents set.(ESet_ObjectSHA256) idx ecfg.(er_ShardReplication) eligible ecfg.(er_FailureDomainLabel).

Definition set_moved (jobs : list Job) (set : ErasureSet) (shards : list ErasureShard) (s : S) : Prop :=
  ∀ idx target, idx ∈ shard_indices set → target ∈ desired set idx →
    shard_moved jobs set.(ESet_ObjectSHA256) shards idx target s.

Lemma protected_grows jobs id s s' : protected jobs id s → grows s s' → protected jobs id s'.
Proof. intros [?|H] [_ G]; [by left|right]. by eapply active_key_mono. Qed.

Lemma shard_moved_grows jobs object shards idx target s s' :
  shard_moved jobs object shards idx target s → grows s s' → shard_moved jobs object shards idx target s'.
Proof. intros H [_ G] source Hw. eapply active_key_mono; [exact G|by apply H]. Qed.

Lemma protect_node_run jobs id n i s :
  is_Some (readable !! id) → protecting n i s →
  ∃ i' s' n', protect_node now jobs id n i s = (i', s', Ok n') ∧ protecting n' i' s' ∧
    grows s s' ∧ protected jobs id s'.
Proof.
  intros Hid [Hfr (reqs & Hf & Hr)]. unfold protect_node, protected.
  destruct (recentlyRanJob jobs "protect-erasure" id _ now).
  { exists i, s, n. split_and!; [done|split; eauto|done|by left]. }
  destruct (enqueue_filed s0 reqs n i s (protect_job now id) tokens_fresh)
    as (s' & n' & Er & Hf' & Hfr' & Hm & Hl); [by split; [left|..]|done|done|].
  exists (Datatypes.S i), s', n'. split; [done|]. split_and!; [split; [by etrans|]|by split|].
  - eexists. split; [exact Hf'|]. intros j [Hj| ->%list_elem_of_singleton]%elem_of_app.
    + destruct (Hr j Hj) as [?|(set & shards & mv & k & ? & ? & ? & ? & ? & ? & Hls)]; [by left|right].
      exists set, shards, mv, k. split_and!; try done; [lia|]. unfold leased_for. by rewrite Hl.
    + left. eauto.
  - right. apply (fl_done _ _ _ _ _ Hf'). apply elem_of_app. right. by left.
Qed.

(** A shard of [sets], where it is, and an agent it should be on. *)
Lemma place_shard_run jobs set shards idx target n i s :
  set ∈ sets → st_ListErasureShards set.(ESet_ObjectSHA256) s0 = Ok shards →
  ready_at shards idx ≠ [] → (∀ sh, sh ∈ shards → sh.(Shard_ShardSHA256) ≠ "") → 0 ≤ idx →
  target ∈ desiredShardAgents set.(ESet_ObjectSHA256) idx ecfg.(er_ShardReplication) eligible
    ecfg.(er_FailureDomainLabel) →
  protecting n i s →
  ∃ i' s' n', place_shard now jobs readable eligible set.(ESet_ObjectSHA256) idx
    (ready_at shards idx) target n i s = (i', s', Ok n') ∧ protecting n' i' s' ∧ grows s s' ∧
    shard_moved jobs set.(ESet_ObjectSHA256) shards idx target s'.
Proof.
  intros Hset Hsh Hne Hsha Hidx Hdes [Hfr (reqs & Hf & Hr)]. unfold place_shard.
  destruct (ready_at shards idx) as [|sh0 rest] eqn:Eex; [done|]. simpl head. simpl from_option.
  set (source := selectShardSource _ readable _).
  assert (Hskip : (∀ src, ¬ wanted_move jobs set.(ESet_ObjectSHA256) shards idx target src) →
    ∃ i' s' n', (mret n : Prog S Z) i s = (i', s', Ok n') ∧ protecting n' i' s' ∧ grows s s' ∧
      shard_moved jobs set.(ESet_ObjectSHA256) shards idx target s').
  { intros Hno. exists i, s, n. split_and!; [done|split; eauto|done|]. intros src Hw. by destruct (Hno src). }
  unfold wanted_move in Hskip. rewrite Eex in Hskip.
  destruct (hasReadyShardOn _ target) eqn:Eh;
    [apply Hskip; intros src (sh & l & [= <- <-] & Hh & _); congruence|].
  destruct ((source ≟ "") || (source ≟ target)) eqn:Es.
  { apply Hskip. intros src (sh & l & [= <- <-] & _ & Hs & H1 & H2 & _). fold source in Hs. subst src.
    by apply orb_true_iff in Es as [?%bool_decide_eq_true|?%bool_decide_eq_true]. }
  destruct (agentHasCapacityFor _ scfg _) eqn:Ec; [change (negb true) with false|change (negb false) with true]; cbv iota;
    [|apply Hskip; intros src (sh & l & [= <- <-] & _ & Hs & _ & _ & Hc & _);
      exact (eq_true_false_abs _ Hc Ec)].
  destruct (activeJobExists jobs _ _) eqn:Ea;
    [apply Hskip; intros src (sh & l & _ & _ & _ & _ & _ & _ & Ha); congruence|].
  clear Hskip. apply orb_false_iff in Es as [Es%bool_decide_eq_false Est%bool_decide_eq_false].
  set (tid := newID "ersrepl" (fresh_token i)).
  set (mv := mkMove set.(ESet_ObjectSHA256) idx source target sh0.(Shard_ShardSHA256) sh0.(Shard_Bytes)).
  assert (∀ sh, sh ∈ sh0 :: rest → sh ∈ shards ∧ sh.(Shard_State) = ShardReady ∧
    sh.(Shard_ShardIndex) = idx) as Hex.
  { intros sh. rewrite <- Eex. unfold ready_at.
    rewrite list_elem_of_In, filter_In, <- list_elem_of_In, andb_true_iff, bool_decide_eq_true, Z.eqb_eq.
    naive_solver. }
  destruct (desired_eligible _ _ _ _ _ _ named Hidx Hdes) as [ta Hta].
  assert (move_ok readable eligible shards mv) as Hmv.
  { destruct (selectShardSource_spec _ _ _ Es) as (sh & Hin & Hst & Hid & Hfold & Hrd).
    destruct (Hex sh Hin) as (? & ? & ?).
    split; simpl; try done.
    - exists sh. by split_and!.
    - exists ta. split; [done|]. unfold Replication.agent_at in Ec. by rewrite Hta in Ec.
    - intros sh' Hin' Hs' Hi'. rewrite <- Eex in Eh. by eapply hasReadyShardOn_false. }
  rewrite (bind_eq _ _ i s (Datatypes.S i) s tid) by done.
  set (l := shard_lease _ _ _ _).
  destruct (qs_acquire (clock (Datatypes.S i)) (fresh_token (Datatypes.S i)) l s (fl_wf _ _ _ _ _ Hf))
    as (s1 & E1 & Hwf1 & Hfr1 & Hj1 & Hl1); [done|by apply Hsha, Hex; left|done|done|].
  rewrite (bind_eq _ _ (Datatypes.S i) s (Datatypes.S (Datatypes.S i)) s1 tt)
    by (unfold pwrite; by rewrite E1).
  destruct (enqueue_filed s0 reqs n (Datatypes.S (Datatypes.S i)) s1 (move_job now eligible tid mv)
    tokens_fresh) as (s2 & n2 & E2 & Hf2 & Hfr2 & Hm2 & Hl2);
    [by split; [left|..]|done|by eapply filed_same_jobs, Hf; [lia|..]|].
  exists (Datatypes.S (Datatypes.S (Datatypes.S i))), s2, n2. split; [exact E2|].
  split_and!; [split; [by do 2 (etrans; [done|])|]|split; [by etrans|]|].
  2: { intros id y Hy. apply Hm2. by rewrite Hj1. }
  2: { intros src (sh & rest' & E' & _ & Hs & _). rewrite Eex in E'. injection E' as <- <-. fold source in Hs. subst src.
       apply (fl_done _ _ _ _ _ Hf2 (move_job now eligible tid mv)). apply elem_of_app. right. by left. }
  eexists. split; [exact Hf2|].
  intros j [Hj| ->%list_elem_of_singleton]%elem_of_app.
  - destruct (Hr j Hj) as [?|(set' & shards' & mv' & k & ? & ? & ? & ? & Hk & ? & (l' & Hl' & ?))];
      [by left|right].
    exists set', shards', mv', k. split_and!; try done; [lia|]. exists l'. rewrite Hl2, Hl1.
    rewrite lookup_insert_ne; [done|]. simpl. unfold tid.
    intros E'. apply (inj (String.append "xfer:")) in E'.
    apply (inj (newID "ersrepl")), tokens_fresh in E'. lia.
  - right. exists set, shards, mv, i. split_and!; try done; [lia|].
    eexists. rewrite Hl2, Hl1, lookup_insert_eq. by split_and!.
Qed.

Lemma shard_indices_nonneg set idx : idx ∈ shard_indices set → 0 ≤ idx.
Proof. unfold shard_indices. intros (k & -> & _)%list_elem_of_fmap. lia. Qed.

(** A loop over elements that keeps the invariant and does something for each. *)
Lemma protecting_loop {A} (D : A → S → Prop) (l : list A) (body : A → Z → Prog S Z) n i s :
  (∀ x s s', D x s → grows s s' → D x s') →
  (∀ x n i s, x ∈ l → protecting n i s →
     ∃ i' s' n', body x n i s = (i', s', Ok n') ∧ protecting n' i' s' ∧ grows s s' ∧ D x s') →
  protecting n i s →
  ∃ i' s' n', pfor l body n i s = (i', s', Ok n') ∧ protecting n' i' s' ∧ grows s s' ∧ ∀ x, x ∈ l → D x s'.
Proof. apply pfor_each, _. Qed.

Lemma reconcile_set_run jobs set shards n i s :
  set ∈ sets → st_ListErasureShards set.(ESet_ObjectSHA256) s0 = Ok shards →
  (∀ sh, sh ∈ shards → sh.(Shard_ShardSHA256) ≠ "") → protecting n i s →
  ∃ i' s' n', reconcile_set now jobs readable eligible set n i s = (i', s', Ok n') ∧
    protecting n' i' s' ∧ grows s s' ∧ set_moved jobs set shards s'.
Proof.
  intros Hset Hsh Hsha HI. unfold reconcile_set. rewrite (bind_eq _ _ i s i s shards).
  2: { unfold pread. by rewrite (qs_shards _ _ _ (er_frame _ _ _ HI)), Hsh. }
  destruct (protecting_loop (fun idx s => ∀ target, target ∈ desired set idx →
      shard_moved jobs set.(ESet_ObjectSHA256) shards idx target s) (shard_indices set)
    (reconcile_shard now jobs readable eligible set.(ESet_ObjectSHA256) shards) n i s)
    as (i' & s' & n' & Er & HI' & Hg & Hd); [| |done|exists i', s', n'; split_and!; try done; intros idx target ??; by apply Hd].
  { intros idx s1 s2 H G target Ht. by eapply shard_moved_grows; [apply H|]. }
  intros idx n1 i1 s1 Hidx HI1. unfold reconcile_shard.
  destruct (ready_at shards idx) as [|sh0 rest] eqn:Eex.
  { exists i1, s1, n1. split_and!; try done. intros target _ src (sh & l & E' & _). congruence. }
  rewrite <- Eex. apply (protecting_loop (fun target s => shard_moved jobs set.(ESet_ObjectSHA256) shards idx target s));
    [intros ???; apply shard_moved_grows| |done]. intros target n2 i2 s2 Ht HI2.
  apply (place_shard_run jobs set shards idx target n2 i2 s2); try done.
  - by rewrite Eex.
  - by eapply shard_indices_nonneg.
Qed.

Lemma protect_nodes_run jobs n i s :
  protecting n i s →
  ∃ i' s' n', pfor (range_keys readable) (protect_node now jobs) n i s = (i', s', Ok n') ∧
    protecting n' i' s' ∧ grows s s' ∧ ∀ id, id ∈ range_keys readable → protected jobs id s'.
Proof.
  apply (protecting_loop (protected jobs)); [intros ???; apply protected_grows|].
  intros id n1 i1 s1 Hid HI1. apply protect_node_run; [|done]. by apply elem_of_range_keys.
Qed.

(** What the run has achieved: every readable node protects its objects, and every
    shard that is missing where it should be and can be had is on its way there. *)
Definition all_protected (jobs : list Job) (s : S) : Prop :=
  (∀ id, is_Some (readable !! id) → protected jobs id s) ∧
  ∀ set shards, set ∈ sets → st_ListErasureShards set.(ESet_ObjectSHA256) s0 = Ok shards → set_moved jobs set shards s.

Lemma all_protected_grows jobs s s' : all_protected jobs s → grows s s' → all_protected jobs s'.
Proof.
  intros [H1 H2] G. split; [intros id Hid; by eapply protected_grows; [apply H1|]|].
  intros set shards Hset Hsh idx target Hi Ht. by eapply shard_moved_grows; [eapply H2|].
Qed.
End Run.

Lemma collect_named p m a :
  m !! "" = None → a.(Agent_ID) ≠ "" → collect p m a !! "" = None.
Proof. intros Hm Ha. unfold collect. case_match; [|done]. by rewrite lookup_insert_ne. Qed.

Lemma nodes_named fit now agents local :
  "" ∉ Agent_ID <$> agents → (∀ l, local = Some l → l.(Agent_ID) ≠ "") →
  shard_nodes fit now agents local !! "" = None.
Proof.
  intros Hag Hl. unfold shard_nodes. set (p := fun a => _ && fit a).
  assert (∀ m, m !! "" = None → foldl (collect p) m agents !! "" = None) as H.
  { clear Hl. induction agents as [|a l IH]; [done|]. csimpl in Hag.
    apply not_elem_of_cons in Hag as [Ha Hag]. intros m Hm. simpl. apply IH; [done|].
    by apply collect_named; [|apply not_eq_sym]. }
  destruct local as [l|]; [apply collect_named|]; auto.
Qed.

Lemma local_node_id now key disk l : local_node now key disk = Some l → l.(Agent_ID) ≠ "".
Proof. unfold local_node. case_match; [|done]. destruct key; [|done]. by intros [= <-]. Qed.

Lemma erasure_run `{!QueueStore S} key disk i s agents sets :
  0 ≤ cfg.(cfg_Workers).(w_MaxAttempts) ≤ max_int64 → distinct_tokens →
  ecfg.(er_Enabled) = true → ecfg.(er_Distributed) = true → (∀ k, 0 < clock k) →
  qs_wf s → unused_tokens i s →
  st_ListAgents s = Ok agents → "" ∉ Agent_ID <$> agents →
  st_ListErasureSets 20000 s = Ok sets →
  (∀ set, set ∈ sets → ∃ shards, st_ListErasureShards set.(ESet_ObjectSHA256) s = Ok shards ∧
     ∀ sh, sh ∈ shards → sh.(Shard_ShardSHA256) ≠ "") →
  let now := clock i in
  let readable := readable_nodes now agents (local_node now key disk) in
  let eligible := eligible_nodes now agents (local_node now key disk) in
  ∃ i' s' n jobs, Reconcile key disk i s = (i', s', Ok n) ∧
    protecting now readable eligible sets s n i' s' ∧ grows s s' ∧
    st_ListJobs 50000 s = Ok jobs ∧ all_protected now readable eligible sets s jobs s'.
Proof.
  intros Hmax Htok Hen Hdi Hclk Hwf Hun Hag Hnamed Hsets Hshards now readable eligible.
  unfold Reconcile. rewrite Hen, Hdi. change (negb true || negb true) with false. cbv iota.
  set (i1 := Datatypes.S i).
  rewrite (bind_eq _ _ i s i1 s now) by done.
  rewrite (bind_eq _ _ i1 s i1 s agents) by (unfold pread; by rewrite Hag).
  destruct (qs_listed 50000 s) as (js & Hjs & _).
  rewrite (bind_eq _ _ i1 s i1 s js) by (unfold pignore, pread; by rewrite Hjs).
  fold now readable eligible.
  assert (time_add now transfer_ttl ≠ time_zero) as Hexp.
  { assert (0 < transfer_ttl) by by apply duration_or_pos.
    pose proof (Hclk i). unfold time_add, time_zero, now. lia. }
  assert (eligible !! "" = None) as Hel.
  { apply nodes_named; [done|]. intros l. apply local_node_id. }
  destruct (protect_nodes_run Hmax Htok now readable eligible sets s js 0 i1 s)
    as (i2 & s2 & n2 & E2 & HI2 & G2 & Hp2).
  { split; [done|]. exists []. split; [|by intros j ?%not_elem_of_nil].
    apply filed_start; [done|]. intros k Hk. apply Hun. lia. }
  rewrite (bind_eq _ _ _ _ _ _ _ E2).
  rewrite (bind_eq _ _ i2 s2 i2 s2 sets)
    by (unfold pread; by rewrite (qs_sets _ _ _ (er_frame _ _ _ _ _ _ _ _ HI2)), Hsets).
  destruct (protecting_loop now readable eligible sets s (fun set s' => ∀ shards,
      st_ListErasureShards set.(ESet_ObjectSHA256) s = Ok shards → set_moved readable eligible js set shards s')
    sets (reconcile_set now js readable eligible) n2 i2 s2) as (i3 & s3 & n3 & E3 & HI3 & G3 & Hd3); [| |done|].
  - intros set s4 s5 H G shards Hsh idx target Hi Ht. by eapply shard_moved_grows; [eapply H|].
  - intros set n i0 s' Hset HI. destruct (Hshards set Hset) as (shards & Hsh & Hsha).
    destruct (reconcile_set_run Hmax Htok now readable eligible sets s Hexp Hel js set shards n i0 s')
      as (i4 & s4 & n4 & E4 & ? & ? & Hm); [done..|].
    exists i4, s4, n4. split_and!; try done. intros shards' Hsh'. rewrite Hsh in Hsh'. by injection Hsh' as <-.
  - exists i3, s3, n3, js. split_and!; try done; [by etrans|]. split.
    + intros id Hid. eapply protected_grows; [|exact G3]. apply Hp2. by apply elem_of_range_keys.
    + intros set shards Hset. by apply Hd3.
Qed.

(** C24. Erasure reconciliation is safe: it succeeds, loses no job and counts
    exactly; every job it files asks a readable node to protect its objects, or
    copies one shard from a readable agent that has it to an agent chosen for it,
    fit and with room, that has not; and the digest of every such shard is under
    an object lease until the transfer deadline, so that garbage collection spares
    it meanwhile. *)
Theorem erasure_reconcile_safe `{!QueueStore S} key disk i s agents sets :
  0 ≤ cfg.(cfg_Workers).(w_MaxAttempts) ≤ max_int64 → distinct_tokens →
  ecfg.(er_Enabled) = true → ecfg.(er_Distributed) = true → (∀ k, 0 < clock k) →
  qs_wf s → unused_tokens i s →
  st_ListAgents s = Ok agents → "" ∉ Agent_ID <$> agents →
  st_ListErasureSets 20000 s = Ok sets →
  (∀ set, set ∈ sets → ∃ shards, st_ListErasureShards set.(ESet_ObjectSHA256) s = Ok shards ∧
     ∀ sh, sh ∈ shards → sh.(Shard_ShardSHA256) ≠ "") →
  let now := clock i in
  let readable := readable_nodes now agents (local_node now key disk) in
  let eligible := eligible_nodes now agents (local_node now key disk) in
  ∃ i' s' n, Reconcile key disk i s = (i', s', Ok n) ∧ qs_wf s' ∧
    (∀ id j, qs_jobs s !! id = Some j → qs_jobs s' !! id = Some j) ∧
    Z.of_nat (size (qs_jobs s')) = Z.of_nat (size (qs_jobs s)) + n ∧
    ∀ id y, qs_jobs s' !! id = Some y → qs_jobs s !! id = None →
      (∃ node, is_Some (readable !! node) ∧ row_of (protect_job now node) y) ∨
      (∃ set shards mv tid, set ∈ sets ∧
         st_ListErasureShards set.(ESet_ObjectSHA256) s = Ok shards ∧
         mv.(mv_object) = set.(ESet_ObjectSHA256) ∧ move_ok readable eligible shards mv ∧
         row_of (move_job now eligible tid mv) y ∧ leased_for now s' tid mv.(mv_digest)).
Proof.
  intros Hmax Htok Hen Hdi Hclk Hwf Hun Hag Hnamed Hsets Hshards now readable eligible.
  destruct (erasure_run key disk i s agents sets Hmax Htok Hen Hdi Hclk Hwf Hun Hag Hnamed Hsets Hshards)
    as (i3 & s3 & n3 & jobs & E3 & [Hfr (reqs & Hf & Hr)] & _).
  exists i3, s3, n3. split; [exact E3|]. destruct Hf as [Hw _ Hkept Hnew _ Hcount].
  split_and!; try done. intros id y Hy Hn. destruct (Hnew id y Hy Hn) as (j & Hj & Hrow).
  destruct (Hr j Hj) as [(node & Hnode & ->)|(set & shards & mv & k & ? & ? & ? & ? & _ & -> & ?)];
    [left; by eexists|right]. by exists set, shards, mv, (newID "ersrepl" (fresh_token k)).
Qed.

End Reconcile.

(** ** Independence of the map order *)

Lemma by_domain_ids key l d :
  foldl (fun m (x : string * Agent) =>
    let d := shard_domain key x.1 x.2 in
    <[d := zero_or [] (m !! d) ++ [x.1]]> m) (∅ : gmap string (list string)) l !! d
  = let ids := fst <$> List.filter (fun x => shard_domain key x.1 x.2 ≟ d) l in
    match ids with [] => None | _ => Some ids end.
Proof.
  induction l as [|[y b] l IH] using rev_ind; [done|].
  rewrite foldl_app. simpl. rewrite List.filter_app, fmap_app. simpl in *.
  destruct (bool_decide_reflect (shard_domain key y b = d)) as [<-|Hd]; simpl.
  - rewrite lookup_insert_eq, IH. by destruct (fst <$> _).
  - rewrite lookup_insert_ne, app_nil_r by done. exact IH.
Qed.

Lemma by_domain_deterministic (MO1 MO2 : MapOrder) agents key :
  by_domain (MO := MO1) agents key = by_domain (MO := MO2) agents key.
Proof.
  unfold by_domain. apply map_eq. intros d. rewrite !lookup_fmap, !by_domain_ids. simpl.
  assert (∀ p, fst <$> List.filter p (range (MapOrder := MO1) agents)
    ≡ₚ fst <$> List.filter p (range (MapOrder := MO2) agents)) as Hp.
  { intros p. apply fmap_Permutation, filter_perm.
    by rewrite (range_perm (MapOrder := MO1)), (range_perm (MapOrder := MO2)). }
  specialize (Hp (fun x => shard_domain key x.1 x.2 ≟ d)).
  destruct (fst <$> List.filter _ (range (MapOrder := MO1) agents)) as [|x l],
    (fst <$> List.filter _ (range (MapOrder := MO2) agents)) as [|y l'];
    cbn [fmap option_fmap option_map]; try done.
  - by apply Permutation_nil in Hp.
  - by apply Permutation_sym, Permutation_nil in Hp.
  - change (Some (sort_strings (x :: l)) = Some (sort_strings (y :: l'))).
    f_equal. by apply sort_strings_canonical.
Qed.

Lemma domains_deterministic (MO1 MO2 : MapOrder) agents key :
  sort_strings (range_keys (MO := MO1) (by_domain (MO := MO1) agents key))
  = sort_strings (range_keys (MO := MO2) (by_domain (MO := MO2) agents key)).
Proof.
  rewrite (by_domain_deterministic MO1 MO2). apply sort_strings_canonical.
  unfold range_keys. apply fmap_Permutation.
  by rewrite (range_perm (MapOrder := MO1)), (range_perm (MapOrder := MO2)).
Qed.

(** While some domain has not had its turn, the pick is the best of its domain. *)
Lemma pick_in_turn (MO : MapOrder) object index agents key out :
  agents !! "" = None → 0 ≤ index → picked index agents key out →
  (length out < size agents)%nat → (length out < size (domains_of agents key))%nat →
  pick object index agents key out
  = best_of (rendezvousScore object index (Z.of_nat (length out))) out
      (zero_or [] (by_domain agents key !! turn index agents key (length out))).
Proof.
  intros Hne Hi Hp Hlt Hd. rewrite domains_of_size in Hd. unfold pick. cbv zeta.
  destruct (bool_decide_reflect (best_of (rendezvousScore object index (Z.of_nat (length out))) out
    (zero_or [] (by_domain agents key !! turn index agents key (length out))) = "")) as [E|E]; [|done].
  exfalso. pose proof (turn_in index agents key Hi (length out) ltac:(lia)) as H.
  apply elem_of_shard_domains in H as (y & a & Ha & Hd').
  assert (y ∈ zero_or [] (by_domain agents key !! turn index agents key (length out))) as Hy
    by (apply elem_of_by_domain; eauto).
  apply (turn_unused index agents key Hi out y Hp Hd Hy).
  by apply (best_of_none _ _ _ y (no_empty_member agents key Hne _) E).
Qed.

Lemma pick_shards_deterministic (MO1 MO2 : MapOrder) object index agents key rounds out :
  agents !! "" = None → 0 ≤ index → picked (MO := MO1) index agents key out →
  (length out + rounds ≤ size agents)%nat → (length out + rounds ≤ size (domains_of agents key))%nat →
  pick_shards (MO := MO1) object index agents (by_domain (MO := MO1) agents key)
    (sort_strings (range_keys (MO := MO1) (by_domain (MO := MO1) agents key)))
    (Z.of_nat (length out)) out rounds
  = pick_shards (MO := MO2) object index agents (by_domain (MO := MO2) agents key)
    (sort_strings (range_keys (MO := MO2) (by_domain (MO := MO2) agents key)))
    (Z.of_nat (length out)) out rounds.
Proof.
  intros Hne Hi. revert out. induction rounds as [|rounds IH]; intros out Hp Hle Hd; [done|].
  assert (picked (MO := MO2) index agents key out) as Hp2.
  { destruct Hp as [? ? Ht]. split; [done..|]. unfold turn in *.
    by rewrite <- (domains_deterministic MO1 MO2). }
  rewrite !pick_shards_eq.
  assert (pick (MO := MO1) object index agents key out = pick (MO := MO2) object index agents key out)
    as Epick.
  { rewrite (pick_in_turn MO1), (pick_in_turn MO2) by (done || lia). unfold turn.
    rewrite (domains_deterministic MO1 MO2). by rewrite (by_domain_deterministic MO1 MO2). }
  destruct (pick_spec (MO := MO1) object index agents key Hne Hi out Hp ltac:(lia)) as [Hn Hp'].
  rewrite <- Epick. rewrite (bool_decide_eq_false_2 _ Hn).
  apply IH; [done|rewrite length_app; simpl; lia..].
Qed.

(** Where shards go does not depend on the order in which Go ranges over
    its maps, as long as no domain has to take two copies: every node computes the
    same agents in the same order. *)
Theorem desired_shards_deterministic (MO1 MO2 : MapOrder) object index copies agents key :
  agents !! "" = None → 0 ≤ index → copies ≤ Z.of_nat (size (domains_of agents key)) →
  desiredShardAgents (MO := MO1) object index copies agents key
  = desiredShardAgents (MO := MO2) object index copies agents key.
Proof.
  intros Hne Hi Hc. unfold desiredShardAgents.
  destruct (_ || _) eqn:Eg; [done|]. apply orb_false_iff in Eg as [E1%Z.ltb_ge E2%Z.eqb_neq].
  pose proof (domains_of_le agents key) as Hle.
  destruct (Z.ltb_spec (Z.of_nat (size agents)) copies); [lia|].
  apply (pick_shards_deterministic MO1 MO2 object index agents key _ []); [done|done| |simpl; lia..].
  split; [constructor|by intros x ?%not_elem_of_nil|]. intros i x Hx. done.
Qed.

(** ** What the report adds up to *)

Lemma count_sets_spec {MO : MapOrder} (cfg : Config) online (shards_of : string → list ErasureShard) sets out :
  let judged v := count_if (fun set =>
    bool_decide (judge_set cfg online set (shards_of set.(ESet_ObjectSHA256)) = v)) sets in
  let out' := foldl (fun out set =>
    count_set cfg online set (shards_of set.(ESet_ObjectSHA256)) out) out sets in
  out'.(eh_Sets) = out.(eh_Sets) ∧
  out'.(eh_Healthy) = out.(eh_Healthy) + judged HealthySet ∧
  out'.(eh_Degraded) = out.(eh_Degraded) + judged DegradedSet ∧
  out'.(eh_Unrecoverable) = out.(eh_Unrecoverable) + judged Unrecoverable ∧
  out'.(eh_FailureDomainDeficits) = out.(eh_FailureDomainDeficits) + judged DegradedSet.
Proof.
  cbv zeta. revert out. induction sets as [|set l IH]; intros out.
  { unfold count_if, zlen. simpl. lia. }
  simpl foldl. destruct (IH (count_set cfg online set (shards_of (ESet_ObjectSHA256 set)) out))
    as (-> & -> & -> & -> & ->).
  rewrite !count_if_cons. unfold count_set.
  destruct (judge_set cfg online set _); simpl; repeat case_bool_decide; try done; lia.
Qed.

(** The report is a census: every set is listed once, as healthy, degraded or
    unrecoverable according to its own shards, and evaluating it changes nothing. *)
Theorem erasure_report_counts {MO : MapOrder} {S} `{!Store S} {E : Env} (cfg : Config) now i s
    agents sets (shards_of : string → list ErasureShard) :
  cfg.(cfg_Storage).(sd_Erasure).(er_Enabled) = true →
  cfg.(cfg_Storage).(sd_Erasure).(er_Distributed) = true →
  st_ListAgents s = Ok agents → st_ListErasureSets 20000 s = Ok sets →
  (∀ set, set ∈ sets → st_ListErasureShards set.(ESet_ObjectSHA256) s
     = Ok (shards_of set.(ESet_ObjectSHA256))) →
  let judged v := count_if (fun set => bool_decide
    (judge_set cfg (health_nodes cfg now agents) set (shards_of set.(ESet_ObjectSHA256)) = v)) sets in
  ∃ out, EvaluateDistributedErasureHealth cfg now i s = (i, s, Ok out) ∧
    out.(eh_Sets) = out.(eh_Healthy) + out.(eh_Degraded) + out.(eh_Unrecoverable) ∧
    out.(eh_Sets) = zlen sets ∧ out.(eh_Healthy) = judged HealthySet ∧
    out.(eh_Degraded) = judged DegradedSet ∧ out.(eh_Unrecoverable) = judged Unrecoverable ∧
    out.(eh_FailureDomainDeficits) = out.(eh_Degraded).
Proof.
  intros Hen Hdi Hag Hsets Hsh judged. unfold EvaluateDistributedErasureHealth. rewrite Hen, Hdi.
  change (negb true || negb true) with false. cbv iota.
  rewrite (bind_eq _ _ i s i s agents) by (unfold pread; by rewrite Hag).
  rewrite (bind_eq _ _ i s i s sets) by (unfold pread; by rewrite Hsets).
  rewrite (pfor_pure (fun set out =>
    count_set cfg (health_nodes cfg now agents) set (shards_of set.(ESet_ObjectSHA256)) out)).
  2: { intros set out Hset. rewrite (bind_eq _ _ i s i s (shards_of set.(ESet_ObjectSHA256)))
         by (unfold pread; by rewrite Hsh). done. }
  exists (foldl (fun out set => count_set cfg (health_nodes cfg now agents) set
    (shards_of set.(ESet_ObjectSHA256)) out) (mkErasureHealth (zlen sets) 0 0 0 0 0) sets).
  split; [done|]. destruct (count_sets_spec cfg (health_nodes cfg now agents) shards_of sets
    (mkErasureHealth (zlen sets) 0 0 0 0 0)) as (-> & -> & -> & -> & ->).
  simpl. fold (judged HealthySet) (judged DegradedSet) (judged Unrecoverable).
  split; [|lia]. unfold judged. clear. induction sets as [|x l IH]; [done|].
  rewrite !count_if_cons. unfold zlen in *. simpl length. rewrite Nat2Z.inj_succ, IH. destruct (judge_set _ _ x _); simpl; lia.
Qed.

(** A pool of two zones; one object in two data and one parity shards, the first
    of which only agent [a] holds. *)
Module ErasureDemo.

Definition erasure : ErasureConfig :=
  zero_Config.(cfg_Storage).(sd_Erasure) <| er_Enabled := true |> <| er_Distributed := true |>
    <| er_ShardReplication := 2 |> <| er_FailureDomainLabel := "zone" |>
    <| er_MinFailureDomains := 2 |>.
Definition config : Config :=
  zero_Config
    <| cfg_Replication := zero_ReplicationConfig <| rep_Enabled := true |>
         <| rep_AgentTimeout := "5m" |> <| rep_FailureDomainLabel := "zone" |> |>
    <| cfg_Storage := zero_StorageDataConfig <| sd_Enabled := true |> <| sd_Erasure := erasure |> |>.
Definition pool : list Agent := Replication.Demo.agents.
Definition members : gmap string Agent := list_to_map ((fun a => (a.(Agent_ID), a)) <$> pool).

Lemma desired_shards_spread_witness :
  zlen (desiredShardAgents "obj" 0 2 members "zone") = 2 ∧
  Z.of_nat (size (list_to_set
    (domain_of members "zone" <$> desiredShardAgents "obj" 0 2 members "zone") : gset string)) = 2.
Proof.
  destruct (desired_shards_spread "obj" 0 2 members "zone") as (_ & _ & Hl & Hd).
  - vm_compute. reflexivity.
  - lia.
  - lia.
  - split; [rewrite Hl; vm_compute; reflexivity|rewrite Hd; vm_compute; reflexivity].
Defined.

(** The map order of the library, and the same reversed. *)
Program Definition reversed : MapOrder := {|
  range K _ _ A m := rev (map_to_list m);
  shuffle A l := l
|}.
Next Obligation. intros. simpl. by rewrite <- Permutation_rev. Qed.
Next Obligation. done. Qed.

Lemma desired_shards_deterministic_witness :
  desiredShardAgents (MO := default_order) "obj" 0 2 members "zone"
  = desiredShardAgents (MO := reversed) "obj" 0 2 members "zone".
Proof.
  apply (desired_shards_deterministic default_order reversed).
  - vm_compute. reflexivity.
  - lia.
  - vm_compute. discriminate.
Defined.

(** More copies than domains: a round that finds its domain used up takes the best
    agent left, wherever it is. *)
Example demo_crowded : zlen (desiredShardAgents "obj" 0 3 members "zone") = 3.
Proof. vm_compute. reflexivity. Qed.

Definition eset : ErasureSet :=
  zero_ErasureSet <| ESet_ObjectSHA256 := "obj" |> <| ESet_DataShards := 2 |>
    <| ESet_ParityShards := 1 |>.
Definition shard : ErasureShard :=
  zero_ErasureShard <| Shard_ObjectSHA256 := "obj" |> <| Shard_ShardSHA256 := "s0" |>
    <| Shard_AgentID := "a" |> <| Shard_State := ShardReady |> <| Shard_Bytes := 10 |>.
Definition store : Sql.SQLStore :=
  Sql.empty_store <| Sql.agents := members |> <| Sql.erasure_sets := {[ "obj" := eset ]} |>
    <| Sql.erasure_shards := {[ ("obj", 0, "a") := shard ]} |>.

#[local] Existing Instance tick_env.

Lemma erasure_reconcile_safe_witness :
  ∃ i' s' n, Reconcile config (Ok "") Replication.Demo.no_disk 0%nat store = (i', s', Ok n) ∧
    qs_wf s' ∧ Z.of_nat (size s'.(Sql.jobs)) = n.
Proof.
  destruct (erasure_reconcile_safe config (Ok "") Replication.Demo.no_disk 0%nat store pool [eset])
    as (i' & s' & n & Hrun & Hw & _ & Hn & _).
  - split; done.
  - exact tick_tokens_inj.
  - reflexivity.
  - reflexivity.
  - intros k. simpl. unfold Second. lia.
  - apply jobs_wf_empty.
  - done.
  - vm_compute. reflexivity.
  - apply (bool_decide_unpack _). vm_compute. reflexivity.
  - vm_compute. reflexivity.
  - intros set ->%list_elem_of_singleton. exists [shard]. split; [vm_compute; reflexivity|].
    by intros sh ->%list_elem_of_singleton.
  - exists i', s', n. split_and!; [exact Hrun|exact Hw|exact Hn].
Defined.

(** What the run files: a protection job for each node, and a copy of the shard to
    the best agent of each zone. *)
Example demo_filed :
  (fun j => (j.(Job_Kind), j.(Job_Target), j.(Job_Affinity))) <$>
    range_vals (Reconcile config (Ok "") Replication.Demo.no_disk 0%nat store).1.2.(Sql.jobs)
  = [("protect-erasure", "b", "b"); ("replicate-cas", "ers:obj:000@c", "a");
     ("protect-erasure", "c", "c"); ("replicate-cas", "ers:obj:000@b", "a");
     ("protect-erasure", "a", "a")].
Proof. vm_compute. reflexivity. Qed.

(** The reconciler counts the local worker among the nodes that hold shards; the
    report does not. *)
Example local_shards_not_counted :
  let config := config <| cfg_Replication := config.(cfg_Replication) <| rep_IncludeLocal := true |> |> in
  let local := local_node config 0 (Ok "") Replication.Demo.no_disk in
  let shard := shard <| Shard_AgentID := LocalWorkerAffinity |> in
  let set := eset <| ESet_DataShards := 1 |> in
  is_Some (readable_nodes config 0 [] local !! LocalWorkerAffinity) ∧
  hasReadyShardOn [shard] LocalWorkerAffinity = true ∧
  judge_set config (health_nodes config 0 []) set [shard] = Unrecoverable.
Proof. split_and!; [apply (bool_decide_unpack _); vm_compute; reflexivity|vm_compute; reflexivity..]. Qed.

Lemma erasure_report_counts_witness :
  ∃ out, EvaluateDistributedErasureHealth config (1001 * Second) 0%nat store = (0%nat, store, Ok out) ∧
    out.(eh_Sets) = 1 ∧ out.(eh_Unrecoverable) = 1.
Proof.
  destruct (erasure_report_counts config (1001 * Second) 0%nat store pool [eset] (fun _ => [shard]))
    as (out & Hrun & _ & Hsets & _ & _ & Hu & _).
  - reflexivity.
  - reflexivity.
  - vm_compute. reflexivity.
  - vm_compute. reflexivity.
  - intros set ->%list_elem_of_singleton. vm_compute. reflexivity.
  - exists out. split; [exact Hrun|]. split; [rewrite Hsets; reflexivity|].
    rewrite Hu. vm_compute. reflexivity.
Defined.
End ErasureDemo.

End Erasure.
