(* ===== verification/Maintenance.v ===== *)
(** * Storage maintenance

    Models [StorageMaintenanceReconciler.Reconcile] of
    [internal/controlplane/storage_maintenance.go]: every node with readable
    storage, the local one included, is asked to scrub and to tier its objects,
    once per interval.  What those jobs do on the node is not modelled here. *)

From Stdlib Require Import Ascii String.
From S2P Require Import Prelude GoStd Json Sha256 Model Payloads QueueSpec SqlStore Config Control StorageHealth Requests Placement Replication Erasure.
#[global] Open Scope Z_scope.

Module Maintenance.
Import StorageHealth Placement.

Section Reconcile.
Context {S : Type} `{!Store S} {E : Env}.
Context (cfg : Config).
Local Notation scfg := cfg.(cfg_Storage).

Definition affinities (agents : list Agent) : list string :=
  LocalWorkerAffinity :: (Agent_ID <$> List.filter (fun a => agentReadable a scfg) agents).

Definition scrub_interval : Duration := duration_or scfg.(sd_Scrub).(scrub_Interval) (24 * Hour).

Definition scrub_job (now : Time) (affinity : string) : Job :=
  zero_Job <| Job_Kind := "scrub-cas" |> <| Job_Target := affinity |>
    <| Job_Payload := Json (JObj [("sample_objects", JInt scfg.(sd_Scrub).(scrub_SampleObjects))]) |>
    <| Job_Affinity := affinity |> <| Job_Priority := 70 |>
    <| Job_MaxAttempts := cfg.(cfg_Workers).(w_MaxAttempts) |> <| Job_NotBefore := now |>.

Definition tier_job (now : Time) (affinity : string) : Job :=
  zero_Job <| Job_Kind := "tier-cas" |> <| Job_Target := affinity |>
    <| Job_Payload := Json (JObj []) |> <| Job_Affinity := affinity |> <| Job_Priority := 40 |>
    <| Job_MaxAttempts := cfg.(cfg_Workers).(w_MaxAttempts) |> <| Job_NotBefore := now |>.

Definition maintain_node (now : Time) (jobs : list Job) (affinity : string) (n : Z) : Prog S Z :=
  n ← (if scfg.(sd_Scrub).(scrub_Enabled)
          && negb (Erasure.recentlyRanJob jobs "scrub-cas" affinity scrub_interval now)
       then enqueue (scrub_job now affinity) n else mret n);
  if scfg.(sd_Tiering).(tier_Enabled)
     && negb (Erasure.recentlyRanJob jobs "tier-cas" affinity (24 * Hour) now)
  then enqueue (tier_job now affinity) n else mret n.

Definition Reconcile : Prog S Z :=
  if negb scfg.(sd_Enabled) then mret 0
  else
    now ← pnow;
    jobs ← pignore [] (pread (st_ListJobs 50000));
    agents ← pread st_ListAgents;
    pfor (affinities agents) (maintain_node now jobs) 0.

(** ** What is filed *)

Context `{!QueueStore S}.
Context (max_attempts_ok : 0 ≤ cfg.(cfg_Workers).(w_MaxAttempts) ≤ max_int64).
Context (tokens_fresh : distinct_tokens).

(** A job that is due on the node: enabled, and not run within its interval. *)
Definition due_on (now : Time) (jobs : list Job) (affinity : string) (j : Job) : Prop :=
  (scfg.(sd_Scrub).(scrub_Enabled) = true ∧
     Erasure.recentlyRanJob jobs "scrub-cas" affinity scrub_interval now = false ∧
     j = scrub_job now affinity) ∨
  (scfg.(sd_Tiering).(tier_Enabled) = true ∧
     Erasure.recentlyRanJob jobs "tier-cas" affinity (24 * Hour) now = false ∧
     j = tier_job now affinity).

Definition maintained (now : Time) (jobs : list Job) (nodes : list string) (s0 : S)
    (n : Z) (i : nat) (s : S) : Prop :=
  ∃ reqs, filed s0 reqs n i s ∧ ∀ j, j ∈ reqs → ∃ a, a ∈ nodes ∧ due_on now jobs a j.

(** Filing [j] when [b] holds, and nothing otherwise. *)
Lemma maybe_enqueue now jobs nodes s0 (b : bool) j n i s :
  job_request j → j.(Job_ID) = "" →
  (b = true → ∃ a, a ∈ nodes ∧ due_on now jobs a j) → maintained now jobs nodes s0 n i s →
  ∃ i' s' n', (if b then enqueue j n else mret n) i s = (i', s', Ok n') ∧
    maintained now jobs nodes s0 n' i' s' ∧ grows s s' ∧
    (b = true → active_key (a_key (ajob_of j)) (qs_jobs s')).
Proof.
  intros Hreq Hid Hdue (reqs & Hf & Hr). destruct b; [|exists i, s, n; split_and!; [done|by exists reqs|done|done]].
  destruct (enqueue_filed s0 reqs n i s j tokens_fresh Hreq Hid Hf) as (s' & n' & Er & Hf' & Hfr & Hm & _).
  exists (Datatypes.S i), s', n'. split_and!; [done| |done|].
  - exists (reqs ++ [j]). split; [done|].
    intros j' [Hj'| ->%list_elem_of_singleton]%elem_of_app; [by apply Hr|by apply Hdue].
  - intros _. apply (fl_done _ _ _ _ _ Hf'). apply elem_of_app. right. by left.
Qed.

Lemma maintain_node_run now jobs nodes s0 a n i s :
  a ∈ nodes → maintained now jobs nodes s0 n i s →
  ∃ i' s' n', maintain_node now jobs a n i s = (i', s', Ok n') ∧
    maintained now jobs nodes s0 n' i' s' ∧ grows s s' ∧
    ∀ j, due_on now jobs a j → active_key (a_key (ajob_of j)) (qs_jobs s').
Proof.
  intros Ha HI. unfold maintain_node.
  destruct (maybe_enqueue now jobs nodes s0 (scfg.(sd_Scrub).(scrub_Enabled)
    && negb (Erasure.recentlyRanJob jobs "scrub-cas" a scrub_interval now)) (scrub_job now a) n i s)
    as (i1 & s1 & n1 & E1 & HI1 & [F1 G1] & H1); [by split; [left|..]|done| |done|].
  { intros [? ?%negb_true_iff]%andb_true_iff. exists a. split; [done|]. left. done. }
  rewrite (bind_eq _ _ _ _ _ _ _ E1).
  destruct (maybe_enqueue now jobs nodes s0 (scfg.(sd_Tiering).(tier_Enabled)
    && negb (Erasure.recentlyRanJob jobs "tier-cas" a (24 * Hour) now)) (tier_job now a) n1 i1 s1)
    as (i2 & s2 & n2 & E2 & HI2 & [F2 G2] & H2); [by split; [left|..]|done| |done|].
  { intros [? ?%negb_true_iff]%andb_true_iff. exists a. split; [done|]. right. done. }
  exists i2, s2, n2. split_and!; [done|done|split; [by etrans|auto]|].
  intros j [(Hen & Hrec & ->)|(Hen & Hrec & ->)].
  - eapply active_key_mono; [exact G2|]. apply H1. by rewrite Hen, Hrec.
  - apply H2. by rewrite Hen, Hrec.
Qed.

Lemma maintenance_run i s agents jobs :
  scfg.(sd_Enabled) = true → st_ListAgents s = Ok agents → st_ListJobs 50000 s = Ok jobs →
  ∀ s0, maintained (clock i) jobs (affinities agents) s0 0 (Datatypes.S i) s →
  ∃ i' s' n, Reconcile i s = (i', s', Ok n) ∧
    maintained (clock i) jobs (affinities agents) s0 n i' s' ∧ grows s s' ∧
    ∀ a, a ∈ affinities agents → ∀ j, due_on (clock i) jobs a j →
      active_key (a_key (ajob_of j)) (qs_jobs s').
Proof.
  intros Hen Hag Hj s0 HI. unfold Reconcile. rewrite Hen. change (negb true) with false. cbv iota.
  set (i1 := Datatypes.S i) in *. rewrite (bind_eq _ _ i s i1 s (clock i)) by done.
  rewrite (bind_eq _ _ i1 s i1 s jobs) by (unfold pignore, pread; by rewrite Hj).
  rewrite (bind_eq _ _ i1 s i1 s agents) by (unfold pread; by rewrite Hag).
  apply (pfor_each (maintained (clock i) jobs (affinities agents) s0) grows
    (fun a s' => ∀ j, due_on (clock i) jobs a j → active_key (a_key (ajob_of j)) (qs_jobs s'))).
  - intros a t t' H [_ G] j Hd. eapply active_key_mono; [exact G|by apply H].
  - intros a n i2 s2 Ha HI2. by apply maintain_node_run.
  - exact HI.
Qed.
End Reconcile.

(** C29. Storage maintenance reaches every node: it succeeds and loses no job; when
    it is done every readable node, the local worker included, has an active job
    for each kind of maintenance that is enabled and has not run within its
    interval, and nothing else was filed. *)
Theorem maintenance_reaches_all {S} `{!Store S} `{!QueueStore S} {E : Env} (cfg : Config) i s agents jobs :
  0 ≤ cfg.(cfg_Workers).(w_MaxAttempts) ≤ max_int64 → distinct_tokens →
  cfg.(cfg_Storage).(sd_Enabled) = true → qs_wf s → unused_tokens i s →
  st_ListAgents s = Ok agents → st_ListJobs 50000 s = Ok jobs →
  ∃ i' s' n, Reconcile cfg i s = (i', s', Ok n) ∧ qs_wf s' ∧
    (∀ id j, qs_jobs s !! id = Some j → qs_jobs s' !! id = Some j) ∧
    Z.of_nat (size (qs_jobs s')) = Z.of_nat (size (qs_jobs s)) + n ∧
    (∀ a j, a ∈ affinities cfg agents → due_on cfg (clock i) jobs a j →
       active_key (a_key (ajob_of j)) (qs_jobs s')) ∧
    (∀ id y, qs_jobs s' !! id = Some y → qs_jobs s !! id = None →
       ∃ a j, a ∈ affinities cfg agents ∧ due_on cfg (clock i) jobs a j ∧ row_of j y).
Proof.
  intros Hmax Htok Hen Hwf Hun Hag Hj.
  destruct (maintenance_run cfg Hmax Htok i s agents jobs Hen Hag Hj s)
    as (i' & s' & n & Hrun & (reqs & Hf & Hr) & _ & Hall).
  { exists []. split; [|by intros j ?%not_elem_of_nil].
    eapply filed_later, filed_start; [|done|exact Hun]. lia. }
  destruct Hf as [Hw _ Hkept Hnew _ Hc]. exists i', s', n. split_and!; try done.
  - intros a j Ha. by apply Hall.
  - intros id y Hy Hn. destruct (Hnew id y Hy Hn) as (j & Hjr & Hrow).
    destruct (Hr j Hjr) as (a & ? & ?). by exists a, j.
Qed.

Module MaintenanceDemo.
Definition config : Config :=
  zero_Config <| cfg_Storage := zero_StorageDataConfig <| sd_Enabled := true |>
    <| sd_Scrub := mkScrubConfig true "1h" 10 false "" |> |>.
Definition store : Sql.SQLStore := demo_store.
#[local] Existing Instance tick_env.

Lemma maintenance_reaches_all_witness :
  ∃ i' s' n, Reconcile config 0%nat store = (i', s', Ok n) ∧ qs_wf s' ∧
    active_key ("scrub-cas", "a2", "a2") s'.(Sql.jobs).
Proof.
  destruct (maintenance_reaches_all config 0%nat store (Sql.ListAgents store) [])
    as (i' & s' & n & Hrun & Hw & _ & _ & Hall & _).
  - split; done.
  - exact tick_tokens_inj.
  - reflexivity.
  - apply jobs_wf_empty.
  - done.
  - done.
  - vm_compute. reflexivity.
  - exists i', s', n. split_and!; [exact Hrun|exact Hw|].
    apply (Hall "a2" (scrub_job config (1000 * Second) "a2")).
    + vm_compute. right. left.
    + left. by split_and!.
Defined.
End MaintenanceDemo.
End Maintenance.
