(* ===== verification/Repair.v ===== *)
(** * Distributed repair

    Models [ScheduleDistributedRepair] of
    [internal/controlplane/repair_distributed.go]: enough distinct shards of a
    corrupt object are brought to one node under leases, and a job there rebuilds
    the object from them.  The rebuilding itself ([repairObject]) works on the
    files of the node (Tiers.v). *)

From Stdlib Require Import Ascii String.
From stdpp Require Import pretty.
From S2P Require Import Prelude GoStd Json Sha256 Model Payloads QueueSpec SqlStore Config Control StorageHealth Requests Placement Replication Erasure.
#[global] Open Scope Z_scope.

Module Repair.
Import StorageHealth Placement.

Section Repair.
Context {MO : MapOrder} {S : Type} `{!Store S} {E : Env}.
Context (cfg : Config).
Local Notation rcfg := cfg.(cfg_Replication).
Local Notation scfg := cfg.(cfg_Storage).

Definition repair_agent (now : Time) (a : Agent) : bool :=
  fresh now (agent_timeout rcfg) a && agentReadable a scfg
  && (TrimSpace a.(Agent_ReplicationPublicKey) ≠? "").

Definition online (now : Time) (agents : list Agent) : gmap string Agent :=
  foldl (Erasure.collect (repair_agent now)) ∅ agents.

(** [byIndex] and its sorted keys. *)
Definition ready_indices (shards : list ErasureShard) : list Z :=
  sort_slice Z.ltb (elements (list_to_set (Shard_ShardIndex <$> List.filter (fun sh =>
    sh.(Shard_State) ≟ ShardReady) shards) : gset Z)).

Definition candidate (on : gmap string Agent) (shards : list ErasureShard) (idx : Z)
    : option ErasureShard :=
  List.find (fun sh => bool_decide (is_Some (on !! sh.(Shard_AgentID)))) (Erasure.ready_at shards idx).

Definition repair_shard (idx : Z) (sh : ErasureShard) : repairShard :=
  mkRepairShard idx sh.(Shard_ShardSHA256) sh.(Shard_Bytes).

Definition shard_target (digest : string) (idx : Z) (target : string) : string :=
  "repairshard:" +:+ digest +:+ ":" +:+ pretty idx +:+ "@" +:+ target.

Definition transfer_job (now : Time) (transferID digest target : string) (ta : Agent) (idx : Z)
    (sh : ErasureShard) : Job :=
  zero_Job <| Job_Kind := "replicate-cas" |> <| Job_Target := shard_target digest idx target |>
    <| Job_Payload := marshal_replicate_cas (mkReplicateCAS transferID sh.(Shard_AgentID) target
         ta.(Agent_ReplicationPublicKey) [target] 1 [] [sh.(Shard_ShardSHA256)]
         (Some (mkShardTransfer digest idx sh.(Shard_ShardSHA256) sh.(Shard_Bytes)
                  ("repair:" +:+ transferID))) "" "") |>
    <| Job_Affinity := sh.(Shard_AgentID) |> <| Job_Priority := 190 |>
    <| Job_MaxAttempts := cfg.(cfg_Workers).(w_MaxAttempts) |> <| Job_NotBefore := now |>.

Definition repair_lease (now : Time) (transferID digest target : string) (sh : ErasureShard)
    : ObjectLease :=
  zero_ObjectLease <| OLease_ID := "repair:" +:+ transferID |>
    <| OLease_Digest := sh.(Shard_ShardSHA256) |>
    <| OLease_Owner := "repair:" +:+ digest +:+ "@" +:+ target |>
    <| OLease_ExpiresAt := time_add now (Erasure.transfer_ttl cfg) |>.

Definition repair_job (now : Time) (set : ErasureSet) (digest target : string)
    (chosen : list repairShard) : Job :=
  zero_Job <| Job_Kind := "repair-object" |> <| Job_Target := "repair:" +:+ digest +:+ "@" +:+ target |>
    <| Job_Payload := marshal_repair_object (mkRepairObject digest set.(ESet_OriginalBytes)
         set.(ESet_DataShards) set.(ESet_ParityShards) set.(ESet_BlockBytes) chosen) |>
    <| Job_Affinity := target |> <| Job_Priority := 180 |>
    <| Job_MaxAttempts := Z.max cfg.(cfg_Workers).(w_MaxAttempts) 8 |>
    <| Job_NotBefore := time_add now (5 * Second) |>.

(** One index, unless enough shards are chosen already. *)
Definition gather (now : Time) (set : ErasureSet) (digest target : string) (ta : Agent)
    (on : gmap string Agent) (shards : list ErasureShard) (idx : Z)
    (st : list repairShard * Z) : Prog S (list repairShard * Z) :=
  let '(chosen, queued) := st in
  if set.(ESet_DataShards) <=? zlen chosen then mret st
  else
    match candidate on shards idx with
    | None => mret st
    | Some sh =>
        let chosen := chosen ++ [repair_shard idx sh] in
        if sh.(Shard_AgentID) ≟ target then mret (chosen, queued)
        else
          transferID ← pnew_id "repairshard";
          pwrite (fun t token => st_AcquireObjectLease t token
                    (repair_lease now transferID digest target sh));;
          queued ← enqueue (transfer_job now transferID digest target ta idx sh) queued;
          mret (chosen, queued)
    end.

Definition ScheduleDistributedRepair (target digest : string) : Prog S Z :=
  so ← pread (st_GetErasureSet digest);
  if negb (so.2 : bool) then pfail ("no erasure set for " +:+ digest)
  else
    let set := so.1 in
    shards ← pread (st_ListErasureShards digest);
    agents ← pread st_ListAgents;
    now ← pnow;
    let on := online now agents in
    match on !! target with
    | None => pfail ("repair target " +:+ target +:+ " is offline/unreadable")
    | Some ta =>
        st ← pfor (ready_indices shards) (gather now set digest target ta on shards) ([], 0);
        if zlen st.1 <? set.(ESet_DataShards)
        then pfail ("only " +:+ pretty (zlen st.1) +:+ "/" +:+ pretty set.(ESet_DataShards)
                    +:+ " distinct repair shards online")
        else enqueue (repair_job now set digest target st.1) st.2
    end.

(** ** What is gathered *)

(** The shards that can be had, one for each index, lowest first. *)
Definition available (on : gmap string Agent) (shards : list ErasureShard) : list (Z * ErasureShard) :=
  omap (fun idx => (fun sh => (idx, sh)) <$> candidate on shards idx) (ready_indices shards).

Context `{!QueueStore S}.
Context (max_attempts_ok : 0 ≤ cfg.(cfg_Workers).(w_MaxAttempts) ≤ max_int64).
Context (tokens_fresh : distinct_tokens).
Context (now : Time) (set : ErasureSet) (digest target : string) (ta : Agent).
Context (on : gmap string Agent) (shards : list ErasureShard) (s0 : S).
Context (expiry_set : time_add now (Erasure.transfer_ttl cfg) ≠ time_zero).
Context (digests_named : ∀ sh, sh ∈ shards → sh.(Shard_ShardSHA256) ≠ "").

(** The shard is on the target already, or a transfer to it is under way and its
    digest is leased until the transfer has had its time. *)
Definition leased (i : nat) (s : S) (d : string) : Prop :=
  ∃ k l, (k < i)%nat ∧
    qs_leases s !! ("repair:" +:+ newID "repairshard" (fresh_token k)) = Some l ∧
    l.(OLease_Digest) = d ∧ l.(OLease_ExpiresAt) = time_add now (Erasure.transfer_ttl cfg).

Definition coming (i : nat) (s : S) (c : Z * ErasureShard) : Prop :=
  c.2.(Shard_AgentID) = target ∨
  (active_key ("replicate-cas", shard_target digest c.1 target, c.2.(Shard_AgentID)) (qs_jobs s) ∧
   leased i s c.2.(Shard_ShardSHA256)).

Definition shards_of (cs : list (Z * ErasureShard)) : list repairShard :=
  (fun c => repair_shard c.1 c.2) <$> cs.

Definition transfers_only (j : Job) : Prop :=
  ∃ c tid, c ∈ available on shards ∧ j = transfer_job now tid digest target ta c.1 c.2.

Definition choice (idx : Z) : option (Z * ErasureShard) :=
  (fun sh => (idx, sh)) <$> candidate on shards idx.

(** After the indices [pre]: [cs] are the shards chosen. *)
Record gathered (pre : list Z) (cs : list (Z * ErasureShard)) (n : Z) (i : nat) (s : S) : Prop := {
  ga_chosen : cs = take (Z.to_nat set.(ESet_DataShards)) (omap choice pre);
  ga_filed : ∃ reqs, filed s0 reqs n i s ∧ ∀ j, j ∈ reqs → transfers_only j;
  ga_coming c : c ∈ cs → coming i s c
}.

Lemma candidate_spec idx sh :
  candidate on shards idx = Some sh →
  sh ∈ shards ∧ sh.(Shard_State) = ShardReady ∧ sh.(Shard_ShardIndex) = idx ∧
  is_Some (on !! sh.(Shard_AgentID)).
Proof.
  intros [H1 H2]%find_some. apply bool_decide_eq_true in H2. unfold Erasure.ready_at in H1.
  apply filter_In in H1 as [H1 H3%andb_true_iff]. rewrite bool_decide_eq_true, Z.eqb_eq in H3.
  apply list_elem_of_In in H1. tauto.
Qed.

Lemma available_at idx sh :
  idx ∈ ready_indices shards → candidate on shards idx = Some sh → (idx, sh) ∈ available on shards.
Proof.
  intros Hi Hc. unfold available. apply list_elem_of_omap. exists idx. split; [done|]. by rewrite Hc.
Qed.

Lemma coming_mono i i' s s' c :
  (i ≤ i')%nat → (∀ id y, qs_jobs s !! id = Some y → qs_jobs s' !! id = Some y) →
  (∀ k, (k < i)%nat → qs_leases s' !! ("repair:" +:+ newID "repairshard" (fresh_token k))
     = qs_leases s !! ("repair:" +:+ newID "repairshard" (fresh_token k))) →
  coming i s c → coming i' s' c.
Proof.
  intros Hi Hj Hl [?|[Ha (k & l & Hk & Hlk & ?)]]; [by left|right].
  split; [by eapply active_key_mono|]. exists k, l. split_and!; [lia|by rewrite Hl|naive_solver..].
Qed.

Lemma gather_run pre idx cs n i s :
  idx ∈ ready_indices shards → gathered pre cs n i s →
  ∃ i' s' cs' n', gather now set digest target ta on shards idx (shards_of cs, n) i s
    = (i', s', Ok (shards_of cs', n')) ∧ gathered (pre ++ [idx]) cs' n' i' s'.
Proof.
  intros Hidx HI. pose proof HI as [Hcs (reqs & Hf & Hr) Hc]. unfold gather.
  assert (zlen (shards_of cs) = zlen cs) as Hlen by (unfold shards_of, zlen; by rewrite length_fmap).
  rewrite Hlen. destruct (Z.leb_spec set.(ESet_DataShards) (zlen cs)) as [Hfull|Hmore].
  { exists i, s, cs, n. split; [done|]. split; [|by eauto|done]. rewrite omap_app, Hcs.
    unfold zlen in Hfull. rewrite Hcs, length_take in Hfull. by rewrite take_app_le by lia. }
  assert (cs = omap choice pre) as Hall.
  { unfold zlen in Hmore. rewrite Hcs, length_take in Hmore. rewrite Hcs. apply take_ge. lia. }
  assert (take (Z.to_nat set.(ESet_DataShards)) (omap choice (pre ++ [idx]))
    = cs ++ match choice idx with Some c => [c] | None => [] end) as Htake.
  { rewrite omap_app, <- Hall. simpl. unfold zlen in Hmore.
    destruct (choice idx); apply take_ge; rewrite ?length_app; simpl; lia. }
  assert (choice idx = (fun sh => (idx, sh)) <$> candidate on shards idx) as Ech by done.
  destruct (candidate on shards idx) as [sh|] eqn:Ecand; simpl in Ech; rewrite Ech in Htake.
  2: { exists i, s, cs, n. split; [done|]. split; [|by eauto|done]. by rewrite Htake, app_nil_r. }
  assert (∀ cs0, shards_of cs0 ++ [repair_shard idx sh] = shards_of (cs0 ++ [(idx, sh)])) as Hsnoc
    by (intros; unfold shards_of; by rewrite fmap_app).
  destruct (candidate_spec _ _ Ecand) as (Hsh & _ & _ & _). rewrite Hsnoc.
  destruct (bool_decide_reflect (sh.(Shard_AgentID) = target)) as [Ht|Ht].
  { exists i, s, (cs ++ [(idx, sh)]), n. split; [done|]. split; [by rewrite Htake|by eauto|].
    intros c [?| ->%list_elem_of_singleton]%elem_of_app; [by apply Hc|by left]. }
  set (i1 := Datatypes.S i). set (tid := newID "repairshard" (fresh_token i)).
  rewrite (bind_eq _ _ i s i1 s tid) by done.
  destruct (qs_acquire (clock i1) (fresh_token i1) (repair_lease now tid digest target sh) s
    (fl_wf _ _ _ _ _ Hf)) as (s1 & E1 & Hwf1 & _ & Hj1 & Hl1); [done|by apply digests_named|done|done|].
  rewrite (bind_eq _ _ i1 s (Datatypes.S i1) s1 tt) by (unfold pwrite; by rewrite E1).
  set (j := transfer_job now tid digest target ta idx sh).
  destruct (enqueue_filed s0 reqs n (Datatypes.S i1) s1 j tokens_fresh)
    as (s2 & n2 & E2 & Hf2 & _ & Hm2 & Hl2);
    [by split; [left|..]|done|by eapply filed_same_jobs, Hf; [lia|..]|].
  rewrite (bind_eq _ _ _ _ _ _ _ E2).
  exists (Datatypes.S (Datatypes.S i1)), s2, (cs ++ [(idx, sh)]), n2. split; [done|].
  split; [by rewrite Htake| |].
  - exists (reqs ++ [j]). split; [done|].
    intros j' [Hj'| ->%list_elem_of_singleton]%elem_of_app; [by apply Hr|].
    exists (idx, sh), tid. split; [by apply available_at|done].
  - intros c [Hin| ->%list_elem_of_singleton]%elem_of_app.
    + eapply coming_mono, Hc, Hin; [unfold i1; lia| |].
      * intros id y Hy. apply Hm2. by rewrite Hj1.
      * intros k Hk. rewrite Hl2, Hl1, lookup_insert_ne; [done|]. simpl. unfold tid. intros E'.
        apply (inj (String.append "repair:")) in E'.
        apply (inj (newID "repairshard")), tokens_fresh in E'. lia.
    + right. split.
      * apply (fl_done _ _ _ _ _ Hf2 j). apply elem_of_app. right. by left.
      * eexists i, _. rewrite Hl2, Hl1. simpl. fold tid. rewrite lookup_insert_eq.
        split_and!; [unfold i1; lia|done|done|done].
Qed.
End Repair.

(** The count is only passed along. *)
Lemma enqueue_from {S} `{!Store S} {E : Env} n j i (s : S) i' s' k :
  enqueue j 0 i s = (i', s', Ok k) → enqueue j n i s = (i', s', Ok (n + k)).
Proof.
  unfold enqueue. intros (i1 & s1 & [x created] & E1 & E2)%bind_Ok. rewrite (bind_eq _ _ _ _ _ _ _ E1).
  injection E2 as <- <- <-. cbn. destruct created; by rewrite ?Z.add_0_r.
Qed.

(** C30. Distributed repair gathers enough, or says it cannot: when as many
    distinct shards as the object needs are ready on online readable nodes, it
    brings the lowest of them to the target; in the store it has then reached each
    of these is on the target already or on its way to it, with its digest leased
    for as long as a transfer may take, while no job but such transfers is new; and
    the last call of all files the job on the target that rebuilds the object from
    exactly these.  When there are fewer, it fails with their number and the number
    needed, and has filed transfers only.  No job is lost either way. *)
Theorem repair_gathers_shards {MO : MapOrder} {S} `{!Store S} `{!QueueStore S} {E : Env}
    (cfg : Config) target digest i s set shards agents ta :
  0 ≤ cfg.(cfg_Workers).(w_MaxAttempts) ≤ max_int64 → distinct_tokens → (∀ k, 0 < clock k) →
  qs_wf s → unused_tokens i s →
  st_GetErasureSet digest s = Ok (set, true) → 0 ≤ set.(ESet_DataShards) →
  st_ListErasureShards digest s = Ok shards → (∀ sh, sh ∈ shards → sh.(Shard_ShardSHA256) ≠ "") →
  st_ListAgents s = Ok agents → online cfg (clock i) agents !! target = Some ta →
  let now := clock i in
  let all := available (online cfg now agents) shards in
  let chosen := take (Z.to_nat set.(ESet_DataShards)) all in
  let repair := repair_job cfg now set digest target (shards_of chosen) in
  ∃ i1 s1 n i' s' r, ScheduleDistributedRepair cfg target digest i s = (i', s', r) ∧
    (* the store once the shards are gathered *)
    (∀ id j, qs_jobs s !! id = Some j → qs_jobs s1 !! id = Some j) ∧
    (∀ id y, qs_jobs s1 !! id = Some y → qs_jobs s !! id = None →
       ∃ j, row_of j y ∧ transfers_only cfg now digest target ta (online cfg now agents) shards j) ∧
    (∀ c, c ∈ chosen → coming cfg now digest target i1 s1 c) ∧
    (* and the end *)
    if bool_decide (set.(ESet_DataShards) ≤ zlen all)
    then enqueue repair n i1 s1 = (i', s', r) ∧ is_ok r = true ∧ qs_wf s' ∧
      (∀ id j, qs_jobs s1 !! id = Some j → qs_jobs s' !! id = Some j) ∧
      (∀ c, c ∈ chosen → coming cfg now digest target i' s' c) ∧
      active_key (a_key (ajob_of repair)) (qs_jobs s') ∧
      (∀ id y, qs_jobs s' !! id = Some y → qs_jobs s1 !! id = None → row_of repair y)
    else i' = i1 ∧ s' = s1 ∧ qs_wf s' ∧
      r = Err ("only " +:+ pretty (zlen all) +:+ "/" +:+ pretty set.(ESet_DataShards) +:+ " distinct repair shards online").
Proof.
  intros Hmax Htok Hclk Hwf Hun Hset Hd Hsh Hsha Hag Hta now all chosen repair.
  unfold ScheduleDistributedRepair.
  rewrite (bind_eq _ _ i s i s (set, true)) by (unfold pread; by rewrite Hset).
  cbn [fst snd]. change (negb true) with false. cbv iota.
  rewrite (bind_eq _ _ i s i s shards) by (unfold pread; by rewrite Hsh).
  rewrite (bind_eq _ _ i s i s agents) by (unfold pread; by rewrite Hag).
  set (i1 := Datatypes.S i). rewrite (bind_eq _ _ i s i1 s now) by done.
  fold now in Hta. set (on := online cfg now agents) in *. rewrite Hta.
  assert (time_add now (Erasure.transfer_ttl cfg) ≠ time_zero) as Hexp.
  { assert (0 < Erasure.transfer_ttl cfg) by by apply duration_or_pos.
    pose proof (Hclk i). unfold time_add, time_zero, now. lia. }
  destruct (pfor_total (fun pre st i s' => ∃ cs, st.1 = shards_of cs ∧
    gathered cfg now set digest target ta on shards s pre cs st.2 i s')
    (gather cfg now set digest target ta on shards) (ready_indices shards) ([], 0) i1 s)
    as (i2 & s2 & [ch n] & Er & cs & Hch & [Hcs (reqs & Hf & Hr) Hc]).
  { exists []. split; [done|]. split; [by destruct (Z.to_nat _)| |by intros c ?%not_elem_of_nil].
    exists []. split; [|by intros j ?%not_elem_of_nil]. eapply filed_later, filed_start; [|done|exact Hun].
    unfold i1. lia. }
  { intros pre idx post [ch n] i3 s3 Hl (cs & Hch & HI). cbn [fst snd] in *. subst ch.
    destruct (gather_run cfg Hmax Htok now set digest target ta on shards s Hexp Hsha pre idx cs n i3 s3)
      as (i4 & s4 & cs' & n' & Eg & HI'); [rewrite Hl; apply elem_of_app; right; by left|done|].
    exists i4, s4, (shards_of cs', n'). split; [done|]. by exists cs'. }
  rewrite (bind_eq _ _ _ _ _ _ _ Er). cbn [fst snd] in *. subst ch.
  assert (cs = chosen) as -> by done.
  assert (zlen (shards_of chosen) = Z.min set.(ESet_DataShards) (zlen all)) as Hlen.
  { unfold shards_of, zlen. rewrite length_fmap. unfold chosen. rewrite length_take. lia. }
  rewrite Hlen. pose proof Hf as [Hw Hu Hk Hn _ _]. exists i2, s2, n.
  assert (Hnew : ∀ id y, qs_jobs s2 !! id = Some y → qs_jobs s !! id = None →
    ∃ j, row_of j y ∧ transfers_only cfg now digest target ta on shards j).
  { intros id y Hy Hno. destruct (Hn id y Hy Hno) as (j & Hj & Hrow). exists j. split; [done|by apply Hr]. }
  case_bool_decide as Henough.
  - rewrite (proj2 (Z.ltb_ge _ _)) by lia.
    destruct (enqueue_filed s2 [] 0 i2 s2 repair Htok) as (s3 & n3 & E3 & [Hw3 _ _ Hn3 Hd3 _] & _ & Hm & Hl);
      [split; [by left|done| |done]; simpl; unfold max_int64, two63 in *; lia|done|by apply filed_start|].
    apply (enqueue_from n) in E3. exists (Datatypes.S i2), s3, (Ok (n + n3)). split_and!; try done.
    + intros c Hin. eapply coming_mono, Hc, Hin; [lia|done|]. intros k Hlt. by rewrite Hl.
    + apply Hd3. by left.
    + intros id y Hy Hno. by destruct (Hn3 id y Hy Hno) as (j & ->%list_elem_of_singleton & ?).
  - rewrite (proj2 (Z.ltb_lt _ _)) by lia. rewrite Z.min_r by lia. by eexists _, _, _.
Qed.

Module RepairDemo.
Definition config : Config := Erasure.ErasureDemo.config.
Definition shard (idx : Z) (d agent : string) : ErasureShard :=
  Erasure.ErasureDemo.shard <| Shard_ShardIndex := idx |> <| Shard_ShardSHA256 := d |>
    <| Shard_AgentID := agent |>.
Definition shards : list ErasureShard := [shard 0 "s0" "a"; shard 1 "s1" "b"; shard 2 "s2" "c"].
Definition store : Sql.SQLStore :=
  Erasure.ErasureDemo.store <| Sql.erasure_shards :=
    list_to_map ((fun sh => (("obj", sh.(Shard_ShardIndex), sh.(Shard_AgentID)), sh)) <$> shards) |>.

#[local] Existing Instance tick_env.

Lemma repair_gathers_shards_witness :
  ∃ i' s' n, ScheduleDistributedRepair config "a" "obj" 0%nat store = (i', s', Ok n) ∧ qs_wf s' ∧
    coming config (1000 * Second) "obj" "a" i' s' (1, shard 1 "s1" "b").
Proof.
  destruct (repair_gathers_shards config "a" "obj" 0%nat store Erasure.ErasureDemo.eset
    (Sql.ListErasureShards "obj" store) (Sql.ListAgents store) (Replication.Demo.agent "a" "east"))
    as (i1 & s1 & n & i' & s' & r & Hrun & _ & _ & _ & Hend).
  - split; done.
  - exact tick_tokens_inj.
  - intros k. simpl. unfold Second. lia.
  - apply jobs_wf_empty.
  - done.
  - vm_compute. reflexivity.
  - vm_compute. discriminate.
  - done.
  - intros sh. assert (Sql.ListErasureShards "obj" store = shards) as -> by (vm_compute; reflexivity).
    intros Hin. repeat (apply elem_of_cons in Hin as [->|Hin]; [done|]). by apply not_elem_of_nil in Hin.
  - done.
  - vm_compute. reflexivity.
  - rewrite bool_decide_eq_true_2 in Hend by (vm_compute; discriminate).
    destruct Hend as (_ & Hok & Hw & _ & Hall & _). destruct r as [k|]; [|discriminate Hok].
    exists i', s', k. split_and!; [exact Hrun|exact Hw|]. apply Hall. vm_compute. right. left.
Defined.

Example demo_repair :
  (fun j => (j.(Job_Kind), j.(Job_Target), j.(Job_Affinity))) <$>
    range_vals (ScheduleDistributedRepair config "a" "obj" 0%nat store).1.2.(Sql.jobs)
  = [("replicate-cas", "repairshard:obj:1@a", "b"); ("repair-object", "repair:obj@a", "a")].
Proof. vm_compute. reflexivity. Qed.
End RepairDemo.

End Repair.
