(* ===== verification/Reconciler.v ===== *)
(** * The whole reconciler

    Models [ReplicationReconciler.Reconcile] of
    [internal/controlplane/replication.go] from end to end: the generations first,
    then the objects, the erasure-coded shards and the storage maintenance, each
    part reading the store that the one before it left.  The local key and the
    probe of the local disk are taken twice, once by each part that includes the
    local worker. *)

From Stdlib Require Import Ascii String.
From S2P Require Import Prelude GoStd Json Sha256 Model Payloads QueueSpec SqlStore Config Control StorageHealth Requests Placement CasReconcile Replication Erasure Maintenance.
#[global] Open Scope Z_scope.

Module Reconciler.
Import StorageHealth Placement.

Section Reconcile.
Context {MO : MapOrder} {S : Type} `{!Store S} {E : Env}.
Context (cfg : Config).
Local Notation rcfg := cfg.(cfg_Replication).
Local Notation scfg := cfg.(cfg_Storage).

Definition when (b : bool) (p : Prog S Z) : Prog S Z := if b then p else mret 0.

Definition Reconcile (key1 key2 : result string) (disk1 disk2 : disk_answers) : Prog S Z :=
  if negb rcfg.(rep_Enabled) then mret 0
  else
    and_then
      (and_then
        (and_then (Replication.reconcile_generations cfg key1 disk1)
           (when (0 <? scfg.(sd_ObjectReplicationFactor)) (CasReconcile.Reconcile cfg)))
        (when (scfg.(sd_Erasure).(er_Enabled) && scfg.(sd_Erasure).(er_Distributed))
           (Erasure.Reconcile cfg key2 disk2)))
      (when scfg.(sd_Enabled) (Maintenance.Reconcile cfg)).

Context `{!QueueStore S}.

(** Why a job may be filed: a copy of a generation to a fit agent that lacks it, the
    objects of a divergent agent of the pool, protection or a copy of a shard, or
    maintenance that is due. *)
Inductive asked_for (agents : list Agent) (gens : list Generation) (sets : list ErasureSet) (s0 : S)
    (pub : string) (disk1 : disk_answers) (key2 : result string) (disk2 : disk_answers) (j : Job)
    : Prop :=
| asked_generation now g reps x tid :
    g ∈ gens → st_ListReplicas g.(Gen_ID) s0 = Ok reps →
    let f := Replication.fleet_of cfg now agents (Replication.local_of cfg now pub disk1) in
    Replication.safe_placement cfg f reps x → j = Replication.replicate_job cfg now f g tid x →
    asked_for agents gens sets s0 pub disk1 key2 disk2 j
| asked_objects now :
    CasReconcile.wanted_job cfg now agents j → asked_for agents gens sets s0 pub disk1 key2 disk2 j
| asked_protection now node :
    is_Some (Erasure.readable_nodes cfg now agents (Erasure.local_node cfg now key2 disk2) !! node) →
    j = Erasure.protect_job cfg now node → asked_for agents gens sets s0 pub disk1 key2 disk2 j
| asked_shard now set shards mv tid :
    set ∈ sets → st_ListErasureShards set.(ESet_ObjectSHA256) s0 = Ok shards →
    let readable := Erasure.readable_nodes cfg now agents (Erasure.local_node cfg now key2 disk2) in
    let eligible := Erasure.eligible_nodes cfg now agents (Erasure.local_node cfg now key2 disk2) in
    Erasure.move_ok cfg readable eligible shards mv → j = Erasure.move_job cfg now eligible tid mv →
    asked_for agents gens sets s0 pub disk1 key2 disk2 j
| asked_maintenance now s jobs node :
    grows s0 s → st_ListJobs 50000 s = Ok jobs →
    node ∈ Maintenance.affinities cfg agents → Maintenance.due_on cfg now jobs node j →
    asked_for agents gens sets s0 pub disk1 key2 disk2 j.

Context (max_attempts_ok : 0 ≤ cfg.(cfg_Workers).(w_MaxAttempts) ≤ max_int64).
Context (tokens_fresh : distinct_tokens) (clock_pos : ∀ k, 0 < clock k).
Context (pub : string) (key2 : result string) (disk1 disk2 : disk_answers).
Context (s0 : S) (agents : list Agent) (gens : list Generation) (sets : list ErasureSet).
Context (agents_named : "" ∉ Agent_ID <$> agents).
Context (agents_read : st_ListAgents s0 = Ok agents) (agents_good : Replication.agents_ok agents).
Context (gens_read : st_ListAllGenerations 20000 s0 = Ok gens).
Context (replicas_read : ∀ g, g ∈ gens → is_ok (st_ListReplicas g.(Gen_ID) s0) = true).
Context (sets_read : st_ListErasureSets 20000 s0 = Ok sets).
Context (shards_read : ∀ set, set ∈ sets → ∃ shards,
  st_ListErasureShards set.(ESet_ObjectSHA256) s0 = Ok shards ∧
  ∀ sh, sh ∈ shards → sh.(Shard_ShardSHA256) ≠ "").

Local Notation asked := (asked_for agents gens sets s0 pub disk1 key2 disk2).

(** What each part has achieved in the store [s'] when it ran at the state [s]. *)
Definition generations_placed (now : Time) (s' : S) : Prop :=
  let f := Replication.fleet_of cfg now agents (Replication.local_of cfg now pub disk1) in
  ∀ g reps x, g ∈ gens → st_ListReplicas g.(Gen_ID) s0 = Ok reps → x ∈ Replication.placements cfg f reps →
    ∃ id j, qs_jobs s' !! id = Some j ∧ Replication.placing j = true ∧
      j.(Job_Target) = Replication.job_target g x.2.

Definition objects_copied (i : nat) (s s' : S) : Prop :=
  scfg.(sd_Enabled) = true → scfg.(sd_InventoryEnabled) = true →
  0 < scfg.(sd_ObjectReplicationFactor) → ∀ jobs a b x y,
  st_ListJobs 20000 s = Ok jobs → CasReconcile.wanted cfg (clock i) agents a b x y →
  let key := CasReconcile.target_key a.(Agent_ID) b.(Agent_ID) x y in
  CasReconcile.blocked cfg (clock i) (CasReconcile.known_jobs jobs !! key) = true ∨
  CasReconcile.transferring key s'.

Definition shards_protected (i : nat) (s s' : S) : Prop :=
  scfg.(sd_Erasure).(er_Enabled) = true → scfg.(sd_Erasure).(er_Distributed) = true → ∀ jobs,
  st_ListJobs 50000 s = Ok jobs →
  let local := Erasure.local_node cfg (clock i) key2 disk2 in
  Erasure.all_protected cfg (clock i) (Erasure.readable_nodes cfg (clock i) agents local)
    (Erasure.eligible_nodes cfg (clock i) agents local) sets s jobs s'.

Definition nodes_maintained (i : nat) (s s' : S) : Prop :=
  scfg.(sd_Enabled) = true → ∀ jobs a j,
  st_ListJobs 50000 s = Ok jobs → a ∈ Maintenance.affinities cfg agents →
  Maintenance.due_on cfg (clock i) jobs a j → active_key (a_key (ajob_of j)) (qs_jobs s').

(** A part that is switched on or off. *)
Lemma ran_when b p (D : S → Prop) i s :
  qs_wf s → unused_tokens i s →
  (b = true → ∃ i' s' n, ran asked p i s i' s' n ∧ D s') → (b = false → D s) →
  ∃ i' s' n, ran asked (when b p) i s i' s' n ∧ D s'.
Proof. intros Hw Hu Ht Hf. destruct b; [by apply Ht|]. exists i, s, 0. split; [by apply ran_ret|by apply Hf]. Qed.

Lemma agents_read_later s : grows s0 s → st_ListAgents s = Ok agents.
Proof. intros [F _]. by rewrite (qs_agents _ _ F). Qed.

Lemma generations_ran i :
  rcfg.(rep_Enabled) = true → qs_wf s0 → unused_tokens i s0 →
  ∃ now i' s' n, ran asked (Replication.reconcile_generations cfg (Ok pub) disk1) i s0 i' s' n ∧
    generations_placed now s'.
Proof.
  intros Hen Hwf Hun.
  destruct (Replication.reconcile_run cfg max_attempts_ok tokens_fresh pub disk1 i s0 agents gens
    Hen Hwf Hun agents_read agents_good gens_read replicas_read)
    as (now & i' & s' & n & Er & Hw & Hu & Hg & Hc & Hnew & Hall).
  exists now, i', s', n. split; [|exact Hall]. split; try done. intros id y Hy Hn.
  destruct (Hnew id y Hy Hn) as (g & reps & x & tid & Hg' & Hr & Hs & Hrow).
  eexists. split; [|exact Hrow]. by eapply asked_generation.
Qed.

Lemma objects_ran i s :
  grows s0 s → qs_wf s → unused_tokens i s →
  ∃ i' s' n, ran asked (when (0 <? scfg.(sd_ObjectReplicationFactor)) (CasReconcile.Reconcile cfg)) i s i' s' n ∧
    objects_copied i s s'.
Proof.
  intros Hg Hw Hu. apply (ran_when _ _ (objects_copied i s)); [done..| |].
  2: { intros Hfac%Z.ltb_ge Hen Hinv ?. lia. }
  intros Hfac%Z.ltb_lt. unfold objects_copied.
  destruct (scfg.(sd_Enabled)) eqn:Hen, (scfg.(sd_InventoryEnabled)) eqn:Hinv.
  2-4: exists i, s, 0; split; [|done];
       replace (CasReconcile.Reconcile cfg) with (mret 0 : Prog S Z); [by apply ran_ret|];
       unfold CasReconcile.Reconcile; by rewrite Hen, ?Hinv.
  destruct (qs_listed 20000 s) as (jobs & Hj & _).
  destruct (CasReconcile.cas_run cfg i s agents jobs Hen Hinv Hfac max_attempts_ok tokens_fresh Hw Hu
    (agents_read_later s Hg)) as (i' & s' & n & reqs & Er & Hf & Hgr & Hr & Hall); [apply agents_good|done|].
  exists i', s', n. split.
  - eapply ran_filed; [done..|]. intros j Hjr. eapply asked_objects. by apply Hr.
  - intros _ _ _ jobs' a b x y Hj'. rewrite Hj in Hj'. injection Hj' as <-. apply Hall.
Qed.

Lemma shards_ran i s :
  grows s0 s → qs_wf s → unused_tokens i s →
  ∃ i' s' n, ran asked (when (scfg.(sd_Erasure).(er_Enabled) && scfg.(sd_Erasure).(er_Distributed))
      (Erasure.Reconcile cfg key2 disk2)) i s i' s' n ∧ shards_protected i s s'.
Proof.
  intros Hg Hw Hu. apply (ran_when _ _ (shards_protected i s)); [done..| |].
  2: { intros E1 E2 E3. by rewrite E2, E3 in E1. }
  intros [Hen Hdi]%andb_true_iff. pose proof Hg as [Hfr0 _].
  destruct (Erasure.erasure_run cfg key2 disk2 i s agents sets max_attempts_ok tokens_fresh Hen Hdi
    clock_pos Hw Hu (agents_read_later s Hg)) as (i' & s' & n & jobs & Er & [_ (reqs & Hf & Hr)] & Hgr & Hj & Hall).
  - done.
  - by rewrite (qs_sets _ _ _ Hfr0).
  - intros set Hset. destruct (shards_read set Hset) as (shards & Hsh & ?). exists shards.
    by rewrite (qs_shards _ _ _ Hfr0).
  - exists i', s', n. split; [|intros _ _ jobs' Hj'; rewrite Hj in Hj'; by injection Hj' as <-].
    eapply ran_filed; [done..|]. intros j Hjr.
    destruct (Hr j Hjr) as [(node & Hnode & ->)|(set & shards & mv & k & Hset & Hsh & _ & Hmv & _ & -> & _)].
    + by eapply asked_protection.
    + rewrite (qs_shards _ _ _ Hfr0) in Hsh. by eapply asked_shard.
Qed.

Lemma maintenance_ran i s :
  grows s0 s → qs_wf s → unused_tokens i s →
  ∃ i' s' n, ran asked (when scfg.(sd_Enabled) (Maintenance.Reconcile cfg)) i s i' s' n ∧ nodes_maintained i s s'.
Proof.
  intros Hg Hw Hu. apply (ran_when _ _ (nodes_maintained i s)); [done..| |].
  2: { intros E1 E2. by rewrite E2 in E1. }
  intros Hen. destruct (qs_listed 50000 s) as (jobs & Hj & _).
  destruct (Maintenance.maintenance_run cfg max_attempts_ok tokens_fresh i s agents jobs Hen
    (agents_read_later s Hg) Hj s) as (i' & s' & n & Er & (reqs & Hf & Hr) & Hgr & Hall).
  { exists []. split; [|by intros j ?%not_elem_of_nil].
    eapply filed_later, filed_start; [|done|exact Hu]. lia. }
  exists i', s', n. split.
  - eapply ran_filed; [done..|]. intros j Hjr.
    destruct (Hr j Hjr) as (a & Ha & Hd). by eapply asked_maintenance.
  - intros _ jobs' a j Hj' Ha Hd. rewrite Hj in Hj'. injection Hj' as <-. by eapply Hall.
Qed.

(** What was achieved stays achieved while the later parts run. *)
Lemma generations_placed_grows now s s' : grows s s' → generations_placed now s → generations_placed now s'.
Proof.
  intros [_ G] H g reps x Hg Hr Hx. destruct (H g reps x Hg Hr Hx) as (id & j & Hj & ?).
  exists id, j. split; [by apply G|done].
Qed.

Lemma objects_copied_grows i s s1 s2 : grows s1 s2 → objects_copied i s s1 → objects_copied i s s2.
Proof.
  intros [_ G] H He Hi Hf jobs a b x y Hj Hw. destruct (H He Hi Hf jobs a b x y Hj Hw) as [?|[src Hs]]; [by left|].
  right. exists src. by eapply active_key_mono.
Qed.

Lemma shards_protected_grows i s s1 s2 : grows s1 s2 → shards_protected i s s1 → shards_protected i s s2.
Proof. intros G H He Hd jobs Hj. by eapply Erasure.all_protected_grows; [by apply H|]. Qed.
End Reconcile.

(** C31. The whole reconciler composes: with the store's tables readable and its
    agents well named, a run succeeds, loses no job, counts exactly what it adds, and
    adds only jobs that one of the parts asks for, judged by the agents, generations
    and shards of the store it began with.  It runs the parts that are switched on in
    order, generations, objects, shards and maintenance, each on the store that the one
    before it left, and the final store has what each of them is for: every copy of a
    generation that is planned has an active job, every object that is wanted is being
    transferred or was held back by an earlier job, every readable node protects its
    shards and every shard that can be had is on its way, and every maintenance that
    is due is active.  When replication is switched off, nothing runs. *)
Theorem reconcile_composes {MO : MapOrder} {S} `{!Store S} `{!QueueStore S} {E : Env} (cfg : Config)
    pub key2 disk1 disk2 i s agents gens sets :
  0 ≤ cfg.(cfg_Workers).(w_MaxAttempts) ≤ max_int64 → distinct_tokens → (∀ k, 0 < clock k) →
  qs_wf s → unused_tokens i s →
  st_ListAgents s = Ok agents → Replication.agents_ok agents → "" ∉ Agent_ID <$> agents →
  st_ListAllGenerations 20000 s = Ok gens →
  (∀ g, g ∈ gens → is_ok (st_ListReplicas g.(Gen_ID) s) = true) →
  st_ListErasureSets 20000 s = Ok sets →
  (∀ set, set ∈ sets → ∃ shards, st_ListErasureShards set.(ESet_ObjectSHA256) s = Ok shards ∧
     ∀ sh, sh ∈ shards → sh.(Shard_ShardSHA256) ≠ "") →
  ∃ i' s' n, Reconcile cfg (Ok pub) key2 disk1 disk2 i s = (i', s', Ok n) ∧ qs_wf s' ∧
    (∀ id j, qs_jobs s !! id = Some j → qs_jobs s' !! id = Some j) ∧
    Z.of_nat (size (qs_jobs s')) = Z.of_nat (size (qs_jobs s)) + n ∧
    (∀ id y, qs_jobs s' !! id = Some y → qs_jobs s !! id = None →
      ∃ j, asked_for cfg agents gens sets s pub disk1 key2 disk2 j ∧ row_of j y) ∧
    if cfg.(cfg_Replication).(rep_Enabled) then
      ∃ now i1 s1 n1 i2 s2 n2 i3 s3 n3 n4, n = n1 + n2 + n3 + n4 ∧
        Replication.reconcile_generations cfg (Ok pub) disk1 i s = (i1, s1, Ok n1) ∧
        when (0 <? cfg.(cfg_Storage).(sd_ObjectReplicationFactor)) (CasReconcile.Reconcile cfg)
          i1 s1 = (i2, s2, Ok n2) ∧
        when (cfg.(cfg_Storage).(sd_Erasure).(er_Enabled) && cfg.(cfg_Storage).(sd_Erasure).(er_Distributed))
          (Erasure.Reconcile cfg key2 disk2) i2 s2 = (i3, s3, Ok n3) ∧
        when cfg.(cfg_Storage).(sd_Enabled) (Maintenance.Reconcile cfg) i3 s3 = (i', s', Ok n4) ∧
        generations_placed cfg pub disk1 s agents gens now s' ∧ objects_copied cfg agents i1 s1 s' ∧
        shards_protected cfg key2 disk2 agents sets i2 s2 s' ∧ nodes_maintained cfg agents i3 s3 s'
    else i' = i ∧ s' = s ∧ n = 0.
Proof.
  intros Hmax Htok Hclk Hwf Hun Hag Hgood Hnamed Hgens Hreps Hsets Hsh. unfold Reconcile.
  destruct (rep_Enabled _) eqn:Hen; [|exists i, s, 0; split_and!; try done; [lia|congruence]].
  change (negb true) with false. cbv iota.
  destruct (generations_ran cfg Hmax Htok pub key2 disk1 disk2 s agents gens sets Hag Hgood Hgens Hreps
    i Hen Hwf Hun) as (now & i1 & s1 & n1 & R1 & D1).
  destruct (objects_ran cfg Hmax Htok pub key2 disk1 disk2 s agents gens sets Hag Hgood i1 s1)
    as (i2 & s2 & n2 & R2 & D2); [apply R1..|].
  pose proof (transitivity (ran_grows R1) (ran_grows R2)) as G2.
  destruct (shards_ran cfg Hmax Htok Hclk pub key2 disk1 disk2 s agents gens sets Hnamed Hag Hsets Hsh i2 s2)
    as (i3 & s3 & n3 & R3 & D3); [done|apply R2..|].
  pose proof (ran_grows R3) as G3.
  destruct (maintenance_ran cfg Hmax Htok pub key2 disk1 disk2 s agents gens sets Hag i3 s3)
    as (i4 & s4 & n4 & R4 & D4); [by etrans|apply R3..|].
  pose proof (ran_grows R4) as G4.
  destruct (ran_and_then _ _ _ _ _ _ _ _ _ _ _
    (ran_and_then _ _ _ _ _ _ _ _ _ _ _
      (ran_and_then _ _ _ _ _ _ _ _ _ _ _ R1 R2) R3) R4) as [Er Hw _ [_ Hk] Hc Hn].
  exists i4, s4, (n1 + n2 + n3 + n4). split_and!; try done.
  exists now, i1, s1, n1, i2, s2, n2, i3, s3, n3, n4.
  split_and!; [done|apply R1|apply R2|apply R3|apply R4| | | |done].
  - eapply generations_placed_grows, D1. etrans; [|exact G4]. etrans; [|exact G3]. apply R2.
  - eapply objects_copied_grows, D2. by etrans.
  - by eapply shards_protected_grows.
Qed.

Module ReconcilerDemo.
Definition config : Config :=
  Replication.Demo.config <| cfg_Storage := Erasure.ErasureDemo.config.(cfg_Storage)
    <| sd_Scrub := mkScrubConfig true "1h" 10 false "" |> |>.
Definition store : Sql.SQLStore :=
  Replication.Demo.store <| Sql.erasure_sets := Erasure.ErasureDemo.store.(Sql.erasure_sets) |>
    <| Sql.erasure_shards := Erasure.ErasureDemo.store.(Sql.erasure_shards) |>.
Definition no_disk : disk_answers := Replication.Demo.no_disk.

#[local] Existing Instance tick_env.

Lemma reconcile_composes_witness :
  ∃ i' s' n, Reconcile config (Ok "") (Ok "") no_disk no_disk 0%nat store = (i', s', Ok n) ∧
    qs_wf s' ∧ Z.of_nat (size s'.(Sql.jobs)) = n.
Proof.
  destruct (reconcile_composes config "" (Ok "") no_disk no_disk 0%nat store
    Replication.Demo.agents [Replication.Demo.gen] [Erasure.ErasureDemo.eset])
    as (i' & s' & n & Hrun & Hw & _ & Hn & _).
  - split; done.
  - exact tick_tokens_inj.
  - intros k. simpl. unfold Second. lia.
  - apply jobs_wf_empty.
  - done.
  - vm_compute. reflexivity.
  - apply Replication.Demo.agents_are_ok.
  - apply (bool_decide_unpack _). vm_compute. reflexivity.
  - vm_compute. reflexivity.
  - intros g ->%list_elem_of_singleton. vm_compute. reflexivity.
  - vm_compute. reflexivity.
  - intros set ->%list_elem_of_singleton. exists [Erasure.ErasureDemo.shard].
    split; [vm_compute; reflexivity|]. by intros sh ->%list_elem_of_singleton.
  - exists i', s', n. split_and!; [exact Hrun|exact Hw|exact Hn].
Defined.

Example demo_kinds :
  Job_Kind <$> range_vals (Reconcile config (Ok "") (Ok "") no_disk no_disk 0%nat store).1.2.(Sql.jobs)
  = ["protect-erasure"; "replicate-generation"; "protect-erasure"; "scrub-cas"; "replicate-cas";
     "scrub-cas"; "scrub-cas"; "scrub-cas"; "replicate-cas"; "protect-erasure"].
Proof. vm_compute. reflexivity. Qed.
End ReconcilerDemo.
End Reconciler.
