(* ===== verification/AgentServer.v ===== *)
(** * The agent server ([internal/controlplane/agent_server.go], transfer_meta.go)

    The HTTPS endpoints through which remote agents lease jobs, report what
    they did and relay encrypted transfers.  A handler is a program over the
    store and the spool directory that ends in a response; [http.Error] and
    [return] end it early.  Request bodies are given decoded, the way the other
    JSON texts are: [None] is a body that [Decode] rejects.  File system calls
    may fail at any time ([Faults]); a panic is caught by net/http, which drops
    the connection ([Aborted]) and keeps what was written. *)

From Stdlib Require Import Ascii String QArith.
From stdpp Require Import pretty.
From S2P Require Import Prelude GoStd Json Sha256 Model Payloads MemStore SqlStore Config Control StorageHealth Requests Placement Replication Erasure Repair.
#[global] Open Scope Z_scope.

(** ** What the server needs of the store beyond [Control.Store] *)

Class AgentStore (S : Type) := {
  as_GetJob : string → S → result Job;
  as_Lease : Time → string → Z → Duration → S → S * result (list Job);
  as_Complete : Time → Time → string → string → S → S * result unit;
  as_Fail : Time → string → string → string → Duration → S → S * result unit;
  as_RecordGeneration : Generation → S → S * result unit;
  as_PruneGenerationRecords : string → Z → S → S * outcome (result unit);
  as_MarkBackupResult : Time → string → bool → string → Time → S → S * result unit;
  as_RecordReplica : Time → GenerationReplica → S → S * result unit;
  as_HeartbeatAgent : Time → Agent → S → S * result unit;
  as_GetAgent : string → S → result Agent;
  as_EnsureObjectRef : Time → Time → ObjectRef → string → S → S * result bool;
  as_AdjustObjectRef : Time → ObjectRef → Z → S → S * result ObjectRef;
  as_RecordReplicationTransfer : Time → ReplicationTransfer → S → S * result unit;
  as_GetReplicationTransfer : string → S → result ReplicationTransfer
}.

#[export] Instance mem_agent_store {MO : MapOrder} : AgentStore Mem.MemoryStore := {
  as_GetJob := Mem.GetJob;
  as_Lease now owner limit lease m :=
    let '(m', js) := Mem.Lease now owner limit lease m in (m', Ok js);
  as_Complete := Mem.Complete;
  as_Fail := Mem.Fail;
  as_RecordGeneration g m := no_error (Mem.RecordGeneration g m);
  as_PruneGenerationRecords rid keep m := (Mem.PruneGenerationRecords rid keep m, Returns (Ok tt));
  as_MarkBackupResult now id ok gid at_ m := no_error (Mem.MarkBackupResult now id ok gid at_ m);
  as_RecordReplica now r m := no_error (Mem.RecordReplica now r m);
  as_HeartbeatAgent now a m := no_error (Mem.HeartbeatAgent now a m);
  as_GetAgent := Mem.GetAgent;
  as_EnsureObjectRef _ := Mem.EnsureObjectRef;
  as_AdjustObjectRef := Mem.AdjustObjectRef;
  as_RecordReplicationTransfer := Mem.RecordReplicationTransfer;
  as_GetReplicationTransfer := Mem.GetReplicationTransfer
}.

#[export] Instance sql_agent_store {MO : MapOrder} : AgentStore Sql.SQLStore := {
  as_GetJob := Sql.GetJob;
  as_Lease := Sql.Lease;
  as_Complete _ := Sql.Complete;
  as_Fail := Sql.Fail;
  as_RecordGeneration := Sql.RecordGeneration;
  as_PruneGenerationRecords := Sql.PruneGenerationRecords;
  as_MarkBackupResult now id ok gid at_ s := no_error (Sql.MarkBackupResult now id ok gid at_ s);
  as_RecordReplica := Sql.RecordReplica;
  as_HeartbeatAgent now a s := no_error (Sql.HeartbeatAgent now a s);
  as_GetAgent := Sql.GetAgent;
  as_EnsureObjectRef := Sql.EnsureObjectRef;
  as_AdjustObjectRef := Sql.AdjustObjectRef;
  as_RecordReplicationTransfer := Sql.RecordReplicationTransfer;
  as_GetReplicationTransfer := Sql.GetReplicationTransfer
}.

Module AgentServer.
Import Placement.

(** ** The server, its requests and its responses *)

(** [ags_KeepPerRepo] is [Generations.KeepPerRepo]. *)
Record AgentServer := mkAgentServer {
  ags_Worker : WorkerConfig;
  ags_KeepPerRepo : Z;
  ags_Replication : ReplicationConfig;
  ags_Storage : StorageDataConfig
}.

(** The files of the spool directory, by name. *)
Record Server (S : Type) := mkServer { sv_store : S; sv_spool : gmap string string }.
Arguments mkServer {S}. Arguments sv_store {S}. Arguments sv_spool {S}.

(** What the verified client certificate says. *)
Record Certificate := mkCertificate {
  cert_DNSNames : list string;
  cert_CommonName : string;
  cert_Subject : string
}.

(** [rq_data] is what the raw body delivers, [rq_broken] the error it ends with. *)
Record Request := mkRequest {
  rq_cert : option Certificate;
  rq_id : string;
  rq_transfer : string;
  rq_offset : string;
  rq_chunk_sha : string;
  rq_data : string;
  rq_broken : option string
}.

Inductive Body :=
| Empty
| Text (s : string)
| JSON (t : json_text)
| JobsBody (js : list Job)
| ChildBody (j : Job) (created : bool)
| RefBody (r : ObjectRef)
| Blob (content : string).

Inductive Response :=
| Answer (status : Z) (headers : list (string * string)) (body : Body)
| Aborted (e : string).

Definition http_error (status : Z) (msg : string) : Response := Answer status [] (Text msg).
Definition writeJSON (status : Z) (v : json) : Response := Answer status [] (JSON (Json v)).
Definition ok_true : Response := writeJSON 200 (JObj [("ok", JBool true)]).

(** ** Handlers *)

(** Whether the file system call made at this point fails, and how. *)
Class Faults := { fault : nat → option string }.

Section Handlers.
Context {S : Type} `{!Store S} `{!AgentStore S} {E : Env} {F : Faults}.

Definition Handler (A : Type) : Type := nat → Server S → nat * Server S * (Response + A).

#[export] Instance handler_ret : MRet Handler := fun A a i s => (i, s, inr a).
#[export] Instance handler_bind : MBind Handler := fun A B f p i s =>
  match p i s with
  | (i', s', inr a) => f a i' s'
  | (i', s', inl r) => (i', s', inl r)
  end.

(** [http.Error(w, ...); return] and the final [writeJSON]. *)
Definition respond {A} (r : Response) : Handler A := fun i s => (i, s, inl r).

(** A program on the store; its error is a value of the handler. *)
Definition call {A} (p : Prog S A) : Handler (result A) := fun i s =>
  match p i s.(sv_store) with
  | (i', st, r) => (i', mkServer st s.(sv_spool), inr r)
  end.

(** A call that may panic. *)
Definition call_panic {A} (f : S → S * outcome (result A)) : Handler (result A) := fun i s =>
  match f s.(sv_store) with
  | (st, Returns r) => (i, mkServer st s.(sv_spool), inr r)
  | (st, Panics e) => (i, mkServer st s.(sv_spool), inl (Aborted e))
  end.

(** [time.Now] *)
Definition hnow : Handler Time := fun i s => (Datatypes.S i, s, inr (clock i)).

(** A call on the spool directory. *)
Definition file {A} (f : gmap string string → gmap string string * result A) : Handler (result A) :=
  fun i s =>
    match fault i with
    | Some e => (Datatypes.S i, s, inr (Err e))
    | None => let '(fs, r) := f s.(sv_spool) in (Datatypes.S i, mkServer s.(sv_store) fs, inr r)
    end.

(** [if err != nil { http.Error(w, err.Error(), status); return }] *)
Definition or_fail {A} (status : Z) (p : Handler (result A)) : Handler A :=
  r ← p; match r with Ok a => mret a | Err e => respond (http_error status e) end.

(** [if !ok { http.Error(w, msg, status); return }] *)
Definition require (ok : bool) (status : Z) (msg : string) : Handler unit :=
  if ok then mret tt else respond (http_error status msg).

(** [if err := json...; err != nil { http.Error(w, msg, status); return }] *)
Definition decoded {A} (o : option A) (status : Z) (msg : string) : Handler A :=
  match o with Some a => mret a | None => respond (http_error status msg) end.
End Handlers.
Arguments Handler S A : clear implicits.

(** ** Identity *)

Definition agentIdentity (r : Request) : string :=
  match r.(rq_cert) with
  | None => ""
  | Some c =>
      match c.(cert_DNSNames) with
      | d :: _ => if TrimSpace d ≟ "" then TrimSpace c.(cert_CommonName) else TrimSpace d
      | [] => TrimSpace c.(cert_CommonName)
      end
  end.

(** [retryDelay] (worker.go): 2^attempt seconds, at least 2 and at most 900. *)
Definition retryDelay (attempt : Z) : Duration :=
  let attempt := if attempt <? 1 then 1 else attempt in
  (if attempt <? 10 then 2 ^ attempt else 900) * Second.

(** [strconv.ParseInt(s, 10, 64)] *)
Definition ParseInt (s : string) : option Z :=
  let l := String.list_ascii_of_string s in
  let '(neg, l) :=
    match l with
    | c :: l' => if c ≟ "-"%char then (true, l') else if c ≟ "+"%char then (false, l') else (false, l)
    | [] => (false, l)
    end in
  let '(v, n) := digits_value 0 0 l in
  let v := if neg then - v else v in
  if (n =? 0)%nat || negb (n =? length l)%nat then None
  else if (min_int64 <=? v) && (v <=? max_int64) then Some v else None.

(** [strings.TrimLeft(strings.ReplaceAll(s, "\\", "/"), "/")] *)
Fixpoint drop_slashes (l : list ascii) : list ascii :=
  match l with
  | c :: l' => if c ≟ "/"%char then drop_slashes l' else l
  | [] => []
  end.

Definition slash_path (s : string) : string :=
  String.string_of_list_ascii (drop_slashes
    ((fun c => if c ≟ "\"%char then "/"%char else c) <$> String.list_ascii_of_string s)).

Definition slen (s : string) : Z := Z.of_nat (String.length s).

(** [s[:n]] for [n] at most the length. *)
Definition prefix_of (n : Z) (s : string) : string := String.substring 0 (Z.to_nat n) s.

(** What [io.Copy] gets out of [io.LimitReader(r.Body, limit)], and its error. *)
Definition body_read (limit : Z) (r : Request) : string * option string :=
  if slen r.(rq_data) <? limit then (r.(rq_data), r.(rq_broken))
  else (prefix_of limit r.(rq_data), None).

(** Writing [data] through a descriptor at offset 0 of a file with [old] in it. *)
Definition overwrite (data old : string) : string :=
  data +:+ String.substring (String.length data) (String.length old - String.length data) old.

Definition truncate (n : Z) (content : string) : string :=
  if slen content <=? n then content else prefix_of n content.

(** ** The bodies of requests that are no records of the data model *)

Record agentHeartbeatRequest := mkHeartbeat {
  hb_Labels : option (gmap string string);
  hb_ReplicationPublicKey : string;
  hb_StorageHealth : string;
  hb_StorageTotalBytes : Z;
  hb_StorageFreeBytes : Z;
  hb_StorageFreePercent : Q;
  hb_StorageProbeMS : Z;
  hb_StorageError : string;
  hb_DiskRiskScore : Z;
  hb_DiskModel : string;
  hb_DiskSerial : string;
  hb_DiskTemperatureC : Q;
  hb_DiskPercentageUsed : Q;
  hb_DiskMediaErrors : Z;
  hb_DiskCriticalWarning : Z;
  hb_InventoryRoot : string;
  hb_InventoryObjects : Z;
  hb_InventoryBytes : Z;
  hb_InventoryJSON : json_text
}.

Record backupResultRequest := mkBackupResult {
  br_RepositoryID : string;
  br_OK : bool;
  br_GenerationID : string;
  br_At : Time
}.

Record agentObjectRefRequest := mkObjectRefRequest {
  orq_Ref : ObjectRef;
  orq_Delta : Z;
  orq_Owner : string;
  orq_Ensure : bool
}.

Record replicationFinalizeRequest := mkFinalize { fin_SHA256 : string; fin_Bytes : Z }.

(** The transfer a replication job is the source of (transfer_meta.go). *)
Record transferSourceMeta := mkSourceMeta {
  tm_Kind : string;
  tm_TransferID : string;
  tm_SourceAgent : string;
  tm_TargetAgent : string;
  tm_TargetReplicationPubKey : string;
  tm_GenerationID : string;
  tm_RepositoryID : string;
  tm_Repository : string;
  tm_CAS : option replicateCASPayload
}.

Definition cas_generation (source target : string) : string :=
  "cas:" +:+ source +:+ ">" +:+ target.

Definition decodeTransferSourceJob (j : Job) (agent transfer : string) : result transferSourceMeta :=
  if j.(Job_Kind) ≟ "replicate-generation" then
    match unmarshal_replicate j.(Job_Payload) with
    | None => Err "invalid replication job"
    | Some p =>
        if (transfer ≟ "") || (transfer ≠? p.(rp_TransferID)) || (p.(rp_SourceAgent) ≠? agent)
        then Err "replication transfer identity mismatch"
        else Ok (mkSourceMeta j.(Job_Kind) p.(rp_TransferID) p.(rp_SourceAgent) p.(rp_TargetAgent)
                   p.(rp_TargetReplicationPubKey) p.(rp_GenerationID) p.(rp_RepositoryID)
                   p.(rp_Repository) None)
    end
  else if j.(Job_Kind) ≟ "replicate-cas" then
    match unmarshal_replicate_cas j.(Job_Payload) with
    | None => Err "invalid CAS replication job"
    | Some p =>
        if (transfer ≟ "") || (transfer ≠? p.(rc_TransferID)) || (p.(rc_SourceAgent) ≠? agent)
        then Err "CAS transfer identity mismatch"
        else Ok (mkSourceMeta j.(Job_Kind) p.(rc_TransferID) p.(rc_SourceAgent) p.(rc_TargetAgent)
                   p.(rc_TargetReplicationPubKey) (cas_generation p.(rc_SourceAgent) p.(rc_TargetAgent))
                   "__cas__" "" (Some p))
    end
  else Err "job is not a replication source".

(** ** The handlers *)

Section Endpoints.
Context {MO : MapOrder} {S : Type} `{!Store S} `{!AgentStore S} {E : Env} {F : Faults}.
Context (srv : AgentServer).
(** What [replication.EnsureKey(LocalKeyPath)] answers. *)
Context (local_key : result string).
Local Notation rcfg := srv.(ags_Replication).
Local Notation scfg := srv.(ags_Storage).

(** [j, agent, err := s.authorizeRunningJob(r)] *)
Definition authorizeRunningJob (r : Request) : Handler S (result (Job * string)) :=
  let agent := agentIdentity r in
  if agent ≟ "" then mret (Err "client certificate identity missing")
  else
    j ← call (pread (as_GetJob r.(rq_id)));
    match j with
    | Err e => mret (Err e)
    | Ok j =>
        if (j.(Job_Status) ≠? JobRunning) || (j.(Job_LeaseOwner) ≠? agent)
        then mret (Err "job is not leased by authenticated agent")
        else mret (Ok (j, agent))
    end.

Definition authorized (r : Request) : Handler S (Job * string) := or_fail 403 (authorizeRunningJob r).

Definition write {A} (f : Time → string → S → S * result A) : Handler S (result A) := call (pwrite f).

Definition heartbeat (req : agentHeartbeatRequest) (r : Request) : Handler S Response :=
  let id := agentIdentity r in
  require (id ≠? "") 401 "client certificate identity missing";;
  let a := mkAgent id id (default "" (cert_Subject <$> r.(rq_cert)))
    (match req.(hb_Labels) with Some m => Erasure.labels_json m | None => Json JNull end)
    (TrimSpace req.(hb_ReplicationPublicKey)) "online" req.(hb_StorageHealth)
    req.(hb_StorageTotalBytes) req.(hb_StorageFreeBytes) req.(hb_StorageFreePercent)
    req.(hb_StorageProbeMS) req.(hb_StorageError) req.(hb_DiskRiskScore) req.(hb_DiskModel)
    req.(hb_DiskSerial) req.(hb_DiskTemperatureC) req.(hb_DiskPercentageUsed)
    req.(hb_DiskMediaErrors) req.(hb_DiskCriticalWarning) req.(hb_InventoryRoot)
    req.(hb_InventoryObjects) req.(hb_InventoryBytes) req.(hb_InventoryJSON) time_zero time_zero in
  or_fail 500 (write (fun t _ => as_HeartbeatAgent t a));;
  mret (writeJSON 200 (JObj [("agent", JStr id); ("ok", JBool true)])).

Definition lease (r : Request) : Handler S Response :=
  let id := agentIdentity r in
  require (id ≠? "") 401 "client certificate identity missing";;
  jobs ← or_fail 500 (write (fun t _ =>
    as_Lease t id 1 (duration_or srv.(ags_Worker).(w_Lease) (2 * Minute))));
  mret (Answer 200 [] (JobsBody jobs)).

(** [os.Remove], its error ignored. *)
Definition remove (name : string) : Handler S unit :=
  _ ← file (fun fs => (delete name fs, Ok tt)); mret tt.

(** A store call whose error is ignored. *)
Definition ignore {A} (p : Handler S (result A)) : Handler S unit := _ ← p; mret tt.

Definition complete (r : Request) : Handler S Response :=
  '(j, id) ← authorized r;
  (t1 ← hnow; or_fail 409 (write (fun t2 _ => as_Complete t1 t2 j.(Job_ID) id)));;
  (if j.(Job_Kind) ≟ "install-cas" then
     match unmarshal_install_cas j.(Job_Payload) with
     | Some p =>
         if p.(ic_TransferID) ≟ "" then mret tt
         else
           remove (Replication.replicationSpoolPath p.(ic_TransferID));;
           ignore (write (fun _ _ => st_DeleteReplicationTransfer p.(ic_TransferID)));;
           match p.(ic_Erasure) with
           | Some e =>
               if e.(es_LeaseID) ≟ "" then mret tt
               else ignore (write (fun _ _ => st_ReleaseObjectLease e.(es_LeaseID)))
           | None => mret tt
           end
     | None => mret tt
     end
   else mret tt);;
  mret ok_true.

Definition fail (body : option string) (r : Request) : Handler S Response :=
  '(j, id) ← authorized r;
  e ← decoded body 400 "invalid JSON";
  let e := if 4096 <? slen e then prefix_of 4096 e else e in
  or_fail 409 (write (fun t _ => as_Fail t j.(Job_ID) id e (retryDelay j.(Job_Attempts))));;
  mret ok_true.

Definition requireRepositoryBinding (repositoryID target : string) : Handler S (result unit) :=
  repos ← call (pread st_ListRepositories);
  match repos with
  | Err e => mret (Err e)
  | Ok repos =>
      if existsb (fun repo => (repo.(Repo_ID) ≟ repositoryID) && (repo.(Repo_FullName) ≟ target)) repos
      then mret (Ok tt) else mret (Err "repository id does not match leased job")
  end.

Definition generation (body : option Generation) (r : Request) : Handler S Response :=
  '(j, _) ← authorized r;
  g ← decoded body 400 "invalid JSON";
  require (g.(Gen_Repository) ≟ j.(Job_Target)) 409 "generation repository does not match leased job";;
  or_fail 409 (requireRepositoryBinding g.(Gen_RepositoryID) j.(Job_Target));;
  or_fail 500 (write (fun _ _ => as_RecordGeneration g));;
  (if 0 <? srv.(ags_KeepPerRepo)
   then or_fail 500 (call_panic (as_PruneGenerationRecords g.(Gen_RepositoryID) srv.(ags_KeepPerRepo)))
   else mret tt);;
  mret ok_true.

Definition backupResult (body : option backupResultRequest) (r : Request) : Handler S Response :=
  '(j, _) ← authorized r;
  req ← decoded body 400 "invalid JSON";
  or_fail 409 (requireRepositoryBinding req.(br_RepositoryID) j.(Job_Target));;
  at_ ← if IsZero req.(br_At) then hnow else mret req.(br_At);
  or_fail 500 (write (fun t _ =>
    as_MarkBackupResult t req.(br_RepositoryID) req.(br_OK) req.(br_GenerationID) at_));;
  mret ok_true.

Definition agent_path (agent path : string) : string :=
  if (path ≠? "") && negb (HasPrefix path "agent://")
  then "agent://" +:+ agent +:+ "/" +:+ slash_path path else path.

Definition replica (body : option GenerationReplica) (r : Request) : Handler S Response :=
  '(j, agent) ← authorized r;
  rp ← decoded body 400 "invalid JSON";
  (if j.(Job_Kind) ≟ "backup-repo" then
     or_fail 409 (requireRepositoryBinding rp.(Replica_RepositoryID) j.(Job_Target))
   else if j.(Job_Kind) ≟ "install-replica" then
     p ← decoded (unmarshal_install_replica j.(Job_Payload)) 500 "invalid install job";
     require ((p.(ir_TargetAgent) ≟ agent) && (rp.(Replica_GenerationID) ≟ p.(ir_GenerationID))
              && (rp.(Replica_RepositoryID) ≟ p.(ir_RepositoryID)))
       409 "replica does not match install job"
   else respond (http_error 403 "job kind may not report replicas"));;
  let rp := rp <| Replica_AgentID := agent |>
               <| Replica_MetaPath := agent_path agent rp.(Replica_MetaPath) |> in
  let rp := if rp.(Replica_State) ≟ "" then rp <| Replica_State := ReplicaReady |> else rp in
  rp ← (if IsZero rp.(Replica_VerifiedAt)
        then t ← hnow; mret (rp <| Replica_VerifiedAt := t |>) else mret rp);
  or_fail 500 (write (fun t _ => as_RecordReplica t rp));;
  (if j.(Job_Kind) ≟ "install-replica" then
     let id := match unmarshal_install_replica j.(Job_Payload) with
               | Some p => p.(ir_TransferID) | None => "" end in
     remove (Replication.replicationSpoolPath id);;
     ignore (write (fun _ _ => st_DeleteReplicationTransfer id))
   else mret tt);;
  mret ok_true.

Definition mutates_objects (j : Job) : bool :=
  (j.(Job_Kind) ≟ "install-cas") || (j.(Job_Kind) ≟ "protect-erasure")
  || (j.(Job_Kind) ≟ "repair-object").

Definition objectRef (body : option agentObjectRefRequest) (r : Request) : Handler S Response :=
  '(j, _) ← authorized r;
  require (mutates_objects j) 403 "job may not mutate object refs";;
  req ← decoded body 400 "invalid JSON";
  require ((req.(orq_Ref).(Ref_Digest) ≠? "") && (-1 <=? req.(orq_Delta)) && (req.(orq_Delta) <=? 1))
    400 "invalid object ref mutation";;
  if req.(orq_Ensure) then
    require (TrimSpace req.(orq_Owner) ≠? "") 400 "object ref owner required";;
    t1 ← hnow;
    created ← or_fail 409 (write (fun t2 _ => as_EnsureObjectRef t1 t2 req.(orq_Ref) req.(orq_Owner)));
    mret (writeJSON 200 (JObj [("created", JBool created)]))
  else
    out ← or_fail 409 (write (fun t _ => as_AdjustObjectRef t req.(orq_Ref) req.(orq_Delta)));
    mret (Answer 200 [] (RefBody out)).

Definition erasureSet (body : option ErasureSet) (r : Request) : Handler S Response :=
  '(j, _) ← authorized r;
  require (mutates_objects j) 403 "job may not mutate erasure sets";;
  e ← decoded body 400 "invalid JSON";
  or_fail 409 (write (fun t _ => st_RecordErasureSet t e));;
  mret ok_true.

Definition erasureShard (body : option ErasureShard) (r : Request) : Handler S Response :=
  '(j, id) ← authorized r;
  require (mutates_objects j) 403 "job may not mutate erasure shards";;
  sh ← decoded body 400 "invalid JSON";
  let sh := sh <| Shard_AgentID := id |> in
  a ← call (pread (as_GetAgent id));
  let sh := match a with
            | Ok a => sh <| Shard_FailureDomain :=
                        agentFailureDomain a scfg.(sd_Erasure).(er_FailureDomainLabel) |>
            | Err _ => sh
            end in
  or_fail 409 (write (fun t _ => st_RecordErasureShard t sh));;
  mret ok_true.

(** The configuration [corruptObject] makes up for the repair. *)
Definition repair_config : Config :=
  zero_Config <| cfg_Workers := srv.(ags_Worker) |> <| cfg_Replication := rcfg |>
    <| cfg_Storage := scfg |>.

Definition corruptObject (body : option string) (r : Request) : Handler S Response :=
  '(j, id) ← authorized r;
  require (j.(Job_Kind) ≟ "scrub-cas") 403 "job may not report object corruption";;
  digest ← decoded body 400 "invalid digest";
  require (slen (TrimSpace digest) =? 64) 400 "invalid digest";;
  n ← or_fail 409 (call (Repair.ScheduleDistributedRepair repair_config id
                           (ToLower (TrimSpace digest))));
  mret (writeJSON 200 (JObj [("queued", JInt n)])).

(** ** Transfers *)

(** [s.validateTransferTargetKey] *)
Definition validateTransferTargetKey (target pub : string) : Handler S (result unit) :=
  let stale := Err "target replication key is not current" in
  if target ≟ LocalWorkerAffinity then
    mret (match local_key with
          | Ok k => if k ≟ pub then Ok tt else stale
          | Err _ => stale
          end)
  else
    a ← call (pread (as_GetAgent target));
    mret (match a with
          | Ok a => if (TrimSpace a.(Agent_ReplicationPublicKey) ≟ "")
                       || (a.(Agent_ReplicationPublicKey) ≠? pub) then stale else Ok tt
          | Err _ => stale
          end).

Definition mkdir : Handler S (result unit) := file (fun fs => (fs, Ok tt)).

(** [os.OpenFile(name, O_CREATE|O_WRONLY|O_TRUNC)] *)
Definition create (name : string) : Handler S (result unit) :=
  file (fun fs => (<[name := ""]> fs, Ok tt)).

(** [os.OpenFile(name, O_CREATE|O_RDWR)] *)
Definition open_or_create (name : string) : Handler S (result unit) :=
  file (fun fs => (match fs !! name with Some _ => fs | None => <[name := ""]> fs end, Ok tt)).

Definition content (name : string) (fs : gmap string string) : string := default "" (fs !! name).

Definition update_file (name : string) (f : string → string) : Handler S (result unit) :=
  file (fun fs => (<[name := f (content name fs)]> fs, Ok tt)).

Definition read_file (name : string) : Handler S (result string) :=
  file (fun fs => (fs, match fs !! name with
                       | Some c => Ok c
                       | None => Err ("open " +:+ name +:+ ": no such file or directory")
                       end)).

Definition rename (old new : string) : Handler S (result unit) :=
  file (fun fs => match fs !! old with
                  | Some c => (<[new := c]> (delete old fs), Ok tt)
                  | None => (fs, Err ("rename " +:+ old +:+ ": no such file or directory"))
                  end).

(** [if err := step; err != nil { cleanup; http.Error(w, ..., status); return }] *)
Definition or_undo {A} (status : Z) (cleanup : Handler S unit) (p : Handler S (result A)) : Handler S A :=
  r ← p;
  match r with
  | Ok a => mret a
  | Err e => cleanup;; respond (http_error status e)
  end.

(** [io.Copy] into the file [name]: the bytes that came, or the first error. *)
Definition copy_body (name : string) (place : string → string → string) (limit : Z) (r : Request)
    : Handler S (result string) :=
  let '(data, broken) := body_read limit r in
  w ← update_file name (place data);
  mret (match w, broken with
        | Err e, _ | Ok _, Some e => Err e
        | Ok _, None => Ok data
        end).

(** [install] and [lease] of [replicationUpload] and [enqueueTransferInstall]. *)
Definition install_payload (p : transferSourceMeta) (sha : string) (n : Z) : json_text :=
  if p.(tm_Kind) ≟ "replicate-cas"
  then marshal_install_cas (mkInstallCAS p.(tm_TransferID) p.(tm_SourceAgent) p.(tm_TargetAgent)
         sha n (c ← p.(tm_CAS); c.(rc_Erasure)))
  else marshal_install_replica (mkInstallReplica p.(tm_TransferID) p.(tm_RepositoryID)
         p.(tm_Repository) p.(tm_GenerationID) p.(tm_SourceAgent) p.(tm_TargetAgent) sha n).

Definition transfer_row (p : transferSourceMeta) (spool state sha : string) (n : Z) (now : Time)
    : ReplicationTransfer :=
  zero_ReplicationTransfer <| Transfer_ID := p.(tm_TransferID) |>
    <| Transfer_GenerationID := p.(tm_GenerationID) |>
    <| Transfer_RepositoryID := p.(tm_RepositoryID) |>
    <| Transfer_SourceAgent := p.(tm_SourceAgent) |> <| Transfer_TargetAgent := p.(tm_TargetAgent) |>
    <| Transfer_SpoolPath := spool |> <| Transfer_State := state |> <| Transfer_Bytes := n |>
    <| Transfer_SHA256 := sha |>
    <| Transfer_ExpiresAt := Replication.replicationTransferExpiry repair_config now |>.

Definition install_job (kind target : string) (payload : json_text) (affinity : string)
    (priority : Z) (now : Time) : Job :=
  zero_Job <| Job_Kind := kind |> <| Job_Target := target |> <| Job_Payload := payload |>
    <| Job_Affinity := affinity |> <| Job_Priority := priority |>
    <| Job_MaxAttempts := srv.(ags_Worker).(w_MaxAttempts) |> <| Job_NotBefore := now |>.

Definition enqueue_install (j : Job) : Handler S (result unit) :=
  r ← write (fun t token => st_Enqueue t token j);
  mret (match r with Ok _ => Ok tt | Err e => Err e end).

Definition replicationUpload (r : Request) : Handler S Response :=
  '(j, agent) ← authorized r;
  require (j.(Job_Kind) ≟ "replicate-generation") 403 "job is not replication source";;
  p ← decoded (unmarshal_replicate j.(Job_Payload)) 500 "invalid replication job";
  let transfer := r.(rq_transfer) in
  require ((transfer ≠? "") && (transfer ≟ p.(rp_TransferID)) && (p.(rp_SourceAgent) ≟ agent))
    409 "replication transfer identity mismatch";;
  or_fail 409 (validateTransferTargetKey p.(rp_TargetAgent) p.(rp_TargetReplicationPubKey));;
  or_fail 500 mkdir;;
  let spool := Replication.replicationSpoolPath transfer in
  let part := spool +:+ ".part" in
  or_fail 500 (create part);;
  let max := if rcfg.(rep_MaxTransferBytes) <=? 0 then Z.shiftl 20 30 else rcfg.(rep_MaxTransferBytes) in
  data ← copy_body part (fun data _ => data) (wrap64 (max + 1)) r;
  closed ← file (fun fs => (fs, Ok tt));
  data ← or_undo 400 (remove part) (mret data);
  or_undo 500 (remove part) (mret closed);;
  (if max <? slen data
   then remove part;; respond (http_error 413 "replication transfer exceeds maximum") else mret tt);;
  or_undo 500 (remove part) (rename part spool);;
  let meta := mkSourceMeta "replicate-generation" transfer agent p.(rp_TargetAgent)
    p.(rp_TargetReplicationPubKey) p.(rp_GenerationID) p.(rp_RepositoryID) p.(rp_Repository) None in
  let sha := sha256hex data in
  let install := install_payload meta sha (slen data) in
  now ← hnow;
  or_undo 500 (remove spool) (write (fun t _ =>
    as_RecordReplicationTransfer t (transfer_row meta spool TransferReady sha (slen data) now)));;
  now ← hnow;
  or_fail 500 (enqueue_install (install_job "install-replica"
    (p.(rp_GenerationID) +:+ "@" +:+ p.(rp_TargetAgent)) install p.(rp_TargetAgent)
    j.(Job_Priority) now));;
  mret (Answer 200 [] (JSON install)).

Definition offset_headers (offset : Z) (state : string) : list (string * string) :=
  [("X-RepoArk-Offset", pretty offset); ("X-RepoArk-State", state)].

Definition replicationUploadStatus (r : Request) : Handler S Response :=
  '(j, agent) ← authorized r;
  p ← or_fail 409 (mret (decodeTransferSourceJob j agent r.(rq_transfer)));
  let part := Replication.replicationSpoolPath p.(tm_TransferID) +:+ ".part" in
  size ← or_fail 500 (file (fun fs => (fs, Ok (slen (content part fs)))));
  t ← call (pread (as_GetReplicationTransfer p.(tm_TransferID)));
  match t with
  | Ok t =>
      require ((t.(Transfer_SourceAgent) ≟ agent) && (t.(Transfer_TargetAgent) ≟ p.(tm_TargetAgent))
               && (t.(Transfer_GenerationID) ≟ p.(tm_GenerationID)))
        409 "replication transfer metadata mismatch";;
      if t.(Transfer_State) ≟ TransferReady
      then mret (Answer 204 (offset_headers t.(Transfer_Bytes) TransferReady) Empty)
      else mret (Answer 204 (offset_headers size TransferReceiving) Empty)
  | Err _ => mret (Answer 204 (offset_headers size TransferReceiving) Empty)
  end.

(** Receiving a chunk of the transfer [p].  The descriptor is opened without
    [O_APPEND] and never moved: what comes is written from the start of the file. *)
Definition receive_chunk (p : transferSourceMeta) (r : Request) : Handler S Response :=
  wantOffset ← decoded (ParseInt (TrimSpace r.(rq_offset))) 400 "invalid X-RepoArk-Offset";
  require (0 <=? wantOffset) 400 "invalid X-RepoArk-Offset";;
  let wantHash := ToLower (TrimSpace r.(rq_chunk_sha)) in
  require (slen wantHash =? 64) 400 "X-RepoArk-Chunk-SHA256 required";;
  let part := Replication.replicationSpoolPath p.(tm_TransferID) +:+ ".part" in
  or_fail 500 (open_or_create part);;
  size ← or_fail 500 (file (fun fs => (fs, Ok (slen (content part fs)))));
  if size ≠? wantOffset then
    respond (Answer 409 [("X-RepoArk-Offset", pretty size)] (Text "upload offset mismatch"))
  else
    let chunkMax := if scfg.(sd_ChunkBytes) <=? 0 then Z.shiftl 8 20 else scfg.(sd_ChunkBytes) in
    let undo := ignore (update_file part (truncate wantOffset)) in
    data ← or_undo 400 undo (copy_body part overwrite (wrap64 (chunkMax + 1)) r);
    let n := slen data in
    or_undo 413 undo (mret (if chunkMax <? n then Err "replication chunk too large" else Ok tt));;
    or_undo 422 undo (mret (if sha256hex data ≟ wantHash then Ok tt
                            else Err "replication chunk hash mismatch"));;
    let max := rcfg.(rep_MaxTransferBytes) in
    or_undo 413 undo (mret (if (0 <? max) && (max <? wantOffset + n)
                            then Err "replication transfer exceeds maximum" else Ok tt));;
    or_undo 500 undo (file (fun fs => (fs, Ok tt)));;
    now ← hnow;
    or_fail 500 (write (fun t _ => as_RecordReplicationTransfer t
      (transfer_row p part TransferReceiving "" (wantOffset + n) now)));;
    mret (Answer 200 [("X-RepoArk-Offset", pretty (wantOffset + n))]
            (JSON (Json (JObj [("offset", JInt (wantOffset + n)); ("ok", JBool true)])))).

Definition replicationUploadChunk (r : Request) : Handler S Response :=
  '(j, agent) ← authorized r;
  p ← or_fail 409 (mret (decodeTransferSourceJob j agent r.(rq_transfer)));
  or_fail 409 (validateTransferTargetKey p.(tm_TargetAgent) p.(tm_TargetReplicationPubKey));;
  or_fail 500 mkdir;;
  receive_chunk p r.

(** Kind and target of the job that installs a transfer. *)
Definition install_target (p : transferSourceMeta) : string * string :=
  if p.(tm_Kind) ≟ "replicate-cas"
  then ("install-cas", "cas@" +:+ p.(tm_TargetAgent) +:+ "@" +:+ p.(tm_TransferID))
  else ("install-replica", p.(tm_GenerationID) +:+ "@" +:+ p.(tm_TargetAgent) +:+ "@" +:+ p.(tm_TransferID)).

Definition enqueueTransferInstall (sourceJob : Job) (p : transferSourceMeta) (sha : string) (n : Z)
    (record : bool) : Handler S (result json_text) :=
  recorded ← (if record then
    now ← hnow;
    write (fun t _ => as_RecordReplicationTransfer t (transfer_row p
      (Replication.replicationSpoolPath p.(tm_TransferID)) TransferReady sha n now))
    else mret (Ok tt));
  match recorded with
  | Err e => mret (Err e)
  | Ok _ =>
      let payload := install_payload p sha n in
      now ← hnow;
      e ← enqueue_install (install_job (install_target p).1 (install_target p).2 payload
            p.(tm_TargetAgent) sourceJob.(Job_Priority) now);
      mret (match e with Ok _ => Ok payload | Err e => Err e end)
  end.

Definition replicationUploadFinalize (body : option replicationFinalizeRequest) (r : Request)
    : Handler S Response :=
  '(j, agent) ← authorized r;
  p ← or_fail 409 (mret (decodeTransferSourceJob j agent r.(rq_transfer)));
  or_fail 409 (validateTransferTargetKey p.(tm_TargetAgent) p.(tm_TargetReplicationPubKey));;
  req ← decoded body 400 "invalid finalize request";
  require ((0 <=? req.(fin_Bytes)) && (slen (TrimSpace req.(fin_SHA256)) =? 64))
    400 "invalid finalize request";;
  let spool := Replication.replicationSpoolPath p.(tm_TransferID) in
  let part := spool +:+ ".part" in
  existing ← call (pread (as_GetReplicationTransfer p.(tm_TransferID)));
  let first :=
    c ← or_fail 404 (read_file part);
    require ((slen c =? req.(fin_Bytes)) && EqualFold (sha256hex c) req.(fin_SHA256))
      422 "replication final checksum/size mismatch";;
    or_fail 500 (rename part spool);;
    out ← or_fail 500 (enqueueTransferInstall j p (ToLower req.(fin_SHA256)) (slen c) true);
    mret (Answer 200 [] (JSON out)) in
  match existing with
  | Ok t =>
      if t.(Transfer_State) ≟ TransferReady then
        require ((t.(Transfer_SourceAgent) ≟ agent) && (t.(Transfer_TargetAgent) ≟ p.(tm_TargetAgent))
                 && (t.(Transfer_GenerationID) ≟ p.(tm_GenerationID))
                 && (t.(Transfer_RepositoryID) ≟ p.(tm_RepositoryID))
                 && (t.(Transfer_Bytes) =? req.(fin_Bytes))
                 && EqualFold t.(Transfer_SHA256) req.(fin_SHA256))
          409 "replication transfer metadata mismatch";;
        out ← or_fail 500 (enqueueTransferInstall j p (ToLower req.(fin_SHA256)) req.(fin_Bytes) false);
        mret (Answer 200 [] (JSON out))
      else first
  | Err _ => first
  end.

(** What an install job says of its transfer: target, generation, repository,
    hash and size. *)
Definition install_facts (j : Job) (agent transfer : string)
    : Handler S (string * string * string * string * Z) :=
  if j.(Job_Kind) ≟ "install-replica" then
    p ← decoded (unmarshal_install_replica j.(Job_Payload)) 500 "invalid install job";
    require ((transfer ≠? "") && (transfer ≟ p.(ir_TransferID)) && (p.(ir_TargetAgent) ≟ agent))
      409 "replication transfer identity mismatch";;
    mret (p.(ir_TargetAgent), p.(ir_GenerationID), p.(ir_RepositoryID), p.(ir_CipherSHA256),
          p.(ir_CipherBytes))
  else if j.(Job_Kind) ≟ "install-cas" then
    p ← decoded (unmarshal_install_cas j.(Job_Payload)) 500 "invalid CAS install job";
    require ((transfer ≠? "") && (transfer ≟ p.(ic_TransferID)) && (p.(ic_TargetAgent) ≟ agent))
      409 "CAS transfer identity mismatch";;
    mret (p.(ic_TargetAgent), cas_generation p.(ic_SourceAgent) p.(ic_TargetAgent), "__cas__",
          p.(ic_CipherSHA256), p.(ic_CipherBytes))
  else respond (http_error 403 "job is not transfer installation").

(** [http.ServeContent] answers with the file (or the ranges of it asked for). *)
Definition replicationDownload (r : Request) : Handler S Response :=
  '(j, agent) ← authorized r;
  let transfer := r.(rq_transfer) in
  '(target, generationID, repositoryID, sha, bytesN) ← install_facts j agent transfer;
  got ← call (pread (as_GetReplicationTransfer transfer));
  t ← (match got with
       | Ok t => mret t
       | Err _ => respond (http_error 404 "replication transfer unavailable")
       end);
  (if IsZero t.(Transfer_ExpiresAt) then mret tt
   else now ← hnow; require (After t.(Transfer_ExpiresAt) now) 410 "replication transfer expired");;
  require ((t.(Transfer_TargetAgent) ≟ target) && (t.(Transfer_GenerationID) ≟ generationID)
           && (t.(Transfer_RepositoryID) ≟ repositoryID) && (t.(Transfer_SHA256) ≟ sha)
           && (t.(Transfer_Bytes) =? bytesN)) 409 "replication transfer metadata mismatch";;
  f ← read_file (Replication.replicationSpoolPath transfer);
  c ← (match f with
       | Ok c => mret c
       | Err _ => respond (http_error 404 "replication blob unavailable")
       end);
  or_fail 500 (file (fun fs => (fs, Ok tt)));;
  require ((bytesN <=? 0) || (slen c =? bytesN)) 409 "replication blob size mismatch";;
  mret (Answer 200 [("X-RepoArk-Cipher-SHA256", sha)] (Blob c)).

(** [s.enqueue]: a follow-up of the job the agent is running. *)
Definition enqueue_child (body : option Job) (r : Request) : Handler S Response :=
  '(j, agent) ← authorized r;
  child ← decoded body 400 "invalid JSON";
  require (child.(Job_Target) ≟ j.(Job_Target)) 409 "child job target must match parent job";;
  require (child.(Job_Kind) ≟ "mirror-gitlab")
    403 "remote agents may only enqueue mirror-gitlab follow-up jobs";;
  x ← or_fail 500 (write (fun t token => st_Enqueue t token (child <| Job_Affinity := agent |>)));
  mret (Answer 200 [] (ChildBody x.1 x.2)).

(** [handler]: the routes. *)
Inductive Endpoint :=
| EHeartbeat (req : agentHeartbeatRequest)
| ELease
| EComplete
| EFail (body : option string)
| EGeneration (body : option Generation)
| EBackupResult (body : option backupResultRequest)
| EEnqueue (body : option Job)
| EReplica (body : option GenerationReplica)
| EObjectRef (body : option agentObjectRefRequest)
| EErasureSet (body : option ErasureSet)
| EErasureShard (body : option ErasureShard)
| ECorruptObject (body : option string)
| EUpload
| EUploadStatus
| EUploadChunk
| EUploadFinalize (body : option replicationFinalizeRequest)
| EDownload
| EHealth.

Definition handle (e : Endpoint) (r : Request) : Handler S Response :=
  match e with
  | EHeartbeat req => heartbeat req r
  | ELease => lease r
  | EComplete => complete r
  | EFail b => fail b r
  | EGeneration b => generation b r
  | EBackupResult b => backupResult b r
  | EEnqueue b => enqueue_child b r
  | EReplica b => replica b r
  | EObjectRef b => objectRef b r
  | EErasureSet b => erasureSet b r
  | EErasureShard b => erasureShard b r
  | ECorruptObject b => corruptObject b r
  | EUpload => replicationUpload r
  | EUploadStatus => replicationUploadStatus r
  | EUploadChunk => replicationUploadChunk r
  | EUploadFinalize b => replicationUploadFinalize b r
  | EDownload => replicationDownload r
  | EHealth => mret (writeJSON 200 (JObj [("identity", JStr (agentIdentity r)); ("ok", JBool true)]))
  end.

Definition serve (e : Endpoint) (r : Request) (i : nat) (s : Server S) : nat * Server S * Response :=
  match handle e r i s with
  | (i', s', inl a) | (i', s', inr a) => (i', s', a)
  end.
End Endpoints.
End AgentServer.
