(* ===== verification/AgentRules.v ===== *)
(** * What remote agents can and cannot do

    Theorems on the agent server: requests without a lease are refused and
    change nothing; what an agent writes is its own; a transfer is published
    only when the received file is what the source declared. *)

From Stdlib Require Import Ascii String QArith.
From stdpp Require Import pretty.
From S2P Require Import Prelude GoStd Json Sha256 Model Payloads QueueSpec MemStore SqlStore SqlJobs Config Control StorageHealth Requests Placement Replication Erasure Repair AgentServer.
#[global] Open Scope Z_scope.

Module AgentRules.
Import Placement AgentServer.

Section Generic.
Context {MO : MapOrder} {S : Type} `{!Store S} `{!AgentStore S} {E : Env} {F : Faults}.
Context (srv : AgentServer) (local_key : result string).
Implicit Types (r : Request) (e : Endpoint).

(** The endpoints under [/jobs/{id}/]. *)
Definition job_endpoint e : bool :=
  match e with EHeartbeat _ | ELease | EHealth => false | _ => true end.

(** The job of the path is leased to the certificate's identity. *)
Definition holds_lease r (s : S) (j : Job) : Prop :=
  agentIdentity r ≠ "" ∧ as_GetJob r.(rq_id) s = Ok j ∧
  j.(Job_Status) = JobRunning ∧ j.(Job_LeaseOwner) = agentIdentity r.

Lemma hbind_eq {A B} (p : Handler S A) (f : A → Handler S B) i s i1 s1 a :
  p i s = (i1, s1, inr a) → (p ≫= f) i s = f a i1 s1.
Proof. unfold mbind, handler_bind. by intros ->. Qed.

Lemma hbind_stop {A B} (p : Handler S A) (f : A → Handler S B) i s i1 s1 x :
  p i s = (i1, s1, inl x) → (p ≫= f) i s = (i1, s1, inl x).
Proof. unfold mbind, handler_bind. by intros ->. Qed.

Lemma authorize_spec r i s :
  (∃ j, holds_lease r s.(sv_store) j ∧
     authorizeRunningJob r i s = (i, s, inr (Ok (j, agentIdentity r)))) ∨
  ((∀ j, ¬ holds_lease r s.(sv_store) j) ∧
     ∃ msg, authorizeRunningJob r i s = (i, s, inr (Err msg))).
Proof.
  unfold authorizeRunningJob, holds_lease. destruct s as [st sp]. simpl.
  destruct (bool_decide_reflect (agentIdentity r = "")) as [Hid|Hid].
  { right. split; [by intros j [? _]|]. by eexists. }
  unfold mbind at 1 2, handler_bind, call, pread. simpl.
  destruct (as_GetJob r.(rq_id) st) as [j|msg].
  2: { right. split; [by intros j (_ & ? & _)|]. by eexists. }
  destruct (bool_decide_reflect (j.(Job_Status) = JobRunning)) as [Hs|Hs]; simpl.
  2: { right. split; [|by eexists]. intros j' (_ & [= <-] & ? & _). congruence. }
  destruct (bool_decide_reflect (j.(Job_LeaseOwner) = agentIdentity r)) as [Ho|Ho]; simpl.
  - left. by exists j.
  - right. split; [|by eexists]. intros j' (_ & [= <-] & _ & ?). congruence.
Qed.

Lemma authorized_run r i s j :
  holds_lease r s.(sv_store) j → authorized r i s = (i, s, inr (j, agentIdentity r)).
Proof.
  intros Hj. destruct (authorize_spec r i s) as [(j' & Hj' & E1)|[Hno _]]; [|by destruct (Hno j)].
  assert (j' = j) as -> by (destruct Hj as (_ & H1 & _), Hj' as (_ & H2 & _); congruence).
  unfold authorized, or_fail. by rewrite (hbind_eq _ _ _ _ _ _ _ E1).
Qed.

Lemma authorized_refused r i s :
  (∀ j, ¬ holds_lease r s.(sv_store) j) →
  ∃ msg, authorized r i s = (i, s, inl (http_error 403 msg)).
Proof.
  intros Hno. destruct (authorize_spec r i s) as [(j' & Hj' & E1)|[_ [msg E1]]]; [by destruct (Hno j')|].
  exists msg. unfold authorized, or_fail. by rewrite (hbind_eq _ _ _ _ _ _ _ E1).
Qed.

(** Every endpoint under a job starts with the authorization. *)
Lemma job_endpoint_first e r : job_endpoint e = true →
  ∃ f, handle srv local_key e r = (authorized r ≫= f).
Proof. destruct e; try done; intros _; eexists; reflexivity. Qed.

(** A request nobody may make: on a job that is not leased to the certificate's
    identity, or, away from jobs, without an identity (anyone may ask for health). *)
Definition illegitimate e r (s : S) : Prop :=
  if job_endpoint e then ∀ j, ¬ holds_lease r s j
  else e ≠ EHealth ∧ agentIdentity r = "".

(** C34. Illegitimate requests are refused and change nothing: a request on a job
    that is not leased to the certificate's identity, be it that no identity is
    given, that there is no such job, or that it is not running or is another's,
    is answered 403 by every endpoint, whatever its body, and a heartbeat or a
    lease without an identity 401; neither the store nor the spool directory
    changes. *)
Theorem illegitimate_request_refused e r i s :
  illegitimate e r s.(sv_store) →
  ∃ msg, serve srv local_key e r i s
    = (i, s, http_error (if job_endpoint e then 403 else 401) msg).
Proof.
  unfold illegitimate. destruct (job_endpoint e) eqn:He.
  - intros Hno. destruct (job_endpoint_first e r He) as [f Ef].
    destruct (authorized_refused r i s Hno) as [msg E1]. exists msg.
    unfold serve. by rewrite Ef, (hbind_stop _ _ _ _ _ _ _ E1).
  - intros [Hh Hid]. eexists. unfold serve.
    destruct e; try done; simpl; unfold heartbeat, lease; rewrite Hid; reflexivity.
Qed.
End Generic.

(** ** What a handler does to the store

    [stays R p i s]: the store after [p] is related by [R] to the one before. *)
Section Stays.
Context {S : Type} `{!Store S} `{!AgentStore S} {E : Env} {F : Faults}.
Context (R : relation S) `{!PreOrder R}.

Definition stays {A} (p : Handler S A) (i : nat) (s : Server S) : Prop :=
  R s.(sv_store) (p i s).1.2.(sv_store).

(** Whatever the point it starts from. *)
Definition always {A} (p : Handler S A) : Prop := ∀ i s, stays p i s.

(** The same for programs on the store. *)
Definition calm {A} (p : Prog S A) : Prop := ∀ i s, R s (p i s).1.2.

Lemma stays_bind {A B} (p : Handler S A) (f : A → Handler S B) i s :
  stays p i s → (∀ i1 s1 a, p i s = (i1, s1, inr a) → stays (f a) i1 s1) → stays (p ≫= f) i s.
Proof.
  unfold stays. intros Hp Hf. unfold mbind, handler_bind.
  destruct (p i s) as [[i1 s1] [x|a]] eqn:E1; [done|]. etrans; [exact Hp|]. by apply Hf.
Qed.

Lemma always_bind {A B} (p : Handler S A) (f : A → Handler S B) :
  always p → (∀ a, always (f a)) → always (p ≫= f).
Proof. intros Hp Hf i s. apply stays_bind; [apply Hp|]. intros. apply Hf. Qed.

(** A step that leaves the store as it is. *)
Local Ltac unchanged := cbv [stays]; cbn; reflexivity.

Lemma always_ret {A} (a : A) : always (mret a). Proof. intros i s. unchanged. Qed.
Lemma always_respond {A} x : always (respond x : Handler S A). Proof. intros i s. unchanged. Qed.
Lemma always_now : always hnow. Proof. intros i s. unchanged. Qed.

Lemma always_call {A} (p : Prog S A) : calm p → always (call p).
Proof.
  intros Hp i s. unfold stays, call. specialize (Hp i s.(sv_store)).
  by destruct (p i s.(sv_store)) as [[i' st] x].
Qed.

Lemma always_call_panic {A} (f : S → S * outcome (result A)) :
  (∀ s, R s (f s).1) → always (call_panic f).
Proof.
  intros Hf i s. unfold stays, call_panic. specialize (Hf s.(sv_store)).
  by destruct (f s.(sv_store)) as [st [x|x]].
Qed.

Lemma always_file {A} (f : _ → _ * result A) : always (file f).
Proof. intros i s. unfold stays, file. destruct (fault i); [done|]. by destruct (f _). Qed.

Lemma always_fail {A} n (p : Handler S (result A)) : always p → always (or_fail n p).
Proof.
  intros Hp. apply always_bind; [done|]. intros [a|x]; [apply always_ret|apply always_respond].
Qed.

Lemma always_undo {A} n (c : Handler S unit) (p : Handler S (result A)) :
  always c → always p → always (or_undo n c p).
Proof.
  intros Hc Hp. apply always_bind; [done|]. intros [a|x]; [apply always_ret|].
  apply always_bind; [done|]. intros []. apply always_respond.
Qed.

Lemma always_require b n m : always (require b n m : Handler S unit).
Proof. unfold require. case_match; [apply always_ret|apply always_respond]. Qed.

Lemma always_decoded {A} (o : option A) n m : always (decoded o n m : Handler S A).
Proof. unfold decoded. case_match; [apply always_ret|apply always_respond]. Qed.

Lemma calm_read {A} (f : S → result A) : calm (pread f). Proof. intros i s. unchanged. Qed.
Lemma calm_ret {A} (a : A) : calm (mret a). Proof. intros i s. unchanged. Qed.
Lemma calm_fail {A} m : calm (pfail m : Prog S A). Proof. intros i s. unchanged. Qed.
Lemma calm_now : calm pnow. Proof. intros i s. unchanged. Qed.
Lemma calm_new_id m : calm (pnew_id m). Proof. intros i s. unchanged. Qed.

Lemma calm_write {A} (f : Time → string → S → S * result A) :
  (∀ k s, R s (f (clock k) (fresh_token k) s).1) → calm (pwrite f).
Proof.
  intros Hf i s. unfold pwrite. specialize (Hf i s). by destruct (f (clock i) (fresh_token i) s).
Qed.

Lemma calm_bind {A B} (p : Prog S A) (f : A → Prog S B) :
  calm p → (∀ a, calm (f a)) → calm (p ≫= f).
Proof.
  intros Hp Hf i s. unfold mbind, prog_bind, pbind. specialize (Hp i s).
  destruct (p i s) as [[i1 s1] [a|x]]; [|done]. simpl in Hp. etrans; [exact Hp|apply Hf].
Qed.

Lemma calm_for {A B} (l : list A) (body : A → B → Prog S B) acc :
  (∀ x b, calm (body x b)) → calm (pfor l body acc).
Proof.
  intros Hb. revert acc. induction l as [|x l IH]; intros acc; [apply calm_ret|].
  change (calm (body x acc ≫= pfor l body)). by apply calm_bind.
Qed.
End Stays.

(** ** An agent's own rows *)

(** The rows that are nobody's own, by their keys: the objects whose counts and owners,
    the objects whose erasure sets, the leases and the transfers a request may write. *)
Record Reach := mkReach {
  rc_object : string → Prop;
  rc_set : string → Prop;
  rc_lease : string → Prop;
  rc_transfer : string → Prop
}.

Section Confined.
Context {MO : MapOrder} {E : Env}.
(** The agent, the target of the job its request is about, and what it may reach. *)
Context (agent target : string) (w : Reach).
Import Sql.
Implicit Types (s : SQLStore).

(** [repositoryID] is the repository that the job is about. *)
Definition bound s (repositoryID : string) : Prop :=
  ∃ r, s.(repositories) !! repositoryID = Some r ∧ r.(Repo_FullName) = target.

(** The outcome of a backup is all that is written to a repository. *)
Definition repo_step (x y : Repository) : Prop :=
  y = x ∨ x.(Repo_FullName) = target ∧
    y = x <| Repo_LastBackupAt := y.(Repo_LastBackupAt) |>
          <| Repo_LastGenerationID := y.(Repo_LastGenerationID) |>
          <| Repo_LastBackupSuccessful := y.(Repo_LastBackupSuccessful) |>
          <| Repo_UpdatedAt := y.(Repo_UpdatedAt) |>.

(** The end of a scheduled restore is all that is written to an approval. *)
Definition approval_step (x y : RestoreApproval) : Prop :=
  y = x ∨ x.(Approval_Status) = ApprovalScheduled ∧
    y = x <| Approval_Status := ApprovalExecuted |> <| Approval_UpdatedAt := y.(Approval_UpdatedAt) |>.

(** Running for somebody else, whose time is not up. *)
Definition held_elsewhere (j : Job) : Prop :=
  j.(Job_Status) = JobRunning ∧ j.(Job_LeaseOwner) ≠ agent ∧ ∀ k, clock k < j.(Job_LeaseUntil).

(** Outside of its reach nothing is written; inside, no count, no owner and no erasure
    set is deleted, and a transfer that is written has the agent for its source. *)
Record within s s' : Prop := {
  wi_refs d : ¬ rc_object w d → s'.(object_refs) !! d = s.(object_refs) !! d;
  wi_refs_kept d : is_Some (s.(object_refs) !! d) → is_Some (s'.(object_refs) !! d);
  wi_owners d o : ¬ rc_object w d → s'.(object_ref_owners) !! (d, o) = s.(object_ref_owners) !! (d, o);
  wi_owners_kept : s.(object_ref_owners) ⊆ s'.(object_ref_owners);
  wi_sets d : ¬ rc_set w d → s'.(erasure_sets) !! d = s.(erasure_sets) !! d;
  wi_sets_kept d : is_Some (s.(erasure_sets) !! d) → is_Some (s'.(erasure_sets) !! d);
  wi_leases id : ¬ rc_lease w id → s'.(object_leases) !! id = s.(object_leases) !! id;
  wi_transfers id : ¬ rc_transfer w id →
    s'.(replication_transfers) !! id = s.(replication_transfers) !! id;
  wi_transfers_new id t : s'.(replication_transfers) !! id = Some t →
    s.(replication_transfers) !! id = Some t ∨ t.(Transfer_SourceAgent) = agent;
  wi_meta : s'.(repoark_meta) = s.(repoark_meta)
}.

Record confined s s' : Prop := {
  cf_agents id : id ≠ agent → s'.(agents) !! id = s.(agents) !! id;
  cf_shards o k a : a ≠ agent → s'.(erasure_shards) !! (o, k, a) = s.(erasure_shards) !! (o, k, a);
  (** a replica on another node can at most go, with its generation *)
  cf_replicas g a : a ≠ agent →
    s'.(generation_replicas) !! (g, a) = s.(generation_replicas) !! (g, a) ∨
    s'.(generation_replicas) !! (g, a) = None;
  cf_gone g x : s.(generations) !! g = Some x →
    s'.(generations) !! g = Some x ∨ bound s x.(Gen_RepositoryID);
  cf_new g x : s'.(generations) !! g = Some x →
    s.(generations) !! g = Some x ∨ x.(Gen_Repository) = target ∧ bound s x.(Gen_RepositoryID);
  cf_repos id : option_Forall2 repo_step (s.(repositories) !! id) (s'.(repositories) !! id);
  cf_jobs id j : s.(jobs) !! id = Some j → held_elsewhere j → s'.(jobs) !! id = Some j;
  cf_approvals id :
    option_Forall2 approval_step (s.(restore_approvals) !! id) (s'.(restore_approvals) !! id);
  cf_within : within s s'
}.

#[export] Instance within_preorder : PreOrder within.
Proof.
  split; [by intros s; split; auto|].
  intros s1 s2 s3 [a1 b1 c1 d1 e1 f1 g1 h1 i1 j1] [a2 b2 c2 d2 e2 f2 g2 h2 i2 j2]. split; auto.
  - intros d Hd. by rewrite a2, a1.
  - intros d o Hd. by rewrite c2, c1.
  - by etrans.
  - intros d Hd. by rewrite e2, e1.
  - intros id Hd. by rewrite g2, g1.
  - intros id Hd. by rewrite h2, h1.
  - intros id t Ht. destruct (i2 id t Ht) as [?|]; auto.
  - by rewrite j2.
Qed.

(** The tables of [within] are left as they are. *)
Lemma within_same s s' :
  s'.(object_refs) = s.(object_refs) → s'.(object_ref_owners) = s.(object_ref_owners) →
  s'.(erasure_sets) = s.(erasure_sets) → s'.(object_leases) = s.(object_leases) →
  s'.(replication_transfers) = s.(replication_transfers) → s'.(repoark_meta) = s.(repoark_meta) →
  within s s'.
Proof. intros H1 H2 H3 H4 H5 H6. split; rewrite ?H1, ?H2, ?H3, ?H4, ?H5, ?H6; auto. Qed.

#[export] Instance repo_step_preorder : PreOrder repo_step.
Proof.
  split; [by left|]. intros x y z [->|[Hx Hy]] [->|[Hy' Hz]]; [by left|right; auto|right; auto|].
  right. split; [done|]. destruct x, y, z. simpl in *. congruence.
Qed.

#[export] Instance approval_step_preorder : PreOrder approval_step.
Proof.
  split; [by left|]. intros x y z [->|[Hx Hy]] [->|[Hy' Hz]]; [by left|right; auto|right; auto|].
  rewrite Hy in Hy'. discriminate Hy'.
Qed.

Lemma bound_back s s' rid :
  option_Forall2 repo_step (s.(repositories) !! rid) (s'.(repositories) !! rid) →
  bound s' rid → bound s rid.
Proof.
  intros H (r' & Hr & Ht). rewrite Hr in H. inversion H as [r ? Hs E1 E2|]; subst.
  exists r. split; [done|]. destruct Hs as [<-|[? _]]; done.
Qed.

Lemma bound_on s s' rid :
  option_Forall2 repo_step (s.(repositories) !! rid) (s'.(repositories) !! rid) →
  bound s rid → bound s' rid.
Proof.
  intros H (r & Hr & Ht). rewrite Hr in H. inversion H as [? r' Hs E1 E2|]; subst.
  exists r'. split; [done|]. destruct Hs as [->|[? ->]]; done.
Qed.

#[export] Instance confined_preorder : PreOrder confined.
Proof.
  split; [intros s; split; auto; try (intros id; reflexivity); reflexivity|].
  intros s1 s2 s3 [a1 b1 c1 d1 e1 f1 g1 h1 w1] [a2 b2 c2 d2 e2 f2 g2 h2 w2]. split.
  - intros id Hid. by rewrite a2, a1.
  - intros o k x Hx. by rewrite b2, b1.
  - intros g x Hx. destruct (c2 g x Hx) as [->|]; auto.
  - intros g x Hg. destruct (d1 g x Hg) as [H|]; [|auto].
    destruct (d2 g x H) as [|Hb]; [auto|]. right. eapply bound_back; [apply f1|done].
  - intros g x Hg. destruct (e2 g x Hg) as [H|[Ht Hb]]; [by apply e1|].
    right. split; [done|]. eapply bound_back; [apply f1|done].
  - intros id. etrans; [apply f1|apply f2].
  - intros id j Hj Hh. auto.
  - intros id. etrans; [apply h1|apply h2].
  - by etrans.
Qed.

(** What leaves most tables alone. *)
Lemma confined_frame s s' :
  (∀ id, id ≠ agent → s'.(agents) !! id = s.(agents) !! id) →
  (∀ o k a, a ≠ agent → s'.(erasure_shards) !! (o, k, a) = s.(erasure_shards) !! (o, k, a)) →
  (∀ g a, a ≠ agent → s'.(generation_replicas) !! (g, a) = s.(generation_replicas) !! (g, a)) →
  (∀ id j, s.(jobs) !! id = Some j → held_elsewhere j → s'.(jobs) !! id = Some j) →
  s'.(generations) = s.(generations) → s'.(repositories) = s.(repositories) →
  s'.(restore_approvals) = s.(restore_approvals) → within s s' → confined s s'.
Proof.
  intros H1 H2 H3 H4 H5 H6 H7 H8. split; rewrite ?H5, ?H6, ?H7; auto; intros id; reflexivity.
Qed.
End Confined.

#[export] Hint Extern 0 (within _ _ _ _) => (by apply within_same) : core.

(** ** The statements the endpoints run *)

Section Statements.
Context {MO : MapOrder} {E : Env} (agent target : string) (w : Reach).
Import Sql.
Implicit Types (s : SQLStore).
Local Notation confined := (confined agent target w).
Local Notation held_elsewhere := (held_elsewhere agent).

Lemma held_not_expired k j : held_elsewhere j → lease_expired (clock k) j = false.
Proof.
  intros (_ & _ & Hu). specialize (Hu k). unfold lease_expired.
  apply Z.leb_gt in Hu. by rewrite Hu, andb_false_r.
Qed.

Lemma held_not_leasable k owner j : held_elsewhere j → may_lease (clock k) owner j = false.
Proof.
  intros Hh. unfold may_lease. rewrite (held_not_expired k j Hh).
  destruct Hh as (-> & _). by rewrite andb_false_r.
Qed.

Lemma held_not_leased_by j : held_elsewhere j → leased_by agent j = false.
Proof.
  intros (_ & Ho & _). unfold leased_by. by rewrite (bool_decide_eq_false_2 _ Ho), andb_false_r.
Qed.

(** A guarded update spares the rows its guard excludes. *)
Lemma update_row_spares {K V} `{Countable K} k (p : V → bool) f (t : gmap K V) id x :
  t !! id = Some x → p x = false → (update_row k p f t).1 !! id = Some x.
Proof.
  intros Hx Hp. unfold update_row. destruct (t !! k) as [y|] eqn:Ek; [|done].
  destruct (p y) eqn:Ey; [|done]. simpl. rewrite lookup_insert_ne; [done|]. congruence.
Qed.

Lemma lease_fold_spares k owner until l acc id j :
  held_elsewhere j → acc.1 !! id = Some j →
  (foldl (lease_candidate (clock k) owner until) acc l).1 !! id = Some j.
Proof.
  intros Hh. revert acc. induction l as [|x l IH]; intros acc Hj; [done|]. simpl. apply IH.
  pose proof (update_row_spares x.(Job_ID) (may_lease (clock k) owner)
    (take_lease (clock k) owner until) _ id j Hj (held_not_leasable k owner j Hh)) as Hs.
  unfold lease_candidate. destruct (update_row _ _ _ _) as [t n]. by case_match.
Qed.

Lemma lease_confined k owner limit d s : confined s (Lease (clock k) owner limit d s).1.
Proof.
  unfold Lease. destruct (foldl _ _ _) as [t js] eqn:Ef. apply confined_frame; try done.
  intros id j Hj Hh. simpl. change t with ((t, js).1). rewrite <- Ef.
  apply lease_fold_spares; [done|]. simpl. unfold update_where. rewrite lookup_fmap, Hj. simpl.
  by rewrite (held_not_expired k j Hh).
Qed.

Lemma complete_confined now id s : confined s (Complete now id agent s).1.
Proof.
  unfold Complete. destruct (s.(jobs) !! id) as [j|] eqn:Ej; [|reflexivity].
  destruct (leased_by agent j) eqn:Hl; simpl; [|reflexivity].
  assert (∀ s1, confined s s1 → s1.(jobs) = s.(jobs) → confined s
    (let '(t, n) := update_row id (leased_by agent) (succeed_row now) s1.(jobs) in
     if n ≠? 1 then (s, Err (not_leased id agent)) else (s1 <| jobs := t |>, Ok tt)).1) as Hclose.
  { intros s1 H1 Hj1. destruct (update_row _ _ _ _) as [t n] eqn:Eu.
    destruct (_ ≠? _); [reflexivity|]. simpl. etrans; [exact H1|].
    apply confined_frame; try done. intros x y Hy Hh. simpl.
    change t with ((t, n).1). rewrite <- Eu. apply update_row_spares; [done|].
    by apply held_not_leased_by. }
  destruct (_ ≟ _); [|by apply Hclose]. destruct (unmarshal_restore _) as [p|]; [|by apply Hclose].
  destruct (_ ≟ _); [by apply Hclose|]. destruct (update_row p.(rg_ApprovalID) _ _ _) as [t n] eqn:Eu.
  destruct (_ ≠? _); [reflexivity|]. 
  specialize (Hclose (s <| restore_approvals := t |>)). simpl in Hclose. apply Hclose; [|done].
  split; try done; try (intros x; reflexivity); auto.
  intros x. simpl. change t with ((t, n).1). rewrite <- Eu. unfold update_row.
  destruct (s.(restore_approvals) !! p.(rg_ApprovalID)) as [a|] eqn:Ea; [|reflexivity].
  destruct (bool_decide_reflect (a.(Approval_Status) = ApprovalScheduled)) as [Hs|]; [|reflexivity].
  simpl. destruct (decide (x = p.(rg_ApprovalID))) as [->|Hne].
  - rewrite Ea, lookup_insert_eq. constructor. by right.
  - rewrite lookup_insert_ne by done. reflexivity.
Qed.

Lemma fail_confined now id detail retry s : confined s (Fail now id agent detail retry s).1.
Proof.
  unfold Fail. destruct (s.(jobs) !! id) as [j|] eqn:Ej; [|reflexivity].
  destruct (leased_by agent j) eqn:Hl; simpl; [|reflexivity].
  destruct (if _ <=? _ then _ else _) as [status notBefore].
  destruct (update_row _ _ _ _) as [t n] eqn:Eu. destruct (_ ≠? _); [reflexivity|].
  apply confined_frame; try done. intros x y Hy Hh. simpl. change t with ((t, n).1).
  rewrite <- Eu. apply update_row_spares; [done|]. by apply held_not_leased_by.
Qed.

Lemma enqueue_confined now token j s : confined s (Enqueue now token j s).1.
Proof.
  assert (∀ p, confined s (EnqueueInsert p s).1) as Hins.
  { intros p. unfold EnqueueInsert. destruct (bool_decide_reflect (is_Some (s.(jobs) !! p.(Job_ID))))
      as [|Hn]; simpl; [by destruct (find_active _ _)|].
    destruct (violates_active_index _ _); [by destruct (find_active _ _)|]. simpl.
    apply confined_frame; try done. intros x y Hy _. simpl. rewrite lookup_insert_ne; [done|].
    intros <-. apply Hn. by eexists. }
  unfold Enqueue. destruct (find_active _ s); [reflexivity|apply Hins].
Qed.

Lemma heartbeat_confined now a s :
  a.(Agent_ID) = agent → agent ≠ "" → confined s (HeartbeatAgent now a s).
Proof.
  intros Ha Hne. unfold HeartbeatAgent, upsert. rewrite Ha, (bool_decide_eq_false_2 _ Hne).
  apply confined_frame; try done. intros id Hid. destruct (_ ≟ _); simpl; rewrite Ha;
    by rewrite lookup_insert_ne by done.
Qed.

Lemma shard_confined now sh s :
  sh.(Shard_AgentID) = agent → confined s (RecordErasureShard now sh s).1.
Proof.
  intros Ha. unfold RecordErasureShard. destruct (_ || _); [reflexivity|].
  case_bool_decide; [|reflexivity]. apply confined_frame; try done. intros o k a Hne. simpl.
  unfold upsert, shard_key. simpl. rewrite lookup_insert_ne; [done|]. rewrite Ha. congruence.
Qed.

Lemma replica_confined now x s :
  x.(Replica_AgentID) = agent → confined s (RecordReplica now x s).1.
Proof.
  intros Ha. unfold RecordReplica.
  set (y := if x.(Replica_State) ≟ "" then _ else x).
  assert (y.(Replica_AgentID) = agent) as Hy by (unfold y; by destruct (_ ≟ _)). clearbody y.
  simpl. case_bool_decide; [|reflexivity]. apply confined_frame; try done. intros g a Hne. simpl.
  unfold upsert. simpl. rewrite lookup_insert_ne; [done|]. rewrite Hy. congruence.
Qed.

Lemma upsert_kept {K V} `{Countable K} k (f : V → V → V) x (m : gmap K V) k' :
  is_Some (m !! k') → is_Some (upsert k f x m !! k').
Proof.
  intros Hk. unfold upsert. destruct (m !! k); (destruct (decide (k' = k)) as [->|];
    [rewrite lookup_insert_eq; eauto|by rewrite lookup_insert_ne]).
Qed.

Lemma upsert_ne {K V} `{Countable K} k (f : V → V → V) x (m : gmap K V) k' :
  k' ≠ k → upsert k f x m !! k' = m !! k'.
Proof. intros Hk. unfold upsert. destruct (m !! k); by rewrite lookup_insert_ne. Qed.

Lemma ensure_confined t1 t2 x owner s :
  rc_object w (ToLower (TrimSpace x.(Ref_Digest))) → confined s (EnsureObjectRef t1 t2 x owner s).1.
Proof.
  intros Hw. unfold EnsureObjectRef. destruct (_ || _); [reflexivity|].
  case_bool_decide as Ho; [reflexivity|]. apply confined_frame; try done. split; try done; simpl; auto.
  - intros d Hd. apply upsert_ne. by intros ->.
  - intros d Hd. by apply upsert_kept.
  - intros d o Hd. apply lookup_insert_ne. congruence.
  - apply insert_subseteq. by apply eq_None_not_Some.
Qed.

Lemma adjust_confined t x delta s :
  rc_object w x.(Ref_Digest) → confined s (AdjustObjectRef t x delta s).1.
Proof.
  intros Hw. unfold AdjustObjectRef. destruct (_ ≟ _); [reflexivity|].
  assert (∀ y, confined s (s <| object_refs := <[x.(Ref_Digest) := y]> s.(object_refs) |>)) as Hi.
  { intros y. apply confined_frame; try done. split; try done; simpl; auto.
    - intros d Hd. rewrite lookup_insert_ne; [done|]. by intros <-.
    - intros d Hd. destruct (decide (d = x.(Ref_Digest))) as [->|];
        [rewrite lookup_insert_eq; eauto|by rewrite lookup_insert_ne]. }
  destruct (s.(object_refs) !! x.(Ref_Digest)) as [y|]; simpl.
  - destruct (_ <? 0); [reflexivity|]. apply Hi.
  - destruct (delta <? 0); [reflexivity|]. apply Hi.
Qed.

Lemma set_confined t x s : rc_set w x.(ESet_ObjectSHA256) → confined s (RecordErasureSet t x s).1.
Proof.
  intros Hw. unfold RecordErasureSet. destruct (_ ≟ _); [reflexivity|].
  set (y := if IsZero _ then _ else _).
  assert (y.(ESet_ObjectSHA256) = x.(ESet_ObjectSHA256)) as Hy by (unfold y; by destruct (IsZero _)).
  apply confined_frame; try done. simpl. rewrite Hy. split; try done; simpl; auto.
  - intros d Hd. apply upsert_ne. by intros ->.
  - intros d Hd. by apply upsert_kept.
Qed.

Lemma object_lease_confined t token l s :
  l.(OLease_ID) ≠ "" → rc_lease w l.(OLease_ID) → confined s (AcquireObjectLease t token l s).1.
Proof.
  intros Hne Hw. unfold AcquireObjectLease. rewrite (bool_decide_eq_false_2 _ Hne).
  destruct (_ || _); [reflexivity|]. apply confined_frame; try done. split; try done; simpl; auto.
  intros d Hd. apply upsert_ne. by intros ->.
Qed.

Lemma transfer_confined t x s :
  rc_transfer w x.(Transfer_ID) → x.(Transfer_SourceAgent) = agent →
  confined s (RecordReplicationTransfer t x s).1.
Proof.
  intros Hw Ha. unfold RecordReplicationTransfer. destruct (_ ≟ _); [reflexivity|].
  set (y := if Transfer_State _ ≟ _ then _ else _).
  assert (y.(Transfer_ID) = x.(Transfer_ID) ∧ y.(Transfer_SourceAgent) = agent) as [Hy Hya]
    by (unfold y; by destruct (_ ≟ _)).
  apply confined_frame; try done. simpl. rewrite Hy. split; try done; simpl; auto.
  - intros d Hd. apply upsert_ne. by intros ->.
  - intros id z. unfold upsert. destruct (_ !! x.(Transfer_ID)); rewrite lookup_insert_Some;
      intros [[_ <-]|[_ ?]]; auto.
Qed.

Lemma drop_lease_confined id s : rc_lease w id → confined s (ReleaseObjectLease id s).
Proof.
  intros Hw. apply confined_frame; try done. split; try done; simpl; auto.
  intros d Hd. apply lookup_delete_ne. by intros ->.
Qed.

Lemma drop_transfer_confined id s : rc_transfer w id → confined s (DeleteReplicationTransfer id s).
Proof.
  intros Hw. apply confined_frame; try done. split; try done; simpl; auto.
  - intros d Hd. apply lookup_delete_ne. by intros ->.
  - intros d t. rewrite lookup_delete_Some. tauto.
Qed.

Lemma backup_result_confined now id ok gid at_ s :
  bound target s id → confined s (MarkBackupResult now id ok gid at_ s).
Proof.
  intros (r & Hr & Ht). split; try done; auto; try (intros x; reflexivity).
  intros x. simpl. unfold update_row. rewrite Hr. simpl. destruct (decide (x = id)) as [->|Hne].
  - rewrite Hr, lookup_insert_eq. constructor. by right.
  - rewrite lookup_insert_ne by done. reflexivity.
Qed.

Lemma generation_confined g s :
  g.(Gen_Repository) = target → bound target s g.(Gen_RepositoryID) →
  confined s (RecordGeneration g s).1.
Proof.
  intros Hg Hb. unfold RecordGeneration. destruct (s.(generations) !! g.(Gen_ID)) eqn:Eg; [reflexivity|].
  case_bool_decide; [|reflexivity]. split; try done; auto; try (intros x; reflexivity).
  - intros x y Hy. left. simpl. rewrite lookup_insert_ne; [done|]. congruence.
  - intros x y. simpl. rewrite lookup_insert_Some. intros [[_ <-]|[_ ?]]; auto.
Qed.

(** Primary keys. *)
Record keyed s : Prop := {
  keyed_repositories id r : s.(repositories) !! id = Some r → r.(Repo_ID) = id;
  keyed_generations g x : s.(generations) !! g = Some x → x.(Gen_ID) = g
}.

Lemma delete_generation_confined g s :
  (∀ x, s.(generations) !! g = Some x → bound target s x.(Gen_RepositoryID)) →
  confined s (delete_generation s g).
Proof.
  intros Hb. split; try done; try (intros x; reflexivity).
  - intros x a Hne. simpl. destruct (decide (x = g)) as [->|Hx].
    + right. apply map_lookup_filter_None. right. simpl. naive_solver.
    + left. destruct (s.(generation_replicas) !! (x, a)) as [y|] eqn:Ey.
      * apply map_lookup_filter_Some. split; [done|]. exact Hx.
      * apply map_lookup_filter_None. by left.
  - intros x y Hy. simpl. destruct (decide (x = g)) as [->|Hx]; [right; auto|].
    left. by rewrite lookup_delete_ne.
  - intros x y. simpl. rewrite lookup_delete_Some. intros [_ ?]. by left.
Qed.

Lemma prune_confined rid keep s :
  keyed s → bound target s rid → confined s (PruneGenerationRecords rid keep s).1.
Proof.
  intros [_ Hkey] Hb. unfold PruneGenerationRecords. destruct (keep <=? 0); [reflexivity|].
  set (ids := Gen_ID <$> _). destruct (_ <? _); [reflexivity|]. simpl.
  assert (∀ g x, g ∈ ids → s.(generations) !! g = Some x → x.(Gen_RepositoryID) = rid) as Hids.
  { intros g x (y & -> & Hy)%list_elem_of_fmap Hx. rewrite elem_of_sort_slice in Hy.
    apply SqlJobs.elem_of_select in Hy as [(k & Hk) Hr].
    unfold of_repository in Hr. bool_to_prop. rewrite (Hkey _ _ Hk) in Hx. congruence. }
  assert (∀ g, g ∈ drop (Z.to_nat keep) ids → g ∈ ids) as Hsub.
  { intros g Hg. rewrite <- (take_drop (Z.to_nat keep) ids). apply elem_of_app. by right. }
  generalize (drop (Z.to_nat keep) ids) as l, Hsub. clear Hsub Hkey. clearbody ids.
  intros l. revert s Hb Hids. induction l as [|g l IH]; intros s Hb Hids Hl; [reflexivity|]. simpl.
  assert (confined s (delete_generation s g)) as Hd.
  { apply delete_generation_confined. intros x Hx.
    by rewrite (Hids g x (Hl g (list_elem_of_here _ _)) Hx). }
  etrans; [exact Hd|]. apply IH.
  - eapply bound_on; [|exact Hb]. simpl. reflexivity.
  - intros g' x Hg'. simpl. rewrite lookup_delete_Some. intros [_ ?]. by apply (Hids g').
  - intros g' Hg'. apply Hl. by right.
Qed.
End Statements.

(** ** The endpoints *)

Section Endpoints.
Context {MO : MapOrder} {E : Env} {F : Faults} (srv : AgentServer) (local_key : result string).
Context (r : Request).
Local Notation agent := (agentIdentity r).
Implicit Types (s : Server Sql.SQLStore) (i : nat).

Section Rules.
Context (R : relation Sql.SQLStore) `{!PreOrder R}.

Lemma stays_authorized {A} (f : Job * string → Handler Sql.SQLStore A) i s :
  (∀ j, holds_lease r s.(sv_store) j → stays R (f (j, agent)) i s) →
  stays R (authorized r ≫= f) i s.
Proof.
  intros Hf. destruct (authorize_spec r i s) as [(j & Hj & _)|[Hno _]].
  - unfold stays. rewrite (hbind_eq _ _ _ _ _ _ _ (authorized_run r i s j Hj)). by apply Hf.
  - destruct (authorized_refused r i s Hno) as [msg E1]. unfold stays.
    by rewrite (hbind_stop _ _ _ _ _ _ _ E1).
Qed.

Lemma stays_require {A} b n m (f : unit → Handler Sql.SQLStore A) i s :
  (b = true → stays R (f tt) i s) → stays R (require b n m ≫= f) i s.
Proof. intros Hf. destruct b; [by apply Hf|]. unfold stays. cbn. reflexivity. Qed.

Lemma stays_decoded {A B} (o : option A) n m (f : A → Handler Sql.SQLStore B) i s :
  (∀ a, o = Some a → stays R (f a) i s) → stays R (decoded o n m ≫= f) i s.
Proof. intros Hf. destruct o; [by apply Hf|]. unfold stays. cbn. reflexivity. Qed.

Lemma stays_checked {A B} n (x : result A) (f : A → Handler Sql.SQLStore B) i s :
  (∀ a, x = Ok a → stays R (f a) i s) → stays R (or_fail n (mret x) ≫= f) i s.
Proof. intros Hf. destruct x; [by apply Hf|]. unfold stays. cbn. reflexivity. Qed.

Lemma stays_binding {A} target id (f : unit → Handler Sql.SQLStore A) i s :
  keyed s.(sv_store) → (bound target s.(sv_store) id → stays R (f tt) i s) →
  stays R (or_fail 409 (requireRepositoryBinding id target) ≫= f) i s.
Proof.
  intros [Hkey _] Hf. destruct s as [st sp].
  set (found := existsb (λ repo, (repo.(Repo_ID) ≟ id) && (repo.(Repo_FullName) ≟ target))
                  (Sql.ListRepositories st)).
  assert (or_fail 409 (requireRepositoryBinding id target) i (mkServer st sp) =
    if found then (i, mkServer st sp, inr tt)
    else (i, mkServer st sp, inl (http_error 409 "repository id does not match leased job"))) as Eq.
  { unfold or_fail, requireRepositoryBinding, mbind, handler_bind, call, pread. simpl.
    fold found. destruct found; reflexivity. }
  unfold stays, mbind, handler_bind. rewrite Eq.
  destruct found eqn:Ef; [|simpl; reflexivity]. apply Hf.
  apply existsb_exists in Ef as (x & Hx & Hxb). bool_to_prop.
  apply list_elem_of_In in Hx. unfold Sql.ListRepositories in Hx.
  apply elem_of_sort_slice, SqlJobs.elem_of_select in Hx as [(k & Hk) _].
  rewrite (Hkey _ _ Hk) in *. subst. by exists x.
Qed.

Lemma stays_always {A} (p : Handler Sql.SQLStore A) i s : always R p → stays R p i s.
Proof. intros H. apply H. Qed.
End Rules.

Lemma record_keyed g st : keyed st → keyed (Sql.RecordGeneration g st).1.
Proof.
  intros [H1 H2]. unfold Sql.RecordGeneration. destruct (_ !! _); [done|].
  case_bool_decide; [|done]. split; [done|]. intros k x. simpl.
  rewrite lookup_insert_Some. intros [[<- <-]|[_ ?]]; auto.
Qed.
End Endpoints.

Section Confinement.
Context {MO : MapOrder} {E : Env} {F : Faults} (srv : AgentServer) (local_key : result string).
Context (r : Request) (target : string) (w : Reach).
Local Notation agent := (agentIdentity r).
Local Notation R := (confined agent target w).
Implicit Types (s : Server Sql.SQLStore) (i : nat).

Lemma stays_write {A B} n (f : Time → string → Sql.SQLStore → Sql.SQLStore * result A)
    (g : A → Handler Sql.SQLStore B) i s :
  (∀ t token, R s.(sv_store) (f t token s.(sv_store)).1) →
  (∀ t token i1 a, stays R (g a) i1 (mkServer (f t token s.(sv_store)).1 s.(sv_spool))) →
  stays R (or_fail n (write f) ≫= g) i s.
Proof.
  intros Hf Hg. specialize (Hf (clock i) (fresh_token i)). specialize (Hg (clock i) (fresh_token i)).
  unfold stays, or_fail, write, call, pwrite, mbind, handler_bind in *.
  destruct (f (clock i) (fresh_token i) s.(sv_store)) as [st [a|x]]; simpl in *; [|done].
  etrans; [exact Hf|apply Hg].
Qed.

Lemma calm_statement {A} (f : Time → string → Sql.SQLStore → Sql.SQLStore * result A) :
  (∀ k token st, R st (f (clock k) token st).1) → always R (write f).
Proof. intros H. apply always_call, calm_write. intros k st. apply H. Qed.

(** Walks through a program, leaving the statements that need an argument. *)
Ltac walk :=
  intros; simpl;
  lazymatch goal with
  | |- PreOrder _ => apply _
  | |- stays _ (require _ _ _ ≫= _) _ _ => apply stays_require; walk
  | |- stays _ (decoded _ _ _ ≫= _) _ _ => apply stays_decoded; walk
  | |- stays _ (match ?x with _ => _ end) _ _ => destruct x; walk
  | |- always _ (mret _) => apply always_ret; walk
  | |- always _ (respond _) => apply always_respond; walk
  | |- always _ (require _ _ _) => apply always_require; walk
  | |- always _ (decoded _ _ _) => apply always_decoded; walk
  | |- always _ (file _) => apply always_file; walk
  | |- always _ hnow => apply always_now; walk
  | |- always _ (remove _) => unfold remove; walk
  | |- always _ (ignore _) => unfold ignore; walk
  | |- always _ (call _) => apply always_call; walk
  | |- always _ (or_fail _ _) => apply always_fail; walk
  | |- always _ (or_undo _ _ _) => apply always_undo; walk
  | |- always _ (_ ≫= _) => apply always_bind; walk
  | |- always _ (write _) => apply calm_statement; walk
  | |- always _ (match ?x with _ => _ end) => destruct x; walk
  | |- calm _ (mret _) => apply calm_ret; walk
  | |- calm _ (pfail _) => apply calm_fail; walk
  | |- calm _ (pread _) => apply calm_read; walk
  | |- calm _ pnow => apply calm_now; walk
  | |- calm _ (pnew_id _) => apply calm_new_id; walk
  | |- calm _ (_ ≫= _) => apply calm_bind; walk
  | |- calm _ (pfor _ _ _) => apply calm_for; walk
  | |- calm _ (pwrite _) => apply calm_write; walk
  | |- calm _ (match ?x with _ => _ end) => destruct x; walk
  | |- confined _ _ _ _ (Sql.Enqueue _ _ _ _).1 => apply enqueue_confined
  | |- confined _ _ _ _ _ => try (by apply confined_frame)
  | |- _ => idtac
  end.

Lemma repair_calm cfg node digest :
  (∀ id, rc_lease w ("repair:" +:+ id)) → calm R (Repair.ScheduleDistributedRepair cfg node digest).
Proof.
  intros Hw. unfold Repair.ScheduleDistributedRepair, Repair.gather, enqueue. walk.
  apply object_lease_confined; [by intros [=]%(f_equal String.length)|apply Hw].
Qed.

(** The transfer that a job installs, and the lease that it ends. *)
Definition installs (j : Job) (transfer : string) : Prop :=
  (∃ p, j.(Job_Kind) = "install-cas" ∧ unmarshal_install_cas j.(Job_Payload) = Some p ∧
    transfer = p.(ic_TransferID)) ∨
  (∃ p, j.(Job_Kind) = "install-replica" ∧ unmarshal_install_replica j.(Job_Payload) = Some p ∧
    transfer = p.(ir_TransferID)).
Definition installs_leased (j : Job) (lease : string) : Prop :=
  ∃ p e, j.(Job_Kind) = "install-cas" ∧ unmarshal_install_cas j.(Job_Payload) = Some p ∧
    p.(ic_Erasure) = Some e ∧ lease = e.(es_LeaseID).

Lemma complete_stays i s :
  (∀ j, holds_lease r s.(sv_store) j → (∀ id, installs j id → rc_transfer w id) ∧
     ∀ id, installs_leased j id → rc_lease w id) →
  stays R (complete r) i s.
Proof.
  intros Hw. unfold complete. apply stays_authorized; [apply _|]. intros j [Hwt Hwl]%Hw.
  apply stays_bind; [apply _|apply stays_always; walk; apply complete_confined|].
  intros i1 s1 [] _. destruct (bool_decide_reflect (j.(Job_Kind) = "install-cas")) as [Hk|];
    [|apply stays_always; walk].
  destruct (unmarshal_install_cas j.(Job_Payload)) as [p|] eqn:Ep; [|apply stays_always; walk].
  assert (rc_transfer w p.(ic_TransferID)) as Ht by (apply Hwt; left; by exists p).
  assert (∀ e, p.(ic_Erasure) = Some e → rc_lease w e.(es_LeaseID)) as Hl
    by (intros e He; apply Hwl; by exists p, e).
  apply stays_always. destruct (p.(ic_Erasure)) as [e|]; [specialize (Hl e eq_refl)|]; walk;
    first [by apply drop_transfer_confined|by apply drop_lease_confined].
Qed.
Lemma generation_stays body i s :
  keyed s.(sv_store) →
  (∀ j, holds_lease r s.(sv_store) j → j.(Job_Target) = target) →
  stays R (generation srv body r) i s.
Proof.
  intros Hk Ht. unfold generation. apply stays_authorized; [apply _|]. intros j Hj.
  rewrite (Ht j Hj). apply stays_decoded; [apply _|]. intros g _.
  apply stays_require; [apply _|]. intros Hg. bool_to_prop.
  apply stays_binding; [apply _|done|]. intros Hb.
  apply stays_write; [intros; by apply generation_confined|]. intros t token i1 []. simpl.
  set (st1 := (Sql.RecordGeneration g s.(sv_store)).1).
  assert (R s.(sv_store) st1) as H1 by (by apply generation_confined).
  assert (bound target st1 g.(Gen_RepositoryID)) as Hb1 by (eapply bound_on; [apply H1|done]).
  assert (keyed st1) as Hk1 by (by apply record_keyed).
  apply stays_bind; [apply _| |intros; apply stays_always; walk].
  destruct (_ <? _); [|apply stays_always; walk].
  apply stays_bind; [apply _| |intros ? ? [[]|] _; apply stays_always; walk].
  unfold stays, call_panic. simpl.
  pose proof (prune_confined agent target w g.(Gen_RepositoryID) srv.(ags_KeepPerRepo) st1 Hk1 Hb1) as Hp.
  by destruct (Sql.PruneGenerationRecords _ _ st1) as [st2 [x|x]].
Qed.

Lemma backup_result_stays body i s :
  keyed s.(sv_store) →
  (∀ j, holds_lease r s.(sv_store) j → j.(Job_Target) = target) →
  stays R (backupResult body r) i s.
Proof.
  intros Hk Ht. unfold backupResult. apply stays_authorized; [apply _|]. intros j Hj.
  rewrite (Ht j Hj). apply stays_decoded; [apply _|]. intros q _.
  apply stays_binding; [apply _|done|]. intros Hb.
  apply stays_bind; [apply _|apply stays_always; walk|]. intros i1 s1 at_ E1.
  assert (s1 = s) as ->.
  { destruct (IsZero _); unfold hnow, mret, handler_ret in E1; by simplify_eq. }
  apply stays_write; [intros; by apply backup_result_confined|].
  intros. apply stays_always. walk.
Qed.

Lemma replica_stays body i s :
  (∀ j, holds_lease r s.(sv_store) j → ∀ id, installs j id → rc_transfer w id) →
  stays R (replica body r) i s.
Proof.
  intros Hw. unfold replica, requireRepositoryBinding. apply stays_authorized; [apply _|].
  intros j Hj0. pose proof (Hw j Hj0) as Hj. apply stays_decoded; [apply _|]. intros x _.
  apply stays_bind; [apply _|apply stays_always; walk|]. intros i1 s1 [] E1.
  assert (∀ t, j.(Job_Kind) = "install-replica" →
    R t (Sql.DeleteReplicationTransfer match unmarshal_install_replica j.(Job_Payload) with
      | Some p => p.(ir_TransferID) | None => "" end t)) as Hdrop.
  { intros t Hk. rewrite Hk in E1. change (_ ≟ "backup-repo") with false in E1.
    destruct (unmarshal_install_replica j.(Job_Payload)) as [p|] eqn:Ep; [|discriminate E1].
    apply drop_transfer_confined, Hj. right. by exists p. }
  clear E1. set (rp := x <| Replica_AgentID := agent |> <| Replica_MetaPath := _ |>).
  set (rp' := if rp.(Replica_State) ≟ "" then _ else rp).
  assert (rp'.(Replica_AgentID) = agent) as Ha by (unfold rp'; by destruct (_ ≟ _)).
  clearbody rp'. apply stays_bind; [apply _|apply stays_always; walk|]. intros i2 s2 y E2.
  assert (y.(Replica_AgentID) = agent ∧ s2 = s1) as [Hy ->].
  { destruct (IsZero _); unfold mbind, handler_bind, hnow, mret, handler_ret in E2;
      simplify_eq; by split. }
  apply stays_write; [intros; by apply replica_confined|]. intros.
  destruct (bool_decide_reflect (j.(Job_Kind) = "install-replica")) as [Hk|]; apply stays_always; walk.
  by apply Hdrop.
Qed.

Lemma erasure_shard_stays body i s : stays R (erasureShard srv body r) i s.
Proof.
  unfold erasureShard. apply stays_authorized; [apply _|]. intros j Hj. apply stays_always.
  walk. apply shard_confined. by case_match.
Qed.

Lemma heartbeat_stays req i s : stays R (heartbeat req r) i s.
Proof.
  unfold heartbeat. apply stays_require; [apply _|]. intros Hid. bool_to_prop.
  apply stays_always. walk. by apply heartbeat_confined.
Qed.

(** The endpoints of transfers. *)
Ltac relay :=
  apply stays_always;
  unfold validateTransferTargetKey, mkdir, create, open_or_create, read_file, rename, copy_body,
    update_file, enqueueTransferInstall, enqueue_install, install_facts;
  walk; try by apply transfer_confined.

Lemma decode_source j a t p :
  decodeTransferSourceJob j a t = Ok p → p.(tm_TransferID) = t ∧ p.(tm_SourceAgent) = a.
Proof.
  unfold decodeTransferSourceJob. intros H.
  repeat case_match; simplify_eq; simpl; repeat match goal with
    H : (_ || _) = false |- _ => apply orb_false_iff in H as [? ?] end; bool_to_prop; auto.
Qed.

Lemma transfers_read i s :
  stays R (replicationUploadStatus r) i s ∧ stays R (replicationDownload r) i s.
Proof.
  unfold replicationUploadStatus, replicationDownload.
  split; (apply stays_authorized; [apply _|]; intros ? ?; relay).
Qed.

Lemma transfers_stay i s :
  rc_transfer w r.(rq_transfer) →
  stays R (replicationUpload srv local_key r) i s ∧
  stays R (replicationUploadChunk srv local_key r) i s ∧
  ∀ body, stays R (replicationUploadFinalize srv local_key body r) i s.
Proof.
  intros Hw. unfold replicationUpload, replicationUploadChunk, receive_chunk, replicationUploadFinalize.
  split_and!; [| |intros body]; (apply stays_authorized; [apply _|]; intros ? ?); [relay|..].
  all: apply stays_checked; [apply _|]; intros p [Ep Es]%decode_source; rewrite <- Ep in Hw; relay.
Qed.

Lemma object_ref_stays i s body :
  (∀ q, body = Some q →
     rc_object w q.(orq_Ref).(Ref_Digest) ∧ rc_object w (ToLower (TrimSpace q.(orq_Ref).(Ref_Digest)))) →
  stays R (objectRef body r) i s.
Proof.
  intros Hw. unfold objectRef. apply stays_authorized; [apply _|]. intros j _.
  apply stays_require; [apply _|]. intros _. apply stays_decoded; [apply _|]. intros q [??]%Hw.
  apply stays_always. walk; [by apply ensure_confined|by apply adjust_confined].
Qed.

Lemma erasure_set_stays i s body :
  (∀ x, body = Some x → rc_set w x.(ESet_ObjectSHA256)) → stays R (erasureSet body r) i s.
Proof.
  intros Hw. unfold erasureSet. apply stays_authorized; [apply _|]. intros j _.
  apply stays_require; [apply _|]. intros _. apply stays_decoded; [apply _|]. intros x ?%Hw.
  apply stays_always. walk. by apply set_confined.
Qed.

Lemma corrupt_stays i s body :
  (∀ id, rc_lease w ("repair:" +:+ id)) → stays R (corruptObject srv body r) i s.
Proof.
  intros Hw. unfold corruptObject. apply stays_authorized; [apply _|]. intros j _.
  apply stays_always. walk. by apply repair_calm.
Qed.

Lemma lease_fail_enqueue_stay i s b1 b2 :
  stays R (lease srv r) i s ∧ stays R (fail b1 r) i s ∧ stays R (enqueue_child b2 r) i s.
Proof.
  unfold lease, fail, enqueue_child. split_and!.
  - apply stays_always. walk. apply lease_confined.
  - apply stays_authorized; [apply _|]. intros j Hj. apply stays_always. walk. apply fail_confined.
  - apply stays_authorized; [apply _|]. intros j Hj. apply stays_always. walk.
Qed.

End Confinement.

(** What a request reaches of the rows that are nobody's own: the digest it names, the
    erasure set it sends, the leases of a repair, the transfer of its path, and, when
    it reports an installation, the transfer and the lease of that job. *)
Definition reach (e : Endpoint) (r : Request) (st : Sql.SQLStore) : Reach := {|
  rc_object d := match e with
    | EObjectRef (Some q) => d = q.(orq_Ref).(Ref_Digest) ∨ d = ToLower (TrimSpace q.(orq_Ref).(Ref_Digest))
    | _ => False end;
  rc_set d := match e with EErasureSet (Some x) => d = x.(ESet_ObjectSHA256) | _ => False end;
  rc_lease id := match e with
    | ECorruptObject _ => ∃ x, id = "repair:" +:+ x
    | EComplete => ∃ j, holds_lease r st j ∧ installs_leased j id
    | _ => False end;
  rc_transfer id := match e with
    | EUpload | EUploadChunk | EUploadFinalize _ => id = r.(rq_transfer)
    | EComplete | EReplica _ => ∃ j, holds_lease r st j ∧ installs j id
    | _ => False end
|}.

End AgentRules.
