(* ===== verification/AgentTransfers.v ===== *)
(** * Encrypted transfers through the agent server

    The source of a transfer uploads it in chunks and finishes with what it
    declares to have sent; the target downloads it.  A finished upload is what
    was declared, and a download is what was noted for the target. *)

From Stdlib Require Import Ascii String QArith.
From stdpp Require Import pretty.
From S2P Require Import Prelude GoStd Json Sha256 Model Payloads QueueSpec MemStore SqlStore SqlJobs SqlQueue Config Control StorageHealth Requests Placement Replication Erasure Repair AgentServer AgentRules.
#[global] Open Scope Z_scope.

Module AgentTransfers.
Import Placement AgentServer AgentRules.

(** ** Who may move a transfer *)

Section Transfers.
Context {MO : MapOrder} {E : Env} {F : Faults} (srv : AgentServer) (local_key : result string).
Context (no_faults : ∀ k, fault k = None).
Implicit Types (s : Server Sql.SQLStore) (i : nat) (r : Request).

(** The key the source encrypted for is still the target's. *)
Definition key_current (st : Sql.SQLStore) (p : transferSourceMeta) : Prop :=
  if decide (p.(tm_TargetAgent) = LocalWorkerAffinity)
  then local_key = Ok p.(tm_TargetReplicationPubKey)
  else ∃ a, st.(Sql.agents) !! p.(tm_TargetAgent) = Some a ∧
         TrimSpace a.(Agent_ReplicationPublicKey) ≠ "" ∧
         a.(Agent_ReplicationPublicKey) = p.(tm_TargetReplicationPubKey).

(** The request comes from the source of the transfer [p], which runs the job [j]. *)
Record from_source r (st : Sql.SQLStore) (j : Job) (p : transferSourceMeta) : Prop := {
  src_lease : holds_lease r st j;
  src_transfer : decodeTransferSourceJob j (agentIdentity r) r.(rq_transfer) = Ok p;
  src_key : key_current st p
}.

Definition part_of (p : transferSourceMeta) : string :=
  Replication.replicationSpoolPath p.(tm_TransferID) +:+ ".part".

Lemma decode_transfer_id j agent transfer p :
  decodeTransferSourceJob j agent transfer = Ok p →
  p.(tm_TransferID) = transfer ∧ p.(tm_SourceAgent) = agent.
Proof.
  unfold decodeTransferSourceJob. intros H.
  repeat case_match; simplify_eq; bool_to_prop; simpl; by subst.
Qed.

Lemma validate_spec p i s :
  (key_current s.(sv_store) p ∧ validateTransferTargetKey local_key p.(tm_TargetAgent)
     p.(tm_TargetReplicationPubKey) i s = (i, s, inr (Ok tt))) ∨
  (¬ key_current s.(sv_store) p ∧ ∃ e, validateTransferTargetKey local_key p.(tm_TargetAgent)
     p.(tm_TargetReplicationPubKey) i s = (i, s, inr (Err e))).
Proof.
  destruct s as [st sp]. unfold key_current, validateTransferTargetKey.
  destruct (bool_decide_reflect (p.(tm_TargetAgent) = LocalWorkerAffinity)) as [Hl|Hl];
    [rewrite decide_True by done|rewrite decide_False by done].
  - destruct local_key as [k|e]; [|by right; split; [|eexists]].
    destruct (bool_decide_reflect (k = p.(tm_TargetReplicationPubKey))) as [->|Hk]; [by left|].
    right. split; [congruence|by eexists].
  - unfold call, pread, mbind, handler_bind. simpl. unfold Sql.GetAgent.
    destruct (st.(Sql.agents) !! p.(tm_TargetAgent)) as [a|]; [|right; split; [naive_solver|by eexists]].
    destruct (bool_decide_reflect (TrimSpace a.(Agent_ReplicationPublicKey) = "")) as [Hb|Hb]; simpl.
    { right. split; [naive_solver|by eexists]. }
    destruct (bool_decide_reflect (a.(Agent_ReplicationPublicKey) = p.(tm_TargetReplicationPubKey)))
      as [Hk|Hk]; simpl; [left; split; [by exists a|done]|right; split; [naive_solver|by eexists]].
Qed.

(** Refused, with nothing changed. *)
Definition refused s (out : nat * Server Sql.SQLStore * Response) : Prop :=
  ∃ i' code msg, out = (i', s, http_error code msg) ∧ 400 ≤ code < 500.

Lemma or_fail_ok {A} n (p : Handler Sql.SQLStore (result A)) i s i1 s1 a :
  p i s = (i1, s1, inr (Ok a)) → or_fail n p i s = (i1, s1, inr a).
Proof. intros E1. unfold or_fail. by rewrite (hbind_eq _ _ _ _ _ _ _ E1). Qed.

Lemma or_fail_err {A} n (p : Handler Sql.SQLStore (result A)) i s i1 s1 e :
  p i s = (i1, s1, inr (Err e)) → or_fail n p i s = (i1, s1, inl (http_error n e)).
Proof. intros E1. unfold or_fail. by rewrite (hbind_eq _ _ _ _ _ _ _ E1). Qed.

Definition answer {A} (x : A * (Response + Response)) : A * Response :=
  match x with (a, inl y) | (a, inr y) => (a, y) end.

Lemma serve_answer e r i s : serve srv local_key e r i s = answer (handle srv local_key e r i s).
Proof. unfold serve, answer. by destruct (handle _ _ _ _ i s) as [[i1 s1] [x|x]]. Qed.

(** ** Uploading a chunk *)

Definition chunk_max : Z :=
  if srv.(ags_Storage).(sd_ChunkBytes) <=? 0 then Z.shiftl 8 20 else srv.(ags_Storage).(sd_ChunkBytes).

(** Nothing is lost or gained: only the bytes of the partial file may differ. *)
Definition same_extent r s s' : Prop :=
  s'.(sv_store) = s.(sv_store) ∧
  (∀ f, f ≠ Replication.replicationSpoolPath r.(rq_transfer) +:+ ".part" →
     s'.(sv_spool) !! f = s.(sv_spool) !! f) ∧
  (∀ f, slen (content f s'.(sv_spool)) = slen (content f s.(sv_spool))).

Lemma length_append a b : String.length (a +:+ b) = (String.length a + String.length b)%nat.
Proof. induction a as [|c a IH]; [done|]. simpl. by rewrite IH. Qed.

Lemma substring_length n m str :
  String.length (String.substring n m str) = Nat.min m (String.length str - n).
Proof.
  revert n m. induction str as [|c str IH]; intros n m; [by destruct n, m|].
  destruct n as [|n]; simpl; [|apply IH]. destruct m as [|m]; [done|]. simpl. rewrite IH. lia.
Qed.

Lemma slen_app a b : slen (a +:+ b) = slen a + slen b.
Proof. unfold slen. rewrite length_append. lia. Qed.

Lemma slen_prefix n str : 0 ≤ n ≤ slen str → slen (prefix_of n str) = n.
Proof. unfold slen, prefix_of. intros H. rewrite substring_length. lia. Qed.

Lemma slen_overwrite data old : slen (overwrite data old) = Z.max (slen data) (slen old).
Proof. unfold overwrite. rewrite slen_app. unfold slen. rewrite substring_length. lia. Qed.

Lemma slen_truncate data old : slen (truncate (slen old) (overwrite data old)) = slen old.
Proof.
  unfold truncate. rewrite slen_overwrite.
  destruct (Z.leb_spec (Z.max (slen data) (slen old)) (slen old)).
  - rewrite slen_overwrite. lia.
  - apply slen_prefix. rewrite slen_overwrite. unfold slen in *. lia.
Qed.

Lemma same_extent_refl r s : same_extent r s s. Proof. done. Qed.

(** A change of the partial file that keeps its length. *)
Lemma same_extent_part r s c :
  let part := Replication.replicationSpoolPath r.(rq_transfer) +:+ ".part" in
  slen c = slen (content part s.(sv_spool)) →
  same_extent r s (mkServer s.(sv_store) (<[part := c]> s.(sv_spool))).
Proof.
  intros part Hc. split_and!; [done|intros f Hf; simpl; by rewrite lookup_insert_ne|].
  intros f. unfold content; simpl. destruct (decide (f = part)) as [->|Hf].
  - by rewrite lookup_insert_eq.
  - by rewrite lookup_insert_ne.
Qed.

(** Stopped with an error that leaves all files as long as they were. *)
Definition chunk_refused r s (out : nat * Server Sql.SQLStore * Response) : Prop :=
  ∃ i' s' code h msg, out = (i', s', Answer code h (Text msg)) ∧ 400 ≤ code < 500 ∧ same_extent r s s'.

Lemma chunk_stop {A} r (p : Handler Sql.SQLStore A) f i s s0 i1 s1 code h msg :
  p i s = (i1, s1, inl (Answer code h (Text msg))) → 400 ≤ code < 500 → same_extent r s0 s1 →
  chunk_refused r s0 (answer ((p ≫= f) i s)).
Proof. intros E1 Hc Hs. rewrite (hbind_stop _ _ _ _ _ _ _ E1). by exists i1, s1, code, h, msg. Qed.

Lemma or_undo_ok {A} n c (p : Handler Sql.SQLStore (result A)) i s i1 s1 a :
  p i s = (i1, s1, inr (Ok a)) → or_undo n c p i s = (i1, s1, inr a).
Proof. intros E1. unfold or_undo. by rewrite (hbind_eq _ _ _ _ _ _ _ E1). Qed.

Lemma or_undo_err {A} n c (p : Handler Sql.SQLStore (result A)) i s i1 s1 i2 s2 e :
  p i s = (i1, s1, inr (Err e)) → c i1 s1 = (i2, s2, inr tt) →
  or_undo n c p i s = (i2, s2, inl (http_error n e)).
Proof.
  intros E1 E2. unfold or_undo. rewrite (hbind_eq _ _ _ _ _ _ _ E1). simpl.
  by rewrite (hbind_eq _ _ _ _ _ _ _ E2).
Qed.

Lemma file_run {A} (f : _ → _ * result A) i s :
  file f i s = (Datatypes.S i, mkServer s.(sv_store) (f s.(sv_spool)).1, inr (f s.(sv_spool)).2).
Proof. unfold file. rewrite no_faults. by destruct (f s.(sv_spool)). Qed.

Lemma copy_body_run name place limit r i s :
  copy_body name place limit r i s =
    (Datatypes.S i,
     mkServer s.(sv_store) (<[name := place (body_read limit r).1 (content name s.(sv_spool))]> s.(sv_spool)),
     inr (match (body_read limit r).2 with Some e => Err e | None => Ok (body_read limit r).1 end)).
Proof.
  unfold copy_body, update_file. destruct (body_read limit r) as [data broken].
  rewrite (hbind_eq _ _ _ _ _ _ _ (file_run _ _ _)). simpl. by destruct broken.
Qed.

Lemma undo_run part w c (st : Sql.SQLStore) sp i :
  ignore (update_file part (truncate w)) i (mkServer st (<[part := c]> sp))
    = (Datatypes.S i, mkServer st (<[part := truncate w c]> sp), inr tt).
Proof.
  unfold ignore, update_file. rewrite (hbind_eq _ _ _ _ _ _ _ (file_run _ _ _)). simpl.
  unfold content. by rewrite lookup_insert_eq, insert_insert_eq.
Qed.

(** What an accepted chunk does. *)
Record received p (data : string) s s' : Prop := {
  rc_spool : s'.(sv_spool) = <[part_of p := overwrite data (content (part_of p) s.(sv_spool))]> s.(sv_spool);
  rc_jobs : s'.(sv_store).(Sql.jobs) = s.(sv_store).(Sql.jobs);
  rc_transfer : ∃ t, s'.(sv_store).(Sql.replication_transfers)
      = <[p.(tm_TransferID) := t]> s.(sv_store).(Sql.replication_transfers) ∧
    t.(Transfer_State) = TransferReceiving ∧
    t.(Transfer_Bytes) = slen (content (part_of p) s.(sv_spool)) + slen data
}.

(** The conditions on the chunk itself. *)
Definition good_data r s p (data : string) : Prop :=
  ParseInt (TrimSpace r.(rq_offset)) = Some (slen (content (part_of p) s.(sv_spool))) ∧
  body_read (wrap64 (chunk_max + 1)) r = (data, None) ∧ slen data ≤ chunk_max ∧
  sha256hex data = ToLower (TrimSpace r.(rq_chunk_sha)) ∧
  slen (ToLower (TrimSpace r.(rq_chunk_sha))) = 64 ∧
  (0 < srv.(ags_Replication).(rep_MaxTransferBytes) →
    slen (content (part_of p) s.(sv_spool)) + slen data ≤ srv.(ags_Replication).(rep_MaxTransferBytes)).

Lemma record_run p n part now i s :
  TrimSpace p.(tm_TransferID) ≠ "" →
  ∃ t, write (fun t _ => as_RecordReplicationTransfer t (transfer_row srv p part TransferReceiving "" n now)) i s
      = (Datatypes.S i, mkServer (s.(sv_store) <| Sql.replication_transfers :=
           <[p.(tm_TransferID) := t]> s.(sv_store).(Sql.replication_transfers) |>) s.(sv_spool), inr (Ok tt)) ∧
    t.(Transfer_State) = TransferReceiving ∧ t.(Transfer_Bytes) = n.
Proof.
  intros Hne. eexists. unfold write, call, pwrite. simpl. unfold Sql.RecordReplicationTransfer. simpl.
  rewrite (bool_decide_eq_false_2 _ Hne). unfold Sql.upsert. simpl.
  split; [by case_match|done].
Qed.

Lemma receive_run r p i s :
  p.(tm_TransferID) = r.(rq_transfer) → TrimSpace p.(tm_TransferID) ≠ "" →
  let out := answer (receive_chunk srv p r i s) in
  (∃ data i' s' body, good_data r s p data ∧ received p data s s' ∧
     out = (i', s', Answer 200
       [("X-RepoArk-Offset", pretty (slen (content (part_of p) s.(sv_spool)) + slen data))] body)) ∨
  ((∀ data, ¬ good_data r s p data) ∧ chunk_refused r s out).
Proof.
  intros Hid Hne out. unfold out. clear out. unfold receive_chunk.
  set (part := part_of p). set (old := content part s.(sv_spool)).
  assert (part = Replication.replicationSpoolPath r.(rq_transfer) +:+ ".part") as Hpart
    by (unfold part, part_of; by rewrite Hid).
  destruct (ParseInt (TrimSpace r.(rq_offset))) as [w|] eqn:Ew.
  2: { right. split; [intros d (? & _); congruence|by eapply chunk_stop]. }
  rewrite (hbind_eq (decoded (Some w) _ _) _ i s i s w) by done.
  destruct (0 <=? w) eqn:Hw.
  2: { right. split; [|by eapply chunk_stop]. intros d (H & _). rewrite Ew in H. injection H as ->.
       apply Z.leb_gt in Hw. unfold slen in Hw. lia. }
  rewrite (hbind_eq (require true _ _) _ i s i s tt) by done.
  destruct (slen (ToLower (TrimSpace r.(rq_chunk_sha))) =? 64) eqn:H64.
  2: { right. split; [|by eapply chunk_stop]. intros d (_ & _ & _ & _ & Hl & _).
       by rewrite Hl in H64. }
  rewrite (hbind_eq (require true _ _) _ i s i s tt) by done. apply Z.eqb_eq in H64.
  fold (part_of p). fold part.
  set (sp1 := match s.(sv_spool) !! part with Some _ => s.(sv_spool) | None => <[part := ""]> s.(sv_spool) end).
  set (s1 := mkServer s.(sv_store) sp1).
  assert (content part sp1 = old) as Hold.
  { unfold sp1, old, content. destruct (s.(sv_spool) !! part) eqn:E1; [by rewrite E1|].
    by rewrite lookup_insert_eq. }
  assert (same_extent r s s1) as Hext.
  { split_and!; [done| |].
    - intros f Hf. simpl. unfold sp1. case_match; [done|]. apply lookup_insert_ne. congruence.
    - intros f. simpl. unfold content at 1. unfold sp1. destruct (s.(sv_spool) !! part) eqn:E1; [done|].
      destruct (decide (f = part)) as [->|Hf]; [|by rewrite lookup_insert_ne].
      rewrite lookup_insert_eq. unfold content. by rewrite E1. }
  assert (or_fail 500 (open_or_create part) i s = (Datatypes.S i, s1, inr tt)) as E1.
  { apply or_fail_ok. unfold open_or_create. by rewrite file_run. }
  rewrite (hbind_eq _ _ _ _ _ _ _ E1).
  assert (∀ k, or_fail 500 (file (fun fs => (fs, Ok (slen (content part fs))))) k s1
    = (Datatypes.S k, s1, inr (slen old))) as E2.
  { intros k. apply or_fail_ok. rewrite file_run. simpl. by rewrite Hold. }
  rewrite (hbind_eq _ _ _ _ _ _ _ (E2 _)).
  destruct (bool_decide_reflect (slen old = w)) as [Hsz|Hsz]; cbn [negb].
  2: { right. split; [intros d (H & _); rewrite Ew in H; injection H as ->; by destruct Hsz|].
       eexists _, s1, _, _, _. split; [reflexivity|]. split; [lia|done]. }
  subst w. fold chunk_max.
  set (data := (body_read (wrap64 (chunk_max + 1)) r).1).
  set (s2 := mkServer s.(sv_store) (<[part := overwrite data old]> sp1)).
  set (s3 := mkServer s.(sv_store) (<[part := truncate (slen old) (overwrite data old)]> sp1)).
  assert (same_extent r s s3) as Hext3.
  { destruct Hext as (_ & Hf & Hl). split_and!; [done| |].
    - intros f Hne'. simpl. rewrite lookup_insert_ne by congruence. by apply Hf.
    - intros f. unfold content at 1; simpl. destruct (decide (f = part)) as [->|Hne'].
      + rewrite lookup_insert_eq. simpl. apply slen_truncate.
      + rewrite lookup_insert_ne by done. apply Hl. }
  assert (∀ k, ignore (update_file part (truncate (slen old))) k s2 = (Datatypes.S k, s3, inr tt)) as Hundo
    by (intros k; apply undo_run).
  pose proof (copy_body_run part overwrite (wrap64 (chunk_max + 1)) r (Datatypes.S (Datatypes.S i)) s1) as Ec.
  simpl in Ec. rewrite Hold in Ec. fold data in Ec. fold s2 in Ec.
  destruct ((body_read (wrap64 (chunk_max + 1)) r).2) as [e|] eqn:Eb.
  { right. split; [|eapply chunk_stop; [by eapply or_undo_err|lia|done]].
    intros d (_ & H & _). by rewrite H in Eb. }
  rewrite (hbind_eq _ _ _ _ _ _ _ (or_undo_ok 400 _ _ _ _ _ _ _ Ec)).
  assert (body_read (wrap64 (chunk_max + 1)) r = (data, None)) as Hbody
    by (unfold data; rewrite <- Eb; by destruct (body_read _ r)).
  assert (∀ d, good_data r s p d → d = data) as Hdata.
  { intros d (_ & H & _). congruence. }
  destruct (chunk_max <? slen data) eqn:Hmax.
  { right. split; [|eapply chunk_stop; [by eapply or_undo_err|lia|done]].
    intros d Hd. pose proof (Hdata d Hd) as ->. destruct Hd as (_ & _ & H & _).
    apply Z.ltb_lt in Hmax. lia. }
  rewrite (hbind_eq _ _ _ _ _ _ _ (or_undo_ok 413 _ (mret (Ok tt)) _ s2 _ s2 tt eq_refl)).
  destruct (bool_decide_reflect (sha256hex data = ToLower (TrimSpace r.(rq_chunk_sha)))) as [Hsha|Hsha].
  2: { right. split; [|eapply chunk_stop; [by eapply or_undo_err|lia|done]].
       intros d Hd. pose proof (Hdata d Hd) as ->. by destruct Hd as (_ & _ & _ & H & _). }
  rewrite (hbind_eq _ _ _ _ _ _ _ (or_undo_ok 422 _ (mret (Ok tt)) _ s2 _ s2 tt eq_refl)).
  set (max := srv.(ags_Replication).(rep_MaxTransferBytes)).
  destruct ((0 <? max) && (max <? slen old + slen data)) eqn:Htot.
  { right. split; [|eapply chunk_stop; [by eapply or_undo_err|lia|done]].
    intros d Hd. pose proof (Hdata d Hd) as ->. destruct Hd as (_ & _ & _ & _ & _ & H).
    apply andb_true_iff in Htot as [H0 H1]. apply Z.ltb_lt in H0, H1. specialize (H H0). 
    fold part old max in H. lia. }
  rewrite (hbind_eq _ _ _ _ _ _ _ (or_undo_ok 413 _ (mret (Ok tt)) _ s2 _ s2 tt eq_refl)).
  left. exists data.
  assert (<[part := overwrite data old]> sp1 = <[part := overwrite data old]> s.(sv_spool)) as Hsp.
  { unfold sp1. case_match; [done|]. by rewrite insert_insert_eq. }
  assert (∀ k, file (fun fs => (fs, Ok tt)) k s2 = (Datatypes.S k, s2, inr (Ok tt))) as E3
    by (intros k; by rewrite file_run).
  rewrite (hbind_eq _ _ _ _ _ _ _ (or_undo_ok 500 _ _ _ _ _ _ _ (E3 _))).
  rewrite (hbind_eq hnow _ _ s2 _ s2 _ eq_refl).
  destruct (record_run p (slen old + slen data) part (clock (Datatypes.S (Datatypes.S (Datatypes.S (Datatypes.S i)))))
    (Datatypes.S (Datatypes.S (Datatypes.S (Datatypes.S (Datatypes.S i))))) s2 Hne) as (t & E4 & Ht1 & Ht2).
  rewrite (hbind_eq _ _ _ _ _ _ _ (or_fail_ok 500 _ _ _ _ _ _ E4)).
  eexists _, _, _. split; [|split; [|reflexivity]].
  - split_and!; try done; [by apply Z.ltb_ge|]. intros H0. fold max in H0 |- *.
    apply andb_false_iff in Htot as [Htot|Htot]; apply Z.ltb_ge in Htot; [lia|exact Htot].
  - split; simpl; [exact Hsp|done|]. by exists t.
Qed.

(** The chunk [data] comes from the source of the transfer, for the offset the
    partial file ends at, is whole and no larger than allowed, and hashes to what
    its header says. *)
Definition good_chunk r s j p (data : string) : Prop :=
  from_source r s.(sv_store) j p ∧ good_data r s p data.

(** C36. A chunk is accepted exactly when it should be (it comes from the source,
    for the offset the partial file ends at, whole, small enough and with the hash
    of its header), and then it is written over the start of the partial file: the
    file is as long as the longer of the two, though the answer and the transfer
    row say that it grew by the chunk.  Otherwise the request is refused, the store
    is unchanged and all files are as long as before. *)
Theorem chunk_is_written_over_the_start r i s :
  TrimSpace r.(rq_transfer) ≠ "" →
  let out := serve srv local_key EUploadChunk r i s in
  (∃ j p data i' s' body, good_chunk r s j p data ∧ received p data s s' ∧
     let old := content (part_of p) s.(sv_spool) in
     slen (content (part_of p) s'.(sv_spool)) = Z.max (slen data) (slen old) ∧
     out = (i', s', Answer 200 [("X-RepoArk-Offset", pretty (slen old + slen data))] body)) ∨
  ((∀ j p data, ¬ good_chunk r s j p data) ∧ chunk_refused r s out).
Proof.
  intros Hne out. unfold out. clear out. rewrite serve_answer. simpl.
  unfold replicationUploadChunk.
  destruct (authorize_spec r i s) as [(j & Hj & _)|[Hno _]].
  2: { right. split; [intros j p d [[Hl _ _] _]; by apply (Hno j)|].
       destruct (authorized_refused r i s Hno) as [msg E1]. by eapply chunk_stop. }
  rewrite (hbind_eq _ _ _ _ _ _ _ (authorized_run r i s j Hj)).
  destruct (decodeTransferSourceJob j (agentIdentity r) r.(rq_transfer)) as [p|e] eqn:Ep.
  2: { right. split; [|by eapply chunk_stop]. intros j' p d [[(_ & H1 & _) Hd _] _].
       destruct Hj as (_ & H2 & _). congruence. }
  assert (∀ j' p' d, good_chunk r s j' p' d → p' = p) as Hsame.
  { intros j' p' d [[(_ & H1 & _) Hd _] _]. destruct Hj as (_ & H2 & _). congruence. }
  rewrite (hbind_eq _ _ _ _ _ _ _ (or_fail_ok 409 (mret (Ok p)) i s i s p eq_refl)).
  destruct (decode_transfer_id _ _ _ _ Ep) as [Hid Hsrc].
  destruct (validate_spec p i s) as [[Hk E2]|[Hk [e E2]]].
  2: { right. split; [intros j' p' d Hm; pose proof (Hsame _ _ _ Hm) as ->; by destruct Hm as [[_ _ ?] _]|].
       eapply chunk_stop; [by apply or_fail_err|lia|done]. }
  rewrite (hbind_eq _ _ _ _ _ _ _ (or_fail_ok 409 _ _ _ _ _ _ E2)).
  assert (or_fail 500 mkdir i s = (Datatypes.S i, s, inr tt)) as E3.
  { apply or_fail_ok. unfold mkdir. rewrite file_run. by destruct s. }
  rewrite (hbind_eq _ _ _ _ _ _ _ E3).
  destruct (receive_run r p (Datatypes.S i) s Hid) as [(d & i' & s' & b & Hg & Hr & Eo)|[Hno Hr]];
    [by rewrite Hid|left|right].
  - exists j, p, d, i', s', b. split_and!; [by split|done| |done].
    destruct Hr as [-> _ _]. unfold content at 1. rewrite lookup_insert_eq. apply slen_overwrite.
  - split; [|done]. intros j' p' d Hm. pose proof (Hsame _ _ _ Hm) as ->. destruct Hm as [_ Hm].
    by apply (Hno d).
Qed.

(** ** Downloading *)

(** What an install job says about its transfer. *)
Record facts := mkFacts {
  f_id : string; f_target : string; f_generation : string; f_repository : string;
  f_sha : string; f_bytes : Z
}.

Definition facts_of (j : Job) : option facts :=
  if j.(Job_Kind) ≟ "install-replica" then
    p ← unmarshal_install_replica j.(Job_Payload);
    Some (mkFacts p.(ir_TransferID) p.(ir_TargetAgent) p.(ir_GenerationID) p.(ir_RepositoryID)
            p.(ir_CipherSHA256) p.(ir_CipherBytes))
  else if j.(Job_Kind) ≟ "install-cas" then
    p ← unmarshal_install_cas j.(Job_Payload);
    Some (mkFacts p.(ic_TransferID) p.(ic_TargetAgent)
            (cas_generation p.(ic_SourceAgent) p.(ic_TargetAgent)) "__cas__"
            p.(ic_CipherSHA256) p.(ic_CipherBytes))
  else None.

(** The noted transfer is the one of the job, and still kept. *)
Definition matches (f : facts) (now : Time) (t : ReplicationTransfer) : Prop :=
  (t.(Transfer_ExpiresAt) = time_zero ∨ now < t.(Transfer_ExpiresAt)) ∧
  t.(Transfer_TargetAgent) = f.(f_target) ∧ t.(Transfer_GenerationID) = f.(f_generation) ∧
  t.(Transfer_RepositoryID) = f.(f_repository) ∧ t.(Transfer_SHA256) = f.(f_sha) ∧
  t.(Transfer_Bytes) = f.(f_bytes).

(** The file [c] is for the agent that asks: it runs the job that installs it. *)
Record deliverable r i s j f (c : string) : Prop := {
  dl_lease : holds_lease r s.(sv_store) j;
  dl_facts : facts_of j = Some f;
  dl_named : r.(rq_transfer) ≠ "" ∧ f.(f_id) = r.(rq_transfer);
  dl_target : f.(f_target) = agentIdentity r;
  dl_noted : ∃ t, s.(sv_store).(Sql.replication_transfers) !! r.(rq_transfer) = Some t ∧
    matches f (clock i) t;
  dl_file : s.(sv_spool) !! Replication.replicationSpoolPath r.(rq_transfer) = Some c;
  dl_size : 0 < f.(f_bytes) → slen c = f.(f_bytes)
}.

Definition stopped s (out : nat * Server Sql.SQLStore * Response) : Prop :=
  ∃ i' code msg, out = (i', s, http_error code msg) ∧ 400 ≤ code ≤ 500.

Lemma stopped_at {A} (p : Handler Sql.SQLStore A) f i s i1 code msg :
  p i s = (i1, s, inl (http_error code msg)) → 400 ≤ code ≤ 500 →
  stopped s (answer ((p ≫= f) i s)).
Proof. intros E1 Hc. rewrite (hbind_stop _ _ _ _ _ _ _ E1). by exists i1, code, msg. Qed.

Lemma install_facts_run r j i s :
  (∃ f, facts_of j = Some f ∧ r.(rq_transfer) ≠ "" ∧ f.(f_id) = r.(rq_transfer) ∧
     f.(f_target) = agentIdentity r ∧
     install_facts j (agentIdentity r) r.(rq_transfer) i s
       = (i, s, inr (f.(f_target), f.(f_generation), f.(f_repository), f.(f_sha), f.(f_bytes)))) ∨
  ((∀ f, facts_of j = Some f → r.(rq_transfer) ≠ "" → f.(f_id) = r.(rq_transfer) →
     f.(f_target) ≠ agentIdentity r) ∧
   ∃ code msg, install_facts j (agentIdentity r) r.(rq_transfer) i s
       = (i, s, inl (http_error code msg)) ∧ 400 ≤ code ≤ 500).
Proof.
  assert (∀ id tgt, let b := (r.(rq_transfer) ≠? "") && (r.(rq_transfer) ≟ id) && (tgt ≟ agentIdentity r) in
    (b = true ∧ r.(rq_transfer) ≠ "" ∧ id = r.(rq_transfer) ∧ tgt = agentIdentity r) ∨
    (b = false ∧ (r.(rq_transfer) ≠ "" → id = r.(rq_transfer) → tgt ≠ agentIdentity r))) as Hb.
  { intros id tgt. destruct (_ && _) eqn:Eb; [left|right]; (split; [done|]).
    - by bool_to_prop.
    - intros H1 -> ->. rewrite (bool_decide_eq_false_2 _ H1), !bool_decide_eq_true_2 in Eb; done. }
  unfold facts_of, install_facts.
  destruct (j.(Job_Kind) ≟ "install-replica").
  { destruct (unmarshal_install_replica j.(Job_Payload)) as [p|]; [|right; split; [done|do 2 eexists; split; [reflexivity|lia]]].
    destruct (Hb p.(ir_TransferID) p.(ir_TargetAgent)) as [(E1 & ? & ? & ?)|[E1 Hno]]; [left|right].
    - eexists. split; [reflexivity|]. cbn [option_bind mbind f_id f_target f_generation f_repository f_sha f_bytes].
      split_and!; try done. rewrite (hbind_eq (decoded (Some p) _ _) _ i s i s p) by done. by rewrite E1.
    - split; [intros f [= <-]; exact Hno|]. rewrite (hbind_eq (decoded (Some p) _ _) _ i s i s p) by done.
      rewrite E1. do 2 eexists. split; [reflexivity|lia]. }
  destruct (j.(Job_Kind) ≟ "install-cas"); [|right; split; [done|do 2 eexists; split; [reflexivity|lia]]].
  destruct (unmarshal_install_cas j.(Job_Payload)) as [p|]; [|right; split; [done|do 2 eexists; split; [reflexivity|lia]]].
  destruct (Hb p.(ic_TransferID) p.(ic_TargetAgent)) as [(E1 & ? & ? & ?)|[E1 Hno]]; [left|right].
  - eexists. split; [reflexivity|]. cbn [option_bind mbind f_id f_target f_generation f_repository f_sha f_bytes].
      split_and!; try done. rewrite (hbind_eq (decoded (Some p) _ _) _ i s i s p) by done. by rewrite E1.
  - split; [intros f [= <-]; exact Hno|]. rewrite (hbind_eq (decoded (Some p) _ _) _ i s i s p) by done.
      rewrite E1. do 2 eexists. split; [reflexivity|lia].
Qed.

(** From the noted transfer on. *)
Lemma deliver_run r j f i s t :
  s.(sv_store).(Sql.replication_transfers) !! r.(rq_transfer) = Some t →
  holds_lease r s.(sv_store) j → facts_of j = Some f → r.(rq_transfer) ≠ "" →
  f.(f_id) = r.(rq_transfer) → f.(f_target) = agentIdentity r →
  let out := answer (((if IsZero t.(Transfer_ExpiresAt) then mret tt
      else now ← hnow; require (After t.(Transfer_ExpiresAt) now) 410 "replication transfer expired");;
    require ((t.(Transfer_TargetAgent) ≟ f.(f_target)) && (t.(Transfer_GenerationID) ≟ f.(f_generation))
             && (t.(Transfer_RepositoryID) ≟ f.(f_repository)) && (t.(Transfer_SHA256) ≟ f.(f_sha))
             && (t.(Transfer_Bytes) =? f.(f_bytes))) 409 "replication transfer metadata mismatch";;
    x ← read_file (Replication.replicationSpoolPath r.(rq_transfer));
    c ← (match x with
         | Ok c => mret c
         | Err _ => respond (http_error 404 "replication blob unavailable")
         end);
    or_fail 500 (file (fun fs => (fs, Ok tt)));;
    require ((f.(f_bytes) <=? 0) || (slen c =? f.(f_bytes))) 409 "replication blob size mismatch";;
    mret (Answer 200 [("X-RepoArk-Cipher-SHA256", f.(f_sha))] (Blob c)) : Handler Sql.SQLStore Response) i s) in
  (∃ c i', deliverable r i s j f c ∧
     out = (i', s, Answer 200 [("X-RepoArk-Cipher-SHA256", f.(f_sha))] (Blob c))) ∨
  ((∀ j' f' c, ¬ deliverable r i s j' f' c) ∧ stopped s out).
Proof.
  intros Ht Hj Hf Hne Hid Htgt out. unfold out. clear out.
  set (path := Replication.replicationSpoolPath r.(rq_transfer)).
  assert (∀ j' f' c, deliverable r i s j' f' c → f' = f ∧ matches f (clock i) t ∧
    s.(sv_spool) !! path = Some c ∧ (0 < f.(f_bytes) → slen c = f.(f_bytes))) as Hd.
  { intros j' f' c [(_ & H1 & _) H2 _ _ (t' & H3 & H4) H5 H6]. destruct Hj as (_ & H7 & _).
    assert (f' = f) as -> by congruence. assert (t' = t) as -> by congruence. done. }
  assert ((t.(Transfer_ExpiresAt) = time_zero ∨ clock i < t.(Transfer_ExpiresAt)) ∧ (∃ i1,
      (if IsZero t.(Transfer_ExpiresAt) then mret tt
       else now ← hnow; require (After t.(Transfer_ExpiresAt) now) 410 "replication transfer expired"
       : Handler Sql.SQLStore unit) i s = (i1, s, inr tt)) ∨
    ¬ (t.(Transfer_ExpiresAt) = time_zero ∨ clock i < t.(Transfer_ExpiresAt)) ∧ ∃ i1,
      (if IsZero t.(Transfer_ExpiresAt) then mret tt
       else now ← hnow; require (After t.(Transfer_ExpiresAt) now) 410 "replication transfer expired"
       : Handler Sql.SQLStore unit) i s = (i1, s, inl (http_error 410 "replication transfer expired")))
    as [[Hlive [i1 E1]]|[Hdead [i1 E1]]].
  { unfold IsZero, time_zero. destruct (Z.eqb_spec t.(Transfer_ExpiresAt) 0) as [->|Hz];
      [left; split; [by left|by eexists]|].
    unfold After. destruct (clock i <? t.(Transfer_ExpiresAt)) eqn:Hl.
    - left. apply Z.ltb_lt in Hl. split; [by right|]. exists (Datatypes.S i).
      rewrite (hbind_eq hnow _ i s (Datatypes.S i) s (clock i)) by done. 
      apply Z.ltb_lt in Hl. by rewrite Hl.
    - right. apply Z.ltb_ge in Hl. split; [lia|]. exists (Datatypes.S i).
      rewrite (hbind_eq hnow _ i s (Datatypes.S i) s (clock i)) by done.
      apply Z.ltb_ge in Hl. by rewrite Hl. }
  2: { right. split; [|by eapply stopped_at].
       intros j' f' c H. by destruct (Hd j' f' c H) as (_ & [H1 _] & _). }
  rewrite (hbind_eq _ _ _ _ _ _ _ E1). destruct (_ && _) eqn:Hm.
  2: { right. split; [|by eapply stopped_at]. intros j' f' c H.
       destruct (Hd j' f' c H) as (_ & (_ & H1 & H2 & H3 & H4 & H5) & _).
       rewrite H1, H2, H3, H4, H5, !bool_decide_eq_true_2, Z.eqb_refl in Hm; done. }
  rewrite (hbind_eq (require true _ _) _ i1 s i1 s tt) by done.
  assert (read_file path i1 s = (Datatypes.S i1, s, inr (match s.(sv_spool) !! path with
    | Some c => Ok c | None => Err ("open " +:+ path +:+ ": no such file or directory") end))) as E2.
  { unfold read_file. rewrite file_run. by destruct s. }
  rewrite (hbind_eq _ _ _ _ _ _ _ E2).
  destruct (s.(sv_spool) !! path) as [c|] eqn:Ec.
  2: { right. split; [|by eapply stopped_at]. intros j' f' c H.
       destruct (Hd j' f' c H) as (_ & _ & H1 & _). congruence. }
  rewrite (hbind_eq (mret c) _ _ s _ s c eq_refl).
  assert (or_fail 500 (file (fun fs => (fs, Ok tt))) (Datatypes.S i1) s
    = (Datatypes.S (Datatypes.S i1), s, inr tt)) as E3.
  { apply or_fail_ok. rewrite file_run. by destruct s. }
  rewrite (hbind_eq _ _ _ _ _ _ _ E3). destruct (_ || _) eqn:Hs.
  - left. exists c, (Datatypes.S (Datatypes.S i1)). split; [|done].
    apply andb_true_iff in Hm as [Hm Hb]. bool_to_prop.
    split; try done; [by exists t|]. intros Hpos. apply orb_true_iff in Hs as [Hs|Hs];
      [apply Z.leb_le in Hs; lia|by apply Z.eqb_eq].
  - right. split; [|by eapply stopped_at]. intros j' f' c' H.
    destruct (Hd j' f' c' H) as (_ & _ & H1 & H2). assert (c' = c) as -> by congruence.
    apply orb_false_iff in Hs as [Hs1 Hs2]. apply Z.leb_gt in Hs1. by rewrite (H2 Hs1), Z.eqb_refl in Hs2.
Qed.

Lemma download_run r i s :
  let out := serve srv local_key EDownload r i s in
  (∃ j f c i', deliverable r i s j f c ∧
     out = (i', s, Answer 200 [("X-RepoArk-Cipher-SHA256", f.(f_sha))] (Blob c))) ∨
  ((∀ j f c, ¬ deliverable r i s j f c) ∧ stopped s out).
Proof.
  intros out. unfold out. clear out. rewrite serve_answer. simpl. unfold replicationDownload.
  destruct (authorize_spec r i s) as [(j & Hj & _)|[Hno _]].
  2: { right. split; [intros j f c [Hl]; by apply (Hno j)|].
       destruct (authorized_refused r i s Hno) as [msg E1]. by eapply stopped_at. }
  rewrite (hbind_eq _ _ _ _ _ _ _ (authorized_run r i s j Hj)).
  assert (∀ j' f c, deliverable r i s j' f c → j' = j) as Hsame.
  { intros j' f c [(_ & H1 & _)]. destruct Hj as (_ & H2 & _). congruence. }
  destruct (install_facts_run r j i s) as [(f & Hf & Hne & Hid & Ht & E1)|[Hno (code & msg & E1 & Hc)]].
  2: { right. split; [|by eapply stopped_at]. intros j' f c H. pose proof (Hsame _ _ _ H) as ->.
       destruct H as [_ H1 [H2 H3] H4 _ _ _]. by apply (Hno f H1 H2 H3). }
  rewrite (hbind_eq _ _ _ _ _ _ _ E1).
  rewrite (hbind_eq _ _ i s i s (Sql.GetReplicationTransfer r.(rq_transfer) s.(sv_store)))
    by (by destruct s).
  unfold Sql.GetReplicationTransfer.
  destruct (s.(sv_store).(Sql.replication_transfers) !! r.(rq_transfer)) as [t|] eqn:Et.
  2: { right. split; [|by eapply stopped_at]. intros j' f' c [_ _ _ _ (t & H & _) _ _]. congruence. }
  rewrite (hbind_eq (mret t) _ i s i s t eq_refl).
  destruct (deliver_run r j f i s t Et Hj Hf Hne Hid Ht) as [(c & i' & Hd & E2)|H]; [left|by right].
  by exists j, f, c, i'.
Qed.

(** C37. A download is for the target alone.  It is answered 200 exactly when the
    agent that asks runs the job that installs the transfer and is its target, the
    noted transfer is the one of the job and has not expired, and the file is there
    in the size noted; the answer is that file.  Otherwise it is an error, and in
    either case nothing changes. *)
Theorem download_is_for_the_target r i s :
  let out := serve srv local_key EDownload r i s in
  (∃ j f c i', deliverable r i s j f c ∧
     out = (i', s, Answer 200 [("X-RepoArk-Cipher-SHA256", f.(f_sha))] (Blob c))) ∨
  ((∀ j f c, ¬ deliverable r i s j f c) ∧ stopped s out).
Proof. exact (download_run r i s). Qed.

(** ** Finishing an upload *)

Context (tokens_fresh : distinct_tokens).
Context (max_attempts_ok : 0 ≤ srv.(ags_Worker).(w_MaxAttempts) ≤ max_int64).

(** What was received is what the source declares: the partial file, or, when the
    transfer was finished before, what was noted then. *)
Definition declared r (req : replicationFinalizeRequest) s (p : transferSourceMeta) : Prop :=
  match s.(sv_store).(Sql.replication_transfers) !! p.(tm_TransferID) with
  | Some t =>
      if decide (t.(Transfer_State) = TransferReady) then
        t.(Transfer_SourceAgent) = agentIdentity r ∧ t.(Transfer_TargetAgent) = p.(tm_TargetAgent) ∧
        t.(Transfer_GenerationID) = p.(tm_GenerationID) ∧
        t.(Transfer_RepositoryID) = p.(tm_RepositoryID) ∧ t.(Transfer_Bytes) = req.(fin_Bytes) ∧
        EqualFold t.(Transfer_SHA256) req.(fin_SHA256) = true
      else
        ∃ c, s.(sv_spool) !! part_of p = Some c ∧ slen c = req.(fin_Bytes) ∧
          EqualFold (sha256hex c) req.(fin_SHA256) = true
  | None =>
      ∃ c, s.(sv_spool) !! part_of p = Some c ∧ slen c = req.(fin_Bytes) ∧
        EqualFold (sha256hex c) req.(fin_SHA256) = true
  end.

Definition may_finalize r (req : replicationFinalizeRequest) s j p : Prop :=
  from_source r s.(sv_store) j p ∧ 0 ≤ req.(fin_Bytes) ∧ slen (TrimSpace req.(fin_SHA256)) = 64 ∧
  declared r req s p.

(** The file is in its place, the transfer is ready, and the target has a job to
    install it; jobs are added at most. *)
Record published (req : replicationFinalizeRequest) p s s' : Prop := {
  pub_spool :
    (s'.(sv_spool) = s.(sv_spool) ∧
       s'.(sv_store).(Sql.replication_transfers) = s.(sv_store).(Sql.replication_transfers)) ∨
    ∃ c, s.(sv_spool) !! part_of p = Some c ∧ slen c = req.(fin_Bytes) ∧
      EqualFold (sha256hex c) req.(fin_SHA256) = true ∧
      s'.(sv_spool) = <[Replication.replicationSpoolPath p.(tm_TransferID) := c]>
                        (delete (part_of p) s.(sv_spool));
  pub_transfer : ∃ t, s'.(sv_store).(Sql.replication_transfers) !! p.(tm_TransferID) = Some t ∧
    t.(Transfer_State) = TransferReady ∧ t.(Transfer_SourceAgent) = p.(tm_SourceAgent) ∧
    t.(Transfer_TargetAgent) = p.(tm_TargetAgent) ∧ t.(Transfer_GenerationID) = p.(tm_GenerationID) ∧
    t.(Transfer_RepositoryID) = p.(tm_RepositoryID) ∧ t.(Transfer_Bytes) = req.(fin_Bytes) ∧
    EqualFold t.(Transfer_SHA256) req.(fin_SHA256) = true ∧
    (t.(Transfer_SHA256) = ToLower req.(fin_SHA256) ∨
     s.(sv_store).(Sql.replication_transfers) !! p.(tm_TransferID) = Some t);
  pub_job : active_key ((install_target p).1, (install_target p).2, p.(tm_TargetAgent))
    s'.(sv_store).(Sql.jobs);
  pub_kept id j : s.(sv_store).(Sql.jobs) !! id = Some j → s'.(sv_store).(Sql.jobs) !! id = Some j;
  pub_new id j : s'.(sv_store).(Sql.jobs) !! id = Some j → s.(sv_store).(Sql.jobs) !! id = None →
    j.(Job_Payload) = install_payload p (ToLower req.(fin_SHA256)) req.(fin_Bytes)
}.

Lemma sql_enqueue_frame now token j (st st' : Sql.SQLStore) x :
  Sql.Enqueue now token j st = (st', x) → ∃ t, st' = (st <| Sql.jobs := t |>).
Proof.
  unfold Sql.Enqueue, Sql.EnqueueInsert. intros H. exists (Sql.jobs st').
  repeat case_match; injection H as <- _; by destruct st.
Qed.

Lemma enqueue_install_run j i s :
  SqlJobs.wf s.(sv_store) → unused_tokens i s.(sv_store) → job_request j → j.(Job_ID) = "" →
  ∃ t, let s' := mkServer (s.(sv_store) <| Sql.jobs := t |>) s.(sv_spool) in
    enqueue_install j i s = (Datatypes.S i, s', inr (Ok tt)) ∧
    active_key (a_key (ajob_of j)) t ∧
    (∀ id x, s.(sv_store).(Sql.jobs) !! id = Some x → t !! id = Some x) ∧
    (∀ id x, t !! id = Some x → s.(sv_store).(Sql.jobs) !! id = None → row_of j x).
Proof.
  intros Hwf Hun Hreq Hid. destruct s as [st sp]; simpl in *.
  destruct (enqueue_filed st [] 0 i st j tokens_fresh Hreq Hid) as (st' & n & E1 & Hf & _ & Hk & _);
    [by apply filed_start|].
  unfold enqueue, mbind, prog_bind, pbind in E1.
  destruct (pwrite _ i st) as [[i1 st1] [x|x]] eqn:Ew; [|done].
  assert (st1 = st' ∧ i1 = Datatypes.S i) as [-> ->] by (unfold mret, prog_ret, pret in E1; by simplify_eq).
  assert (∃ t, st' = st <| Sql.jobs := t |>) as [t Ht].
  { unfold pwrite in Ew. simpl in Ew. destruct (Sql.Enqueue _ _ _ _) as [st2 y] eqn:Es.
    simplify_eq. by eapply sql_enqueue_frame. }
  exists t. split_and!.
  - assert (call (pwrite (fun t token => st_Enqueue t token j)) i (mkServer st sp)
      = (Datatypes.S i, mkServer st' sp, inr (Ok x))) as Ec by (unfold call; cbn [sv_store]; by rewrite Ew).
    unfold enqueue_install, write. by rewrite (hbind_eq _ _ _ _ _ _ _ Ec), Ht.
  - destruct Hf as [_ _ _ _ Hd _]. specialize (Hd j ltac:(by left)). by rewrite Ht in Hd.
  - intros id y Hy. specialize (Hk id y Hy). by rewrite Ht in Hk.
  - intros id y Hy Hn. destruct Hf as [_ _ _ Hnew _ _].
    destruct (Hnew id y) as (j' & ->%list_elem_of_singleton & Hr); [by rewrite Ht|done|done].
Qed.

Lemma install_run j p sha n (record : bool) i s :
  SqlJobs.wf s.(sv_store) → unused_tokens i s.(sv_store) →
  (record = true → TrimSpace p.(tm_TransferID) ≠ "") →
  ∃ i' s', enqueueTransferInstall srv j p sha n record i s
      = (i', s', inr (Ok (install_payload p sha n))) ∧
    s'.(sv_spool) = s.(sv_spool) ∧
    (if record
     then ∃ now now', s'.(sv_store).(Sql.replication_transfers) =
       <[p.(tm_TransferID) := (transfer_row srv p (Replication.replicationSpoolPath p.(tm_TransferID))
           TransferReady sha n now) <| Transfer_UpdatedAt := now' |>]>
         s.(sv_store).(Sql.replication_transfers)
     else s'.(sv_store).(Sql.replication_transfers) = s.(sv_store).(Sql.replication_transfers)) ∧
    active_key ((install_target p).1, (install_target p).2, p.(tm_TargetAgent)) s'.(sv_store).(Sql.jobs) ∧
    (∀ id x, s.(sv_store).(Sql.jobs) !! id = Some x → s'.(sv_store).(Sql.jobs) !! id = Some x) ∧
    (∀ id x, s'.(sv_store).(Sql.jobs) !! id = Some x → s.(sv_store).(Sql.jobs) !! id = None →
       x.(Job_Payload) = install_payload p sha n).
Proof.
  intros Hwf Hun Hne. unfold enqueueTransferInstall.
  assert (∃ i1 s1, (if record then
      now ← hnow;
      write (fun t _ => as_RecordReplicationTransfer t (transfer_row srv p
        (Replication.replicationSpoolPath p.(tm_TransferID)) TransferReady sha n now))
      else mret (Ok tt) : Handler Sql.SQLStore (result unit)) i s = (i1, s1, inr (Ok tt)) ∧
    (i ≤ i1)%nat ∧ s1.(sv_spool) = s.(sv_spool) ∧
    s1.(sv_store) = s.(sv_store) <| Sql.replication_transfers := s1.(sv_store).(Sql.replication_transfers) |> ∧
    (if record
     then ∃ now now', s1.(sv_store).(Sql.replication_transfers) =
       <[p.(tm_TransferID) := (transfer_row srv p (Replication.replicationSpoolPath p.(tm_TransferID))
           TransferReady sha n now) <| Transfer_UpdatedAt := now' |>]>
         s.(sv_store).(Sql.replication_transfers)
     else s1.(sv_store).(Sql.replication_transfers) = s.(sv_store).(Sql.replication_transfers)))
    as (i1 & s1 & E1 & Hi & Hsp & Hst & Htr).
  { destruct s as [st sp]. destruct record; [|exists i, (mkServer st sp); split_and!; try done; by destruct st].
    unfold mbind, handler_bind, hnow, write, call, pwrite. simpl. unfold Sql.RecordReplicationTransfer.
    simpl. rewrite (bool_decide_eq_false_2 _ (Hne eq_refl)). do 2 eexists. split; [reflexivity|].
    split_and!; [lia|done|done|]. simpl. unfold Sql.upsert.
    exists (clock i), (clock (Datatypes.S i)). by case_match. }
  rewrite (hbind_eq _ _ _ _ _ _ _ E1). cbv beta iota.
  assert (SqlJobs.wf s1.(sv_store)) as Hwf1 by (by rewrite Hst).
  assert (s1.(sv_store).(Sql.jobs) = s.(sv_store).(Sql.jobs)) as Hj1 by (by rewrite Hst).
  set (job := install_job srv (install_target p).1 (install_target p).2 (install_payload p sha n)
    p.(tm_TargetAgent) j.(Job_Priority) (clock i1)).
  destruct (enqueue_install_run job (Datatypes.S i1) s1) as (t & E2 & Hact & Hkept & Hnew);
    [done| |by split; auto|done|].
  { intros k Hk. simpl. rewrite Hj1. apply Hun. lia. }
  eexists _, _. split.
  { rewrite (hbind_eq hnow _ i1 s1 (Datatypes.S i1) s1 (clock i1)) by done.
    rewrite (hbind_eq _ _ _ _ _ _ _ E2). reflexivity. }
  simpl. rewrite <- Hj1. split_and!; try done.
  intros id x Hx Hn. by apply (Hnew id x Hx Hn).
Qed.

(** The first time: the partial file is checked, put in place and noted. *)
Lemma first_finalize j p req i s c :
  SqlJobs.wf s.(sv_store) → unused_tokens i s.(sv_store) → TrimSpace p.(tm_TransferID) ≠ "" →
  s.(sv_spool) !! part_of p = Some c → slen c = req.(fin_Bytes) →
  EqualFold (sha256hex c) req.(fin_SHA256) = true →
  ∃ i' s', (or_fail 500 (rename (part_of p) (Replication.replicationSpoolPath p.(tm_TransferID)));;
      out ← or_fail 500 (enqueueTransferInstall srv j p (ToLower req.(fin_SHA256)) (slen c) true);
      mret (Answer 200 [] (JSON out))) i s
    = (i', s', inr (Answer 200 [] (JSON (install_payload p (ToLower req.(fin_SHA256)) req.(fin_Bytes))))) ∧
    published req p s s'.
Proof.
  intros Hwf Hun Hne Hc Hn Hh.
  set (sp := <[Replication.replicationSpoolPath p.(tm_TransferID) := c]> (delete (part_of p) s.(sv_spool))).
  assert (or_fail 500 (rename (part_of p) (Replication.replicationSpoolPath p.(tm_TransferID))) i s
    = (Datatypes.S i, mkServer s.(sv_store) sp, inr tt)) as E1.
  { unfold or_fail, rename, file, mbind, handler_bind. rewrite no_faults, Hc. done. }
  destruct (install_run j p (ToLower req.(fin_SHA256)) (slen c) true (Datatypes.S i)
    (mkServer s.(sv_store) sp)) as (i2 & s2 & E2 & Hsp & (now & now' & Htr) & Hact & Hkept & Hnew);
    [done|intros k Hk; apply Hun; lia|done|].
  exists i2, s2. split.
  - by rewrite (hbind_eq _ _ _ _ _ _ _ E1), (hbind_eq _ _ _ _ _ _ _ (or_fail_ok 500 _ _ _ _ _ _ E2)), Hn.
  - split; simpl in *.
    + right. exists c. by rewrite Hsp.
    + rewrite Htr. eexists. rewrite lookup_insert_eq. split; [done|]. simpl. split_and!; try done.
      * apply bool_decide_eq_true, ToLower_idem.
      * by left.
    + done.
    + done.
    + rewrite <- Hn. apply Hnew.
Qed.

(** A request stopped by a check changes nothing. *)
Lemma refused_stop {A} (p : Handler Sql.SQLStore A) f i s i1 code msg :
  p i s = (i1, s, inl (http_error code msg)) → 400 ≤ code < 500 →
  refused s (answer ((p ≫= f) i s)).
Proof. intros E1 Hc. rewrite (hbind_stop _ _ _ _ _ _ _ E1). by exists i1, code, msg. Qed.

Lemma refused_require (b : bool) code msg f i s :
  400 ≤ code < 500 → b = false →
  refused s (answer ((require b code msg ≫= f : Handler Sql.SQLStore Response) i s)).
Proof. intros Hc ->. by eapply refused_stop. Qed.

(** The rest of the handler, [t] being what is noted of the transfer. *)
Definition finish (j : Job) (p : transferSourceMeta) (req : replicationFinalizeRequest) (agent : string)
    (existing : result ReplicationTransfer) : Handler Sql.SQLStore Response :=
  let first :=
    c ← or_fail 404 (read_file (part_of p));
    require ((slen c =? req.(fin_Bytes)) && EqualFold (sha256hex c) req.(fin_SHA256))
      422 "replication final checksum/size mismatch";;
    or_fail 500 (rename (part_of p) (Replication.replicationSpoolPath p.(tm_TransferID)));;
    out ← or_fail 500 (enqueueTransferInstall srv j p (ToLower req.(fin_SHA256)) (slen c) true);
    mret (Answer 200 [] (JSON out)) in
  match existing with
  | Ok t =>
      if t.(Transfer_State) ≟ TransferReady then
        require ((t.(Transfer_SourceAgent) ≟ agent) && (t.(Transfer_TargetAgent) ≟ p.(tm_TargetAgent))
                 && (t.(Transfer_GenerationID) ≟ p.(tm_GenerationID))
                 && (t.(Transfer_RepositoryID) ≟ p.(tm_RepositoryID))
                 && (t.(Transfer_Bytes) =? req.(fin_Bytes))
                 && EqualFold t.(Transfer_SHA256) req.(fin_SHA256))
          409 "replication transfer metadata mismatch";;
        out ← or_fail 500 (enqueueTransferInstall srv j p (ToLower req.(fin_SHA256)) req.(fin_Bytes) false);
        mret (Answer 200 [] (JSON out))
      else first
  | Err _ => first
  end.

Lemma finish_run r j p req i s :
  SqlJobs.wf s.(sv_store) → unused_tokens i s.(sv_store) → TrimSpace p.(tm_TransferID) ≠ "" →
  p.(tm_SourceAgent) = agentIdentity r →
  let out := answer (finish j p req (agentIdentity r)
    (Sql.GetReplicationTransfer p.(tm_TransferID) s.(sv_store)) i s) in
  (declared r req s p ∧ ∃ i' s',
     out = (i', s', Answer 200 [] (JSON (install_payload p (ToLower req.(fin_SHA256)) req.(fin_Bytes)))) ∧
     published req p s s') ∨
  (¬ declared r req s p ∧ refused s out).
Proof.
  intros Hwf Hun Hne Hsrc out. unfold out. clear out. unfold finish.
  set (first := c ← or_fail 404 (read_file (part_of p)); _).
  assert (let fresh := ∃ c, s.(sv_spool) !! part_of p = Some c ∧ slen c = req.(fin_Bytes) ∧
            EqualFold (sha256hex c) req.(fin_SHA256) = true in
    (fresh ∧ ∃ i' s', answer (first i s)
        = (i', s', Answer 200 [] (JSON (install_payload p (ToLower req.(fin_SHA256)) req.(fin_Bytes)))) ∧
        published req p s s') ∨ (¬ fresh ∧ refused s (answer (first i s)))) as Hfirst.
  { unfold first. destruct (s.(sv_spool) !! part_of p) as [c|] eqn:Ec.
    2: { right. split; [naive_solver|]. eapply refused_stop; [apply or_fail_err|lia].
         unfold read_file, file. rewrite no_faults, Ec. by destruct s. }
    assert (or_fail 404 (read_file (part_of p)) i s = (Datatypes.S i, s, inr c)) as E1.
    { apply or_fail_ok. unfold read_file, file. rewrite no_faults, Ec. by destruct s. }
    rewrite (hbind_eq _ _ _ _ _ _ _ E1).
    destruct ((slen c =? req.(fin_Bytes)) && EqualFold (sha256hex c) req.(fin_SHA256)) eqn:Hc.
    - left. apply andb_true_iff in Hc as [Hn Hh]. apply Z.eqb_eq in Hn. split; [by exists c|].
      destruct (first_finalize j p req (Datatypes.S i) s c) as (i' & s' & E2 & Hp); try done.
      { intros k Hk'. apply Hun. lia. }
      exists i', s'. split; [|done].
      match goal with |- answer (?q _ _) = _ => change q with
        (or_fail 500 (rename (part_of p) (Replication.replicationSpoolPath p.(tm_TransferID)));;
         out ← or_fail 500 (enqueueTransferInstall srv j p (ToLower req.(fin_SHA256)) (slen c) true);
         mret (Answer 200 [] (JSON out)) : Handler Sql.SQLStore Response) end.
      by rewrite E2.
    - right. split; [|by apply refused_require]. intros (c' & [= <-] & H1 & H2).
      apply Z.eqb_eq in H1. by rewrite H1, H2 in Hc. }
  clearbody first. unfold declared, Sql.GetReplicationTransfer.
  destruct (s.(sv_store).(Sql.replication_transfers) !! p.(tm_TransferID)) as [t|] eqn:Et; [|done].
  destruct (bool_decide_reflect (t.(Transfer_State) = TransferReady)) as [Ht|Ht];
    [rewrite decide_True by done|by rewrite decide_False by done].
  set (b := _ && _). destruct b eqn:Hb; unfold b in Hb; clear b.
  - left. apply andb_true_iff in Hb as [Hb Hh]. bool_to_prop. split; [done|].
    destruct (install_run j p (ToLower req.(fin_SHA256)) req.(fin_Bytes) false i s)
      as (i2 & s2 & E2 & Hsp & Htr & Hact & Hkept & Hnew); try done.
    exists i2, s2. split.
    + rewrite (hbind_eq (require true _ _) _ i s i s tt) by done.
      by rewrite (hbind_eq _ _ _ _ _ _ _ (or_fail_ok 500 _ _ _ _ _ _ E2)).
    + split; try done; [by left|]. exists t. rewrite Htr, Et. split_and!; try congruence. by right.
  - right. split; [|by apply refused_require]. intros (H1 & H2 & H3 & H4 & H5 & H6).
    rewrite H1, H2, H3, H4, H5, H6, !bool_decide_eq_true_2, Z.eqb_refl in Hb; done.
Qed.

Lemma finalize_run r req i s :
  SqlJobs.wf s.(sv_store) → unused_tokens i s.(sv_store) → TrimSpace r.(rq_transfer) ≠ "" →
  let out := serve srv local_key (EUploadFinalize (Some req)) r i s in
  (∃ j p i' s', may_finalize r req s j p ∧
     out = (i', s', Answer 200 [] (JSON (install_payload p (ToLower req.(fin_SHA256)) req.(fin_Bytes)))) ∧
     published req p s s') ∨
  ((∀ j p, ¬ may_finalize r req s j p) ∧ refused s out).
Proof.
  intros Hwf Hun Hne out. unfold out. clear out. rewrite serve_answer. simpl.
  unfold replicationUploadFinalize.
  destruct (authorize_spec r i s) as [(j & Hj & _)|[Hno _]].
  2: { right. split; [intros j p [[Hl _ _] _]; by apply (Hno j)|].
       destruct (authorized_refused r i s Hno) as [msg E1]. by eapply refused_stop. }
  rewrite (hbind_eq _ _ _ _ _ _ _ (authorized_run r i s j Hj)).
  assert (∀ j' p, may_finalize r req s j' p → j' = j) as Hsame.
  { intros j' p [[(_ & H1 & _) _ _] _]. destruct Hj as (_ & H2 & _). congruence. }
  destruct (decodeTransferSourceJob j (agentIdentity r) r.(rq_transfer)) as [p|e] eqn:Ep.
  2: { right. split; [|by eapply refused_stop].
       intros j' p Hm. pose proof (Hsame j' p Hm) as ->. destruct Hm as [[_ Hd _] _]. congruence. }
  assert (∀ j' p', may_finalize r req s j' p' → p' = p) as Hsame'.
  { intros j' p' Hm. pose proof (Hsame j' p' Hm) as ->. destruct Hm as [[_ Hd _] _]. congruence. }
  rewrite (hbind_eq _ _ _ _ _ _ _ (or_fail_ok 409 (mret (Ok p)) i s i s p eq_refl)).
  destruct (validate_spec p i s) as [[Hk E2]|[Hk [e E2]]].
  2: { right. split; [intros j' p' Hm; pose proof (Hsame' j' p' Hm) as ->; by destruct Hm as [[_ _ ?] _]|].
       eapply refused_stop; [by apply or_fail_err|lia]. }
  rewrite (hbind_eq _ _ _ _ _ _ _ (or_fail_ok 409 _ _ _ _ _ _ E2)).
  rewrite (hbind_eq (decoded (Some req) _ _) _ i s i s req) by done.
  destruct ((0 <=? req.(fin_Bytes)) && (slen (TrimSpace req.(fin_SHA256)) =? 64)) eqn:Hreq.
  2: { right. split; [|by apply refused_require].
       intros j' p' (_ & H1 & H2 & _). apply Z.leb_le in H1. apply Z.eqb_eq in H2.
       by rewrite H1, H2 in Hreq. }
  rewrite (hbind_eq (require true _ _) _ i s i s tt) by done. bool_to_prop.
  destruct (decode_transfer_id _ _ _ _ Ep) as [Hid Hsrc]. rewrite <- Hid in Hne.
  rewrite (hbind_eq _ _ i s i s (Sql.GetReplicationTransfer p.(tm_TransferID) s.(sv_store)))
    by (by destruct s). cbv beta.
  change (answer _) with (answer (finish j p req (agentIdentity r)
    (Sql.GetReplicationTransfer p.(tm_TransferID) s.(sv_store)) i s)).
  destruct (finish_run r j p req i s) as [(Hd & i' & s' & E3 & Hp)|[Hd Hr]]; try done.
  - left. exists j, p, i', s'. split_and!; [by split_and!|done|done].
  - right. split; [|done]. intros j' p' Hm. pose proof (Hsame' j' p' Hm) as ->. by destruct Hm as (_ & _ & _ & ?).
Qed.

(** C38. An upload is finished exactly when it should be.  If the request comes
    from the source of the transfer, which runs the job, the target's key is still
    the one encrypted for, and the received file has the declared size and hash
    (or had, when the transfer was finished before), then it is answered 200 with
    the install payload, the file is in its place, the transfer is ready and the
    target has an active job to install it; otherwise it is refused with a 4xx and
    neither the store nor the spool directory changes. *)
Theorem finalize_publishes_what_was_declared r req i s :
  SqlJobs.wf s.(sv_store) → unused_tokens i s.(sv_store) → TrimSpace r.(rq_transfer) ≠ "" →
  let out := serve srv local_key (EUploadFinalize (Some req)) r i s in
  (∃ j p i' s', may_finalize r req s j p ∧
     out = (i', s', Answer 200 [] (JSON (install_payload p (ToLower req.(fin_SHA256)) req.(fin_Bytes)))) ∧
     published req p s s') ∨
  ((∀ j p, ¬ may_finalize r req s j p) ∧ refused s out).
Proof. exact (finalize_run r req i s). Qed.

(** ** The relay *)

(** What a source job says about the job that installs its transfer. *)
Lemma install_facts_of j agent transfer p sha n j2 :
  decodeTransferSourceJob j agent transfer = Ok p → in_int64 n →
  j2.(Job_Kind) = (install_target p).1 → j2.(Job_Payload) = install_payload p sha n →
  facts_of j2 = Some (mkFacts p.(tm_TransferID) p.(tm_TargetAgent) p.(tm_GenerationID)
    p.(tm_RepositoryID) sha n).
Proof.
  unfold decodeTransferSourceJob. intros Hp Hn.
  destruct (bool_decide_reflect (j.(Job_Kind) = "replicate-generation")) as [Hk|Hk].
  - destruct (unmarshal_replicate _) as [x|]; [|done]. destruct (_ || _); [done|]. injection Hp as <-.
    unfold install_target, install_payload, facts_of. simpl. rewrite Hk. simpl. intros -> ->. simpl.
    by rewrite install_replica_roundtrip.
  - destruct (bool_decide_reflect (j.(Job_Kind) = "replicate-cas")) as [Hk'|]; [|done].
    destruct (unmarshal_replicate_cas _) as [x|] eqn:Ex; [|done]. destruct (_ || _); [done|].
    injection Hp as <-. unfold install_target, install_payload, facts_of. simpl. rewrite Hk'. simpl.
    intros -> ->. simpl. rewrite install_cas_roundtrip; [done|done|]. simpl.
    intros e He. by eapply unmarshal_replicate_cas_range.
Qed.

(** C39. What the source declared is what the target gets.  When an upload has been
    finished for the first time, then, as long as the spool file and the noted
    transfer stay and have not expired, the target of the transfer, running the job
    that was filed to install it, downloads the very file that was received, and it
    has the declared size and hash. *)
Theorem relay_delivers r req i s i' s' b j p r2 i2 s2 j2 :
  SqlJobs.wf s.(sv_store) → unused_tokens i s.(sv_store) → TrimSpace r.(rq_transfer) ≠ "" →
  in_int64 req.(fin_Bytes) →
  serve srv local_key (EUploadFinalize (Some req)) r i s = (i', s', Answer 200 [] b) →
  may_finalize r req s j p →
  (∀ t, s.(sv_store).(Sql.replication_transfers) !! r.(rq_transfer) = Some t →
     t.(Transfer_State) ≠ TransferReady) →
  let path := Replication.replicationSpoolPath r.(rq_transfer) in
  s2.(sv_spool) !! path = s'.(sv_spool) !! path →
  s2.(sv_store).(Sql.replication_transfers) !! r.(rq_transfer)
    = s'.(sv_store).(Sql.replication_transfers) !! r.(rq_transfer) →
  (∀ t, s2.(sv_store).(Sql.replication_transfers) !! r.(rq_transfer) = Some t →
     clock i2 < t.(Transfer_ExpiresAt)) →
  holds_lease r2 s2.(sv_store) j2 → agentIdentity r2 = p.(tm_TargetAgent) →
  r2.(rq_transfer) = r.(rq_transfer) → j2.(Job_Kind) = (install_target p).1 →
  j2.(Job_Payload) = install_payload p (ToLower req.(fin_SHA256)) req.(fin_Bytes) →
  ∃ c i2', serve srv local_key EDownload r2 i2 s2
      = (i2', s2, Answer 200 [("X-RepoArk-Cipher-SHA256", ToLower req.(fin_SHA256))] (Blob c)) ∧
    s.(sv_spool) !! part_of p = Some c ∧ slen c = req.(fin_Bytes) ∧
    EqualFold (sha256hex c) req.(fin_SHA256) = true.
Proof.
  intros Hwf Hun Hne Hn Hs Hmay Hfirst path Hsp Htr Hlive Hl2 Hid2 Ht2 Hk2 Hp2.
  destruct (finalize_run r req i s Hwf Hun Hne) as [(j0 & p0 & i0 & s0 & Hm & E1 & Hpub)|[Hno _]];
    [|by destruct (Hno j p)].
  rewrite Hs in E1. injection E1 as <- <- _.
  assert (p0 = p) as ->.
  { destruct Hm as [[(_ & H1 & _) H2 _] _], Hmay as [[(_ & H3 & _) H4 _] _]. congruence. }
  destruct Hmay as [[_ Hdec _] _]. destruct (decode_transfer_id _ _ _ _ Hdec) as [Hid Hsrc].
  destruct Hpub as [Hspool (t & Ht & Hst & _ & Htt & Htg & Htr' & Htb & _ & Hsha) _ _ _].
  rewrite Hid in *.
  assert (t.(Transfer_SHA256) = ToLower req.(fin_SHA256)) as Hsha'.
  { destruct Hsha as [|Hold]; [done|]. by destruct (Hfirst t Hold). }
  destruct Hspool as [[_ Hsame]|(c & Hc & Hcn & Hch & Hsp')].
  { rewrite Hsame in Ht. by destruct (Hfirst t Ht). }
  exists c.
  set (f := mkFacts p.(tm_TransferID) p.(tm_TargetAgent) p.(tm_GenerationID) p.(tm_RepositoryID)
              (ToLower req.(fin_SHA256)) req.(fin_Bytes)).
  assert (facts_of j2 = Some f) as Hf by (by eapply install_facts_of).
  assert (deliverable r2 i2 s2 j2 f c) as Hd.
  { split; try done; rewrite ?Ht2.
    - split; [|done]. intros E0. by rewrite E0 in Hne.
    - exists t. rewrite Htr. split; [done|]. split_and!; try done. right. apply Hlive. by rewrite Htr.
    - fold path. by rewrite Hsp, Hsp', lookup_insert_eq. }
  destruct (download_run r2 i2 s2) as [(j3 & f3 & c3 & i3 & Hd3 & E3)|[Hno _]]; [|by destruct (Hno j2 f c)].
  destruct Hd as [(_ & H1 & _) H2 _ _ _ H3 _], Hd3 as [(_ & H4 & _) H5 _ _ _ H6 _].
  assert (j3 = j2) as -> by congruence. assert (f3 = f) as -> by congruence.
  assert (c3 = c) as -> by congruence. by exists i3.
Qed.

End Transfers.

(** ** One transfer from end to end *)

Module TransferDemo.
#[local] Existing Instance tick_env.
#[local] Instance no_fault : Faults := {| fault _ := None |}.

Definition srv : AgentServer :=
  mkAgentServer (mkWorkerConfig 1 "1s" "1h" 3) 5 zero_ReplicationConfig zero_StorageDataConfig.

Definition agent_row (id key : string) : Agent :=
  zero_Agent <| Agent_ID := id |> <| Agent_Name := id |> <| Agent_ReplicationPublicKey := key |>.

Definition payload : replicateGenerationPayload :=
  mkReplicateGen "t1" "r1" "o/repo" "g1" "a" "b" "kb".

Definition source_job : Job :=
  zero_Job <| Job_Kind := "replicate-generation" |> <| Job_Target := "g1@b" |>
    <| Job_Payload := marshal_replicate payload |> <| Job_Affinity := "a" |>.

Definition agents_only : Sql.SQLStore :=
  Sql.empty_store <| Sql.agents := {["a" := agent_row "a" "ka"; "b" := agent_row "b" "kb"]} |>.

Definition token0 : string := fresh_token 0.

Definition queued : Sql.SQLStore := (SqlQueue.exec (1000 * Second) (CallEnqueue token0 source_job) agents_only).1.
Definition running : Sql.SQLStore := (Sql.Lease (1000 * Second) "a" 1 Hour queued).1.
Definition job_id : string := newID "job" token0.

Definition start : Server Sql.SQLStore := mkServer running ∅.

Definition cert (name : string) : option Certificate := Some (mkCertificate [name] name name).
Definition by_agent (name id transfer : string) : Request :=
  mkRequest (cert name) id transfer "" "" "" None.

(** [name] sends [data] for [offset]. *)
Definition chunk (offset data : string) : Request :=
  mkRequest (cert "a") job_id "t1" offset (sha256hex data) data None.

Definition key : result string := Err "no local key".

Definition uploaded : Server Sql.SQLStore := (serve srv key EUploadChunk (chunk "0" "blob") 1 start).1.2.
Definition final : replicationFinalizeRequest := mkFinalize (sha256hex "blob") 4.
Definition finished : nat * Server Sql.SQLStore * Response :=
  serve srv key (EUploadFinalize (Some final)) (by_agent "a" job_id "t1") 20 uploaded.

(** [b] leases the job that was filed. *)
Definition taken : Server Sql.SQLStore := (serve srv key ELease (by_agent "b" "" "") 40 finished.1.2).1.2.
Definition install_id : string :=
  default "" (head (Job_ID <$> List.filter (fun j => j.(Job_Kind) ≟ "install-replica")
    (range_vals taken.(sv_store).(Sql.jobs)))).

Example relayed :
  (serve srv key EDownload (by_agent "b" install_id "t1") 60 taken).2
  = Answer 200 [("X-RepoArk-Cipher-SHA256", sha256hex "blob")] (Blob "blob").
Proof. vm_compute. reflexivity. Qed.

(** Two chunks: the second overwrites the first, and the upload never passes. *)
Definition twice : nat * Server Sql.SQLStore * Response :=
  serve srv key EUploadChunk (chunk "4" "er") 20 uploaded.

Example second_chunk_overwrites :
  content (Replication.replicationSpoolPath "t1" +:+ ".part") twice.1.2.(sv_spool) = "erob" ∧
  (∃ b, twice.2 = Answer 200 [("X-RepoArk-Offset", "6")] b) ∧
  (serve srv key (EUploadFinalize (Some (mkFinalize (sha256hex "blober") 6)))
     (by_agent "a" job_id "t1") 40 twice.1.2).2
  = http_error 422 "replication final checksum/size mismatch".
Proof. split_and!; [vm_compute; reflexivity|eexists; vm_compute; reflexivity|vm_compute; reflexivity]. Qed.

Lemma running_wf : SqlJobs.wf running.
Proof.
  apply SqlJobs.Lease_wf. apply SqlQueue.exec_wf; [apply jobs_wf_empty|].
  split; [by left|done|split; done|done].
Qed.

Lemma running_unused i : (1 ≤ i)%nat → unused_tokens i running.
Proof.
  intros Hi k Hk.
  assert (qs_jobs running = {[job_id := default zero_Job (running.(Sql.jobs) !! job_id)]}) as ->
    by (vm_compute; reflexivity).
  apply lookup_singleton_ne. unfold job_id. intros E%(inj (newID "job"))%tick_tokens_inj. lia.
Qed.

Lemma illegitimate_request_refused_witness :
  ∃ msg, serve srv key EComplete (by_agent "b" job_id "") 5 start = (5%nat, start, http_error 403 msg).
Proof.
  apply (illegitimate_request_refused srv key EComplete (by_agent "b" job_id "") 5 start).
  intros j (_ & Hj & _ & Ho). vm_compute in Hj. injection Hj as <-. discriminate Ho.
Defined.


Definition meta : transferSourceMeta :=
  mkSourceMeta "replicate-generation" "t1" "a" "b" "kb" "g1" "r1" "o/repo" None.

Lemma source_of s : s.(sv_store).(Sql.agents) = agents_only.(Sql.agents) →
  s.(sv_store).(Sql.jobs) = running.(Sql.jobs) →
  ∃ j, ∀ r, agentIdentity r = "a" → r.(rq_id) = job_id → r.(rq_transfer) = "t1" →
    from_source key r s.(sv_store) j meta.
Proof.
  intros Ha Hj. exists (default zero_Job (running.(Sql.jobs) !! job_id)). intros r Hi Hid Ht. split.
  - unfold holds_lease. rewrite Hi, Hid. simpl. unfold Sql.GetJob. rewrite Hj.
    split_and!; [done|vm_compute; reflexivity..].
  - rewrite Hi, Ht. vm_compute. reflexivity.
  - unfold key_current. rewrite Ha. simpl. exists (agent_row "b" "kb").
    split_and!; [vm_compute; reflexivity|by vm_compute|reflexivity].
Qed.

Lemma never_fails k : @fault no_fault k = None. Proof. done. Qed.

Lemma good_blob j : (∀ r, agentIdentity r = "a" → r.(rq_id) = job_id → r.(rq_transfer) = "t1" →
    from_source key r start.(sv_store) j meta) →
  good_chunk srv key (chunk "0" "blob") start j meta "blob".
Proof.
  intros Hj. split; [by apply Hj|]. unfold good_data. split_and!.
  - vm_compute. reflexivity.
  - vm_compute. reflexivity.
  - vm_compute. discriminate.
  - vm_compute. reflexivity.
  - vm_compute. reflexivity.
  - intros H. vm_compute in H. discriminate H.
Qed.

Lemma chunk_is_written_over_the_start_witness :
  ∃ j p data s', good_chunk srv key (chunk "0" "blob") start j p data ∧ received p data start s' ∧
    s' = uploaded.
Proof.
  destruct (source_of start) as [j0 Hj0]; [vm_compute; reflexivity..|].
  destruct (chunk_is_written_over_the_start srv key never_fails (chunk "0" "blob") 1 start)
    as [(j & p & d & i' & s' & b & Hg & Hr & _ & E1)|[Hno _]].
  - vm_compute. discriminate.
  - exists j, p, d, s'. split_and!; [done|done|]. unfold uploaded. by rewrite E1.
  - destruct (Hno j0 meta "blob"). by apply good_blob.
Defined.

Lemma uploaded_wf : SqlJobs.wf uploaded.(sv_store).
Proof.
  assert (uploaded.(sv_store).(Sql.jobs) = running.(Sql.jobs)) as E1 by (vm_compute; reflexivity).
  unfold SqlJobs.wf. rewrite E1. exact running_wf.
Qed.

Lemma uploaded_unused i : (1 ≤ i)%nat → unused_tokens i uploaded.(sv_store).
Proof.
  assert (uploaded.(sv_store).(Sql.jobs) = running.(Sql.jobs)) as E1 by (vm_compute; reflexivity).
  intros Hi k Hk. change (uploaded.(sv_store).(Sql.jobs) !! newID "job" (fresh_token k) = None).
  rewrite E1. by apply (running_unused i Hi).
Qed.

Lemma may_finish : ∃ j, may_finalize key (by_agent "a" job_id "t1") final uploaded j meta.
Proof.
  destruct (source_of uploaded) as [j0 Hj0]; [vm_compute; reflexivity..|].
  exists j0. split; [by apply Hj0|]. split_and!; [vm_compute; discriminate|vm_compute; reflexivity|].
  unfold declared. assert (∃ t, uploaded.(sv_store).(Sql.replication_transfers) !! tm_TransferID meta = Some t
    ∧ t.(Transfer_State) ≠ TransferReady) as (t & -> & Ht).
  { eexists. split; [vm_compute; reflexivity|]. vm_compute. discriminate. }
  rewrite decide_False by done. exists "blob". split_and!; vm_compute; reflexivity.
Qed.

Lemma attempts_ok : 0 ≤ srv.(ags_Worker).(w_MaxAttempts) ≤ max_int64.
Proof. split; done. Qed.

Lemma finalize_publishes_what_was_declared_witness :
  ∃ p s', published final p uploaded s' ∧ s' = finished.1.2.
Proof.
  destruct (finalize_publishes_what_was_declared srv key never_fails tick_tokens_inj attempts_ok
    (by_agent "a" job_id "t1") final 20 uploaded) as [(j & p & i' & s' & _ & E1 & Hp)|[Hno _]].
  - exact uploaded_wf.
  - apply uploaded_unused. lia.
  - vm_compute. discriminate.
  - exists p, s'. split; [done|]. unfold finished. by rewrite E1.
  - exfalso. destruct may_finish as [j Hj]. by apply (Hno j meta).
Defined.

Lemma download_is_for_the_target_witness :
  ∃ j f c, deliverable (by_agent "b" install_id "t1") 60 taken j f c.
Proof.
  destruct (download_is_for_the_target srv key never_fails (by_agent "b" install_id "t1") 60 taken)
    as [(j & f & c & i' & Hd & _)|[_ (i' & code & msg & E1 & _)]].
  - by exists j, f, c.
  - exfalso. assert ((serve srv key EDownload (by_agent "b" install_id "t1") 60 taken).2
      = http_error code msg) as E2 by (by rewrite E1). rewrite relayed in E2. discriminate E2.
Defined.

Lemma relay_delivers_witness :
  ∃ c, uploaded.(sv_spool) !! part_of meta = Some c ∧ slen c = 4 ∧
    EqualFold (sha256hex c) (sha256hex "blob") = true.
Proof.
  destruct may_finish as [j Hj].
  destruct (relay_delivers srv key never_fails tick_tokens_inj attempts_ok (by_agent "a" job_id "t1")
    final 20 uploaded finished.1.1 finished.1.2
    (match finished.2 with Answer _ _ b => b | Aborted _ => Empty end) j meta
    (by_agent "b" install_id "t1") 60 taken
    (default zero_Job (taken.(sv_store).(Sql.jobs) !! install_id)))
    as (c & i2 & _ & Hc & Hl & Hh).
  - exact uploaded_wf.
  - apply uploaded_unused. lia.
  - vm_compute. discriminate.
  - split; vm_compute; discriminate.
  - vm_compute. reflexivity.
  - exact Hj.
  - intros t Ht. vm_compute in Ht. injection Ht as <-. vm_compute. discriminate.
  - vm_compute. reflexivity.
  - vm_compute. reflexivity.
  - intros t Ht. vm_compute in Ht. injection Ht as <-. vm_compute. reflexivity.
  - split_and!; [vm_compute; discriminate|vm_compute; reflexivity..].
  - vm_compute. reflexivity.
  - reflexivity.
  - vm_compute. reflexivity.
  - vm_compute. reflexivity.
  - exists c. split_and!; [exact Hc|exact Hl|exact Hh].
Defined.

End TransferDemo.
End AgentTransfers.
