(* ===== verification/FileSystem.v ===== *)
(** * Files ([os], [path/filepath])

    What the storage code of a node uses of the operating system: a file system
    in which several names may share an inode, the calls on it, the order in
    which directories are walked, and programs of calls each of which may fail.

    Paths are absolute and clean, modes are left out, and symbolic links and
    other special files are names whose inode is not regular and cannot be read. *)

From Stdlib Require Import Ascii String.
From stdpp Require Import stringmap.
From S2P Require Import Prelude GoStd Text Control.
#[global] Open Scope Z_scope.

(** ** Errors: what [errors.Is(err, os.ErrNotExist)] tells apart *)

Inductive FileError :=
| NotExist (e : string)
| Failure (e : string).

#[export] Instance FileError_eq_dec : EqDecision FileError.
Proof. solve_decision. Defined.

Definition is_not_exist (e : FileError) : bool :=
  match e with NotExist _ => true | Failure _ => false end.

(** ** Paths *)

Definition slen (s : string) : Z := Z.of_nat (String.length s).

(** [filepath.Join] of a clean path and a name. *)
Definition join (dir name : string) : string := dir +:+ "/" +:+ name.

(** The names of a path, cut at the separators. *)
Fixpoint cut_names (cur l : list ascii) : list string :=
  match l with
  | [] => [String.string_of_list_ascii (rev cur)]
  | c :: l' =>
      if c ≟ "/"%char then String.string_of_list_ascii (rev cur) :: cut_names [] l'
      else cut_names (c :: cur) l'
  end.

Definition names (p : string) : list string := cut_names [] (chars p).

(** [filepath.Base], and [d.Name()] of a directory entry. *)
Definition Base (p : string) : string := List.last (names p) "".

(** [filepath.Dir] *)
Definition Dir (p : string) : string := String.concat "/" (removelast (names p)).

(** The directories above a path. *)
Definition ancestors (p : string) : list string :=
  (fun k => String.concat "/" (take k (names p))) <$> seq 2 (length (names p) - 2).

(** [strings.HasPrefix(p, root+string(os.PathSeparator))] *)
Definition under (root p : string) : bool := HasPrefix p (root +:+ "/").

Definition HasSuffix (s suf : string) : bool :=
  bool_decide (take (length (chars suf)) (rev (chars s)) = rev (chars suf)).

Fixpoint Contains (s sub : string) : bool :=
  HasPrefix s sub || match s with EmptyString => false | String _ s' => Contains s' sub end.

(** [filepath.Ext]: the last name from its last dot on. *)
Fixpoint from_last_dot (l acc : list ascii) : list ascii :=
  match l with
  | [] => acc
  | c :: l' => from_last_dot l' (if c ≟ "."%char then l else acc)
  end.

Definition Ext (p : string) : string :=
  String.string_of_list_ascii (from_last_dot (chars (Base p)) []).

(** ** The file system *)

Record Inode := mkInode { i_regular : bool; i_content : string; i_modtime : Time }.

(** An inode without a record is an empty file. *)
Record FS := mkFS {
  entries : gmap string positive;
  dirs : gset string;
  inodes : gmap positive Inode
}.

#[export] Instance FS_settable : Settable FS :=
  fun r => mkFS (r.(entries)) (r.(dirs)) (r.(inodes)).

#[export] Instance FS_eq_dec : EqDecision FS.
Proof.
  intros [e d n] [e' d' n']. destruct (decide (e = e')); [|right; congruence].
  destruct (decide (d = d')); [|right; congruence].
  assert (EqDecision Inode) by solve_decision.
  destruct (decide (n = n')); [left; congruence|right; congruence].
Defined.

Definition inode (fs : FS) (i : positive) : Inode :=
  default (mkInode true "" time_zero) (fs.(inodes) !! i).

Definition inode_at (fs : FS) (p : string) : option Inode := inode fs <$> fs.(entries) !! p.

(** What reading a name gives. *)
Definition read (fs : FS) (p : string) : option string := i_content <$> inode_at fs p.

Definition is_dir (fs : FS) (p : string) : bool :=
  bool_decide (p ∈ fs.(dirs)) || existsb (under p) (map_to_list fs.(entries)).*1.

(** A number no inode in use has. *)
Definition unused (fs : FS) : positive :=
  fresh (dom fs.(inodes) ∪ list_to_set (map_to_list fs.(entries)).*2 : gset positive).

(** The error of a lookup that finds nothing. *)
Definition missing (fs : FS) (p : string) : FileError :=
  if existsb (fun q => bool_decide (is_Some (fs.(entries) !! q))) (ancestors p)
  then Failure (p +:+ ": not a directory")
  else NotExist (p +:+ ": no such file or directory").

Record FileInfo := mkFileInfo {
  fi_dir : bool;
  fi_regular : bool;
  fi_size : Z;
  fi_modtime : Time;
  fi_inode : option positive
}.

(** ** Programs *)

(** Whether the call made at this point fails and how, how much of a text a
    failing write leaves, the size a directory has, and the name [os.CreateTemp]
    finds free for a pattern. *)
Class OS := {
  fault : nat → option string;
  partial : nat → string → string;
  dir_size : string → Z;
  temp_name : FS → string → string → string;
  temp_name_prefix fs dir pat : ∃ t, temp_name fs dir pat = join dir pat +:+ t;
  temp_name_free fs dir pat : fs.(entries) !! temp_name fs dir pat = None
}.

Section Disk.
Context {E : Env} {O : OS}.

Definition Disk (A : Type) : Type := nat → FS → nat * FS * (FileError + A).

#[export] Instance disk_ret : MRet Disk := fun A a i fs => (i, fs, inr a).
#[export] Instance disk_bind : MBind Disk := fun A B f p i fs =>
  match p i fs with
  | (i', fs', inr a) => f a i' fs'
  | (i', fs', inl e) => (i', fs', inl e)
  end.

(** [return err] *)
Definition throw {A} (e : FileError) : Disk A := fun i fs => (i, fs, inl e).

(** A call whose error the caller looks at, or ignores. *)
Definition try {A} (p : Disk A) : Disk (FileError + A) := fun i fs =>
  match p i fs with (i', fs', r) => (i', fs', inr r) end.

(** [defer] of a call that undoes something if the rest fails. *)
Definition on_error {A} (undo : Disk unit) (p : Disk A) : Disk A :=
  r ← try p;
  match r with
  | inr a => mret a
  | inl e => try undo;; throw e
  end.

(** A call on the file system at a time. *)
Definition syscall {A} (f : Time → FS → FS * (FileError + A)) : Disk A := fun i fs =>
  match fault i with
  | Some e => (S i, fs, inl (Failure e))
  | None => let '(fs', r) := f (clock i) fs in (S i, fs', r)
  end.

(** [time.Now] *)
Definition disk_now : Disk Time := fun i fs => (S i, fs, inr (clock i)).

(** A call that changes nothing: [Sync], [Close] after a write, reading a directory. *)
Definition touch : Disk unit := syscall (fun _ fs => (fs, inr tt)).

(** ** Calls *)

Definition stat_at (fs : FS) (p : string) : FileError + FileInfo :=
  match fs.(entries) !! p with
  | Some i =>
      let n := inode fs i in
      inr (mkFileInfo false n.(i_regular) (slen n.(i_content)) n.(i_modtime) (Some i))
  | None =>
      if is_dir fs p then inr (mkFileInfo true false (dir_size p) time_zero None)
      else inl (missing fs p)
  end.

(** [os.Stat], and [d.Info()] of an entry a walk has found. *)
Definition Stat (p : string) : Disk FileInfo := syscall (fun _ fs => (fs, stat_at fs p)).

Definition read_at (fs : FS) (p : string) : FileError + string :=
  match inode_at fs p with
  | Some n => if n.(i_regular) then inr n.(i_content) else inl (Failure (p +:+ ": cannot be read"))
  | None => inl (if is_dir fs p then Failure (p +:+ ": is a directory") else missing fs p)
  end.

(** [os.Open] and reading to the end. *)
Definition ReadFile (p : string) : Disk string := syscall (fun _ fs => (fs, read_at fs p)).

Definition occupied (fs : FS) (p : string) : bool :=
  bool_decide (is_Some (fs.(entries) !! p)).

Definition MkdirAll (d : string) : Disk unit := syscall (fun _ fs =>
  if existsb (occupied fs) (d :: ancestors d) then (fs, inl (Failure (d +:+ ": not a directory")))
  else (fs <| dirs := list_to_set (d :: ancestors d) ∪ fs.(dirs) |>, inr tt)).

(** A new empty file; the result is its name and its inode, which the handle keeps. *)
Definition CreateTemp (dir pat : string) : Disk (string * positive) := syscall (fun t fs =>
  if is_dir fs dir then
    let p := temp_name fs dir pat in
    let i := unused fs in
    (fs <| entries := <[p := i]> fs.(entries) |>
        <| inodes := <[i := mkInode true "" t]> fs.(inodes) |>, inr (p, i))
  else (fs, inl (missing fs dir))).

Definition put (i : positive) (c : string) (t : Time) (fs : FS) : FS :=
  fs <| inodes := <[i := mkInode true c t]> fs.(inodes) |>.

(** Writing a text through a handle that is at the start of an empty file. *)
Definition Write (i : positive) (c : string) : Disk unit := fun k fs =>
  match fault k with
  | Some e => (S k, put i (partial k c) (clock k) fs, inl (Failure e))
  | None => (S k, put i c (clock k) fs, inr tt)
  end.

(** [os.OpenFile(p, os.O_WRONLY|os.O_TRUNC, ...)] *)
Definition Truncate (p : string) : Disk positive := syscall (fun t fs =>
  match fs.(entries) !! p with
  | Some i => (put i "" t fs, inr i)
  | None => (fs, inl (missing fs p))
  end).

(** [os.OpenFile(p, os.O_CREATE|..., ...)] *)
Definition OpenCreate (p : string) : Disk positive := syscall (fun t fs =>
  match fs.(entries) !! p with
  | Some i => (fs, inr i)
  | None =>
      if is_dir fs p then (fs, inl (Failure (p +:+ ": is a directory")))
      else if is_dir fs (Dir p) then
        let i := unused fs in
        (fs <| entries := <[p := i]> fs.(entries) |>
            <| inodes := <[i := mkInode true "" t]> fs.(inodes) |>, inr i)
      else (fs, inl (missing fs p))
  end).

(** Writing through a handle opened with [os.O_APPEND]. *)
Definition WriteEnd (i : positive) (c : string) : Disk unit := fun k fs =>
  let old := (inode fs i).(i_content) in
  match fault k with
  | Some e => (S k, put i (old +:+ partial k c) (clock k) fs, inl (Failure e))
  | None => (S k, put i (old +:+ c) (clock k) fs, inr tt)
  end.

(** [os.Rename] of a file; on two names of one inode it does nothing. *)
Definition Rename (a b : string) : Disk unit := syscall (fun _ fs =>
  match fs.(entries) !! a with
  | None => (fs, inl (missing fs a))
  | Some i =>
      if is_dir fs b then (fs, inl (Failure (b +:+ ": file exists")))
      else if negb (is_dir fs (Dir b)) then (fs, inl (missing fs b))
      else if bool_decide (fs.(entries) !! b = Some i) then (fs, inr tt)
      else (fs <| entries := <[b := i]> (delete a fs.(entries)) |>, inr tt)
  end).

(** [os.Link] *)
Definition Link (a b : string) : Disk unit := syscall (fun _ fs =>
  match fs.(entries) !! a with
  | None => (fs, inl (if is_dir fs a then Failure (a +:+ ": operation not permitted") else missing fs a))
  | Some i =>
      if occupied fs b || is_dir fs b then (fs, inl (Failure (b +:+ ": file exists")))
      else if negb (is_dir fs (Dir b)) then (fs, inl (missing fs b))
      else (fs <| entries := <[b := i]> fs.(entries) |>, inr tt)
  end).

(** [os.Remove] of a file or an empty directory. *)
Definition Remove (p : string) : Disk unit := syscall (fun _ fs =>
  if occupied fs p then (fs <| entries := delete p fs.(entries) |>, inr tt)
  else if negb (is_dir fs p) then (fs, inl (missing fs p))
  else if existsb (under p) ((map_to_list fs.(entries)).*1 ++ elements fs.(dirs))
  then (fs, inl (Failure (p +:+ ": directory not empty")))
  else (fs <| dirs := fs.(dirs) ∖ {[p]} |>, inr tt)).

(** ** Walking a tree *)

Fixpoint names_less (a b : list string) : bool :=
  match a, b with
  | _, [] => false
  | [], _ :: _ => true
  | x :: a', y :: b' => str_less x y || ((x ≟ y) && names_less a' b')
  end.

(** The entries of each directory come in the order of their names. *)
Definition walk_order (l : list string) : list string :=
  sort_slice (fun p q => names_less (names p) (names q)) l.

Definition files_under (fs : FS) (root : string) : list string :=
  walk_order (List.filter (under root) (map_to_list fs.(entries)).*1).

Definition walk_list (fs : FS) (root : string) : FileError + list string :=
  if occupied fs root then inr [root]
  else if is_dir fs root then inr (files_under fs root)
  else inl (missing fs root).

(** The files a walk visits, with what the callback accumulates; directories may
    fail to be read on the way. *)
Fixpoint visit {A} (fn : string → A → Disk (A * option FileError)) (l : list string) (a : A)
    : Disk (A * option FileError) :=
  match l with
  | [] => mret (a, None)
  | p :: l' =>
      r ← try touch;
      match r with
      | inl e => mret (a, Some e)
      | inr _ =>
          '(a', e) ← fn p a;
          match e with Some e => mret (a', Some e) | None => visit fn l' a' end
      end
  end.

(** [filepath.WalkDir] with a callback that returns the errors it gets and skips
    directories. *)
Definition WalkDir {A} (root : string) (fn : string → A → Disk (A * option FileError)) (a : A)
    : Disk (A * option FileError) :=
  r ← try (syscall (fun _ fs => (fs, walk_list fs root)));
  match r with
  | inl e => mret (a, Some e)
  | inr l => visit fn l a
  end.
End Disk.
Arguments Disk A : clear implicits.

(** [if err != nil { return err }] in a callback. *)
Definition stop_on {A} {E : Env} {O : OS} (p : Disk A) (a : A) : Disk (A * option FileError) :=
  r ← try p;
  match r with inr a' => mret (a', None) | inl e => mret (a, Some e) end.

(** ** Facts *)

Lemma cut_names_app cur l l' :
  cut_names cur (l ++ "/"%char :: l') = cut_names cur l ++ cut_names [] l'.
Proof.
  revert cur. induction l as [|c l IH]; intros cur; simpl; [done|].
  destruct (c ≟ "/"%char); simpl; by rewrite IH.
Qed.

Lemma names_join a b : names (join a b) = names a ++ names b.
Proof. unfold names, join. rewrite !chars_app. apply cut_names_app. Qed.

Lemma cut_names_name cur l :
  "/"%char ∉ l → cut_names cur l = [String.string_of_list_ascii (rev cur ++ l)].
Proof.
  revert cur. induction l as [|c l IH]; intros cur Hl; simpl; [by rewrite app_nil_r|].
  rewrite bool_decide_eq_false_2 by set_solver. rewrite IH by set_solver. simpl.
  by rewrite <- app_assoc.
Qed.

Lemma names_name b : "/"%char ∉ chars b → names b = [b].
Proof.
  intros Hb. unfold names. rewrite cut_names_name by done. simpl. f_equal.
  apply String.string_of_list_ascii_of_string.
Qed.

Lemma Base_join a b : "/"%char ∉ chars b → Base (join a b) = b.
Proof. intros Hb. unfold Base. by rewrite names_join, (names_name b Hb), last_last. Qed.

Lemma cut_names_concat cur l :
  chars (String.concat "/" (cut_names cur l)) = rev cur ++ l.
Proof.
  revert cur. induction l as [|c l IH]; intros cur; simpl.
  - by rewrite chars_of, app_nil_r.
  - destruct (c ≟ "/"%char) eqn:Hc.
    + apply bool_decide_eq_true in Hc as ->. specialize (IH []).
      destruct (cut_names [] l) as [|n ns] eqn:En; simpl in *.
      * by destruct l as [|c l]; simpl in *; [|destruct (c ≟ "/"%char)].
      * rewrite !chars_app, chars_of. simpl. by rewrite <- IH.
    + rewrite IH. simpl. by rewrite <- app_assoc.
Qed.

Lemma Dir_join a b : "/"%char ∉ chars b → Dir (join a b) = a.
Proof.
  intros Hb. unfold Dir. rewrite names_join, (names_name b Hb), removelast_last.
  apply chars_inj. unfold names. by rewrite cut_names_concat.
Qed.

Lemma elem_of_files_under fs root p :
  p ∈ files_under fs root ↔ under root p = true ∧ is_Some (fs.(entries) !! p).
Proof.
  unfold files_under, walk_order.
  rewrite elem_of_sort_slice, list_elem_of_In, filter_In, <- list_elem_of_In, list_elem_of_fmap.
  split.
  - intros [([q i] & -> & Hi%elem_of_map_to_list) Hu]. simpl. by rewrite Hi.
  - intros [Hu [i Hi]]. split; [|done]. exists (p, i). split; [done|]. by apply elem_of_map_to_list.
Qed.

Lemma files_under_NoDup fs root : NoDup (files_under fs root).
Proof.
  unfold files_under, walk_order. rewrite sort_slice_perm. apply NoDup_ListNoDup, List.NoDup_filter.
  apply NoDup_ListNoDup, NoDup_fst_map_to_list.
Qed.

Lemma existsb_intro {A} (p : A → bool) l x : x ∈ l → p x = true → existsb p l = true.
Proof. intros Hx Hp. apply existsb_exists. exists x. by rewrite <- list_elem_of_In. Qed.

Lemma files_under_nowhere fs root e : walk_list fs root = inl e → files_under fs root = [].
Proof.
  unfold walk_list. destruct (occupied fs root); [done|]. unfold is_dir.
  destruct (bool_decide _); simpl; [done|]. destruct (existsb _ _) eqn:He; [done|]. intros _.
  apply elem_of_nil_inv. intros p [Hu [i Hi]]%elem_of_files_under.
  rewrite (existsb_intro _ _ p) in He; [done| |done].
  apply list_elem_of_fmap. exists (p, i). split; [done|]. by apply elem_of_map_to_list.
Qed.

Lemma read_entry fs p i : fs.(entries) !! p = Some i → read fs p = Some (inode fs i).(i_content).
Proof. intros H. unfold read, inode_at. by rewrite H. Qed.

Lemma read_insert fs p i q :
  read (fs <| entries := <[p := i]> fs.(entries) |>) q =
  if bool_decide (q = p) then Some (inode fs i).(i_content) else read fs q.
Proof.
  unfold read, inode_at. simpl. case_bool_decide as Hq.
  - by rewrite Hq, lookup_insert_eq.
  - by rewrite lookup_insert_ne.
Qed.

Lemma read_put fs i c t q :
  read (put i c t fs) q =
  if bool_decide (fs.(entries) !! q = Some i) then Some c else read fs q.
Proof.
  unfold read, inode_at, put, inode. simpl. destruct (entries fs !! q) as [j|]; simpl; [|done].
  destruct (decide (j = i)) as [->|Hj].
  - by rewrite lookup_insert_eq, bool_decide_eq_true_2.
  - by rewrite lookup_insert_ne, bool_decide_eq_false_2 by congruence.
Qed.

Lemma unused_free fs q : fs.(entries) !! q ≠ Some (unused fs).
Proof.
  intros H. apply (is_fresh (dom fs.(inodes) ∪ list_to_set (map_to_list fs.(entries)).*2)).
  apply elem_of_union_r, elem_of_list_to_set, list_elem_of_fmap. exists (q, unused fs).
  split; [done|]. by apply elem_of_map_to_list.
Qed.

(** ** Reasoning about programs

    A triple has one postcondition for results and one for errors. *)

Section Rules.
Context {E : Env} {O : OS}.
Implicit Types (fs : FS) (P : FS → Prop) (X : FS → FileError → Prop).

Definition hoare {A} P (p : Disk A) (Q : FS → A → Prop) X : Prop :=
  ∀ i fs, P fs →
    match p i fs with
    | (_, fs', inr a) => Q fs' a
    | (_, fs', inl e) => X fs' e
    end.

Lemma h_ret {A} P (a : A) Q X : (∀ fs, P fs → Q fs a) → hoare P (mret a) Q X.
Proof. intros H i fs HP. apply (H fs HP). Qed.

Lemma h_throw {A} P e (Q : FS → A → Prop) X : (∀ fs, P fs → X fs e) → hoare P (throw e) Q X.
Proof. intros H i fs HP. apply (H fs HP). Qed.

Lemma h_bind {A B} P (p : Disk A) (f : A → Disk B) Q' Q X :
  hoare P p Q' X → (∀ a, hoare (fun fs => Q' fs a) (f a) Q X) → hoare P (p ≫= f) Q X.
Proof.
  intros Hp Hf i fs HP. specialize (Hp i fs HP). unfold mbind, disk_bind.
  destruct (p i fs) as [[i' fs'] [e|a]]; [done|]. by apply Hf.
Qed.

Lemma h_try {A} P (p : Disk A) Q X :
  hoare P p (fun fs a => Q fs (inr a)) (fun fs e => Q fs (inl e)) → hoare P (try p) Q X.
Proof.
  intros Hp i fs HP. specialize (Hp i fs HP). unfold try.
  by destruct (p i fs) as [[i' fs'] [e|a]].
Qed.

Lemma h_weaken {A} P' (p : Disk A) Q' X' P Q X :
  hoare P' p Q' X' → (∀ fs, P fs → P' fs) → (∀ fs a, Q' fs a → Q fs a) →
  (∀ fs e, X' fs e → X fs e) → hoare P p Q X.
Proof.
  intros Hp HP HQ HX i fs H. specialize (Hp i fs (HP fs H)).
  destruct (p i fs) as [[i' fs'] [e|a]]; auto.
Qed.

Lemma h_before {A} P' P (p : Disk A) Q X :
  hoare P' p Q X → (∀ fs, P fs → P' fs) → hoare P p Q X.
Proof. intros H HP. by eapply h_weaken. Qed.

(** The error of the first call is an error of the whole. *)
Lemma h_seq {A B} P (p : Disk A) (f : A → Disk B) Q' X' Q X :
  hoare P p Q' X' → (∀ fs e, X' fs e → X fs e) →
  (∀ a, hoare (fun fs => Q' fs a) (f a) Q X) → hoare P (p ≫= f) Q X.
Proof. intros Hp HX Hf. eapply h_bind; [by eapply h_weaken|done]. Qed.

Lemma h_pre {A} (φ : Prop) P (p : Disk A) Q X :
  (∀ fs, P fs → φ) → (φ → hoare P p Q X) → hoare P p Q X.
Proof. intros Hφ Hp i fs HP. exact (Hp (Hφ fs HP) i fs HP). Qed.

(** A call whose error is looked at. *)
Lemma h_attempt {A B} P (p : Disk A) (f : FileError + A → Disk B) Q' X' Q X :
  hoare P p Q' X' → (∀ a, hoare (fun fs => Q' fs a) (f (inr a)) Q X) →
  (∀ e, hoare (fun fs => X' fs e) (f (inl e)) Q X) → hoare P (try p ≫= f) Q X.
Proof.
  intros Hp Hf He.
  apply (h_bind _ _ _ (fun fs r => match r with inr a => Q' fs a | inl e => X' fs e end));
    [by apply h_try|].
  intros [e|a]; auto.
Qed.

Lemma h_on_error {A} P undo (p : Disk A) X' Q X :
  hoare P p Q X' →
  (∀ e, hoare (fun fs => X' fs e) undo (fun fs _ => X fs e) (fun fs _ => X fs e)) →
  hoare P (on_error undo p) Q X.
Proof.
  intros Hp Hu. eapply h_attempt; [exact Hp|intros a; by apply h_ret|].
  intros e. eapply h_attempt; [apply Hu|intros []; by apply h_throw|intros e'; by apply h_throw].
Qed.

(** A call that fails leaves the state alone. *)
Lemma h_syscall {A} P (f : Time → FS → FS * (FileError + A)) Q X :
  (∀ fs e, P fs → X fs (Failure e)) →
  (∀ t fs, P fs → match f t fs with (fs', inr a) => Q fs' a | (fs', inl e) => X fs' e end) →
  hoare P (syscall f) Q X.
Proof.
  intros HX Hf i fs HP. unfold syscall. destruct (fault i) as [e|]; [by apply HX|].
  specialize (Hf (clock i) fs HP). by destruct (f (clock i) fs) as [fs' [e|a]].
Qed.

Lemma h_touch P : hoare P touch (fun fs _ => P fs) (fun fs e => P fs ∧ is_not_exist e = false).
Proof. by apply h_syscall. Qed.

Lemma h_Stat P p :
  hoare P (Stat p) (fun fs info => P fs ∧ stat_at fs p = inr info)
    (fun fs e => P fs ∧ (stat_at fs p = inl e ∨ is_not_exist e = false)).
Proof. apply h_syscall; [by auto|]. intros t fs HP. destruct (stat_at fs p); auto. Qed.

Lemma h_ReadFile P p :
  hoare P (ReadFile p) (fun fs c => P fs ∧ read_at fs p = inr c)
    (fun fs e => P fs ∧ (read_at fs p = inl e ∨ is_not_exist e = false)).
Proof. apply h_syscall; [by auto|]. intros t fs HP. destruct (read_at fs p); auto. Qed.

Lemma h_Remove P p :
  hoare P (Remove p)
    (fun fs _ => ∃ fs0, P fs0 ∧
       if occupied fs0 p then fs = fs0 <| entries := delete p fs0.(entries) |>
       else fs = fs0 <| dirs := fs0.(dirs) ∖ {[p]} |>)
    (fun fs e => P fs ∧ (occupied fs p = true → is_not_exist e = false)).
Proof.
  apply h_syscall; [by split|]. intros t fs HP. destruct (occupied fs p) eqn:Ho.
  - exists fs. by rewrite Ho.
  - destruct (negb (is_dir fs p)); [by rewrite Ho|]. destruct (existsb _ _); [by rewrite Ho|].
    exists fs. by rewrite Ho.
Qed.

Lemma h_MkdirAll d P :
  (∀ fs l, P fs → P (fs <| dirs := l |>)) →
  hoare P (MkdirAll d) (fun fs _ => P fs) (fun fs _ => P fs).
Proof.
  intros HP. apply h_syscall; [done|]. intros t fs H. by destruct (existsb _ _); [|apply HP].
Qed.

(** A walk, by an invariant over what has been visited. *)
Section Walk.
Context {A : Type} (J : list string → FS → A → Prop) (X : FS → A → FileError → Prop).
Context (fn : string → A → Disk (A * option FileError)).

Definition visited (l : list string) (fs : FS) (r : A * option FileError) : Prop :=
  match r.2 with None => J l fs r.1 | Some e => X fs r.1 e end.

Lemma h_visit l0 :
  (∀ seen p rest a, l0 = seen ++ p :: rest →
     hoare (fun fs => J seen fs a) (fn p a) (visited (seen ++ [p])) (fun _ _ => False)) →
  (∀ seen fs a e, J seen fs a → is_not_exist e = false → X fs a e) →
  ∀ rest seen a, l0 = seen ++ rest →
    hoare (fun fs => J seen fs a) (visit fn rest a) (visited l0) (fun _ _ => False).
Proof.
  intros Hfn HX rest. induction rest as [|p rest IH]; intros seen a E'; simpl.
  - apply h_ret. intros fs HJ. by rewrite E', app_nil_r.
  - eapply h_attempt; [apply h_touch|intros []|].
    + eapply h_bind; [by apply (Hfn seen p rest)|]. intros [a' [e|]]; unfold visited at 1; simpl.
      * by apply h_ret.
      * apply IH. by rewrite <- app_assoc.
    + intros e. apply h_ret. intros fs [HJ He]. by apply (HX seen).
Qed.

Lemma h_WalkDir fs1 root a :
  (∀ l, walk_list fs1 root = inr l → J [] fs1 a) →
  (∀ l seen p rest a, walk_list fs1 root = inr l → l = seen ++ p :: rest →
     hoare (fun fs => J seen fs a) (fn p a) (visited (seen ++ [p])) (fun _ _ => False)) →
  (∀ seen fs a e, J seen fs a → is_not_exist e = false → X fs a e) →
  (∀ e, walk_list fs1 root = inl e ∨ is_not_exist e = false → X fs1 a e) →
  hoare (fun fs => fs = fs1) (WalkDir root fn a)
    (fun fs r => match r.2 with
                 | None => ∃ l, walk_list fs1 root = inr l ∧ J l fs r.1
                 | Some e => X fs r.1 e
                 end) (fun _ _ => False).
Proof.
  intros H0 Hfn HX He. unfold WalkDir.
  apply (h_attempt _ _ _ (fun fs l => fs = fs1 ∧ walk_list fs1 root = inr l)
    (fun fs e => fs = fs1 ∧ (walk_list fs1 root = inl e ∨ is_not_exist e = false))).
  - apply h_syscall; [by auto|]. intros t fs ->. destruct (walk_list fs1 root); auto.
  - intros l. apply h_pre with (walk_list fs1 root = inr l); [by intros fs [_ H]|]. intros Hl.
    eapply h_weaken; [apply (h_visit l) with (seen := []); eauto|..].
    + intros fs [-> _]. eauto.
    + intros fs [a' [e|]]; unfold visited; simpl; [done|]. eauto.
    + done.
  - intros e. apply h_ret. intros fs [-> H]. simpl. auto.
Qed.
End Walk.

Lemma h_WalkDir_inv {A} (I : FS → Prop) root (fn : string → A → Disk (A * option FileError)) a :
  (∀ p a, hoare I (fn p a) (fun fs _ => I fs) (fun _ _ => False)) →
  hoare I (WalkDir root fn a) (fun fs _ => I fs) (fun _ _ => False).
Proof.
  intros Hfn i fs1 H1.
  pose proof (h_WalkDir (fun _ fs _ => I fs) (fun fs _ _ => I fs) fn fs1 root a
    (fun _ _ => H1)) as H.
  assert (Hv : ∀ l fs r, visited (fun _ fs (_ : A) => I fs) (fun fs _ _ => I fs) l fs r ↔ I fs)
    by (intros l fs [a' [e|]]; done).
  specialize (H ltac:(intros l seen p rest a' _ _; eapply h_weaken; [apply Hfn|done|by intros; apply Hv|done])
    ltac:(done) ltac:(done) i fs1 eq_refl).
  destruct (WalkDir root fn a i fs1) as [[i' fs'] [e|[a' [e|]]]]; naive_solver.
Qed.

(** A callback that hands its errors on. *)
Lemma h_stop_on {A} (p : Disk A) (a : A) P Q X :
  hoare P p Q X →
  hoare P (stop_on p a)
    (fun fs r => match r.2 with None => Q fs r.1 | Some e => X fs e ∧ r.1 = a end) (fun _ _ => False).
Proof. intros Hp. eapply h_attempt; [exact Hp|..]; intros ?; by apply h_ret. Qed.
End Rules.

(** ** A disk on which no call fails, for examples *)

Program Definition reliable : OS := {|
  fault _ := None;
  partial _ _ := "";
  dir_size _ := 4096;
  temp_name fs dir pat := fresh_string (join dir pat) fs.(entries)
|}.
Next Obligation.
  intros fs dir pat. unfold fresh_string. destruct (_ !! _); [|exists ""; by rewrite text_nil].
  generalize 0%N, (wf_guard 32 (fresh_string_R_wf (join dir pat) (entries fs)) 0%N).
  fix FIX 2. intros n [?]. simpl. unfold fresh_string_go at 1. simpl.
  destruct (Some_dec _) as [[??]|?]; [auto|by eexists].
Qed.
Next Obligation. intros. apply fresh_string_fresh. Qed.

Definition from_files (l : list (string * string)) : FS :=
  let ps := l.*1 in
  mkFS (list_to_map (imap (fun k p => (p, Pos.of_succ_nat k)) ps))
    (list_to_set (mbind ancestors ps))
    (list_to_map (imap (fun k kv => (Pos.of_succ_nat k, mkInode true kv.2 time_zero)) l)).
