(* ===== verification/Cas.v ===== *)
(** * The content-addressed store of a node ([internal/cas/cas.go])

    Objects are files named by the SHA-256 of their content.  [Ingest] replaces
    a file by a hard link to its object, [Compact] does so for trees, [Verify]
    checks all objects, and [GCProtected] removes the objects that no backup
    tree and no record of the control plane needs.  CasRules has the theorems. *)

From Stdlib Require Import Ascii String.
From S2P Require Import Prelude GoStd Text Sha256 Control FileSystem.
#[global] Open Scope Z_scope.

Module Cas.

Record Store := mkStore { cas_Root : string; cas_MinFileSize : Z }.

Record IngestResult := mkIngestResult {
  ing_SHA256 : string;
  ing_Size : Z;
  ing_BlobPath : string;
  ing_Existing : bool;
  ing_HardLinked : bool;
  ing_ReclaimedBytes : Z
}.

#[export] Instance IngestResult_settable : Settable IngestResult :=
  fun r => mkIngestResult (r.(ing_SHA256)) (r.(ing_Size)) (r.(ing_BlobPath)) (r.(ing_Existing))
    (r.(ing_HardLinked)) (r.(ing_ReclaimedBytes)).

Record Stats := mkStats {
  cs_Objects : Z;
  cs_PhysicalBytes : Z;
  cs_LogicalFiles : Z;
  cs_LogicalBytes : Z;
  cs_Reclaimed : Z
}.

#[export] Instance Stats_settable : Settable Stats :=
  fun r => mkStats (r.(cs_Objects)) (r.(cs_PhysicalBytes)) (r.(cs_LogicalFiles))
    (r.(cs_LogicalBytes)) (r.(cs_Reclaimed)).

Record ObjectInfo := mkObjectInfo {
  oi_Digest : string;
  oi_Path : string;
  oi_Bytes : Z;
  oi_ModTime : Time
}.

Record GCResult := mkGCResult {
  gc_ScannedFiles : Z;
  gc_Reachable : Z;
  gc_Removed : Z;
  gc_RemovedBytes : Z;
  gc_DryRun : bool
}.

#[export] Instance GCResult_settable : Settable GCResult :=
  fun r => mkGCResult (r.(gc_ScannedFiles)) (r.(gc_Reachable)) (r.(gc_Removed))
    (r.(gc_RemovedBytes)) (r.(gc_DryRun)).

Definition New (root : string) (minFileSize : Z) : Store :=
  mkStore root (if minFileSize <? 0 then 0 else minFileSize).

Section Store.
Context {E : Env} {O : OS}.
Implicit Types (s : Store).

Definition objectRoot s : string := join s.(cas_Root) "sha256".

Definition blobPath s (sum : string) : string :=
  join (join (objectRoot s) (String.substring 0 2 sum)) sum.

Definition BlobPath s (sum : string) : string :=
  let sum := ToLower (TrimSpace sum) in
  if slen sum ≟ 64 then blobPath s sum else "".

Lemma Base_objectRoot s : Base (objectRoot s) = "sha256".
Proof. apply Base_join. by apply (bool_decide_eq_false_1 ("/"%char ∈ chars "sha256")). Qed.

Definition invalid_name (path : string) : FileError :=
  Failure ("invalid CAS object name: " +:+ path).

(** ** Listing *)

Definition list_object (path : string) (out : list ObjectInfo)
    : Disk (list ObjectInfo * option FileError) :=
  let digest := ToLower (Base path) in
  if slen digest ≠? 64 then mret (out, Some (invalid_name path))
  else stop_on (
    info ← Stat path;
    mret (out ++ [mkObjectInfo digest path info.(fi_size) info.(fi_modtime)])) out.

Definition ListObjects s : Disk (list ObjectInfo) :=
  '(out, err) ← WalkDir (objectRoot s) list_object [];
  match err with
  | Some e => if is_not_exist e then mret [] else throw e
  | None => mret (sort_slice (fun x y => str_less x.(oi_Digest) y.(oi_Digest)) out)
  end.

Definition HashFile (path : string) : Disk (string * Z) :=
  c ← ReadFile path; mret (sha256hex c, slen c).

(** ** Ingest *)

Definition sameFile (a b : string) : Disk bool :=
  ai ← try (Stat a);
  bi ← try (Stat b);
  mret match ai, bi with
       | inr ai, inr bi => bool_decide (ai.(fi_inode) = bi.(fi_inode))
       | _, _ => false
       end.

(** Puts a copy of the file in place of the missing object.  The result says
    whether another copy was there after all, and the temporary name that the
    deferred call then still removes. *)
Definition create_blob (path blob : string) : Disk (bool * option string) :=
  '(tmpName, tmp) ← CreateTemp (Dir blob) ".repoark-cas-";
  on_error (Remove tmpName) (
    src ← ReadFile path;
    Write tmp src;; touch;; touch;; touch;;
    r ← try (Rename tmpName blob);
    match r with
    | inr _ => mret (false, None)
    | inl err =>
        st ← try (Stat blob);
        match st with
        | inl _ => throw err
        | inr _ => try (Remove tmpName);; mret (true, Some tmpName)
        end
    end).

Definition ensure_blob (path blob sum : string) (size : Z) : Disk (bool * option string) :=
  binfo ← try (Stat blob);
  match binfo with
  | inr b =>
      if b.(fi_size) ≠? size then throw (Failure ("CAS collision/size mismatch for " +:+ sum))
      else mret (true, None)
  | inl e => if is_not_exist e then create_blob path blob else throw e
  end.

(** Replaces the file by a link to the object where the system allows it. *)
Definition link_blob (path blob : string) (size : Z) (out : IngestResult) : Disk IngestResult :=
  same ← sameFile path blob;
  match same with
  | true => mret (out <| ing_HardLinked := true |>)
  | false =>
      let swap := path +:+ ".repoark-cas-swap" in
      try (Remove swap);;
      l ← try (Link blob swap);
      match l with
      | inl _ => mret out
      | inr _ =>
          r ← try (Rename swap path);
          match r with
          | inr _ =>
              let out := out <| ing_HardLinked := true |> in
              mret (if out.(ing_Existing) then out <| ing_ReclaimedBytes := size |> else out)
          | inl _ => try (Remove swap);; mret out
          end
      end
  end.

Definition no_ingest : IngestResult := mkIngestResult "" 0 "" false false 0.

Definition Ingest s (path : string) : Disk IngestResult :=
  info ← Stat path;
  if negb info.(fi_regular) then throw (Failure ("not a regular file: " +:+ path))
  else if info.(fi_size) <? s.(cas_MinFileSize) then mret no_ingest
  else
    '(sum, size) ← HashFile path;
    let blob := blobPath s sum in
    MkdirAll (Dir blob);;
    '(existing, tmp) ← ensure_blob path blob sum size;
    out ← link_blob path blob size (mkIngestResult sum size blob existing false 0);
    match tmp with
    | Some t => try (Remove t);; mret out
    | None => mret out
    end.

(** ** Verify *)

Definition verify_object (path : string) (st : Stats) : Disk (Stats * option FileError) :=
  let name := Base path in
  if slen name ≠? 64 then mret (st, Some (invalid_name path))
  else stop_on (
    '(got, size) ← HashFile path;
    if EqualFold got name
    then mret (st <| cs_Objects := st.(cs_Objects) + 1 |>
                  <| cs_PhysicalBytes := st.(cs_PhysicalBytes) + size |>)
    else throw (Failure ("CAS hash mismatch: " +:+ path))) st.

Definition no_stats : Stats := mkStats 0 0 0 0 0.

Definition Verify s : Disk Stats :=
  '(st, err) ← WalkDir (objectRoot s) verify_object no_stats;
  match err with
  | Some e => if is_not_exist e then mret st else throw e
  | None => mret st
  end.

(** ** Compact *)

(** [out.LogicalFiles++ ... out.Reclaimed += r.ReclaimedBytes] *)
Definition ingest_logical s (path : string) (size : Z) (out : Stats) : Disk Stats :=
  let out := out <| cs_LogicalFiles := out.(cs_LogicalFiles) + 1 |>
                 <| cs_LogicalBytes := out.(cs_LogicalBytes) + size |> in
  r ← Ingest s path;
  mret (out <| cs_Reclaimed := out.(cs_Reclaimed) + r.(ing_ReclaimedBytes) |>).

Definition sidecar (path : string) : bool :=
  let ext := ToLower (Ext path) in
  (ext ≟ ".json") || (ext ≟ ".sig") || (ext ≟ ".sha256") || HasSuffix path ".sig.json".

Definition compact_entry s (path : string) (out : Stats) : Disk (Stats * option FileError) :=
  if sidecar path then mret (out, None)
  else stop_on (
    info ← Stat path;
    if negb info.(fi_regular) || (info.(fi_size) <? s.(cas_MinFileSize)) then mret out
    else ingest_logical s path info.(fi_size) out) out.

Definition compact_root s (root : string) (out : Stats) : Disk Stats :=
  info ← try (Stat root);
  match info with
  | inl e => if is_not_exist e then mret out else throw e
  | inr info =>
      if negb info.(fi_dir) then
        if info.(fi_regular) && (s.(cas_MinFileSize) <=? info.(fi_size))
        then ingest_logical s root info.(fi_size) out
        else mret out
      else
        '(out, err) ← WalkDir root (compact_entry s) out;
        match err with Some e => throw e | None => mret out end
  end.

Fixpoint compact_roots s (roots : list string) (out : Stats) : Disk Stats :=
  match roots with
  | [] => mret out
  | root :: roots' => out ← compact_root s root out; compact_roots s roots' out
  end.

Definition Compact s (paths : list string) : Disk Stats :=
  out ← compact_roots s (sort_strings paths) no_stats;
  physical ← Verify s;
  mret (out <| cs_Objects := physical.(cs_Objects) |>
            <| cs_PhysicalBytes := physical.(cs_PhysicalBytes) |>).

(** ** Garbage collection *)

Definition skipLogical (path : string) : bool :=
  let lower := ToLower path in
  HasSuffix lower ".json" || HasSuffix lower ".sig" || HasSuffix lower ".sha256"
  || HasSuffix lower ".sig.json" || Contains lower "/manifests/" || Contains lower "/state/".

(** The set [reachable] and [out.ScannedFiles]. *)
Definition Marks : Type := gset string * Z.

Definition scan s (path : string) (m : Marks) : Disk Marks :=
  info ← Stat path;
  if negb info.(fi_regular) || (info.(fi_size) <? s.(cas_MinFileSize)) || skipLogical path
  then mret m
  else
    '(sum, _) ← HashFile path;
    mret ({[sum]} ∪ m.1, m.2 + 1).

Definition skipped_root s (root : string) : bool :=
  (TrimSpace root ≟ "") || (root ≟ s.(cas_Root)) || under s.(cas_Root) root.

Definition mark_root s (root : string) (m : Marks) : Disk Marks :=
  if skipped_root s root then mret m
  else
    info ← try (Stat root);
    match info with
    | inl e => if is_not_exist e then mret m else throw e
    | inr info =>
        if negb info.(fi_dir) then scan s root m
        else
          '(m, err) ← WalkDir root (fun path m => stop_on (scan s path m) m) m;
          match err with Some e => throw e | None => mret m end
    end.

Fixpoint mark s (roots : list string) (m : Marks) : Disk Marks :=
  match roots with
  | [] => mret m
  | root :: roots' => m ← mark_root s root m; mark s roots' m
  end.

Definition protected_digests (protected : gset string) : gset string :=
  list_to_set (ToLower <$> List.filter (fun d => slen d ≟ 64) (elements protected)).

Definition sweep_object (reachable : gset string) (dryRun : bool) (path : string) (out : GCResult)
    : Disk (GCResult * option FileError) :=
  let name := Base path in
  if slen name ≠? 64 then mret (out, Some (invalid_name path))
  else if bool_decide (name ∈ reachable) then mret (out, None)
  else
    info ← try (Stat path);
    match info with
    | inl e => mret (out, Some e)
    | inr info =>
        let out := out <| gc_Removed := out.(gc_Removed) + 1 |>
                       <| gc_RemovedBytes := out.(gc_RemovedBytes) + info.(fi_size) |> in
        if dryRun then mret (out, None)
        else
          r ← try (Remove path);
          mret (out, match r with inl e => Some e | inr _ => None end)
    end.

(** Tries to remove every directory below, the longest names first. *)
Fixpoint remove_dirs (l : list string) : Disk unit :=
  match l with
  | [] => mret tt
  | d :: l' => try (Remove d);; remove_dirs l'
  end.

Definition removeEmptyDirs (root : string) : Disk unit :=
  l ← try (syscall (fun _ fs => (fs, inr (List.filter (under root) (elements fs.(dirs))))));
  match l with
  | inl _ => mret tt
  | inr l => remove_dirs (sort_slice (fun x y => slen y <? slen x) (walk_order l))
  end.

Definition GCProtected s (roots : list string) (dryRun : bool) (protected : gset string)
    : Disk GCResult :=
  '(reachable, scanned) ← mark s roots (∅, 0);
  let reachable := protected_digests protected ∪ reachable in
  let out := mkGCResult scanned (Z.of_nat (size reachable)) 0 0 dryRun in
  '(out, err) ← WalkDir (objectRoot s) (sweep_object reachable dryRun) out;
  match err with
  | Some e => if is_not_exist e then mret out else throw e
  | None =>
      if dryRun then mret out
      else removeEmptyDirs (objectRoot s);; mret out
  end.

Definition GC s (roots : list string) (dryRun : bool) : Disk GCResult :=
  GCProtected s roots dryRun ∅.

(** [repoark cas gc] (app.go): [answer] is what the control plane's store says
    when it is enabled, opens and answers. *)
Definition gc_command s (roots : list string) (dryRun enabled : bool)
    (answer : option (gset string)) : Disk GCResult :=
  GCProtected s roots dryRun (if enabled then default ∅ answer else ∅).
End Store.
End Cas.
