(* ===== verification/CasRules.v ===== *)
(** * What the content-addressed store promises (cas.go)

    The collector removes exactly the objects nothing needs, and never another
    file; compaction changes what no file reads, provided the objects are intact. *)

From Stdlib Require Import Ascii String.
From S2P Require Import Prelude GoStd Text Sha256 Control FileSystem Cas.
#[global] Open Scope Z_scope.

Module CasRules.
Import Cas.

(** ** The collector *)

Section Collect.
Context {E : Env} {O : OS} (s : Store).
Implicit Types (fs : FS) (roots : list string) (m : Marks) (protected : gset string).

(** The files below a root, or the root. *)
Definition tree fs (root : string) : list string :=
  match walk_list fs root with inr l => l | inl _ => [] end.

(** A file whose object is to be kept. *)
Definition eligible fs (q : string) : bool :=
  match inode_at fs q with
  | Some n =>
      n.(i_regular) && (s.(cas_MinFileSize) <=? slen n.(i_content)) && negb (skipLogical q)
  | None => false
  end.

Definition file_has fs (q d : string) : Prop :=
  eligible fs q = true ∧ sha256hex <$> read fs q = Some d.

Definition root_needs fs (root d : string) : Prop :=
  skipped_root s root = false ∧ ∃ q, q ∈ tree fs root ∧ file_has fs q d.

(** A digest that a backup tree or a record of the control plane needs. *)
Definition needed fs roots protected (d : string) : Prop :=
  (∃ root, root ∈ roots ∧ root_needs fs root d) ∨
  (∃ x, x ∈ protected ∧ slen x = 64 ∧ ToLower x = d).

(** An object whose name is not needed. *)
Definition garbage fs roots protected (p : string) : Prop :=
  p ∈ files_under fs (objectRoot s) ∧ ¬ needed fs roots protected (Base p).

Lemma stat_eligible fs q info :
  stat_at fs q = inr info →
  eligible fs q = negb (negb info.(fi_regular) || (info.(fi_size) <? s.(cas_MinFileSize))
                        || skipLogical q).
Proof.
  unfold eligible, inode_at, stat_at. intros H. destruct (entries fs !! q) as [i|]; simpl.
  - injection H as <-. simpl. by rewrite Z.leb_antisym, !negb_orb, negb_involutive.
  - destruct (is_dir fs q); [|done]. by injection H as <-.
Qed.

Lemma read_at_inr fs q c : read_at fs q = inr c → read fs q = Some c.
Proof.
  unfold read_at, read. destruct (inode_at fs q) as [n|]; [|done].
  destruct (i_regular n); [|done]. by intros [= <-].
Qed.

Lemma h_scan fs1 q m :
  hoare (fun fs => fs = fs1) (scan s q m)
    (fun fs m' => fs = fs1 ∧ ∀ d, d ∈ m'.1 ↔ d ∈ m.1 ∨ file_has fs1 q d)
    (fun fs _ => fs = fs1).
Proof.
  unfold scan. eapply h_seq; [apply h_Stat|by intros fs e []|]. intros info. simpl.
  apply h_pre with (stat_at fs1 q = inr info); [by intros fs [-> H]|]. intros Hst%stat_eligible.
  unfold file_has. rewrite Hst. destruct (_ || _ || _); simpl.
  { apply h_ret. intros fs [-> _]. split; [done|]. intros d. naive_solver. }
  eapply (h_seq _ _ _ (fun fs r => fs = fs1 ∧ sha256hex <$> read fs1 q = Some r.1)
            (fun fs _ => fs = fs1)); [|done|].
  - unfold HashFile. eapply h_seq; [apply h_ReadFile|by intros fs e [[-> _] _]|].
    intros c. apply h_ret. intros fs [[-> _] Hc%read_at_inr]. by rewrite Hc.
  - intros [d' n]. apply h_ret. simpl. intros fs [-> Hd]. split; [done|]. intros d.
    rewrite Hd. set_solver.
Qed.

Lemma h_mark_tree fs1 root m :
  hoare (fun fs => fs = fs1)
    (WalkDir root (fun path m => stop_on (scan s path m) m) m)
    (fun fs r => fs = fs1 ∧
       (r.2 = None → ∀ d, d ∈ r.1.1 ↔ d ∈ m.1 ∨ ∃ q, q ∈ tree fs1 root ∧ file_has fs1 q d))
    (fun _ _ => False).
Proof.
  eapply h_weaken; [apply (h_WalkDir
    (fun seen fs m' => fs = fs1 ∧ ∀ d, d ∈ m'.1 ↔ d ∈ m.1 ∨ ∃ q, q ∈ seen ∧ file_has fs1 q d)
    (fun fs _ _ => fs = fs1) _ fs1)|done| |done].
  - intros l _. split; [done|]. set_solver.
  - intros l seen p rest m' _ _. unfold stop_on.
    apply h_pre with (∀ d, d ∈ m'.1 ↔ d ∈ m.1 ∨ ∃ q, q ∈ seen ∧ file_has fs1 q d);
      [by intros fs []|]. intros Hm.
    eapply h_attempt; [eapply h_before; [apply (h_scan fs1)|by intros fs []]|..].
    + intros m2. apply h_ret. intros fs [-> H]. unfold visited. simpl. split; [done|].
      intros d. rewrite H, Hm. set_solver.
    + intros e. by apply h_ret.
  - intros seen fs m' e [-> _]. done.
  - done.
  - intros fs [m' [e|]]; simpl; [done|]. intros (l & Hl & -> & H). split; [done|]. intros _ d.
    unfold tree. by rewrite Hl.
Qed.

Lemma h_mark_root fs1 root m :
  hoare (fun fs => fs = fs1) (mark_root s root m)
    (fun fs m' => fs = fs1 ∧ ∀ d, d ∈ m'.1 ↔ d ∈ m.1 ∨ root_needs fs1 root d)
    (fun fs _ => fs = fs1).
Proof.
  unfold mark_root, root_needs. destruct (skipped_root s root).
  { apply h_ret. intros fs ->. split; [done|]. intros d. naive_solver. }
  eapply h_attempt; [apply h_Stat|..].
  - intros info. simpl. apply h_pre with (stat_at fs1 root = inr info); [by intros fs [-> H]|].
    intros Hst. destruct (fi_dir info) eqn:Hd; simpl.
    + eapply h_seq; [eapply (h_before (fun fs => fs = fs1)); [apply h_mark_tree|by intros fs []]|done|].
      * intros [m' [e|]]; simpl; [by apply h_throw; intros fs []|].
        apply h_ret. intros fs [-> H]. split; [done|]. intros d. rewrite H; naive_solver.
    + eapply h_weaken; [apply (h_scan fs1)|by intros fs []| |done].
      intros fs m' [-> H]. split; [done|]. intros d. rewrite H. f_equiv.
      unfold tree, walk_list, occupied. unfold stat_at in Hst.
      destruct (entries fs1 !! root) as [i|] eqn:Ei.
      * rewrite bool_decide_eq_true_2 by done. set_solver.
      * destruct (is_dir fs1 root); [|done]. by injection Hst as <-.
  - intros e. simpl. destruct (is_not_exist e) eqn:He.
    + apply h_ret. intros fs [-> [Hst|?]]; [|congruence]. split; [done|]. intros d.
      unfold tree, walk_list, occupied. unfold stat_at in Hst.
      destruct (entries fs1 !! root) as [i|]; [done|]. rewrite bool_decide_eq_false_2 by by intros [].
      destruct (is_dir fs1 root); [done|]. set_solver.
    + apply h_throw. by intros fs [].
Qed.

Lemma h_mark fs1 roots m :
  hoare (fun fs => fs = fs1) (mark s roots m)
    (fun fs m' => fs = fs1 ∧
       ∀ d, d ∈ m'.1 ↔ d ∈ m.1 ∨ ∃ root, root ∈ roots ∧ root_needs fs1 root d)
    (fun fs _ => fs = fs1).
Proof.
  revert m. induction roots as [|root roots IH]; intros m; simpl.
  { apply h_ret. intros fs ->. split; [done|]. set_solver. }
  eapply h_seq; [apply (h_mark_root fs1)|done|]. intros m'.
  apply h_pre with (∀ d, d ∈ m'.1 ↔ d ∈ m.1 ∨ root_needs fs1 root d); [by intros fs []|]. intros Hm.
  eapply h_weaken; [apply IH|by intros fs []| |done]. intros fs m2 [-> H]. split; [done|].
  intros d. rewrite H, Hm. set_solver.
Qed.

(** *** The sweep *)

Definition removed_sizes fs (l : list string) : Z :=
  foldr (fun p n => n + slen (default "" (read fs p))) 0 l.

(** What the sweep has done after [seen]: the files of [seen] whose names are not
    reachable are gone, unless it only plans. *)
Definition swept fs1 (reachable : gset string) (dry : bool) (out0 : GCResult)
    (seen : list string) fs (out : GCResult) : Prop :=
  let gone := List.filter (fun p => bool_decide (Base p ∉ reachable)) seen in
  Forall (fun p => slen (Base p) = 64) seen ∧
  fs = (if dry then fs1 else fs1 <| entries := foldr delete fs1.(entries) gone |>) ∧
  out = out0 <| gc_Removed := out0.(gc_Removed) + zlen gone |>
             <| gc_RemovedBytes := out0.(gc_RemovedBytes) + removed_sizes fs1 gone |>.

Lemma lookup_deletes {A} (m : gmap string A) l q :
  foldr delete m l !! q = if bool_decide (q ∈ l) then None else m !! q.
Proof.
  induction l as [|p l IH]; simpl; [done|]. destruct (decide (q = p)) as [->|Hq].
  - rewrite lookup_delete_eq. by rewrite bool_decide_eq_true_2 by set_solver.
  - rewrite lookup_delete_ne, IH by done. apply (f_equal (fun b : bool => if b then None else m !! q)).
    apply bool_decide_ext. set_solver.
Qed.

Lemma removed_sizes_snoc fs l p :
  removed_sizes fs (l ++ [p]) = removed_sizes fs l + slen (default "" (read fs p)).
Proof. unfold removed_sizes. induction l as [|q l IH]; simpl; [lia|]. rewrite IH. lia. Qed.

Lemma swept_next fs1 reachable dry out0 seen p fs out :
  slen (Base p) = 64 → Base p ∈ reachable →
  swept fs1 reachable dry out0 seen fs out → swept fs1 reachable dry out0 (seen ++ [p]) fs out.
Proof.
  intros Hl Hr (Ha & -> & ->). unfold swept. rewrite List.filter_app. simpl.
  rewrite (bool_decide_eq_false_2 (Base p ∉ reachable)) by auto. rewrite app_nil_r.
  split; [|done]. apply Forall_app. by repeat constructor.
Qed.

Lemma swept_gone fs1 reachable dry out0 seen p fs out fs' :
  slen (Base p) = 64 → Base p ∉ reachable → swept fs1 reachable dry out0 seen fs out →
  fs' = (if dry then fs else fs <| entries := delete p fs.(entries) |>) →
  swept fs1 reachable dry out0 (seen ++ [p]) fs'
    (out <| gc_Removed := out.(gc_Removed) + 1 |>
         <| gc_RemovedBytes := out.(gc_RemovedBytes) + slen (default "" (read fs1 p)) |>).
Proof.
  intros Hl Hr (Ha & -> & ->) ->. unfold swept. rewrite List.filter_app. simpl.
  rewrite (bool_decide_eq_true_2 (Base p ∉ reachable)) by auto. split_and!.
  - apply Forall_app. by repeat constructor.
  - destruct dry; [done|]. simpl. f_equal. apply map_eq. intros q.
    rewrite lookup_deletes. destruct (decide (q = p)) as [->|Hq].
    + rewrite lookup_delete_eq. by rewrite bool_decide_eq_true_2 by set_solver.
    + rewrite lookup_delete_ne, lookup_deletes by done.
      apply (f_equal (fun b : bool => if b then None else entries fs1 !! q)).
      apply bool_decide_ext. set_solver.
  - simpl. rewrite removed_sizes_snoc. f_equal; [unfold zlen; rewrite length_app; simpl; lia|lia].
Qed.

(** A file that the sweep has not come to is as it was. *)
Lemma swept_ahead fs1 reachable dry out0 seen p fs out :
  swept fs1 reachable dry out0 seen fs out → p ∉ seen →
  fs.(entries) !! p = fs1.(entries) !! p ∧ ∀ i, inode fs i = inode fs1 i.
Proof.
  intros (_ & -> & _) Hp. destruct dry; [done|]. simpl. split; [|done]. rewrite lookup_deletes.
  rewrite bool_decide_eq_false_2; [done|]. rewrite list_elem_of_In, filter_In, <- list_elem_of_In. tauto.
Qed.

Lemma h_sweep_object fs1 reachable dry out0 seen p out :
  is_Some (fs1.(entries) !! p) → p ∉ seen →
  hoare (fun fs => swept fs1 reachable dry out0 seen fs out) (sweep_object reachable dry p out)
    (visited (swept fs1 reachable dry out0)
       (fun fs _ e => is_not_exist e = false ∧ ∃ out', swept fs1 reachable dry out0 seen fs out')
       (seen ++ [p])) (fun _ _ => False).
Proof.
  intros [i Hi] Hp. unfold sweep_object, visited.
  destruct (slen (Base p) ≟ 64) as [] eqn:Hl; simpl; [|apply h_ret; simpl; eauto].
  apply bool_decide_eq_true in Hl. case_bool_decide as Hr.
  { apply h_ret. intros fs H. by apply swept_next. }
  eapply h_attempt; [apply h_Stat|intros info|intros e]; simpl.
  - apply h_pre with (fi_size info = slen (default "" (read fs1 p))).
    { intros fs [H Hst]. destruct (swept_ahead _ _ _ _ _ _ _ _ H Hp) as [He Hn].
      unfold stat_at in Hst. rewrite He, Hi in Hst. injection Hst as <-. simpl.
      unfold read, inode_at. rewrite Hi. simpl. by rewrite Hn. }
    intros ->. destruct dry.
    + apply h_ret. intros fs [H _]. simpl. by apply (swept_gone _ _ true _ _ _ _ _ _ Hl Hr H).
    + eapply h_attempt; [apply h_Remove|intros []|intros e]; simpl; apply h_ret; simpl.
      * intros fs (fs0 & [H _] & Ho). destruct (swept_ahead _ _ _ _ _ _ _ _ H Hp) as [He _].
        apply (swept_gone _ _ false _ _ _ _ _ _ Hl Hr H). unfold occupied in Ho.
        by rewrite bool_decide_eq_true_2 in Ho by (rewrite He, Hi; eauto).
      * intros fs [[H _] Ho]. split; [|eauto]. apply Ho.
        destruct (swept_ahead _ _ _ _ _ _ _ _ H Hp) as [He _]. unfold occupied.
        apply bool_decide_eq_true_2. rewrite He, Hi. eauto.
  - apply h_ret. simpl. intros fs [H Hst]. split; [|eauto]. destruct Hst as [Hst|]; [|done].
    destruct (swept_ahead _ _ _ _ _ _ _ _ H Hp) as [He _].
    unfold stat_at in Hst. by rewrite He, Hi in Hst.
Qed.

Lemma h_sweep fs1 reachable dry out0 :
  out0.(gc_Removed) = 0 → out0.(gc_RemovedBytes) = 0 →
  hoare (fun fs => fs = fs1) (WalkDir (objectRoot s) (sweep_object reachable dry) out0)
    (fun fs r =>
       ∃ seen out, swept fs1 reachable dry out0 seen fs out ∧
         (∀ p, p ∈ seen → p ∈ files_under fs1 (objectRoot s)) ∧
         (match r.2 with
          | None => seen = files_under fs1 (objectRoot s) ∧ r.1 = out
          | Some e => is_not_exist e = true →
              files_under fs1 (objectRoot s) = [] ∧ seen = [] ∧ r.1 = out
          end)) (fun _ _ => False).
Proof.
  intros H0 H0'.
  assert (Hnil : swept fs1 reachable dry out0 [] fs1 out0).
  { split_and!; [constructor|by destruct dry, fs1|]. destruct out0; simpl in *; subst.
    unfold removed_sizes, zlen. simpl. done. }
  eapply h_weaken; [apply (h_WalkDir
    (fun seen fs out => swept fs1 reachable dry out0 seen fs out ∧
       ∀ p, p ∈ seen → p ∈ files_under fs1 (objectRoot s))
    (fun fs out e => ∃ seen out', swept fs1 reachable dry out0 seen fs out' ∧
       (∀ p, p ∈ seen → p ∈ files_under fs1 (objectRoot s)) ∧
       (is_not_exist e = true → files_under fs1 (objectRoot s) = [] ∧ seen = [] ∧ out = out'))
    _ fs1)|done| |done].
  - intros l _. split; [done|]. set_solver.
  - intros l seen p rest out Hl El. unfold walk_list in Hl.
    destruct (occupied fs1 (objectRoot s)).
    { injection Hl as <-. destruct seen; [|by destruct seen]. injection El as <- <-.
      unfold sweep_object. rewrite Base_objectRoot. apply h_ret. simpl. intros fs H. exists [], out. naive_solver. }
    destruct (is_dir fs1 (objectRoot s)); [|done]. injection Hl as <-.
    assert (Hin : p ∈ files_under fs1 (objectRoot s)) by (rewrite El; set_solver).
    pose proof (files_under_NoDup fs1 (objectRoot s)) as Hnd. rewrite El in Hnd.
    apply NoDup_app in Hnd as (_ & Hd & _).
    eapply h_weaken; [apply (h_sweep_object fs1)|by intros fs [H _]; exact H| |done].
    + by apply elem_of_files_under in Hin as [_ Hin].
    + intros Hp. apply (Hd p); set_solver.
    + unfold visited. rewrite El in *. intros fs [out' [e|]]; simpl; [|set_solver].
      intros (He & out2 & H). exists seen, out2. split_and!; [done|set_solver|congruence].
  - intros seen fs out e [H Hs] He. exists seen, out. split_and!; [done|done|congruence].
  - intros e He. exists [], out0. split_and!; [done|set_solver|]. intros Hn.
    destruct He as [He|He]; [|congruence]. by rewrite (files_under_nowhere _ _ _ He).
  - intros fs [out [e|]]; simpl.
    + intros (seen & out' & H & Hs & He). exists seen, out'. naive_solver.
    + intros (l & Hl & [H Hs]). exists l, out. split_and!; [done|done| |done].
      unfold walk_list in Hl. destruct (occupied fs1 (objectRoot s)).
      * injection Hl as <-. exfalso. destruct H as [H _]. apply Forall_cons in H as [H _].
        by rewrite Base_objectRoot in H.
      * destruct (is_dir fs1 (objectRoot s)); congruence.
Qed.

(** *** The empty directories *)

(** No path is both a file and a directory. *)
Definition tidy fs : Prop := ∀ d, d ∈ fs.(dirs) → fs.(entries) !! d = None.

Definition same_files fs1 fs : Prop := fs.(entries) = fs1.(entries) ∧ fs.(inodes) = fs1.(inodes).

Lemma h_remove_dirs fs1 l :
  (∀ d, d ∈ l → fs1.(entries) !! d = None) →
  hoare (same_files fs1) (remove_dirs l) (fun fs _ => same_files fs1 fs) (fun fs _ => same_files fs1 fs).
Proof.
  induction l as [|d l IH]; intros Hl; simpl; [by apply h_ret|].
  eapply h_attempt; [apply h_Remove|intros []|intros e].
  - eapply h_weaken; [apply IH; set_solver| |done|done]. intros fs (fs0 & [He Hn] & Ho).
    unfold occupied in Ho. rewrite bool_decide_eq_false_2 in Ho.
    + by subst fs.
    + rewrite He, Hl by set_solver. by intros [].
  - eapply h_weaken; [apply IH; set_solver| |done|done]. by intros fs [].
Qed.

Lemma h_removeEmptyDirs fs1 root :
  tidy fs1 →
  hoare (fun fs => fs = fs1) (removeEmptyDirs root)
    (fun fs _ => same_files fs1 fs) (fun fs _ => same_files fs1 fs).
Proof.
  intros Ht. unfold removeEmptyDirs.
  apply (h_attempt _ _ _ (fun fs l => fs = fs1 ∧ ∀ d, d ∈ l → d ∈ fs1.(dirs)) (fun fs _ => fs = fs1)).
  - apply h_syscall; [done|]. intros t fs ->. split; [done|]. intros d.
    rewrite list_elem_of_In, filter_In, <- list_elem_of_In, elem_of_elements. tauto.
  - intros l. apply h_pre with (∀ d, d ∈ l → d ∈ fs1.(dirs)); [by intros fs []|]. intros Hl.
    eapply h_weaken; [apply (h_remove_dirs fs1)| |done|done].
    + intros d. unfold walk_order. rewrite !elem_of_sort_slice. intros Hd. by apply Ht, Hl.
    + by intros fs [-> _].
  - intros e. apply h_ret. by intros fs ->.
Qed.

(** *** The whole collection *)

Lemma elem_of_protected_digests protected d :
  d ∈ protected_digests protected ↔ ∃ x, x ∈ protected ∧ slen x = 64 ∧ ToLower x = d.
Proof.
  unfold protected_digests. rewrite elem_of_list_to_set, list_elem_of_fmap. f_equiv. intros x.
  rewrite list_elem_of_In, filter_In, <- list_elem_of_In, elem_of_elements, bool_decide_eq_true.
  naive_solver.
Qed.

Definition collected fs1 roots protected dry fs : Prop :=
  fs.(inodes) = fs1.(inodes) ∧
  ∀ p, fs.(entries) !! p = fs1.(entries) !! p ∨
       fs.(entries) !! p = None ∧ dry = false ∧ garbage fs1 roots protected p.

Lemma swept_collected fs1 roots protected reachable dry out0 seen out fs :
  (∀ d, d ∈ reachable ↔ needed fs1 roots protected d) →
  (∀ p, p ∈ seen → p ∈ files_under fs1 (objectRoot s)) →
  swept fs1 reachable dry out0 seen fs out → collected fs1 roots protected dry fs.
Proof.
  intros Hr Hs (_ & -> & _). unfold collected. destruct dry; [by auto|]. simpl. split; [done|].
  intros p. rewrite lookup_deletes. case_bool_decide as Hp; [right|by left].
  rewrite list_elem_of_In, filter_In, <- list_elem_of_In, bool_decide_eq_true in Hp.
  destruct Hp as [Hp Hb]. split_and!; [done|done|]. split; [by apply Hs|]. by rewrite <- Hr.
Qed.

Definition exactly fs1 roots protected dry fs (g : GCResult) : Prop :=
  (dry = false → ∀ p, garbage fs1 roots protected p → fs.(entries) !! p = None) ∧
  (∃ l, NoDup l ∧ (∀ p, p ∈ l ↔ garbage fs1 roots protected p) ∧
        g.(gc_Removed) = zlen l ∧ g.(gc_RemovedBytes) = removed_sizes fs1 l) ∧
  (∃ X : gset string, (∀ d, d ∈ X ↔ needed fs1 roots protected d) ∧
        g.(gc_Reachable) = Z.of_nat (size X)).

Lemma swept_exactly fs1 roots protected reachable dry n out fs fs' :
  (∀ d, d ∈ reachable ↔ needed fs1 roots protected d) →
  swept fs1 reachable dry (mkGCResult n (Z.of_nat (size reachable)) 0 0 dry)
    (files_under fs1 (objectRoot s)) fs out →
  fs'.(entries) = fs.(entries) → exactly fs1 roots protected dry fs' out.
Proof.
  intros Hr (_ & -> & ->) He. unfold exactly. simpl.
  set (gone := List.filter _ _).
  assert (Hg : ∀ p, p ∈ gone ↔ garbage fs1 roots protected p).
  { intros p. unfold gone, garbage. rewrite list_elem_of_In, filter_In, <- list_elem_of_In,
      bool_decide_eq_true, Hr. done. }
  split_and!.
  - intros -> p Hp. rewrite He. simpl. rewrite lookup_deletes.
    rewrite bool_decide_eq_true_2; [done|by apply Hg].
  - exists gone. split_and!; [|done|done|done].
    apply NoDup_ListNoDup, List.NoDup_filter, NoDup_ListNoDup, files_under_NoDup.
  - by exists reachable.
Qed.

Lemma h_GCProtected fs1 roots dry protected :
  tidy fs1 →
  hoare (fun fs => fs = fs1) (GCProtected s roots dry protected)
    (fun fs g => collected fs1 roots protected dry fs ∧ exactly fs1 roots protected dry fs g)
    (fun fs _ => collected fs1 roots protected dry fs).
Proof.
  intros Ht. unfold GCProtected.
  assert (Hsame : collected fs1 roots protected dry fs1) by (split; auto).
  eapply h_seq; [apply (h_mark fs1)|by intros fs _ ->|]. intros [marked scanned]. simpl.
  apply h_pre with (∀ d, d ∈ marked ↔ d ∈ (∅ : gset string) ∨ ∃ root, root ∈ roots ∧ root_needs fs1 root d);
    [by intros fs []|].
  intros Hm. set (reachable := protected_digests protected ∪ marked).
  assert (Hr : ∀ d, d ∈ reachable ↔ needed fs1 roots protected d).
  { intros d. unfold reachable, needed. rewrite elem_of_union, elem_of_protected_digests, Hm. set_solver. }
  eapply h_seq; [eapply (h_before (fun fs => fs = fs1)); [by apply (h_sweep fs1 reachable dry)|by intros fs []]|done|].
  - intros [out [e|]]; simpl.
    + destruct (is_not_exist e) eqn:He; [apply h_ret|apply h_throw].
      * intros fs (seen & out' & H & Hs & Hn). destruct (Hn eq_refl) as (Hnil & -> & ->).
        split; [by eapply swept_collected|]. rewrite <- Hnil in H. by eapply swept_exactly.
      * intros fs (seen & out' & H & Hs & _). by eapply swept_collected.
    + apply h_pre with (swept fs1 reachable dry (mkGCResult scanned (Z.of_nat (size reachable)) 0 0 dry)
        (files_under fs1 (objectRoot s))
        (if dry then fs1 else fs1 <| entries := foldr delete fs1.(entries)
           (List.filter (fun p => bool_decide (Base p ∉ reachable)) (files_under fs1 (objectRoot s))) |>) out).
      { intros fs (seen & out' & H & _ & -> & ->). pose proof H as (_ & -> & _). exact H. }
      set (fs2 := if dry then _ else _). intros H2.
      assert (Hc : collected fs1 roots protected dry fs2) by (by eapply swept_collected).
      destruct dry.
      * apply h_ret. intros fs (seen & out' & H & _ & -> & ->). pose proof H as (_ & -> & _).
        split; [done|]. by eapply swept_exactly.
      * eapply h_seq; [eapply (h_before (fun fs => fs = fs2)); [apply (h_removeEmptyDirs fs2)|]|..].
        -- intros d Hd. simpl in *. rewrite lookup_deletes. case_bool_decide; [done|by apply Ht].
        -- intros fs (seen & out' & H & _ & -> & ->). by destruct H as (_ & -> & _).
        -- intros fs _ [He Hn]. unfold collected. by rewrite He, Hn.
        -- intros []. apply h_ret. intros fs [He Hn]. split; [unfold collected; by rewrite He, Hn|].
           by eapply swept_exactly.
Qed.

(** C40. Garbage collection removes exactly what nothing needs: whatever calls
    fail, no content changes, no name changes or goes away except names of objects
    that no file below a root and no protected digest needs, and none in a dry run;
    and when the collection succeeds all of these are gone (or would be), it
    reports how many they are and how long, and how many digests are needed. *)
Theorem gc_removes_what_nothing_needs roots dry protected i fs i' fs' r :
  tidy fs → GCProtected s roots dry protected i fs = (i', fs', r) →
  collected fs roots protected dry fs' ∧
  match r with inr g => exactly fs roots protected dry fs' g | inl _ => True end.
Proof.
  intros Ht H. pose proof (h_GCProtected fs roots dry protected Ht i fs eq_refl) as Hg.
  rewrite H in Hg. destruct r; naive_solver.
Qed.
End Collect.
End CasRules.
