(* ===== verification/CasCompact.v ===== *)
(** * Compaction changes what no file reads (cas.go)

    [Ingest] replaces a file by a link to the object its content names.  That is
    safe when the objects are intact, which [Verify] establishes. *)

From Stdlib Require Import Ascii String.
From S2P Require Import Prelude GoStd Text Sha256 Control FileSystem Cas.
#[global] Open Scope Z_scope.

Module CasCompact.
Import Cas.

(** ** Names *)

Section Names.
Context (s : Store).
Implicit Types (p q c d : string).

Definition swap_like p : Prop := ∃ q, p = q +:+ ".repoark-cas-swap".

Lemma hex_not c x : x ∈ chars (sha256hex c) → hex_char x = true.
Proof. intros Hx. exact (proj1 (Forall_forall _ _) (sha256hex_hex c) x Hx). Qed.

Lemma digest_name c : "/"%char ∉ chars (sha256hex c).
Proof. by intros H%hex_not. Qed.

Lemma Base_blobPath c : Base (blobPath s (sha256hex c)) = sha256hex c.
Proof. apply Base_join, digest_name. Qed.

Lemma blobPath_inj c d :
  blobPath s (sha256hex c) = blobPath s (sha256hex d) → sha256hex c = sha256hex d.
Proof. intros H%(f_equal Base). by rewrite !Base_blobPath in H. Qed.

Lemma Dir_blobPath c :
  Dir (blobPath s (sha256hex c)) = join (objectRoot s) (String.substring 0 2 (sha256hex c)).
Proof. apply Dir_join, digest_name. Qed.

Lemma digest_chars c : ∃ x y l, sha256hex c = String x (String y l) ∧ hex_char x = true.
Proof.
  pose proof (sha256hex_length c) as Hl. pose proof (sha256hex_hex c) as Hh.
  destruct (sha256hex c) as [|x [|y l]]; [done|done|]. exists x, y, l.
  by apply Forall_cons in Hh as [].
Qed.

Lemma blob_not_temp c d t :
  blobPath s (sha256hex d) ≠ join (Dir (blobPath s (sha256hex c))) ".repoark-cas-" +:+ t.
Proof.
  rewrite Dir_blobPath. unfold blobPath, join. intros H%(f_equal chars).
  destruct (digest_chars c) as (x & y & l & Ec & _), (digest_chars d) as (x' & y' & l' & Ed & Hx).
  assert (H0 : ∀ u, String.substring 0 0 u = "") by by intros [].
  rewrite Ec, Ed in H. simpl in H. rewrite !H0 in H.
  rewrite !chars_app in H. simpl in H. rewrite <- !app_assoc in H. simpl in H.
  apply app_inv_head in H. injection H as _ _ H _. by subst x'.
Qed.

Lemma blob_not_swap p d : p +:+ ".repoark-cas-swap" ≠ blobPath s (sha256hex d).
Proof.
  unfold blobPath, join at 1. intros H%(f_equal (fun t => last (chars t))).
  rewrite !chars_app, !last_app in H. simpl in H.
  destruct (last (chars (sha256hex d))) as [x|] eqn:Hx.
  - apply last_Some_elem_of, hex_not in Hx. injection H as <-. done.
  - apply last_None in Hx. pose proof (sha256hex_length d) as Hl.
    by rewrite <- chars_length, Hx in Hl.
Qed.

Lemma not_own_swap p : p ≠ p +:+ ".repoark-cas-swap".
Proof.
  intros H%(f_equal (fun t => length (chars t))). rewrite chars_app, length_app in H.
  simpl in H. lia.
Qed.
End Names.

(** ** Reading after a change *)

Section Reading.
Implicit Types (fs : FS) (p q : string).

Lemma read_delete fs p q :
  read (fs <| entries := delete p fs.(entries) |>) q =
  if bool_decide (q = p) then None else read fs q.
Proof.
  unfold read, inode_at. simpl. case_bool_decide as Hq.
  - by rewrite Hq, lookup_delete_eq.
  - by rewrite lookup_delete_ne.
Qed.
End Reading.

(** ** Ingest *)

Section Ingest.
Context {E : Env} {O : OS} (s : Store) (fs0 : FS) (K : string → Prop).
Implicit Types (fs : FS) (p q c d : string).

(** The texts that may occur: with each what a failing copy leaves of it. *)
Hypothesis texts_closed : K "" ∧ ∀ k c, K c → K (partial k c).
Hypothesis no_collision : ∀ c d, K c → K d → sha256hex c = sha256hex d → c = d.

(** Every text is known, objects have the content that their name says, and no
    file reads other than at the beginning, but for the swap names. *)
Record safe fs : Prop := {
  safe_texts p c : read fs p = Some c → K c;
  safe_intact d c : read fs (blobPath s (sha256hex d)) = Some c → sha256hex c = sha256hex d;
  safe_kept p c : ¬ swap_like p → read fs0 p = Some c → read fs p = Some c
}.

Lemma safe_change fs fs' :
  safe fs →
  (∀ q c, read fs' q = Some c → read fs q = Some c ∨
     K c ∧ ∀ d, q = blobPath s (sha256hex d) → sha256hex c = sha256hex d) →
  (∀ q c, ¬ swap_like q → read fs0 q = Some c → read fs q = Some c → read fs' q = Some c) →
  safe fs'.
Proof.
  intros [Ht Hi Hk] Hnew Hold. split.
  - intros p c [H|[H _]]%Hnew; eauto.
  - intros d c [H|[_ H]]%Hnew; eauto.
  - eauto.
Qed.

Lemma safe_same fs fs' : safe fs → (∀ q, read fs' q = read fs q) → safe fs'.
Proof. intros H Hr. apply (safe_change fs); [done|..]; intros; rewrite ?Hr in *; auto. Qed.

(** The object of a file that is read has its text. *)
Lemma safe_blob fs p c c' :
  safe fs → read fs p = Some c → read fs (blobPath s (sha256hex c)) = Some c' → c' = c.
Proof. intros [Ht Hi Hk] Hp Hb. apply no_collision; eauto. Qed.

(** A name that was neither there at the beginning nor is the name of an object. *)
Definition spare p : Prop :=
  (∀ d, p ≠ blobPath s (sha256hex d)) ∧ (∀ c, ¬ swap_like p → read fs0 p ≠ Some c).

Lemma spare_swap p : spare (p +:+ ".repoark-cas-swap").
Proof. split; [intros d; apply blob_not_swap|]. intros c []. by exists p. Qed.

Lemma safe_delete fs p :
  safe fs → spare p → safe (fs <| entries := delete p fs.(entries) |>).
Proof.
  intros H [_ Hp]. apply (safe_change fs); [done|..]; intros q c.
  - rewrite read_delete. case_bool_decide; [done|auto].
  - intros Hs H0 Hr. rewrite read_delete. case_bool_decide; [|done]. subst q. by edestruct Hp.
Qed.

(** A call that changes no content and no entry but removes a spare name. *)
Lemma h_remove_spare path c p :
  path ≠ p → spare p →
  hoare (fun fs => safe fs ∧ read fs path = Some c) (Remove p)
    (fun fs _ => safe fs ∧ read fs path = Some c) (fun fs _ => safe fs ∧ read fs path = Some c).
Proof.
  intros Hne Hp. eapply h_weaken;
    [apply (h_Remove (fun fs => safe fs ∧ read fs path = Some c))|done| |by intros fs e []].
  intros fs _ (fs1 & [Hs Hr] & Ho). destruct (occupied fs1 p); subst fs.
  - split; [by apply safe_delete|]. rewrite read_delete. by rewrite bool_decide_eq_false_2.
  - by split; [apply (safe_same fs1)|].
Qed.

(** *** Linking *)

Lemma h_sameFile P a b :
  hoare P (sameFile a b) (fun fs _ => P fs) (fun fs _ => P fs).
Proof.
  unfold sameFile. eapply h_attempt; [apply h_Stat|..];
    intros ?; (eapply h_attempt; [apply h_Stat|..]); intros ?; apply h_ret; tauto.
Qed.

Lemma h_link path c out :
  hoare (fun fs => safe fs ∧ read fs path = Some c)
    (link_blob path (blobPath s (sha256hex c)) (slen c) out)
    (fun fs _ => safe fs) (fun fs _ => safe fs).
Proof.
  set (swap := path +:+ ".repoark-cas-swap").
  assert (Hsp : spare swap) by apply spare_swap.
  assert (Hps : path ≠ swap) by apply not_own_swap.
  assert (Hrm : ∀ P : FS → Prop, (∀ fs, P fs → safe fs ∧ read fs path = Some c) →
    hoare P (try (Remove swap);; mret out) (fun fs _ => safe fs) (fun fs _ => safe fs)).
  { intros P HP. eapply h_attempt; [eapply h_before; [by apply (h_remove_spare path c)|done]|..];
      intros ?; apply h_ret; tauto. }
  unfold link_blob. fold swap. eapply h_seq; [apply h_sameFile|by intros fs _ []|].
  intros []; [apply h_ret; tauto|].
  set (linked := fun fs => safe fs ∧ read fs path = Some c ∧ read fs swap = Some c ∧
                   is_Some (fs.(entries) !! swap)).
  assert (Hlr : hoare (fun fs => safe fs ∧ read fs path = Some c)
    (Link (blobPath s (sha256hex c)) swap) (fun fs _ => linked fs)
    (fun fs _ => safe fs ∧ read fs path = Some c)).
  { apply h_syscall; [done|]. intros t fs [Hs Hr].
    destruct (entries fs !! _) as [i|] eqn:Ei; [|done].
    pose proof (safe_blob fs path c _ Hs Hr (read_entry _ _ _ Ei)) as Hc.
    destruct (occupied fs swap || is_dir fs swap); [done|]. destruct (negb _); [done|].
    unfold linked. rewrite !read_insert, Hc.
    rewrite (bool_decide_eq_false_2 (path = swap)), (bool_decide_eq_true_2 (swap = swap)) by done.
    split_and!; [|done|done|simpl; rewrite lookup_insert_eq; eauto].
    apply (safe_change fs); [done|..]; intros q c'; rewrite read_insert, Hc; case_bool_decide as Hq.
    - intros [= <-]. right. split; [by eapply safe_texts|]. intros d ->. by destruct (proj1 Hsp d).
    - auto.
    - subst q. intros Hns. by destruct Hns; exists path.
    - auto. }
  assert (Hmv : hoare linked (Rename swap path) (fun fs _ => safe fs)
    (fun fs _ => safe fs ∧ read fs path = Some c)).
  { apply h_syscall; [by intros fs _ (? & ? & _)|]. intros t fs (Hs & Hr & Hw & [i Hi]).
    rewrite Hi. rewrite (read_entry _ _ _ Hi) in Hw. injection Hw as Hw.
    destruct (is_dir fs path); [done|]. destruct (negb _); [done|].
    destruct (bool_decide (entries fs !! path = Some i)); [done|].
    set (fs2 := fs <| entries := delete swap fs.(entries) |>).
    change (safe (fs2 <| entries := <[path := i]> fs2.(entries) |>)).
    assert (Hr2 : read fs2 path = Some c)
      by (unfold fs2; rewrite read_delete; by rewrite bool_decide_eq_false_2).
    change (inode fs i) with (inode fs2 i) in Hw.
    apply (safe_change fs2); [by apply safe_delete|..]; intros q c'; rewrite read_insert, Hw;
      (case_bool_decide as Hq; [subst q; rewrite Hr2|]); auto. }
  eapply h_attempt; [by apply h_remove_spare|intros []|intros e];
    (eapply h_attempt; [apply Hlr|intros []|intros e'; apply h_ret; tauto];
     eapply h_attempt; [apply Hmv|intros []; by apply h_ret|intros e''; by apply Hrm]).
Qed.

(** *** Making an object *)

(** A temporary file that only its own name leads to. *)
Definition temporary path c tmp i fs : Prop :=
  safe fs ∧ read fs path = Some c ∧ fs.(entries) !! tmp = Some i ∧
  ∀ q, fs.(entries) !! q = Some i → q = tmp.

Lemma h_CreateTemp path c :
  hoare (fun fs => safe fs ∧ read fs path = Some c)
    (CreateTemp (Dir (blobPath s (sha256hex c))) ".repoark-cas-")
    (fun fs r => temporary path c r.1 r.2 fs ∧ spare r.1 ∧ path ≠ r.1)
    (fun fs _ => safe fs ∧ read fs path = Some c).
Proof.
  set (dir := Dir _). apply h_syscall; [done|]. intros t fs [Hs Hr].
  destruct (is_dir fs dir); [|done]. set (p := temp_name fs dir ".repoark-cas-").
  assert (Hfree : fs.(entries) !! p = None) by apply temp_name_free.
  assert (Hnone : read fs p = None) by (unfold read, inode_at; by rewrite Hfree).
  set (i := unused fs). set (fs2 := fs <| inodes := <[i := mkInode true "" t]> fs.(inodes) |>).
  change (temporary path c p i (fs2 <| entries := <[p := i]> fs2.(entries) |>) ∧ spare p ∧ path ≠ p).
  assert (Hr2 : ∀ q, read fs2 q = read fs q).
  { intros q. change fs2 with (put i "" t fs). rewrite read_put. case_bool_decide as Hq; [|done].
    by destruct (unused_free fs q). }
  assert (Hi : i_content (inode fs2 i) = "") by (unfold inode, fs2; simpl; by rewrite lookup_insert_eq).
  assert (Hne : path ≠ p) by congruence.
  assert (Hp : spare p).
  { split.
    - intros d Hd. destruct (temp_name_prefix fs dir ".repoark-cas-") as [u Hu].
      apply (blob_not_temp s c d u). by transitivity p.
    - intros c' Hns H0. pose proof (safe_kept fs Hs p c' Hns H0). congruence. }
  split_and!; [|done|done]. split_and!.
  - apply (safe_change fs); [done|..]; intros q c'; rewrite read_insert, Hi, Hr2;
      (case_bool_decide as Hq; [subst q|by auto]).
    + intros [= <-]. right. split; [apply texts_closed|]. intros d Hd. by destruct (proj1 Hp d).
    + intros _ _. congruence.
  - rewrite read_insert, Hr2. by rewrite bool_decide_eq_false_2.
  - simpl. by rewrite lookup_insert_eq.
  - intros q. simpl. destruct (decide (q = p)) as [|Hq]; [done|]. rewrite lookup_insert_ne by done.
    intros H. by destruct (unused_free fs q).
Qed.

Lemma h_Write path c tmp i :
  path ≠ tmp → spare tmp →
  hoare (temporary path c tmp i) (Write i c)
    (fun fs _ => temporary path c tmp i fs ∧ read fs tmp = Some c)
    (fun fs _ => temporary path c tmp i fs).
Proof.
  intros Hne Hp. assert (Hput : ∀ c' t fs, K c' → temporary path c tmp i fs →
    temporary path c tmp i (put i c' t fs) ∧ read (put i c' t fs) tmp = Some c').
  { intros c' t fs HK (Hs & Hr & Ht & Hu).
    assert (Hrd : ∀ q, read (put i c' t fs) q = if bool_decide (q = tmp) then Some c' else read fs q).
    { intros q. rewrite read_put. f_equal. apply (f_equal (fun b : bool => if b then Some c' else read fs q)).
      apply bool_decide_ext. naive_solver. }
    rewrite Hrd, bool_decide_eq_true_2 by done. split; [|done]. split_and!; [|..|done|done].
    - apply (safe_change fs); [done|..]; intros q c2; rewrite Hrd; (case_bool_decide as Hq; [subst q|by auto]).
      + intros [= <-]. right. split; [done|]. intros d Hd. by destruct (proj1 Hp d).
      + intros Hns H0. by destruct (proj2 Hp c2 Hns).
    - rewrite Hrd. by rewrite bool_decide_eq_false_2. }
  intros k fs H. assert (HK : K c) by (destruct H as (Hs & Hr & _); by eapply safe_texts).
  unfold Write. destruct (fault k); [|by apply Hput].
  apply Hput; [|done]. by apply texts_closed.
Qed.

Lemma h_Rename_blob path c tmp i :
  path ≠ tmp → spare tmp →
  hoare (fun fs => temporary path c tmp i fs ∧ read fs tmp = Some c)
    (Rename tmp (blobPath s (sha256hex c)))
    (fun fs _ => safe fs ∧ read fs path = Some c) (fun fs _ => temporary path c tmp i fs).
Proof.
  intros Hne Hp. set (blob := blobPath s (sha256hex c)). apply h_syscall; [by intros fs _ []|].
  intros t fs [(Hs & Hr & Ht & Hu) Hrt]. rewrite Ht. destruct (is_dir fs blob); [done|].
  destruct (negb _); [done|]. case_bool_decide as Hb.
  { destruct (proj1 Hp c). symmetry. by apply Hu. }
  set (fs2 := fs <| entries := delete tmp fs.(entries) |>).
  assert (Hs2 : safe fs2) by by apply safe_delete.
  assert (Hc : i_content (inode fs2 i) = c).
  { rewrite (read_entry _ _ _ Ht) in Hrt. by injection Hrt. }
  assert (Hr2 : read fs2 path = Some c)
    by (unfold fs2; rewrite read_delete; by rewrite bool_decide_eq_false_2).
  change (safe (fs2 <| entries := <[blob := i]> fs2.(entries) |>) ∧
          read (fs2 <| entries := <[blob := i]> fs2.(entries) |>) path = Some c).
  split.
  - apply (safe_change fs2); [done|..]; intros q c'; rewrite read_insert, Hc;
      (case_bool_decide as Hq; [subst q|by auto]).
    + intros [= <-]. right. split; [by eapply safe_texts|]. intros d. apply blobPath_inj.
    + intros _ _ H. f_equal. symmetry. by apply (safe_blob fs2 path c c').
  - rewrite read_insert, Hc. by case_bool_decide.
Qed.

Lemma h_create_blob path c :
  hoare (fun fs => safe fs ∧ read fs path = Some c)
    (create_blob path (blobPath s (sha256hex c)))
    (fun fs r => (safe fs ∧ read fs path = Some c) ∧ ∀ tmp, r.2 = Some tmp → spare tmp ∧ path ≠ tmp)
    (fun fs _ => safe fs).
Proof.
  unfold create_blob. eapply h_seq; [apply h_CreateTemp|by intros fs _ []|]. intros [tmp i]. simpl.
  apply h_pre with (spare tmp ∧ path ≠ tmp); [by intros fs []|]. intros [Hp Hne].
  set (T := temporary path c tmp i).
  assert (Hrm : hoare T (Remove tmp) (fun fs _ => safe fs ∧ read fs path = Some c)
                  (fun fs _ => safe fs ∧ read fs path = Some c)).
  { eapply h_before; [by apply (h_remove_spare path c)|]. by intros fs (? & ? & _). }
  apply (h_on_error _ _ _ (fun fs _ => T fs)).
  2: { intros _. eapply h_weaken; [apply Hrm|done|by intros fs _ []|by intros fs _ []]. }
  eapply h_seq; [eapply (h_before T); [apply h_ReadFile|by intros fs []]|by intros fs e []|].
  intros src. apply h_pre with (src = c).
  { intros fs [(_ & Hr & _) Hc]. unfold read_at in Hc. unfold read in Hr.
    destruct (inode_at fs path) as [n|]; [|done]. destruct (i_regular n); [|done].
    injection Hr as <-. by injection Hc. }
  intros ->. eapply h_seq; [eapply (h_before T); [by apply h_Write|by intros fs []]|done|]. intros []. simpl.
  do 3 (eapply h_seq; [apply h_touch|by intros fs e [[]]|]; intros []; simpl).
  eapply h_attempt; [by apply h_Rename_blob|intros []|intros err]; simpl.
  - apply h_ret. by intros fs H.
  - eapply h_attempt; [apply (h_Stat T)|intros st|intros e].
    + eapply h_attempt; [eapply (h_before T); [apply Hrm|by intros fs []]|..]; intros ?;
        apply h_ret; intros fs H; (split; [done|]); by intros ? [= <-].
    + apply h_throw. by intros fs [].
Qed.

Lemma h_ensure_blob path c size :
  hoare (fun fs => safe fs ∧ read fs path = Some c)
    (ensure_blob path (blobPath s (sha256hex c)) (sha256hex c) size)
    (fun fs r => (safe fs ∧ read fs path = Some c) ∧ ∀ tmp, r.2 = Some tmp → spare tmp ∧ path ≠ tmp)
    (fun fs _ => safe fs).
Proof.
  unfold ensure_blob. eapply h_attempt; [apply h_Stat|intros b|intros e]; simpl.
  - case_bool_decide; simpl; [apply h_ret; by intros fs []|]. apply h_throw. by intros fs [[] _].
  - destruct (is_not_exist e); [|apply h_throw; by intros fs [[] _]].
    eapply h_before; [apply h_create_blob|by intros fs []].
Qed.

Lemma h_Ingest path :
  hoare safe (Ingest s path) (fun fs _ => safe fs) (fun fs _ => safe fs).
Proof.
  unfold Ingest. eapply h_seq; [apply h_Stat|by intros fs e []|]. intros info. simpl.
  destruct (negb _); [apply h_throw; by intros fs []|]. destruct (_ <? _); [apply h_ret; by intros fs []|].
  eapply (h_seq _ _ _ (fun fs r => ∃ c, r = (sha256hex c, slen c) ∧ safe fs ∧ read fs path = Some c)
            (fun fs _ => safe fs)); [|done|].
  { unfold HashFile. eapply h_seq; [eapply (h_before safe); [apply h_ReadFile|by intros fs []]|by intros fs e []|].
    intros c. apply h_ret. intros fs [Hs Hc]. exists c. split_and!; [done|done|]. unfold read.
    unfold read_at in Hc. destruct (inode_at fs path) as [n|]; [|done].
    destruct (i_regular n); [|done]. by injection Hc as <-. }
  intros [sum size]. apply h_pre with (∃ c, (sum, size) = (sha256hex c, slen c) ∧ K c).
  { intros fs (c & Hc & Hs & Hr). exists c. split; [done|by eapply safe_texts]. }
  intros (c & [= -> ->] & HK). set (P := fun fs => safe fs ∧ read fs path = Some c).
  eapply h_seq; [eapply (h_before P); [apply h_MkdirAll|]|by intros fs _ []|].
  2: { intros fs (c' & [= Hh _] & Hs & Hr). split; [done|].
       by rewrite (no_collision c c' HK (safe_texts fs Hs path c' Hr) Hh). }
  { intros fs l [Hs Hr]. split; [|done]. by apply (safe_same fs). }
  intros []. simpl. eapply h_seq; [apply h_ensure_blob|done|]. intros [existing tmp]. simpl.
  apply h_pre with (∀ t, tmp = Some t → spare t ∧ path ≠ t); [by intros fs []|]. intros Htmp.
  eapply h_seq; [eapply h_before; [apply h_link|by intros fs []]|done|]. intros out. simpl.
  destruct tmp as [t|]; [|by apply h_ret]. destruct (Htmp t eq_refl) as [Hp _].
  eapply h_attempt; [apply h_Remove|..]; intros ?; apply h_ret; [|by intros fs []].
  intros fs (fs1 & Hs & Ho). destruct (occupied fs1 t); subst fs; [by apply safe_delete|].
  by apply (safe_same fs1).
Qed.

(** *** Compacting *)

Lemma h_ingest_logical path size out :
  hoare safe (ingest_logical s path size out) (fun fs _ => safe fs) (fun fs _ => safe fs).
Proof.
  unfold ingest_logical. eapply h_seq; [apply h_Ingest|done|]. intros r. by apply h_ret.
Qed.

Lemma h_compact_entry p out :
  hoare safe (compact_entry s p out) (fun fs _ => safe fs) (fun _ _ => False).
Proof.
  unfold compact_entry. destruct (sidecar p); [by apply h_ret|].
  eapply h_weaken; [apply (h_stop_on _ _ safe (fun fs _ => safe fs) (fun fs _ => safe fs))|done| |done].
  - eapply h_seq; [apply h_Stat|by intros fs e []|]. intros info. simpl.
    destruct (_ || _); [by apply h_ret; intros fs []|].
    eapply h_before; [apply h_ingest_logical|by intros fs []].
  - by intros fs [out' [e|]] H; [destruct H|].
Qed.

Lemma h_compact_root root out :
  hoare safe (compact_root s root out) (fun fs _ => safe fs) (fun fs _ => safe fs).
Proof.
  unfold compact_root. eapply h_attempt; [apply h_Stat|intros info|intros e]; simpl.
  - destruct (negb _).
    + destruct (_ && _); [|apply h_ret; by intros fs []].
      eapply h_before; [apply h_ingest_logical|by intros fs []].
    + eapply h_seq; [eapply (h_before safe);
        [apply h_WalkDir_inv, h_compact_entry|by intros fs []]|by intros fs e []|].
      intros [out' [e|]]; simpl; [by apply h_throw|by apply h_ret].
  - destruct (is_not_exist e); [apply h_ret|apply h_throw]; by intros fs [].
Qed.

Lemma h_compact_roots roots out :
  hoare safe (compact_roots s roots out) (fun fs _ => safe fs) (fun fs _ => safe fs).
Proof.
  revert out. induction roots as [|root roots IH]; intros out; simpl; [by apply h_ret|].
  eapply h_seq; [apply h_compact_root|done|]. intros out'. apply IH.
Qed.
End Ingest.

(** ** Verify *)

Section Verify.
Context {E : Env} {O : OS} (s : Store).
Implicit Types (fs : FS).

Definition object_ok fs (p : string) : Prop :=
  ∃ c, read fs p = Some c ∧ EqualFold (sha256hex c) (Base p) = true ∧ slen (Base p) = 64.

Lemma h_verify_object fs1 p st :
  is_Some (fs1.(entries) !! p) →
  hoare (fun fs => fs = fs1) (verify_object p st)
    (fun fs r => fs = fs1 ∧ match r.2 with None => object_ok fs1 p | Some e => is_not_exist e = false end)
    (fun _ _ => False).
Proof.
  intros [i Hi]. unfold verify_object. destruct (slen (Base p) ≟ 64) eqn:Hl; simpl; [|by apply h_ret].
  apply bool_decide_eq_true in Hl.
  eapply h_weaken; [apply (h_stop_on _ _ (fun fs => fs = fs1) (fun fs _ => fs = fs1 ∧ object_ok fs1 p)
    (fun fs e => fs = fs1 ∧ is_not_exist e = false))|done| |done].
  2: { intros fs [st' [e|]]; simpl; tauto. }
  eapply (h_seq _ _ _ (fun fs r => fs = fs1 ∧ ∃ c, read fs1 p = Some c ∧ r.1 = sha256hex c)
    (fun fs e => fs = fs1 ∧ is_not_exist e = false)); [|done|].
  - unfold HashFile. eapply h_seq; [apply h_ReadFile| |intros c; apply h_ret].
    + intros fs e [-> [Hr|?]]; [|done]. split; [done|]. unfold read_at, inode_at in Hr.
      rewrite Hi in Hr. simpl in Hr. destruct (i_regular _); [done|]. by injection Hr as <-.
    + intros fs [-> Hr]. split; [done|]. exists c. split; [|done]. unfold read.
      unfold read_at in Hr. destruct (inode_at fs1 p) as [n|]; [|done].
      destruct (i_regular n); [|done]. by injection Hr as <-.
  - intros [got size]. destruct (EqualFold got (Base p)) eqn:He; [apply h_ret|apply h_throw].
    + intros fs [-> (c & Hc & Hg)]. simpl in Hg. subst got. split; [done|]. by exists c.
    + by intros fs [-> _].
Qed.

Lemma h_Verify fs1 :
  hoare (fun fs => fs = fs1) (Verify s)
    (fun fs _ => fs = fs1 ∧ ∀ p, p ∈ files_under fs1 (objectRoot s) → object_ok fs1 p)
    (fun fs _ => fs = fs1).
Proof.
  unfold Verify. set (ok := fun seen : list string => ∀ p, p ∈ seen → object_ok fs1 p).
  eapply h_seq; [apply (h_WalkDir (fun seen fs _ => fs = fs1 ∧ ok seen)
    (fun fs _ e => fs = fs1 ∧ (is_not_exist e = true → files_under fs1 (objectRoot s) = [])) _ fs1)|done|].
  - intros l _. split; [done|]. unfold ok. set_solver.
  - intros l seen p rest st Hl El. apply h_pre with (ok seen); [by intros fs []|]. intros Hok.
    assert (Hp : is_Some (fs1.(entries) !! p)).
    { unfold walk_list, occupied in Hl. case_bool_decide as Ho.
      - injection Hl as <-. destruct seen; [injection El as <- _; done|by destruct seen].
      - destruct (is_dir _ _); [|done]. injection Hl as <-.
        assert (Hin : p ∈ files_under fs1 (objectRoot s)) by (rewrite El; set_solver).
        by apply elem_of_files_under in Hin as []. }
    eapply h_weaken; [by apply (h_verify_object fs1)|by intros fs []| |done].
    unfold visited. intros fs [st' [e|]]; simpl; intros [-> H]; (split; [done|]); [congruence|].
    unfold ok in *. set_solver.
  - intros seen fs st e [-> _] He. split; [done|congruence].
  - intros e He. split; [done|]. intros Hn. destruct He as [He|]; [|congruence].
    by eapply files_under_nowhere.
  - intros [st [e|]]; simpl.
    + destruct (is_not_exist e) eqn:He; [apply h_ret|apply h_throw; by intros fs []].
      intros fs [-> Hn]. split; [done|]. rewrite Hn by done. set_solver.
    + apply h_ret. intros fs (l & Hl & -> & Hok). split; [done|]. intros p Hp. apply Hok.
      unfold walk_list in Hl. destruct (occupied fs1 (objectRoot s)).
      * injection Hl as <-. destruct (Hok (objectRoot s)) as (_ & _ & _ & Hb); [set_solver|].
        by rewrite Base_objectRoot in Hb.
      * destruct (is_dir _ _); [|done]. by injection Hl as <-.
Qed.

Lemma under_blobPath d : under (objectRoot s) (blobPath s (sha256hex d)) = true.
Proof.
  unfold under, blobPath, join, HasPrefix. rewrite !text_assoc. generalize (objectRoot s) as r.
  induction r as [|x r IH]; simpl; [by destruct (_ +:+ _)|].
  by destruct (Ascii.ascii_dec x x).
Qed.

Lemma h_Compact fs0 K paths :
  K "" ∧ (∀ k c, K c → K (partial k c)) →
  (∀ c d, K c → K d → sha256hex c = sha256hex d → c = d) →
  hoare (safe s fs0 K) (Compact s paths) (fun fs _ => safe s fs0 K fs) (fun fs _ => safe s fs0 K fs).
Proof.
  intros HK Hcol. unfold Compact. eapply h_seq; [by apply h_compact_roots|done|]. intros out.
  eapply h_seq with (Q' := fun fs _ => safe s fs0 K fs) (X' := fun fs _ => safe s fs0 K fs);
    [|done|by intros st; apply h_ret].
  intros i fs Hs. pose proof (h_Verify fs i fs eq_refl) as H.
  destruct (Verify s i fs) as [[i' fs'] [e|st]]; [by subst|]. by destruct H as [-> _].
Qed.

(** The texts that occur in a compaction. *)
Inductive text_of fs : string → Prop :=
| text_empty : text_of fs ""
| text_file p c : read fs p = Some c → text_of fs c
| text_part k c : text_of fs c → text_of fs (partial k c).

Lemma verified_safe fs :
  (∀ p, p ∈ files_under fs (objectRoot s) → object_ok fs p) → safe s fs (text_of fs) fs.
Proof.
  intros Hok. split; [by apply text_file| |done]. intros d c Hr.
  destruct (Hok (blobPath s (sha256hex d))) as (c' & Hc & He & _).
  - apply elem_of_files_under. split; [apply under_blobPath|]. unfold read, inode_at in Hr.
    by destruct (entries fs !! _).
  - rewrite Hc in Hr. injection Hr as <-. unfold EqualFold in He. apply bool_decide_eq_true in He.
    by rewrite Base_blobPath, !sha256hex_lower in He.
Qed.

(** C13. Compaction changes what no file reads: when the objects verify and no two
    texts at hand share a digest, then whatever calls fail and whatever is
    returned, every name still reads the same afterwards (apart from names that end
    in [.repoark-cas-swap]: the exchange takes these for its own and removes them),
    and every object has the content its name says. *)
Theorem compact_changes_no_file paths fs i st i1 i2 fs2 r :
  (Verify s i fs).2 = inr st →
  (∀ c d, text_of fs c → text_of fs d → sha256hex c = sha256hex d → c = d) →
  Compact s paths i1 fs = (i2, fs2, r) →
  (∀ p c, ¬ swap_like p → read fs p = Some c → read fs2 p = Some c) ∧
  (∀ d c, read fs2 (blobPath s (sha256hex d)) = Some c → sha256hex c = sha256hex d).
Proof.
  intros Hv Hcol Hrun. pose proof (h_Verify fs i fs eq_refl) as Hok.
  destruct (Verify s i fs) as [[i' fs'] [e|st']]; [done|]. destruct Hok as [-> Hok].
  assert (HK : text_of fs "" ∧ ∀ k c, text_of fs c → text_of fs (partial k c))
    by (split; [constructor|intros; by constructor]).
  pose proof (h_Compact fs (text_of fs) paths HK Hcol i1 fs (verified_safe fs Hok)) as H.
  rewrite Hrun in H. assert (Hs : safe s fs (text_of fs) fs2) by by destruct r.
  destruct Hs; auto.
Qed.
End Verify.
End CasCompact.
