(* ===== verification/CasDemo.v ===== *)
(** * The content-addressed store on a disk

    The theorems on the store applied to a concrete file system on which no call
    fails, and runs that show what intact objects and the control plane's answer
    are needed for. *)

From Stdlib Require Import Ascii String.
From S2P Require Import Prelude GoStd Text Sha256 Control FileSystem Cas CasRules CasCompact.
#[global] Open Scope Z_scope.

Module CasDemo.
Import Cas CasRules CasCompact.

#[local] Instance demo_env : Env := {| clock k := Z.of_nat k; fresh_token _ := "" |}.
#[local] Existing Instance reliable.

Definition store : Store := New "/cas" 1.
Definition digest : string := Eval vm_compute in sha256hex "pack".
Definition other : string := Eval vm_compute in sha256hex "shard".

(** Two equal packs and a list, and nothing in the store but a shard. *)
Definition start : FS :=
  from_files [("/b/one", "pack"); ("/b/two", "pack"); ("/b/index.json", "list");
              (blobPath store other, "shard")].

Definition fs_of {A} (r : nat * FS * A) : FS := r.1.2.

Definition compacted : FS := fs_of (Compact store ["/b"] 0%nat start).

(** The packs share one inode with their object. *)
Example compacted_once :
  compacted.(entries) !! "/b/one" = compacted.(entries) !! blobPath store digest ∧
  compacted.(entries) !! "/b/two" = compacted.(entries) !! blobPath store digest ∧
  (Compact store ["/b"] 0%nat start).2 = inr (mkStats 2 9 2 8 4).
Proof. vm_compute. done. Qed.

(** Ingest compares sizes only: an object of the right size but another content
    takes the place of the file. *)
Definition damaged : FS :=
  from_files [("/b/one", "pack"); (blobPath store digest, "kcap")].

Example ingest_trusts_the_object :
  let '(_, fs, r) := Ingest store "/b/one" 0%nat damaged in
  read damaged "/b/one" = Some "pack" ∧ read fs "/b/one" = Some "kcap" ∧
  r = inr (mkIngestResult digest 4 (blobPath store digest) true true 4).
Proof. vm_compute. done. Qed.

(** [repoark cas gc] keeps the shard while the control plane says that it is
    owned, and removes it when the control plane cannot be asked. *)
Example gc_with_and_without_control_plane :
  read (fs_of (gc_command store ["/b"] false true (Some {[other]}) 0%nat start)) (blobPath store other)
    = Some "shard" ∧
  read (fs_of (gc_command store ["/b"] false true None 0%nat start)) (blobPath store other) = None.
Proof. vm_compute. done. Qed.

Lemma tidy_dec fs :
  bool_decide (set_Forall (fun d => fs.(entries) !! d = None) fs.(dirs)) = true → tidy fs.
Proof. by intros H%bool_decide_eq_true. Qed.

Definition collection := GCProtected store ["/b"] false {[other]} 0%nat
  (fs_of (Remove "/b/two" 0%nat (fs_of (Remove "/b/one" 0%nat compacted)))).

(** The packs are gone from the tree: their object is collected, the shard stays. *)
Lemma gc_removes_what_nothing_needs_witness :
  let fs := fs_of (Remove "/b/two" 0%nat (fs_of (Remove "/b/one" 0%nat compacted))) in
  read fs (blobPath store digest) = Some "pack" ∧
  read (fs_of collection) (blobPath store digest) = None ∧
  collection.2 = inr (mkGCResult 0 1 1 4 false) ∧
  collected store fs ["/b"] {[other]} false (fs_of collection) ∧
  exactly store fs ["/b"] {[other]} false (fs_of collection) (mkGCResult 0 1 1 4 false).
Proof.
  assert (Hr : collection.2 = inr (mkGCResult 0 1 1 4 false)) by (vm_compute; reflexivity).
  destruct (gc_removes_what_nothing_needs store ["/b"] false {[other]} 0%nat
    (fs_of (Remove "/b/two" 0%nat (fs_of (Remove "/b/one" 0%nat compacted))))
    collection.1.1 collection.1.2 collection.2) as [Hc He].
  - apply tidy_dec. vm_compute. reflexivity.
  - change (collection = (collection.1.1, collection.1.2, collection.2)). by destruct collection as [[]].
  - rewrite Hr in He. split_and!; [vm_compute; reflexivity|vm_compute; reflexivity|exact Hr|exact Hc|exact He].
Defined.

Lemma start_texts c : text_of start c → c ∈ ["pack"; "list"; "shard"; ""].
Proof.
  induction 1 as [|p c H|k c H IH]; [set_solver| |simpl; set_solver].
  unfold read, inode_at in H. destruct (entries start !! p) as [i|] eqn:Ei; [|done].
  assert (Ha : map_Forall (fun _ i => i_content (inode start i) ∈ ["pack"; "list"; "shard"; ""])
    start.(entries)).
  { apply (bool_decide_unpack (map_Forall _ _)). vm_compute. exact I. }
  injection H as <-. exact (Ha p i Ei).
Qed.

Lemma compact_changes_no_file_witness :
  (Verify store 0%nat start).2 = inr (mkStats 1 5 0 0 0) ∧
  read (fs_of (Compact store ["/b"] 0%nat start)) "/b/one" = Some "pack".
Proof.
  assert (Hv : (Verify store 0%nat start).2 = inr (mkStats 1 5 0 0 0)) by (vm_compute; reflexivity).
  split; [exact Hv|].
  destruct (Compact store ["/b"] 0%nat start) as [[i2 fs2] r] eqn:Hrun.
  refine (proj1 (compact_changes_no_file store ["/b"] start 0%nat _ 0%nat i2 fs2 r Hv _ Hrun) "/b/one" "pack" _ _).
  - intros c d Hc%start_texts Hd%start_texts.
    assert (Hi : Forall (fun c => Forall (fun d => sha256hex c = sha256hex d → c = d)
      ["pack"; "list"; "shard"; ""]) ["pack"; "list"; "shard"; ""]).
    { repeat constructor; vm_compute; congruence. }
    rewrite Forall_forall in Hi. specialize (Hi c Hc). rewrite Forall_forall in Hi. by apply Hi.
  - intros [q Hq%(f_equal (fun t => length (chars t)))]. rewrite chars_app, length_app in Hq.
    change (6%nat = (length (chars q) + 17)%nat) in Hq. lia.
  - vm_compute. reflexivity.
Defined.
End CasDemo.
