(* ===== verification/JsonText.v ===== *)
(** * The text of JSON values ([encoding/json])

    [Json] has JSON as decoded trees, which is all that columns and payloads
    need.  Where the text itself matters, because it is hashed or is the content
    of a file, this file has the text: [Marshal] and [MarshalIndent] print a
    value, [Unmarshal] parses any text, and a printed value parses to itself. *)

From Stdlib Require Import Ascii String.
From S2P Require Import Prelude GoStd Text.
#[global] Open Scope Z_scope.

(** Numbers are kept as literals, objects in the order of the text. *)
Inductive value :=
| VNull
| VBool (b : bool)
| VNum (t : string)
| VStr (s : string)
| VArr (l : list value)
| VObj (fs : list (string * value)).

Section value_ind.
Context (P : value → Prop) (Hnull : P VNull) (Hbool : ∀ b, P (VBool b)) (Hnum : ∀ t, P (VNum t))
  (Hstr : ∀ s, P (VStr s)) (Harr : ∀ l, Forall P l → P (VArr l))
  (Hobj : ∀ fs, Forall (fun kv => P kv.2) fs → P (VObj fs)).

Fixpoint value_nested_ind (v : value) : P v :=
  match v with
  | VNull => Hnull
  | VBool b => Hbool b
  | VNum t => Hnum t
  | VStr s => Hstr s
  | VArr l => Harr l ((fix go l : Forall P l :=
      match l with
      | [] => List.Forall_nil _
      | v :: l' => List.Forall_cons _ v l' (value_nested_ind v) (go l')
      end) l)
  | VObj fs => Hobj fs ((fix go fs : Forall (fun kv => P kv.2) fs :=
      match fs with
      | [] => List.Forall_nil _
      | kv :: fs' => List.Forall_cons _ kv fs' (value_nested_ind kv.2) (go fs')
      end) fs)
  end.
End value_ind.

(** ** Strings *)

Definition code (c : ascii) : N := N_of_ascii c.
Definition is_ascii (c : ascii) : bool := (code c <? 128)%N.

Definition hex_of (n : N) : ascii := ascii_of_N (if (n <? 10)%N then 48 + n else 87 + n)%N.
Definition unicode_escape (c : ascii) : list ascii :=
  ["\"%char; "u"%char; "0"%char; "0"%char; hex_of (code c / 16); hex_of (code c mod 16)].

Definition dquote : ascii := "034"%char.
Definition bslash : ascii := "\"%char.

(** An ASCII character inside a string; [<], [>] and [&] are escaped for HTML. *)
Definition escape_ascii (c : ascii) : list ascii :=
  match code c with
  | 34 | 92 => [bslash; c]
  | 8 => [bslash; "b"%char]
  | 12 => [bslash; "f"%char]
  | 10 => [bslash; "n"%char]
  | 13 => [bslash; "r"%char]
  | 9 => [bslash; "t"%char]
  | 60 | 62 | 38 => unicode_escape c
  | n => if (n <? 32)%N then unicode_escape c else [c]
  end%N.

(** U+FFFD, for a byte that begins no rune. *)
Definition replacement : list ascii := ["239"%char; "191"%char; "189"%char].
Definition replacement_escape : list ascii := chars "\ufffd".

(** U+2028 and U+2029 are E2 80 A8 and E2 80 A9. *)
Definition line_separator (c : ascii) (l : list ascii) : option (list ascii) :=
  match l with
  | x :: y :: _ =>
      if ((code c =? 226) && (code x =? 128))%N then
        if (code y =? 168)%N then Some (chars "\u2028")
        else if (code y =? 169)%N then Some (chars "\u2029") else None
      else None
  | _ => None
  end.

(** [copy] bytes are still to be copied, then [drop] bytes to be left out. *)
Fixpoint escape (copy drop : nat) (l : list ascii) : list ascii :=
  match l with
  | [] => []
  | c :: l' =>
      match copy, drop with
      | S copy', _ => c :: escape copy' drop l'
      | O, S drop' => escape O drop' l'
      | O, O =>
          if is_ascii c then escape_ascii c ++ escape O O l'
          else
            match rune_rest c l' with
            | O => replacement_escape ++ escape O O l'
            | S n =>
                match line_separator c l' with
                | Some e => e ++ escape O (S n) l'
                | None => c :: escape (S n) O l'
                end
            end
      end
  end.

Definition quote (s : string) : list ascii := dquote :: escape O O (chars s) ++ [dquote].

Definition unhex (c : ascii) : option N :=
  let n := code c in
  if ((48 <=? n) && (n <=? 57))%N then Some (n - 48)%N
  else if ((97 <=? n) && (n <=? 102))%N then Some (n - 87)%N
  else if ((65 <=? n) && (n <=? 70))%N then Some (n - 55)%N
  else None.

Definition unhex4 (a b c d : ascii) : option N :=
  a ← unhex a; b ← unhex b; c ← unhex c; d ← unhex d;
  Some (((a * 16 + b) * 16 + c) * 16 + d)%N.

Definition utf8 (r : N) : list ascii :=
  let b n := ascii_of_N n in
  let cont k := b (128 + (r / k) mod 64)%N in
  (if r <? 128 then [b r]
   else if r <? 2048 then [b (192 + r / 64); cont 1]
   else if r <? 65536 then [b (224 + r / 4096); cont 64; cont 1]
   else [b (240 + r / 262144); cont 4096; cont 64; cont 1])%N.

Definition surrogate (r : N) : bool := ((55296 <=? r) && (r <? 57344))%N.
Definition high_surrogate (r : N) : bool := ((55296 <=? r) && (r <? 56320))%N.
Definition low_surrogate (r : N) : bool := ((56320 <=? r) && (r <? 57344))%N.

Definition simple_escape (c : ascii) : option ascii :=
  match code c with
  | 34 | 92 | 47 => Some c
  | 98 => Some "008"%char
  | 102 => Some "012"%char
  | 110 => Some "010"%char
  | 114 => Some "013"%char
  | 116 => Some "009"%char
  | _ => None
  end%N.

Definition emit (p : list ascii) (r : option (list ascii * list ascii))
    : option (list ascii * list ascii) :=
  '(s, l) ← r; Some (p ++ s, l).

(** The text after an opening quote: the string and what follows its end. *)
Fixpoint unquote (copy : nat) (l : list ascii) : option (list ascii * list ascii) :=
  match l with
  | [] => None
  | c :: l1 =>
      match copy with
      | S copy' => emit [c] (unquote copy' l1)
      | O =>
          if c ≟ dquote then Some ([], l1)
          else if c ≟ bslash then
            match l1 with
            | e :: l2 =>
                match simple_escape e with
                | Some x => emit [x] (unquote O l2)
                | None =>
                    if e ≟ "u"%char then
                      match l2 with
                      | a :: b :: d :: f :: l3 =>
                          match unhex4 a b d f with
                          | Some r =>
                              if surrogate r then
                                match l3 with
                                | x :: y :: a' :: b' :: d' :: f' :: l4 =>
                                    match unhex4 a' b' d' f' with
                                    | Some r' =>
                                        if (x ≟ bslash) && (y ≟ "u"%char) && high_surrogate r
                                           && low_surrogate r'
                                        then emit (utf8 (65536 + (r - 55296) * 1024 + (r' - 56320)))
                                               (unquote O l4)
                                        else emit replacement (unquote O l3)
                                    | None => emit replacement (unquote O l3)
                                    end
                                | _ => emit replacement (unquote O l3)
                                end
                              else emit (utf8 r) (unquote O l3)
                          | None => None
                          end
                      | _ => None
                      end
                    else None
                end
            | [] => None
            end
          else if (code c <? 32)%N then None
          else if is_ascii c then emit [c] (unquote O l1)
          else
            match rune_rest c l1 with
            | O => emit replacement (unquote O l1)
            | S n => emit [c] (unquote (S n) l1)
            end
      end
  end.

(** *** A string reads back *)

(** The bytes are UTF-8; [copy] bytes of a rune are still to come. *)
Fixpoint utf8_from (copy : nat) (l : list ascii) : bool :=
  match l with
  | [] => (copy =? 0)%nat
  | c :: l' =>
      match copy with
      | S copy' => utf8_from copy' l'
      | O => if is_ascii c then utf8_from O l'
             else match rune_rest c l' with O => false | S n => utf8_from (S n) l' end
      end
  end.

Definition valid_utf8 (s : string) : bool := utf8_from O (chars s).

Lemma emit_app p q r : emit (p ++ q) r = emit p (emit q r).
Proof. destruct r as [[s l]|]; simpl; [by rewrite app_assoc|done]. Qed.

Lemma emit_nil r : emit [] r = r.
Proof. by destruct r as [[s l]|]. Qed.

Lemma unquote_copy pre t : unquote (length pre) (pre ++ t) = emit pre (unquote O t).
Proof.
  induction pre as [|c pre IH]; simpl; [by rewrite emit_nil|]. rewrite IH.
  by rewrite <- (emit_app [c] pre).
Qed.

Lemma escape_copy pre rest : escape (length pre) O (pre ++ rest) = pre ++ escape O O rest.
Proof. induction pre as [|c pre IH]; simpl; [done|]. by rewrite IH. Qed.

Lemma escape_drop pre rest : escape O (length pre) (pre ++ rest) = escape O O rest.
Proof. induction pre as [|c pre IH]; simpl; [done|]. by rewrite IH. Qed.

Lemma unquote_ascii c t : is_ascii c = true → unquote O (escape_ascii c ++ t) = emit [c] (unquote O t).
Proof. destruct c as [[] [] [] [] [] [] [] []]; intros H; try discriminate H; reflexivity. Qed.

(** A rune is its first bytes, whatever follows. *)
Lemma rune_rest_split c l n :
  rune_rest c l = S n →
  ∃ pre rest, l = pre ++ rest ∧ length pre = S n ∧ ∀ t, rune_rest c (pre ++ t) = S n.
Proof.
  destruct l as [|x l]; [done|]. unfold rune_rest.
  destruct (byte_in 194 223 c && byte_in 128 191 x) eqn:H1.
  { intros [= <-]. exists [x], l. split_and!; [done|done|]. intros t. simpl. by rewrite H1. }
  destruct l as [|y l]; [done|]. match goal with |- context [if ?b then 2%nat else _] => destruct b eqn:H2 end.
  { intros [= <-]. exists [x; y], l. split_and!; [done|done|]. intros t. simpl. by rewrite H1, H2. }
  destruct l as [|z l]; [done|]. match goal with |- context [if ?b then 3%nat else _] => destruct b eqn:H3 end.
  - intros [= <-]. exists [x; y; z], l. split_and!; [done|done|]. intros t. simpl.
    by rewrite H1, H2, H3.
  - done.
Qed.

Lemma utf8_from_app pre rest : utf8_from (length pre) (pre ++ rest) = utf8_from O rest.
Proof. induction pre as [|c pre IH]; simpl; done. Qed.

Lemma high_byte_plain c :
  is_ascii c = false →
  (c ≟ dquote) = false ∧ (c ≟ bslash) = false ∧ (code c <? 32)%N = false.
Proof. destruct c as [[] [] [] [] [] [] [] []]; intros H; try discriminate H; by vm_compute. Qed.

Lemma line_separator_spec c l e :
  line_separator c l = Some e →
  ∃ x y l', l = x :: y :: l' ∧ rune_rest c l = 2%nat ∧
    ∀ t, unquote O (e ++ t) = emit [c; x; y] (unquote O t).
Proof.
  destruct l as [|x [|y l]]; [done|done|]. unfold line_separator.
  destruct (N.eqb_spec (code c) 226) as [Hc|]; [|done].
  destruct (N.eqb_spec (code x) 128) as [Hx|]; [|done]. simpl.
  assert (c = "226"%char) as -> by (rewrite <- (ascii_N_embedding c); by unfold code in Hc; rewrite Hc).
  assert (x = "128"%char) as -> by (rewrite <- (ascii_N_embedding x); by unfold code in Hx; rewrite Hx).
  destruct (N.eqb_spec (code y) 168) as [Hy|_];
    [|destruct (N.eqb_spec (code y) 169) as [Hy|_]; [|done]]; intros [= <-];
    assert (y = ascii_of_N (code y)) as -> by (symmetry; apply ascii_N_embedding); rewrite Hy;
    (eexists _, _, l; split_and!; reflexivity).
Qed.

Lemma unquote_escape l t :
  utf8_from O l = true → unquote O (escape O O l ++ dquote :: t) = Some (l, t).
Proof.
  induction l as [l IH] using (induction_ltof1 _ (@length ascii)). unfold ltof in IH.
  destruct l as [|c l]; [done|]. intros Hv. cbn [escape utf8_from] in *.
  destruct (is_ascii c) eqn:Ha.
  { rewrite <- app_assoc, unquote_ascii, IH by (simpl; (done || lia)). done. }
  destruct (rune_rest c l) as [|n] eqn:Er; [done|].
  destruct (rune_rest_split c l n Er) as (pre & rest & -> & Hl & Hr).
  rewrite <- Hl, utf8_from_app in Hv.
  assert (Hrest : unquote 0 (escape 0 0 rest ++ dquote :: t) = Some (rest, t)).
  { apply IH; [|done]. simpl. rewrite length_app. lia. }
  destruct (line_separator c (pre ++ rest)) as [e|] eqn:Els.
  - destruct (line_separator_spec c _ e Els) as (x & y & l' & E & Er2 & Hu).
    rewrite Er in Er2. rewrite <- Hl, escape_drop, <- app_assoc, Hu, Hrest.
    destruct pre as [|a [|b [|? ?]]]; simpl in *; try lia. injection E as -> -> <-. done.
  - rewrite <- Hl, escape_copy. simpl. destruct (high_byte_plain c Ha) as (-> & -> & ->).
    rewrite Ha, <- app_assoc, Hr, <- Hl, unquote_copy, Hrest. done.
Qed.

Lemma unquote_quote s t :
  valid_utf8 s = true → unquote O (tail (quote s) ++ t) = Some (chars s, t).
Proof. intros H. unfold quote. simpl. rewrite <- app_assoc. by apply unquote_escape. Qed.

(** What is read is UTF-8. *)
Lemma utf8_from_single c l : is_ascii c = true → utf8_from O (c :: l) = utf8_from O l.
Proof. intros H. simpl. by rewrite H. Qed.

Lemma utf8_from_rune c l n s :
  is_ascii c = false → rune_rest c (l ++ s) = S n → length l = S n →
  utf8_from O (c :: l ++ s) = utf8_from O s.
Proof. intros Ha Hr Hl. simpl. by rewrite Ha, Hr, <- Hl, utf8_from_app. Qed.

Lemma code_of n : (n < 256)%N → code (ascii_of_N n) = n.
Proof. apply N_ascii_embedding. Qed.

Lemma byte_in_of lo hi n :
  (n < 256)%N → byte_in lo hi (ascii_of_N n) = ((lo <=? n) && (n <=? hi))%N.
Proof. intros H. unfold byte_in. by rewrite N_ascii_embedding. Qed.

Lemma is_ascii_of n : (n < 256)%N → is_ascii (ascii_of_N n) = (n <? 128)%N.
Proof. intros H. unfold is_ascii. by rewrite code_of. Qed.

(** Decides the tests on bytes that have become arithmetic. *)
Ltac byte_tests :=
  repeat first
    [ rewrite byte_in_of by lia | rewrite N_ascii_embedding by lia
    | match goal with
      | |- context [(?a <=? ?b)%N] =>
          first [rewrite (proj2 (N.leb_le a b)) by lia | rewrite (proj2 (N.leb_gt a b)) by lia]
      | |- context [(?a =? ?b)%N] =>
          first [rewrite (proj2 (N.eqb_eq a b)) by lia | rewrite (proj2 (N.eqb_neq a b)) by lia]
      end ];
  simpl.

Lemma digit64 r : ∃ q m, (r = 64 * q + m ∧ m < 64 ∧ r / 64 = q ∧ r mod 64 = m)%N.
Proof.
  exists (r / 64)%N, (r mod 64)%N. pose proof (N.div_mod r 64 ltac:(done)).
  pose proof (N.mod_lt r 64 ltac:(done)). done.
Qed.

Lemma utf8_valid r s :
  (r < 1114112)%N → surrogate r = false → utf8_from O (utf8 r ++ s) = utf8_from O s.
Proof.
  intros Hr Hs. unfold utf8. unfold surrogate in Hs.
  destruct (N.ltb_spec r 128) as [H1|H1].
  { apply utf8_from_single. rewrite is_ascii_of by lia. by apply N.ltb_lt. }
  change 4096%N with (64 * 64)%N. change 262144%N with (64 * 64 * 64)%N.
  rewrite <- !N.Div0.div_div, N.div_1_r.
  destruct (digit64 r) as (q1 & m0 & E0 & L0 & -> & ->).
  destruct (digit64 q1) as (q2 & m1 & E1 & L1 & -> & ->).
  destruct (digit64 q2) as (q3 & m2 & E2 & L2 & -> & ->).
  destruct (N.ltb_spec r 2048) as [H2|H2].
  { apply (utf8_from_rune _ [_] 0); [|unfold rune_rest; simpl; by byte_tests|done].
    rewrite is_ascii_of by lia. apply N.ltb_ge. lia. }
  destruct (N.ltb_spec r 65536) as [H3|H3].
  { assert (Hs' : (r < 55296 ∨ 57344 ≤ r)%N).
    { apply andb_false_iff in Hs as [Hs|Hs]; [left; by apply N.leb_gt|right; by apply N.ltb_ge]. }
    apply (utf8_from_rune _ [_; _] 1); [rewrite is_ascii_of by lia; apply N.ltb_ge; lia| |done].
    unfold rune_rest. simpl.
    destruct (N.eq_dec q2 0%N) as [Hq|Hq]; [by byte_tests|].
    destruct (N.eq_dec q2 13%N) as [Hq'|Hq']; [by byte_tests|].
    destruct (N.leb_spec q2 12%N); by byte_tests. }
  apply (utf8_from_rune _ [_; _; _] 2); [rewrite is_ascii_of by lia; apply N.ltb_ge; lia| |done].
  unfold rune_rest. simpl.
  destruct (N.eq_dec q3 0%N) as [Hq|Hq]; [by byte_tests|].
  destruct (N.eq_dec q3 4%N) as [Hq'|Hq']; by byte_tests.
Qed.

Lemma unhex_lt c n : unhex c = Some n → (n < 16)%N.
Proof. destruct c as [[] [] [] [] [] [] [] []]; vm_compute; intros [= <-]; done. Qed.

Lemma unhex4_lt a b c d n : unhex4 a b c d = Some n → (n < 65536)%N.
Proof.
  unfold unhex4. destruct (unhex a) as [x|] eqn:Ea; [|done]. destruct (unhex b) as [y|] eqn:Eb; [|done].
  destruct (unhex c) as [z|] eqn:Ec; [|done]. destruct (unhex d) as [w|] eqn:Ed; [|done].
  apply unhex_lt in Ea, Eb, Ec, Ed. simpl. intros [= <-]. lia.
Qed.

Lemma simple_escape_ascii e x : simple_escape e = Some x → is_ascii x = true.
Proof.
  intros H. destruct e as [[] [] [] [] [] [] [] []]; try discriminate H; injection H as <-; reflexivity.
Qed.

Lemma emit_valid p o s r :
  (∀ t, utf8_from O (p ++ t) = utf8_from O t) → emit p o = Some (s, r) →
  (∀ s' r', o = Some (s', r') → utf8_from O s' = true) → utf8_from O s = true.
Proof. intros Hp He Ho. destruct o as [[s' r']|]; [|done]. injection He as <- <-. rewrite Hp. eauto. Qed.

Lemma unquote_valid l s r : unquote O l = Some (s, r) → utf8_from O s = true.
Proof.
  revert s r. induction l as [l IH] using (induction_ltof1 _ (@length ascii)). unfold ltof in IH.
  destruct l as [|c l]; [done|]. intros s r. cbn [unquote]. case_match; [by intros [= <- _]|].
  assert (Hrep : ∀ t, utf8_from O (replacement ++ t) = utf8_from O t) by done.
  case_match.
  { destruct l as [|e l2]; [done|]. destruct (simple_escape e) as [x|] eqn:Ee.
    { intros He. eapply emit_valid; [|exact He|].
      - intros t. apply utf8_from_single. by eapply simple_escape_ascii.
      - intros s' r'. apply IH. simpl; lia. }
    case_match; [|done]. destruct l2 as [|a [|b [|d [|f l3]]]]; try done.
    destruct (unhex4 a b d f) as [n|] eqn:En; [|done]. apply unhex4_lt in En.
    assert (H3 : ∀ s' r', unquote 0 l3 = Some (s', r') → utf8_from 0 s' = true)
      by (intros s' r'; apply IH; simpl; lia).
    destruct (surrogate n) eqn:Esur.
    - intros He. assert (Hor : emit replacement (unquote 0 l3) = Some (s, r) → utf8_from 0 s = true)
        by (intros He'; by eapply emit_valid).
      destruct l3 as [|x [|y [|a' [|b' [|d' [|f' l4]]]]]]; try (by apply Hor).
      destruct (unhex4 a' b' d' f') as [n'|] eqn:En'; [|by apply Hor].
      destruct (_ && low_surrogate n') eqn:Hlow; [|by apply Hor].
      apply andb_true_iff in Hlow as [[_ Hh]%andb_true_iff Hlow].
      unfold high_surrogate, low_surrogate in *.
      apply andb_true_iff in Hh as [Hh1%N.leb_le Hh2%N.ltb_lt].
      apply andb_true_iff in Hlow as [Hl1%N.leb_le Hl2%N.ltb_lt].
      eapply emit_valid; [|exact He|intros s' r'; apply IH; simpl; lia].
      intros t. apply utf8_valid; [lia|]. unfold surrogate. apply andb_false_iff. right.
      apply N.ltb_ge. lia.
    - intros He. eapply emit_valid; [|exact He|done]. intros t. apply utf8_valid; [lia|done]. }
  destruct (code c <? 32)%N; [done|]. destruct (is_ascii c) eqn:Ha.
  { intros He. eapply emit_valid; [|exact He|intros s' r'; apply IH; simpl; lia].
    intros t. by apply utf8_from_single. }
  destruct (rune_rest c l) as [|n] eqn:Er.
  { intros He. eapply emit_valid; [|exact He|intros s' r'; apply IH; simpl; lia]. done. }
  destruct (rune_rest_split c l n Er) as (pre & rest & -> & Hl & Hr).
  rewrite <- Hl, unquote_copy, <- emit_app. intros He.
  eapply emit_valid; [|exact He|intros s' r'; apply IH; simpl; rewrite length_app; lia].
  intros t. simpl app. by eapply utf8_from_rune.
Qed.

(** ** Numbers *)

(** The digits at the head. *)
Fixpoint digits_then (l : list ascii) : list ascii * list ascii :=
  match l with
  | c :: l' => if is_digit c then let '(ds, r) := digits_then l' in (c :: ds, r) else ([], l)
  | [] => ([], [])
  end.

Definition one_of (cs : list ascii) (c : ascii) : bool := existsb (fun x => c ≟ x) cs.

Definition exponent (l : list ascii) : bool :=
  match l with
  | [] => true
  | c :: l' =>
      one_of ["e"; "E"]%char c &&
      let l' := match l' with s :: l2 => if one_of ["+"; "-"]%char s then l2 else l' | [] => [] end in
      match digits_then l' with (_ :: _, []) => true | _ => false end
  end.

Definition fraction (l : list ascii) : bool :=
  match l with
  | c :: l' =>
      if c ≟ "."%char then match digits_then l' with (_ :: _, r) => exponent r | _ => false end
      else exponent l
  | [] => true
  end.

Definition unsigned_number (l : list ascii) : bool :=
  match digits_then l with
  | (z :: ds, r) => (negb (z ≟ "0"%char) || bool_decide (ds = [])) && fraction r
  | ([], _) => false
  end.

(** An optional minus, digits without a leading zero, a fraction, an exponent. *)
Definition number_literal (l : list ascii) : bool :=
  match l with
  | c :: l' => if c ≟ "-"%char then unsigned_number l' else unsigned_number l
  | [] => false
  end.

Definition in_number (c : ascii) : bool := is_digit c || one_of ["+"; "-"; "."; "e"; "E"]%char c.

Fixpoint take_number (l : list ascii) : list ascii * list ascii :=
  match l with
  | c :: l' => if in_number c then let '(n, r) := take_number l' in (c :: n, r) else ([], l)
  | [] => ([], [])
  end.

Definition ends_number (r : list ascii) : Prop :=
  match r with c :: _ => in_number c = false | [] => True end.

Lemma take_number_app n r :
  Forall (fun c => in_number c = true) n → ends_number r → take_number (n ++ r) = (n, r).
Proof.
  intros Hn Hr. induction Hn as [|c n Hc _ IH]; simpl.
  - destruct r as [|c r]; [done|]. simpl in *. by rewrite Hr.
  - by rewrite Hc, IH.
Qed.

Lemma take_number_chars l : Forall (fun c => in_number c = true) (take_number l).1.
Proof.
  induction l as [|c l IH]; simpl; [constructor|]. destruct (in_number c) eqn:Hc; [|constructor].
  destruct (take_number l) as [n r]. by constructor.
Qed.

(** *** Integers *)

Definition int_text (z : Z) : string := pretty z.

Definition digit_value (c : ascii) : Z := Z.of_N (code c) - 48.

Fixpoint digits_value (acc : Z) (l : list ascii) : option Z :=
  match l with
  | [] => Some acc
  | c :: l' => if is_digit c then digits_value (10 * acc + digit_value c) l' else None
  end.

Definition int_value (l : list ascii) : option Z :=
  match l with
  | [] => None
  | c :: l' =>
      if c ≟ "-"%char then match l' with [] => None | _ => Z.opp <$> digits_value 0 l' end
      else digits_value 0 l
  end.

Lemma digits_value_app acc l l' :
  digits_value acc (l ++ l') = (a ← digits_value acc l; digits_value a l').
Proof.
  revert acc. induction l as [|c l IH]; intros acc; simpl; [done|]. by destruct (is_digit c).
Qed.

(** The digits [pretty] puts in front of a text. *)
Lemma pretty_N_go_digits n s :
  (0 < n)%N →
  ∃ c ds, chars (pretty_N_go n s) = (c :: ds) ++ chars s ∧ c ≠ "0"%char ∧
    Forall (fun c => is_digit c = true) (c :: ds) ∧ digits_value 0 (c :: ds) = Some (Z.of_N n).
Proof.
  revert s. induction (N.lt_wf_0 n) as [n _ IH]. intros s Hn.
  assert (∃ k, (k < 10)%nat ∧ (n `mod` 10)%N = N.of_nat k) as (k & Hk & Ek).
  { exists (N.to_nat (n `mod` 10)). pose proof (N.mod_lt n 10). lia. }
  pose proof (N.div_mod n 10 ltac:(done)) as Hdiv.
  assert (Hd : ∀ k, (k < 10)%nat → is_digit (pretty_N_char (N.of_nat k)) = true ∧
    digit_value (pretty_N_char (N.of_nat k)) = Z.of_nat k ∧
    ((0 < k)%nat → pretty_N_char (N.of_nat k) ≠ "0"%char)).
  { clear. intros k Hk. do 10 (destruct k as [|k]; [split_and!; [done|done|]; by (lia || done)|]). lia. }
  destruct (Hd k Hk) as (Hdig & Hval & Hnz). rewrite pretty_N_go_step by done. rewrite Ek in *.
  destruct (decide (n `div` 10 = 0)%N) as [E0|Hq].
  - rewrite E0, pretty_N_go_0. exists (pretty_N_char (N.of_nat k)), [].
    split_and!; [done|apply Hnz; lia|by repeat constructor|]. simpl. rewrite Hdig, Hval. f_equal. lia.
  - destruct (IH (n `div` 10)%N ltac:(apply N.div_lt; lia) (String (pretty_N_char (N.of_nat k)) s)
      ltac:(lia)) as (c & ds & E & Hc & Hf & Hv).
    exists c, (ds ++ [pretty_N_char (N.of_nat k)]). split_and!; [|done| |].
    + rewrite E. simpl. by rewrite <- app_assoc.
    + rewrite app_comm_cons. apply Forall_app. split; [done|]. by repeat constructor.
    + rewrite app_comm_cons, digits_value_app, Hv. simpl. rewrite Hdig, Hval. f_equal. lia.
Qed.

Lemma pretty_pos p :
  ∃ c ds, chars (pretty (Npos p)) = c :: ds ∧ c ≠ "0"%char ∧
    Forall (fun c => is_digit c = true) (c :: ds) ∧ digits_value 0 (c :: ds) = Some (Zpos p).
Proof.
  unfold pretty, pretty_N. rewrite decide_False by done.
  destruct (pretty_N_go_digits (Npos p) "" ltac:(done)) as (c & ds & E & H). exists c, ds.
  by rewrite E, app_nil_r.
Qed.

Lemma digits_then_all ds : Forall (fun c => is_digit c = true) ds → digits_then ds = (ds, []).
Proof. intros H. induction H as [|c ds Hc _ IH]; simpl; [done|]. by rewrite Hc, IH. Qed.

Lemma digit_not_minus c : is_digit c = true → (c ≟ "-"%char) = false.
Proof. destruct c as [[] [] [] [] [] [] [] []]; intros H; try discriminate H; reflexivity. Qed.

Lemma int_text_spec z :
  number_literal (chars (int_text z)) = true ∧ int_value (chars (int_text z)) = Some z ∧
  Forall (fun c => in_number c = true) (chars (int_text z)).
Proof.
  assert (Hin : ∀ ds, Forall (fun c => is_digit c = true) ds → Forall (fun c => in_number c = true) ds).
  { intros ds H. eapply Forall_impl; [exact H|]. intros c Hc. unfold in_number. by rewrite Hc. }
  assert (Hun : ∀ c ds, c ≠ "0"%char → Forall (fun c => is_digit c = true) (c :: ds) →
    unsigned_number (c :: ds) = true).
  { intros c ds Hc Hd. unfold unsigned_number. rewrite digits_then_all by done.
    by rewrite (bool_decide_eq_false_2 _ Hc). }
  unfold int_text. destruct z as [|p|p].
  - split_and!; [done|done|]. by repeat constructor.
  - change (pretty (Z.pos p)) with (pretty (Npos p)).
    destruct (pretty_pos p) as (c & ds & E & Hc & Hd & Hv). rewrite E.
    pose proof (proj1 (Forall_cons _ _ _) Hd) as [Hc' _].
    split_and!; [|simpl; by rewrite (digit_not_minus c Hc')|by apply Hin].
    unfold number_literal. rewrite (digit_not_minus c Hc'). by apply Hun.
  - change (chars (pretty (Z.neg p))) with ("-"%char :: chars (pretty (Npos p))).
    destruct (pretty_pos p) as (c & ds & E & Hc & Hd & Hv). rewrite E.
    split_and!; [by apply Hun| |constructor; [done|by apply Hin]].
    change (int_value ("-"%char :: c :: ds)) with (Z.opp <$> digits_value 0 (c :: ds)).
    by rewrite Hv.
Qed.

(** ** Parsing *)

Definition is_ws (c : ascii) : bool := one_of [" "; "009"; "010"; "013"]%char c.

Fixpoint skip_ws (l : list ascii) : list ascii :=
  match l with c :: l' => if is_ws c then skip_ws l' else l | [] => [] end.

Definition of_chars (l : list ascii) : string := String.string_of_list_ascii l.

(** A word of fixed letters. *)
Fixpoint word (w l : list ascii) : option (list ascii) :=
  match w, l with
  | [], _ => Some l
  | x :: w', c :: l' => if c ≟ x then word w' l' else None
  | _ :: _, [] => None
  end.

Definition maxNestingDepth : Z := 10000.

Definition parse_number (l : list ascii) : option (value * list ascii) :=
  let '(n, r) := take_number l in
  if number_literal n then Some (VNum (of_chars n), r) else None.

(** The name of a field and the colon. *)
Definition parse_key (l : list ascii) : option (string * list ascii) :=
  match skip_ws l with
  | q :: r =>
      if q ≟ dquote then
        '(k, r) ← unquote O r;
        match skip_ws r with
        | c :: r => if c ≟ ":"%char then Some (of_chars k, r) else None
        | [] => None
        end
      else None
  | [] => None
  end.

(** One step of fuel for each value and each element; the length of the text is
    enough. *)
Fixpoint parse_value (fuel : nat) (depth : Z) (l : list ascii) : option (value * list ascii) :=
  match fuel with
  | O => None
  | S fuel' =>
      match skip_ws l with
      | [] => None
      | c :: r =>
          if c ≟ dquote then '(s, r) ← unquote O r; Some (VStr (of_chars s), r)
          else if c ≟ "["%char then
            if depth =? 0 then None
            else match skip_ws r with
                 | x :: r' =>
                     if x ≟ "]"%char then Some (VArr [], r')
                     else '(vs, r) ← parse_items fuel' (depth - 1) r; Some (VArr vs, r)
                 | [] => None
                 end
          else if c ≟ "{"%char then
            if depth =? 0 then None
            else match skip_ws r with
                 | x :: r' =>
                     if x ≟ "}"%char then Some (VObj [], r')
                     else '(fs, r) ← parse_fields fuel' (depth - 1) r; Some (VObj fs, r)
                 | [] => None
                 end
          else if c ≟ "n"%char then r ← word (chars "ull") r; Some (VNull, r)
          else if c ≟ "t"%char then r ← word (chars "rue") r; Some (VBool true, r)
          else if c ≟ "f"%char then r ← word (chars "alse") r; Some (VBool false, r)
          else parse_number (c :: r)
      end
  end
(** The elements of an array up to the closing bracket. *)
with parse_items (fuel : nat) (depth : Z) (l : list ascii) : option (list value * list ascii) :=
  match fuel with
  | O => None
  | S fuel' =>
      '(v, r) ← parse_value fuel' depth l;
      match skip_ws r with
      | c :: r' =>
          if c ≟ ","%char then '(vs, r) ← parse_items fuel' depth r'; Some (v :: vs, r)
          else if c ≟ "]"%char then Some ([v], r')
          else None
      | [] => None
      end
  end
with parse_fields (fuel : nat) (depth : Z) (l : list ascii)
    : option (list (string * value) * list ascii) :=
  match fuel with
  | O => None
  | S fuel' =>
      '(k, r) ← parse_key l;
      '(v, r) ← parse_value fuel' depth r;
      match skip_ws r with
      | c :: r' =>
          if c ≟ ","%char then '(fs, r) ← parse_fields fuel' depth r'; Some ((k, v) :: fs, r)
          else if c ≟ "}"%char then Some ([(k, v)], r')
          else None
      | [] => None
      end
  end.

Definition parse (s : string) : option value :=
  '(v, r) ← parse_value (S (length (chars s))) maxNestingDepth (chars s);
  match skip_ws r with [] => Some v | _ => None end.

(** ** Printing *)

(** What goes between the tokens: a line break with its indentation for a depth,
    and the space after a colon. *)
Record Layout := mkLayout { break : nat → list ascii; gap : list ascii }.

Definition compact : Layout := mkLayout (fun _ => []) [].
Definition indented : Layout :=
  mkLayout (fun d => "010"%char :: concat (replicate d [" "; " "]%char)) [" "%char].

Section Print.
Context (L : Layout).

(** The elements of an array or object, already printed. *)
Fixpoint separated (d : nat) (l : list (list ascii)) : list ascii :=
  match l with
  | [] => []
  | [x] => x
  | x :: l' => x ++ ","%char :: L.(break) d ++ separated d l'
  end.

Definition bracket (o c : ascii) (d : nat) (l : list (list ascii)) : list ascii :=
  match l with
  | [] => [o; c]
  | _ => o :: L.(break) (S d) ++ separated (S d) l ++ L.(break) d ++ [c]
  end.

Fixpoint print (d : nat) (v : value) : list ascii :=
  match v with
  | VNull => chars "null"
  | VBool true => chars "true"
  | VBool false => chars "false"
  | VNum t => chars t
  | VStr s => quote s
  | VArr l => bracket "["%char "]"%char d (print (S d) <$> l)
  | VObj fs => bracket "{"%char "}"%char d
      ((fun kv => quote kv.1 ++ ":"%char :: L.(gap) ++ print (S d) kv.2) <$> fs)
  end.
End Print.

Definition Marshal (v : value) : string := of_chars (print compact 0 v).

(** [json.MarshalIndent(v, "", "  ")] *)
Definition MarshalIndent (v : value) : string := of_chars (print indented 0 v).

(** ** A printed value parses to itself *)

(** The strings are UTF-8, the numbers literals, and the nesting is within bounds. *)
Fixpoint value_ok (depth : nat) (v : value) {struct v} : bool :=
  match v with
  | VNull | VBool _ => true
  | VNum t => number_literal (chars t)
  | VStr s => valid_utf8 s
  | VArr l => match depth with O => false | S d => forallb (value_ok d) l end
  | VObj fs =>
      match depth with
      | O => false
      | S d => forallb (fun kv => valid_utf8 kv.1 && value_ok d kv.2) fs
      end
  end.

Definition most {A} (f : A → nat) (l : list A) : nat := foldr (fun x n => S (Nat.max (f x) n)) O l.

(** The fuel that parsing takes. *)
Fixpoint cost (v : value) : nat :=
  match v with
  | VArr l => S (most cost l)
  | VObj fs => S (most (fun kv => cost kv.2) fs)
  | _ => 1%nat
  end.

Lemma skip_ws_app w l : Forall (fun c => is_ws c = true) w → skip_ws (w ++ l) = skip_ws l.
Proof. intros H. induction H as [|c w Hc _ IH]; simpl; [done|]. by rewrite Hc. Qed.

Lemma ws_ends_number c r : is_ws c = true → ends_number (c :: r).
Proof. destruct c as [[] [] [] [] [] [] [] []]; intros H; try discriminate H; reflexivity. Qed.

(** The first character of a printed value tells its kind. *)
Definition starts (l : list ascii) : Prop :=
  match l with c :: _ => is_ws c = false ∧ c ≠ "]"%char ∧ c ≠ "}"%char | [] => False end.

Lemma skip_starts w l : Forall (fun c => is_ws c = true) w → starts l → skip_ws (w ++ l) = l.
Proof.
  intros Hw Hl. rewrite skip_ws_app by done. destruct l as [|c l]; [done|]. simpl.
  by destruct Hl as [-> _].
Qed.

Lemma number_starts t :
  number_literal t = true →
  ∃ c l, t = c :: l ∧ (is_digit c = true ∨ c = "-"%char).
Proof.
  destruct t as [|c l]; [done|]. unfold number_literal. case_bool_decide as Hc; [by eauto|].
  unfold unsigned_number. simpl. destruct (is_digit c) eqn:Hd; [by eauto|done].
Qed.

Lemma number_plain c :
  is_digit c = true ∨ c = "-"%char →
  is_ws c = false ∧ (c ≟ "]"%char) = false ∧ (c ≟ "}"%char) = false ∧ (c ≟ dquote) = false ∧
  (c ≟ "["%char) = false ∧ (c ≟ "{"%char) = false ∧ (c ≟ "n"%char) = false ∧
  (c ≟ "t"%char) = false ∧ (c ≟ "f"%char) = false.
Proof. intros [H| ->]; [|done]. destruct c as [[] [] [] [] [] [] [] []]; try discriminate H; done. Qed.

Lemma parse_number_literal t r :
  number_literal (chars t) = true → Forall (fun c => in_number c = true) (chars t) → ends_number r →
  parse_number (chars t ++ r) = Some (VNum t, r).
Proof.
  intros Hl Hf Hr. unfold parse_number. rewrite take_number_app by done. rewrite Hl.
  unfold of_chars, chars. by rewrite String.string_of_list_ascii_of_string.
Qed.

Lemma of_chars_chars s : of_chars (chars s) = s.
Proof. apply String.string_of_list_ascii_of_string. Qed.

(** A literal has only characters of numbers. *)
Lemma digits_then_split l : l = (digits_then l).1 ++ (digits_then l).2 ∧
  Forall (fun c => in_number c = true) (digits_then l).1.
Proof.
  induction l as [|c l [IHe IHf]]; simpl; [done|]. destruct (is_digit c) eqn:Hc; [|done].
  destruct (digits_then l) as [ds r]. simpl in *. split; [by f_equal|]. constructor; [|done].
  unfold in_number. by rewrite Hc.
Qed.

Lemma one_of_in cs c : Forall (fun c => in_number c = true) cs → one_of cs c = true → in_number c = true.
Proof.
  intros Hf H. unfold one_of in H. apply existsb_exists in H as (x & Hx & E).
  apply bool_decide_eq_true in E as ->.
  rewrite Forall_forall in Hf. apply Hf. by apply list_elem_of_In.
Qed.

Notation numeric l := (Forall (fun c => in_number c = true) l).

Lemma exponent_numeric l : exponent l = true → numeric l.
Proof.
  destruct l as [|c l]; [constructor|]. unfold exponent. intros [Hc H]%andb_true_iff.
  constructor; [by apply (one_of_in ["e"; "E"]%char); [repeat constructor|]|].
  assert (Hd : ∀ l, match digits_then l with (_ :: _, []) => true | _ => false end = true → numeric l).
  { clear. intros l H. destruct (digits_then_split l) as [E Hf]. destruct (digits_then l) as [[|d ds] [|]];
      try done. simpl in E, Hf. by rewrite E, app_nil_r. }
  destruct l as [|s l]; [constructor|]. destruct (one_of ["+"; "-"]%char s) eqn:Hs; [|apply Hd; exact H].
  constructor; [by apply (one_of_in ["+"; "-"]%char); [repeat constructor|]|]. by apply Hd.
Qed.

Lemma fraction_numeric l : fraction l = true → numeric l.
Proof.
  destruct l as [|c l]; [constructor|]. unfold fraction. case_bool_decide as Hc; [|apply exponent_numeric].
  subst c. destruct (digits_then_split l) as [E Hf]. destruct (digits_then l) as [[|d ds] r]; [done|].
  intros H. constructor; [done|]. rewrite E. apply Forall_app. split; [done|]. by apply exponent_numeric.
Qed.

Lemma literal_numeric l : number_literal l = true → numeric l.
Proof.
  assert (Hu : ∀ l, unsigned_number l = true → numeric l).
  { clear. intros l. unfold unsigned_number. destruct (digits_then_split l) as [E Hf].
    destruct (digits_then l) as [[|d ds] r]; [done|]. intros [_ H]%andb_true_iff. rewrite E.
    apply Forall_app. split; [done|]. by apply fraction_numeric. }
  destruct l as [|c l]; [constructor|]. unfold number_literal. case_bool_decide as Hc; [|apply Hu].
  subst c. intros H. constructor; [done|]. by apply Hu.
Qed.

Section Reading.
Context (L : Layout).
Hypothesis ws_break : ∀ d, Forall (fun c => is_ws c = true) (L.(break) d).
Hypothesis ws_gap : Forall (fun c => is_ws c = true) L.(gap).

Notation white w := (Forall (fun c => is_ws c = true) w).

Lemma print_starts depth d v r : value_ok depth v = true → starts (print L d v ++ r).
Proof.
  destruct v as [|[]|t|s|l|fs]; simpl; intros Hv; try done.
  - rename Hv into Hn.
    destruct (number_starts _ Hn) as (c & t' & E & Hc). rewrite E. simpl.
    destruct (number_plain c Hc) as (H1 & H2 & H3 & _).
    apply bool_decide_eq_false in H2, H3. done.
  - unfold bracket. by destruct l.
  - unfold bracket. by destruct fs.
Qed.

(** Reading one value back, after white space and before anything. *)
Definition reads (v : value) : Prop :=
  ∀ depth d fuel w r, value_ok depth v = true → white w → ends_number r → (cost v ≤ fuel)%nat →
    parse_value fuel (Z.of_nat depth) (w ++ print L d v ++ r) = Some (v, r).

(** After an element comes a comma, or white space and a closing character. *)
Lemma closing_ends w c r : white w → in_number c = false → ends_number (w ++ c :: r).
Proof. intros Hw Hc. destruct Hw as [|x w Hx]; [done|]. by apply ws_ends_number. Qed.

Lemma items_read depth d l fuel w r :
  Forall reads l → l ≠ [] → forallb (value_ok depth) l = true → white w → (most cost l ≤ fuel)%nat →
  parse_items fuel (Z.of_nat depth)
    (w ++ separated L d (print L d <$> l) ++ L.(break) (pred d) ++ "]"%char :: r) = Some (l, r).
Proof.
  intros Hl. revert fuel w. induction Hl as [|v l Hv Hl IH]; [done|]. intros fuel w _ Hok Hw Hfuel.
  simpl in Hok. apply andb_true_iff in Hok as [Hok1 Hok2]. simpl in Hfuel.
  destruct fuel as [|fuel]; [lia|]. cbn [parse_items]. destruct l as [|v' l].
  - cbn [fmap list_fmap separated].
    rewrite (Hv depth d fuel w _ Hok1 Hw); [|apply closing_ends; [apply ws_break|done]|lia].
    cbn [mbind option_bind]. by rewrite skip_ws_app.
  - change (separated L d (print L d <$> v :: v' :: l))
      with (print L d v ++ ","%char :: L.(break) d ++ separated L d (print L d <$> v' :: l)).
    rewrite <- !app_assoc. cbn [app]. rewrite <- !app_assoc.
    rewrite (Hv depth d fuel w _ Hok1 Hw); [|done|lia]. cbn [mbind option_bind].
    cbn [skip_ws]. change (is_ws ","%char) with false. cbv iota.
    rewrite (bool_decide_eq_true_2 (","%char = ","%char)) by done.
    by rewrite (IH fuel (L.(break) d)) by (try done; lia).
Qed.

Lemma fields_read depth d fs fuel w r :
  Forall (fun kv => reads kv.2) fs → fs ≠ [] →
  forallb (fun kv => valid_utf8 kv.1 && value_ok depth kv.2) fs = true → white w →
  (most (fun kv => cost kv.2) fs ≤ fuel)%nat →
  parse_fields fuel (Z.of_nat depth)
    (w ++ separated L d ((fun kv => quote kv.1 ++ ":"%char :: L.(gap) ++ print L d kv.2) <$> fs)
       ++ L.(break) (pred d) ++ "}"%char :: r) = Some (fs, r).
Proof.
  intros Hl. revert fuel w. induction Hl as [|[k v] fs Hv Hl IH]; [done|]. intros fuel w _ Hok Hw Hfuel.
  simpl in Hok, Hfuel, Hv. apply andb_true_iff in Hok as [[Hk Hok1]%andb_true_iff Hok2].
  destruct fuel as [|fuel]; [lia|]. cbn [parse_fields].
  set (p := fun kv : string * value => quote kv.1 ++ ":"%char :: L.(gap) ++ print L d kv.2).
  assert (Hkey : ∀ t, parse_key (w ++ p (k, v) ++ t) = Some (k, L.(gap) ++ print L d v ++ t)).
  { intros t. unfold parse_key, p, quote. simpl. rewrite skip_ws_app by done. simpl.
    rewrite <- !app_assoc. cbn [app]. rewrite unquote_escape by done. simpl.
    by rewrite of_chars_chars, <- app_assoc. }
  destruct fs as [|[k' v'] fs].
  - cbn [fmap list_fmap separated]. rewrite Hkey. cbn [mbind option_bind].
    rewrite (Hv depth d fuel _ _ Hok1 ws_gap); [|apply closing_ends; [apply ws_break|done]|lia].
    cbn [mbind option_bind]. by rewrite skip_ws_app.
  - change (separated L d (p <$> (k, v) :: (k', v') :: fs))
      with (p (k, v) ++ ","%char :: L.(break) d ++ separated L d (p <$> (k', v') :: fs)).
    rewrite <- (app_assoc (p (k, v))). cbn [app]. rewrite Hkey. cbn [mbind option_bind].
    rewrite (Hv depth d fuel _ _ Hok1 ws_gap); [|done|lia]. cbn [mbind option_bind].
    cbn [skip_ws]. change (is_ws ","%char) with false. cbv iota.
    rewrite (bool_decide_eq_true_2 (","%char = ","%char)) by done.
    rewrite <- app_assoc. unfold p. by rewrite (IH fuel (L.(break) d)) by (try done; lia).
Qed.

Lemma value_reads v : reads v.
Proof.
  induction v as [|b|t|s|l IH|fs IH] using value_nested_ind; intros depth d fuel w r Hok Hw Hr Hf;
    (destruct fuel as [|fuel]; [simpl in Hf; lia|]);
    pose proof (print_starts depth d _ r Hok) as Hst; cbn [parse_value];
    rewrite (skip_starts w _ Hw Hst).
  - done.
  - by destruct b.
  - simpl in Hok |- *. destruct (number_starts _ Hok) as (c & t' & E & Hc).
    pose proof (parse_number_literal t r Hok (literal_numeric _ Hok) Hr) as Hp. rewrite E in *.
    destruct (number_plain c Hc) as (_ & _ & _ & H1 & H2 & H3 & H4 & H5 & H6).
    cbn [app]. by rewrite H1, H2, H3, H4, H5, H6.
  - simpl in *. rewrite <- app_assoc. cbn [app]. rewrite unquote_escape by done. simpl.
    by rewrite of_chars_chars.
  - cbn [value_ok cost] in *. destruct depth as [|depth]; [done|].
    replace (Z.of_nat (S depth) =? 0) with false by (symmetry; apply Z.eqb_neq; lia).
    replace (Z.of_nat (S depth) - 1) with (Z.of_nat depth) by lia.
    destruct l as [|v l]; [done|]. cbn [print]. unfold bracket.
    change (print L (S d) <$> v :: l) with (print L (S d) v :: (print L (S d) <$> l)).
    cbv iota. cbn [app]. change (bool_decide ("["%char = dquote)) with false. cbv iota.
    change (bool_decide ("["%char = "["%char)) with true. cbv iota.
    change (print L (S d) v :: (print L (S d) <$> l)) with (print L (S d) <$> v :: l).
    rewrite <- !app_assoc. cbn [app].
    assert (Hs : ∃ x t, skip_ws (L.(break) (S d) ++ separated L (S d) (print L (S d) <$> v :: l) ++
       L.(break) d ++ "]"%char :: r) = x :: t ∧ (x ≟ "]"%char) = false).
    { simpl in Hok. apply andb_true_iff in Hok as [Hok1 _].
      assert (Hst' : ∀ r, starts (print L (S d) v ++ r)) by (intros; by eapply print_starts).
      destruct l as [|v' l]; cbn [fmap list_fmap separated]; rewrite <- ?app_assoc;
        (rewrite skip_starts; [|apply ws_break|apply Hst']);
        match goal with |- context [print L (S d) v ++ ?t] => specialize (Hst' t);
          destruct (print L (S d) v ++ t) as [|x t0]; [done|]; exists x, t0;
          destruct Hst' as (_ & Hx & _); split; [done|by apply bool_decide_eq_false] end. }
    destruct Hs as (x & t & -> & ->).
    pose proof (items_read depth (S d) (v :: l) fuel (L.(break) (S d)) r IH ltac:(done) Hok
      (ws_break _) ltac:(simpl in *; lia)) as Hi.
    cbn [pred] in Hi. by rewrite Hi.
  - cbn [value_ok cost] in *. destruct depth as [|depth]; [done|].
    replace (Z.of_nat (S depth) =? 0) with false by (symmetry; apply Z.eqb_neq; lia).
    replace (Z.of_nat (S depth) - 1) with (Z.of_nat depth) by lia.
    destruct fs as [|[k v] fs]; [done|]. cbn [print]. unfold bracket.
    set (p := fun kv : string * value => quote kv.1 ++ ":"%char :: L.(gap) ++ print L (S d) kv.2).
    change (p <$> (k, v) :: fs) with (p (k, v) :: (p <$> fs)). cbv iota. cbn [app].
    change (bool_decide ("{"%char = dquote)) with false. cbv iota.
    change (bool_decide ("{"%char = "["%char)) with false. cbv iota.
    change (bool_decide ("{"%char = "{"%char)) with true. cbv iota.
    change (p (k, v) :: (p <$> fs)) with (p <$> (k, v) :: fs).
    rewrite <- !app_assoc. cbn [app].
    assert (Hs : ∃ t, skip_ws (L.(break) (S d) ++ separated L (S d) (p <$> (k, v) :: fs) ++
       L.(break) d ++ "}"%char :: r) = dquote :: t).
    { rewrite skip_ws_app by done. destruct fs as [|kv fs]; by eexists. }
    destruct Hs as (t & ->). change (bool_decide (dquote = "}"%char)) with false. cbv iota.
    pose proof (fields_read depth (S d) ((k, v) :: fs) fuel (L.(break) (S d)) r IH ltac:(done) Hok
      (ws_break _) ltac:(simpl in *; lia)) as Hi.
    cbn [pred] in Hi. unfold p. by rewrite Hi.
Qed.

(** The fuel that parsing takes is at most the length of the text. *)
Lemma most_separated {A} (f : A → nat) (g : A → list ascii) d l :
  Forall (fun x => (f x ≤ length (g x))%nat) l → (most f l ≤ S (length (separated L d (g <$> l))))%nat.
Proof.
  intros H. induction H as [|x l Hx _ IH]; [simpl; lia|]. destruct l as [|y l].
  - simpl. lia.
  - change (separated L d (g <$> x :: y :: l))
      with (g x ++ ","%char :: L.(break) d ++ separated L d (g <$> y :: l)).
    rewrite length_app. cbn [length]. rewrite length_app. simpl most in *. lia.
Qed.

Lemma bracket_length o c d l : (2 + length (separated L (S d) l) ≤ length (bracket L o c d l))%nat.
Proof.
  unfold bracket. destruct l as [|x l]; [simpl; lia|]. cbn [length]. rewrite !length_app. simpl. lia.
Qed.

Lemma cost_print depth v d : value_ok depth v = true → (cost v ≤ length (print L d v))%nat.
Proof.
  revert depth d. induction v as [|b|t|s|l IH|fs IH] using value_nested_ind; intros depth d Hok.
  - simpl. lia.
  - destruct b; simpl; lia.
  - simpl in *. by destruct (chars t); [|simpl; lia].
  - simpl. lia.
  - destruct depth as [|depth]; [done|]. cbn [value_ok cost print] in *.
    etransitivity; [|apply bracket_length].
    assert (Hl : Forall (fun x => (cost x ≤ length (print L (S d) x))%nat) l).
    { apply Forall_forall. intros v Hv. rewrite Forall_forall in IH. apply (IH v Hv depth).
      rewrite forallb_forall in Hok. apply Hok. by apply list_elem_of_In. }
    apply (most_separated _ _ (S d)) in Hl. lia.
  - destruct depth as [|depth]; [done|]. cbn [value_ok cost print] in *.
    etransitivity; [|apply bracket_length].
    match goal with |- context [?g <$> fs] => assert (Hl : Forall (fun x => (cost x.2 ≤ length (g x))%nat) fs) end.
    { apply Forall_forall. intros [k v] Hv. rewrite Forall_forall in IH.
      rewrite forallb_forall in Hok.
      pose proof (proj1 (andb_true_iff _ _) (Hok (k, v) (proj1 (list_elem_of_In _ _) Hv))) as Hk.
      rewrite length_app. cbn [length]. rewrite length_app.
      pose proof (IH (k, v) Hv depth (S d) (proj2 Hk)) as Hc. simpl in *. lia. }
    apply (most_separated _ _ (S d)) in Hl. lia.
Qed.

Lemma parse_print v w :
  value_ok (Z.to_nat maxNestingDepth) v = true → white w → parse (of_chars (print L 0 v ++ w)) = Some v.
Proof.
  intros Hok Hw. unfold parse, of_chars. rewrite chars_of.
  pose proof (value_reads v (Z.to_nat maxNestingDepth) 0%nat (S (length (print L 0 v ++ w))) [] w Hok) as H.
  rewrite Z2Nat.id, app_nil_l in H by done. rewrite H; [| done | |].
  - cbn [mbind option_bind]. replace w with (w ++ []) by apply app_nil_r. by rewrite skip_ws_app.
  - destruct w as [|x w]; [done|]. apply ws_ends_number. by inversion Hw.
  - pose proof (cost_print _ v 0%nat Hok). rewrite length_app. lia.
Qed.
End Reading.

Lemma Unmarshal_Marshal v :
  value_ok (Z.to_nat maxNestingDepth) v = true → parse (Marshal v) = Some v.
Proof.
  intros Hok. unfold Marshal. rewrite <- (app_nil_r (print _ _ _)).
  apply parse_print; [intros d| |done|]; constructor.
Qed.

(** White space may follow. *)
Lemma Unmarshal_MarshalIndent v w :
  value_ok (Z.to_nat maxNestingDepth) v = true → Forall (fun c => is_ws c = true) (chars w) →
  parse (MarshalIndent v +:+ w) = Some v.
Proof.
  intros Hok Hw. assert (MarshalIndent v +:+ w = of_chars (print indented 0 v ++ chars w)) as ->.
  { apply chars_inj. unfold MarshalIndent, of_chars. by rewrite chars_app, !chars_of. }
  apply parse_print; [|by repeat constructor|done|done]. intros d. simpl. constructor; [done|].
  induction d as [|d IH]; simpl; [constructor|]. by repeat (constructor; [done|]).
Qed.

Example marshal_indent :
  chars (MarshalIndent (VArr [VNum "1"; VArr [VNull]; VObj []])) =
  chars "[" ++ "010"%char :: chars "  1," ++ "010"%char :: chars "  [" ++ "010"%char ::
  chars "    null" ++ "010"%char :: chars "  ]," ++ "010"%char :: chars "  {}" ++ "010"%char :: chars "]".
Proof. vm_compute. reflexivity. Qed.

Example parse_escapes :
  parse (of_chars (chars " [" ++ dquote :: chars "\u0041\/\ud83d\ude00\ud83d" ++ dquote :: chars ", -1.5e3 ]"))
  = Some (VArr [VStr (of_chars (chars "A/" ++ ["240"; "159"; "152"; "128"; "239"; "191"; "189"]%char));
                VNum "-1.5e3"]).
Proof. vm_compute. reflexivity. Qed.

Example parse_rejects :
  parse "[1,]" = None ∧ parse "01" = None ∧ parse "{} x" = None ∧ parse "nul" = None.
Proof. by vm_compute. Qed.

(** ** What is parsed can be printed *)

Lemma valid_of_chars l : utf8_from O l = true → valid_utf8 (of_chars l) = true.
Proof. intros H. unfold valid_utf8, of_chars. by rewrite chars_of. Qed.

Lemma parse_number_ok depth l v r : parse_number l = Some (v, r) → value_ok depth v = true.
Proof.
  unfold parse_number. destruct (take_number l) as [n r']. destruct (number_literal n) eqn:Hn; [|done].
  intros [= <- _]. simpl. unfold of_chars. by rewrite chars_of.
Qed.

Lemma parse_key_ok l k r : parse_key l = Some (k, r) → valid_utf8 k = true.
Proof.
  unfold parse_key. destruct (skip_ws l) as [|q r1]; [done|]. case_match; [|done].
  destruct (unquote 0 r1) as [[k' r2]|] eqn:Eu; [|done]. simpl.
  destruct (skip_ws r2); [done|]. case_match; [|done]. intros [= <- _].
  by eapply valid_of_chars, unquote_valid.
Qed.

(** A bind that succeeds, taken apart. *)
Ltac bind_some H :=
  match type of H with
  | (_ ← ?o; _) = Some _ =>
      let E := fresh "E" in destruct o as [[? ?]|] eqn:E; [simpl in H|discriminate H]
  end.

Lemma parse_ok_fuel fuel :
  (∀ depth l v r, parse_value fuel (Z.of_nat depth) l = Some (v, r) → value_ok depth v = true) ∧
  (∀ depth l vs r, parse_items fuel (Z.of_nat depth) l = Some (vs, r) →
     forallb (value_ok depth) vs = true) ∧
  (∀ depth l fs r, parse_fields fuel (Z.of_nat depth) l = Some (fs, r) →
     forallb (fun kv => valid_utf8 kv.1 && value_ok depth kv.2) fs = true).
Proof.
  induction fuel as [|fuel (IHv & IHi & IHf)]; [done|]. split_and!.
  - intros depth l v r. cbn [parse_value]. destruct (skip_ws l) as [|c l1]; [done|].
    case_match.
    { intros Hp. bind_some Hp. injection Hp as <- _. simpl. by eapply valid_of_chars, unquote_valid. }
    case_match.
    { destruct (Z.eqb_spec (Z.of_nat depth) 0); [done|]. destruct depth as [|depth]; [done|].
      replace (Z.of_nat (S depth) - 1) with (Z.of_nat depth) by lia.
      destruct (skip_ws l1) as [|x l2]; [done|]. case_match; [by intros [= <- _]|].
      intros Hp. bind_some Hp. injection Hp as <- _. simpl. by eapply IHi. }
    case_match.
    { destruct (Z.eqb_spec (Z.of_nat depth) 0); [done|]. destruct depth as [|depth]; [done|].
      replace (Z.of_nat (S depth) - 1) with (Z.of_nat depth) by lia.
      destruct (skip_ws l1) as [|x l2]; [done|]. case_match; [by intros [= <- _]|].
      intros Hp. bind_some Hp. injection Hp as <- _. simpl. by eapply IHf. }
    do 3 (case_match; [destruct (word _ _); [|done]; by intros [= <- _]|]).
    apply parse_number_ok.
  - intros depth l vs r. cbn [parse_items]. intros Hp. bind_some Hp. apply IHv in E.
    destruct (skip_ws _) as [|x t]; [done|]. case_match.
    + bind_some Hp. injection Hp as <- _. simpl. rewrite E. by eapply IHi.
    + case_match; [|done]. injection Hp as <- _. simpl. by rewrite E.
  - intros depth l fs r. cbn [parse_fields]. intros Hp. bind_some Hp. apply parse_key_ok in E.
    bind_some Hp. apply IHv in E0.
    destruct (skip_ws _) as [|x t]; [done|]. case_match.
    + bind_some Hp. injection Hp as <- _. simpl. rewrite E, E0. by eapply IHf.
    + case_match; [|done]. injection Hp as <- _. simpl. by rewrite E, E0.
Qed.

Lemma parse_ok s v : parse s = Some v → value_ok (Z.to_nat maxNestingDepth) v = true.
Proof.
  unfold parse. intros H.
  destruct (parse_value _ _ _) as [[v' r]|] eqn:E; [|done]. simpl in H.
  destruct (skip_ws r); [|done]. injection H as <-.
  change maxNestingDepth with (Z.of_nat (Z.to_nat maxNestingDepth)) in E at 1.
  by eapply (proj1 (parse_ok_fuel _)).
Qed.

(** Texts determine values. *)
Lemma Marshal_inj v w :
  value_ok (Z.to_nat maxNestingDepth) v = true → value_ok (Z.to_nat maxNestingDepth) w = true →
  Marshal v = Marshal w → v = w.
Proof.
  intros Hv Hw E. apply Unmarshal_Marshal in Hv, Hw. rewrite E in Hv. congruence.
Qed.

(** ** A printed value is one line *)

Notation plain l := (Forall (fun c => (32 <=? code c)%N = true) l).

Lemma high_plain l : Forall (fun c => is_ascii c = false) l → plain l.
Proof.
  intros H. eapply Forall_impl; [exact H|]. intros c Hc. unfold is_ascii in Hc.
  apply N.ltb_ge in Hc. apply N.leb_le. lia.
Qed.

Lemma byte_in_high lo hi c : (128 <= lo)%N → byte_in lo hi c = true → is_ascii c = false.
Proof.
  intros Hlo [H _]%andb_true_iff. apply N.leb_le in H. unfold is_ascii, code. apply N.ltb_ge. lia.
Qed.

(** The bytes of a rune after the first are continuation bytes. *)
Lemma rune_rest_high c l n :
  rune_rest c l = S n → Forall (fun x => is_ascii x = false) (take (S n) l).
Proof.
  destruct l as [|x l]; [done|]. unfold rune_rest.
  destruct (byte_in 194 223 c && byte_in 128 191 x) eqn:H1.
  { intros [= <-]. apply andb_true_iff in H1 as [_ H1]. constructor; [by eapply byte_in_high, H1|constructor]. }
  assert (Hx : ∀ a b d e,
    a && byte_in 160 191 x || b && byte_in 128 191 x || d && byte_in 128 159 x = true ∨
    a && byte_in 144 191 x || b && byte_in 128 191 x || e && byte_in 128 143 x = true →
    is_ascii x = false).
  { intros a b d e. rewrite !orb_true_iff, !andb_true_iff.
    intros [[[[_ H]|[_ H]]|[_ H]]|[[[_ H]|[_ H]]|[_ H]]]; by eapply byte_in_high, H. }
  destruct l as [|y l]; [done|]. case_match eqn:H2.
  { intros [= <-]. apply andb_true_iff in H2 as [H2 Hy].
    repeat constructor; [|by eapply byte_in_high, Hy]. eapply (Hx _ _ _ false). left. exact H2. }
  destruct l as [|z l]; [done|]. case_match eqn:H3; [|done]. intros [= <-].
  apply andb_true_iff in H3 as [[H3 Hy]%andb_true_iff Hz].
  repeat constructor; [|by eapply byte_in_high, Hy|by eapply byte_in_high, Hz].
  eapply (Hx _ _ false _). right. exact H3.
Qed.

Lemma escape_plain l : plain (escape O O l).
Proof.
  induction l as [l IH] using (induction_ltof1 _ (@length ascii)). unfold ltof in IH.
  destruct l as [|c l]; [constructor|]. cbn [escape]. destruct (is_ascii c) eqn:Ha.
  { apply Forall_app. split; [|apply IH; simpl; lia].
    destruct c as [[] [] [] [] [] [] [] []]; try discriminate Ha; by repeat constructor. }
  destruct (rune_rest c l) as [|n] eqn:Er.
  { apply Forall_app. split; [by repeat constructor|]. apply IH. simpl. lia. }
  pose proof (rune_rest_high c l n Er) as Hh.
  destruct (rune_rest_split c l n Er) as (pre & rest & -> & Hl & _).
  rewrite take_app_le in Hh by lia. rewrite <- Hl, firstn_all in Hh.
  destruct (line_separator _ _) as [e|] eqn:El.
  - rewrite <- Hl, escape_drop. apply Forall_app. split; [|apply IH; simpl; rewrite length_app; lia].
    unfold line_separator in El. destruct (pre ++ rest) as [|x [|y t]]; try done.
    repeat case_match; try done; injection El as <-; by repeat constructor.
  - rewrite <- Hl, escape_copy. constructor.
    + assert (Hc : plain [c]) by (apply high_plain; by repeat constructor).
      by apply Forall_cons in Hc as [Hc _].
    + apply Forall_app. split; [by apply high_plain|]. apply IH. simpl. rewrite length_app. lia.
Qed.

Lemma quote_plain s : plain (quote s).
Proof.
  unfold quote. constructor; [done|]. apply Forall_app. split; [apply escape_plain|]. by repeat constructor.
Qed.

Lemma in_number_plain c : in_number c = true → (32 <=? code c)%N = true.
Proof. destruct c as [[] [] [] [] [] [] [] []]; intros H; try discriminate H; reflexivity. Qed.

Lemma separated_plain d l : Forall (fun x => plain x) l → plain (separated compact d l).
Proof.
  intros H. induction H as [|x l Hx Hl IH]; [constructor|]. destruct l as [|y l]; [done|].
  change (separated compact d (x :: y :: l)) with (x ++ ","%char :: separated compact d (y :: l)).
  apply Forall_app. split; [done|]. by constructor.
Qed.

Lemma bracket_plain o c d l :
  (32 <=? code o)%N = true → (32 <=? code c)%N = true → Forall (fun x => plain x) l →
  plain (bracket compact o c d l).
Proof.
  intros Ho Hc Hl. unfold bracket. destruct l as [|x l]; [by repeat constructor|].
  constructor; [done|]. repeat (apply Forall_app; split);
    [constructor|by apply separated_plain|constructor|by repeat constructor].
Qed.

Lemma print_plain depth v d : value_ok depth v = true → plain (print compact d v).
Proof.
  revert depth d. induction v as [|b|t|s|l IH|fs IH] using value_nested_ind; intros depth d Hok.
  - by repeat constructor.
  - destruct b; by repeat constructor.
  - simpl in *. eapply Forall_impl; [by apply literal_numeric|]. apply in_number_plain.
  - apply quote_plain.
  - destruct depth as [|depth]; [done|]. cbn [value_ok print] in *. apply bracket_plain; [done|done|].
    apply Forall_fmap, Forall_forall. intros v Hv. rewrite Forall_forall in IH. simpl.
    apply (IH v Hv depth). rewrite forallb_forall in Hok. apply Hok. by apply list_elem_of_In.
  - destruct depth as [|depth]; [done|]. cbn [value_ok print] in *. apply bracket_plain; [done|done|].
    apply Forall_fmap, Forall_forall. intros [k v] Hv. rewrite Forall_forall in IH. simpl.
    rewrite forallb_forall in Hok.
    pose proof (proj1 (andb_true_iff _ _) (Hok (k, v) (proj1 (list_elem_of_In _ _) Hv))) as Hk.
    apply (Forall_app_2 _ (quote k)); [apply quote_plain|]. constructor; [done|].
    exact (IH (k, v) Hv depth (S d) (proj2 Hk)).
Qed.
