(* ===== verification/JsonStruct.v ===== *)
(** * JSON objects as structs ([encoding/json])

    A struct is decoded field by field: each key of the object is compared with
    the tags regardless of case, a value of the wrong kind is an error, [null] and
    unknown keys change nothing. *)

From Stdlib Require Import Ascii String.
From S2P Require Import Prelude GoStd Text JsonText GoTime.
#[global] Open Scope Z_scope.

(** ** Values of fields *)

Definition two64 : Z := 18446744073709551616.

(** [uint64] *)
Definition dec_uint (v : value) (old : Z) : option Z :=
  match v with
  | VNull => Some old
  | VNum t =>
      match digits_value 0 (chars t) with
      | Some z => if z <? two64 then Some z else None
      | None => None
      end
  | _ => None
  end.

(** [int] and [int64] *)
Definition dec_integer (v : value) (old : Z) : option Z :=
  match v with
  | VNull => Some old
  | VNum t =>
      match int_value (chars t) with
      | Some z => if (min_int64 <=? z) && (z <=? max_int64) then Some z else None
      | None => None
      end
  | _ => None
  end.

Definition dec_text (v : value) (old : string) : option string :=
  match v with VNull => Some old | VStr s => Some s | _ => None end.

Definition dec_when (v : value) (old : Zoned) : option Zoned :=
  match v with VNull => Some old | VStr s => parse_time s | _ => None end.

(** A slice, whose elements are decoded into fresh values. *)
Definition dec_slice {A} (dec : value → option A) (v : value) : option (list A) :=
  match v with VNull => Some [] | VArr l => mapM dec l | _ => None end.

(** ** Structs *)

Section Struct.
Context {R : Type} (tags : list (string * (value → R → option R))).

Fixpoint set_tag (tags : list (string * (value → R → option R))) (k : string) (v : value) (r : R) : option R :=
  match tags with
  | [] => Some r
  | (tag, set) :: tags' => if EqualFold k tag then set v r else set_tag tags' k v r
  end.

Fixpoint set_fields (r : R) (fs : list (string * value)) : option R :=
  match fs with
  | [] => Some r
  | (k, v) :: fs' => r ← set_tag tags k v r; set_fields r fs'
  end.

Definition dec_struct (zero : R) (v : value) : option R :=
  match v with
  | VNull => Some zero
  | VObj fs => set_fields zero fs
  | _ => None
  end.

(** [var r R; json.Unmarshal([]byte(text), &r)] *)
Definition unmarshal (zero : R) (text : string) : option R :=
  v ← parse text; dec_struct zero v.

Lemma set_fields_app r l1 l2 :
  set_fields r (l1 ++ l2) = (r' ← set_fields r l1; set_fields r' l2).
Proof.
  revert r. induction l1 as [|[k v] l1 IH]; intros r; [done|]. cbn [app set_fields].
  destruct (set_tag tags k v r) as [r'|]; [apply IH|done].
Qed.

(** What every setter keeps is kept. *)
Lemma set_fields_keep (P : R → Prop) (ok : value → bool) r fs r' :
  Forall (fun t => ∀ v x y, ok v = true → P x → t.2 v x = Some y → P y) tags →
  forallb (fun kv => ok kv.2) fs = true → P r → set_fields r fs = Some r' → P r'.
Proof.
  intros Ht. revert r. induction fs as [|[k v] fs IH]; intros r Hok Hr; cbn [set_fields]; [by intros [= <-]|].
  cbn [forallb snd] in Hok. apply andb_true_iff in Hok as [Hv Hok].
  destruct (set_tag tags k v r) as [r1|] eqn:E; [|done]. cbn [mbind option_bind]. apply IH; [done|].
  clear IH Hok. induction Ht as [|[tag set] tags' Hset _ IH]; cbn [set_tag] in E; [congruence|].
  destruct (EqualFold k tag); [by eapply Hset|by apply IH].
Qed.
End Struct.

(** Decides the comparisons of known keys. *)
Ltac known_keys :=
  repeat match goal with
  | |- context [EqualFold ?a ?b] =>
      let x := eval vm_compute in (EqualFold a b) in change (EqualFold a b) with x
  end.

(** ** Fields read back *)

Lemma uint_text z : 0 ≤ z → digits_value 0 (chars (int_text z)) = Some z.
Proof.
  intros Hz. unfold int_text. destruct z as [|p|p]; [done| |done].
  destruct (pretty_pos p) as (c & ds & E & _ & _ & Hv).
  change (pretty (Z.pos p)) with (pretty (Npos p)). by rewrite E.
Qed.

Lemma dec_uint_text z old : 0 ≤ z < two64 → dec_uint (VNum (int_text z)) old = Some z.
Proof. intros H. unfold dec_uint. rewrite uint_text by lia. by rewrite (proj2 (Z.ltb_lt _ _)) by lia. Qed.

Lemma dec_integer_text z old :
  min_int64 ≤ z ≤ max_int64 → dec_integer (VNum (int_text z)) old = Some z.
Proof.
  intros H. unfold dec_integer. rewrite (proj1 (proj2 (int_text_spec z))).
  by rewrite !(proj2 (Z.leb_le _ _)) by lia.
Qed.

(** A time is written only if its year has four digits. *)
Lemma dec_when_text t s old :
  t.(z_offset) mod 60 = 0 → marshal_time t = Some s → dec_when (VStr s) old = Some t.
Proof.
  intros Hz Hm. apply parse_marshal_time; [|done]. split; [done|]. unfold marshal_time in Hm.
  destruct (civil _) as [[y m] d]. case_match; [|done]. bool_to_prop. lia.
Qed.

(** ** What is written and read is text *)

Lemma digit_char_ascii d : 0 ≤ d < 10 → is_ascii (digit_char d) = true.
Proof.
  intros H. assert (∃ n, (n < 10)%nat ∧ d = Z.of_nat n) as (n & Hn & ->) by (exists (Z.to_nat d); lia).
  do 10 (destruct n as [|n]; [reflexivity|]). lia.
Qed.

Lemma ascii_utf8 l : Forall (fun c => is_ascii c = true) l → utf8_from O l = true.
Proof. intros H. induction H as [|c l Hc _ IH]; [done|]. by rewrite utf8_from_single. Qed.

Lemma digits_ascii w n : Forall (fun c => is_ascii c = true) (digits w n).
Proof.
  revert n. induction w as [|w IH]; intros n; simpl; [constructor|]. apply Forall_app. split; [done|].
  constructor; [|constructor]. apply digit_char_ascii, Z.mod_pos_bound. lia.
Qed.

Lemma time_text_ascii t : Forall (fun c => is_ascii c = true) (time_text t).
Proof.
  unfold time_text. destruct (civil _) as [[y m] d].
  assert (Hf : ∀ n, Forall (fun c => is_ascii c = true) (fraction_text n)).
  { intros n. unfold fraction_text. destruct (trim_zeros (digits 9 n)) as [|c l] eqn:E; [constructor|].
    constructor; [done|]. rewrite <- E. apply Forall_forall. intros x Hx%trim_zeros_incl.
    pose proof (digits_ascii 9 n) as H. rewrite Forall_forall in H. by apply H. }
  assert (Hz : ∀ o, Forall (fun c => is_ascii c = true) (zone_text o)).
  { intros o. unfold zone_text. destruct (o =? 0); [by repeat constructor|].
    constructor; [by destruct (o <? 0)|]. apply Forall_app. split; [apply digits_ascii|].
    constructor; [done|apply digits_ascii]. }
  repeat first [apply digits_ascii|apply Hf|apply Hz|apply Forall_app; split|constructor; [done|]].
Qed.

Lemma marshal_time_utf8 t s : marshal_time t = Some s → valid_utf8 s = true.
Proof.
  unfold marshal_time. destruct (civil _) as [[y m] d]. case_match; [|done]. intros [= <-].
  apply valid_of_chars, ascii_utf8, time_text_ascii.
Qed.

Lemma marshal_time_inj t1 t2 s :
  t1.(z_offset) mod 60 = 0 → t2.(z_offset) mod 60 = 0 →
  marshal_time t1 = Some s → marshal_time t2 = Some s → t1 = t2.
Proof.
  assert (H : ∀ t, z_offset t mod 60 = 0 → marshal_time t = Some s → parse_time s = Some t).
  { intros t Hz Hm. apply parse_marshal_time; [|done]. split; [done|]. unfold marshal_time in Hm.
    destruct (civil _) as [[y m] d]. case_match; [|done]. bool_to_prop. lia. }
  intros Hz1 Hz2 H1 H2. apply H in H1, H2; try done. congruence.
Qed.

Lemma int_text_inj z1 z2 : int_text z1 = int_text z2 → z1 = z2.
Proof.
  intros E. pose proof (proj1 (proj2 (int_text_spec z1))) as H1.
  pose proof (proj1 (proj2 (int_text_spec z2))) as H2. rewrite E in H1. congruence.
Qed.

Lemma parse_time_zone s t : parse_time s = Some t → t.(z_offset) mod 60 = 0.
Proof.
  assert (Hz : ∀ l o, read_zone l = Some o → o mod 60 = 0).
  { intros l o H. assert (Hx : ∀ x, ((x * 60) mod 60 = 0 ∧ (- (x * 60)) mod 60 = 0)).
    { intros x. split; [apply Z.mod_mul; lia|]. rewrite <- Z.mul_opp_l. apply Z.mod_mul. lia. }
    unfold read_zone in H. destruct l as [|c l]; [done|].
    assert (Hg : ('(h, l1) ← read_digits 2 0 l;
      l2 ← expect ":"%char l1;
      '(m, l3) ← read_digits 2 0 l2;
      in_range 0 24 h;; in_range 0 60 m;;
      match l3 with
      | [] => if c ≟ "+"%char then Some ((h * 60 + m) * 60)
              else if c ≟ "-"%char then Some (- ((h * 60 + m) * 60)) else None
      | _ => None
      end) = Some o → o mod 60 = 0).
    { clear H. destruct (read_digits 2 0 l) as [[h l1]|]; [|done]. cbn [mbind option_bind].
      destruct (expect _ l1) as [l2|]; [|done]. cbn [mbind option_bind].
      destruct (read_digits 2 0 l2) as [[m l3]|]; [|done]. cbn [mbind option_bind].
      destruct (in_range 0 24 h); [|done]. cbn [mbind option_bind]. destruct (in_range 0 60 m); [|done]. cbn [mbind option_bind].
      destruct l3; [|done]. repeat case_match; try done; intros [= <-]; apply Hx. }
    destruct c as [[] [] [] [] [] [] [] []]; try (by apply Hg). destruct l; [by injection H as <-|by apply Hg]. }
  unfold parse_time.
  repeat (match goal with
    | |- (_ ← ?o; _) = Some _ → _ => destruct o as [|] eqn:?; cbn [mbind option_bind]; [|done]
    | |- context [let '(_, _) := ?p in _] => destruct p eqn:?
    | |- context [match ?p with (_, _) => _ end] => destruct p eqn:?
    end; cbn [mbind option_bind]).
  intros [= <-]. cbn. by eapply Hz.
Qed.

Lemma digits_value_nonneg acc l z : 0 ≤ acc → digits_value acc l = Some z → 0 ≤ z.
Proof.
  revert acc. induction l as [|c l IH]; intros acc Ha; cbn [digits_value]; [by intros [= <-]|].
  destruct (is_digit c) eqn:Hc; [|done]. apply IH. unfold digit_value.
  enough (48 <= code c)%N by lia. unfold is_digit, digit in Hc.
  destruct ((48 <=? N_of_ascii c) && (N_of_ascii c <=? 57))%N eqn:E; [|done].
  apply andb_true_iff in E as [E _]. by apply N.leb_le.
Qed.

(** What each kind of field reads keeps a record printable. *)
Lemma dec_text_ok d v old s :
  value_ok d v = true → valid_utf8 old = true → dec_text v old = Some s → valid_utf8 s = true.
Proof. destruct v; cbn; intros Hv Ho; try done; by intros [= <-]. Qed.

Lemma dec_uint_ok v old z : 0 ≤ old < two64 → dec_uint v old = Some z → 0 ≤ z < two64.
Proof.
  destruct v as [| |t| | |]; cbn; intros Ho; try done; [by intros [= <-]|].
  destruct (digits_value 0 (chars t)) as [x|] eqn:E; [|done]. destruct (Z.ltb_spec x two64); [|done].
  intros [= <-]. split; [|done]. by eapply digits_value_nonneg in E.
Qed.

Lemma dec_when_ok v old t : old.(z_offset) mod 60 = 0 → dec_when v old = Some t → t.(z_offset) mod 60 = 0.
Proof. destruct v; cbn; intros Ho; try done; [by intros [= <-]|]. apply parse_time_zone. Qed.
