(* ===== verification/Ledger.v ===== *)
(** * The audit ledger ([internal/audit/ledger.go, recent.go, lock.go])

    Operations are recorded in a file of JSON lines, each with the hash of its
    own fields, among them the hash of the line before.  [Append] verifies the
    whole file before it extends it. *)

From Stdlib Require Import Ascii String.
From S2P Require Import Prelude GoStd Text JsonText JsonStruct GoTime Sha256 Control FileSystem.
#[global] Open Scope Z_scope.

(** What [encoding/json] makes of a number that is not a short integer when it is
    read as a float64 and written again; [None] if it is out of range. *)
Class Floats := {
  float_text : string → option string;
  float_text_literal t u : float_text t = Some u → number_literal (chars u) = true
}.

Module Ledger.

(** ** Values of type [any] *)

Section Any.
Context {F : Floats}.

Definition any_number (t : string) : option string :=
  match int_value (chars t) with
  | Some z => if (Z.abs z <=? 9007199254740992) && (int_text z ≟ t) then Some t else float_text t
  | None => float_text t
  end.

(** [m[k] = v] on a map, whose entries are written in the order of their keys. *)
Fixpoint put_field (k : string) (v : value) (fs : list (string * value)) : list (string * value) :=
  match fs with
  | [] => [(k, v)]
  | (k', v') :: fs' =>
      if k ≟ k' then (k, v) :: fs'
      else if str_less k k' then (k, v) :: fs
      else (k', v') :: put_field k v fs'
  end.

Definition put_fields (fs fs0 : list (string * value)) : list (string * value) :=
  foldl (fun acc kv => put_field kv.1 kv.2 acc) fs0 fs.

(** What a value is after it was decoded into an [any]. *)
Fixpoint as_any (v : value) : option value :=
  match v with
  | VNum t => VNum <$> any_number t
  | VArr l => VArr <$> mapM as_any l
  | VObj fs => (fun fs => VObj (put_fields fs [])) <$> mapM (fun kv => pair kv.1 <$> as_any kv.2) fs
  | _ => Some v
  end.
End Any.

(** ** Records *)

Record Record := mkRecord {
  rec_Seq : Z;
  rec_Time : Zoned;
  rec_Action : string;
  rec_Target : string;
  rec_Status : string;
  rec_Detail : string;
  rec_Fields : list (string * value);
  rec_PrevHash : string;
  rec_Hash : string
}.

#[export] Instance Record_settable : Settable Record :=
  fun r => mkRecord (r.(rec_Seq)) (r.(rec_Time)) (r.(rec_Action)) (r.(rec_Target)) (r.(rec_Status))
    (r.(rec_Detail)) (r.(rec_Fields)) (r.(rec_PrevHash)) (r.(rec_Hash)).

Definition no_record : Record := mkRecord 0 (UTC time_zero) "" "" "" "" [] "" "".

Definition omitempty (k s : string) : list (string * value) :=
  if s ≟ "" then [] else [(k, VStr s)].

Definition omit_fields (fs : list (string * value)) : list (string * value) :=
  match fs with [] => [] | _ :: _ => [("fields", VObj fs)] end.

(** The fields of [unsignedRecord]. *)
Definition unsignedRecord (r : Record) : option (list (string * value)) :=
  t ← marshal_time r.(rec_Time);
  Some ([("seq", VNum (int_text r.(rec_Seq))); ("time", VStr t); ("action", VStr r.(rec_Action))]
    ++ omitempty "target" r.(rec_Target)
    ++ [("status", VStr r.(rec_Status))]
    ++ omitempty "detail" r.(rec_Detail)
    ++ omit_fields r.(rec_Fields)
    ++ omitempty "prev_hash" r.(rec_PrevHash)).

Definition hashRecord (r : Record) : option string :=
  fs ← unsignedRecord r; Some (sha256hex (Marshal (VObj fs))).

(** [json.Marshal(r)] *)
Definition marshal_record (r : Record) : option string :=
  fs ← unsignedRecord r; Some (Marshal (VObj (fs ++ [("hash", VStr r.(rec_Hash))]))).

Section Ledger.
Context {F : Floats}.

Definition dec_map (v : value) (old : list (string * value)) : option (list (string * value)) :=
  match v with
  | VNull => Some []
  | VObj fs =>
      fs' ← mapM (fun kv => pair kv.1 <$> as_any kv.2) fs; Some (put_fields fs' old)
  | _ => None
  end.

Definition record_tags : list (string * (value → Record → option Record)) :=
  [("seq", fun v r => (fun x => r <| rec_Seq := x |>) <$> dec_uint v r.(rec_Seq));
   ("time", fun v r => (fun x => r <| rec_Time := x |>) <$> dec_when v r.(rec_Time));
   ("action", fun v r => (fun x => r <| rec_Action := x |>) <$> dec_text v r.(rec_Action));
   ("target", fun v r => (fun x => r <| rec_Target := x |>) <$> dec_text v r.(rec_Target));
   ("status", fun v r => (fun x => r <| rec_Status := x |>) <$> dec_text v r.(rec_Status));
   ("detail", fun v r => (fun x => r <| rec_Detail := x |>) <$> dec_text v r.(rec_Detail));
   ("fields", fun v r => (fun x => r <| rec_Fields := x |>) <$> dec_map v r.(rec_Fields));
   ("prev_hash", fun v r => (fun x => r <| rec_PrevHash := x |>) <$> dec_text v r.(rec_PrevHash));
   ("hash", fun v r => (fun x => r <| rec_Hash := x |>) <$> dec_text v r.(rec_Hash))].

(** [var r Record; json.Unmarshal([]byte(line), &r)] *)
Definition unmarshal_record (line : string) : option Record := unmarshal record_tags no_record line.

(** ** Scanning *)

Definition newline : ascii := "010"%char.

(** [bufio.ScanLines]: a carriage return before the line break is dropped, and
    after the last line break there is a line only if there is text. *)
Definition drop_cr (l : list ascii) : list ascii :=
  match last l with Some c => if c ≟ "013"%char then removelast l else l | None => l end.

Fixpoint split_lines (cur l : list ascii) : list (list ascii) :=
  match l with
  | [] => match cur with [] => [] | _ => [rev cur] end
  | c :: l' => if c ≟ newline then rev cur :: split_lines [] l' else split_lines (c :: cur) l'
  end.

(** The lines of a file, before carriage returns are dropped. *)
Definition raw_lines (content : string) : list (list ascii) := split_lines [] (chars content).

(** [s.Buffer(buf, 8<<20)]: a longer line is [bufio.ErrTooLong]. *)
Definition max_line : Z := 8388608.

(** The verified records, in order, or the error that the scan ends with. *)
Fixpoint scan_lines (prev : string) (wantSeq : Z) (ls : list (list ascii)) : result (list Record) :=
  match ls with
  | [] => Ok []
  | l :: ls' =>
      if max_line <=? Z.of_nat (length l) then Err "bufio.Scanner: token too long"
      else
        let line := TrimSpace (of_chars (drop_cr l)) in
        if line ≟ "" then scan_lines prev wantSeq ls'
        else
          match unmarshal_record line with
          | None => Err "audit line"
          | Some r =>
              if r.(rec_Seq) ≠? wantSeq then Err "audit sequence mismatch"
              else if r.(rec_PrevHash) ≠? prev then Err "audit prev_hash mismatch"
              else
                match hashRecord r with
                | None => Err "json: error calling MarshalJSON for type time.Time"
                | Some h =>
                    if EqualFold h r.(rec_Hash) then
                      match scan_lines r.(rec_Hash) ((wantSeq + 1) mod two64) ls' with
                      | Ok rs => Ok (r :: rs)
                      | Err e => Err e
                      end
                    else Err "audit hash mismatch"
                end
          end
  end.

Definition scan_content (content : string) : result (list Record) :=
  scan_lines "" 1 (raw_lines content).

Definition head (rs : list Record) : Record := default no_record (last rs).

(** ** Operations on the file *)

Context {E : Env} {O : OS}.

Definition fail {A} (e : string) : Disk A := throw (Failure e).

Definition scanVerifiedLocked (path : string) : Disk (list Record) :=
  c ← ReadFile path;
  match scan_content c with Ok rs => mret rs | Err e => fail e end.

(** The lock is held until the operation returns. *)
Definition acquireLedgerGuard (path : string) : Disk unit :=
  if TrimSpace path ≟ "" then fail "audit path is empty"
  else _ ← OpenCreate (path +:+ ".lock"); touch.

Definition prepareLedgerDir (path : string) : Disk unit :=
  if TrimSpace path ≟ "" then fail "audit path is empty" else MkdirAll (Dir path).

Definition new_record (last : Record) (now : Time) (action target status detail : string)
    (fields : list (string * value)) : Record :=
  mkRecord ((last.(rec_Seq) + 1) mod two64) (UTC now) (TrimSpace action) (TrimSpace target) (TrimSpace status)
    (TrimSpace detail) fields last.(rec_Hash) "".

(** The second half of [appendLocked]. *)
Definition writeRecord (path : string) (r : Record) : Disk Record :=
  if (r.(rec_Action) ≟ "") || (r.(rec_Status) ≟ "")
  then fail "audit action and status are required"
  else
    match hashRecord r with
    | None => fail "json: error calling MarshalJSON for type time.Time"
    | Some h =>
        let r := r <| rec_Hash := h |> in
        match marshal_record r with
        | None => fail "json: error calling MarshalJSON for type time.Time"
        | Some b =>
            f ← OpenCreate path;
            WriteEnd f (b +:+ String newline "");;
            touch;;
            touch;;
            mret r
        end
    end.

Definition appendLocked (path action target status detail : string)
    (fields : list (string * value)) : Disk Record :=
  scanned ← try (scanVerifiedLocked path);
  rs ← match scanned with
       | inr rs => mret rs
       | inl e => if is_not_exist e then mret [] else throw e
       end;
  now ← disk_now;
  writeRecord path (new_record (head rs) now action target status detail fields).

Definition Append (path action target status detail : string) (fields : list (string * value))
    : Disk Record :=
  prepareLedgerDir path;;
  acquireLedgerGuard path;;
  appendLocked path action target status detail fields.

Definition Verify (path : string) : Disk Z :=
  acquireLedgerGuard path;;
  rs ← scanVerifiedLocked path;
  mret (zlen rs).

Definition Head (path : string) : Disk Record :=
  acquireLedgerGuard path;;
  rs ← scanVerifiedLocked path;
  mret (head rs).

(** ** The latest records ([recent.go]) *)

Definition maxRecentRecords : Z := 4096.

Record Ring := mkRing { ring : list Record; r_count : Z; r_next : Z }.

Definition ring_visit (limit : Z) (action : string) (st : Ring) (r : Record) : Ring :=
  if (action ≠? "") && (r.(rec_Action) ≠? action) then st
  else
    mkRing (<[Z.to_nat st.(r_next) := r]> st.(ring))
      (if st.(r_count) <? limit then st.(r_count) + 1 else st.(r_count))
      ((st.(r_next) + 1) mod limit).

(** [for idx < 0 { idx += limit }] adds at most once here. *)
Definition ring_index (limit start i : Z) : Z :=
  let idx := start - i in if idx <? 0 then idx + limit else idx.

Definition ring_read (limit : Z) (st : Ring) : list Record :=
  let start := st.(r_next) - 1 in
  let start := if start <? 0 then start + limit else start in
  (fun i => nth (Z.to_nat (ring_index limit start (Z.of_nat i))) st.(ring) no_record)
    <$> seq 0 (Z.to_nat st.(r_count)).

Definition clamp_limit (limit : Z) : Z :=
  if maxRecentRecords <? limit then maxRecentRecords else limit.

Definition Recent (path : string) (limit : Z) (action : string) : Disk (list Record) :=
  if limit <=? 0 then mret []
  else
    let limit := clamp_limit limit in
    acquireLedgerGuard path;;
    let action := TrimSpace action in
    rs ← scanVerifiedLocked path;
    mret (ring_read limit
      (foldl (ring_visit limit action) (mkRing (replicate (Z.to_nat limit) no_record) 0 0) rs)).

Definition RecentIfExists (path : string) (limit : Z) (action : string) : Disk (list Record) :=
  records ← try (Recent path limit action);
  match records with
  | inr rs => mret rs
  | inl e => if is_not_exist e then mret [] else throw e
  end.
End Ledger.
End Ledger.
