(* ===== verification/LedgerRules.v ===== *)
(** * What the audit ledger promises (internal/audit)

    A ledger that verifies is determined by the hash of its last record, an
    append extends a ledger that verifies to one that verifies, and the latest
    records are the end of the ledger. *)

From Stdlib Require Import Ascii String.
From S2P Require Import Prelude GoStd Text JsonText JsonStruct GoTime Sha256 Control FileSystem Ledger.
#[global] Open Scope Z_scope.

Module LedgerRules.
Import Ledger.

Section Records.
Context {F : Floats}.
Implicit Types (r : Record) (k s : string) (fs : list (string * value)).

(** ** Which records have a text that says everything *)

Definition depth_of_fields : nat := Z.to_nat maxNestingDepth - 2.

Definition fields_printable fs : Prop :=
  Forall (fun kv => valid_utf8 kv.1 && value_ok depth_of_fields kv.2 = true) fs.

Record printable r : Prop := {
  p_seq : 0 ≤ r.(rec_Seq) < two64;
  p_zone : r.(rec_Time).(z_offset) mod 60 = 0;
  p_action : valid_utf8 r.(rec_Action) = true;
  p_target : valid_utf8 r.(rec_Target) = true;
  p_status : valid_utf8 r.(rec_Status) = true;
  p_detail : valid_utf8 r.(rec_Detail) = true;
  p_fields : fields_printable r.(rec_Fields);
  p_prev : valid_utf8 r.(rec_PrevHash) = true;
  p_hash : valid_utf8 r.(rec_Hash) = true
}.

Definition obj_ok fs : bool := value_ok (Z.to_nat maxNestingDepth) (VObj fs).

Lemma obj_ok_forall fs :
  obj_ok fs = forallb (fun kv => valid_utf8 kv.1 && value_ok (Z.to_nat maxNestingDepth - 1) kv.2) fs.
Proof. reflexivity. Qed.

Lemma omitempty_ok k s d :
  valid_utf8 k = true → valid_utf8 s = true →
  forallb (fun kv => valid_utf8 kv.1 && value_ok d kv.2) (omitempty k s) = true.
Proof. intros Hk Hs. unfold omitempty. case_bool_decide; [done|]. simpl. by rewrite Hk, Hs. Qed.

(** The fields of a printable record are a value of JSON. *)
Lemma unsigned_ok r fs : printable r → unsignedRecord r = Some fs → obj_ok fs = true.
Proof.
  intros [Hseq Hz Ha Ht Hs Hd Hf Hp Hh]. unfold unsignedRecord.
  destruct (marshal_time _) as [t|] eqn:Em; [|done]. simpl. intros [= <-].
  apply marshal_time_utf8 in Em. rewrite obj_ok_forall.
  repeat (rewrite forallb_app || cbn [forallb fst snd value_ok]).
  rewrite (omitempty_ok "target"), (omitempty_ok "detail"), (omitempty_ok "prev_hash") by done.
  rewrite (proj1 (int_text_spec _)), Em, Ha, Hs.
  destruct (rec_Fields r) as [|kv l] eqn:El; [done|].
  change (forallb (fun kv => valid_utf8 kv.1 && value_ok depth_of_fields kv.2) (kv :: l) && true && true = true).
  rewrite !andb_true_r. apply forallb_forall. intros x Hx. unfold fields_printable in Hf.
  rewrite Forall_forall in Hf. apply Hf. by apply list_elem_of_In.
Qed.

(** ** The hashed text determines the record but for its hash *)

(** Equal but for the hash, which may differ in the case of its letters. *)
Definition same r1 r2 : Prop :=
  r1 <| rec_Hash := "" |> = r2 <| rec_Hash := "" |> ∧ EqualFold r1.(rec_Hash) r2.(rec_Hash) = true.

Definition starts_other k fs : Prop := match fs with (k', _) :: _ => k' ≠ k | [] => True end.

Lemma omitempty_inj k s1 s2 fs1 fs2 :
  starts_other k fs1 → starts_other k fs2 →
  omitempty k s1 ++ fs1 = omitempty k s2 ++ fs2 → s1 = s2 ∧ fs1 = fs2.
Proof.
  unfold omitempty. intros H1 H2. case_bool_decide as E1; case_bool_decide as E2; simpl; intros E.
  - by subst.
  - subst fs1. simpl in H1. done.
  - subst fs2. simpl in H2. done.
  - by injection E.
Qed.

Lemma fields_inj (l1 l2 : list (string * value)) s1 s2 :
  omit_fields l1 ++ omitempty "prev_hash" s1 = omit_fields l2 ++ omitempty "prev_hash" s2 →
  l1 = l2 ∧ s1 = s2.
Proof.
  assert (Ho : ∀ s1 s2, omitempty "prev_hash" s1 = omitempty "prev_hash" s2 → s1 = s2).
  { clear. intros s1 s2 E. by apply (omitempty_inj "prev_hash" s1 s2 [] []); rewrite ?app_nil_r. }
  destruct l1 as [|kv1 l1], l2 as [|kv2 l2]; cbn [omit_fields app]; intros E.
  - by apply Ho in E.
  - unfold omitempty in E. repeat case_bool_decide; discriminate E.
  - unfold omitempty in E. repeat case_bool_decide; discriminate E.
  - injection E as -> -> E. by apply Ho in E.
Qed.

Lemma unsigned_inj r1 r2 fs :
  r1.(rec_Time).(z_offset) mod 60 = 0 → r2.(rec_Time).(z_offset) mod 60 = 0 →
  unsignedRecord r1 = Some fs → unsignedRecord r2 = Some fs →
  r1 <| rec_Hash := "" |> = r2 <| rec_Hash := "" |>.
Proof.
  unfold unsignedRecord. intros Hz1 Hz2.
  destruct (marshal_time (rec_Time r1)) as [t1|] eqn:E1; [|done].
  destruct (marshal_time (rec_Time r2)) as [t2|] eqn:E2; [|done]. cbn [mbind option_bind].
  intros H1 H2. rewrite <- H2 in H1. apply (inj Some) in H1. cbn [app] in H1.
  injection H1 as Hseq Ht Ha H. subst t2.
  apply omitempty_inj in H as [Htg [= Hst H]]; [|done|done].
  apply omitempty_inj in H as [Hd H];
    [|by destruct (rec_Fields r1); [unfold omitempty; case_bool_decide|]
     |by destruct (rec_Fields r2); [unfold omitempty; case_bool_decide|]].
  apply fields_inj in H as [Hf Hp].
  pose proof (marshal_time_inj _ _ _ Hz1 Hz2 E1 E2) as Htime. apply int_text_inj in Hseq.
  destruct r1, r2; simpl in *. by subst.
Qed.

Definition hashed_text r : option string :=
  fs ← unsignedRecord r; Some (Marshal (VObj fs)).

Lemma hashRecord_text r : hashRecord r = sha256hex <$> hashed_text r.
Proof. unfold hashRecord, hashed_text. by destruct (unsignedRecord r). Qed.

Lemma hashed_text_inj r1 r2 t :
  printable r1 → printable r2 → hashed_text r1 = Some t → hashed_text r2 = Some t →
  r1 <| rec_Hash := "" |> = r2 <| rec_Hash := "" |>.
Proof.
  unfold hashed_text. intros P1 P2. destruct (unsignedRecord r1) as [f1|] eqn:E1; [|done].
  destruct (unsignedRecord r2) as [f2|] eqn:E2; [|done]. cbn [mbind option_bind].
  intros [= H1] [= H2].
  assert (E : VObj f1 = VObj f2).
  { apply Marshal_inj; [exact (unsigned_ok r1 f1 P1 E1)|exact (unsigned_ok r2 f2 P2 E2)|congruence]. }
  injection E as ->. by apply (unsigned_inj r1 r2 f2); [apply P1|apply P2|..].
Qed.

(** ** Decoded records are printable *)

Definition entry_ok (d : nat) (kv : string * value) : bool := valid_utf8 kv.1 && value_ok d kv.2.

Lemma any_number_ok t u :
  number_literal (chars t) = true → any_number t = Some u → number_literal (chars u) = true.
Proof.
  unfold any_number. intros Ht. destruct (int_value _) as [z|]; [case_match|];
    try apply float_text_literal. by intros [= <-].
Qed.

Lemma put_field_ok d k v fs :
  entry_ok d (k, v) = true → forallb (entry_ok d) fs = true → forallb (entry_ok d) (put_field k v fs) = true.
Proof.
  intros Hk. induction fs as [|[k' v'] fs IH]; cbn [put_field forallb]; [by rewrite Hk|].
  intros [H1 H2]%andb_true_iff. repeat case_match; cbn [forallb]; rewrite ?Hk, ?H1, ?H2; auto.
Qed.

Lemma put_fields_ok d fs fs0 :
  forallb (entry_ok d) fs = true → forallb (entry_ok d) fs0 = true →
  forallb (entry_ok d) (put_fields fs fs0) = true.
Proof.
  unfold put_fields. revert fs0. induction fs as [|[k v] fs IH]; intros fs0; [done|].
  cbn [forallb foldl]. intros [H1 H2]%andb_true_iff H0. apply IH; [done|]. by apply put_field_ok.
Qed.

Lemma mapM_forallb {A B} (f : A → option B) (p : A → bool) (q : B → bool) l l' :
  Forall (fun x => ∀ y, p x = true → f x = Some y → q y = true) l →
  mapM f l = Some l' → forallb p l = true → forallb q l' = true.
Proof.
  intros H. revert l'. induction H as [|x l Hx _ IH]; intros l'; cbn; [by intros [= <-]|].
  destruct (f x) as [y|] eqn:Ey; [|done]. cbn. destruct (mapM f l) as [ys|]; [|done]. cbn.
  intros [= <-] [H1 H2]%andb_true_iff. cbn. by rewrite (Hx y), (IH ys).
Qed.

Lemma as_any_ok v w d : value_ok d v = true → as_any v = Some w → value_ok d w = true.
Proof.
  revert w d. induction v as [|b|t|s|l IH|fs IH] using value_nested_ind; intros w d; cbn [as_any].
  - by intros _ [= <-].
  - by intros _ [= <-].
  - intros Ht. destruct (any_number t) as [u|] eqn:E; [|done]. intros [= <-]. cbn in *.
    by eapply any_number_ok.
  - by intros Hs [= <-].
  - destruct d as [|d]; [done|]. cbn [value_ok]. intros Hl.
    destruct (mapM as_any l) as [l'|] eqn:E; [|done]. intros [= <-]. cbn [value_ok].
    eapply mapM_forallb; [|exact E|exact Hl]. eapply Forall_impl; [exact IH|]. cbn. eauto.
  - destruct d as [|d]; [done|]. cbn [value_ok]. intros Hl.
    destruct (mapM _ fs) as [fs'|] eqn:E; [|done]. intros [= <-].
    apply (put_fields_ok d fs' []); [|done].
    eapply mapM_forallb; [|exact E|exact Hl]. eapply Forall_impl; [exact IH|]. cbn.
    intros [k v] Hv kv [Hk Hv']%andb_true_iff. cbn in *.
    destruct (as_any v) as [v'|] eqn:Ev; [|done]. intros [= <-]. unfold entry_ok. cbn.
    by rewrite Hk, (Hv v' d).
Qed.

Lemma no_record_printable : printable no_record.
Proof. split; try done. constructor. Qed.

Lemma fields_printable_forallb fs :
  fields_printable fs ↔ forallb (entry_ok depth_of_fields) fs = true.
Proof.
  unfold fields_printable. rewrite Forall_forall, forallb_forall.
  split; intros H x Hx; apply H; by apply list_elem_of_In.
Qed.

Lemma dec_map_ok v old fs :
  value_ok (S depth_of_fields) v = true → fields_printable old → dec_map v old = Some fs →
  fields_printable fs.
Proof.
  rewrite !fields_printable_forallb. destruct v as [| | | | |l]; cbn [dec_map value_ok]; intros Hv Ho;
    try done; [by intros [= <-]|].
  destruct (mapM _ l) as [fs'|] eqn:E; [|done]. intros [= <-]. apply put_fields_ok; [|done].
  eapply mapM_forallb; [|exact E|exact Hv]. apply Forall_forall. intros [k w] _ kv.
  cbn [fst snd]. intros [Hk Hw]%andb_true_iff. destruct (as_any w) as [w'|] eqn:Ew; [|done]. intros [= <-].
  unfold entry_ok. cbn [fst snd]. by rewrite Hk, (as_any_ok w w' depth_of_fields).
Qed.

Lemma record_tags_ok :
  Forall (fun tag => ∀ v r r', value_ok (S depth_of_fields) v = true → printable r →
    tag.2 v r = Some r' → printable r') record_tags.
Proof.
  unfold record_tags. repeat first [apply List.Forall_nil|apply List.Forall_cons]; intros v r r' Hv [H1 H2 H3 H4 H5 H6 H7 H8 H9]; cbn [snd];
    match goal with |- (_ <$> ?o) = _ → _ => destruct o as [x|] eqn:E; [|done] end;
    intros [= <-]; split; cbn; try done;
    first [by eapply dec_uint_ok, E|by eapply dec_when_ok, E|by eapply dec_text_ok, E|by eapply dec_map_ok, E].
Qed.

Lemma unmarshal_printable line r : unmarshal_record line = Some r → printable r.
Proof.
  unfold unmarshal_record, unmarshal. destruct (parse line) as [v|] eqn:Ep; [|done]. apply parse_ok in Ep.
  cbn [mbind option_bind]. destruct v as [| | | | |fs]; try done; [intros [= <-]; apply no_record_printable|].
  cbn [dec_struct]. intros H. eapply (set_fields_keep _ printable (value_ok (S depth_of_fields)));
    [apply record_tags_ok| |apply no_record_printable|exact H].
  change (forallb (entry_ok (S depth_of_fields)) fs = true) in Ep.
  apply forallb_forall. intros kv Hkv. rewrite forallb_forall in Ep. specialize (Ep kv Hkv).
  by apply andb_true_iff in Ep as [_ Ep].
Qed.

(** ** Chains *)

(** What a scan has checked of consecutive records. *)
Fixpoint chained (prev : string) (seq : Z) (rs : list Record) : Prop :=
  match rs with
  | [] => True
  | r :: rs' =>
      r.(rec_Seq) = seq ∧ r.(rec_PrevHash) = prev ∧ printable r ∧
      (∃ h, hashRecord r = Some h ∧ EqualFold h r.(rec_Hash) = true) ∧
      chained r.(rec_Hash) ((seq + 1) mod two64) rs'
  end.

Lemma scan_chained prev seq ls rs : scan_lines prev seq ls = Ok rs → chained prev seq rs.
Proof.
  revert prev seq rs. induction ls as [|l ls IH]; intros prev seq rs; cbn [scan_lines]; [by intros [= <-]|].
  case_match; [done|]. case_match; [by apply IH|].
  destruct (unmarshal_record _) as [r|] eqn:Eu; [|done].
  destruct (rec_Seq r ≟ seq) eqn:Es; cbn [negb]; [|done].
  destruct (rec_PrevHash r ≟ prev) eqn:Ep; cbn [negb]; [|done].
  destruct (hashRecord r) as [h|] eqn:Eh; [|done]. destruct (EqualFold h (rec_Hash r)) eqn:Ef; [|done].
  destruct (scan_lines _ _ ls) as [rs'|] eqn:E; [|done]. intros [= <-]. cbn [chained].
  apply bool_decide_eq_true in Es, Ep. split_and!; eauto using unmarshal_printable.
Qed.

Lemma content_chained c rs : scan_content c = Ok rs → chained "" 1 rs.
Proof. unfold scan_content. apply scan_chained. Qed.

(** A record that was checked after some others. *)
Definition sealed (prev : string) r : Prop :=
  r.(rec_PrevHash) = prev ∧ printable r ∧
  ∃ h, hashRecord r = Some h ∧ EqualFold h r.(rec_Hash) = true.

Lemma chained_snoc prev seq rs r :
  chained prev seq (rs ++ [r]) →
  chained prev seq rs ∧ sealed (default prev (rec_Hash <$> last rs)) r.
Proof.
  revert prev seq. induction rs as [|x rs IH]; intros prev seq; cbn [app chained].
  - intros (_ & Hp & Hpr & Hh & _). done.
  - intros (Hs & Hp & Hpr & Hh & Hc). destruct (IH _ _ Hc) as [Hc' Hr]. split; [done|].
    rewrite last_cons. by destruct (last rs).
Qed.

Lemma hashed_not_empty r h : hashRecord r = Some h → EqualFold h r.(rec_Hash) = true → r.(rec_Hash) ≠ "".
Proof.
  rewrite hashRecord_text. destruct (hashed_text r) as [t|]; [|done]. intros [= <-] He Hr.
  rewrite Hr in He. unfold EqualFold in He. apply bool_decide_eq_true in He.
  rewrite sha256hex_lower in He. pose proof (sha256hex_length t) as Hl. by rewrite He in Hl.
Qed.

(** The texts hashed in two ledgers are as good as their hashes. *)
Definition no_collision (rs1 rs2 : list Record) : Prop :=
  ∀ r1 r2 t1 t2, r1 ∈ rs1 → r2 ∈ rs2 → hashed_text r1 = Some t1 → hashed_text r2 = Some t2 →
    sha256hex t1 = sha256hex t2 → t1 = t2.

Lemma sealed_same p1 p2 r1 r2 :
  sealed p1 r1 → sealed p2 r2 → EqualFold r1.(rec_Hash) r2.(rec_Hash) = true →
  no_collision [r1] [r2] → same r1 r2 ∧ p1 = p2.
Proof.
  intros (<- & P1 & h1 & H1 & E1) (<- & P2 & h2 & H2 & E2) He Hc.
  rewrite hashRecord_text in H1, H2.
  destruct (hashed_text r1) as [t1|] eqn:T1; [|done]. destruct (hashed_text r2) as [t2|] eqn:T2; [|done].
  injection H1 as <-. injection H2 as <-.
  assert (Hh : sha256hex t1 = sha256hex t2).
  { apply hash_fold. eapply EqualFold_trans; [exact E1|]. eapply EqualFold_trans; [exact He|].
    by apply EqualFold_sym. }
  assert (t1 = t2) as -> by (apply (Hc r1 r2); by (left || done)).
  pose proof (hashed_text_inj r1 r2 t2 P1 P2 T1 T2) as Hs. split; [by split|].
  by apply (f_equal rec_PrevHash) in Hs.
Qed.

Lemma chains_same seq1 seq2 rs1 rs2 :
  chained "" seq1 rs1 → chained "" seq2 rs2 → no_collision rs1 rs2 →
  EqualFold (head rs1).(rec_Hash) (head rs2).(rec_Hash) = true → Forall2 same rs1 rs2.
Proof.
  revert rs2. induction rs1 as [|r1 rs1 IH] using rev_ind; intros rs2 C1 C2 Hc He;
    destruct rs2 as [|r2 rs2 _] using rev_ind; [constructor|..].
  - apply chained_snoc in C2 as [_ (_ & _ & h & Hh & E2)]. exfalso.
    apply (hashed_not_empty r2 h Hh E2). unfold head in He. rewrite last_snoc in He. cbn in He.
    unfold EqualFold in He. apply bool_decide_eq_true in He. by destruct (rec_Hash r2).
  - apply chained_snoc in C1 as [_ (_ & _ & h & Hh & E1)]. exfalso.
    apply (hashed_not_empty r1 h Hh E1). unfold head in He. rewrite last_snoc in He. cbn in He.
    unfold EqualFold in He. apply bool_decide_eq_true in He. by destruct (rec_Hash r1).
  - apply chained_snoc in C1 as [C1 S1]. apply chained_snoc in C2 as [C2 S2].
    unfold head in He. rewrite !last_snoc in He. cbn in He.
    destruct (sealed_same _ _ _ _ S1 S2 He) as [Hs Hp].
    { intros x y t1 t2 Hx%list_elem_of_singleton Hy%list_elem_of_singleton. subst.
      apply Hc; set_solver. }
    apply Forall2_app; [|apply List.Forall2_cons; [done|constructor]]. apply IH; [done|done| |].
    + intros x y t1 t2 Hx Hy. apply Hc; set_solver.
    + unfold head. destruct (last rs1), (last rs2); cbn in *; subst; try apply EqualFold_refl; by rewrite Hp; apply EqualFold_refl.
Qed.
End Records.

(** The ledger is tamper-evident: of two files that verify and end in records
    with the same hash (up to the case of letters), the records are the same one by
    one, in number, order and every field, unless two different texts hashed in
    them have the same SHA-256. *)
Theorem verified_ledgers_with_one_head_agree `{Floats} content1 content2 rs1 rs2 :
  scan_content content1 = Ok rs1 → scan_content content2 = Ok rs2 →
  EqualFold (head rs1).(rec_Hash) (head rs2).(rec_Hash) = true →
  no_collision rs1 rs2 → Forall2 same rs1 rs2.
Proof.
  intros H1 H2 He Hc. apply content_chained in H1, H2. by apply (chains_same 1 1).
Qed.
End LedgerRules.
