(* ===== verification/LedgerAppend.v ===== *)
(** * Appending to the audit ledger, and its latest records (internal/audit)

    A successful [Append] leaves the ledger as it was with one more line, which
    later scans read as the record that was returned; [Recent] gives the last
    records of the scan, the newest first. *)

From Stdlib Require Import Ascii String.
From S2P Require Import Prelude GoStd Text JsonText JsonStruct GoTime Sha256 Control FileSystem Ledger LedgerRules.
#[global] Open Scope Z_scope.

Module LedgerAppend.
Import Ledger LedgerRules.

(** ** A record reads back *)

Section Records.
Context {F : Floats}.
Implicit Types (r : Record) (k s : string) (fs : list (string * value)).

(** Fields as a map has them, with values that are what they are read as. *)
Definition canonical fs : Prop :=
  StronglySorted (fun x y => str_less x.1 y.1 = true) fs ∧ Forall (fun kv => as_any kv.2 = Some kv.2) fs.

Lemma str_less_irrefl s : str_less s s = false.
Proof. destruct (str_less s s) eqn:E; [|done]. by rewrite (less_asym _ _ _ E) in E. Qed.

Lemma put_field_last k v fs :
  Forall (fun kv => str_less kv.1 k = true) fs → put_field k v fs = fs ++ [(k, v)].
Proof.
  intros H. induction H as [|[k' v'] fs Hk _ IH]; [done|]. cbn [put_field fst] in *.
  rewrite bool_decide_eq_false_2 by (intros ->; by rewrite str_less_irrefl in Hk).
  by rewrite (less_asym _ _ _ Hk), IH.
Qed.

Lemma put_fields_sorted fs fs0 :
  StronglySorted (fun x y => str_less x.1 y.1 = true) (fs0 ++ fs) → put_fields fs fs0 = fs0 ++ fs.
Proof.
  revert fs0. induction fs as [|[k v] fs IH]; intros fs0 Hs; [by rewrite app_nil_r|].
  unfold put_fields. cbn [foldl fst snd]. rewrite put_field_last.
  - change (put_fields fs (fs0 ++ [(k, v)]) = fs0 ++ (k, v) :: fs).
    rewrite IH; rewrite <- app_assoc; done.
  - apply Forall_forall. intros x Hx. clear IH. induction fs0 as [|y fs0 IH]; [by apply elem_of_nil in Hx|].
    cbn in Hs. apply StronglySorted_inv in Hs as [Hs Hy]. apply elem_of_cons in Hx as [->|Hx]; [|by apply IH].
    rewrite Forall_forall in Hy. apply (Hy (k, v)). set_solver.
Qed.

Lemma dec_map_canonical fs : canonical fs → dec_map (VObj fs) [] = Some fs.
Proof.
  intros [Hs Hv]. cbn [dec_map].
  assert (mapM (fun kv : string * value => pair kv.1 <$> as_any kv.2) fs = Some fs) as ->.
  { apply mapM_Some. clear Hs. induction Hv as [|[k v] fs Hv _ IH]; constructor; [|done].
    cbn in *. by rewrite Hv. }
  cbn [mbind option_bind]. f_equal. by apply put_fields_sorted.
Qed.

(** A record whose text is read as the record. *)
Record readable r : Prop := {
  rd_printable : printable r;
  rd_fields : canonical r.(rec_Fields)
}.

Lemma set_unsigned r fs :
  readable r → unsignedRecord r = Some fs →
  set_fields record_tags no_record (fs ++ [("hash", VStr r.(rec_Hash))]) = Some r.
Proof.
  intros [[Hseq Hz _ _ _ _ _ _ _] Hf]. unfold unsignedRecord.
  destruct (marshal_time _) as [t|] eqn:Em; [|done]. cbn [mbind option_bind]. intros [= <-].
  assert (Ht : parse_time t = Some (rec_Time r)) by exact (dec_when_text _ _ (UTC time_zero) Hz Em).
  pose proof (dec_uint_text (rec_Seq r) 0 Hseq) as Hn.
  pose proof (dec_map_canonical _ Hf) as Hm. clear Hf Em Hseq Hz.
  destruct r as [seq time a tg st d fls p h]. cbn [rec_Seq rec_Time rec_Action rec_Target rec_Status
    rec_Detail rec_Fields rec_PrevHash rec_Hash] in *.
  unfold omitempty. repeat case_bool_decide; destruct fls as [|kv fls]; subst;
    cbn -[dec_map dec_uint parse_time EqualFold]; known_keys; rewrite Hn; cbn -[dec_map parse_time EqualFold];
    rewrite Ht; cbn -[dec_map EqualFold]; try rewrite Hm; reflexivity.
Qed.

Lemma sealed_fields_ok r fs :
  printable r → unsignedRecord r = Some fs → obj_ok (fs ++ [("hash", VStr r.(rec_Hash))]) = true.
Proof.
  intros Hp Hu. pose proof (unsigned_ok r fs Hp Hu) as H. rewrite obj_ok_forall in *.
  rewrite forallb_app, H. cbn. by rewrite (p_hash r Hp).
Qed.

Lemma record_reads r b : readable r → marshal_record r = Some b → unmarshal_record b = Some r.
Proof.
  intros Hr. unfold marshal_record. destruct (unsignedRecord r) as [fs|] eqn:Hu; [|done].
  cbn [mbind option_bind]. intros [= <-]. unfold unmarshal_record, unmarshal.
  rewrite Unmarshal_Marshal by (apply sealed_fields_ok; [apply Hr|done]). cbn [mbind option_bind].
  by apply set_unsigned.
Qed.

(** ** Its text is a line *)

Definition is_line (l : list ascii) : Prop :=
  (∃ m, l = "{"%char :: m ++ ["}"%char]) ∧ Forall (fun c => (32 <=? code c)%N = true) l.

Lemma marshal_line r b : printable r → marshal_record r = Some b → is_line (chars b).
Proof.
  intros Hp. unfold marshal_record. destruct (unsignedRecord r) as [fs|] eqn:Hu; [|done].
  cbn [mbind option_bind]. intros [= <-]. pose proof (sealed_fields_ok r fs Hp Hu) as Hok.
  unfold Marshal, of_chars. rewrite chars_of. split; [|by eapply print_plain].
  cbn [print]. destruct (fs ++ _) as [|kv l] eqn:E; [by destruct fs|].
  unfold bracket. cbn [fmap list_fmap compact break app]. eauto.
Qed.

Lemma trim_right_ends s l c : chars s = l ++ [c] → is_space c = false → trim_right s = s.
Proof.
  intros E Hc. revert l E. induction s as [|x s IH]; intros l E; [by destruct l|].
  destruct l as [|y l]; cbn in E.
  - injection E as -> E. destruct s; [|done]. cbn. by rewrite Hc.
  - injection E as -> E. cbn. rewrite (IH l E). destruct s; [by destruct l|done].
Qed.

Lemma line_trimmed l : is_line l → TrimSpace (of_chars (drop_cr l)) = of_chars l.
Proof.
  intros [(m & ->) _]. unfold drop_cr. rewrite app_comm_cons, last_snoc. cbn -[of_chars].
  set (s := of_chars _). assert (E : chars s = ("{"%char :: m) ++ ["}"%char]) by apply chars_of.
  assert (trim_left s = s) as Hs by reflexivity. unfold TrimSpace. rewrite Hs.
  by apply (trim_right_ends s _ _ E).
Qed.

(** ** Lines of a longer file *)

Lemma split_lines_line cur l rest :
  newline ∉ l → split_lines cur (l ++ newline :: rest) = (rev cur ++ l) :: split_lines [] rest.
Proof.
  revert cur. induction l as [|c l IH]; intros cur Hl; cbn [app split_lines].
  - by rewrite bool_decide_eq_true_2, app_nil_r.
  - rewrite bool_decide_eq_false_2 by set_solver. rewrite IH by set_solver. cbn. by rewrite <- app_assoc.
Qed.

Lemma split_lines_app cur l rest :
  split_lines cur (l ++ newline :: rest) = split_lines cur (l ++ [newline]) ++ split_lines [] rest.
Proof.
  revert cur. induction l as [|c l IH]; intros cur; cbn [app split_lines].
  - by rewrite bool_decide_eq_true_2.
  - destruct (c ≟ newline); [cbn|]; by rewrite IH.
Qed.

(** No line is unfinished. *)
Definition whole (content : string) : Prop :=
  content = "" ∨ ∃ l, chars content = l ++ [newline].

Lemma raw_lines_app content b :
  whole content → newline ∉ chars b →
  raw_lines (content +:+ b +:+ String newline "") = raw_lines content ++ [chars b].
Proof.
  unfold raw_lines. rewrite !chars_app. intros Hw Hb. change (chars (String newline "")) with [newline].
  assert (Hl : split_lines [] (chars b ++ [newline]) = [chars b]) by by rewrite split_lines_line.
  destruct Hw as [->|(l & ->)]; [exact Hl|]. rewrite <- app_assoc. cbn [app].
  by rewrite split_lines_app, Hl.
Qed.

Lemma whole_append content b : whole (content +:+ b +:+ String newline "").
Proof. right. exists (chars content ++ chars b). by rewrite !chars_app, <- app_assoc. Qed.

(** ** Scanning them *)

Definition next_seq (seq : Z) (rs : list Record) : Z :=
  default seq ((fun r => (r.(rec_Seq) + 1) mod two64) <$> last rs).

Lemma scan_lines_app prev seq ls ls' rs :
  scan_lines prev seq ls = Ok rs →
  scan_lines prev seq (ls ++ ls') =
    match scan_lines (default prev (rec_Hash <$> last rs)) (next_seq seq rs) ls' with
    | Ok rs' => Ok (rs ++ rs')
    | Err e => Err e
    end.
Proof.
  revert prev seq rs. induction ls as [|l ls IH]; intros prev seq rs.
  { intros [= <-]. cbn. by destruct (scan_lines _ _ ls'). }
  cbn [scan_lines app]. case_match; [done|]. case_match; [by apply IH|].
  destruct (unmarshal_record _) as [r|]; [|done].
  destruct (rec_Seq r ≟ seq) eqn:Es; cbn [negb]; [|done].
  destruct (rec_PrevHash r ≟ prev); cbn [negb]; [|done].
  destruct (hashRecord r) as [h|]; [|done]. destruct (EqualFold h _); [|done].
  destruct (scan_lines _ _ ls) as [rs1|] eqn:E; [|done]. intros [= <-]. apply bool_decide_eq_true in Es.
  rewrite (IH _ _ _ E). unfold next_seq. rewrite last_cons. subst seq.
  destruct (last rs1); cbn; by destruct (scan_lines _ _ ls').
Qed.

Lemma scan_one prev seq r h b :
  readable (r <| rec_Hash := h |>) → hashRecord r = Some h → marshal_record (r <| rec_Hash := h |>) = Some b →
  r.(rec_Seq) = seq → r.(rec_PrevHash) = prev → slen b < max_line →
  scan_lines prev seq [chars b] = Ok [r <| rec_Hash := h |>].
Proof.
  intros Hr Hh Hb <- <- Hlen. pose proof (marshal_line _ _ (rd_printable _ Hr) Hb) as Hl.
  cbn [scan_lines]. rewrite chars_length, (proj2 (Z.leb_gt _ _)) by (unfold slen in Hlen; lia).
  rewrite (line_trimmed _ Hl). unfold of_chars. rewrite String.string_of_list_ascii_of_string.
  rewrite bool_decide_eq_false_2 by (intros ->; by destruct Hl as [(m & [=]) _]).
  rewrite (record_reads _ _ Hr Hb).
  change (rec_Seq (r <| rec_Hash := h |>)) with (rec_Seq r).
  change (rec_PrevHash (r <| rec_Hash := h |>)) with (rec_PrevHash r).
  change (rec_Hash (r <| rec_Hash := h |>)) with h.
  change (hashRecord (r <| rec_Hash := h |>)) with (hashRecord r).
  by rewrite !bool_decide_eq_true_2, Hh, EqualFold_refl by done.
Qed.
End Records.

(** ** [Append] *)

Definition contents (fs : FS) (path : string) : string := default "" (read fs path).

Section Appending.
Context {F : Floats} {E : Env} {O : OS}.
Implicit Types (fs : FS) (path c : string).

Lemma h_OpenCreate path c p :
  hoare (fun fs => contents fs path = c) (OpenCreate p)
    (fun fs i => contents fs path = c ∧ fs.(entries) !! p = Some i) (fun fs _ => contents fs path = c).
Proof.
  apply h_syscall; [done|]. intros t fs Hc. destruct (entries fs !! p) as [i|] eqn:Hp; [done|].
  destruct (is_dir fs p); [done|]. destruct (is_dir fs (Dir p)); [|done].
  set (i := unused fs). split; [|by apply lookup_insert_eq]. rewrite <- Hc. unfold contents.
  set (fs1 := fs <| entries := <[p := i]> (entries fs) |>).
  change (fs1 <| inodes := _ |>) with (put i "" t fs1).
  rewrite read_put. destruct (decide (path = p)) as [->|Hn].
  - rewrite bool_decide_eq_true_2 by (unfold fs1; cbn; apply lookup_insert_eq). unfold read, inode_at. by rewrite Hp.
  - rewrite bool_decide_eq_false_2.
    + unfold fs1. by rewrite read_insert, bool_decide_eq_false_2.
    + unfold fs1. cbn. rewrite lookup_insert_ne by done. apply unused_free.
Qed.

Lemma h_WriteEnd path c i b :
  hoare (fun fs => contents fs path = c ∧ fs.(entries) !! path = Some i) (WriteEnd i b)
    (fun fs _ => contents fs path = c +:+ b) (fun _ _ => True).
Proof.
  intros k fs [Hc Hi]. unfold WriteEnd. destruct (fault k); [done|]. unfold contents in *.
  rewrite read_put, bool_decide_eq_true_2 by done. cbn. rewrite <- Hc.
  by rewrite (read_entry _ _ _ Hi).
Qed.

Lemma h_scan_ledger path c :
  hoare (fun fs => contents fs path = c) (scanVerifiedLocked path)
    (fun fs rs => contents fs path = c ∧ scan_content c = Ok rs)
    (fun fs e => contents fs path = c ∧ (is_not_exist e = true → c = "")).
Proof.
  apply (h_seq _ _ _ (fun fs d => contents fs path = c ∧ d = c)
    (fun fs e => contents fs path = c ∧ (is_not_exist e = true → c = ""))); [|done|].
  - eapply h_weaken; [apply (h_ReadFile (fun fs => contents fs path = c))|done|..].
    + cbn. intros fs d [Hc Hd]. split; [done|]. unfold read_at, contents, read in *.
      destruct (inode_at fs path) as [n|]; [|done].
      destruct (i_regular n); [|done]. injection Hd as <-. by rewrite <- Hc.
    + cbn. intros fs e [Hc He]. split; [done|]. intros Hn. destruct He as [He|He]; [|congruence].
      unfold read_at, contents, read in *. destruct (inode_at fs path) as [n|]; [|by rewrite <- Hc].
      destruct (i_regular n); [done|]. injection He as <-. done.
  - intros d. apply h_pre with (d = c); [by intros fs []|]. intros ->.
    destruct (scan_content c) as [rs|e] eqn:Es.
    + apply h_ret. by intros fs [Hc _].
    + apply h_throw. by intros fs [Hc _].
Qed.

(** What is asked of the arguments: the texts are UTF-8, and the fields a JSON
    object that is written as it is read, with a line that is not too long. *)
Record fit (action target status detail : string) (fields : list (string * value)) : Prop := {
  fit_action : valid_utf8 (TrimSpace action) = true;
  fit_target : valid_utf8 (TrimSpace target) = true;
  fit_status : valid_utf8 (TrimSpace status) = true;
  fit_detail : valid_utf8 (TrimSpace detail) = true;
  fit_fields : fields_printable fields;
  fit_canonical : canonical fields
}.

Definition short r : Prop := ∀ b, marshal_record r = Some b → slen b < max_line.

Lemma head_printable c rs : scan_content c = Ok rs → printable (head rs).
Proof.
  intros H%content_chained. unfold head. destruct rs as [|r rs _] using rev_ind; [apply no_record_printable|].
  apply chained_snoc in H as (_ & _ & Hr & _). by rewrite last_snoc.
Qed.

Lemma new_record_readable c rs now action target status detail fields h t :
  scan_content c = Ok rs → fit action target status detail fields →
  let r := new_record (head rs) now action target status detail fields in
  h = sha256hex t → readable (r <| rec_Hash := h |>).
Proof.
  intros Hc [Ha Ht Hs Hd Hf Hcan] r ->. pose proof (head_printable c rs Hc) as Hp.
  split; [|done]. split; try done.
  - apply Z.mod_pos_bound. done.
  - apply Hp.
  - cbn. unfold valid_utf8. apply ascii_utf8. eapply Forall_impl; [apply sha256hex_hex|].
    intros x. destruct x as [[] [] [] [] [] [] [] []]; vm_compute; done.
Qed.

Lemma appended_scan c rs now action target status detail fields h b :
  let r := new_record (head rs) now action target status detail fields in
  scan_content c = Ok rs → whole c → fit action target status detail fields →
  hashRecord r = Some h → marshal_record (r <| rec_Hash := h |>) = Some b → slen b < max_line →
  scan_content (c +:+ b +:+ String newline "") = Ok (rs ++ [r <| rec_Hash := h |>]).
Proof.
  intros r Hc Hw Hfit Hh Hb Hlen. pose proof Hh as Ht. rewrite hashRecord_text in Ht.
  destruct (hashed_text r) as [t|] eqn:E'; [|done]. injection Ht as Ht.
  pose proof (new_record_readable c rs now _ _ _ _ _ h t Hc Hfit (eq_sym Ht)) as Hr.
  pose proof (marshal_line _ _ (rd_printable _ Hr) Hb) as [_ Hl].
  unfold scan_content. rewrite raw_lines_app; [|done|].
  - rewrite (scan_lines_app _ _ _ _ rs Hc).
    rewrite (scan_one _ _ r h b Hr Hh Hb); [done| |by destruct rs as [|? ? _] using rev_ind;
      unfold r, head; rewrite ?last_snoc|done].
    unfold next_seq, r, new_record, head. destruct (last rs); reflexivity.
  - intros Hn. rewrite Forall_forall in Hl. by specialize (Hl _ Hn).
Qed.

(** Writing a record after the records of a ledger. *)
Lemma h_writeRecord path c rs now action target status detail fields :
  whole c → fit action target status detail fields → scan_content c = Ok rs →
  hoare (fun fs => contents fs path = c)
    (writeRecord path (new_record (head rs) now action target status detail fields))
    (fun fs r => short r → whole (contents fs path) ∧ scan_content (contents fs path) = Ok (rs ++ [r]))
    (fun _ _ => True).
Proof.
  intros Hw Hfit Hc. unfold writeRecord. case_match; [by apply h_throw|].
  destruct (hashRecord _) as [h|] eqn:Hh; [|by apply h_throw]. cbv zeta.
  destruct (marshal_record _) as [b|] eqn:Hb; [|by apply h_throw].
  eapply h_seq; [apply h_OpenCreate|done|]. intros i.
  eapply h_seq; [apply h_WriteEnd|done|]. intros [].
  do 2 (eapply h_seq; [apply h_touch|done|]; intros []).
  apply h_ret. intros fs Hfs Hs. rewrite Hfs. split; [apply whole_append|].
  eapply appended_scan; eauto.
Qed.

Lemma h_write_now path c rs action target status detail fields :
  whole c → fit action target status detail fields → scan_content c = Ok rs →
  hoare (fun fs => contents fs path = c)
    (now ← disk_now; writeRecord path (new_record (head rs) now action target status detail fields))
    (fun fs r => short r → ∃ rs, scan_content c = Ok rs ∧ whole (contents fs path) ∧
       scan_content (contents fs path) = Ok (rs ++ [r])) (fun _ _ => True).
Proof.
  intros Hw Hfit Hc. apply (h_seq _ _ _ (fun fs _ => contents fs path = c) (fun _ _ => True));
    [by intros k fs Hfs|done|]. intros now.
  eapply h_weaken; [by apply (h_writeRecord path c rs)|done| |done]. intros fs r H Hs. eauto.
Qed.

Lemma h_guard path c :
  hoare (fun fs => contents fs path = c) (acquireLedgerGuard path)
    (fun fs _ => contents fs path = c) (fun fs _ => contents fs path = c).
Proof.
  unfold acquireLedgerGuard. case_match; [by apply h_throw|].
  apply (h_seq _ _ _ (fun fs _ => contents fs path = c) (fun fs _ => contents fs path = c)); [|done|intros _].
  - eapply h_weaken; [apply (h_OpenCreate path c)|done|by intros fs i []|done].
  - eapply h_weaken; [apply (h_touch (fun fs => contents fs path = c))|done|done|by intros fs e []].
Qed.

Lemma h_prepare path c :
  hoare (fun fs => contents fs path = c) (prepareLedgerDir path)
    (fun fs _ => contents fs path = c) (fun fs _ => contents fs path = c).
Proof.
  unfold prepareLedgerDir. case_match; [by apply h_throw|]. apply h_MkdirAll. by intros fs l Hfs.
Qed.

Lemma h_append path c action target status detail fields :
  whole c → fit action target status detail fields →
  hoare (fun fs => contents fs path = c) (Append path action target status detail fields)
    (fun fs r => short r → ∃ rs, scan_content c = Ok rs ∧ whole (contents fs path) ∧
       scan_content (contents fs path) = Ok (rs ++ [r])) (fun _ _ => True).
Proof.
  intros Hw Hfit. set (P := fun fs => contents fs path = c). unfold Append.
  eapply h_seq; [apply (h_prepare path c)|done|intros []].
  eapply h_seq; [apply (h_guard path c)|done|intros []].
  unfold appendLocked.
  apply (h_attempt _ _ _ _ _ _ _ (h_scan_ledger path c)).
  - intros rs. apply h_pre with (scan_content c = Ok rs); [by intros fs []|]. intros Hc.
    apply (h_bind _ _ _ (fun fs rs' => P fs ∧ rs' = rs)); [apply h_ret; by intros fs []|].
    intros rs'. apply h_pre with (rs' = rs); [by intros fs []|]. intros Hrs. rewrite Hrs.
    eapply h_before; [by apply (h_write_now path c rs)|by intros fs []].
  - intros e. destruct (is_not_exist e) eqn:He.
    + apply h_pre with (c = ""); [by intros fs [_ H]; auto|]. intros Hc.
      apply (h_bind _ _ _ (fun fs rs' => P fs ∧ rs' = [])); [apply h_ret; by intros fs []|].
      intros rs'. apply h_pre with (rs' = []); [by intros fs []|]. intros Hrs. rewrite Hrs.
      eapply h_before; [apply (h_write_now path c []); [done|done|by subst c]|by intros fs []].
    + apply (h_bind _ _ _ (fun fs rs' => False)); [by apply h_throw|]. intros rs' k fs [].
Qed.

Lemma h_append_broken path c e action target status detail fields :
  scan_content c = Err e →
  hoare (fun fs => contents fs path = c) (Append path action target status detail fields)
    (fun _ _ => False) (fun fs _ => contents fs path = c).
Proof.
  intros Hc. unfold Append.
  eapply h_seq; [apply (h_prepare path c)|done|intros []].
  eapply h_seq; [apply (h_guard path c)|done|intros []].
  unfold appendLocked. apply (h_attempt _ _ _ _ _ _ _ (h_scan_ledger path c)).
  - intros rs. apply h_pre with False; [intros fs []; congruence|done].
  - intros err. destruct (is_not_exist err) eqn:He.
    + apply h_pre with (c = ""); [by intros fs [_ H]; auto|]. by intros ->.
    + apply (h_bind _ _ _ (fun fs rs' => False)); [by apply h_throw; intros fs []|]. intros rs' k fs [].
Qed.
End Appending.

(** ** [Recent] *)

Section Latest.
Context {F : Floats}.
Implicit Types (r : Record) (rs ms : list Record).

Definition matches (action : string) r : bool := (action ≟ "") || (r.(rec_Action) ≟ action).

(** The ring holds the last records of [ms], each at its number modulo the size. *)
Record holds (limit : Z) ms (st : Ring) : Prop := {
  hd_length : Z.of_nat (length st.(ring)) = limit;
  hd_count : st.(r_count) = Z.min (zlen ms) limit;
  hd_next : st.(r_next) = zlen ms mod limit;
  hd_at j : zlen ms - st.(r_count) ≤ Z.of_nat j < zlen ms →
    st.(ring) !! Z.to_nat (Z.of_nat j mod limit) = ms !! j
}.

Lemma wrapped limit a i : 0 ≤ a < limit → 0 ≤ i ≤ limit →
  (if a - i <? 0 then a - i + limit else a - i) = (a - i) mod limit.
Proof.
  intros Ha Hi. destruct (Z.ltb_spec (a - i) 0).
  - rewrite <- (Z_mod_plus_full (a - i) 1 limit), Z.mod_small; lia.
  - symmetry. apply Z.mod_small. lia.
Qed.

Lemma same_slot limit i j : 0 < limit → i mod limit = j mod limit → Z.abs (i - j) < limit → i = j.
Proof.
  intros Hl Hm Ha. pose proof (Z.div_mod i limit ltac:(lia)) as Hi.
  pose proof (Z.div_mod j limit ltac:(lia)) as Hj. rewrite Hm in Hi.
  generalize dependent (i / limit). generalize dependent (j / limit). intros q Hj p Hi.
  destruct (Z.eq_dec p q); [congruence|]. nia.
Qed.

Definition push (limit : Z) (st : Ring) r : Ring :=
  mkRing (<[Z.to_nat st.(r_next) := r]> st.(ring))
    (if st.(r_count) <? limit then st.(r_count) + 1 else st.(r_count)) ((st.(r_next) + 1) mod limit).

Lemma ring_visit_push limit action st r :
  ring_visit limit action st r = if matches action r then push limit st r else st.
Proof.
  unfold ring_visit, matches. destruct (action ≟ ""); [done|]. by destruct (rec_Action r ≟ action).
Qed.

Lemma holds_push limit ms st r : 0 < limit → holds limit ms st → holds limit (ms ++ [r]) (push limit st r).
Proof.
  intros Hl [H1 H2 H3 H4].
  assert (Hlen : zlen (ms ++ [r]) = zlen ms + 1) by (unfold zlen; rewrite length_app; cbn; lia).
  pose proof (Z.mod_pos_bound (zlen ms) limit Hl) as Hn. assert (0 ≤ zlen ms) by (unfold zlen; lia).
  split; cbn [push ring r_count r_next]; rewrite ?Hlen, ?length_insert.
  - done.
  - rewrite H2. destruct (Z.ltb_spec (Z.min (zlen ms) limit) limit); lia.
  - by rewrite H3, Zplus_mod_idemp_l.
  - intros j Hj.
    assert (Hc : (if r_count st <? limit then r_count st + 1 else r_count st) = Z.min (zlen ms + 1) limit)
      by (rewrite H2; destruct (Z.ltb_spec (Z.min (zlen ms) limit) limit); lia).
    rewrite Hc in Hj. rewrite H3. destruct (decide (j = length ms)) as [->|Hne].
    + change (Z.of_nat (length ms)) with (zlen ms).
      rewrite list_lookup_insert_eq by lia. rewrite lookup_app_r by lia. by rewrite Nat.sub_diag.
    + unfold zlen in *. rewrite lookup_app_l by lia. rewrite list_lookup_insert_ne.
      * apply H4. lia.
      * intros E. pose proof (Z.mod_pos_bound (Z.of_nat j) limit Hl). apply Z2Nat.inj in E; [|lia|lia].
        apply (same_slot limit) in E; lia.
Qed.

Lemma ring_holds limit action rs ms st :
  0 < limit → holds limit ms st →
  holds limit (ms ++ List.filter (matches action) rs) (foldl (ring_visit limit action) st rs).
Proof.
  intros Hl. revert ms st. induction rs as [|r rs IH]; intros ms st Hst; cbn [foldl List.filter];
    [by rewrite app_nil_r|].
  rewrite ring_visit_push. destruct (matches action r); [|by apply IH].
  rewrite cons_middle, app_assoc. by apply IH, holds_push.
Qed.

Lemma ring_reads limit ms st :
  0 < limit → holds limit ms st → ring_read limit st = take (Z.to_nat limit) (reverse ms).
Proof.
  intros Hl [H1 H2 H3 H4]. assert (Hz : zlen ms = Z.of_nat (length ms)) by done.
  apply list_eq. intros i. unfold ring_read. rewrite list_lookup_fmap.
  destruct (decide (Z.of_nat i < r_count st)) as [Hi|Hi].
  - rewrite lookup_seq_lt by lia. rewrite lookup_take_lt by lia. rewrite reverse_lookup by lia.
    pose proof (Z.mod_pos_bound (zlen ms) limit Hl) as Hn.
    cbn [fmap option_fmap option_map]. rewrite H3.
    rewrite (wrapped limit) by lia. unfold ring_index. pose proof (Z.mod_pos_bound (zlen ms mod limit - 1) limit Hl).
    rewrite (wrapped limit) by lia. rewrite Zminus_mod_idemp_l, <- Z.sub_add_distr, Zminus_mod_idemp_l.
    replace (zlen ms - (1 + Z.of_nat (0 + i))) with (Z.of_nat (length ms - S i)) by lia.
    specialize (H4 (length ms - S i)%nat ltac:(lia)). rewrite <- H4.
    destruct (lookup_lt_is_Some_2 (ring st) (Z.to_nat (Z.of_nat (length ms - S i) mod limit))) as [x Hx].
    { pose proof (Z.mod_pos_bound (Z.of_nat (length ms - S i)) limit Hl). lia. }
    rewrite Hx. f_equal. by rewrite nth_lookup, Hx.
  - rewrite lookup_seq_ge by lia. cbn. symmetry. apply lookup_ge_None. rewrite length_take, length_reverse. lia.
Qed.

Lemma holds_empty limit : 0 < limit → holds limit [] (mkRing (replicate (Z.to_nat limit) no_record) 0 0).
Proof.
  intros Hl. split; cbn [ring r_count r_next].
  - rewrite length_replicate. lia.
  - change (zlen (@nil Record)) with 0. lia.
  - done.
  - change (zlen (@nil Record)) with 0. lia.
Qed.

Lemma recent_of_records limit action rs :
  0 < limit →
  ring_read limit
    (foldl (ring_visit limit action) (mkRing (replicate (Z.to_nat limit) no_record) 0 0) rs) =
  take (Z.to_nat limit) (reverse (List.filter (matches action) rs)).
Proof.
  intros Hl. apply ring_reads; [done|]. by apply (ring_holds limit action rs []), holds_empty.
Qed.
End Latest.

Lemma h_Recent `{F : Floats} `{E : Env} `{O : OS} path limit action c :
  0 < limit →
  hoare (fun fs => contents fs path = c) (Recent path limit action)
    (fun fs out => contents fs path = c ∧ ∃ rs, scan_content c = Ok rs ∧
       out = take (Z.to_nat (Z.min limit maxRecentRecords))
               (reverse (List.filter (matches (TrimSpace action)) rs)))
    (fun fs _ => contents fs path = c).
Proof.
  intros Hl. unfold Recent. rewrite (proj2 (Z.leb_gt _ _)) by lia. cbv zeta.
  eapply h_seq; [apply (h_guard path c)|done|intros []].
  eapply h_seq; [apply (h_scan_ledger path c)|by intros fs e []|intros rs].
  apply h_ret. intros fs [Hc Hs]. split; [done|]. exists rs. split; [done|].
  assert (clamp_limit limit = Z.min limit maxRecentRecords) as ->
    by (unfold clamp_limit; destruct (Z.ltb_spec maxRecentRecords limit); lia).
  apply recent_of_records. unfold maxRecentRecords. lia.
Qed.

(** C15. A successful [Append] extends the ledger by the record it returns: if
    every line of the file is finished, and the arguments are UTF-8 texts and
    fields as JSON has them, and the line of the record is one that the scan can
    read (under 8 MiB), then the ledger that was there verifies (a missing one is
    empty), and the file now verifies as its records followed by the new one,
    again with every line finished, whatever calls fail elsewhere. *)
Theorem append_extends_the_ledger `{F : Floats} `{E : Env} `{O : OS} path action target status detail fields
    k fs k' fs' r :
  whole (contents fs path) → fit action target status detail fields → short r →
  Append path action target status detail fields k fs = (k', fs', inr r) →
  ∃ rs, scan_content (contents fs path) = Ok rs ∧ whole (contents fs' path) ∧
    scan_content (contents fs' path) = Ok (rs ++ [r]).
Proof.
  intros Hw Hfit Hs Ha.
  pose proof (h_append path _ _ _ _ _ _ Hw Hfit k fs eq_refl) as H'. rewrite Ha in H'. by apply H'.
Qed.

(** A ledger that does not verify is never extended: on a file with a record
    out of sequence, a wrong hash or an unreadable line, [Append] fails and leaves
    the content of the file as it is. *)
Theorem append_refuses_a_broken_ledger `{F : Floats} `{E : Env} `{O : OS} path action target status detail fields
    k fs k' fs' e res :
  scan_content (contents fs path) = Err e →
  Append path action target status detail fields k fs = (k', fs', res) →
  (∃ err, res = inl err) ∧ contents fs' path = contents fs path.
Proof.
  intros Hc Ha.
  pose proof (h_append_broken path _ e action target status detail fields Hc k fs eq_refl) as H'.
  rewrite Ha in H'. destruct res; [eauto|done].
Qed.

(** C26. [Recent] is the end of the verified ledger: when it succeeds, it returns
    the records of the requested action (all, if none is named), the newest first,
    as many as were asked for and at most 4096; the ring buffer it fills during the
    scan loses none of them and repeats none, and the file is left as it is. *)
Theorem recent_is_the_end_of_the_ledger `{F : Floats} `{E : Env} `{O : OS} path limit action k fs k' fs' out :
  0 < limit →
  Recent path limit action k fs = (k', fs', inr out) →
  ∃ rs, scan_content (contents fs path) = Ok rs ∧ contents fs' path = contents fs path ∧
    out = take (Z.to_nat (Z.min limit 4096))
            (reverse (List.filter (matches (TrimSpace action)) rs)).
Proof.
  intros Hl Hr. pose proof (h_Recent path limit action _ Hl k fs eq_refl) as H'.
  rewrite Hr in H'. destruct H' as (Hc & rs & Hs & Ho). eauto.
Qed.
End LedgerAppend.
