(* ===== verification/LedgerDemo.v ===== *)
(** * The audit ledger on concrete files

    Witnesses for the theorems on the ledger, and the inputs on which a ledger
    that was written by [Append] alone no longer verifies. *)

From Stdlib Require Import Ascii String.
From S2P Require Import Prelude GoStd Text JsonText JsonStruct GoTime Sha256 Control FileSystem Ledger LedgerRules LedgerAppend.
#[global] Open Scope Z_scope.

Module LedgerDemo.
Import Ledger LedgerRules LedgerAppend.

#[export] Instance env : Env := {|
  clock k := (days_of 2026 3 7 * day_seconds + Z.of_nat k) * Second;
  fresh_token _ := "t"
|}.

(** No number of the examples needs rounding. *)
#[export] Program Instance no_floats : Floats := {| float_text _ := None |}.
Next Obligation. done. Qed.

(** A disk whose write at one point keeps only part of the text. *)
Definition torn (k : nat) (keep : string → string) : OS := {|
  fault i := if (i =? k)%nat then Some "no space left on device" else None;
  partial _ c := keep c;
  dir_size _ := 4096;
  temp_name := @temp_name reliable;
  temp_name_prefix := @temp_name_prefix reliable;
  temp_name_free := @temp_name_free reliable
|}.

Definition path : string := "/a/audit.jsonl".
Definition State : Type := nat * FS.
Definition after {A} (r : nat * FS * (FileError + A)) : State := (r.1.1, r.1.2).
Definition append_with (os : OS) (st : State) (action detail : string) :=
  Append (O := os) path action "me" "ok" detail [("n", VNum "3")] st.1 st.2.
Definition append st action detail := append_with reliable st action detail.

Definition empty_state : State := (0%nat, from_files []).
Definition state1 : State := Eval vm_compute in after (append empty_state "backup" "").
Definition state2 : State := Eval vm_compute in after (append state1 "verify" "all sound").
Definition ledger1 : string := Eval vm_compute in contents state1.2 path.
Definition ledger2 : string := Eval vm_compute in contents state2.2 path.

Definition verified (c : string) : list Record :=
  match scan_content c with Ok rs => rs | Err _ => [] end.

(** The same two records with blank lines between them and after them. *)
Definition spaced : string := Eval vm_compute in
  match raw_lines ledger2 with
  | [a; b] => String newline "" +:+ of_chars a +:+ of_chars [newline; newline; " "; newline]%char +:+ of_chars b
  | _ => ""
  end.

Definition agreeing (rs1 rs2 : list Record) : bool :=
  forallb (fun r1 => forallb (fun r2 =>
    match hashed_text r1, hashed_text r2 with
    | Some t1, Some t2 => (t1 ≟ t2) || negb (sha256hex t1 ≟ sha256hex t2)
    | _, _ => true
    end) rs2) rs1.

Lemma agreeing_no_collision rs1 rs2 : agreeing rs1 rs2 = true → no_collision rs1 rs2.
Proof.
  unfold agreeing. intros H r1 r2 t1 t2 H1 H2 E1 E2 E. rewrite forallb_forall in H.
  specialize (H r1 (proj1 (list_elem_of_In _ _) H1)). rewrite forallb_forall in H.
  specialize (H r2 (proj1 (list_elem_of_In _ _) H2)). rewrite E1, E2 in H.
  apply orb_true_iff in H as [H|H]; [by apply bool_decide_eq_true in H|].
  apply negb_true_iff, bool_decide_eq_false in H. done.
Qed.

(** On a ledger of two records and the same ledger with other blank lines. *)
Theorem verified_ledgers_with_one_head_agree_witness :
  spaced ≠ ledger2 ∧ Forall2 same (verified ledger2) (verified spaced).
Proof.
  split; [by vm_compute|].
  apply (verified_ledgers_with_one_head_agree ledger2 spaced).
  - vm_compute. reflexivity.
  - vm_compute. reflexivity.
  - vm_compute. reflexivity.
  - apply agreeing_no_collision. vm_compute. reflexivity.
Defined.

Definition appended : Record := Eval vm_compute in
  match (append state1 "verify" "all sound").2 with inr r => r | inl _ => no_record end.

Lemma short_of r b : marshal_record r = Some b → (slen b <? max_line) = true → short r.
Proof. intros Hb Hl b'. rewrite Hb. intros [= <-]. by apply Z.ltb_lt. Qed.

Lemma demo_fit action detail :
  valid_utf8 (TrimSpace action) = true → valid_utf8 (TrimSpace detail) = true →
  fit action "me" "ok" detail [("n", VNum "3")].
Proof.
  intros Ha Hd. split; try done; [by repeat constructor|]. split; by repeat constructor.
Qed.

(** C15, on the second record of a ledger. *)
Theorem append_extends_the_ledger_witness :
  ∃ rs, scan_content ledger1 = Ok rs ∧ whole ledger2 ∧ scan_content ledger2 = Ok (rs ++ [appended]).
Proof.
  apply (append_extends_the_ledger (O := reliable) path "verify" "me" "ok" "all sound" [("n", VNum "3")]
    state1.1 state1.2 state2.1 state2.2 appended).
  - right. exists (removelast (chars ledger1)). vm_compute. reflexivity.
  - apply demo_fit; vm_compute; reflexivity.
  - eapply short_of; [vm_compute; reflexivity|vm_compute; reflexivity].
  - vm_compute. reflexivity.
Defined.

(** C26, on a ledger of two records. *)
Theorem recent_is_the_end_of_the_ledger_witness :
  ∃ rs, scan_content ledger2 = Ok rs ∧
    (Recent (O := reliable) path 1 " verify " state2.1 state2.2).2 =
      inr (take 1 (reverse (List.filter (matches "verify") rs))).
Proof.
  destruct (recent_is_the_end_of_the_ledger (O := reliable) path 1 " verify " state2.1 state2.2
    (state2.1 + 3)%nat (Recent (O := reliable) path 1 " verify " state2.1 state2.2).1.2 [appended])
    as (rs & Hs & _ & Ho); [done|vm_compute; reflexivity|].
  exists rs. split; [exact Hs|]. transitivity (@inr FileError _ [appended]); [vm_compute; reflexivity|].
  f_equal. exact Ho.
Defined.

Definition succeeded {A} (r : FileError + A) : bool := match r with inr _ => true | inl _ => false end.

(** A detail that is no UTF-8 is hashed as it is and read back as U+FFFD: the
    append succeeds, and from then on the ledger neither verifies nor grows. *)
Example invalid_text_breaks_the_ledger :
  let st := after (append state1 "verify" (of_chars ["255"%char])) in
  succeeded (append state1 "verify" (of_chars ["255"%char])).2 ∧
  scan_content (contents st.2 path) = Err "audit hash mismatch" ∧
  (append st "backup" "").2 = inl (Failure "audit hash mismatch").
Proof. vm_compute. done. Qed.

(** What a failing write leaves stays in the file, and blocks every later append. *)
Example torn_write_blocks_the_ledger :
  let os := torn (state1.1 + 6) (fun c => of_chars (take 20 (chars c))) in
  let st := after (append_with os state1 "verify" "") in
  (append_with os state1 "verify" "").2 = inl (Failure "no space left on device") ∧
  (append st "backup" "").2 = inl (Failure "audit line").
Proof. vm_compute. done. Qed.

(** Where only the line break is lost the ledger verifies, and the next append
    reports success while it joins two records to a line that cannot be read. *)
Example lost_line_break_breaks_the_ledger :
  let os := torn (state1.1 + 6) (fun c => of_chars (removelast (chars c))) in
  let st := after (append_with os state1 "verify" "") in
  let st' := after (append st "backup" "") in
  (append_with os state1 "verify" "").2 = inl (Failure "no space left on device") ∧
  zlen (verified (contents st.2 path)) = 2 ∧
  succeeded (append st "backup" "").2 ∧
  scan_content (contents st'.2 path) = Err "audit line".
Proof. vm_compute. done. Qed.
End LedgerDemo.
