(* ===== verification/FileTree.v ===== *)
(** * Directories and handles

    The calls on directories and open files that programs over several files need:
    temporary directories, exclusive creation, reading through a handle, renaming
    and removing a tree. *)

From Stdlib Require Import Ascii String.
From S2P Require Import Prelude GoStd Text GoTime Control FileSystem.
#[global] Open Scope Z_scope.

(** The name [os.MkdirTemp] finds free. *)
Class TempDirs := {
  temp_dir : FS → string → string → string;
  temp_dir_name fs dir pat : ∃ t, "/"%char ∉ chars t ∧ temp_dir fs dir pat = join dir (pat +:+ t);
  temp_dir_free fs dir pat :
    occupied fs (temp_dir fs dir pat) = false ∧ is_dir fs (temp_dir fs dir pat) = false;
  temp_dir_empty fs dir pat q : q ∈ fs.(dirs) → under (temp_dir fs dir pat) q = false
}.

Section Tree.
Context {E : Env} {O : OS} {T : TempDirs}.

Definition MkdirTemp (dir pat : string) : Disk string := syscall (fun _ fs =>
  if is_dir fs dir then
    let p := temp_dir fs dir pat in (fs <| dirs := {[p]} ∪ fs.(dirs) |>, inr p)
  else (fs, inl (missing fs dir))).

(** A new empty file at a free name. *)
Definition new_file (p : string) (t : Time) (fs : FS) : FS * (FileError + positive) :=
  if is_dir fs p then (fs, inl (Failure (p +:+ ": is a directory")))
  else if is_dir fs (Dir p) then
    let i := unused fs in
    (put i "" t (fs <| entries := <[p := i]> fs.(entries) |>), inr i)
  else (fs, inl (missing fs p)).

(** [os.OpenFile(p, os.O_CREATE|os.O_EXCL|os.O_WRONLY, ...)] *)
Definition CreateExcl (p : string) : Disk positive := syscall (fun t fs =>
  if occupied fs p then (fs, inl (Failure (p +:+ ": file exists"))) else new_file p t fs).

(** [os.OpenFile(p, os.O_CREATE|os.O_TRUNC|os.O_WRONLY, ...)] *)
Definition CreateTrunc (p : string) : Disk positive := syscall (fun t fs =>
  match fs.(entries) !! p with
  | Some i => (put i "" t fs, inr i)
  | None => new_file p t fs
  end).

(** [os.Open]: the handle keeps the inode. *)
Definition Open (p : string) : Disk positive := syscall (fun _ fs => (fs,
  match fs.(entries) !! p with
  | Some i => if (inode fs i).(i_regular) then inr i else inl (Failure (p +:+ ": cannot be read"))
  | None => inl (if is_dir fs p then Failure (p +:+ ": is a directory") else missing fs p)
  end)).

(** [io.ReadFull] at an offset: the bytes that are there, at most [n]. *)
Definition ReadFull (i : positive) (off n : nat) : Disk (list ascii) := syscall (fun _ fs =>
  (fs, inr (take n (drop off (chars (inode fs i).(i_content)))))).

(** *** Renaming a directory *)

Definition moved (a b p : string) : string :=
  if under a p then join b (TrimPrefix p (a +:+ "/")) else p.

Definition moved_dir (a b p : string) : string := if p ≟ a then b else moved a b p.

Definition RenameDir (a b : string) : Disk unit := syscall (fun _ fs =>
  if negb (is_dir fs a) then (fs, inl (missing fs a))
  else if under a b then (fs, inl (Failure (b +:+ ": invalid argument")))
  else if occupied fs b then (fs, inl (Failure (b +:+ ": not a directory")))
  else if existsb (under b) ((map_to_list fs.(entries)).*1 ++ elements fs.(dirs))
  then (fs, inl (Failure (b +:+ ": file exists")))
  else if negb (is_dir fs (Dir b)) then (fs, inl (missing fs (Dir b)))
  else (fs <| entries := kmap (moved a b) fs.(entries) |>
           <| dirs := set_map (moved_dir a b) fs.(dirs) |>, inr tt)).

(** [os.RemoveAll], whose errors are ignored: every entry is tried, the deepest
    directories before those above them. *)
Fixpoint remove_each (l : list string) : Disk unit :=
  match l with [] => mret tt | p :: l' => try (Remove p);; remove_each l' end.

Definition RemoveAll (p : string) : Disk unit :=
  r ← try (syscall (fun _ fs => (fs, inr (files_under fs p ++
    rev (walk_order (List.filter (under p) (elements fs.(dirs))))))));
  match r with inr l => remove_each (l ++ [p]) | inl _ => mret tt end.

(** [os.WriteFile] *)
Definition WriteFile (p c : string) : Disk unit :=
  i ← CreateTrunc p;
  Write i c;;
  touch.

(** [f.Stat().Size()] of an open file. *)
Definition HandleSize (i : positive) : Disk Z := syscall (fun _ fs =>
  (fs, inr (slen (inode fs i).(i_content)))).

(** A deferred call whose error is ignored. *)
Definition finally {A} (last : Disk unit) (p : Disk A) : Disk A :=
  r ← try p;
  try last;;
  match r with inr a => mret a | inl e => throw e end.
End Tree.

(** ** Paths *)

Lemma prefix_chars s p : HasPrefix s p = true ↔ ∃ t, chars s = chars p ++ t.
Proof.
  unfold HasPrefix. revert s. induction p as [|x p IH]; intros s.
  { split; [intros _; by exists (chars s)|]. by destruct s. }
  destruct s as [|y s]; simpl.
  { split; [done|]. by intros [t [=]]. }
  destruct (ascii_dec x y) as [->|Hn].
  - rewrite IH. split; intros [t Ht]; exists t; [by rewrite Ht|by injection Ht].
  - split; [done|]. intros [t [= ? _]]. congruence.
Qed.

Lemma under_spec r p : under r p = true ↔ ∃ t, chars p = chars r ++ "/"%char :: t.
Proof.
  unfold under. rewrite prefix_chars, chars_app. split; intros [t Ht]; exists t; rewrite Ht;
    by rewrite <- app_assoc.
Qed.

Lemma chars_join a n : chars (join a n) = chars a ++ "/"%char :: chars n.
Proof. unfold join. by rewrite !chars_app. Qed.

Lemma under_join r n : under r (join r n) = true.
Proof. apply under_spec. exists (chars n). apply chars_join. Qed.

Lemma join_inj a n n' : join a n = join a n' → n = n'.
Proof.
  intros H%(f_equal chars). rewrite !chars_join in H. apply app_inv_head in H. injection H as H.
  by apply chars_inj.
Qed.

Lemma join_not_under a n n' : "/"%char ∉ chars n' → under (join a n) (join a n') = false.
Proof.
  intros Hn. destruct (under _ _) eqn:E; [|done]. apply under_spec in E as [t Ht]. exfalso.
  rewrite !chars_join, <- app_assoc in Ht. apply app_inv_head in Ht. injection Ht as Ht.
  apply Hn. rewrite Ht. set_solver.
Qed.

(** What is below one name of a directory is not below another. *)
Lemma join_apart a n n' x : "/"%char ∉ chars n → "/"%char ∉ chars n' → n ≠ n' →
  under (join a n) (join (join a n') x) = false.
Proof.
  intros H1 H2 Hn. destruct (under _ _) eqn:E; [|done]. apply under_spec in E as [t Ht]. exfalso.
  rewrite !chars_join, <- !app_assoc in Ht. apply app_inv_head in Ht. injection Ht as Ht.
  apply Hn, chars_inj. revert Ht H1 H2. generalize (chars n), (chars n'). intros l l'. revert l.
  induction l' as [|y l' IH]; intros [|x0 l] E H1 H2; simpl in E; try done.
  - injection E as <- _. set_solver.
  - injection E as -> _. set_solver.
  - injection E as -> E. f_equal. apply (IH l); [done|set_solver|set_solver].
Qed.

Lemma join_longer a n : (String.length a < String.length (join a n))%nat.
Proof. rewrite <- !chars_length, chars_join, length_app. simpl. lia. Qed.

Lemma substring_all s : String.substring 0 (String.length s) s = s.
Proof. induction s as [|x s IH]; simpl; [done|]. by rewrite IH. Qed.

Lemma substring_app p s : String.substring (String.length p) (String.length s) (p +:+ s) = s.
Proof. induction p as [|x p IH]; [apply substring_all|done]. Qed.

Lemma TrimPrefix_app p s : TrimPrefix (p +:+ s) p = s.
Proof.
  unfold TrimPrefix. rewrite (proj2 (prefix_chars _ _)) by (exists (chars s); apply chars_app).
  replace (String.length (p +:+ s) - String.length p)%nat with (String.length s); [apply substring_app|].
  rewrite <- !chars_length, chars_app, length_app. lia.
Qed.

Lemma moved_join a b n : moved a b (join a n) = join b n.
Proof.
  unfold moved. rewrite under_join. f_equal. unfold join. rewrite <- text_assoc. apply TrimPrefix_app.
Qed.

Lemma under_inv r p : under r p = true → ∃ n, p = join r n.
Proof.
  intros [t Ht]%under_spec. exists (String.string_of_list_ascii t). apply chars_inj.
  by rewrite chars_join, chars_of.
Qed.

(** The directories above a path are prefixes of it. *)
Lemma names_concat p : String.concat "/" (names p) = p.
Proof. apply chars_inj. unfold names. by rewrite cut_names_concat. Qed.

Lemma joined_app sep l1 l2 : l1 ≠ [] → l2 ≠ [] →
  String.concat sep (l1 ++ l2) = String.concat sep l1 +:+ sep +:+ String.concat sep l2.
Proof.
  intros H1 H2. induction l1 as [|x l1 IH]; [done|]. destruct l1 as [|y l1].
  - simpl. by destruct l2.
  - change (x +:+ sep +:+ String.concat sep ((y :: l1) ++ l2) =
      (x +:+ sep +:+ String.concat sep (y :: l1)) +:+ sep +:+ String.concat sep l2).
    rewrite IH by done. by rewrite !text_assoc.
Qed.

Lemma ancestors_under q p : q ∈ ancestors p → under q p = true.
Proof.
  unfold ancestors. intros (k & -> & Hk%elem_of_seq)%list_elem_of_fmap. apply under_spec.
  exists (chars (String.concat "/" (drop k (names p)))).
  rewrite <- (names_concat p) at 1. rewrite <- (take_drop k (names p)) at 1. rewrite joined_app.
  - by rewrite !chars_app.
  - intros H%(f_equal length). rewrite length_take in H. simpl in H. lia.
  - intros H%(f_equal length). rewrite length_drop in H. simpl in H. lia.
Qed.

Lemma under_longer r p : under r p = true → (String.length r < String.length p)%nat.
Proof. intros [n ->]%under_inv. apply join_longer. Qed.

(** ** Files and what leaves them alone *)

(** A regular file, its inode and its content. *)
Definition file_at (fs : FS) (p : string) (i : positive) (c : string) : Prop :=
  fs.(entries) !! p = Some i ∧ (inode fs i).(i_regular) = true ∧ (inode fs i).(i_content) = c.

Section Files.
Implicit Types (fs : FS) (p q : string) (i j : positive).

Lemma file_at_read fs p i c : file_at fs p i c → read fs p = Some c.
Proof. intros (H & _ & Hc). rewrite (read_entry _ _ _ H). by rewrite Hc. Qed.

Lemma file_at_dirs fs l p i c : file_at fs p i c → file_at (fs <| dirs := l |>) p i c.
Proof. done. Qed.

Lemma inode_put i j c t fs : inode (put i c t fs) j = if bool_decide (j = i) then mkInode true c t else inode fs j.
Proof.
  unfold inode, put. cbn. case_bool_decide as H.
  - subst. by rewrite lookup_insert_eq.
  - by rewrite lookup_insert_ne.
Qed.

Lemma file_at_put fs p i c t : fs.(entries) !! p = Some i → file_at (put i c t fs) p i c.
Proof. intros H. unfold file_at. by rewrite inode_put, bool_decide_eq_true_2. Qed.

Lemma file_at_put_ne fs p i j c c' t : file_at fs p j c → j ≠ i → file_at (put i c' t fs) p j c.
Proof. intros H Hj. unfold file_at. by rewrite inode_put, bool_decide_eq_false_2. Qed.

Lemma file_at_new fs p q i c t :
  file_at fs q i c → q ≠ p →
  file_at (put (unused fs) "" t (fs <| entries := <[p := unused fs]> fs.(entries) |>)) q i c.
Proof.
  intros (H1 & H2 & H3) Hq. apply file_at_put_ne; [|intros ->; by apply (unused_free fs q)].
  split; [|done]. cbn. by rewrite lookup_insert_ne.
Qed.

Lemma file_at_created fs p t :
  file_at (put (unused fs) "" t (fs <| entries := <[p := unused fs]> fs.(entries) |>)) p (unused fs) "".
Proof. apply file_at_put. cbn. by rewrite lookup_insert_eq. Qed.

Lemma file_at_delete fs p q i c :
  file_at fs q i c → q ≠ p → file_at (fs <| entries := delete p fs.(entries) |>) q i c.
Proof. intros (H1 & H2) Hq. split; [|done]. cbn. by rewrite lookup_delete_ne. Qed.

Lemma file_at_inode fs p q i j c d : file_at fs p i c → file_at fs q j d → i = j → c = d.
Proof. intros (_ & _ & <-) (_ & _ & <-). by intros ->. Qed.

Lemma is_dir_intro fs d : d ∈ fs.(dirs) → is_dir fs d = true.
Proof. intros H. unfold is_dir. by rewrite bool_decide_eq_true_2. Qed.

Lemma not_dir_spec fs p :
  is_dir fs p = false ↔ p ∉ fs.(dirs) ∧ ∀ q i, fs.(entries) !! q = Some i → under p q = false.
Proof.
  unfold is_dir. rewrite orb_false_iff, bool_decide_eq_false. split; intros [H1 H2]; (split; [done|]).
  - intros q i Hq. destruct (under p q) eqn:E; [|done]. rewrite (existsb_intro _ _ q) in H2; [done| |done].
    apply list_elem_of_fmap. exists (q, i). split; [done|]. by apply elem_of_map_to_list.
  - destruct (existsb _ _) eqn:E; [|done]. apply existsb_exists in E as (q & Hq & Hu).
    apply list_elem_of_In, list_elem_of_fmap in Hq as ([q' i] & -> & Hi%elem_of_map_to_list). simpl in Hu.
    by rewrite (H2 q' i Hi) in Hu.
Qed.

Lemma not_occupied_spec fs p : occupied fs p = false ↔ fs.(entries) !! p = None.
Proof. unfold occupied. rewrite bool_decide_eq_false. symmetry. apply eq_None_not_Some. Qed.

(** Renaming a directory renames the files below it. *)
Lemma lookup_kmap_inj {V} (f : string → string) (m : gmap string V) k v :
  (∀ k1 k2, is_Some (m !! k1) → is_Some (m !! k2) → f k1 = f k2 → k1 = k2) →
  m !! k = Some v → (kmap f m : gmap string V) !! f k = Some v.
Proof.
  intros Hinj Hk. unfold kmap. apply elem_of_list_to_map_1.
  - rewrite <- list_fmap_compose.
    assert (Hf : fst ∘ prod_map f id = (f ∘ fst : string * V → string)) by done. rewrite Hf.
    rewrite list_fmap_compose. apply NoDup_fmap_2_strong; [|apply NoDup_fst_map_to_list].
    intros k1 k2 H1 H2. apply Hinj.
    + apply list_elem_of_fmap in H1 as ([a b] & -> & H%elem_of_map_to_list). eauto.
    + apply list_elem_of_fmap in H2 as ([a b] & -> & H%elem_of_map_to_list). eauto.
  - apply list_elem_of_fmap. exists (k, v). split; [done|]. by apply elem_of_map_to_list.
Qed.

Lemma moved_inj fs a b p q :
  is_dir fs b = false → is_Some (fs.(entries) !! p) → is_Some (fs.(entries) !! q) →
  moved a b p = moved a b q → p = q.
Proof.
  intros Hb [i Hi] [j Hj]. apply not_dir_spec in Hb as [_ Hb]. unfold moved.
  destruct (under a p) eqn:Hp, (under a q) eqn:Hq.
  - apply under_inv in Hp as [n ->], Hq as [n' ->]. unfold join at 2 4. rewrite <- !text_assoc, !TrimPrefix_app.
    by intros ->%join_inj.
  - intros <-. specialize (Hb _ _ Hj). by rewrite under_join in Hb.
  - intros ->. specialize (Hb _ _ Hi). by rewrite under_join in Hb.
  - done.
Qed.

Lemma file_at_moved fs a b n i c l :
  is_dir fs b = false → file_at fs (join a n) i c →
  file_at (fs <| entries := kmap (moved a b) fs.(entries) |> <| dirs := l |>) (join b n) i c.
Proof.
  intros Hb (H1 & H2). split; [|done]. cbn. rewrite <- (moved_join a b n).
  apply lookup_kmap_inj; [|done]. intros p q. by apply moved_inj.
Qed.
End Files.

(** Nothing but the name [p] has changed, and no inode that a name has. *)
Definition apart (p : string) (fs fs' : FS) : Prop :=
  (∀ q, q ≠ p → fs'.(entries) !! q = fs.(entries) !! q) ∧
  (∀ q j, fs.(entries) !! q = Some j → inode fs' j = inode fs j).

(** ** Programs on a disk that does not fail *)

Section Total.
Context {E : Env} {O : OS} {T : TempDirs} (Hrel : ∀ k, fault k = None).
Implicit Types (fs : FS) (P : FS → Prop).

(** The program returns a result. *)
Definition runs {A} P (p : Disk A) (Q : FS → A → Prop) : Prop := hoare P p Q (fun _ _ => False).

Lemma t_call {A} P (f : Time → FS → FS * (FileError + A)) Q :
  (∀ t fs, P fs → match f t fs with (fs', inr a) => Q fs' a | _ => False end) → runs P (syscall f) Q.
Proof.
  intros H k fs HP. unfold syscall. rewrite Hrel. specialize (H (clock k) fs HP).
  by destruct (f (clock k) fs) as [fs' [e|a]].
Qed.

Lemma t_bind {A B} P (p : Disk A) (f : A → Disk B) Q' Q :
  runs P p Q' → (∀ a, runs (fun fs => Q' fs a) (f a) Q) → runs P (p ≫= f) Q.
Proof. apply h_bind. Qed.

Lemma t_try {A} P (p : Disk A) Q : runs P p Q → runs P (try p) (fun fs r => ∃ a, r = inr a ∧ Q fs a).
Proof. intros H. apply h_try. eapply h_weaken; [exact H|done|eauto|done]. Qed.

Lemma t_weaken {A} P' (p : Disk A) Q' P Q :
  runs P' p Q' → (∀ fs, P fs → P' fs) → (∀ fs a, Q' fs a → Q fs a) → runs P p Q.
Proof. intros H HP HQ. by eapply h_weaken. Qed.

Lemma t_ret {A} P (a : A) Q : (∀ fs, P fs → Q fs a) → runs P (mret a) Q.
Proof. apply h_ret. Qed.

Lemma t_pre {A} (φ : Prop) P (p : Disk A) Q : (∀ fs, P fs → φ) → (φ → runs P p Q) → runs P p Q.
Proof. apply h_pre. Qed.

Lemma t_on_error {A} P undo (p : Disk A) Q : runs P p Q → runs P (on_error undo p) Q.
Proof. intros H. eapply h_on_error; [exact H|]. intros e k fs []. Qed.

(** A call that only looks. *)
Lemma t_look {A} P (f : FS → A) : runs P (syscall (fun _ fs => (fs, inr (f fs)))) (fun fs a => P fs ∧ a = f fs).
Proof. by apply t_call. Qed.

Lemma t_touch P : runs P touch (fun fs _ => P fs).
Proof. by apply t_call. Qed.

Lemma t_now P : runs P disk_now (fun fs a => P fs ∧ ∃ k, a = clock k).
Proof. intros k fs H. split; [done|]. by exists k. Qed.

Lemma t_finally {A} P (p : Disk A) last Q :
  runs P p Q → (∀ a, runs (fun fs => Q fs a) last (fun fs _ => Q fs a)) → runs P (finally last p) Q.
Proof.
  intros Hp Hl. unfold finally. eapply t_bind; [by apply t_try|]. intros r.
  apply t_pre with (∃ a, r = inr a); [intros fs (a & -> & _); eauto|]. intros [a ->].
  apply (t_bind _ _ _ (fun fs _ => Q fs a)).
  - eapply t_weaken; [apply t_try, (Hl a)|by intros fs (a' & [= <-] & H)|by intros fs r (u & _ & H)].
  - intros r. by apply t_ret.
Qed.

Lemma t_Open P p i c : (∀ fs, P fs → file_at fs p i c) → runs P (Open p) (fun fs a => P fs ∧ a = i).
Proof. intros H. apply t_call. intros t fs HP. destruct (H fs HP) as (H1 & H2 & _). by rewrite H1, H2. Qed.

Lemma t_ReadFile P p i c : (∀ fs, P fs → file_at fs p i c) → runs P (ReadFile p) (fun fs a => P fs ∧ a = c).
Proof.
  intros H. apply t_call. intros t fs HP. destruct (H fs HP) as (H1 & H2 & H3). unfold read_at, inode_at.
  rewrite H1. cbn. by rewrite H2.
Qed.

Lemma t_Stat P p i c :
  (∀ fs, P fs → file_at fs p i c) → runs P (Stat p) (fun fs a => P fs ∧ a.(fi_size) = slen c).
Proof.
  intros H. apply t_call. intros t fs HP. destruct (H fs HP) as (H1 & H2 & H3). unfold stat_at.
  rewrite H1. cbn. by rewrite H3.
Qed.

(** A name that nothing has. *)
Definition nowhere fs p : Prop :=
  occupied fs p = false ∧ is_dir fs p = false ∧ ∀ q, q ∈ ancestors p → fs.(entries) !! q = None.

Lemma t_Stat_nowhere P p :
  (∀ fs, P fs → nowhere fs p) →
  runs P (try (Stat p)) (fun fs r => P fs ∧ ∃ e, r = inl e ∧ is_not_exist e = true).
Proof.
  intros H. apply h_try. unfold Stat. intros k fs HP. unfold syscall. rewrite Hrel.
  destruct (H fs HP) as (H1 & H2 & H3). unfold stat_at. apply not_occupied_spec in H1. rewrite H1, H2.
  split; [done|]. eexists. split; [done|]. unfold missing.
  destruct (existsb _ _) eqn:Ex; [|done]. apply existsb_exists in Ex as (q & Hq & Hs).
  apply list_elem_of_In, H3 in Hq. apply bool_decide_eq_true in Hs as [x Hs]. congruence.
Qed.

(** A file that is made at a free name in a directory. *)
Lemma t_new P p Q :
  (∀ fs, P fs → is_dir fs p = false ∧ is_dir fs (Dir p) = true) →
  (∀ t fs, P fs →
     Q (put (unused fs) "" t (fs <| entries := <[p := unused fs]> fs.(entries) |>)) (unused fs)) →
  (∀ fs, P fs → occupied fs p = false) →
  runs P (CreateExcl p) Q ∧ runs P (CreateTrunc p) Q.
Proof.
  intros Hd HQ Ho. split; apply t_call; intros t fs HP; destruct (Hd fs HP) as [H1 H2]; pose proof (Ho fs HP) as H3.
  - rewrite H3. unfold new_file. rewrite H1, H2. by apply HQ.
  - apply not_occupied_spec in H3. rewrite H3. unfold new_file. rewrite H1, H2. by apply HQ.
Qed.

Lemma t_Write P i c Q : (∀ t fs, P fs → Q (put i c t fs) tt) → runs P (Write i c) Q.
Proof. intros H k fs HP. unfold Write. rewrite Hrel. by apply H. Qed.

Lemma t_WriteEnd P i c Q :
  (∀ t fs, P fs → Q (put i ((inode fs i).(i_content) +:+ c) t fs) tt) → runs P (WriteEnd i c) Q.
Proof. intros H k fs HP. unfold WriteEnd. rewrite Hrel. by apply H. Qed.

(** Removing what is in a tree changes nothing outside. *)
Lemma t_Remove P p Q :
  (∀ fs, P fs → Q fs) → (∀ fs, P fs → Q (fs <| entries := delete p fs.(entries) |>)) →
  (∀ fs l, P fs → Q (fs <| dirs := l |>)) → runs P (try (Remove p)) (fun fs _ => Q fs).
Proof.
  intros H1 H2 H3. apply h_try. intros k fs HP. unfold Remove, syscall. rewrite Hrel.
  destruct (occupied fs p); [by apply H2|]. destruct (negb _); [by apply H1|].
  destruct (existsb _ _); [by apply H1|by apply H3].
Qed.

Lemma t_RemoveAll P root :
  (∀ fs l, P fs → P (fs <| dirs := l |>)) →
  (∀ fs p, P fs → p = root ∨ under root p = true → P (fs <| entries := delete p fs.(entries) |>)) →
  runs P (RemoveAll root) (fun fs _ => P fs).
Proof.
  intros H1 H2. unfold RemoveAll.
  eapply t_bind; [apply t_try, (t_look P)|]. intros r.
  apply t_pre with (∃ fs, r = inr (files_under fs root ++
    rev (walk_order (List.filter (under root) (elements fs.(dirs)))))).
  { intros fs (l & -> & _ & ->). by exists fs. }
  intros [fs0 ->]. set (l := _ ++ [root]).
  assert (Hl : ∀ p, p ∈ l → p = root ∨ under root p = true).
  { unfold l, walk_order. intros p. rewrite !elem_of_app, elem_of_files_under, list_elem_of_singleton.
    intros [[[Hu _]|Hr]| ->]; [by right|right|by left].
    rewrite list_elem_of_In, <- in_rev, <- list_elem_of_In, elem_of_sort_slice, list_elem_of_In, filter_In in Hr.
    by destruct Hr. }
  apply t_weaken with P (fun fs _ => P fs); [|by intros fs (l' & _ & Hfs & _)|done].
  clearbody l. induction l as [|p l IH]; cbn [remove_each]; [by apply t_ret|].
  eapply t_bind; [apply (t_Remove P p P); [done| |auto]|]. 
  - intros fs Hfs. apply H2; [done|]. apply Hl. set_solver.
  - intros r0. apply IH. intros q Hq. apply Hl. set_solver.
Qed.
End Total.
