(* ===== verification/TempFiles.v ===== *)
(** * Temporary files

    A new file is written under a temporary name and then renamed: rules for an
    invariant that does not see inodes without a name, and that temporary names do
    not disturb. *)

From Stdlib Require Import Ascii String.
From S2P Require Import Prelude GoStd Text GoTime Control FileSystem FileTree.
#[global] Open Scope Z_scope.

Section Temp.
Context {E : Env} {O : OS} (J : FS → Prop) (spare : string → Prop).
Implicit Types (fs : FS) (p q name : string) (i : positive).

(** The invariant does not see an inode that has no name, *)
Hypothesis blind : ∀ fs i c t, J fs → (∀ q, fs.(entries) !! q ≠ Some i) → J (put i c t fs).
(** nor a new temporary name, *)
Hypothesis idle : ∀ fs name i, J fs → spare name → fs.(entries) !! name = None →
  J (fs <| entries := <[name := i]> fs.(entries) |>).

(** A file of its own under a temporary name. *)
Record temp name i fs : Prop := {
  tm_rest : J (fs <| entries := delete name fs.(entries) |>);
  tm_entry : fs.(entries) !! name = Some i;
  tm_alone q : fs.(entries) !! q = Some i → q = name;
  tm_spare : spare name
}.

Lemma temp_inv name i fs : temp name i fs → J fs.
Proof.
  intros [H1 H2 H3 H4]. apply (idle _ name i) in H1; [|done|apply lookup_delete_eq].
  destruct fs as [e d n]. cbn in *. rewrite insert_delete_eq, insert_id in H1; done.
Qed.

Lemma temp_put name i c t fs : temp name i fs → temp name i (put i c t fs) ∧ file_at (put i c t fs) name i c.
Proof.
  intros [H1 H2 H3 H4]. split; [|by apply file_at_put]. split; [|done..].
  change (J (put i c t (fs <| entries := delete name fs.(entries) |>))). apply blind; [done|].
  intros q Hq. cbn in Hq. apply lookup_delete_Some in Hq as [Hn Hq]. by apply H3 in Hq.
Qed.

Lemma h_CreateTemp_temp dir pat : (∀ t, spare (join dir pat +:+ t)) →
  hoare J (CreateTemp dir pat)
    (fun fs r => temp r.1 r.2 fs ∧ ∃ t, r.1 = join dir pat +:+ t) (fun fs _ => J fs).
Proof.
  intros Hsp. apply h_syscall; [done|]. intros t fs HJ. destruct (is_dir fs dir); [|done].
  set (p := temp_name fs dir pat). set (i := unused fs). cbn [fst snd].
  assert (Hfree : fs.(entries) !! p = None) by apply temp_name_free.
  split; [|apply temp_name_prefix]. split.
  - pose proof (blind fs i "" t HJ (unused_free fs)) as H. destruct fs as [e d n]. unfold put in H. cbn in *.
    by rewrite delete_insert_id.
  - cbn. apply lookup_insert_eq.
  - intros q. cbn. destruct (decide (q = p)) as [|Hq]; [done|]. rewrite lookup_insert_ne by done.
    intros H. by destruct (unused_free fs q).
  - destruct (temp_name_prefix fs dir pat) as [u Hu]. unfold p. by rewrite Hu.
Qed.

Lemma h_Write_temp name i c :
  hoare (temp name i) (Write i c) (fun fs _ => temp name i fs ∧ file_at fs name i c) (fun fs _ => temp name i fs).
Proof. intros k fs H. unfold Write. destruct (fault k); by apply temp_put. Qed.

Lemma h_Remove_temp name i : hoare (temp name i) (Remove name) (fun fs _ => J fs) (fun fs _ => J fs).
Proof.
  eapply h_weaken; [apply h_Remove|done| |intros fs e [Hm _]; by eapply temp_inv].
  intros fs _ (fs1 & Hm & Ho). assert (occupied fs1 name = true) as Hocc.
  { apply bool_decide_eq_true_2. rewrite (tm_entry _ _ _ Hm). eauto. }
  rewrite Hocc in Ho. subst fs. apply Hm.
Qed.

(** A rename that is done either moves the file, or finds it under both names. *)
Lemma h_Rename_temp name i dst c Q :
  (∀ fs, J fs → (∀ q, fs.(entries) !! q ≠ Some i) → inode fs i = mkInode true c (i_modtime (inode fs i)) →
    J (fs <| entries := <[dst := i]> fs.(entries) |>)) →
  (∀ fs, J fs → file_at fs dst i c → Q fs tt) →
  hoare (fun fs => temp name i fs ∧ file_at fs name i c) (Rename name dst) Q
    (fun fs _ => temp name i fs ∧ file_at fs name i c).
Proof.
  intros Hins HQ. apply h_syscall; [done|]. intros t fs [Hm Hf]. pose proof Hf as (_ & Hr & Hc).
  pose proof Hm as [H1 H2 H3 H4]. rewrite H2.
  destruct (is_dir fs dst); [done|]. destruct (negb _); [done|]. case_bool_decide as Hb.
  { apply H3 in Hb as ->. apply HQ; [by eapply temp_inv|done]. }
  set (fs2 := fs <| entries := delete name fs.(entries) |>).
  assert (Hi : inode fs2 i = mkInode true c (i_modtime (inode fs2 i))).
  { change (inode fs2 i) with (inode fs i). destruct (inode fs i). cbn in *. congruence. }
  change (Q (fs2 <| entries := <[dst := i]> fs2.(entries) |>) tt). apply HQ.
  - apply Hins; [done| |done]. intros q Hq. cbn in Hq. apply lookup_delete_Some in Hq as [Hn Hq]. by apply H3 in Hq.
  - split; [cbn; apply lookup_insert_eq|]. change (inode _ i) with (inode fs i). done.
Qed.
End Temp.

(** ** From one state on, and a deferred call *)

Lemma h_here `{E : Env} `{O : OS} {A} P (p : Disk A) Q X :
  (∀ fs1, P fs1 → hoare (fun fs => fs = fs1) p Q X) → hoare P p Q X.
Proof. intros Hp i fs HP. exact (Hp fs HP i fs eq_refl). Qed.

Lemma h_and `{E : Env} `{O : OS} {A} P (p : Disk A) Q1 Q2 X1 X2 :
  hoare P p Q1 X1 → hoare P p Q2 X2 → hoare P p (fun fs a => Q1 fs a ∧ Q2 fs a) (fun fs e => X1 fs e ∧ X2 fs e).
Proof.
  intros H1 H2 i fs HP. specialize (H1 i fs HP). specialize (H2 i fs HP). by destruct (p i fs) as [[i' fs'] [e|a]].
Qed.

Lemma h_finally `{E : Env} `{O : OS} {A} P (p : Disk A) last Q :
  hoare P p Q (fun _ _ => True) → (∀ a, hoare (fun fs => Q fs a) last (fun fs _ => Q fs a) (fun fs _ => Q fs a)) →
  hoare P (finally last p) Q (fun _ _ => True).
Proof.
  intros Hp Hl. unfold finally. eapply h_attempt; [exact Hp| |]; intros a.
  - eapply h_attempt; [apply Hl| |]; intros e; by apply h_ret.
  - apply (h_bind _ _ _ (fun _ _ => True)); [|intros b; by apply h_throw].
    intros k fs _. by destruct (try last k fs) as [[k' fs'] [e|r]].
Qed.
