(* ===== verification/ErasureCodec.v ===== *)
(** * Erasure-coded files ([internal/erasure/erasure.go])

    A file is cut into blocks, each block into data shards to which a Reed-Solomon
    code adds parity shards, and the shards of one index go one after the other
    into a file.  From any [DataShards] of these files the original comes back. *)

From Stdlib Require Import Ascii String.
From S2P Require Import Prelude GoStd Text JsonText JsonStruct GoTime Sha256 Control FileSystem FileTree.
#[global] Open Scope Z_scope.

(** The coder of [github.com/klauspost/reedsolomon].  Its documentation: [New]
    wants a positive number of data shards; [Encode] computes the parity shards
    from data shards of one size; [Reconstruct] restores missing shards if at
    least [data] are there, from which all others follow. *)
Class ReedSolomon := {
  rs_new : Z → Z → option string;
  rs_encode : Z → Z → list (list ascii) → option (list (list ascii));
  rs_reconstruct : Z → Z → list (option (list ascii)) → option (list (list ascii));
  rs_new_data data parity : rs_new data parity = None → 0 < data ∧ 0 ≤ parity;
  rs_encode_shape data parity size shards par :
    rs_encode data parity shards = Some par →
    zlen shards = data → Forall (fun x => length x = size) shards →
    zlen par = parity ∧ Forall (fun x => length x = size) par;
  rs_recovers data parity shards par have :
    rs_encode data parity shards = Some par →
    zlen shards = data →
    Forall2 (fun x o => o = None ∨ o = Some x) (shards ++ par) have →
    data ≤ zlen (omap id have) →
    rs_reconstruct data parity have = Some (shards ++ par)
}.

Module ErasureCodec.

(** ** Data *)

Record Config := mkConfig { DataShards : Z; ParityShards : Z; BlockBytes : Z }.

Record Shard := mkShard { sh_Index : Z; sh_Name : string; sh_Bytes : Z; sh_SHA256 : string }.

Record Manifest := mkManifest {
  m_Version : Z;
  m_ObjectSHA256 : string;
  m_OriginalBytes : Z;
  m_DataShards : Z;
  m_ParityShards : Z;
  m_BlockBytes : Z;
  m_Blocks : Z;
  m_CreatedAt : Zoned;
  m_Shards : list Shard
}.

#[export] Instance Shard_settable : Settable Shard :=
  fun r => mkShard (r.(sh_Index)) (r.(sh_Name)) (r.(sh_Bytes)) (r.(sh_SHA256)).
#[export] Instance Manifest_settable : Settable Manifest :=
  fun r => mkManifest (r.(m_Version)) (r.(m_ObjectSHA256)) (r.(m_OriginalBytes)) (r.(m_DataShards))
    (r.(m_ParityShards)) (r.(m_BlockBytes)) (r.(m_Blocks)) (r.(m_CreatedAt)) (r.(m_Shards)).

(** ** Its JSON *)

Definition json_int (z : Z) : value := VNum (int_text z).

Definition marshal_shard (s : Shard) : value :=
  VObj [("index", json_int s.(sh_Index)); ("name", VStr s.(sh_Name)); ("bytes", json_int s.(sh_Bytes));
        ("sha256", VStr s.(sh_SHA256))].

(** A nil slice is [null]. *)
Definition marshal_shards (l : list Shard) : value :=
  match l with [] => VNull | _ => VArr (marshal_shard <$> l) end.

Definition marshal_manifest (m : Manifest) : option value :=
  t ← marshal_time m.(m_CreatedAt);
  Some (VObj [("version", json_int m.(m_Version)); ("object_sha256", VStr m.(m_ObjectSHA256));
    ("original_bytes", json_int m.(m_OriginalBytes)); ("data_shards", json_int m.(m_DataShards));
    ("parity_shards", json_int m.(m_ParityShards)); ("block_bytes", json_int m.(m_BlockBytes));
    ("blocks", json_int m.(m_Blocks)); ("created_at", VStr t);
    ("shards", marshal_shards m.(m_Shards))]).

Definition no_shard : Shard := mkShard 0 "" 0 "".
Definition no_manifest : Manifest := mkManifest 0 "" 0 0 0 0 0 (UTC time_zero) [].

Definition shard_tags : list (string * (value → Shard → option Shard)) :=
  [("index", fun v r => (fun x => r <| sh_Index := x |>) <$> dec_integer v r.(sh_Index));
   ("name", fun v r => (fun x => r <| sh_Name := x |>) <$> dec_text v r.(sh_Name));
   ("bytes", fun v r => (fun x => r <| sh_Bytes := x |>) <$> dec_integer v r.(sh_Bytes));
   ("sha256", fun v r => (fun x => r <| sh_SHA256 := x |>) <$> dec_text v r.(sh_SHA256))].

Definition manifest_tags : list (string * (value → Manifest → option Manifest)) :=
  [("version", fun v r => (fun x => r <| m_Version := x |>) <$> dec_integer v r.(m_Version));
   ("object_sha256", fun v r => (fun x => r <| m_ObjectSHA256 := x |>) <$> dec_text v r.(m_ObjectSHA256));
   ("original_bytes", fun v r => (fun x => r <| m_OriginalBytes := x |>) <$> dec_integer v r.(m_OriginalBytes));
   ("data_shards", fun v r => (fun x => r <| m_DataShards := x |>) <$> dec_integer v r.(m_DataShards));
   ("parity_shards", fun v r => (fun x => r <| m_ParityShards := x |>) <$> dec_integer v r.(m_ParityShards));
   ("block_bytes", fun v r => (fun x => r <| m_BlockBytes := x |>) <$> dec_integer v r.(m_BlockBytes));
   ("blocks", fun v r => (fun x => r <| m_Blocks := x |>) <$> dec_integer v r.(m_Blocks));
   ("created_at", fun v r => (fun x => r <| m_CreatedAt := x |>) <$> dec_when v r.(m_CreatedAt));
   ("shards", fun v r => (fun x => r <| m_Shards := x |>) <$> dec_slice (dec_struct shard_tags no_shard) v)].

Definition newline : string := String "010" "".

(** What [EncodeFile] writes: [MarshalIndent], of which the error is ignored, and
    a line break. *)
Definition manifest_text (m : Manifest) : string :=
  match marshal_manifest m with Some v => MarshalIndent v | None => "" end +:+ newline.

(** ** Encoding *)

Definition pad3 (s : string) : string :=
  match chars s with
  | [_] => "00" +:+ s
  | [_; _] => "0" +:+ s
  | _ => s
  end.

(** [fmt.Sprintf("shard-%03d.rs", i)] *)
Definition shard_name (i : nat) : string := "shard-" +:+ pad3 (pretty (Z.of_nat i)) +:+ ".rs".

Definition zero_byte : ascii := "000"%char.

(** A block filled up with zeros and cut into its data shards. *)
Definition data_shards (cfg : Config) (chunk : list ascii) : list (list ascii) :=
  let size := Z.to_nat cfg.(BlockBytes) in
  let n := Z.to_nat cfg.(DataShards) in
  let buf := chunk ++ replicate (n * size - length chunk) zero_byte in
  (fun i => take size (drop (i * size) buf)) <$> seq 0 n.

Section Codec.
Context {RS : ReedSolomon} {E : Env} {O : OS} {T : TempDirs}.

Definition fail {A} (e : string) : Disk A := throw (Failure e).

Definition hashFile (path : string) : Disk string := c ← ReadFile path; mret (sha256hex c).

Definition ReadManifest (dir : string) : Disk Manifest :=
  b ← ReadFile (join dir "manifest.json");
  match unmarshal manifest_tags no_manifest b with
  | Some m => mret m
  | None => fail "json: cannot unmarshal"
  end.

Fixpoint create_shards (stage : string) (l : list nat) : Disk (list positive) :=
  match l with
  | [] => mret []
  | i :: l' =>
      f ← CreateExcl (join stage (shard_name i));
      fs ← create_shards stage l';
      mret (f :: fs)
  end.

Fixpoint write_shards (outs : list positive) (shards : list (list ascii)) : Disk unit :=
  match outs, shards with
  | f :: outs', s :: shards' => WriteEnd f (of_chars s);; write_shards outs' shards'
  | _, _ => mret tt
  end.

(** The loop over the blocks of the file, with the number of blocks so far. *)
Fixpoint encode_blocks (fuel : nat) (cfg : Config) (src : positive) (outs : list positive)
    (blocks : nat) : Disk nat :=
  match fuel with
  | 0%nat => fail "out of fuel"
  | S fuel' =>
      let size := Z.to_nat (cfg.(BlockBytes) * cfg.(DataShards)) in
      chunk ← ReadFull src (blocks * size) size;
      match chunk with
      | [] => mret blocks
      | _ :: _ =>
          let data := data_shards cfg chunk in
          match rs_encode cfg.(DataShards) cfg.(ParityShards) data with
          | None => fail "reedsolomon: Encode"
          | Some par =>
              write_shards outs (data ++ par);;
              if (length chunk <? size)%nat then mret (S blocks)
              else encode_blocks fuel' cfg src outs (S blocks)
          end
      end
  end.

Fixpoint sync_all (outs : list positive) : Disk unit :=
  match outs with [] => mret tt | _ :: outs' => touch;; touch;; sync_all outs' end.

(** The error of [os.Stat] is ignored, and then its result is [nil]. *)
Fixpoint describe_shards (stage : string) (l : list nat) : Disk (list Shard) :=
  match l with
  | [] => mret []
  | i :: l' =>
      h ← hashFile (join stage (shard_name i));
      st ← try (Stat (join stage (shard_name i)));
      match st with
      | inl _ => fail "panic: nil pointer dereference"
      | inr st =>
          rest ← describe_shards stage l';
          mret (mkShard (Z.of_nat i) (shard_name i) st.(fi_size) h :: rest)
      end
  end.

Definition encode_stage (cfg : Config) (src : positive) (size : Z) (objectHash dstDir stage : string)
    : Disk Manifest :=
  let total := Z.to_nat (cfg.(DataShards) + cfg.(ParityShards)) in
  outs ← create_shards stage (seq 0 total);
  blocks ← encode_blocks (Z.to_nat (size / (cfg.(BlockBytes) * cfg.(DataShards))) + 2) cfg src outs 0;
  sync_all outs;;
  now ← disk_now;
  shards ← describe_shards stage (seq 0 total);
  let m := mkManifest 1 objectHash size cfg.(DataShards) cfg.(ParityShards) cfg.(BlockBytes)
             (Z.of_nat blocks) (UTC now) shards in
  WriteFile (join stage "manifest.json") (manifest_text m);;
  st ← try (Stat dstDir);
  match st with
  | inr _ =>
      old ← try (ReadManifest dstDir);
      match old with
      | inr old =>
          if old.(m_ObjectSHA256) ≟ m.(m_ObjectSHA256) then mret old
          else fail "erasure destination already exists"
      | inl _ => fail "erasure destination already exists"
      end
  | inl e =>
      if is_not_exist e then RenameDir stage dstDir;; mret m else throw e
  end.

Definition valid_config (cfg : Config) : bool :=
  negb ((cfg.(DataShards) <? 2) || (cfg.(ParityShards) <? 1) || (cfg.(BlockBytes) <? 65536)).

Definition EncodeFile (src dstDir : string) (cfg : Config) : Disk Manifest :=
  if negb (valid_config cfg) then fail "invalid erasure configuration"
  else
    match rs_new cfg.(DataShards) cfg.(ParityShards) with
    | Some e => fail e
    | None =>
        f ← Open src;
        size ← HandleSize f;
        objectHash ← hashFile src;
        MkdirAll (Dir dstDir);;
        stage ← MkdirTemp (Dir dstDir) ".erasure-";
        finally (RemoveAll stage) (encode_stage cfg f size objectHash dstDir stage)
    end.

(** ** Verifying *)

(** [filepath.Join(dir, filepath.Base(name))], in a clean path [dir]: empty names are
    passed over, and "." and ".." are resolved. *)
Definition join_base (dir name : string) : string :=
  match List.filter (fun n => n ≠? "") (names name) with
  | [] => dir
  | l => let n := List.last l "" in
         if n ≟ "." then dir else if n ≟ ".." then Dir dir else join dir n
  end.

Definition shard_path (dir : string) (sh : Shard) : string := join_base dir sh.(sh_Name).

Definition shard_verifies (dir : string) (sh : Shard) : Disk bool :=
  st ← try (Stat (shard_path dir sh));
  match st with
  | inl _ => mret false
  | inr st =>
      if st.(fi_size) ≠? sh.(sh_Bytes) then mret false
      else
        h ← try (hashFile (shard_path dir sh));
        mret match h with inr h => EqualFold h sh.(sh_SHA256) | inl _ => false end
  end.

Fixpoint count_valid (dir : string) (l : list Shard) (valid : Z) : Disk Z :=
  match l with
  | [] => mret valid
  | sh :: l' => ok ← shard_verifies dir sh; count_valid dir l' (valid + Z.b2z ok)
  end.

Definition Verify (dir : string) : Disk Manifest :=
  m ← ReadManifest dir;
  valid ← count_valid dir m.(m_Shards) 0;
  if valid <? m.(m_DataShards) then fail "required shards do not verify" else mret m.

(** ** Reconstruction *)

(** [byIndex[i]], of which the last entry counts. *)
Definition by_index (l : list Shard) (i : nat) : option Shard :=
  last (List.filter (fun sh => sh.(sh_Index) =? Z.of_nat i) l).

Definition open_shard (dir : string) (o : option Shard) : Disk (option positive) :=
  match o with
  | None => mret None
  | Some sh =>
      h ← try (hashFile (shard_path dir sh));
      match h with
      | inr h =>
          if EqualFold h sh.(sh_SHA256) then
            f ← try (Open (shard_path dir sh));
            mret match f with inr f => Some f | inl _ => None end
          else mret None
      | inl _ => mret None
      end
  end.

Fixpoint open_shards (dir : string) (l : list Shard) (idx : list nat) : Disk (list (option positive)) :=
  match idx with
  | [] => mret []
  | i :: idx' =>
      f ← open_shard dir (by_index l i);
      fs ← open_shards dir l idx';
      mret (f :: fs)
  end.

(** The next block of every open shard. *)
Fixpoint read_block (size off : nat) (ins : list (option positive)) : Disk (list (option (list ascii))) :=
  match ins with
  | [] => mret []
  | None :: ins' => bs ← read_block size off ins'; mret (None :: bs)
  | Some f :: ins' =>
      b ← ReadFull f off size;
      if (length b <? size)%nat then fail "unexpected EOF"
      else bs ← read_block size off ins'; mret (Some b :: bs)
  end.

(** The data shards of a block are written as far as bytes remain. *)
Fixpoint write_data (out : positive) (remaining : Z) (data : list (list ascii)) : Disk Z :=
  match data with
  | [] => mret remaining
  | s :: data' =>
      if 0 <? remaining then
        let n := Z.min (zlen s) remaining in
        WriteEnd out (of_chars (take (Z.to_nat n) s));;
        write_data out (remaining - n) data'
      else mret remaining
  end.

Fixpoint decode_blocks (m : Manifest) (ins : list (option positive)) (out : positive) (todo block : nat)
    (remaining : Z) : Disk Z :=
  match todo with
  | 0%nat => mret remaining
  | S todo' =>
      let size := Z.to_nat m.(m_BlockBytes) in
      if m.(m_BlockBytes) <? 0 then fail "panic: makeslice: len out of range"
      else
        have ← read_block size (block * size) ins;
        match rs_reconstruct m.(m_DataShards) m.(m_ParityShards) have with
        | None => fail "reedsolomon: Reconstruct"
        | Some shards =>
            remaining ← write_data out remaining (take (Z.to_nat m.(m_DataShards)) shards);
            decode_blocks m ins out todo' (S block) remaining
        end
  end.

Definition write_object (m : Manifest) (ins : list (option positive)) (tmp dst : string) (out : positive)
    : Disk unit :=
  remaining ← decode_blocks m ins out (Z.to_nat m.(m_Blocks)) 0 m.(m_OriginalBytes);
  if remaining ≠? 0 then fail "reconstruction truncated"
  else
    touch;;
    touch;;
    h ← hashFile tmp;
    if EqualFold h m.(m_ObjectSHA256) then Rename tmp dst
    else fail "reconstructed object SHA-256 mismatch".

Definition Reconstruct (dir dst : string) : Disk unit :=
  m ← ReadManifest dir;
  match rs_new m.(m_DataShards) m.(m_ParityShards) with
  | Some e => fail e
  | None =>
      ins ← open_shards dir m.(m_Shards) (seq 0 (Z.to_nat (m.(m_DataShards) + m.(m_ParityShards))));
      if zlen (omap id ins) <? m.(m_DataShards) then fail "insufficient valid shards"
      else
        MkdirAll (Dir dst);;
        let tmp := dst +:+ ".repoark-reconstruct.part" in
        out ← CreateTrunc tmp;
        on_error (Remove tmp) (write_object m ins tmp dst out)
  end.
End Codec.
End ErasureCodec.
