(* ===== verification/CodecRules.v ===== *)
(** * Erasure coding gives back what was encoded (internal/erasure)

    The pure part: the shard files of a text, the blocks read from them, the text
    they decode to, and the manifest that is read as it was written. *)

From Stdlib Require Import Ascii String.
From S2P Require Import Prelude GoStd Text JsonText JsonStruct GoTime Sha256 Control FileSystem FileTree ErasureCodec.
#[global] Open Scope Z_scope.

Module CodecRules.
Import ErasureCodec.

(** ** Lists cut into pieces of one size *)

Section Pieces.
Context {A : Type}.
Implicit Types (l : list A) (ls : list (list A)).

Definition piece (size : nat) l (k : nat) : list A := take size (drop (k * size) l).

Lemma length_piece size l k :
  ((S k) * size ≤ length l)%nat → length (piece size l k) = size.
Proof. intros H. unfold piece. rewrite length_take, length_drop. simpl in H. lia. Qed.

Lemma pieces_concat size n l :
  length l = (n * size)%nat → concat (piece size l <$> seq 0 n) = l.
Proof.
  revert l. induction n as [|n IH]; intros l Hl; simpl in *.
  - by destruct l.
  - rewrite <- fmap_S_seq, <- list_fmap_compose.
    assert (piece size l ∘ S <$> seq 0 n = piece size (drop size l) <$> seq 0 n) as ->.
    { apply list_fmap_ext. intros i k _. unfold compose, piece. rewrite drop_drop. done. }
    rewrite IH by (rewrite length_drop; lia). unfold piece. simpl. rewrite take_drop. done.
Qed.

Lemma concat_length size ls :
  Forall (fun x => length x = size) ls → length (concat ls) = (length ls * size)%nat.
Proof. intros H. induction H as [|x ls Hx _ IH]; simpl; [done|]. rewrite length_app. lia. Qed.

Lemma piece_of_concat size ls k x :
  Forall (fun x => length x = size) ls → ls !! k = Some x → piece size (concat ls) k = x.
Proof.
  intros H. revert k. induction H as [|y ls Hy _ IH]; intros k Hk; [done|].
  destruct k as [|k]; simpl in Hk.
  - injection Hk as ->. unfold piece. simpl. rewrite drop_0. by apply take_app_length'.
  - rewrite <- (IH k Hk). unfold piece. f_equal. simpl. rewrite drop_app_ge by lia. f_equal. lia.
Qed.
End Pieces.

(** ** The shards of a text *)

Section Shards.
Context {RS : ReedSolomon} (cfg : Config).

Definition bsize : nat := Z.to_nat cfg.(BlockBytes).
Definition ndata : nat := Z.to_nat cfg.(DataShards).
Definition nparity : nat := Z.to_nat cfg.(ParityShards).
Definition total : nat := Z.to_nat (cfg.(DataShards) + cfg.(ParityShards)).
Definition span : nat := Z.to_nat (cfg.(BlockBytes) * cfg.(DataShards)).

(** The coder takes the shards of this configuration. *)
Record accepted : Prop := {
  ac_data : 2 ≤ cfg.(DataShards);
  ac_parity : 1 ≤ cfg.(ParityShards);
  ac_block : 65536 ≤ cfg.(BlockBytes);
  ac_new : rs_new cfg.(DataShards) cfg.(ParityShards) = None;
  ac_encode shards :
    zlen shards = cfg.(DataShards) → Forall (fun x => length x = bsize) shards →
    is_Some (rs_encode cfg.(DataShards) cfg.(ParityShards) shards)
}.

Context (Hac : accepted).

Lemma span_eq : span = (ndata * bsize)%nat.
Proof. unfold span, ndata, bsize. destruct Hac. rewrite Z2Nat.inj_mul by lia. lia. Qed.

Lemma total_eq : total = (ndata + nparity)%nat.
Proof. unfold total, ndata, nparity. destruct Hac. rewrite Z2Nat.inj_add by lia. lia. Qed.

Lemma bsize_pos : (0 < bsize)%nat.
Proof. unfold bsize. destruct Hac. lia. Qed.

Lemma ndata_pos : (0 < ndata)%nat.
Proof. unfold ndata. destruct Hac. lia. Qed.

Definition padded (chunk : list ascii) : list ascii :=
  chunk ++ replicate (span - length chunk) zero_byte.

Lemma data_shards_pieces chunk : data_shards cfg chunk = piece bsize (padded chunk) <$> seq 0 ndata.
Proof. unfold data_shards, padded. by rewrite span_eq. Qed.

Lemma padded_length chunk : (length chunk ≤ span)%nat → length (padded chunk) = span.
Proof. intros H. unfold padded. rewrite length_app, length_replicate. lia. Qed.

Lemma data_shards_concat chunk : (length chunk ≤ span)%nat → concat (data_shards cfg chunk) = padded chunk.
Proof. intros H. rewrite data_shards_pieces. apply pieces_concat. by rewrite padded_length, span_eq. Qed.

Lemma data_shards_length chunk : length (data_shards cfg chunk) = ndata.
Proof. unfold data_shards. by rewrite length_fmap, length_seq. Qed.

Lemma data_shards_sizes chunk :
  (length chunk ≤ span)%nat → Forall (fun x => length x = bsize) (data_shards cfg chunk).
Proof.
  intros H. rewrite data_shards_pieces. apply Forall_fmap, Forall_forall. intros k Hk%elem_of_seq.
  simpl. apply length_piece. rewrite padded_length, span_eq by done. nia.
Qed.

(** All shards of a block. *)
Definition block_code (chunk : list ascii) : list (list ascii) :=
  data_shards cfg chunk ++
  default [] (rs_encode cfg.(DataShards) cfg.(ParityShards) (data_shards cfg chunk)).

Lemma block_code_spec chunk :
  (length chunk ≤ span)%nat →
  ∃ par, rs_encode cfg.(DataShards) cfg.(ParityShards) (data_shards cfg chunk) = Some par ∧
    block_code chunk = data_shards cfg chunk ++ par ∧
    length (block_code chunk) = total ∧ Forall (fun x => length x = bsize) (block_code chunk).
Proof.
  intros H. pose proof (data_shards_sizes chunk H) as Hs. pose proof (data_shards_length chunk) as Hl.
  assert (Hz : zlen (data_shards cfg chunk) = DataShards cfg).
  { unfold zlen. rewrite Hl. unfold ndata. destruct Hac. lia. }
  destruct (ac_encode Hac _ Hz Hs) as [par Hp]. exists par. unfold block_code. rewrite Hp. simpl.
  destruct (rs_encode_shape _ _ _ _ _ Hp Hz Hs) as [H1 H2]. split_and!; [done|done| |].
  - rewrite length_app, Hl, total_eq. unfold nparity. rewrite <- H1. unfold zlen. lia.
  - by apply Forall_app.
Qed.

(** ** The blocks of a text *)

Context (c : list ascii).

Definition chunk (k : nat) : list ascii := piece span c k.
Definition nblocks : nat := ((length c + span - 1) / span)%nat.

Lemma span_pos : (0 < span)%nat.
Proof. rewrite span_eq. pose proof bsize_pos. pose proof ndata_pos. nia. Qed.

Lemma chunk_length k : (length (chunk k) ≤ span)%nat.
Proof. unfold chunk, piece. rewrite length_take. lia. Qed.

(** A block is there exactly for the numbers below [nblocks]. *)
Lemma nblocks_spec k : (k < nblocks ↔ k * span < length c)%nat.
Proof.
  unfold nblocks. pose proof span_pos as Hs. split; intros H.
  - pose proof (Nat.Div0.div_le_mono ((length c + span - 1)) ((length c + span - 1)) span). 
    pose proof (Nat.mul_div_le (length c + span - 1) span ltac:(lia)). nia.
  - apply Nat.div_le_lower_bound; lia.
Qed.

Lemma chunk_nil k : chunk k = [] ↔ (nblocks ≤ k)%nat.
Proof.
  pose proof (nblocks_spec k) as H. pose proof span_pos. split.
  - intros E. destruct (Nat.le_gt_cases nblocks k) as [|Hk]; [done|]. apply H in Hk.
    apply (f_equal length) in E. unfold chunk, piece in E. rewrite length_take, length_drop in E. simpl in E. lia.
  - intros Hk. unfold chunk, piece. rewrite drop_ge; [by destruct span|]. lia.
Qed.

Lemma chunk_short k : (k < nblocks)%nat → (length (chunk k) < span)%nat → S k = nblocks.
Proof.
  intros Hk Hl. pose proof (nblocks_spec (S k)) as H. unfold chunk, piece in Hl.
  rewrite length_take, length_drop in Hl.
  destruct (Nat.le_gt_cases nblocks (S k)) as [|H']; [lia|]. apply H in H'. simpl in H'. lia.
Qed.

(** The content of a shard file after some blocks. *)
Definition shard_text (n j : nat) : list ascii :=
  concat ((fun k => nth j (block_code (chunk k)) []) <$> seq 0 n).

Lemma shard_text_S n j : shard_text (S n) j = shard_text n j ++ nth j (block_code (chunk n)) [].
Proof. unfold shard_text. rewrite seq_S, fmap_app, concat_app. simpl. by rewrite app_nil_r. Qed.

Lemma block_shard_length k j : (j < total)%nat → length (nth j (block_code (chunk k)) []) = bsize.
Proof.
  intros Hj. destruct (block_code_spec (chunk k) (chunk_length k)) as (par & _ & _ & Hl & Hs).
  rewrite Forall_forall in Hs. apply Hs. apply list_elem_of_In, nth_In. lia.
Qed.

Lemma shard_text_length n j : (j < total)%nat → length (shard_text n j) = (n * bsize)%nat.
Proof.
  intros Hj. unfold shard_text. rewrite (concat_length bsize), length_fmap, length_seq; [done|].
  apply Forall_fmap, Forall_forall. intros k _. by apply block_shard_length.
Qed.

Lemma shard_text_piece n j k :
  (j < total)%nat → (k < n)%nat → piece bsize (shard_text n j) k = nth j (block_code (chunk k)) [].
Proof.
  intros Hj Hk. apply piece_of_concat.
  - apply Forall_fmap, Forall_forall. intros i _. by apply block_shard_length.
  - rewrite list_lookup_fmap, lookup_seq_lt by done. done.
Qed.

(** ** Decoding *)

(** What the data shards of the first blocks give. *)
Lemma chunks_concat n : concat (chunk <$> seq 0 n) = take (n * span) c.
Proof.
  induction n as [|n IH]; [done|].
  rewrite seq_S, fmap_app, concat_app, IH. simpl. rewrite app_nil_r. unfold chunk, piece.
  rewrite take_take_drop. f_equal. lia.
Qed.

Lemma padded_prefix k : (k < nblocks)%nat →
  take (length c - k * span) (padded (chunk k)) = take (length c - k * span) (chunk k).
Proof.
  intros Hk. unfold padded. destruct (Nat.le_gt_cases span (length (chunk k))) as [Hl|Hl].
  - replace (span - length (chunk k))%nat with 0%nat by lia. by rewrite app_nil_r.
  - rewrite take_app_le; [done|]. unfold chunk, piece in *. rewrite length_take, length_drop in *. lia.
Qed.
Lemma take_data k : take ndata (block_code (chunk k)) = data_shards cfg (chunk k).
Proof. unfold block_code. by rewrite take_app_length' by (by rewrite data_shards_length). Qed.

(** A block is recovered from what is left of its shards. *)
Lemma block_recovered k have :
  Forall2 (fun x o => o = None ∨ o = Some x) (block_code (chunk k)) have →
  cfg.(DataShards) ≤ zlen (omap id have) →
  rs_reconstruct cfg.(DataShards) cfg.(ParityShards) have = Some (block_code (chunk k)).
Proof.
  destruct (block_code_spec (chunk k) (chunk_length k)) as (par & Hp & -> & _ & _). intros Hh Hn.
  apply rs_recovers; [done| |done|done]. unfold zlen. rewrite data_shards_length. unfold ndata.
  destruct Hac. lia.
Qed.

(** The bytes it adds to the text. *)
Lemma block_written k :
  (k < nblocks)%nat →
  take (k * span) c ++ take (length c - k * span) (concat (data_shards cfg (chunk k))) =
  take (S k * span) c.
Proof.
  intros Hk. rewrite data_shards_concat by apply chunk_length. rewrite padded_prefix by done.
  rewrite (take_ge (chunk k)) by (unfold chunk, piece; rewrite length_take, length_drop; lia).
  unfold chunk, piece. rewrite take_take_drop. f_equal. simpl. lia.
Qed.

Lemma all_written : take (nblocks * span) c = c.
Proof.
  apply take_ge. pose proof (nblocks_spec nblocks) as H. lia.
Qed.

(** ** The manifest *)

Definition shard_of (j : nat) : Shard :=
  mkShard (Z.of_nat j) (shard_name j) (Z.of_nat (nblocks * bsize))
    (sha256hex (of_chars (shard_text nblocks j))).

Definition manifest_of (now : Time) : Manifest :=
  mkManifest 1 (sha256hex (of_chars c)) (zlen c) cfg.(DataShards) cfg.(ParityShards) cfg.(BlockBytes)
    (Z.of_nat nblocks) (UTC now) (shard_of <$> seq 0 total).

Lemma nblocks_bound : (nblocks * bsize ≤ length c + span)%nat.
Proof.
  pose proof (nblocks_spec (pred nblocks)) as H. pose proof ndata_pos. rewrite span_eq in *.
  destruct nblocks as [|n]; simpl in *; [lia|]. destruct H as [H _]. specialize (H ltac:(lia)). nia.
Qed.
End Shards.

Lemma dec_slice_marshal {A} (enc : A → value) (dec : value → option A) l :
  Forall (fun x => dec (enc x) = Some x) l →
  dec_slice dec (match l with [] => VNull | _ => VArr (enc <$> l) end) = Some l.
Proof.
  intros H. destruct l as [|x l]; [done|]. cbn [dec_slice]. apply mapM_Some.
  apply Forall2_fmap_l. induction H; constructor; auto.
Qed.

Definition int64_range (z : Z) : Prop := min_int64 ≤ z ≤ max_int64.

Definition shard_ok (s : Shard) : Prop :=
  int64_range s.(sh_Index) ∧ int64_range s.(sh_Bytes) ∧ valid_utf8 s.(sh_Name) = true ∧
  valid_utf8 s.(sh_SHA256) = true.

Lemma shard_reads s : shard_ok s → dec_struct shard_tags no_shard (marshal_shard s) = Some s.
Proof.
  intros (Hi & Hb & _). destruct s as [i n b h]. cbn in Hi, Hb.
  cbn -[dec_integer EqualFold int_text]. known_keys. unfold json_int.
  rewrite dec_integer_text by done. cbn -[dec_integer EqualFold int_text]. known_keys.
  rewrite dec_integer_text by done. reflexivity.
Qed.

Record manifest_ok (m : Manifest) : Prop := {
  mo_version : int64_range m.(m_Version);
  mo_bytes : int64_range m.(m_OriginalBytes);
  mo_data : int64_range m.(m_DataShards);
  mo_parity : int64_range m.(m_ParityShards);
  mo_block : int64_range m.(m_BlockBytes);
  mo_blocks : int64_range m.(m_Blocks);
  mo_hash : valid_utf8 m.(m_ObjectSHA256) = true;
  mo_time : m.(m_CreatedAt).(z_offset) mod 60 = 0 ∧ is_Some (marshal_time m.(m_CreatedAt));
  mo_shards : Forall shard_ok m.(m_Shards)
}.

Lemma marshal_shard_ok s d : shard_ok s → value_ok (S d) (marshal_shard s) = true.
Proof.
  intros (_ & _ & Hn & Hh). cbn -[int_text]. by rewrite !(proj1 (int_text_spec _)), Hn, Hh.
Qed.

Lemma marshal_shards_ok l d : Forall shard_ok l → value_ok (S (S d)) (marshal_shards l) = true.
Proof.
  intros Hl. unfold marshal_shards. destruct l as [|s l]; [done|].
  change (forallb (value_ok (S d)) (marshal_shard <$> s :: l) = true).
  apply forallb_forall. intros x Hx. apply list_elem_of_In, list_elem_of_fmap in Hx as (y & -> & Hy).
  rewrite Forall_forall in Hl. by apply marshal_shard_ok, Hl.
Qed.

Lemma marshal_manifest_ok m v :
  manifest_ok m → marshal_manifest m = Some v → value_ok (Z.to_nat maxNestingDepth) v = true.
Proof.
  intros [_ _ _ _ _ _ Hh _ Hs]. unfold marshal_manifest.
  destruct (marshal_time _) as [t|] eqn:Et; [|done]. cbn [mbind option_bind]. intros [= <-].
  apply marshal_time_utf8 in Et. unfold json_int.
  change (Z.to_nat maxNestingDepth) with (S (S (S (Z.to_nat maxNestingDepth - 3)))).
  generalize (Z.to_nat maxNestingDepth - 3)%nat. intros d. destruct m as [ve ob or da pa bb bl ct sh].
  cbn [m_Version m_ObjectSHA256 m_OriginalBytes m_DataShards m_ParityShards m_BlockBytes m_Blocks
    m_CreatedAt m_Shards] in *.
  pose proof (marshal_shards_ok sh d Hs) as Hv. generalize dependent (marshal_shards sh). intros sv Hv.
  cbn [value_ok forallb fst snd]. rewrite !(proj1 (int_text_spec _)), Hh, Et.
  rewrite Hv. reflexivity.
Qed.

Lemma manifest_reads m : manifest_ok m → unmarshal manifest_tags no_manifest (manifest_text m) = Some m.
Proof.
  intros Hm. pose proof Hm as [H1 H2 H3 H4 H5 H6 _ [Hz [t Ht]] Hs]. unfold unmarshal, manifest_text.
  assert (Hv : ∃ v, marshal_manifest m = Some v) by (unfold marshal_manifest; rewrite Ht; by eexists).
  destruct Hv as [v Hv]. rewrite Hv. rewrite Unmarshal_MarshalIndent;
    [|by apply (marshal_manifest_ok m)|by repeat constructor].
  cbn [mbind option_bind]. unfold marshal_manifest in Hv. rewrite Ht in Hv. cbn [mbind option_bind] in Hv.
  injection Hv as <-.
  assert (Hd : dec_slice (dec_struct shard_tags no_shard) (marshal_shards m.(m_Shards)) = Some m.(m_Shards)).
  { apply dec_slice_marshal. eapply Forall_impl; [exact Hs|]. apply shard_reads. }
  pose proof (dec_when_text _ _ (UTC time_zero) Hz Ht) as Hw. revert Hd Hw.
  generalize (marshal_shards m.(m_Shards)). intros sv.
  destruct m as [ve ob or da pa bb bl ct sh]. cbn in H1, H2, H3, H4, H5, H6. cbn [m_Shards m_CreatedAt].
  intros Hd Hw. unfold json_int.
  repeat (cbn -[dec_integer EqualFold int_text dec_slice dec_when]; known_keys; try rewrite dec_integer_text by done;
    try rewrite Hw; try rewrite Hd).
  reflexivity.
Qed.

End CodecRules.
