(* ===== verification/CodecDisk.v ===== *)
(** * What [EncodeFile] leaves on the disk (internal/erasure)

    On a disk that does not fail, [EncodeFile] leaves the manifest and the shard
    files of the text it read. *)

From Stdlib Require Import Ascii String.
From S2P Require Import Prelude GoStd Text JsonText JsonStruct GoTime Sha256 Control FileSystem FileTree ErasureCodec CodecRules.
#[global] Open Scope Z_scope.

Module CodecDisk.
Import ErasureCodec CodecRules.

(** ** Names of shards *)

Lemma digits_value_pad s : digits_value 0 (chars (pad3 s)) = digits_value 0 (chars s).
Proof.
  unfold pad3. destruct (chars s) as [|a [|b [|d l]]] eqn:E; [by rewrite E|..];
    rewrite ?chars_app, ?E; reflexivity.
Qed.

Lemma shard_name_chars i : chars (shard_name i) = chars "shard-" ++ chars (pad3 (pretty (Z.of_nat i))) ++ chars ".rs".
Proof. unfold shard_name. by rewrite !chars_app. Qed.

Lemma shard_name_inj i j : shard_name i = shard_name j → i = j.
Proof.
  intros H%(f_equal chars). rewrite !shard_name_chars in H. apply app_inv_head, app_inv_tail in H.
  apply (f_equal (digits_value 0)) in H. rewrite !digits_value_pad in H.
  change (pretty ?z) with (int_text z) in H. rewrite !uint_text in H by lia. injection H. lia.
Qed.

Lemma shard_name_plain i : "/"%char ∉ chars (shard_name i).
Proof.
  rewrite shard_name_chars. pose proof (pretty_Z_chars (Z.of_nat i)) as H. rewrite Forall_forall in H.
  assert (Hd : "/"%char ∉ chars (pretty (Z.of_nat i))) by (intros Hs%H; discriminate Hs).
  assert (Hp : "/"%char ∉ chars (pad3 (pretty (Z.of_nat i)))).
  { unfold pad3. revert Hd. generalize (pretty (Z.of_nat i)). intros s Hd.
    destruct (chars s) as [|a [|b [|d l]]] eqn:E; rewrite ?chars_app, ?E; simpl; try done; set_solver. }
  rewrite !elem_of_app. intros [Hs|[Hs|Hs]]; [simpl in Hs; set_solver|by apply Hp|simpl in Hs; set_solver].
Qed.

Lemma shard_name_not_manifest i : shard_name i ≠ "manifest.json".
Proof. intros H%(f_equal chars). rewrite shard_name_chars in H. discriminate H. Qed.

Lemma shard_name_not n i : (String.length n ≤ 2)%nat → shard_name i ≠ n.
Proof. intros Hn <-. unfold shard_name in Hn. simpl in Hn. lia. Qed.

Lemma shard_name_joined dir i : join_base dir (shard_name i) = join dir (shard_name i).
Proof.
  unfold join_base. rewrite names_name by apply shard_name_plain. cbn [List.filter].
  by rewrite !bool_decide_eq_false_2 by (apply shard_name_not; simpl; lia).
Qed.

Lemma stage_plain tmp : "/"%char ∉ chars tmp → "/"%char ∉ chars (".erasure-" +:+ tmp).
Proof. rewrite chars_app. simpl. set_solver. Qed.

(** ** Staging *)

Section Staging.
Context {RS : ReedSolomon} {E : Env} {O : OS} {T : TempDirs} (Hrel : ∀ k, fault k = None).
Context (cfg : Config) (Hac : accepted cfg) (src : string) (i0 : positive) (c : list ascii).
Context (parent name : string) (Hname : "/"%char ∉ chars name) (Hpat : HasPrefix name ".erasure-" = false).
Implicit Types (fs : FS).

Definition dst : string := join parent name.

Context (tmp : string) (Htmp : "/"%char ∉ chars tmp).
Definition stage : string := join parent (".erasure-" +:+ tmp).

Lemma stage_not_name : name ≠ ".erasure-" +:+ tmp.
Proof.
  intros H. enough (HasPrefix name ".erasure-" = true) by congruence.
  apply prefix_chars. exists (chars tmp). by rewrite H, chars_app.
Qed.

Lemma dst_apart x : under dst (join stage x) = false.
Proof. apply join_apart; [done|by apply stage_plain|apply stage_not_name]. Qed.

Lemma stage_apart x : under stage (join dst x) = false.
Proof. apply join_apart; [by apply stage_plain|done|]. intros H. by apply stage_not_name. Qed.

Lemma stage_not_dst : under stage dst = false.
Proof. by apply join_not_under. Qed.

Lemma not_staged q x : under stage q = false → q ≠ join stage x.
Proof. intros H ->. by rewrite under_join in H. Qed.

(** The directories, the place of the result and the source. *)
Record room fs : Prop := {
  rm_parent : parent ∈ fs.(dirs);
  rm_stage : stage ∈ fs.(dirs);
  rm_stage_dirs : ∀ q, q ∈ fs.(dirs) → under stage q = false;
  rm_dst : nowhere fs dst;
  rm_dst_dirs : ∀ q, q ∈ fs.(dirs) → under dst q = false;
  rm_src : file_at fs src i0 (of_chars c);
  rm_src_out : under stage src = false
}.

Lemma room_put fs i d t : room fs → i ≠ i0 → room (put i d t fs).
Proof. intros [H1 H2 H3 H4 H5 H6 H7] Hi. split; try done. by apply file_at_put_ne. Qed.

Lemma room_new fs x t :
  room fs →
  room (put (unused fs) "" t (fs <| entries := <[join stage x := unused fs]> fs.(entries) |>)).
Proof.
  intros [H1 H2 H3 (Ho & Hd & Ha) H5 H6 H7]. split; try done.
  - split_and!.
    + apply not_occupied_spec in Ho. apply not_occupied_spec. cbn. rewrite lookup_insert_ne; [done|].
      intros Heq. symmetry in Heq. by apply (not_staged dst x stage_not_dst).
    + apply not_dir_spec in Hd as [Hd1 Hd2]. apply not_dir_spec. split; [done|]. intros q i. cbn.
      destruct (decide (q = join stage x)) as [->|Hq]; [intros _; apply dst_apart|].
      rewrite lookup_insert_ne by done. apply Hd2.
    + intros q Hq. cbn. rewrite lookup_insert_ne; [by apply Ha|]. intros <-.
      apply ancestors_under, under_inv in Hq as [n Hn]. pose proof stage_not_dst as Hs. rewrite Hn in Hs.
      unfold join in Hs at 1 2. rewrite !text_assoc in Hs. fold (join stage (x +:+ "/" +:+ n)) in Hs.
      by rewrite under_join in Hs.
  - apply file_at_new; [done|]. by apply not_staged.
Qed.

(** The shard files that are open, with what was written to them. *)
Record staged (hs : list positive) (outs : list string) fs : Prop := {
  sg_room : room fs;
  sg_src : i0 ∉ hs;
  sg_nodup : NoDup hs;
  sg_length : length hs = length outs;
  sg_files : ∀ j h o, hs !! j = Some h → outs !! j = Some o → file_at fs (join stage (shard_name j)) h o;
  sg_only : ∀ q, is_Some (fs.(entries) !! q) → under stage q = true →
    ∃ j, (j < length hs)%nat ∧ q = join stage (shard_name j)
}.

Lemma staged_free hs outs fs x :
  staged hs outs fs → "/"%char ∉ chars x → (∀ j, (j < length hs)%nat → x ≠ shard_name j) →
  occupied fs (join stage x) = false ∧ is_dir fs (join stage x) = false ∧
  is_dir fs (Dir (join stage x)) = true.
Proof.
  intros [Hr _ _ _ _ Ho] Hx Hn. split_and!.
  - apply not_occupied_spec. destruct (entries fs !! join stage x) as [i|] eqn:E'; [|done].
    destruct (Ho (join stage x)) as (j & Hj & H%join_inj); [eauto|apply under_join|]. by destruct (Hn j).
  - apply not_dir_spec. split.
    + intros H%(rm_stage_dirs _ Hr). by rewrite under_join in H.
    + intros q i Hq. destruct (under (join stage x) q) eqn:Hu; [|done].
      destruct (Ho q) as (j & _ & ->); [eauto| |].
      * apply under_inv in Hu as [n ->]. unfold join at 1 2. rewrite !text_assoc. apply under_join.
      * rewrite join_not_under in Hu; [done|apply shard_name_plain].
  - rewrite Dir_join by done. by apply is_dir_intro, Hr.
Qed.

Lemma next_shard_free hs outs fs :
  staged hs outs fs →
  occupied fs (join stage (shard_name (length hs))) = false ∧
  is_dir fs (join stage (shard_name (length hs))) = false ∧
  is_dir fs (Dir (join stage (shard_name (length hs)))) = true.
Proof.
  intros Hs. apply (staged_free hs outs fs _ Hs); [apply shard_name_plain|]. intros j Hj E'%shard_name_inj. lia.
Qed.

Lemma t_create_shard hs outs :
  length hs = length outs →
  runs (staged hs outs) (CreateExcl (join stage (shard_name (length hs))))
    (fun fs h => staged (hs ++ [h]) (outs ++ [""]) fs).
Proof.
  intros Hlen. apply (t_new Hrel).
  - intros fs Hs. apply (next_shard_free hs outs fs Hs).
  - intros t fs Hs. pose proof Hs as [H1 H2 H3 _ H5 H6]. split.
    + by apply room_new.
    + apply not_elem_of_app. split; [done|]. rewrite list_elem_of_singleton. intros Hi.
      destruct (rm_src _ H1) as (Hsrc & _). rewrite Hi in Hsrc. by apply (unused_free fs src).
    + apply NoDup_app. split_and!; [done| |apply NoDup_singleton]. intros h Hh ->%list_elem_of_singleton.
      apply list_elem_of_lookup in Hh as [j Hj].
      destruct (lookup_lt_is_Some_2 outs j) as [o Ho]; [apply lookup_lt_Some in Hj; lia|].
      destruct (H5 j _ o Hj Ho) as (Hf & _). by apply (unused_free fs) in Hf.
    + rewrite !length_app. simpl. lia.
    + intros j h o Hj Ho. destruct (decide (j < length hs)%nat) as [Hlt|Hge].
      * rewrite lookup_app_l in Hj by done. rewrite lookup_app_l in Ho by lia.
        apply file_at_new; [by apply H5|]. intros Heq%join_inj%shard_name_inj. lia.
      * apply lookup_snoc_Some in Hj as [[Hj _]|[-> <-]]; [lia|].
        rewrite lookup_app_r in Ho by lia. replace (length hs - length outs)%nat with 0%nat in Ho by lia.
        injection Ho as <-. apply file_at_created.
    + intros q Hq Hu. rewrite length_app. simpl. cbn in Hq.
      destruct (decide (q = join stage (shard_name (length hs)))) as [->|Hn]; [exists (length hs); split; [lia|done]|].
      rewrite lookup_insert_ne in Hq by done. destruct (H6 q Hq Hu) as (j & Hj & ->). exists j. split; [lia|done].
  - intros fs Hs. apply (next_shard_free hs outs fs Hs).
Qed.

Lemma t_create_shards n hs outs :
  length hs = length outs →
  runs (staged hs outs) (create_shards stage (seq (length hs) n))
    (fun fs new => length new = n ∧ staged (hs ++ new) (outs ++ replicate n "") fs).
Proof.
  revert hs outs. induction n as [|n IH]; intros hs outs Hlen; cbn [seq create_shards replicate].
  - apply t_ret. intros fs Hs. by rewrite !app_nil_r.
  - eapply t_bind; [by apply t_create_shard|]. intros h.
    specialize (IH (hs ++ [h]) (outs ++ [""])). rewrite !length_app, Nat.add_1_r in IH.
    eapply t_bind; [apply IH; simpl; lia|]. intros new. apply t_ret. intros fs [Hn Hs].
    rewrite <- !app_assoc in Hs. cbn [length]. auto.
Qed.

(** ** Writing the blocks *)

Lemma of_chars_app l1 l2 : of_chars (l1 ++ l2) = of_chars l1 +:+ of_chars l2.
Proof. apply chars_inj. unfold of_chars. by rewrite chars_app, !chars_of. Qed.

Lemma t_write_shard hs outs j h o x :
  hs !! j = Some h → outs !! j = Some o →
  runs (staged hs outs) (WriteEnd h x) (fun fs _ => staged hs (<[j := o +:+ x]> outs) fs).
Proof.
  intros Hj Ho. apply (t_WriteEnd Hrel). intros t fs [H1 H2 H3 H4 H5 H6].
  destruct (H5 j h o Hj Ho) as (Hf & Hreg & Hcont). rewrite Hcont.
  assert (Hne : h ≠ i0) by (intros ->; apply H2; by eapply list_elem_of_lookup_2).
  split; try done; [by apply room_put|by rewrite length_insert|].
  intros j' h' o' Hj' Ho'. destruct (decide (j' = j)) as [->|Hn].
  - rewrite Hj in Hj'. injection Hj' as <-. rewrite list_lookup_insert_eq in Ho' by (by eapply lookup_lt_Some).
    injection Ho' as <-. by apply file_at_put.
  - rewrite list_lookup_insert_ne in Ho' by done. apply file_at_put_ne; [by apply H5|].
    intros ->. by apply Hn, (NoDup_lookup hs j' j h).
Qed.

Definition extended (outs : list string) (xs : list (list ascii)) : list string :=
  zip_with (fun o x => o +:+ of_chars x) outs xs.

Lemma t_write_shards hs1 hs2 outs1 outs2 xs :
  length hs1 = length outs1 → length hs2 = length outs2 → length hs2 = length xs →
  runs (staged (hs1 ++ hs2) (outs1 ++ outs2)) (write_shards hs2 xs)
    (fun fs _ => staged (hs1 ++ hs2) (outs1 ++ extended outs2 xs) fs).
Proof.
  revert hs1 outs1 outs2 xs. induction hs2 as [|h hs2 IH]; intros hs1 outs1 [|o outs2] [|x xs] H1 H2 H3;
    try done; cbn [write_shards]; [by apply t_ret|].
  eapply t_bind.
  - apply (t_write_shard _ _ (length hs1) h o); [by apply list_lookup_middle|].
    rewrite H1. by apply list_lookup_middle.
  - intros u. rewrite H1, insert_app_r_alt, Nat.sub_diag by done. cbn [insert list_insert].
    specialize (IH (hs1 ++ [h]) (outs1 ++ [o +:+ of_chars x]) outs2 xs).
    rewrite <- !app_assoc in IH. apply IH; [rewrite !length_app; simpl; lia|by injection H2|by injection H3].
Qed.

Definition outs_at (n : nat) : list string := (fun j => of_chars (shard_text cfg c n j)) <$> seq 0 (total cfg).

Lemma outs_at_length n : length (outs_at n) = total cfg.
Proof. unfold outs_at. by rewrite length_fmap, length_seq. Qed.

Lemma outs_at_0 : outs_at 0 = replicate (total cfg) "".
Proof.
  unfold outs_at. apply list_eq. intros j. rewrite list_lookup_fmap.
  destruct (decide (j < total cfg)%nat).
  - by rewrite lookup_seq_lt, lookup_replicate_2 by done.
  - rewrite lookup_seq_ge by lia. symmetry. apply lookup_ge_None. rewrite length_replicate. lia.
Qed.

Lemma outs_at_S n : extended (outs_at n) (block_code cfg (chunk cfg c n)) = outs_at (S n).
Proof.
  destruct (block_code_spec cfg Hac (chunk cfg c n) (chunk_length cfg c n)) as (_ & _ & _ & Hl & _).
  unfold extended, outs_at. apply list_eq. intros j. rewrite lookup_zip_with, !list_lookup_fmap.
  destruct (decide (j < total cfg)%nat) as [Hj|Hj].
  - rewrite lookup_seq_lt by done. cbn [fmap option_fmap option_map mbind option_bind Nat.add].
    destruct (lookup_lt_is_Some_2 (block_code cfg (chunk cfg c n)) j) as [x Hx]; [lia|].
    rewrite Hx. cbn [mbind option_bind]. rewrite shard_text_S, of_chars_app. by rewrite (nth_lookup_Some _ _ [] x Hx).
  - by rewrite lookup_seq_ge by lia.
Qed.

Lemma t_encode_blocks fuel hs b :
  length hs = total cfg → (b ≤ nblocks cfg c)%nat → (nblocks cfg c - b < fuel)%nat →
  runs (staged hs (outs_at b)) (encode_blocks fuel cfg i0 hs b)
    (fun fs n => n = nblocks cfg c ∧ staged hs (outs_at n) fs).
Proof.
  intros Hlen. revert b. induction fuel as [|fuel IH]; intros b Hb Hf; [lia|]. cbn [encode_blocks].
  eapply t_bind; [apply (t_look Hrel)|]. intros x.
  apply t_pre with (x = chunk cfg c b).
  { intros fs [Hs ->]. destruct (rm_src _ (sg_room _ _ _ Hs)) as (_ & _ & ->).
    unfold of_chars. by rewrite chars_of. }
  intros ->. eapply (t_weaken (staged hs (outs_at b))); [|by intros fs []|intros fs a Ha; exact Ha].
  destruct (chunk cfg c b) as [|x l] eqn:Ec.
  - apply t_ret. intros fs Hs. apply (chunk_nil cfg Hac) in Ec. replace b with (nblocks cfg c) in * by lia. auto.
  - assert (Hlt : (b < nblocks cfg c)%nat).
    { destruct (Nat.le_gt_cases (nblocks cfg c) b) as [Hle|]; [|done].
      apply (chunk_nil cfg Hac) in Hle. congruence. }
    destruct (block_code_spec cfg Hac (chunk cfg c b) (chunk_length cfg c b)) as (par & Hp & Hcode & Hl & _).
    rewrite <- Ec. rewrite Hp, <- Hcode.
    eapply t_bind; [apply (t_write_shards [] hs [] (outs_at b)); [done|by rewrite outs_at_length|by rewrite Hl]|].
    intros u. cbn [app]. rewrite outs_at_S. destruct (Nat.ltb_spec (length (chunk cfg c b)) (span cfg)) as [Hs|Hs].
    + unfold span in Hs. rewrite (proj2 (Nat.ltb_lt _ _)) by done. apply t_ret. intros fs Hs'.
      rewrite <- (chunk_short cfg Hac c b Hlt Hs) in *. auto.
    + unfold span in Hs. rewrite (proj2 (Nat.ltb_ge _ _)) by done. apply IH; lia.
Qed.

Lemma t_sync_all P (hs : list positive) : runs P (sync_all hs) (fun fs _ => P fs).
Proof.
  induction hs as [|h hs IH]; cbn [sync_all]; [by apply t_ret|].
  do 2 (eapply t_bind; [apply (t_touch Hrel P)|]; intros []). exact IH.
Qed.

Lemma outs_at_lookup n j : (j < total cfg)%nat → outs_at n !! j = Some (of_chars (shard_text cfg c n j)).
Proof. intros Hj. unfold outs_at. by rewrite list_lookup_fmap, lookup_seq_lt by done. Qed.

Lemma staged_file hs n fs j :
  staged hs (outs_at n) fs → (j < total cfg)%nat →
  ∃ h, hs !! j = Some h ∧ file_at fs (join stage (shard_name j)) h (of_chars (shard_text cfg c n j)).
Proof.
  intros [_ _ _ H4 H5 _] Hj. rewrite outs_at_length in H4.
  destruct (lookup_lt_is_Some_2 hs j) as [h Hh]; [lia|]. exists h. split; [done|].
  apply H5; [done|]. by apply outs_at_lookup.
Qed.

Lemma slen_of_chars l : slen (of_chars l) = zlen l.
Proof. unfold slen, zlen. rewrite <- chars_length. unfold of_chars. by rewrite chars_of. Qed.

Lemma t_describe hs n j :
  (j + n ≤ total cfg)%nat →
  runs (staged hs (outs_at (nblocks cfg c))) (describe_shards stage (seq j n))
    (fun fs l => staged hs (outs_at (nblocks cfg c)) fs ∧ l = shard_of cfg c <$> seq j n).
Proof.
  revert j. induction n as [|n IH]; intros j Hj; cbn [seq describe_shards]; [by apply t_ret|].
  set (P := staged hs (outs_at (nblocks cfg c))). set (o := of_chars (shard_text cfg c (nblocks cfg c) j)).
  apply (t_pre (∃ h, hs !! j = Some h)).
  { intros fs Hs. destruct (staged_file _ _ _ j Hs) as (h & Hh & _); [lia|]. eauto. }
  intros [h Hh].
  assert (Hfile : ∀ fs, P fs → file_at fs (join stage (shard_name j)) h o).
  { intros fs Hs. destruct (staged_file _ _ _ j Hs) as (h' & Hh' & Hf); [lia|]. rewrite Hh in Hh'. injection Hh' as ->. exact Hf. }
  apply (t_bind _ _ _ (fun fs x => P fs ∧ x = sha256hex o)).
  { eapply t_bind; [apply (t_ReadFile Hrel P _ _ _ Hfile)|]. intros x. apply t_ret. by intros fs [Hs ->]. }
  intros x. apply t_pre with (x = sha256hex o); [by intros fs []|]. intros ->.
  eapply t_bind.
  { apply t_try. eapply (t_weaken P); [apply (t_Stat Hrel P _ _ _ Hfile)|by intros fs []|intros fs a Ha; exact Ha]. }
  intros r. apply (t_pre (∃ st, r = inr st ∧ st.(fi_size) = slen o)).
  { intros fs (st & -> & _ & Hst). eauto. }
  intros (st & -> & Hst).
  eapply t_bind; [eapply (t_weaken P); [apply (IH (S j)); lia|by intros fs (st' & _ & Hs & _)|intros fs a Ha; exact Ha]|].
  intros rest. apply t_ret. intros fs [Hs ->]. split; [done|]. cbn [fmap list_fmap]. f_equal.
  unfold shard_of. f_equal. rewrite Hst. unfold o. rewrite slen_of_chars. unfold zlen.
  by rewrite shard_text_length by (done || lia).
Qed.

(** ** Publishing *)

Definition text_of (now : Time) : string := manifest_text (manifest_of cfg c now).

(** The shard files and the manifest in a directory. *)
Definition holds_shards (dir : string) (text : string) fs : Prop :=
  (∃ i, file_at fs (join dir "manifest.json") i text) ∧
  ∀ j, (j < total cfg)%nat →
    ∃ h, file_at fs (join dir (shard_name j)) h (of_chars (shard_text cfg c (nblocks cfg c) j)).

Lemma t_write_manifest hs text :
  length hs = total cfg →
  runs (staged hs (outs_at (nblocks cfg c))) (WriteFile (join stage "manifest.json") text)
    (fun fs _ => room fs ∧ holds_shards stage text fs).
Proof.
  intros Hlen. set (m := join stage "manifest.json"). set (P := staged hs (outs_at (nblocks cfg c))).
  assert (Hfree : ∀ fs, P fs → occupied fs m = false ∧ is_dir fs m = false ∧ is_dir fs (Dir m) = true).
  { intros fs Hs. apply (staged_free _ _ _ _ Hs); [simpl; set_solver|]. intros j _ E'.
    by apply (shard_name_not_manifest j). }
  unfold WriteFile. eapply t_bind.
  - apply (t_new Hrel P m (fun fs i => room fs ∧ i ≠ i0 ∧ file_at fs m i "" ∧
      ∀ j, (j < total cfg)%nat → ∃ h, h ≠ i ∧
        file_at fs (join stage (shard_name j)) h (of_chars (shard_text cfg c (nblocks cfg c) j)))).
    + intros fs Hs. by destruct (Hfree fs Hs) as (_ & ? & ?).
    + intros t fs Hs. pose proof (sg_room _ _ _ Hs) as Hr. split_and!; [by apply room_new| |apply file_at_created|].
      * intros Hi. destruct (rm_src _ Hr) as (Hf & _). rewrite <- Hi in Hf. by apply (unused_free fs src).
      * intros j Hj. destruct (staged_file _ _ _ j Hs Hj) as (h & _ & Hf). exists h. split.
        -- intros ->. destruct Hf as (Hf & _). by apply unused_free in Hf.
        -- apply file_at_new; [done|]. intros Heq%join_inj. by apply (shard_name_not_manifest j).
    + intros fs Hs. by destruct (Hfree fs Hs) as (? & _).
  - intros i. eapply t_bind.
    + apply (t_Write Hrel _ i text (fun fs _ => room fs ∧ holds_shards stage text fs)).
      intros t fs (Hr & Hi & Hm & Hs). split; [by apply room_put|]. split.
      * exists i. apply file_at_put, Hm.
      * intros j Hj. destruct (Hs j Hj) as (h & Hh & Hf). exists h. by apply file_at_put_ne.
    + intros []. apply (t_touch Hrel).
Qed.

Lemma t_publish text :
  runs (fun fs => room fs ∧ holds_shards stage text fs) (RenameDir stage dst)
    (fun fs _ => holds_shards dst text fs).
Proof.
  apply (t_call Hrel). intros t fs [[H1 H2 _ (Ho & Hd & _) H5 _ _] [[i Hm] Hs]].
  rewrite (is_dir_intro fs stage H2), stage_not_dst, Ho. cbn [negb].
  assert (existsb (under dst) ((map_to_list (entries fs)).*1 ++ elements (dirs fs)) = false) as ->.
  { destruct (existsb _ _) eqn:Ex; [|done]. apply existsb_exists in Ex as (q & Hq & Hu).
    apply list_elem_of_In, elem_of_app in Hq as [Hq|Hq].
    - apply list_elem_of_fmap in Hq as ([q' j] & -> & Hj%elem_of_map_to_list).
      apply not_dir_spec in Hd as [_ Hd]. simpl in Hu. rewrite (Hd q' j Hj) in Hu. done.
    - apply elem_of_elements, H5 in Hq. congruence. }
  unfold dst at 1. rewrite Dir_join, (is_dir_intro fs parent H1) by done. cbn [negb].
  split; [exists i; by apply file_at_moved|]. intros j Hj. destruct (Hs j Hj) as [h Hf]. exists h.
  by apply file_at_moved.
Qed.

Lemma t_clean text :
  runs (holds_shards dst text) (RemoveAll stage) (fun fs _ => holds_shards dst text fs).
Proof.
  assert (Hne : ∀ x p, p = stage ∨ under stage p = true → join dst x ≠ p).
  { intros x p [->|Hu] Heq.
    - pose proof (under_join dst x) as Hu. rewrite Heq in Hu. unfold stage, dst in Hu.
      rewrite join_not_under in Hu by by apply stage_plain. done.
    - subst p. by rewrite stage_apart in Hu. }
  apply (t_RemoveAll Hrel).
  - intros fs l H. exact H.
  - intros fs p [[i Hm] Hs] Hp. split; [exists i; apply file_at_delete; auto|]. intros j Hj.
    destruct (Hs j Hj) as [h Hf]. exists h. apply file_at_delete; auto.
Qed.

Lemma nblocks_fuel :
  (nblocks cfg c < Z.to_nat (zlen c / (cfg.(BlockBytes) * cfg.(DataShards))) + 2)%nat.
Proof.
  pose proof (span_pos cfg Hac) as Hs. pose proof (nblocks_spec cfg Hac c (pred (nblocks cfg c))) as H.
  destruct Hac. assert (Hz : cfg.(BlockBytes) * cfg.(DataShards) = Z.of_nat (span cfg)) by (unfold span; lia).
  rewrite Hz. unfold zlen. rewrite <- Nat2Z.inj_div, Nat2Z.id.
  destruct (nblocks cfg c) as [|n]; [lia|]. simpl in H. destruct H as [H _]. specialize (H ltac:(lia)).
  pose proof (Nat.div_le_lower_bound (length c) (span cfg) n ltac:(lia) ltac:(lia)). lia.
Qed.

Lemma t_encode_stage :
  runs (staged [] []) (encode_stage cfg i0 (zlen c) (sha256hex (of_chars c)) dst stage)
    (fun fs m => (∃ k, m = manifest_of cfg c (clock k)) ∧ holds_shards dst (manifest_text m) fs).
Proof.
  unfold encode_stage. change (Z.to_nat (DataShards cfg + ParityShards cfg)) with (total cfg).
  eapply t_bind; [by apply (t_create_shards (total cfg) [] [])|]. intros hs.
  apply t_pre with (length hs = total cfg); [by intros fs []|]. intros Hlen. cbn [app].
  eapply t_bind.
  { eapply (t_weaken (staged hs (outs_at 0))); [apply (t_encode_blocks _ hs 0 Hlen); [lia|]| |intros fs a Ha; exact Ha].
    - pose proof nblocks_fuel. lia.
    - intros fs [_ Hs]. by rewrite outs_at_0. }
  intros n. apply t_pre with (n = nblocks cfg c); [by intros fs []|]. intros ->.
  apply (t_bind _ _ _ (fun fs _ => staged hs (outs_at (nblocks cfg c)) fs)).
  { eapply t_weaken; [apply t_sync_all|by intros fs [_ H]|done]. }
  intros u. eapply t_bind; [apply t_now|]. intros now.
  apply t_pre with (∃ k, now = clock k); [by intros fs []|]. intros [k ->].
  eapply t_bind.
  { eapply (t_weaken (staged hs (outs_at (nblocks cfg c)))); [apply (t_describe hs (total cfg) 0); lia|by intros fs []|intros fs a Ha; exact Ha]. }
  intros l. apply t_pre with (l = shard_of cfg c <$> seq 0 (total cfg)); [by intros fs []|]. intros ->.
  fold (manifest_of cfg c (clock k)). set (m := manifest_of cfg c (clock k)).
  apply (t_bind _ _ _ (fun fs _ => room fs ∧ holds_shards stage (manifest_text m) fs)).
  { eapply t_weaken; [by apply t_write_manifest|by intros fs []|done]. }
  intros u'. eapply t_bind; [apply (t_Stat_nowhere Hrel); intros fs [Hr _]; apply Hr|]. intros r.
  apply t_pre with (∃ e, r = inl e ∧ is_not_exist e = true); [by intros fs []|]. intros (e & -> & ->).
  eapply t_bind; [eapply t_weaken; [apply (t_publish (manifest_text m))|by intros fs []|done]|].
  intros u''. apply t_ret. intros fs H. split; [by exists k|done].
Qed.
End Staging.

(** ** [EncodeFile] *)

Section Encode.
Context {RS : ReedSolomon} {E : Env} {O : OS} {T : TempDirs} (Hrel : ∀ k, fault k = None).
Context (cfg : Config) (Hac : accepted cfg) (src : string) (c : list ascii).
Context (parent name : string) (Hname : "/"%char ∉ chars name) (Hpat : HasPrefix name ".erasure-" = false).

(** The source is there, and the place of the result is free. *)
Record ready (fs : FS) : Prop := {
  re_src : ∃ i, file_at fs src i (of_chars c);
  re_parent : existsb (occupied fs) (parent :: ancestors parent) = false;
  re_dst : nowhere fs (join parent name);
  re_empty : ∀ q, q ∈ fs.(dirs) → under (join parent name) q = false
}.

Lemma above_shorter q : q ∈ parent :: ancestors parent → (String.length q ≤ String.length parent)%nat.
Proof. intros [->|Hq%ancestors_under%under_longer]%elem_of_cons; lia. Qed.

Lemma dirs_set fs l : dirs (fs <| dirs := l |>) = l.
Proof. done. Qed.

Lemma ready_made fs :
  ready fs →
  ready (fs <| dirs := list_to_set (parent :: ancestors parent) ∪ fs.(dirs) |>) .
Proof.
  intros [H1 H2 (Ho & Hd & Ha) H4]. pose proof (join_longer parent name) as Hl. split; try done.
  - split_and!; [done| |done]. apply not_dir_spec in Hd as [Hd1 Hd2]. apply not_dir_spec. split; [|done].
    rewrite dirs_set, elem_of_union, elem_of_list_to_set. intros [H%above_shorter|H]; [lia|done].
  - intros q. rewrite dirs_set, elem_of_union, elem_of_list_to_set. intros [Hq%above_shorter|Hq]; [|by apply H4].
    destruct (under _ q) eqn:Hu; [|done]. apply under_longer in Hu. lia.
Qed.

Lemma ready_staged fs tmp i :
  ready fs → file_at fs src i (of_chars c) → parent ∈ fs.(dirs) → "/"%char ∉ chars tmp →
  is_dir fs (stage parent tmp) = false →
  (∀ q, q ∈ fs.(dirs) → under (stage parent tmp) q = false) →
  staged src i c parent name tmp [] [] (fs <| dirs := {[stage parent tmp]} ∪ fs.(dirs) |>).
Proof.
  intros [_ _ (Ho & Hd & Ha) He] Hsrc Hp Ht Hf Hu. apply not_dir_spec in Hf as [Hf1 Hf2].
  pose proof (stage_plain tmp Ht) as Hst.
  split; [split| | | | |]; try done.
  - rewrite dirs_set. by apply elem_of_union_r.
  - rewrite dirs_set. apply elem_of_union_l. by apply elem_of_singleton.
  - intros q. rewrite dirs_set, elem_of_union, elem_of_singleton. intros [->|Hq]; [|by apply Hu].
    destruct (under _ _) eqn:E'; [|done]. apply under_longer in E'. lia.
  - split_and!; [done| |done]. apply not_dir_spec in Hd as [Hd1 Hd2]. apply not_dir_spec. split; [|done].
    rewrite dirs_set, elem_of_union, elem_of_singleton. intros [H|H]; [|done]. apply join_inj in H.
    by apply (stage_not_name name Hpat tmp).
  - intros q. rewrite dirs_set, elem_of_union, elem_of_singleton. intros [->|Hq]; [|by apply He].
    by apply join_not_under.
  - destruct Hsrc as (Hsrc & _). by eapply Hf2.
  - apply not_elem_of_nil.
  - apply NoDup_nil_2.
  - cbn. intros q [j Hj] Hq. by rewrite (Hf2 q j Hj) in Hq.
Qed.

Theorem t_EncodeFile :
  runs ready (EncodeFile src (join parent name) cfg)
    (fun fs m => (∃ k, m = manifest_of cfg c (clock k)) ∧
       holds_shards cfg c (join parent name) (manifest_text m) fs).
Proof.
  intros k fs Hr. destruct (re_src _ Hr) as [i Hi]. revert k fs Hr Hi.
  enough (Hmain : runs (fun fs => ready fs ∧ file_at fs src i (of_chars c)) (EncodeFile src (join parent name) cfg)
    (fun fs m => (∃ k, m = manifest_of cfg c (clock k)) ∧
       holds_shards cfg c (join parent name) (manifest_text m) fs)) by (intros k fs Hr Hi; by apply Hmain).
  set (P := fun fs => ready fs ∧ file_at fs src i (of_chars c)). unfold EncodeFile.
  assert (valid_config cfg = true) as ->.
  { unfold valid_config. destruct Hac. rewrite !(proj2 (Z.ltb_ge _ _)) by lia. done. }
  cbn [negb]. rewrite (ac_new _ Hac).
  eapply t_bind; [apply (t_Open Hrel P src i (of_chars c)); by intros fs []|]. intros f.
  apply t_pre with (f = i); [by intros fs []|]. intros ->.
  apply (t_bind _ _ _ (fun fs a => P fs ∧ a = zlen c)).
  { eapply t_weaken; [apply (t_look Hrel P)|by intros fs []|]. cbn. intros fs a [HP ->]. split; [done|].
    destruct HP as [_ (_ & _ & ->)]. apply slen_of_chars. }
  intros size. apply t_pre with (size = zlen c); [by intros fs []|]. intros ->.
  apply (t_bind _ _ _ (fun fs a => P fs ∧ a = sha256hex (of_chars c))).
  { eapply t_bind; [eapply (t_weaken P); [apply (t_ReadFile Hrel P src i (of_chars c)); by intros fs []|by intros fs []|intros fs a Ha; exact Ha]|].
    intros x. apply t_ret. by intros fs [HP ->]. }
  intros h. apply t_pre with (h = sha256hex (of_chars c)); [by intros fs []|]. intros ->.
  rewrite Dir_join by done.
  apply (t_bind _ _ _ (fun fs _ => P fs ∧ parent ∈ fs.(dirs))).
  { apply (t_call Hrel). intros t fs [[Hr Hi] _]. rewrite (re_parent _ Hr). split; [split; [by apply ready_made|done]|].
    rewrite dirs_set. apply elem_of_union_l, elem_of_list_to_set. by left. }
  intros u.
  apply (t_bind _ _ _ (fun fs a => ∃ tmp, "/"%char ∉ chars tmp ∧ a = stage parent tmp ∧
    staged src i c parent name tmp [] [] fs)).
  { apply (t_call Hrel). intros t fs [[Hr Hi] Hp]. rewrite (is_dir_intro _ _ Hp). cbv zeta.
    destruct (temp_dir_name fs parent ".erasure-") as (tmp & Ht & Hn).
    destruct (temp_dir_free fs parent ".erasure-") as [_ Hd]. pose proof (temp_dir_empty fs parent ".erasure-") as He.
    rewrite Hn in *. exists tmp. split_and!; [done|done|]. by apply ready_staged. }
  intros a. apply t_pre with (∃ tmp, "/"%char ∉ chars tmp ∧ a = stage parent tmp).
  { intros fs (tmp & Ht & Ha & _). by exists tmp. }
  intros (tmp & Ht & ->).
  apply (t_weaken (staged src i c parent name tmp [] []) _ (fun fs m => (∃ k, m = manifest_of cfg c (clock k)) ∧
    holds_shards cfg c (join parent name) (manifest_text m) fs)); [| |done].
  - apply t_finally; [by apply t_encode_stage|]. intros m.
    apply t_pre with (∃ k, m = manifest_of cfg c (clock k)); [by intros fs []|]. intros Hm.
    eapply t_weaken; [by apply (t_clean Hrel cfg c parent name Hname Hpat tmp Ht (manifest_text m))|by intros fs []|].
    by intros fs u'.
  - intros fs (tmp' & _ & Heq & Hs). unfold stage in Heq. apply join_inj in Heq.
    assert (tmp = tmp') as ->; [|done]. apply (f_equal chars) in Heq. rewrite !chars_app in Heq.
    apply app_inv_head in Heq. by apply chars_inj.
Qed.
End Encode.
End CodecDisk.
