(* ===== verification/CodecBack.v ===== *)
(** * What [Reconstruct] gives back (internal/erasure)

    On a disk that does not fail, [Reconstruct] writes the encoded text if the
    manifest and enough shard files are as [EncodeFile] left them. *)

From Stdlib Require Import Ascii String.
From S2P Require Import Prelude GoStd Text JsonText JsonStruct GoTime Sha256 Control FileSystem FileTree ErasureCodec CodecRules CodecDisk.
#[global] Open Scope Z_scope.

Module CodecBack.
Import ErasureCodec CodecRules CodecDisk.

Section Back.
Context {RS : ReedSolomon} {E : Env} {O : OS} (Hrel : ∀ k, fault k = None).
Context (cfg : Config) (Hac : accepted cfg) (c : list ascii) (dir : string).
Implicit Types (fs : FS).

Notation n := (nblocks cfg c).
Definition text_at (j : nat) : string := of_chars (shard_text cfg c n j).
Definition shard_file (j : nat) : string := join dir (shard_name j).

(** The shard file is as it was written. *)
Definition intact fs (j : nat) : bool := bool_decide (read_at fs (shard_file j) = inr (text_at j)).

(** ** Opening *)

Lemma by_index_seq a k j :
  List.filter (fun sh => sh.(sh_Index) =? Z.of_nat j) (shard_of cfg c <$> seq a k) =
  if (a <=? j)%nat && (j <? a + k)%nat then [shard_of cfg c j] else [].
Proof.
  revert a. induction k as [|k IH]; intros a; cbn [seq fmap list_fmap List.filter].
  - destruct (Nat.leb_spec a j), (Nat.ltb_spec j (a + 0)); try done; lia.
  - change (list_fmap nat Shard (shard_of cfg c) (seq (S a) k)) with (shard_of cfg c <$> seq (S a) k).
    rewrite IH. cbn [shard_of sh_Index]. destruct (Z.eqb_spec (Z.of_nat a) (Z.of_nat j)) as [Heq|Hne].
    + assert (a = j) as -> by lia.
      destruct (Nat.leb_spec (S j) j), (Nat.leb_spec j j), (Nat.ltb_spec j (S j + k)), (Nat.ltb_spec j (j + S k));
        try done; lia.
    + destruct (Nat.leb_spec (S a) j), (Nat.leb_spec a j), (Nat.ltb_spec j (S a + k)), (Nat.ltb_spec j (a + S k));
        try done; lia.
Qed.

Lemma by_index_shard j : (j < total cfg)%nat →
  by_index (shard_of cfg c <$> seq 0 (total cfg)) j = Some (shard_of cfg c j).
Proof. intros Hj. unfold by_index. rewrite by_index_seq. by rewrite (proj2 (Nat.ltb_lt _ _)) by lia. Qed.

Lemma shard_path_of j : shard_path dir (shard_of cfg c j) = shard_file j.
Proof. unfold shard_path, shard_file. cbn [shard_of sh_Name]. by rewrite shard_name_joined. Qed.

(** No other text that is found in place of a shard has its hash. *)
Definition distinct fs : Prop :=
  ∀ j x, (j < total cfg)%nat → read fs (shard_file j) = Some x →
    sha256hex x = sha256hex (text_at j) → x = text_at j.

(** An open shard is intact, and every intact shard is open. *)
Definition opened fs (j : nat) (o : option positive) : Prop :=
  match o with
  | Some i => intact fs j = true ∧ file_at fs (shard_file j) i (text_at j)
  | None => intact fs j = false
  end.

#[local] Instance sum_fmap {A} : FMap (sum A) := fun B C f s =>
  match s with inl e => inl e | inr b => inr (f b) end.

Lemma t_try_hash fs1 p :
  runs (fun fs => fs = fs1) (try (hashFile p)) (fun fs r => fs = fs1 ∧ r = sha256hex <$> read_at fs1 p).
Proof.
  intros k fs ->. unfold try, hashFile, ReadFile, syscall, mbind, disk_bind, mret, disk_ret. cbv beta. rewrite Hrel.
  by destruct (read_at fs1 p).
Qed.

Lemma t_open_shard fs1 j :
  distinct fs1 → (j < total cfg)%nat →
  runs (fun fs => fs = fs1) (open_shard dir (Some (shard_of cfg c j)))
    (fun fs o => fs = fs1 ∧ opened fs1 j o).
Proof.
  intros Hd Hj. unfold open_shard. rewrite shard_path_of.
  eapply t_bind; [apply t_try_hash|]. intros r.
  apply t_pre with (r = sha256hex <$> read_at fs1 (shard_file j)); [by intros fs []|]. intros ->.
  eapply (t_weaken (fun fs => fs = fs1)); [|by intros fs []|intros fs x Hx; exact Hx].
  destruct (read_at fs1 (shard_file j)) as [e|x] eqn:Hr; cbn [fmap sum_fmap].
  { apply t_ret. intros fs ->. split; [done|]. cbn. unfold intact. by rewrite Hr, bool_decide_eq_false_2. }
  cbn [shard_of sh_SHA256]. fold (text_at j).
  assert (Hf : ∃ i, file_at fs1 (shard_file j) i x).
  { unfold read_at, inode_at in Hr. destruct (entries fs1 !! shard_file j) as [i|] eqn:Hi; cbn in Hr;
      [|by destruct (is_dir _ _)]. destruct (i_regular _) eqn:Hreg; [|done]. injection Hr as Hx.
    exists i. done. }
  destruct Hf as [i Hf]. destruct (EqualFold (sha256hex x) (sha256hex (text_at j))) eqn:He.
  - apply hash_fold, (Hd j x Hj (file_at_read _ _ _ _ Hf)) in He as ->.
    eapply t_bind; [apply t_try, (t_Open Hrel (fun fs => fs = fs1) _ i (text_at j)); by intros fs ->|].
    intros r. apply t_pre with (r = inr i); [by intros fs (a & -> & _ & ->)|]. intros ->.
    apply t_ret. intros fs (a & _ & -> & _). split; [done|]. split; [|done].
    unfold intact. by rewrite Hr, bool_decide_eq_true_2.
  - apply t_ret. intros fs ->. split; [done|]. cbn. unfold intact. rewrite Hr.
    apply bool_decide_eq_false. intros [= ->]. by rewrite EqualFold_refl in He.
Qed.

Lemma t_open_shards fs1 a k :
  distinct fs1 → (a + k ≤ total cfg)%nat →
  runs (fun fs => fs = fs1) (open_shards dir (shard_of cfg c <$> seq 0 (total cfg)) (seq a k))
    (fun fs ins => fs = fs1 ∧ Forall2 (opened fs1) (seq a k) ins).
Proof.
  intros Hd. revert a. induction k as [|k IH]; intros a Ha; cbn [seq open_shards].
  - apply t_ret. intros fs ->. by split.
  - rewrite by_index_shard by lia. eapply t_bind; [apply t_open_shard; [done|lia]|]. intros o.
    apply t_pre with (opened fs1 a o); [by intros fs []|]. intros Ho.
    eapply t_bind; [eapply (t_weaken (fun fs => fs = fs1)); [apply IH; lia|by intros fs []|intros fs x Hx; exact Hx]|].
    intros ins. apply t_ret. intros fs [-> Hi]. split; [done|]. by constructor.
Qed.

Lemma opened_count fs1 js ins :
  Forall2 (opened fs1) js ins → zlen (omap id ins) = zlen (List.filter (intact fs1) js).
Proof.
  intros H. unfold zlen. f_equal. induction H as [|j o js ins Ho _ IH]; [done|]. cbn [List.filter].
  destruct o as [i|]; cbn in *; [destruct Ho as [-> _]; cbn; by rewrite IH|by rewrite Ho].
Qed.

(** ** Reading and writing blocks *)

Lemma t_read_block (P : FS → Prop) size off texts ins :
  (∀ fs, P fs → Forall2 (fun t o => ∀ i, o = Some i → (inode fs i).(i_content) = of_chars t) texts ins) →
  Forall (fun t => (off + size ≤ length t)%nat) texts →
  length texts = length ins →
  runs P (read_block size off ins)
    (fun fs have => P fs ∧ Forall2 (fun x h => h = None ∨ h = Some x) (take size ∘ drop off <$> texts) have ∧
       zlen (omap id have) = zlen (omap id ins)).
Proof.
  intros Hc Hs. revert ins Hc. induction Hs as [|t texts Ht Hs IH]; intros [|o ins] Hc Hl; try done;
    cbn [read_block].
  assert (Hc' : ∀ fs, P fs → Forall2 (fun t o => ∀ i, o = Some i → (inode fs i).(i_content) = of_chars t) texts ins).
  { intros fs HP. specialize (Hc fs HP). by inversion Hc. }
  specialize (IH ins Hc' ltac:(by injection Hl)).
  destruct o as [i|].
  - apply (t_bind _ _ _ (fun fs b => P fs ∧ b = take size (drop off t))).
    { eapply t_weaken; [apply (t_look Hrel P)|done|]. cbn. intros fs b [HP ->]. split; [done|].
      specialize (Hc fs HP). inversion Hc as [|? ? ? ? Hi]; subst. rewrite (Hi i eq_refl).
      unfold of_chars. by rewrite chars_of. }
    intros b. apply t_pre with (b = take size (drop off t)); [by intros fs []|]. intros ->.
    rewrite length_take, length_drop, (proj2 (Nat.ltb_ge _ _)) by lia.
    eapply t_bind; [eapply t_weaken; [exact IH|by intros fs []|intros fs x Hx; exact Hx]|].
    intros bs. apply t_ret. intros fs (HP & Hf & Hn). split_and!; [done|constructor; [by right|done]|].
    unfold zlen in *. cbn. lia.
  - eapply t_bind; [exact IH|]. intros bs. apply t_ret. intros fs (HP & Hf & Hn).
    split_and!; [done|constructor; [by left|done]|]. unfold zlen in *. cbn. lia.
Qed.

(** Appending to the result keeps what [J] says, with the longer text. *)
Lemma t_write_data (J : list ascii → FS → Prop) out rem data o :
  (∀ o x t fs, J o fs → J (o ++ x) (put out ((inode fs out).(i_content) +:+ of_chars x) t fs)) →
  0 ≤ rem →
  runs (J o) (write_data out rem data)
    (fun fs r => J (o ++ take (Z.to_nat rem) (concat data)) fs ∧
       r = rem - zlen (take (Z.to_nat rem) (concat data))).
Proof.
  intros HJ. revert rem o. induction data as [|s data IH]; intros rem o Hr; cbn [write_data concat].
  { apply t_ret. intros fs H. rewrite take_nil, app_nil_r. split; [done|]. unfold zlen. cbn. lia. }
  destruct (Z.ltb_spec 0 rem) as [Hp|Hn].
  - set (k := Z.to_nat (Z.min (zlen s) rem)).
    assert (Hk : take k s = take (Z.to_nat rem) s).
    { unfold k, zlen. destruct (Z.le_gt_cases (Z.of_nat (length s)) rem).
      - rewrite !take_ge by lia. done.
      - f_equal. lia. }
    eapply t_bind; [apply (t_WriteEnd Hrel _ _ _ (fun fs _ => J (o ++ take k s) fs)); auto|]. intros u.
    eapply t_weaken; [apply IH; unfold zlen; lia|done|]. intros fs r [H ->].
    assert (Hrest : Z.to_nat (rem - Z.min (zlen s) rem) = (Z.to_nat rem - length s)%nat) by (unfold zlen; lia).
    rewrite Hrest, Hk, <- app_assoc in *. rewrite take_app. split; [done|].
    unfold zlen. rewrite length_app, !length_take. lia.
  - apply t_ret. intros fs H. replace (Z.to_nat rem) with 0%nat by lia. rewrite take_0, app_nil_r.
    split; [done|]. unfold zlen. cbn. lia.
Qed.

(** ** The loop over the blocks *)

Section Decode.
Context (ins : list (option positive)) (out : positive) (tmp : string) (K : FS → Prop).
Context (HK : ∀ t x fs, K fs → K (put out x t fs)).

(** The result so far, and the shards that are read. *)
Record decoding (o : list ascii) fs : Prop := {
  de_out : file_at fs tmp out (of_chars o);
  de_ins : Forall2 (fun t f => ∀ i, f = Some i → i ≠ out ∧ (inode fs i).(i_content) = of_chars t)
    (shard_text cfg c n <$> seq 0 (total cfg)) ins;
  de_keep : K fs
}.

Lemma decoding_write o x t fs :
  decoding o fs → decoding (o ++ x) (put out ((inode fs out).(i_content) +:+ of_chars x) t fs).
Proof.
  intros [(H1 & H2 & H3) Hi Hk]. rewrite H3, <- of_chars_app. split; [by apply file_at_put| |by apply HK].
  eapply Forall2_impl; [exact Hi|]. intros s f Hf i Hs. destruct (Hf i Hs) as [Hne Hc]. split; [done|].
  by rewrite inode_put, bool_decide_eq_false_2.
Qed.

Lemma texts_blocks k : (k < n)%nat →
  take (bsize cfg) ∘ drop (k * bsize cfg) <$> (shard_text cfg c n <$> seq 0 (total cfg)) =
  block_code cfg (chunk cfg c k).
Proof.
  intros Hk. destruct (block_code_spec cfg Hac (chunk cfg c k) (chunk_length cfg c k)) as (_ & _ & _ & Hl & _).
  apply list_eq. intros j. rewrite !list_lookup_fmap. destruct (decide (j < total cfg)%nat) as [Hj|Hj].
  - rewrite lookup_seq_lt by done. cbn [fmap option_fmap option_map Nat.add].
    destruct (lookup_lt_is_Some_2 (block_code cfg (chunk cfg c k)) j) as [x Hx]; [lia|]. rewrite Hx. f_equal.
    change (piece (bsize cfg) (shard_text cfg c n j) k = x).
    rewrite shard_text_piece by done. by apply nth_lookup_Some.
  - rewrite lookup_seq_ge by lia. cbn. symmetry. apply lookup_ge_None. lia.
Qed.

Context (now : Time) (m := manifest_of cfg c now).

Lemma t_decode_blocks todo k :
  (todo + k = n)%nat → cfg.(DataShards) ≤ zlen (omap id ins) →
  runs (decoding (take (k * span cfg) c))
    (decode_blocks m ins out todo k (Z.of_nat (length c - k * span cfg)))
    (fun fs r => decoding c fs ∧ r = 0).
Proof.
  intros Ht Hd. revert k Ht. induction todo as [|todo IH]; intros k Ht; cbn [decode_blocks].
  { simpl in Ht. subst k. rewrite all_written by done. apply t_ret. intros fs H. split; [done|].
    pose proof (nblocks_spec cfg Hac c n). lia. }
  assert (Hk : (k < n)%nat) by lia. cbn [m manifest_of m_BlockBytes m_DataShards m_ParityShards].
  rewrite (proj2 (Z.ltb_ge _ _)) by (destruct Hac; lia).
  change (Z.to_nat (BlockBytes cfg)) with (bsize cfg). change (Z.to_nat (DataShards cfg)) with (ndata cfg).
  apply t_pre with (length (shard_text cfg c n <$> seq 0 (total cfg)) = length ins).
  { intros fs [_ Hi _]. by eapply Forall2_length. }
  intros Hlen. eapply t_bind.
  { apply (t_read_block _ _ _ (shard_text cfg c n <$> seq 0 (total cfg))); [| |exact Hlen].
    - intros fs [_ Hi _]. eapply Forall2_impl; [exact Hi|]. intros s f Hf i Hs. by apply Hf.
    - apply Forall_fmap, Forall_forall. intros j Hj%elem_of_seq. cbn [compose].
      rewrite shard_text_length by (done || lia). nia. }
  rewrite texts_blocks by done. intros have.
  apply t_pre with (rs_reconstruct cfg.(DataShards) cfg.(ParityShards) have = Some (block_code cfg (chunk cfg c k))).
  { intros fs (_ & Hf & Hn). apply block_recovered; [done|done|lia]. }
  intros ->. rewrite take_data by done.
  apply (t_bind _ _ _ (fun fs r => decoding (take (S k * span cfg) c) fs ∧
    r = Z.of_nat (length c - S k * span cfg))).
  { eapply (t_weaken (decoding (take (k * span cfg) c))).
    - apply (t_write_data decoding); [apply decoding_write|lia].
    - by intros fs [].
    - intros fs r. rewrite Nat2Z.id, block_written by done. intros [H ->]. split; [done|].
      rewrite data_shards_concat by (done || apply chunk_length). unfold zlen.
      rewrite length_take, padded_length by (done || apply chunk_length). lia. }
  intros r. apply t_pre with (r = Z.of_nat (length c - S k * span cfg)); [by intros fs []|]. intros ->.
  eapply t_weaken; [apply IH; lia|by intros fs []|done].
Qed.
End Decode.

(** ** [Reconstruct] *)

Section Result.
Context (now : Time) (m := manifest_of cfg c now) (Hm : manifest_ok m).
Context (parent name : string) (Hname : "/"%char ∉ chars name) (fs1 : FS).

Definition result : string := join parent name.
Definition part : string := join parent (name +:+ ".repoark-reconstruct.part").

Lemma part_plain : "/"%char ∉ chars (name +:+ ".repoark-reconstruct.part").
Proof. rewrite chars_app, elem_of_app. intros [H|H]; [done|]. simpl in H. set_solver. Qed.

Lemma part_not_result : part ≠ result.
Proof.
  intros H%join_inj%(f_equal chars). rewrite chars_app in H. apply (f_equal length) in H.
  rewrite length_app in H. simpl in H. lia.
Qed.

Definition made_dirs : gset string := list_to_set (parent :: ancestors parent) ∪ fs1.(dirs).

Definition place fs : Prop :=
  is_dir fs parent = true ∧ is_dir fs result = false ∧ apart part fs1 fs ∧ fs.(dirs) = made_dirs.

(** The manifest and enough shards are there, and the result can be written. *)
Record recoverable : Prop := {
  rc_manifest : ∃ i, file_at fs1 (join dir "manifest.json") i (manifest_text m);
  rc_enough : cfg.(DataShards) ≤ zlen (List.filter (intact fs1) (seq 0 (total cfg)));
  rc_distinct : distinct fs1;
  rc_parent : existsb (occupied fs1) (parent :: ancestors parent) = false;
  rc_result : is_dir fs1 result = false;
  rc_part : occupied fs1 part = false ∧ is_dir fs1 part = false
}.

Lemma place_put out x t fs : (∀ q, fs1.(entries) !! q ≠ Some out) → place fs → place (put out x t fs).
Proof.
  intros Ho (H1 & H2 & [H3 H4] & H5). split_and!; [done|done| |done]. split; [done|].
  intros q j Hq. rewrite inode_put, bool_decide_eq_false_2; [by apply (H4 q)|]. intros ->. by apply (Ho q).
Qed.

Lemma t_write_object ins out :
  cfg.(DataShards) ≤ zlen (omap id ins) → fs1.(entries) !! part = None →
  (∀ q, fs1.(entries) !! q ≠ Some out) →
  runs (decoding ins out part place []) (write_object m ins part result out)
    (fun fs _ => file_at fs result out (of_chars c) ∧ apart result fs1 fs ∧ fs.(dirs) = made_dirs).
Proof.
  intros Hd Hpart Hout. unfold write_object.
  eapply t_bind.
  { apply (t_weaken (decoding ins out part place (take (0 * span cfg) c)) _
      (fun fs r => decoding ins out part place c fs ∧ r = 0)); [|done|intros fs r Hr; exact Hr].
    replace (m_OriginalBytes m) with (Z.of_nat (length c - 0 * span cfg)) by (cbn; unfold zlen; lia).
    cbn [m manifest_of m_Blocks]. rewrite Nat2Z.id. apply t_decode_blocks; [|lia|done].
    intros t x fs. by apply place_put. }
  intros r. apply t_pre with (r = 0); [by intros fs []|]. intros ->. cbn.
  set (P := decoding ins out part place c).
  apply (t_bind _ _ _ (fun fs _ => P fs)); [eapply t_weaken; [apply (t_touch Hrel P)|by intros fs []|done]|]. intros u.
  apply (t_bind _ _ _ (fun fs _ => P fs)); [apply (t_touch Hrel P)|]. intros u'.
  apply (t_bind _ _ _ (fun fs x => P fs ∧ x = sha256hex (of_chars c))).
  { eapply t_bind; [apply (t_ReadFile Hrel P part out (of_chars c)); intros fs Hfs; apply Hfs|].
    intros x. apply t_ret. by intros fs [HP ->]. }
  intros x. apply t_pre with (x = sha256hex (of_chars c)); [by intros fs []|]. intros ->.
  rewrite EqualFold_refl. apply (t_call Hrel).
  intros t fs [[(H1 & H2 & H3) _ (Hp & Hr & [Hk Hi] & Hdirs)] _].
  rewrite H1, Hr. unfold result at 1. rewrite Dir_join, Hp by done. cbn [negb].
  rewrite bool_decide_eq_false_2.
  2: { rewrite Hk; [apply Hout|]. apply not_eq_sym, part_not_result. }
  split; [split; [by cbn; rewrite lookup_insert_eq|done]|]. split; [|done]. split; [|exact Hi].
  intros q Hq. cbn. rewrite lookup_insert_ne by done. destruct (decide (q = part)) as [->|Hp'].
  - by rewrite lookup_delete_eq.
  - rewrite lookup_delete_ne by done. by apply Hk.
Qed.

Lemma made_is_not p fs :
  is_dir fs (join parent p) = false →
  is_dir (fs <| dirs := list_to_set (parent :: ancestors parent) ∪ fs.(dirs) |>) (join parent p) = false.
Proof.
  intros [H1 H2]%not_dir_spec. apply not_dir_spec. split; [|done].
  rewrite dirs_set, elem_of_union, elem_of_list_to_set.
  intros [H%above_shorter|H]; [|done]. pose proof (join_longer parent p). lia.
Qed.

(** The new part file, next to the shards that are open. *)
Lemma decoding_starts fs t ins :
  fs = fs1 <| dirs := made_dirs |> → place fs → occupied fs part = false →
  Forall2 (opened fs1) (seq 0 (total cfg)) ins →
  decoding ins (unused fs) part place []
    (put (unused fs) "" t (fs <| entries := <[part := unused fs]> fs.(entries) |>)).
Proof.
  intros -> (Hp & Hr & [Hk _] & _) Hf Hi. set (fs := fs1 <| dirs := made_dirs |>) in *.
  apply not_occupied_spec in Hf. split; [apply file_at_created| |].
  - apply Forall2_fmap_l. eapply Forall2_impl; [exact Hi|]. intros j o Ho i ->. cbn in Ho.
    destruct Ho as (_ & (H1 & H2 & H3)). assert (Hne : i ≠ unused fs).
    { intros ->. by apply (unused_free fs (shard_file j)). }
    split; [done|]. rewrite inode_put, bool_decide_eq_false_2 by done. exact H3.
  - split_and!.
    + unfold is_dir in *. apply orb_true_iff in Hp as [Hp|Hp]; apply orb_true_iff; [by left|right].
      apply existsb_exists in Hp as (q & Hq & Hu). apply existsb_exists. exists q. split; [|done].
      apply list_elem_of_In, list_elem_of_fmap in Hq as ([q' i] & -> & Hi'%elem_of_map_to_list).
      apply list_elem_of_In, list_elem_of_fmap. exists (q', i). split; [done|]. apply elem_of_map_to_list.
      cbn. rewrite lookup_insert_ne; [done|]. intros <-. by rewrite Hf in Hi'.
    + apply not_dir_spec in Hr as [Hr1 Hr2]. apply not_dir_spec. split; [done|]. intros q i. cbn.
      destruct (decide (q = part)) as [->|Hq]; [intros _; apply join_not_under, part_plain|].
      rewrite lookup_insert_ne by done. apply Hr2.
    + split.
      * intros q Hq. cbn. by rewrite lookup_insert_ne.
      * intros q j Hq. rewrite inode_put, bool_decide_eq_false_2; [done|]. intros ->. by apply (unused_free fs q).
    + done.
Qed.

Lemma t_Reconstruct :
  recoverable →
  runs (fun fs => fs = fs1) (Reconstruct dir result)
    (fun fs _ => (∃ i, file_at fs result i (of_chars c) ∧ ∀ q, fs1.(entries) !! q ≠ Some i) ∧
       apart result fs1 fs ∧ fs.(dirs) = made_dirs).
Proof.
  intros [[im Hman] Hen Hdis Hpar Hres [Hpo Hpd]]. unfold Reconstruct.
  apply (t_bind _ _ _ (fun fs a => fs = fs1 ∧ a = m)).
  { unfold ReadManifest. eapply t_bind.
    - apply (t_ReadFile Hrel (fun fs => fs = fs1) _ im (manifest_text m)). by intros fs ->.
    - intros x. apply t_pre with (x = manifest_text m); [by intros fs []|]. intros ->.
      rewrite manifest_reads by done. apply t_ret. by intros fs [-> _]. }
  intros a. apply t_pre with (a = m); [by intros fs []|]. intros ->.
  cbn [m manifest_of m_DataShards m_ParityShards m_Shards]. rewrite (ac_new _ Hac).
  eapply t_bind.
  { eapply (t_weaken (fun fs => fs = fs1)); [apply (t_open_shards fs1 0 (total cfg)); [done|lia]|by intros fs []|].
    intros fs x Hx. exact Hx. }
  intros ins. apply t_pre with (Forall2 (opened fs1) (seq 0 (total cfg)) ins); [by intros fs []|]. intros Hins.
  pose proof (opened_count _ _ _ Hins) as Hcount. rewrite (proj2 (Z.ltb_ge _ _)) by lia.
  replace (Dir result) with parent by (symmetry; by apply Dir_join).
  set (fs2 := fs1 <| dirs := made_dirs |>).
  apply (t_bind _ _ _ (fun fs _ => fs = fs2)).
  { apply (t_call Hrel). intros t fs [-> _]. by rewrite Hpar. }
  intros u. assert (Hplace : place fs2).
  { split_and!; [|by apply made_is_not|done|done]. apply is_dir_intro. unfold fs2. rewrite dirs_set.
    apply elem_of_union_l, elem_of_list_to_set. by left. }
  change (result +:+ ".repoark-reconstruct.part") with ((parent +:+ "/" +:+ name) +:+ ".repoark-reconstruct.part").
  rewrite !text_assoc. change (parent +:+ "/" +:+ name +:+ ".repoark-reconstruct.part") with part.
  apply (t_bind _ _ _ (fun fs out => decoding ins out part place [] fs ∧ ∀ q, fs1.(entries) !! q ≠ Some out)).
  { apply (t_new Hrel); [intros fs ->|intros t fs ->|intros fs ->; done].
    - split; [by apply made_is_not|]. unfold part. rewrite Dir_join by apply part_plain. apply Hplace.
    - split; [by apply decoding_starts|]. intros q. apply (unused_free fs2). }
  intros out. apply t_pre with (∀ q, fs1.(entries) !! q ≠ Some out); [by intros fs []|]. intros Hout.
  apply t_on_error. eapply t_weaken; [apply (t_write_object ins out)|by intros fs []|].
  - lia.
  - by apply not_occupied_spec.
  - done.
  - intros fs v [Hf Hk]. split; [by exists out|done].
Qed.
End Result.
End Back.

(** ** A result that is reported is the object *)

Lemma h_Rename_read `{Env} `{OS} a b x :
  hoare (fun fs => read fs a = Some x) (Rename a b) (fun fs _ => read fs b = Some x) (fun _ _ => True).
Proof.
  apply h_syscall; [done|]. intros t fs Ha. unfold read, inode_at in *.
  destruct (entries fs !! a) as [i|] eqn:Hi; [|done].
  destruct (is_dir fs b); [done|]. destruct (negb _); [done|]. case_bool_decide as Hb.
  - by rewrite Hb.
  - cbn. by rewrite lookup_insert_eq.
Qed.

Lemma h_anything `{Env} `{OS} {A} (p : Disk A) : hoare (fun _ => True) p (fun _ _ => True) (fun _ _ => True).
Proof. intros k fs _. by destruct (p k fs) as [[k' fs'] [e|a]]. Qed.

Lemma h_ReadFile_text `{Env} `{OS} p :
  hoare (fun _ => True) (ReadFile p) (fun fs x => read fs p = Some x) (fun _ _ => True).
Proof.
  apply h_syscall; [done|]. intros t fs _. unfold read_at, read. destruct (inode_at fs p) as [i|]; [|done].
  by destruct (i_regular i).
Qed.

Lemma h_write_object `{ReedSolomon} `{Env} `{OS} m ins part dst out :
  hoare (fun _ => True) (write_object m ins part dst out)
    (fun fs _ => ∃ x, read fs dst = Some x ∧ EqualFold (sha256hex x) m.(m_ObjectSHA256) = true)
    (fun _ _ => True).
Proof.
  unfold write_object. eapply h_seq; [apply h_anything|done|]. intros r. case_match; [by apply h_throw|].
  do 2 (eapply h_seq; [apply h_anything|done|]; intros []).
  apply (h_seq _ _ _ (fun fs h => ∃ x, read fs part = Some x ∧ h = sha256hex x) (fun _ _ => True)); [|done|].
  { eapply h_seq; [apply h_ReadFile_text|done|]. intros x. apply h_ret. intros fs Hx. by exists x. }
  intros h. apply h_pre with (∃ x, h = sha256hex x); [intros fs (x & _ & ->); by exists x|]. intros [x ->].
  destruct (EqualFold _ _) eqn:He; [|by apply h_throw].
  intros k fs (y & Hy & Hs). pose proof (h_Rename_read part dst y k fs Hy) as Hr.
  destruct (Rename part dst k fs) as [[k' fs'] [e|u]]; [done|]. exists y. split; [done|]. by rewrite <- Hs.
Qed.

(** ** There and back *)

Lemma file_at_read_at fs p i x : file_at fs p i x → read_at fs p = inr x.
Proof. intros (H1 & H2 & H3). unfold read_at, inode_at. rewrite H1. cbn. by rewrite H2, H3. Qed.

Lemma read_at_file fs p x : read_at fs p = inr x → ∃ i, file_at fs p i x.
Proof.
  unfold read_at, inode_at. destruct (entries fs !! p) as [i|] eqn:Hi; cbn; [|by destruct (is_dir _ _)].
  destruct (i_regular _) eqn:Hreg; [|done]. intros [= Hx]. by exists i.
Qed.

(** The sizes fit the integers of the manifest, and the clock its dates. *)
Record measured `{Env} (cfg : Config) (c : list ascii) : Prop := {
  me_shards : cfg.(DataShards) + cfg.(ParityShards) ≤ max_int64;
  me_bytes : zlen c + cfg.(BlockBytes) * cfg.(DataShards) ≤ max_int64;
  me_clock k : is_Some (marshal_time (UTC (clock k)))
}.

Lemma ascii_text l : Forall (fun x => is_ascii x = true) l → valid_utf8 (of_chars l) = true.
Proof. intros H. by apply valid_of_chars, ascii_utf8. Qed.

Lemma hash_text s : valid_utf8 (sha256hex s) = true.
Proof.
  unfold valid_utf8. apply ascii_utf8. eapply Forall_impl; [apply sha256hex_hex|].
  intros x. destruct x as [[] [] [] [] [] [] [] []]; vm_compute; done.
Qed.

Lemma shard_name_text j : valid_utf8 (shard_name j) = true.
Proof.
  unfold valid_utf8. rewrite shard_name_chars. apply ascii_utf8.
  assert (Hn : Forall (fun x => is_ascii x = true) (chars (pretty (Z.of_nat j)))).
  { eapply Forall_impl; [apply pretty_Z_chars|]. intros x.
    destruct x as [[] [] [] [] [] [] [] []]; vm_compute; done. }
  repeat (apply Forall_app; split); [by repeat constructor| |by repeat constructor].
  unfold pad3. destruct (chars (pretty (Z.of_nat j))) as [|a [|b [|d l]]] eqn:E';
    rewrite ?chars_app, ?E'; cbn; repeat constructor; by (done || inversion Hn; subst; decompose_Forall_hyps).
Qed.

Lemma manifest_measured `{RS : ReedSolomon} `{Env} cfg (Hac : accepted cfg) c k :
  measured cfg c → manifest_ok (manifest_of cfg c (clock k)).
Proof.
  intros [H1 H2 H3]. pose proof (nblocks_bound cfg Hac c) as Hb. destruct Hac as [A1 A2 A3 _ _].
  assert (Hs : Z.of_nat (span cfg) = cfg.(BlockBytes) * cfg.(DataShards)) by (unfold span; lia).
  assert (Hbs : (0 < bsize cfg)%nat) by (unfold bsize; lia).
  assert (Hmin : min_int64 ≤ 0) by done. unfold zlen in *.
  split; cbn; unfold int64_range, zlen; try lia; try nia.
  - apply hash_text.
  - split; [done|apply H3].
  - apply Forall_fmap, Forall_forall. intros j Hj%elem_of_seq. cbn. unfold total in Hj.
    unfold shard_ok, int64_range. cbn -[Z.of_nat Z.le]. split_and!; try lia; [apply shard_name_text|apply hash_text].
Qed.

(** C25. What was encoded comes back.  On a disk that does not fail, [EncodeFile]
    of a readable file into a free directory succeeds, and leaves a manifest and
    [DataShards + ParityShards] shard files; in whatever state the file system is
    later, with the manifest as it was and at least [DataShards] of the shard files
    as they were (the others lost or changed, but not to a text with the same
    SHA-256), [Reconstruct] to a free place succeeds and writes the bytes of the
    file. *)
Theorem encoded_file_comes_back `{RS : ReedSolomon} `{E : Env} `{O : OS} `{T : TempDirs}
    cfg src c parent name k fs (dir := join parent name)
    (shard := fun j => join dir (shard_name j))
    (shards := seq 0 (Z.to_nat (cfg.(DataShards) + cfg.(ParityShards)))) :
  (∀ k, fault k = None) → accepted cfg → measured cfg c →
  "/"%char ∉ chars name → HasPrefix name ".erasure-" = false →
  ready src c parent name fs →
  ∃ k' fs' m, EncodeFile src dir cfg k fs = (k', fs', inr m) ∧
    (∀ p, p ∈ join dir "manifest.json" :: (shard <$> shards) → ∃ i x, file_at fs' p i x) ∧
    ∀ k1 fs1 place out,
      read_at fs1 (join dir "manifest.json") = read_at fs' (join dir "manifest.json") →
      cfg.(DataShards) ≤
        zlen (List.filter (fun j => bool_decide (read_at fs1 (shard j) = read_at fs' (shard j))) shards) →
      (∀ j x y, j ∈ shards → read fs1 (shard j) = Some x → read fs' (shard j) = Some y →
         sha256hex x = sha256hex y → x = y) →
      "/"%char ∉ chars out → existsb (occupied fs1) (place :: ancestors place) = false →
      is_dir fs1 (join place out) = false →
      occupied fs1 (join place (out +:+ ".repoark-reconstruct.part")) = false →
      is_dir fs1 (join place (out +:+ ".repoark-reconstruct.part")) = false →
      ∃ k2 fs2, Reconstruct dir (join place out) k1 fs1 = (k2, fs2, inr tt) ∧
        read fs2 (join place out) = Some (of_chars c).
Proof.
  intros Hrel Hac Hme Hname Hpat Hready.
  pose proof (t_EncodeFile Hrel cfg Hac src c parent name Hname Hpat k fs Hready) as He.
  destruct (EncodeFile src (join parent name) cfg k fs) as [[k' fs'] [e|m]] eqn:Hrun; [done|].
  fold dir in He. destruct He as [[kc ->] [[im Hman] Hsh]]. exists k', fs', (manifest_of cfg c (clock kc)). split; [exact Hrun|].
  split.
  { intros p [->|(j & -> & Hj%elem_of_seq)%list_elem_of_fmap]%elem_of_cons; [by eexists _, _|].
    destruct (Hsh j) as [h Hh]; [unfold total; lia|]. by eexists _, _. }
  intros k1 fs1 place out Hm Hn Hd Hout Hp Hres Hpo Hpd.
  assert (Hread : ∀ j, j ∈ shards → read_at fs' (shard j) = inr (text_at cfg c j) ∧
    read fs' (shard j) = Some (text_at cfg c j)).
  { intros j Hj%elem_of_seq. destruct (Hsh j) as [h Hh]; [unfold total; lia|].
    split; [by eapply file_at_read_at|by eapply file_at_read]. }
  rewrite (file_at_read_at _ _ _ _ Hman) in Hm.
  assert (Hrec : recoverable cfg c dir (clock kc) place out fs1).
  { split; try done; [by apply read_at_file| |].
    - etransitivity; [exact Hn|]. unfold zlen. rewrite (List.filter_ext_in (intact cfg c dir fs1)
        (fun j => bool_decide (read_at fs1 (shard j) = read_at fs' (shard j)))); [done|].
      intros j Hj%list_elem_of_In. unfold intact, shard_file. by rewrite (proj1 (Hread j Hj)).
    - intros j x Hj Hx Hs. assert (Hj' : j ∈ shards) by (apply elem_of_seq; unfold total in Hj; lia).
      destruct (Hread j Hj') as [_ Hr]. by apply (Hd j x _ Hj' Hx Hr). }
  pose proof (t_Reconstruct Hrel cfg Hac c dir (clock kc) (manifest_measured cfg Hac c kc Hme) place out Hout fs1
    Hrec k1 fs1 eq_refl) as Hr. unfold result in Hr.
  destruct (Reconstruct dir (join place out) k1 fs1) as [[k2 fs2] [e|[]]] eqn:Hrun'; [done|].
  exists k2, fs2. split; [done|]. destruct Hr as [[i [Hi _]] _]. by eapply file_at_read.
Qed.

(** C21. A reconstruction that is reported as done is one: whatever calls failed
    on the way, if [Reconstruct] succeeds then the target has a text with the hash
    of the manifest it read. *)
Theorem reconstructed_object_has_the_hash `{RS : ReedSolomon} `{E : Env} `{O : OS} dir dst k fs k' fs' text m :
  read fs (join dir "manifest.json") = Some text → unmarshal manifest_tags no_manifest text = Some m →
  Reconstruct dir dst k fs = (k', fs', inr tt) →
  ∃ x, read fs' dst = Some x ∧ EqualFold (sha256hex x) m.(m_ObjectSHA256) = true.
Proof.
  intros Ht Hm Hr.
  assert (Hh : hoare (fun fs => read fs (join dir "manifest.json") = Some text) (Reconstruct dir dst)
    (fun fs _ => ∃ x, read fs dst = Some x ∧ EqualFold (sha256hex x) m.(m_ObjectSHA256) = true) (fun _ _ => True)).
  { unfold Reconstruct. apply (h_seq _ _ _ (fun _ a => a = m) (fun _ _ => True)); [|done|].
    { unfold ReadManifest. apply (h_seq _ _ _ (fun _ b => b = text) (fun _ _ => True)); [|done|].
      - apply h_syscall; [done|]. intros t fs0 H0. unfold read_at. unfold read in H0.
        destruct (inode_at fs0 _) as [i|]; [|done]. injection H0 as <-. by destruct (i_regular i).
      - intros b. apply h_pre with (b = text); [done|]. intros ->. rewrite Hm. by apply h_ret. }
    intros a. apply h_pre with (a = m); [done|]. intros ->. case_match; [by apply h_throw|].
    apply (h_before (fun _ => True)); [|done].
    eapply h_seq; [apply h_anything|done|]. intros ins. case_match; [by apply h_throw|].
    do 2 (eapply h_seq; [apply h_anything|done|]; intros ?).
    eapply h_on_error; [apply h_write_object|]. intros e. eapply h_weaken; [apply h_anything|done..]. }
  specialize (Hh k fs Ht). by rewrite Hr in Hh.
Qed.
End CodecBack.
