(* ===== verification/CodecDemo.v ===== *)
(** * Erasure coding on a concrete disk

    Instances for examples, the simplest code (one parity shard for two data
    shards), and the witnesses for the theorems on the codec. *)

From Stdlib Require Import Ascii String.
From S2P Require Import Prelude GoStd Text JsonText JsonStruct GoTime Sha256 Control FileSystem FileTree ErasureCodec CodecRules CodecDisk CodecBack.
#[global] Open Scope Z_scope.

Module CodecDemo.
Import ErasureCodec CodecRules CodecDisk CodecBack.

(** ** A directory name longer than every name there is *)

Definition longest (l : list string) : nat := foldr (fun p n => Nat.max (String.length p) n) 0%nat l.

Lemma longest_spec l p : p ∈ l → (String.length p ≤ longest l)%nat.
Proof. induction 1; simpl; lia. Qed.

Definition names_of (fs : FS) : list string := (map_to_list fs.(entries)).*1 ++ elements fs.(dirs).

Definition long_name (fs : FS) : string := of_chars (replicate (S (longest (names_of fs))) "x"%char).

Lemma long_name_longer fs dir pat p :
  p ∈ names_of fs → (String.length p < String.length (join dir (pat +:+ long_name fs)))%nat.
Proof.
  intros Hp%longest_spec. rewrite <- (chars_length (join _ _)), chars_join, length_app. cbn [length].
  rewrite chars_app, length_app. unfold long_name, of_chars. rewrite chars_of, length_replicate. lia.
Qed.

Lemma entry_named fs p i : fs.(entries) !! p = Some i → p ∈ names_of fs.
Proof.
  intros H. apply elem_of_app. left. apply list_elem_of_fmap. exists (p, i). split; [done|].
  by apply elem_of_map_to_list.
Qed.

Lemma dir_named fs p : p ∈ fs.(dirs) → p ∈ names_of fs.
Proof. intros H. apply elem_of_app. right. by apply elem_of_elements. Qed.

#[export] Program Instance long_dirs : TempDirs := {|
  temp_dir fs dir pat := join dir (pat +:+ long_name fs)
|}.
Next Obligation.
  intros fs dir pat. exists (long_name fs). split; [|done]. unfold long_name, of_chars. rewrite chars_of.
  intros H%elem_of_replicate. by destruct H.
Qed.
Next Obligation.
  intros fs dir pat. pose proof (long_name_longer fs dir pat) as Hl. split.
  - apply not_occupied_spec. destruct (entries fs !! _) as [i|] eqn:E; [|done].
    apply entry_named, Hl in E. lia.
  - apply not_dir_spec. split; [intros H%dir_named%Hl; lia|]. intros q i H%entry_named%Hl.
    destruct (under _ q) eqn:Hu; [|done]. apply under_longer in Hu. lia.
Qed.
Next Obligation.
  intros fs dir pat q H%dir_named%(long_name_longer fs dir pat).
  destruct (under _ q) eqn:Hu; [|done]. apply under_longer in Hu. lia.
Qed.

(** ** Two data shards and their exclusive or *)

Definition xor_byte (a b : ascii) : ascii :=
  match a, b with
  | Ascii a0 a1 a2 a3 a4 a5 a6 a7, Ascii b0 b1 b2 b3 b4 b5 b6 b7 =>
      Ascii (xorb a0 b0) (xorb a1 b1) (xorb a2 b2) (xorb a3 b3) (xorb a4 b4) (xorb a5 b5) (xorb a6 b6)
        (xorb a7 b7)
  end.

Definition xor_bytes : list ascii → list ascii → list ascii := zip_with xor_byte.

Lemma xor_byte_back a b : xor_byte a (xor_byte a b) = b.
Proof. destruct a, b. simpl. by rewrite <- !xorb_assoc, !xorb_nilpotent, !xorb_false_l. Qed.

Lemma xor_byte_comm a b : xor_byte a b = xor_byte b a.
Proof. destruct a, b. simpl. f_equal; apply xorb_comm. Qed.

Lemma xor_bytes_back l1 l2 : length l1 = length l2 → xor_bytes l1 (xor_bytes l1 l2) = l2.
Proof.
  revert l2. induction l1 as [|a l1 IH]; intros [|b l2] H; try done. injection H as H. cbn.
  by rewrite xor_byte_back, (IH l2 H).
Qed.

Lemma xor_bytes_comm l1 l2 : xor_bytes l1 l2 = xor_bytes l2 l1.
Proof.
  revert l2. induction l1 as [|a l1 IH]; intros [|b l2]; try done. cbn. by rewrite xor_byte_comm, (IH l2).
Qed.

Definition xor_pair (data parity : Z) : bool := (data =? 2) && (parity =? 1).

Definition xor_encode (data parity : Z) (l : list (list ascii)) : option (list (list ascii)) :=
  match l with
  | [a; b] => if xor_pair data parity && (length a =? length b)%nat then Some [xor_bytes a b] else None
  | _ => None
  end.

Definition xor_reconstruct (data parity : Z) (l : list (option (list ascii))) : option (list (list ascii)) :=
  match l with
  | [Some a; Some b; _] => Some [a; b; xor_bytes a b]
  | [Some a; None; Some p] => Some [a; xor_bytes a p; p]
  | [None; Some b; Some p] => Some [xor_bytes b p; b; p]
  | _ => None
  end.

Lemma xor_encode_inv data parity l par :
  xor_encode data parity l = Some par →
  ∃ a b, l = [a; b] ∧ par = [xor_bytes a b] ∧ length a = length b ∧ data = 2 ∧ parity = 1.
Proof.
  destruct l as [|a [|b [|? ?]]]; try done. cbn. unfold xor_pair.
  destruct (Z.eqb_spec data 2); [|done]. destruct (Z.eqb_spec parity 1); [|done].
  destruct (Nat.eqb_spec (length a) (length b)); [|done]. intros [= <-]. by exists a, b.
Qed.

#[export] Program Instance xor_code : ReedSolomon := {|
  rs_new data parity := if xor_pair data parity then None else Some "not this code";
  rs_encode := xor_encode;
  rs_reconstruct := xor_reconstruct
|}.
Next Obligation.
  intros data parity. cbn. unfold xor_pair.
  destruct (Z.eqb_spec data 2) as [->|]; [|done]. by destruct (Z.eqb_spec parity 1) as [->|].
Qed.
Next Obligation.
  intros data parity size shards par He _ Hs.
  destruct (xor_encode_inv _ _ _ _ He) as (a & b & -> & -> & Hl & -> & ->). split; [done|].
  inversion Hs as [|? ? Ha _]; subst. repeat constructor. unfold xor_bytes. rewrite length_zip_with. lia.
Qed.
Next Obligation.
  intros data parity shards par have He _ Hh Hn.
  destruct (xor_encode_inv _ _ _ _ He) as (a & b & -> & -> & Hl & -> & ->). cbn in Hh.
  inversion Hh as [|? ? ? ? H1 Hh1]; subst. inversion Hh1 as [|? ? ? ? H2 Hh2]; subst.
  inversion Hh2 as [|? ? ? ? H3 Hh3]; subst. inversion Hh3; subst.
  destruct H1 as [->| ->], H2 as [->| ->], H3 as [->| ->]; cbn in *; try lia; try done.
  - rewrite (xor_bytes_comm a b). by rewrite xor_bytes_back.
  - by rewrite xor_bytes_back.
Qed.

(** ** A file of five bytes *)

#[export] Instance env : Env := {|
  clock _ := days_of 2026 3 7 * day_seconds * Second;
  fresh_token _ := "t"
|}.
#[local] Existing Instance reliable.

Definition small : Config := mkConfig 2 1 65536.
Definition hello : list ascii := chars "hello".
Definition disk : FS := from_files [("/b/hello.txt", "hello")].

Lemma small_accepted : accepted small.
Proof.
  split; try done. intros shards Hl Hs. change (DataShards small) with 2 in Hl. unfold zlen in Hl.
  destruct shards as [|a [|b [|? ?]]]; cbn in Hl; try lia.
  inversion Hs as [|? ? Ha Hs1]; subst. inversion Hs1 as [|? ? Hb _]; subst. cbn.
  rewrite (proj2 (Nat.eqb_eq _ _)) by congruence. by eexists.
Qed.

Lemma small_measured : measured small hello.
Proof. split; [done|done|]. intros k. eexists. vm_compute. reflexivity. Qed.

Lemma hello_ready : ready "/b/hello.txt" hello "/b/erasure" "digest" disk.
Proof.
  split; [by exists 1%positive|vm_compute; reflexivity| |].
  - split_and!; [vm_compute; reflexivity|vm_compute; reflexivity|].
    intros q Hq. change (q ∈ ["/b"; "/b/erasure"]) in Hq.
    apply elem_of_cons in Hq as [->|Hq]; [vm_compute; reflexivity|].
    apply list_elem_of_singleton in Hq as ->. vm_compute. reflexivity.
  - intros q Hq. assert (Hd : elements disk.(dirs) = ["/b"]) by (vm_compute; reflexivity).
    apply elem_of_elements in Hq. rewrite Hd in Hq. apply list_elem_of_singleton in Hq as ->.
    vm_compute. reflexivity.
Qed.

Definition shard_at (j : nat) : string := join "/b/erasure/digest" (shard_name j).

(** Another disk, with the manifest and two of the shards. *)
Definition moved_disk (m s1 s2 : string) : FS :=
  from_files [("/b/erasure/digest/manifest.json", m); ("/b/erasure/digest/shard-001.rs", s1);
              ("/b/erasure/digest/shard-002.rs", s2)].

Lemma moved_disk_reads m s1 s2 :
  read_at (moved_disk m s1 s2) "/b/erasure/digest/manifest.json" = inr m ∧
  is_Some (read (moved_disk m s1 s2) (shard_at 0)) = is_Some (@None string) ∧
  read_at (moved_disk m s1 s2) (shard_at 1) = inr s1 ∧ read_at (moved_disk m s1 s2) (shard_at 2) = inr s2 ∧
  read (moved_disk m s1 s2) (shard_at 1) = Some s1 ∧ read (moved_disk m s1 s2) (shard_at 2) = Some s2.
Proof. split_and!; reflexivity. Qed.

Lemma digest_dir : join "/b/erasure" "digest" = "/b/erasure/digest".
Proof. reflexivity. Qed.
Lemma r_hello : join "/r" "hello.txt" = "/r/hello.txt".
Proof. reflexivity. Qed.

(** C25: the file is encoded, the first shard is lost, and the rest is on another
    disk. *)
Theorem encoded_file_comes_back_witness :
  ∃ k' fs' m man s1 s2 k2 fs2,
    EncodeFile "/b/hello.txt" "/b/erasure/digest" small 0%nat disk = (k', fs', inr m) ∧
    Reconstruct "/b/erasure/digest" "/r/hello.txt" 0%nat (moved_disk man s1 s2) = (k2, fs2, inr tt) ∧
    read fs2 "/r/hello.txt" = Some "hello".
Proof.
  destruct (encoded_file_comes_back small "/b/hello.txt" hello "/b/erasure" "digest" 0%nat disk)
    as (k' & fs' & m & Hrun & Hfiles & Hback);
    [done|apply small_accepted|apply small_measured|by apply (bool_decide_unpack _); vm_compute|done|apply hello_ready|].
  assert (Hshards : seq 0 (Z.to_nat (DataShards small + ParityShards small)) = [0; 1; 2]%nat) by reflexivity.
  rewrite Hshards in Hfiles, Hback. change (join (join "/b/erasure" "digest") (shard_name ?j)) with (shard_at j) in *.
  destruct (Hfiles "/b/erasure/digest/manifest.json") as (im & man & Hman); [by left|].
  destruct (Hfiles (shard_at 1)) as (i1 & s1 & Hs1); [right; right; left|].
  destruct (Hfiles (shard_at 2)) as (i2 & s2 & Hs2); [right; right; right; left|].
  destruct (moved_disk_reads man s1 s2) as (Rm & R0 & R1 & R2 & Q1 & Q2).
  destruct (Hback 0%nat (moved_disk man s1 s2) "/r" "hello.txt") as (k2 & fs2 & Hrec & Hread).
  - etransitivity; [exact Rm|symmetry; by eapply file_at_read_at].
  - cbn [List.filter]. rewrite (bool_decide_eq_true_2 (read_at _ (shard_at 1) = _)).
    2: { etransitivity; [exact R1|symmetry; by eapply file_at_read_at]. }
    rewrite (bool_decide_eq_true_2 (read_at _ (shard_at 2) = _)).
    2: { etransitivity; [exact R2|symmetry; by eapply file_at_read_at]. }
    by destruct (bool_decide _).
  - intros j x y Hj Hx Hy _. apply elem_of_cons in Hj as [->|Hj].
    + exfalso. assert (H : is_Some (read (moved_disk man s1 s2) (shard_at 0))) by by exists x.
      rewrite R0 in H. by destruct H.
    + apply elem_of_cons in Hj as [->|Hj]; [|apply list_elem_of_singleton in Hj as ->].
      * apply file_at_read in Hs1. congruence.
      * apply file_at_read in Hs2. congruence.
  - by apply (bool_decide_unpack _); vm_compute.
  - vm_compute. reflexivity.
  - vm_compute. reflexivity.
  - vm_compute. reflexivity.
  - vm_compute. reflexivity.
  - exists k', fs', m, man, s1, s2, k2, fs2. rewrite digest_dir in Hrun, Hrec. rewrite r_hello in Hrec, Hread.
    split_and!; [exact Hrun|exact Hrec|exact Hread].
Defined.

(** ** A small manifest by hand: one block of two shards of four bytes *)

Definition hell : string := "hell".
Definition rest : string := of_chars ("o"%char :: replicate 3 zero_byte).
Definition sum : string := of_chars (xor_bytes (chars hell) (chars rest)).

Definition tiny : Manifest :=
  mkManifest 1 (sha256hex "hello") 5 2 1 4 1 (UTC 0)
    [mkShard 0 (shard_name 0) 4 (sha256hex hell); mkShard 1 (shard_name 1) 4 (sha256hex rest);
     mkShard 2 (shard_name 2) 4 (sha256hex sum)].

(** The second shard is lost. *)
Definition tiny_disk : FS :=
  from_files [("/e/manifest.json", manifest_text tiny); ("/e/shard-000.rs", hell); ("/e/shard-002.rs", sum)].

Definition rebuilt := Reconstruct "/e" "/r/hello.txt" 0%nat tiny_disk.

(** C21: the file is rebuilt from two of its three shards. *)
Theorem reconstructed_object_has_the_hash_witness :
  rebuilt.2 = inr tt ∧
  ∃ x, read rebuilt.1.2 "/r/hello.txt" = Some x ∧ EqualFold (sha256hex x) (sha256hex "hello") = true.
Proof.
  assert (H : rebuilt = (rebuilt.1.1, rebuilt.1.2, inr tt)) by (vm_compute; reflexivity).
  split; [by rewrite H|].
  apply (reconstructed_object_has_the_hash "/e" "/r/hello.txt" 0%nat tiny_disk rebuilt.1.1 rebuilt.1.2
    (manifest_text tiny) tiny); [vm_compute; reflexivity|vm_compute; reflexivity|exact H].
Defined.
End CodecDemo.
