(* ===== verification/Settings.v ===== *)
(** * The configuration file ([internal/config/config.go])

    All sections of the configuration, its defaults, the expansion of paths,
    [Load] and [Save], and [Validate].  [view] is the part of it that the other
    files read.  The YAML library, the home directory and the environment are
    parameters; the separator of paths is that of Unix. *)

From Stdlib Require Import QArith Ascii String.
From S2P Require Import Prelude GoStd Text Control FileSystem FileTree Config.
#[global] Open Scope Z_scope.

Module Settings.

#[local] Notation "r <| p ::= h |>" := (upd p h r) (at level 1, p at level 99, left associativity).

Record GitHubConfig := mkGitHubConfig {
  gh_APIURL : string;
  gh_GraphQLURL : string;
  gh_TokenEnv : string;
  gh_CloneProtocol : string;
  gh_Metadata : string;
  gh_IncludeForks : bool;
  gh_IncludeArchived : bool;
  gh_ReleaseAssets : bool;
  gh_Discussions : bool;
  gh_Packages : bool;
  gh_OCIExport : bool;
  gh_MaxAssetBytes : Z;
  gh_MaxArtifactBytes : Z;
  gh_MaxMetadataPages : Z;
  gh_ActionsArtifacts : bool;
  gh_ProjectsV2 : bool
}.

Record BackupConfig := mkBackupConfig {
  bk_Root : string;
  bk_Concurrency : Z;
  bk_CreateBundles : bool;
  bk_FetchLFS : bool;
  bk_VerifyAfterBackup : bool;
  bk_KeepManifests : Z
}.

Record GitLabRestoreDrillConfig := mkGitLabRestoreDrillConfig {
  gld_Enabled : bool;
  gld_WorkDir : string;
  gld_HTTPPort : Z;
  gld_SSHPort : Z;
  gld_Timeout : string;
  gld_KeepOnFailure : bool
}.

Record GitLabConfig := mkGitLabConfig {
  gl_Enabled : bool;
  gl_URL : string;
  gl_TokenEnv : string;
  gl_Image : string;
  gl_Hostname : string;
  gl_HTTPPort : Z;
  gl_HTTPSPort : Z;
  gl_SSHPort : Z;
  gl_DataDir : string;
  gl_Container : string;
  gl_RemoteHost : string;
  gl_PreserveNamespaces : bool;
  gl_RestoreDrill : GitLabRestoreDrillConfig
}.

Record DaemonConfig := mkDaemonConfig {
  dm_Interval : string;
  dm_RunOnStart : bool
}.

Record KMSAttestationConfig := mkKMSAttestationConfig {
  kms_Enabled : bool;
  kms_KeyID : string;
  kms_SigningAlgorithm : string;
  kms_Region : string;
  kms_Profile : string;
  kms_EndpointURL : string;
  kms_RequireValid : bool
}.

Record SecurityConfig := mkSecurityConfig {
  sec_RequireVerification : bool;
  sec_SignManifests : bool;
  sec_SigningKeyPath : string;
  sec_KMSAttestation : KMSAttestationConfig
}.

Record ObjectLockConfig := mkObjectLockConfig {
  lock_Enabled : bool;
  lock_Bucket : string;
  lock_Prefix : string;
  lock_Region : string;
  lock_EndpointURL : string;
  lock_Profile : string;
  lock_RequireEnabled : bool;
  lock_ExpectedMode : string;
  lock_MinRetentionDays : Z
}.

Record OffsiteConfig := mkOffsiteConfig {
  off_Enabled : bool;
  off_Backend : string;
  off_RepositoryEnv : string;
  off_PasswordEnv : string;
  off_RcloneRemote : string;
  off_KeepDaily : Z;
  off_KeepWeekly : Z;
  off_KeepMonthly : Z;
  off_Prune : bool;
  off_ObjectLock : ObjectLockConfig
}.

Record FleetAccountConfig := mkFleetAccountConfig {
  acc_Name : string;
  acc_APIURL : string;
  acc_GraphQLURL : string;
  acc_TokenEnv : string;
  acc_BackupRoot : string;
  acc_CloneProtocol : string
}.

Record FleetConfig := mkFleetConfig {
  fl_Enabled : bool;
  fl_Concurrency : Z;
  fl_Accounts : list FleetAccountConfig
}.

Record AuditConfig := mkAuditConfig {
  aud_Enabled : bool;
  aud_Required : bool;
  aud_Path : string
}.

Record CASConfig := mkCASConfig {
  cas_Enabled : bool;
  cas_Root : string;
  cas_MinFileSize : Z;
  cas_AutoCompact : bool
}.

Record PolicyConfig := mkPolicyConfig {
  pc_Enabled : bool;
  pc_EnforceInHealth : bool;
  pc_MaxBackupAge : string;
  pc_MaxFailedRepositories : Z;
  pc_MaxWarnings : Z;
  pc_RequireSignedManifest : bool;
  pc_RequireAudit : bool;
  pc_MaxRecoveryDrillAge : string;
  pc_MaxGitLabDrillAge : string;
  pc_MaxOffsiteAge : string;
  pc_MaxRecoveryDrillDuration : string;
  pc_MaxGitLabDrillDuration : string
}.

Record PackagePayloadConfig := mkPackagePayloadConfig {
  pk_Enabled : bool;
  pk_NPM : bool;
  pk_NuGet : bool;
  pk_Maven : bool;
  pk_RubyGems : bool;
  pk_MaxBytes : Z;
  pk_NPMRegistry : string;
  pk_NuGetRegistry : string;
  pk_MavenRegistry : string;
  pk_RubyGemsRegistry : string
}.

Record StoreConfig := mkStoreConfig {
  st_Driver : string;
  st_SQLitePath : string;
  st_DSNEnv : string
}.

Record GenerationConfig := mkGenerationConfig {
  gen_Enabled : bool;
  gen_Root : string;
  gen_RestoreRoot : string;
  gen_KeepPerRepo : Z
}.

Record MirroringConfig := mkMirroringConfig {
  mir_Enabled : bool;
  mir_AfterBackup : bool
}.

Record AgentConfig := mkAgentConfig {
  agc_Enabled : bool;
  agc_Listen : string;
  agc_ServerURL : string;
  agc_CAPath : string;
  agc_CAKeyPath : string;
  agc_ServerCertPath : string;
  agc_ServerKeyPath : string;
  agc_ClientCertPath : string;
  agc_ClientKeyPath : string;
  agc_AgentName : string;
  agc_Heartbeat : string;
  agc_ReplicationKeyPath : string;
  agc_Labels : gmap string string
}.

Record WebAuthConfig := mkWebAuthConfig {
  web_Enabled : bool;
  web_Mode : string;
  web_Issuer : string;
  web_ClientID : string;
  web_ClientSecretEnv : string;
  web_RedirectURL : string;
  web_SessionKeyEnv : string;
  web_GroupClaim : string;
  web_Scopes : list string;
  web_StepUpACRValues : list string;
  web_ViewerGroups : list string;
  web_OperatorGroups : list string;
  web_AdminGroups : list string;
  web_RequiredAMR : list string;
  web_SecureCookies : bool
}.

Record RestoreApprovalConfig := mkRestoreApprovalConfig {
  ra_Enabled : bool;
  ra_ApprovalTTL : string;
  ra_RequireDistinctApprover : bool;
  ra_Requesters : list string;
  ra_Approvers : list string
}.

Record RecoveryDrillConfig := mkRecoveryDrillConfig {
  rd_Enabled : bool;
  rd_SampleSize : Z;
  rd_WorkDir : string;
  rd_VerifyRefs : bool;
  rd_KeepOnFailure : bool
}.

Record ObservabilityConfig := mkObservabilityConfig {
  obs_Enabled : bool;
  obs_Listen : string
}.

Record NotificationConfig := mkNotificationConfig {
  ntf_Enabled : bool;
  ntf_OnSuccess : bool;
  ntf_OnFailure : bool;
  ntf_WebhookEnv : string;
  ntf_TelegramToken : string;
  ntf_TelegramChatID : string
}.

Record ControlPlaneConfig := mkControlPlaneConfig {
  cp_Enabled : bool;
  cp_Store : StoreConfig;
  cp_Workers : Config.WorkerConfig;
  cp_Scheduler : Config.SchedulerConfig;
  cp_Generations : GenerationConfig;
  cp_Mirroring : MirroringConfig;
  cp_Agents : AgentConfig;
  cp_Replication : Config.ReplicationConfig;
  cp_RestoreAuth : RestoreApprovalConfig;
  cp_Storage : Config.StorageDataConfig;
  cp_WebAuth : WebAuthConfig
}.

Record Config := mkConfig {
  c_Version : Z;
  c_GitHub : GitHubConfig;
  c_Backup : BackupConfig;
  c_GitLab : GitLabConfig;
  c_Daemon : DaemonConfig;
  c_Security : SecurityConfig;
  c_Offsite : OffsiteConfig;
  c_RecoveryDrill : RecoveryDrillConfig;
  c_Observability : ObservabilityConfig;
  c_Notifications : NotificationConfig;
  c_Fleet : FleetConfig;
  c_Audit : AuditConfig;
  c_CAS : CASConfig;
  c_Policy : PolicyConfig;
  c_Packages : PackagePayloadConfig;
  c_ControlPlane : ControlPlaneConfig
}.

#[export] Instance GitHubConfig_settable : Settable GitHubConfig :=
  fun r => mkGitHubConfig (r.(gh_APIURL)) (r.(gh_GraphQLURL)) (r.(gh_TokenEnv))
    (r.(gh_CloneProtocol)) (r.(gh_Metadata)) (r.(gh_IncludeForks)) (r.(gh_IncludeArchived))
    (r.(gh_ReleaseAssets)) (r.(gh_Discussions)) (r.(gh_Packages)) (r.(gh_OCIExport))
    (r.(gh_MaxAssetBytes)) (r.(gh_MaxArtifactBytes)) (r.(gh_MaxMetadataPages))
    (r.(gh_ActionsArtifacts)) (r.(gh_ProjectsV2)).
#[export] Instance BackupConfig_settable : Settable BackupConfig :=
  fun r => mkBackupConfig (r.(bk_Root)) (r.(bk_Concurrency)) (r.(bk_CreateBundles))
    (r.(bk_FetchLFS)) (r.(bk_VerifyAfterBackup)) (r.(bk_KeepManifests)).
#[export] Instance GitLabRestoreDrillConfig_settable : Settable GitLabRestoreDrillConfig :=
  fun r => mkGitLabRestoreDrillConfig (r.(gld_Enabled)) (r.(gld_WorkDir)) (r.(gld_HTTPPort))
    (r.(gld_SSHPort)) (r.(gld_Timeout)) (r.(gld_KeepOnFailure)).
#[export] Instance GitLabConfig_settable : Settable GitLabConfig :=
  fun r => mkGitLabConfig (r.(gl_Enabled)) (r.(gl_URL)) (r.(gl_TokenEnv)) (r.(gl_Image))
    (r.(gl_Hostname)) (r.(gl_HTTPPort)) (r.(gl_HTTPSPort)) (r.(gl_SSHPort)) (r.(gl_DataDir))
    (r.(gl_Container)) (r.(gl_RemoteHost)) (r.(gl_PreserveNamespaces)) (r.(gl_RestoreDrill)).
#[export] Instance SecurityConfig_settable : Settable SecurityConfig :=
  fun r => mkSecurityConfig (r.(sec_RequireVerification)) (r.(sec_SignManifests))
    (r.(sec_SigningKeyPath)) (r.(sec_KMSAttestation)).
#[export] Instance FleetAccountConfig_settable : Settable FleetAccountConfig :=
  fun r => mkFleetAccountConfig (r.(acc_Name)) (r.(acc_APIURL)) (r.(acc_GraphQLURL))
    (r.(acc_TokenEnv)) (r.(acc_BackupRoot)) (r.(acc_CloneProtocol)).
#[export] Instance FleetConfig_settable : Settable FleetConfig :=
  fun r => mkFleetConfig (r.(fl_Enabled)) (r.(fl_Concurrency)) (r.(fl_Accounts)).
#[export] Instance AuditConfig_settable : Settable AuditConfig :=
  fun r => mkAuditConfig (r.(aud_Enabled)) (r.(aud_Required)) (r.(aud_Path)).
#[export] Instance CASConfig_settable : Settable CASConfig :=
  fun r => mkCASConfig (r.(cas_Enabled)) (r.(cas_Root)) (r.(cas_MinFileSize))
    (r.(cas_AutoCompact)).
#[export] Instance StoreConfig_settable : Settable StoreConfig :=
  fun r => mkStoreConfig (r.(st_Driver)) (r.(st_SQLitePath)) (r.(st_DSNEnv)).
#[export] Instance GenerationConfig_settable : Settable GenerationConfig :=
  fun r => mkGenerationConfig (r.(gen_Enabled)) (r.(gen_Root)) (r.(gen_RestoreRoot))
    (r.(gen_KeepPerRepo)).
#[export] Instance AgentConfig_settable : Settable AgentConfig :=
  fun r => mkAgentConfig (r.(agc_Enabled)) (r.(agc_Listen)) (r.(agc_ServerURL)) (r.(agc_CAPath))
    (r.(agc_CAKeyPath)) (r.(agc_ServerCertPath)) (r.(agc_ServerKeyPath)) (r.(agc_ClientCertPath))
    (r.(agc_ClientKeyPath)) (r.(agc_AgentName)) (r.(agc_Heartbeat)) (r.(agc_ReplicationKeyPath))
    (r.(agc_Labels)).
#[export] Instance RecoveryDrillConfig_settable : Settable RecoveryDrillConfig :=
  fun r => mkRecoveryDrillConfig (r.(rd_Enabled)) (r.(rd_SampleSize)) (r.(rd_WorkDir))
    (r.(rd_VerifyRefs)) (r.(rd_KeepOnFailure)).
#[export] Instance ControlPlaneConfig_settable : Settable ControlPlaneConfig :=
  fun r => mkControlPlaneConfig (r.(cp_Enabled)) (r.(cp_Store)) (r.(cp_Workers))
    (r.(cp_Scheduler)) (r.(cp_Generations)) (r.(cp_Mirroring)) (r.(cp_Agents))
    (r.(cp_Replication)) (r.(cp_RestoreAuth)) (r.(cp_Storage)) (r.(cp_WebAuth)).
#[export] Instance Config_settable : Settable Config :=
  fun r => mkConfig (r.(c_Version)) (r.(c_GitHub)) (r.(c_Backup)) (r.(c_GitLab)) (r.(c_Daemon))
    (r.(c_Security)) (r.(c_Offsite)) (r.(c_RecoveryDrill)) (r.(c_Observability))
    (r.(c_Notifications)) (r.(c_Fleet)) (r.(c_Audit)) (r.(c_CAS)) (r.(c_Policy)) (r.(c_Packages))
    (r.(c_ControlPlane)).
#[export] Instance TieringConfig_settable : Settable TieringConfig :=
  fun r => mkTieringConfig (r.(tier_Enabled)) (r.(tier_ColdRoot)) (r.(tier_MinAge)) (r.(tier_MinBytes))
    (r.(tier_RcloneRemote)).

(** What the control plane reads of it. *)
Definition view (c : Config) : Config.Config :=
  let cp := c.(c_ControlPlane) in
  Config.mkConfig c.(c_GitHub).(gh_IncludeForks) c.(c_GitHub).(gh_IncludeArchived) c.(c_Backup).(bk_Root)
    c.(c_CAS).(cas_Root) cp.(cp_Agents).(agc_Labels) cp.(cp_Generations).(gen_Root)
    cp.(cp_Mirroring).(mir_Enabled) cp.(cp_Workers) cp.(cp_Scheduler) cp.(cp_Replication) cp.(cp_Storage).

(** ** [strings.ToUpper] *)

Definition ascii_upper (c : ascii) : ascii :=
  let n := N_of_ascii c in
  if (97 <=? n)%N && (n <=? 122)%N then ascii_of_N (n - 32) else c.

Definition ToUpper (s : string) : string := String.string_of_list_ascii (ascii_upper <$> chars s).

(** ** [filepath.Clean] and [filepath.Join] *)

Fixpoint clean_names (rooted : bool) (acc l : list string) : list string :=
  match l with
  | [] => rev acc
  | n :: l' =>
      if (n ≟ "") || (n ≟ ".") then clean_names rooted acc l'
      else if n ≟ ".." then
        match acc with
        | a :: acc' => clean_names rooted (if a ≟ ".." then n :: acc else acc') l'
        | [] => clean_names rooted (if rooted then [] else [n]) l'
        end
      else clean_names rooted (n :: acc) l'
  end.

Definition Clean (p : string) : string :=
  let rooted := HasPrefix p "/" in
  let body := String.concat "/" (clean_names rooted [] (names p)) in
  if rooted then "/" +:+ body else if body ≟ "" then "." else body.

Fixpoint Join (l : list string) : string :=
  match l with
  | [] => ""
  | e :: l' => if e ≟ "" then Join l' else Clean (String.concat "/" l)
  end.

(** ** [os.ExpandEnv] *)

Definition in_bounds (lo hi : N) (c : ascii) : bool := ((lo <=? N_of_ascii c) && (N_of_ascii c <=? hi))%N.

Definition isShellSpecialVar (c : ascii) : bool :=
  bool_decide (c ∈ ["*"; "#"; "$"; "@"; "!"; "?"; "-"]%char) || in_bounds 48 57 c.

Definition isAlphaNum (c : ascii) : bool :=
  (c ≟ "_"%char) || in_bounds 48 57 c || in_bounds 97 122 c || in_bounds 65 90 c.

Fixpoint span_alnum (l : list ascii) : list ascii :=
  match l with c :: l' => if isAlphaNum c then c :: span_alnum l' else [] | [] => [] end.

(** The text before the closing brace. *)
Fixpoint to_brace (l : list ascii) : option (list ascii) :=
  match l with
  | [] => None
  | c :: l' => if c ≟ "}"%char then Some [] else (cons c) <$> to_brace l'
  end.

(** The name after a dollar sign, and how many bytes it takes. *)
Definition getShellName (s : list ascii) : list ascii * nat :=
  match s with
  | [] => ([], 0%nat)
  | c :: l =>
      if c ≟ "{"%char then
        match l with
        | d :: e :: _ =>
            if isShellSpecialVar d && (e ≟ "}"%char) then ([d], 3%nat)
            else match to_brace l with
                 | Some [] => ([], 2%nat)
                 | Some n => (n, (length n + 2)%nat)
                 | None => ([], 1%nat)
                 end
        | _ => match to_brace l with Some _ => ([], 2%nat) | None => ([], 1%nat) end
        end
      else if isShellSpecialVar c then ([c], 1%nat)
      else (span_alnum s, length (span_alnum s))
  end.

(** The machine: its home directory (empty if there is none), its environment,
    the directory for configurations, and the YAML library, which decodes on top
    of a value. *)
Class Machine := {
  home : string;
  Getenv : string → string;
  UserConfigDir : option string;
  yaml_decode : string → Config → option Config;
  yaml_encode : Config → option string
}.

Section Settings.
Context {M : Machine}.

Fixpoint expand_chars (skip : nat) (l : list ascii) : list ascii :=
  match l with
  | [] => []
  | c :: l' =>
      match skip with
      | S skip' => expand_chars skip' l'
      | 0%nat =>
          if (c ≟ "$"%char) && negb (bool_decide (l' = [])) then
            let '(name, w) := getShellName l' in
            match name with
            | [] => (if (0 <? w)%nat then [] else [c]) ++ expand_chars w l'
            | _ :: _ => chars (Getenv (String.string_of_list_ascii name)) ++ expand_chars w l'
            end
          else c :: expand_chars 0 l'
      end
  end.

Definition ExpandEnv (s : string) : string := String.string_of_list_ascii (expand_chars 0 (chars s)).

Definition expand (s : string) : string :=
  if (s ≟ "~") || HasPrefix s "~/" then
    if s ≟ "~" then home else Join [home; String.string_of_list_ascii (drop 2 (chars s))]
  else ExpandEnv s.

(** ** Defaults *)

Definition Default_ControlPlane : ControlPlaneConfig :=
  mkControlPlaneConfig false (mkStoreConfig "sqlite" (Join [home; ".repoark"; "control";
    "repoark.db"]) "REPOARK_DATABASE_URL") (Config.mkWorkerConfig 2 "2s" "2m" 5)
    (Config.mkSchedulerConfig true "30s" "30m" "24h" [(Config.mkPolicy "*" "24h" 50 true)])
    (mkGenerationConfig true (Join [home; ".repoark"; "generations"]) (Join [home; ".repoark";
    "recovery"]) 14) (mkMirroringConfig false true) (mkAgentConfig false "127.0.0.1:9790"
    "https://127.0.0.1:9790" (Join [home; ".config"; "repoark"; "pki"; "ca.pem"]) (Join [home;
    ".config"; "repoark"; "pki"; "ca-key.pem"]) (Join [home; ".config"; "repoark"; "pki";
    "server.pem"]) (Join [home; ".config"; "repoark"; "pki"; "server-key.pem"]) (Join [home;
    ".config"; "repoark"; "pki"; "agent.pem"]) (Join [home; ".config"; "repoark"; "pki";
    "agent-key.pem"]) "local-agent" "15s" (Join [home; ".config"; "repoark"; "pki";
    "replication-x25519.key"]) {["role" := "backup-worker"]}) (Config.mkReplicationConfig false 2
    2 "1m" "2m" "2h" (Join [home; ".repoark"; "replication-spool"]) (Join [home; ".config";
    "repoark"; "pki"; "replication-local-x25519.key"]) true 21474836480 "" 0 [] [])
    (mkRestoreApprovalConfig false "30m" true [] []) (Config.mkStorageDataConfig true 10737418240
    10 "3s" true true "10m" 8388608 5 0 0 "cas_pool" (Config.mkDiskTelemetryConfig false "15m"
    "smartctl" "nvme" "" 70 90 0 60) (Config.mkScrubConfig false "24h" 100 true "")
    (Config.mkTieringConfig false (Join [home; ".repoark"; "cold-cas"]) "168h" 67108864 "")
    (Config.mkErasureConfig false 4294967296 6 3 1048576 false 1 "zone" 2 "cas_pool" "5m"))
    (mkWebAuthConfig false "oidc" "" "" "REPOARK_OIDC_CLIENT_SECRET" "" "REPOARK_SESSION_KEY"
    "groups" ["profile"; "email"; "groups"] [] [] [] [] [] true).

Definition Default : Config := mkConfig
    8
    (mkGitHubConfig "https://api.github.com" "https://api.github.com/graphql" "GITHUB_TOKEN"
    "https" "full" true true true true true false 2147483648 2147483648 100 true true)
    (mkBackupConfig (Join [home; ".repoark"; "backups"]) 4 true true true 30)
    (mkGitLabConfig false "http://gitlab.local:8080" "GITLAB_TOKEN" "gitlab/gitlab-ce:19.2.4-ce.0"
    "gitlab.local" 8080 8443 2222 (Join [home; ".repoark"; "gitlab"]) "repoark-gitlab" "" true
    (mkGitLabRestoreDrillConfig false (Join [home; ".repoark"; "gitlab-drills"]) 18080 12222 "20m"
    true))
    (mkDaemonConfig "24h" true)
    (mkSecurityConfig true true (Join [home; ".config"; "repoark"; "manifest-ed25519.key"])
    (mkKMSAttestationConfig false "" "ED25519_SHA_512" "" "" "" true))
    (mkOffsiteConfig false "restic" "RESTIC_REPOSITORY" "RESTIC_PASSWORD" "" 7 8 12 true
    (mkObjectLockConfig false "" "" "" "" "" false "" 0))
    (mkRecoveryDrillConfig false 3 (Join [home; ".repoark"; "drills"]) true true)
    (mkObservabilityConfig false "127.0.0.1:9787")
    (mkNotificationConfig false false true "REPOARK_WEBHOOK_URL" "REPOARK_TELEGRAM_TOKEN"
    "REPOARK_TELEGRAM_CHAT_ID")
    (mkFleetConfig false 2 [])
    (mkAuditConfig true false (Join [home; ".repoark"; "audit"; "ledger.jsonl"]))
    (mkCASConfig true (Join [home; ".repoark"; "cas"]) 1048576 true)
    (mkPolicyConfig true true "30h" 0 (-1) true false "" "" "" "" "")
    (mkPackagePayloadConfig false true true true true 2147483648 "https://npm.pkg.github.com"
    "https://nuget.pkg.github.com" "https://maven.pkg.github.com"
    "https://rubygems.pkg.github.com")
    Default_ControlPlane.

Definition ExpandPaths (c : Config) : Config :=
  c <| c_Backup ::= (fun r => r <| bk_Root ::= expand |>) |>
    <| c_GitLab ::= (fun r => r <| gl_DataDir ::= expand |>
         <| gl_RestoreDrill ::= (fun r => r <| gld_WorkDir ::= expand |>) |>) |>
    <| c_Security ::= (fun r => r <| sec_SigningKeyPath ::= expand |>) |>
    <| c_RecoveryDrill ::= (fun r => r <| rd_WorkDir ::= expand |>) |>
    <| c_Audit ::= (fun r => r <| aud_Path ::= expand |>) |>
    <| c_CAS ::= (fun r => r <| cas_Root ::= expand |>) |>
    <| c_ControlPlane ::= (fun cp => cp
         <| cp_Store ::= (fun r => r <| st_SQLitePath ::= expand |>) |>
         <| cp_Generations ::= (fun r => r <| gen_Root ::= expand |> <| gen_RestoreRoot ::= expand |>) |>
         <| cp_Agents ::= (fun r => r <| agc_CAPath ::= expand |> <| agc_CAKeyPath ::= expand |>
              <| agc_ServerCertPath ::= expand |> <| agc_ServerKeyPath ::= expand |>
              <| agc_ClientCertPath ::= expand |> <| agc_ClientKeyPath ::= expand |>
              <| agc_ReplicationKeyPath ::= expand |>) |>
         <| cp_Replication ::= (fun r => r <| rep_SpoolRoot ::= expand |> <| rep_LocalKeyPath ::= expand |>) |>
         <| cp_Storage ::= (fun r => r <| sd_Tiering ::= (fun t => t <| tier_ColdRoot ::= expand |>) |>) |>) |>
    <| c_Fleet ::= (fun r => r <| fl_Accounts ::= fmap (fun a => a <| acc_BackupRoot ::= expand |>) |>) |>.

(** ** Validation *)

Definition blank (s : string) : bool := TrimSpace s ≟ "".

(** [if bad { return errors.New(e) }] *)
Definition fails_if (bad : bool) (e : string) : option string := if bad then Some e else None.

Fixpoint first_error (l : list (option string)) : option string :=
  match l with [] => None | Some e :: _ => Some e | None :: l' => first_error l' end.

Definition when (b : bool) (l : list (option string)) : option string := if b then first_error l else None.

(** [d, err := time.ParseDuration(s); err != nil || d <= 0] *)
Definition not_positive (s : string) : bool :=
  match ParseDuration s with Some d => d <=? 0 | None => true end.

Definition outside (lo hi n : Z) : bool := (n <? lo) || (hi <? n).

Context {MO : MapOrder}.

(** A loop over a map of names to durations; the blank ones are skipped if that
    is said. *)
Definition positive_durations (prefix : string) (skip_blank : bool) (l : list (string * string)) : option string :=
  first_error ((fun '(name, value) =>
    fails_if (negb (skip_blank && blank value) && not_positive value)
      (prefix +:+ name +:+ " must be a positive duration")) <$> shuffle l).

Definition Validate_backup (c : BackupConfig) : option string := first_error [
  fails_if (c.(bk_Root) ≟ "") "backup.root is empty";
  fails_if (outside 1 32 c.(bk_Concurrency)) "backup.concurrency must be 1..32";
  fails_if (c.(bk_KeepManifests) <? 0) "backup.keep_manifests must be >= 0"].

Definition Validate_github (c : GitHubConfig) : option string := first_error [
  fails_if ((c.(gh_APIURL) ≟ "") || (c.(gh_GraphQLURL) ≟ "")) "github api_url/graphql_url is empty";
  fails_if ((c.(gh_CloneProtocol) ≠? "https") && (c.(gh_CloneProtocol) ≠? "ssh"))
    "github.clone_protocol must be https or ssh";
  fails_if ((c.(gh_Metadata) ≠? "none") && (c.(gh_Metadata) ≠? "basic") && (c.(gh_Metadata) ≠? "full"))
    "github.metadata must be none, basic or full";
  fails_if (c.(gh_MaxAssetBytes) <? 0) "github.max_asset_bytes must be >= 0";
  fails_if (c.(gh_MaxArtifactBytes) <? 0) "github.max_artifact_bytes must be >= 0";
  fails_if (outside 1 1000 c.(gh_MaxMetadataPages)) "github.max_metadata_pages must be 1..1000"].

Definition Validate_gitlab (c : GitLabConfig) : option string := when c.(gl_Enabled) [
  fails_if ((c.(gl_URL) ≟ "") || (c.(gl_Image) ≟ "") || (c.(gl_DataDir) ≟ ""))
    "gitlab url/image/data_dir required";
  first_error ((fun '(name, port) => fails_if (outside 1 65535 port) ("gitlab." +:+ name +:+ " must be 1..65535"))
    <$> shuffle [("http_port", c.(gl_HTTPPort)); ("https_port", c.(gl_HTTPSPort)); ("ssh_port", c.(gl_SSHPort))])].

Definition Validate_security (s : SecurityConfig) (verify_after_backup : bool) : option string := first_error [
  fails_if (s.(sec_RequireVerification) && negb verify_after_backup)
    "security.require_verification requires backup.verify_after_backup: true";
  fails_if (s.(sec_SignManifests) && (s.(sec_SigningKeyPath) ≟ ""))
    "security.signing_key_path is required when sign_manifests is enabled";
  let k := s.(sec_KMSAttestation) in
  when k.(kms_Enabled) [
    fails_if (blank k.(kms_KeyID)) "security.kms_attestation.key_id is required";
    fails_if (ToUpper (TrimSpace k.(kms_SigningAlgorithm)) ≠? "ED25519_SHA_512")
      "security.kms_attestation currently requires ED25519_SHA_512 (RAW message mode)"]].

Definition Validate_offsite (c : OffsiteConfig) : option string := when c.(off_Enabled) [
  if c.(off_Backend) ≟ "restic" then
    fails_if (c.(off_RepositoryEnv) ≟ "") "offsite.repository_env is required for restic"
  else if c.(off_Backend) ≟ "rclone" then
    fails_if (blank c.(off_RcloneRemote)) "offsite.rclone_remote is required for rclone"
  else Some "offsite.backend must be restic or rclone"].

Definition Validate_cas (c : CASConfig) : option string := when c.(cas_Enabled) [
  fails_if (blank c.(cas_Root)) "cas.root is required when cas is enabled";
  fails_if (c.(cas_MinFileSize) <? 0) "cas.min_file_size must be >= 0"].

Definition Validate_policy (p : PolicyConfig) : option string := when p.(pc_Enabled) [
  positive_durations "policy." true
    [("max_backup_age", p.(pc_MaxBackupAge)); ("max_recovery_drill_age", p.(pc_MaxRecoveryDrillAge));
     ("max_gitlab_drill_age", p.(pc_MaxGitLabDrillAge)); ("max_offsite_age", p.(pc_MaxOffsiteAge));
     ("max_recovery_drill_duration", p.(pc_MaxRecoveryDrillDuration));
     ("max_gitlab_drill_duration", p.(pc_MaxGitLabDrillDuration))];
  fails_if (p.(pc_MaxFailedRepositories) <? 0) "policy.max_failed_repositories must be >= 0"].

Fixpoint check_accounts (i : Z) (seen : list string) (l : list FleetAccountConfig) : option string :=
  match l with
  | [] => None
  | a :: l' =>
      if blank a.(acc_Name) || blank a.(acc_TokenEnv)
      then Some ("fleet.accounts[" +:+ pretty i +:+ "] requires name and token_env")
      else if bool_decide (a.(acc_Name) ∈ seen) then Some ("duplicate fleet account name " +:+ a.(acc_Name))
      else check_accounts (i + 1) (a.(acc_Name) :: seen) l'
  end.

Definition Validate_fleet (c : FleetConfig) : option string := when c.(fl_Enabled) [
  fails_if (outside 1 16 c.(fl_Concurrency)) "fleet.concurrency must be 1..16";
  check_accounts 0 [] c.(fl_Accounts)].

Definition Validate_store (c : StoreConfig) : option string :=
  let driver := ToLower (TrimSpace c.(st_Driver)) in
  if driver ≟ "sqlite" then fails_if (blank c.(st_SQLitePath)) "control_plane.store.sqlite_path is required"
  else if (driver ≟ "postgres") || (driver ≟ "postgresql") then
    fails_if (blank c.(st_DSNEnv)) "control_plane.store.dsn_env is required for postgres"
  else Some "control_plane.store.driver must be sqlite or postgres".

Definition Validate_workers (cp : ControlPlaneConfig) : option string :=
  let w := cp.(cp_Workers) in let s := cp.(cp_Scheduler) in
  first_error [
    fails_if (outside 1 64 w.(w_Concurrency)) "control_plane.workers.concurrency must be 1..64";
    fails_if (outside 1 100 w.(w_MaxAttempts)) "control_plane.workers.max_attempts must be 1..100";
    positive_durations "control_plane." true
      [("workers.poll_interval", w.(w_PollInterval)); ("workers.lease", w.(w_Lease));
       ("scheduler.tick", s.(sch_Tick)); ("scheduler.discovery_interval", s.(sch_DiscoveryInterval));
       ("scheduler.default_interval", s.(sch_DefaultInterval));
       ("agents.heartbeat", cp.(cp_Agents).(agc_Heartbeat))]].

Definition Validate_generations (g : GenerationConfig) : option string := when g.(gen_Enabled) [
  fails_if (blank g.(gen_Root)) "control_plane.generations.root is required";
  fails_if (g.(gen_KeepPerRepo) <? 1) "control_plane.generations.keep_per_repo must be >= 1"].

Definition check_policy (i : nat) (p : RepoSchedulePolicy) : option string :=
  let at_i := "control_plane.scheduler.policies[" +:+ pretty (Z.of_nat i) +:+ "]." in
  first_error [
    fails_if (blank p.(pol_Pattern)) (at_i +:+ "pattern is empty");
    fails_if (not_positive p.(pol_Interval)) (at_i +:+ "interval must be positive")].

Definition Validate_schedule (s : SchedulerConfig) : option string :=
  first_error (imap check_policy s.(sch_Policies)).

Definition Validate_replication (r : ReplicationConfig) : option string := when r.(rep_Enabled) [
  fails_if (outside 2 32 r.(rep_Factor)) "control_plane.replication.factor must be 2..32";
  fails_if (outside 1 r.(rep_Factor) r.(rep_MinHealthy)) "control_plane.replication.min_healthy must be 1..factor";
  if blank r.(rep_FailureDomainLabel) then
    fails_if (r.(rep_MinFailureDomains) ≠? 0)
      "control_plane.replication.min_failure_domains requires failure_domain_label"
  else
    fails_if (outside 1 r.(rep_Factor) r.(rep_MinFailureDomains))
      "control_plane.replication.min_failure_domains must be 1..factor";
  fails_if (blank r.(rep_SpoolRoot) || (r.(rep_MaxTransferBytes) <=? 0))
    "control_plane.replication spool_root and max_transfer_bytes are required";
  positive_durations "control_plane." false
    [("replication.reconcile_interval", r.(rep_ReconcileInterval));
     ("replication.agent_timeout", r.(rep_AgentTimeout)); ("replication.transfer_ttl", r.(rep_TransferTTL))];
  fails_if (r.(rep_IncludeLocal) && blank r.(rep_LocalKeyPath))
    "control_plane.replication.local_key_path is required when include_local=true"].

Definition Validate_scrub (s : ScrubConfig) : option string := when s.(scrub_Enabled) [
  fails_if (not_positive s.(scrub_Interval)) "control_plane.storage.scrub.interval must be positive";
  fails_if (s.(scrub_SampleObjects) <? 1) "control_plane.storage.scrub.sample_objects must be >= 1"].

Definition Validate_telemetry (t : DiskTelemetryConfig) : option string := when t.(dt_Enabled) [
  fails_if (not_positive t.(dt_Interval)) "control_plane.storage.disk_telemetry.interval must be positive";
  fails_if (outside 1 100 t.(dt_RiskThreshold)) "control_plane.storage.disk_telemetry.risk_threshold must be 1..100"].

Definition Validate_tiering (t : TieringConfig) : option string := when t.(tier_Enabled) [
  fails_if (blank t.(tier_ColdRoot) && blank t.(tier_RcloneRemote))
    "control_plane.storage.tiering requires cold_root or rclone_remote";
  fails_if (match ParseDuration t.(tier_MinAge) with Some d => d <? 0 | None => true end)
    "control_plane.storage.tiering.min_age must be non-negative";
  fails_if (t.(tier_MinBytes) <? 0) "control_plane.storage.tiering.min_bytes must be >= 0"].

Definition Validate_erasure (e : ErasureConfig) (replication agents : bool) : option string := when e.(er_Enabled) [
  fails_if (outside 2 32 e.(er_DataShards) || outside 1 16 e.(er_ParityShards) ||
            (64 <? e.(er_DataShards) + e.(er_ParityShards)))
    "control_plane.storage.erasure shard counts are invalid";
  fails_if ((e.(er_MinObjectBytes) <? 1048576) || (e.(er_BlockBytes) <? 65536))
    "control_plane.storage.erasure size thresholds are invalid";
  when e.(er_Distributed) [
    fails_if (negb replication || negb agents) "distributed erasure requires replication and agents";
    fails_if (outside 1 8 e.(er_ShardReplication)) "control_plane.storage.erasure.shard_replication must be 1..8";
    fails_if (blank e.(er_FailureDomainLabel)) "distributed erasure requires failure_domain_label";
    fails_if (e.(er_MinFailureDomains) <? 1) "distributed erasure min_failure_domains must be >= 1";
    fails_if (not_positive e.(er_ReconcileInterval)) "distributed erasure reconcile_interval must be positive"]].

Definition Validate_storage (s : StorageDataConfig) (replication agents : bool) : option string := when s.(sd_Enabled) [
  fails_if ((s.(sd_MinFreeBytes) <? 0) || negb (Qle_bool 0 s.(sd_MinFreePercent)) ||
            negb (Qle_bool s.(sd_MinFreePercent) 100))
    "control_plane.storage free-space thresholds are invalid";
  fails_if (not_positive s.(sd_MaxProbe)) "control_plane.storage.max_probe must be positive";
  fails_if (not_positive s.(sd_InventoryInterval)) "control_plane.storage.inventory_interval must be positive";
  fails_if (outside 65536 268435456 s.(sd_ChunkBytes)) "control_plane.storage.chunk_bytes must be 64KiB..256MiB";
  fails_if (outside 1 20 s.(sd_ChunkRetries)) "control_plane.storage.chunk_retries must be 1..20";
  fails_if (s.(sd_BandwidthLimitMbps) <? 0) "control_plane.storage.bandwidth_limit_mbps must be >= 0";
  fails_if (outside 0 32 s.(sd_ObjectReplicationFactor))
    "control_plane.storage.object_replication_factor must be 0..32";
  when (0 <? s.(sd_ObjectReplicationFactor)) [
    fails_if (negb replication)
      "control_plane.storage.object_replication_factor requires control_plane.replication.enabled";
    fails_if (negb agents)
      "control_plane.storage.object_replication_factor requires control_plane.agents.enabled"];
  Validate_telemetry s.(sd_DiskTelemetry);
  Validate_scrub s.(sd_Scrub);
  Validate_tiering s.(sd_Tiering);
  Validate_erasure s.(sd_Erasure) replication agents].

Definition Validate_web_auth (a : WebAuthConfig) : option string := when a.(web_Enabled) [
  fails_if (ToLower (TrimSpace a.(web_Mode)) ≠? "oidc") "control_plane.web_auth.mode must be oidc";
  fails_if (blank a.(web_Issuer) || blank a.(web_ClientID) || blank a.(web_RedirectURL) ||
            blank a.(web_ClientSecretEnv) || blank a.(web_SessionKeyEnv))
    "control_plane.web_auth OIDC issuer/client_id/redirect_url/secret env/session env are required";
  fails_if (zlen a.(web_ViewerGroups) + zlen a.(web_OperatorGroups) + zlen a.(web_AdminGroups) =? 0)
    "control_plane.web_auth requires at least one viewer/operator/admin group"].

Definition Validate_agents (a : AgentConfig) : option string := when a.(agc_Enabled) [
  fails_if (blank a.(agc_Listen)) "control_plane.agents.listen is required";
  fails_if (blank a.(agc_CAPath) || blank a.(agc_ServerCertPath) || blank a.(agc_ServerKeyPath))
    "control_plane.agents CA/server certificate paths are required"].

Definition Validate_control_plane (cp : ControlPlaneConfig) : option string := when cp.(cp_Enabled) [
  Validate_store cp.(cp_Store);
  Validate_workers cp;
  Validate_generations cp.(cp_Generations);
  Validate_schedule cp.(cp_Scheduler);
  Validate_replication cp.(cp_Replication);
  Validate_storage cp.(cp_Storage) cp.(cp_Replication).(rep_Enabled) cp.(cp_Agents).(agc_Enabled);
  Validate_web_auth cp.(cp_WebAuth);
  when cp.(cp_RestoreAuth).(ra_Enabled)
    [fails_if (not_positive cp.(cp_RestoreAuth).(ra_ApprovalTTL))
       "control_plane.restore_approval.approval_ttl must be positive"];
  Validate_agents cp.(cp_Agents)].

Definition Validate_object_lock (l : ObjectLockConfig) : option string :=
  let mode := ToUpper (TrimSpace l.(lock_ExpectedMode)) in
  when l.(lock_Enabled) [
    fails_if (blank l.(lock_Bucket)) "offsite.object_lock.bucket is required";
    fails_if ((mode ≠? "") && (mode ≠? "GOVERNANCE") && (mode ≠? "COMPLIANCE"))
      "offsite.object_lock.expected_mode must be GOVERNANCE or COMPLIANCE";
    fails_if (l.(lock_MinRetentionDays) <? 0) "offsite.object_lock.min_retention_days must be >= 0"].

Definition Validate_gitlab_drill (d : GitLabRestoreDrillConfig) : option string := when d.(gld_Enabled) [
  fails_if (blank d.(gld_WorkDir)) "gitlab.restore_drill.work_dir is required";
  fails_if (outside 1 65535 d.(gld_HTTPPort) || outside 1 65535 d.(gld_SSHPort))
    "gitlab.restore_drill ports must be 1..65535";
  fails_if (not_positive d.(gld_Timeout)) "gitlab.restore_drill.timeout must be a positive duration"].

Definition Validate_daemon (d : DaemonConfig) : option string :=
  match ParseDuration d.(dm_Interval) with
  | None => Some "daemon.interval: invalid duration"
  | Some t => fails_if (t <=? 0) "daemon.interval must be greater than zero"
  end.

Definition Validate (c : Config) : option string := first_error [
  Validate_backup c.(c_Backup);
  Validate_github c.(c_GitHub);
  Validate_gitlab c.(c_GitLab);
  Validate_security c.(c_Security) c.(c_Backup).(bk_VerifyAfterBackup);
  Validate_offsite c.(c_Offsite);
  fails_if (c.(c_RecoveryDrill).(rd_SampleSize) <? 0) "recovery_drill.sample_size must be >= 0";
  fails_if (c.(c_Observability).(obs_Enabled) && blank c.(c_Observability).(obs_Listen))
    "observability.listen is required when enabled";
  fails_if (c.(c_Audit).(aud_Enabled) && blank c.(c_Audit).(aud_Path))
    "audit.path is required when audit is enabled";
  Validate_cas c.(c_CAS);
  fails_if (c.(c_Packages).(pk_MaxBytes) <? 0) "package_payloads.max_bytes must be >= 0";
  Validate_policy c.(c_Policy);
  Validate_fleet c.(c_Fleet);
  Validate_control_plane c.(c_ControlPlane);
  Validate_object_lock c.(c_Offsite).(off_ObjectLock);
  Validate_gitlab_drill c.(c_GitLab).(gl_RestoreDrill);
  Validate_daemon c.(c_Daemon)].

(** ** Reading and writing the file *)

Context {E : Env} {O : OS}.

(** The configuration that comes with an error is dropped. *)
Definition DefaultPath : string :=
  let d := default "" UserConfigDir in
  Join [if d ≟ "" then Join [home; ".config"] else d; "repoark"; "config.yml"].

Definition or_default (path : string) : string := if path ≟ "" then DefaultPath else path.

Definition accepted (c : Config) : Disk Config :=
  match Validate c with Some e => throw (Failure e) | None => mret c end.

Definition Load (path : string) : Disk Config :=
  b ← try (ReadFile (or_default path));
  match b with
  | inl e => if is_not_exist e then mret (ExpandPaths Default) else throw e
  | inr b =>
      match yaml_decode b Default with
      | None => throw (Failure "parse config")
      | Some cfg =>
          let cfg := if cfg.(c_Version) <? 8 then cfg <| c_Version := 8 |> else cfg in
          accepted (ExpandPaths cfg)
      end
  end.

Definition Save (path : string) (cfg : Config) : Disk unit :=
  let path := or_default path in
  cfg ← accepted (ExpandPaths cfg);
  MkdirAll (Dir path);;
  match yaml_encode cfg with
  | None => throw (Failure "yaml: cannot marshal")
  | Some b => WriteFile path b
  end.
End Settings.
End Settings.
