(* ===== verification/SettingsRules.v ===== *)
(** * What a configuration that loads promises (internal/config)

    [Load] gives only configurations the other components can work with, whether
    they come from a file or are the defaults. *)

From Stdlib Require Import QArith Ascii String.
From S2P Require Import Prelude GoStd Text Control FileSystem FileTree Config ErasureCodec Settings.
#[global] Open Scope Z_scope.

Module SettingsRules.
Import Settings.

(** ** Checks that pass *)

Create HintDb checks.

Lemma first_error_cons o l : first_error (o :: l) = None ↔ o = None ∧ first_error l = None.
Proof. simpl. destruct o; naive_solver. Qed.

Lemma first_error_nil : first_error [] = None ↔ True.
Proof. done. Qed.

Lemma first_error_all l : first_error l = None ↔ ∀ o, o ∈ l → o = None.
Proof.
  induction l as [|o l IH].
  - split; [intros _ o Ho; by apply elem_of_nil in Ho|done].
  - rewrite first_error_cons, IH. set_solver.
Qed.

Lemma fails_if_none b e : fails_if b e = None ↔ b = false.
Proof. unfold fails_if. destruct b; naive_solver. Qed.

Lemma when_none b l : when b l = None ↔ (b = true → first_error l = None).
Proof. unfold when. destruct b; naive_solver. Qed.

Lemma outside_false lo hi n : outside lo hi n = false ↔ lo ≤ n ≤ hi.
Proof. unfold outside. rewrite orb_false_iff, !Z.ltb_ge. lia. Qed.

(** [a && b] refuses what has [a] without the opposite of [b]. *)
Lemma andb_false_imp a b : a && b = false ↔ (a = true → b = false).
Proof. destruct a, b; naive_solver. Qed.

Lemma eqb_false {A} `{EqDecision A} (x y : A) : (x ≟ y) = false ↔ x ≠ y.
Proof. apply bool_decide_eq_false. Qed.

Lemma eqb_true {A} `{EqDecision A} (x y : A) : (x ≟ y) = true ↔ x = y.
Proof. apply bool_decide_eq_true. Qed.

#[export] Hint Rewrite first_error_cons first_error_nil fails_if_none when_none outside_false orb_false_iff
  andb_true_iff andb_false_imp negb_false_iff negb_true_iff Z.ltb_ge Z.leb_gt Z.ltb_lt Z.eqb_neq Z.eqb_eq
  @eqb_false @eqb_true : checks.

(** A text that is not blank, one that [time.ParseDuration] reads as a positive duration,
    and one that is either blank or such. *)
Definition filled (s : string) : Prop := blank s = false.
Definition positive (s : string) : Prop := ∃ d, ParseDuration s = Some d ∧ 0 < d.
Definition positive_if_filled (s : string) : Prop := filled s → positive s.

Lemma not_positive_false s : not_positive s = false ↔ positive s.
Proof.
  unfold not_positive, positive. destruct (ParseDuration s) as [d|]; [|naive_solver].
  rewrite Z.leb_gt. naive_solver.
Qed.
#[export] Hint Rewrite not_positive_false : checks.

Lemma positive_durations_none `{MapOrder} prefix skip l :
  positive_durations prefix skip l = None ↔
  Forall (fun nv => skip && blank nv.2 = false → positive nv.2) l.
Proof.
  unfold positive_durations. rewrite first_error_all, Forall_forall. split.
  - intros Hl [name value] Hin Hb. cbn in *. rewrite <- not_positive_false.
    assert (Ho : fails_if (negb (skip && blank value) && not_positive value)
      (prefix +:+ name +:+ " must be a positive duration") = None).
    { apply Hl, list_elem_of_fmap. exists (name, value). split; [done|]. by rewrite shuffle_perm. }
    apply fails_if_none in Ho. by rewrite Hb in Ho.
  - intros Hl o ([name value] & -> & Hin)%list_elem_of_fmap. rewrite shuffle_perm in Hin. apply fails_if_none.
    destruct (skip && blank value) eqn:Hb; [done|]. by apply not_positive_false, (Hl _ Hin).
Qed.

Lemma check_accounts_none i seen l :
  check_accounts i seen l = None ↔
  (∀ a, a ∈ l → filled a.(acc_Name) ∧ filled a.(acc_TokenEnv) ∧ acc_Name a ∉ seen) ∧ NoDup (acc_Name <$> l).
Proof.
  revert i seen. induction l as [|a l IH]; intros i seen; cbn [check_accounts fmap list_fmap].
  { split; [intros _; split; [intros a Ha; by apply elem_of_nil in Ha|constructor]|done]. }
  unfold filled in *. destruct (_ || _) eqn:Hb.
  { split; [done|]. intros [Ha _]. destruct (Ha a) as (H1 & H2 & _); [by left|]. by rewrite H1, H2 in Hb. }
  apply orb_false_iff in Hb as [Hb1 Hb2]. case_bool_decide as Hs.
  { split; [done|]. intros [Ha _]. by destruct (Ha a) as (_ & _ & []); [left|]. }
  rewrite IH, NoDup_cons, list_elem_of_fmap. split.
  - intros [Ha Hd]. split_and!; [|intros (b & Hb & Hin); by destruct (Ha b Hin) as (_ & _ & []); rewrite <- Hb; left|done].
    intros b [->|Hin]%elem_of_cons; [done|]. destruct (Ha b Hin) as (? & ? & Hn). split_and!; try done.
    intros Hi. apply Hn. by right.
  - intros (Ha & Hn & Hd). split; [|done]. intros b Hin. destruct (Ha b) as (? & ? & Hb); [by right|].
    split_and!; try done. intros [Heq|?]%elem_of_cons; [|done]. apply Hn. by exists b.
Qed.

(** ** What a valid configuration gives the components

    One record for each section: every range, choice, text and duration that is
    demanded of it, and what the sections demand of each other. *)

Definition port (n : Z) : Prop := 1 ≤ n ≤ 65535.

Record backup_ok (b : BackupConfig) : Prop := {
  bo_root : b.(bk_Root) ≠ "";
  bo_concurrency : 1 ≤ b.(bk_Concurrency) ≤ 32;
  bo_keep : 0 ≤ b.(bk_KeepManifests)
}.

Record github_ok (g : GitHubConfig) : Prop := {
  gho_urls : g.(gh_APIURL) ≠ "" ∧ g.(gh_GraphQLURL) ≠ "";
  gho_protocol : g.(gh_CloneProtocol) = "https" ∨ g.(gh_CloneProtocol) = "ssh";
  gho_metadata : g.(gh_Metadata) = "none" ∨ g.(gh_Metadata) = "basic" ∨ g.(gh_Metadata) = "full";
  gho_sizes : 0 ≤ g.(gh_MaxAssetBytes) ∧ 0 ≤ g.(gh_MaxArtifactBytes);
  gho_pages : 1 ≤ g.(gh_MaxMetadataPages) ≤ 1000
}.

Record gitlab_ok (g : GitLabConfig) : Prop := {
  glo_texts : g.(gl_URL) ≠ "" ∧ g.(gl_Image) ≠ "" ∧ g.(gl_DataDir) ≠ "";
  glo_ports : port g.(gl_HTTPPort) ∧ port g.(gl_HTTPSPort) ∧ port g.(gl_SSHPort)
}.

Record drill_ok (d : GitLabRestoreDrillConfig) : Prop := {
  do_dir : filled d.(gld_WorkDir);
  do_ports : port d.(gld_HTTPPort) ∧ port d.(gld_SSHPort);
  do_timeout : positive d.(gld_Timeout)
}.

Record security_ok (s : SecurityConfig) (verify_after_backup : bool) : Prop := {
  so_verify : s.(sec_RequireVerification) = true → verify_after_backup = true;
  so_key : s.(sec_SignManifests) = true → s.(sec_SigningKeyPath) ≠ "";
  so_kms : s.(sec_KMSAttestation).(kms_Enabled) = true → filled s.(sec_KMSAttestation).(kms_KeyID) ∧
    ToUpper (TrimSpace s.(sec_KMSAttestation).(kms_SigningAlgorithm)) = "ED25519_SHA_512"
}.

Definition offsite_ok (o : OffsiteConfig) : Prop :=
  o.(off_Backend) = "restic" ∧ o.(off_RepositoryEnv) ≠ "" ∨
  o.(off_Backend) = "rclone" ∧ filled o.(off_RcloneRemote).

Record lock_ok (l : ObjectLockConfig) (mode := ToUpper (TrimSpace l.(lock_ExpectedMode))) : Prop := {
  lo_bucket : filled l.(lock_Bucket);
  lo_mode : mode = "" ∨ mode = "GOVERNANCE" ∨ mode = "COMPLIANCE";
  lo_days : 0 ≤ l.(lock_MinRetentionDays)
}.

Record policy_ok (p : PolicyConfig) : Prop := {
  po_durations : Forall positive_if_filled
    [p.(pc_MaxBackupAge); p.(pc_MaxRecoveryDrillAge); p.(pc_MaxGitLabDrillAge); p.(pc_MaxOffsiteAge);
     p.(pc_MaxRecoveryDrillDuration); p.(pc_MaxGitLabDrillDuration)];
  po_failed : 0 ≤ p.(pc_MaxFailedRepositories)
}.

Record fleet_ok (f : FleetConfig) : Prop := {
  fo_concurrency : 1 ≤ f.(fl_Concurrency) ≤ 16;
  fo_accounts a : a ∈ f.(fl_Accounts) → filled a.(acc_Name) ∧ filled a.(acc_TokenEnv);
  fo_names : NoDup (acc_Name <$> f.(fl_Accounts))
}.

Definition store_ok (c : StoreConfig) (driver := ToLower (TrimSpace c.(st_Driver))) : Prop :=
  driver = "sqlite" ∧ filled c.(st_SQLitePath) ∨
  (driver = "postgres" ∨ driver = "postgresql") ∧ filled c.(st_DSNEnv).

Record workers_ok (cp : ControlPlaneConfig) : Prop := {
  wo_concurrency : 1 ≤ cp.(cp_Workers).(w_Concurrency) ≤ 64;
  wo_attempts : 1 ≤ cp.(cp_Workers).(w_MaxAttempts) ≤ 100;
  wo_durations : Forall positive_if_filled
    [cp.(cp_Workers).(w_PollInterval); cp.(cp_Workers).(w_Lease); cp.(cp_Scheduler).(sch_Tick);
     cp.(cp_Scheduler).(sch_DiscoveryInterval); cp.(cp_Scheduler).(sch_DefaultInterval);
     cp.(cp_Agents).(agc_Heartbeat)]
}.

Record replication_ok (r : ReplicationConfig) : Prop := {
  ro_factor : 2 ≤ r.(rep_Factor) ≤ 32;
  ro_healthy : 1 ≤ r.(rep_MinHealthy) ≤ r.(rep_Factor);
  ro_domains : 0 ≤ r.(rep_MinFailureDomains) ≤ r.(rep_Factor);
  ro_label : filled r.(rep_FailureDomainLabel) ↔ r.(rep_MinFailureDomains) ≠ 0;
  ro_spool : filled r.(rep_SpoolRoot);
  ro_bytes : 0 < r.(rep_MaxTransferBytes);
  ro_durations : positive r.(rep_ReconcileInterval) ∧ positive r.(rep_AgentTimeout) ∧ positive r.(rep_TransferTTL);
  ro_key : r.(rep_IncludeLocal) = true → filled r.(rep_LocalKeyPath)
}.

Record tiering_ok (t : TieringConfig) : Prop := {
  to_cold : filled t.(tier_ColdRoot) ∨ filled t.(tier_RcloneRemote);
  to_age : ∃ d, ParseDuration t.(tier_MinAge) = Some d ∧ 0 ≤ d;
  to_bytes : 0 ≤ t.(tier_MinBytes)
}.

Record distributed_ok (e : ErasureConfig) (replication agents : bool) : Prop := {
  dio_needs : replication = true ∧ agents = true;
  dio_copies : 1 ≤ e.(er_ShardReplication) ≤ 8;
  dio_label : filled e.(er_FailureDomainLabel);
  dio_domains : 1 ≤ e.(er_MinFailureDomains);
  dio_interval : positive e.(er_ReconcileInterval)
}.

Record erasure_ok (e : ErasureConfig) (replication agents : bool) : Prop := {
  eo_shards : 2 ≤ e.(er_DataShards) ≤ 32 ∧ 1 ≤ e.(er_ParityShards) ≤ 16;
  eo_sizes : 1048576 ≤ e.(er_MinObjectBytes) ∧ 65536 ≤ e.(er_BlockBytes);
  (** the codec takes it *)
  eo_codec : ErasureCodec.valid_config
    (ErasureCodec.mkConfig e.(er_DataShards) e.(er_ParityShards) e.(er_BlockBytes)) = true;
  eo_distributed : e.(er_Distributed) = true → distributed_ok e replication agents
}.

Record storage_ok (s : StorageDataConfig) (replication agents : bool) : Prop := {
  sto_free : 0 ≤ s.(sd_MinFreeBytes);
  sto_percent : Qle_bool 0 s.(sd_MinFreePercent) = true ∧ Qle_bool s.(sd_MinFreePercent) 100 = true;
  sto_durations : positive s.(sd_MaxProbe) ∧ positive s.(sd_InventoryInterval);
  sto_chunk : 65536 ≤ s.(sd_ChunkBytes) ≤ 268435456;
  sto_retries : 1 ≤ s.(sd_ChunkRetries) ≤ 20;
  sto_bandwidth : 0 ≤ s.(sd_BandwidthLimitMbps);
  sto_factor : 0 ≤ s.(sd_ObjectReplicationFactor) ≤ 32;
  sto_needs : 0 < s.(sd_ObjectReplicationFactor) → replication = true ∧ agents = true;
  sto_telemetry (t := s.(sd_DiskTelemetry)) :
    t.(dt_Enabled) = true → positive t.(dt_Interval) ∧ 1 ≤ t.(dt_RiskThreshold) ≤ 100;
  sto_scrub (t := s.(sd_Scrub)) :
    t.(scrub_Enabled) = true → positive t.(scrub_Interval) ∧ 1 ≤ t.(scrub_SampleObjects);
  sto_tiering : s.(sd_Tiering).(tier_Enabled) = true → tiering_ok s.(sd_Tiering);
  sto_erasure : s.(sd_Erasure).(er_Enabled) = true → erasure_ok s.(sd_Erasure) replication agents
}.

Record web_auth_ok (a : WebAuthConfig) : Prop := {
  wao_mode : ToLower (TrimSpace a.(web_Mode)) = "oidc";
  wao_texts : Forall filled [a.(web_Issuer); a.(web_ClientID); a.(web_RedirectURL);
    a.(web_ClientSecretEnv); a.(web_SessionKeyEnv)];
  wao_groups : a.(web_ViewerGroups) ++ a.(web_OperatorGroups) ++ a.(web_AdminGroups) ≠ []
}.

Record control_plane_ok (cp : ControlPlaneConfig) : Prop := {
  cpo_store : store_ok cp.(cp_Store);
  cpo_workers : workers_ok cp;
  cpo_generations (g := cp.(cp_Generations)) :
    g.(gen_Enabled) = true → filled g.(gen_Root) ∧ 1 ≤ g.(gen_KeepPerRepo);
  cpo_schedule p : p ∈ cp.(cp_Scheduler).(sch_Policies) → filled p.(pol_Pattern) ∧ positive p.(pol_Interval);
  cpo_replication : cp.(cp_Replication).(rep_Enabled) = true → replication_ok cp.(cp_Replication);
  cpo_storage : cp.(cp_Storage).(sd_Enabled) = true →
    storage_ok cp.(cp_Storage) cp.(cp_Replication).(rep_Enabled) cp.(cp_Agents).(agc_Enabled);
  cpo_web : cp.(cp_WebAuth).(web_Enabled) = true → web_auth_ok cp.(cp_WebAuth);
  cpo_restore : cp.(cp_RestoreAuth).(ra_Enabled) = true → positive cp.(cp_RestoreAuth).(ra_ApprovalTTL);
  cpo_agents : cp.(cp_Agents).(agc_Enabled) = true → Forall filled [cp.(cp_Agents).(agc_Listen);
    cp.(cp_Agents).(agc_CAPath); cp.(cp_Agents).(agc_ServerCertPath); cp.(cp_Agents).(agc_ServerKeyPath)]
}.

Record usable (c : Config) : Prop := {
  us_backup : backup_ok c.(c_Backup);
  us_github : github_ok c.(c_GitHub);
  us_gitlab : c.(c_GitLab).(gl_Enabled) = true → gitlab_ok c.(c_GitLab);
  us_drill : c.(c_GitLab).(gl_RestoreDrill).(gld_Enabled) = true → drill_ok c.(c_GitLab).(gl_RestoreDrill);
  us_security : security_ok c.(c_Security) c.(c_Backup).(bk_VerifyAfterBackup);
  us_offsite : c.(c_Offsite).(off_Enabled) = true → offsite_ok c.(c_Offsite);
  us_lock : c.(c_Offsite).(off_ObjectLock).(lock_Enabled) = true → lock_ok c.(c_Offsite).(off_ObjectLock);
  us_sample : 0 ≤ c.(c_RecoveryDrill).(rd_SampleSize);
  us_listen : c.(c_Observability).(obs_Enabled) = true → filled c.(c_Observability).(obs_Listen);
  us_audit : c.(c_Audit).(aud_Enabled) = true → filled c.(c_Audit).(aud_Path);
  us_cas : c.(c_CAS).(cas_Enabled) = true → filled c.(c_CAS).(cas_Root) ∧ 0 ≤ c.(c_CAS).(cas_MinFileSize);
  us_packages : 0 ≤ c.(c_Packages).(pk_MaxBytes);
  us_policy : c.(c_Policy).(pc_Enabled) = true → policy_ok c.(c_Policy);
  us_fleet : c.(c_Fleet).(fl_Enabled) = true → fleet_ok c.(c_Fleet);
  us_control_plane : c.(c_ControlPlane).(cp_Enabled) = true → control_plane_ok c.(c_ControlPlane);
  us_daemon : positive c.(c_Daemon).(dm_Interval)
}.

(** *** [Validate] demands exactly that *)

Section Valid.
Context {MO : MapOrder}.

Lemma optional_durations prefix l :
  positive_durations prefix true l = None ↔ Forall positive_if_filled l.*2.
Proof. rewrite positive_durations_none, Forall_fmap. apply Forall_iff. by intros [n v]. Qed.

Lemma required_durations prefix l : positive_durations prefix false l = None ↔ Forall positive l.*2.
Proof. rewrite positive_durations_none, Forall_fmap. apply Forall_iff. intros [n v]. naive_solver. Qed.

(** The checks as propositions; what is left is to match them with the record. *)
Ltac checked := autorewrite with checks; unfold filled, port in *.
Ltac match_up :=
  split; [intros H; repeat match goal with H : _ ∧ _ |- _ => destruct H end; split; unfold filled, port; tauto
         |intros []; unfold filled, port in *; tauto].

(** A section that is checked only when it is switched on. *)
Ltac under_flag :=
  split; [intros H He; specialize (H He); repeat match goal with H : _ ∧ _ |- _ => destruct H end;
          split; unfold filled, port in *; tauto
         |intros H He; destruct (H He); unfold filled, port in *; tauto].

Lemma backup_valid b : Validate_backup b = None ↔ backup_ok b.
Proof. unfold Validate_backup. checked. match_up. Qed.

Lemma github_valid g : Validate_github g = None ↔ github_ok g.
Proof.
  unfold Validate_github. checked.
  destruct (decide (g.(gh_CloneProtocol) = "https")), (decide (g.(gh_Metadata) = "none")),
    (decide (g.(gh_Metadata) = "basic")); match_up.
Qed.

Lemma gitlab_valid g : Validate_gitlab g = None ↔ (g.(gl_Enabled) = true → gitlab_ok g).
Proof.
  unfold Validate_gitlab. rewrite when_none, first_error_cons, first_error_cons, first_error_all.
  assert ((∀ o, o ∈ (fun '(name, p) => fails_if (outside 1 65535 p) ("gitlab." +:+ name +:+ " must be 1..65535"))
      <$> shuffle [("http_port", g.(gl_HTTPPort)); ("https_port", g.(gl_HTTPSPort)); ("ssh_port", g.(gl_SSHPort))]
      → o = None) ↔
    port g.(gl_HTTPPort) ∧ port g.(gl_HTTPSPort) ∧ port g.(gl_SSHPort)) as ->.
  { rewrite <- Forall_forall, shuffle_perm. simpl. rewrite !Forall_cons, Forall_nil. checked. tauto. }
  checked. under_flag.
Qed.

Lemma drill_valid d : Validate_gitlab_drill d = None ↔ (d.(gld_Enabled) = true → drill_ok d).
Proof. unfold Validate_gitlab_drill. checked. under_flag. Qed.

Lemma security_valid s v : Validate_security s v = None ↔ security_ok s v.
Proof. unfold Validate_security. checked. match_up. Qed.

Lemma offsite_valid o : Validate_offsite o = None ↔ (o.(off_Enabled) = true → offsite_ok o).
Proof.
  unfold Validate_offsite, offsite_ok. rewrite when_none, first_error_cons.
  destruct (bool_decide_reflect (o.(off_Backend) = "restic")) as [->|];
    [|destruct (bool_decide_reflect (o.(off_Backend) = "rclone")) as [->|]]; checked; naive_solver.
Qed.

Lemma lock_valid l : Validate_object_lock l = None ↔ (l.(lock_Enabled) = true → lock_ok l).
Proof.
  unfold Validate_object_lock. checked. set (mode := ToUpper _).
  destruct (decide (mode = "")), (decide (mode = "GOVERNANCE")); under_flag.
Qed.

Lemma policy_valid p : Validate_policy p = None ↔ (p.(pc_Enabled) = true → policy_ok p).
Proof. unfold Validate_policy. checked. rewrite optional_durations. under_flag. Qed.

Lemma fleet_valid f : Validate_fleet f = None ↔ (f.(fl_Enabled) = true → fleet_ok f).
Proof.
  unfold Validate_fleet. checked. rewrite check_accounts_none. split.
  - intros H He. destruct (H He) as (? & [Ha ?] & _). split; [done| |done]. intros a Hin. by destruct (Ha a Hin) as (? & ? & _).
  - intros H He. destruct (H He) as [? Ha ?]. split; [done|]. split; [|done]. split; [|done].
    intros a Hin. destruct (Ha a Hin). split_and!; [done..|]. by intros Hn%elem_of_nil.
Qed.

Lemma store_valid c : Validate_store c = None ↔ store_ok c.
Proof.
  unfold Validate_store, store_ok. set (d := ToLower _).
  destruct (bool_decide_reflect (d = "sqlite")) as [->|];
    [|destruct (bool_decide_reflect (d = "postgres")) as [->|];
      [|destruct (bool_decide_reflect (d = "postgresql")) as [->|]]]; simpl; checked; naive_solver.
Qed.

Lemma workers_valid cp : Validate_workers cp = None ↔ workers_ok cp.
Proof. unfold Validate_workers. checked. rewrite optional_durations. match_up. Qed.

Lemma schedule_valid s :
  Validate_schedule s = None ↔ ∀ p, p ∈ s.(sch_Policies) → filled p.(pol_Pattern) ∧ positive p.(pol_Interval).
Proof.
  unfold Validate_schedule. rewrite first_error_all.
  assert (∀ i p, check_policy i p = None ↔ filled p.(pol_Pattern) ∧ positive p.(pol_Interval)) as Hc
    by (intros i p; unfold check_policy; checked; tauto).
  split.
  - intros H p [i Hi]%list_elem_of_lookup. apply (Hc i), H, list_elem_of_lookup. exists i.
    by rewrite list_lookup_imap, Hi.
  - intros H o [i Hi]%list_elem_of_lookup. rewrite list_lookup_imap in Hi.
    apply fmap_Some in Hi as (p & Hp & ->). apply Hc, H, list_elem_of_lookup. eauto.
Qed.

Lemma replication_valid r : Validate_replication r = None ↔ (r.(rep_Enabled) = true → replication_ok r).
Proof.
  unfold Validate_replication. rewrite when_none.
  enough (∀ P Q : Prop, (P ↔ Q) → (r.(rep_Enabled) = true → P) ↔ (r.(rep_Enabled) = true → Q)) as Hi.
  { apply Hi. checked. rewrite required_durations. simpl. rewrite !Forall_cons, Forall_nil.
    destruct (blank r.(rep_FailureDomainLabel)) eqn:Hb; checked; split.
    1, 3: intros H; repeat match goal with H : _ ∧ _ |- _ => destruct H end; split; unfold filled;
      rewrite ?Hb; try tauto; try lia; split; try done; lia.
    all: intros []; unfold filled in *; rewrite ?Hb in *; destruct (decide (r.(rep_MinFailureDomains) = 0));
      split_and!; try tauto; try lia; naive_solver. }
  tauto.
Qed.

Lemma tiering_valid t : Validate_tiering t = None ↔ (t.(tier_Enabled) = true → tiering_ok t).
Proof.
  unfold Validate_tiering.
  assert ((match ParseDuration t.(tier_MinAge) with Some d => d <? 0 | None => true end) = false ↔
    ∃ d, ParseDuration t.(tier_MinAge) = Some d ∧ 0 ≤ d) as Ha.
  { destruct (ParseDuration _); [rewrite Z.ltb_ge|]; naive_solver. }
  assert (∀ b c, b && c = false ↔ b = false ∨ c = false) as Hor by (intros [] []; naive_solver).
  rewrite when_none, !first_error_cons, !fails_if_none, Hor, Ha. checked. under_flag.
Qed.


Lemma erasure_valid e rep agents :
  Validate_erasure e rep agents = None ↔ (e.(er_Enabled) = true → erasure_ok e rep agents).
Proof.
  unfold Validate_erasure. checked. split.
  - intros H He. destruct (H He) as (((H1 & H2) & H3) & (H4 & H5) & H6 & _). split; try lia.
    + unfold ErasureCodec.valid_config. cbn. rewrite !(proj2 (Z.ltb_ge _ _)) by lia. done.
    + intros Hd. specialize (H6 Hd). split; unfold filled; tauto.
  - intros H He. destruct (H He) as [H1 H2 _ H3]. split_and!; try lia; intros Hd; destruct (H3 Hd);
      unfold filled in *; tauto.
Qed.

Lemma scrub_valid s : Validate_scrub s = None ↔
  (s.(scrub_Enabled) = true → positive s.(scrub_Interval) ∧ 1 ≤ s.(scrub_SampleObjects)).
Proof. unfold Validate_scrub. checked. tauto. Qed.

Lemma telemetry_valid t : Validate_telemetry t = None ↔
  (t.(dt_Enabled) = true → positive t.(dt_Interval) ∧ 1 ≤ t.(dt_RiskThreshold) ≤ 100).
Proof. unfold Validate_telemetry. checked. tauto. Qed.

Lemma storage_valid s rep agents :
  Validate_storage s rep agents = None ↔ (s.(sd_Enabled) = true → storage_ok s rep agents).
Proof.
  unfold Validate_storage. autorewrite with checks.
  rewrite scrub_valid, telemetry_valid, tiering_valid, erasure_valid. under_flag.
Qed.

Lemma web_auth_valid a : Validate_web_auth a = None ↔ (a.(web_Enabled) = true → web_auth_ok a).
Proof.
  unfold Validate_web_auth. autorewrite with checks.
  assert (zlen a.(web_ViewerGroups) + zlen a.(web_OperatorGroups) + zlen a.(web_AdminGroups) ≠ 0 ↔
    a.(web_ViewerGroups) ++ a.(web_OperatorGroups) ++ a.(web_AdminGroups) ≠ []) as ->.
  { unfold zlen. rewrite <- length_zero_iff_nil, !length_app. lia. }
  assert (∀ P Q, (a.(web_Enabled) = true → P) ↔ (a.(web_Enabled) = true → Q) ↔ (a.(web_Enabled) = true → P ↔ Q)) as ->
    by tauto.
  intros _. split.
  - intros H. repeat match goal with H : _ ∧ _ |- _ => destruct H end. split; [done| |done].
    by repeat constructor.
  - intros [? Hf ?]. unfold filled in Hf. rewrite !Forall_cons in Hf. tauto.
Qed.

Lemma agents_valid a : Validate_agents a = None ↔ (a.(agc_Enabled) = true → Forall filled
  [a.(agc_Listen); a.(agc_CAPath); a.(agc_ServerCertPath); a.(agc_ServerKeyPath)]).
Proof. unfold Validate_agents. rewrite !Forall_cons, Forall_nil. checked. tauto. Qed.

Lemma generations_valid g : Validate_generations g = None ↔
  (g.(gen_Enabled) = true → filled g.(gen_Root) ∧ 1 ≤ g.(gen_KeepPerRepo)).
Proof. unfold Validate_generations. checked. tauto. Qed.

Lemma control_plane_valid cp :
  Validate_control_plane cp = None ↔ (cp.(cp_Enabled) = true → control_plane_ok cp).
Proof.
  unfold Validate_control_plane. autorewrite with checks.
  rewrite store_valid, workers_valid, generations_valid, schedule_valid, replication_valid, storage_valid,
    web_auth_valid, agents_valid. under_flag.
Qed.

Lemma daemon_valid d : Validate_daemon d = None ↔ positive d.(dm_Interval).
Proof. unfold Validate_daemon, positive. destruct (ParseDuration _) as [t|]; [checked|]; naive_solver. Qed.

(** [Validate] accepts a configuration exactly when it is usable. *)
Lemma Validate_iff c : Validate c = None ↔ usable c.
Proof.
  unfold Validate, Validate_cas. autorewrite with checks.
  rewrite backup_valid, github_valid, gitlab_valid, drill_valid, security_valid, offsite_valid, lock_valid,
    policy_valid, fleet_valid, control_plane_valid, daemon_valid. match_up.
Qed.
End Valid.

(** ** Paths *)

(** A path that begins with a visible character. *)
Definition visible (s : string) : Prop := ∃ c s', s = String c s' ∧ is_space c = false.

Lemma trim_right_kept c s : is_space c = false → trim_right (String c s) ≠ "".
Proof. intros Hc. simpl. destruct (trim_right s); [by rewrite Hc|done]. Qed.

Lemma visible_not_blank s : visible s → blank s = false.
Proof.
  intros (c & s' & -> & Hc). apply bool_decide_eq_false_2. unfold TrimSpace. cbn [trim_left]. rewrite Hc.
  by apply trim_right_kept.
Qed.

Lemma visible_not_empty s : visible s → (s ≟ "") = false.
Proof. intros (c & s' & -> & _). by apply bool_decide_eq_false_2. Qed.

Section Paths.
Context {M : Machine}.

Lemma ExpandEnv_start c s : c ≠ "$"%char → ∃ s', ExpandEnv (String c s) = String c s'.
Proof. intros Hc. unfold ExpandEnv. simpl. rewrite bool_decide_eq_false_2 by done. simpl. eauto. Qed.

Lemma expand_start c s :
  c ≠ "$"%char → c ≠ "~"%char → is_space c = false → visible (expand (String c s)).
Proof.
  intros H1 H2 H3. unfold expand. rewrite bool_decide_eq_false_2 by congruence.
  assert (Hp : HasPrefix (String c s) "~/" = false).
  { unfold HasPrefix. cbn [String.prefix]. destruct (ascii_dec "~" c); [congruence|done]. }
  rewrite Hp. cbn [orb]. destruct (ExpandEnv_start c s H1) as [s' ->]. by exists c, s'.
Qed.

Lemma Join_rooted l : HasPrefix home "/" = true → ∃ s, Join (home :: l) = String "/" s.
Proof.
  intros H. assert (Hh : ∃ s, home = String "/" s).
  { unfold HasPrefix in H. destruct home as [|c s]; [done|]. cbn [String.prefix] in H.
    destruct (ascii_dec "/" c) as [<-|]; [|done]. by exists s. }
  destruct Hh as [s Hh]. cbn [Join]. rewrite bool_decide_eq_false_2 by (rewrite Hh; done).
  assert (Hc : HasPrefix (String.concat "/" (home :: l)) "/" = true).
  { rewrite Hh. apply prefix_chars. destruct l; eexists; reflexivity. }
  unfold Clean. rewrite Hc. by eexists.
Qed.

(** The home directory is absolute, or not known. *)
Definition plain_home : Prop := home = "" ∨ HasPrefix home "/" = true.

Lemma home_path l c s : plain_home → Join l = String c s →
  c ≠ "$"%char → c ≠ "~"%char → is_space c = false → visible (expand (Join (home :: l))).
Proof.
  intros [Hh|Hh] Hl H1 H2 H3.
  - cbn [Join]. rewrite Hh. change (visible (expand (Join l))). rewrite Hl. by apply expand_start.
  - destruct (Join_rooted l Hh) as [s' ->]. by apply expand_start.
Qed.

Context {MO : MapOrder}.

(** The defaults are valid wherever the home directory is. *)
Lemma Default_valid : plain_home → Validate (ExpandPaths Default) = None.
Proof.
  intros Hh.
  assert (Hp : ∀ l c s, Join l = String c s → c ≠ "$"%char → c ≠ "~"%char → is_space c = false →
    blank (expand (Join (home :: l))) = false ∧ (expand (Join (home :: l)) ≟ "") = false).
  { intros l c s H1 H2 H3 H4. pose proof (home_path l c s Hh H1 H2 H3 H4) as Hv.
    split; [by apply visible_not_blank|by apply visible_not_empty]. }
  unfold Validate, Validate_backup, Validate_security, Validate_policy, Validate_cas.
  repeat (apply first_error_cons; split); try done; try (apply when_none; intros _);
    repeat (apply first_error_cons; split); try done; try apply fails_if_none.
  1, 3, 4: by eapply Hp; [vm_compute; reflexivity|..].
  - apply andb_false_iff. right. by eapply Hp; [vm_compute; reflexivity|..].
  - apply positive_durations_none.
    repeat (constructor; [cbn -[blank positive]; intros Hb; try done; eexists; by split; [vm_compute; reflexivity|]|]).
    constructor.
Qed.

Context {E : Env} {O : OS}.

(** C19. A configuration that [Load] returns is usable: each section that is switched on
    has every range, choice, text and duration that [Validate] demands, and what the
    sections demand of each other, as [usable] lists them; it comes from the file, or
    there is no file and it is the default, whose paths are then under a home directory
    that is absolute or not known.  Its version is at least 8, and no file changes. *)
Theorem loaded_settings_are_usable path k fs k' fs' c :
  plain_home → Load path k fs = (k', fs', inr c) → usable c ∧ 8 ≤ c.(c_Version) ∧ fs' = fs.
Proof.
  intros Hh H.
  assert (Hl : hoare (fun f => f = fs) (Load path)
    (fun f c => usable c ∧ 8 ≤ c.(c_Version) ∧ f = fs) (fun _ _ => True)).
  { unfold Load. apply (h_bind _ _ _ (fun f _ => f = fs)).
    { apply h_try. apply h_syscall; [done|]. intros t f ->. by destruct (read_at _ _). }
    intros [e|b].
    { destruct (is_not_exist e); [|by apply h_throw]. apply h_ret. intros f ->.
      split_and!; [by apply Validate_iff, Default_valid|done|done]. }
    destruct (yaml_decode b Default) as [c0|]; [|by apply h_throw]. unfold accepted.
    set (c1 := if c_Version c0 <? 8 then _ else _).
    assert (Hv : 8 ≤ c_Version c1) by (unfold c1; destruct (Z.ltb_spec (c_Version c0) 8); [done|lia]).
    destruct (Validate (ExpandPaths c1)) as [e|] eqn:He; [by apply h_throw|].
    apply h_ret. intros f ->. split_and!; [by apply Validate_iff|done|done]. }
  specialize (Hl k fs eq_refl). by rewrite H in Hl.
Qed.
End Paths.

(** ** A file that switches the control plane on *)

Module SettingsDemo.
#[export] Instance env : Env := {| clock k := Z.of_nat k; fresh_token _ := "t" |}.
#[local] Existing Instance reliable.

#[local] Notation "r <| p ::= h |>" := (upd p h r) (at level 1, p at level 99, left associativity).

(** As if the file read: distributed erasure coding over agents. *)
Definition distributed (c : Config) : Config :=
  c <| c_Version := 3 |>
    <| c_ControlPlane ::= (fun cp => cp <| cp_Enabled := true |>
         <| cp_Agents ::= (fun a => a <| agc_Enabled := true |>) |>
         <| cp_Replication ::= (fun r => r <| rep_Enabled := true |>) |>
         <| cp_Storage ::= (fun s => s <| sd_Erasure ::= (fun e => e <| er_Enabled := true |> <| er_Distributed := true |>) |>) |>) |>.

#[export] Instance machine : Machine := {|
  home := "/root";
  Getenv _ := "";
  UserConfigDir := None;
  yaml_decode b d := if b ≟ "distributed" then Some (distributed d) else None;
  yaml_encode _ := None
|}.

Definition disk : FS := from_files [("/etc/repoark.yml", "distributed")].
Definition settings : Config := ExpandPaths ((distributed Default) <| c_Version := 8 |>).

Example a_tilde_is_the_home_directory : expand "~/../srv/./backups" = "/srv/backups".
Proof. vm_compute. reflexivity. Qed.

Example thirty_three_data_shards_are_refused :
  Validate (settings <| c_ControlPlane ::= (fun cp => cp <| cp_Storage ::= (fun s => s <| sd_Erasure ::= (fun e =>
    e <| er_DataShards := 33 |>) |>) |>) |>) = Some "control_plane.storage.erasure shard counts are invalid".
Proof. vm_compute. reflexivity. Qed.

Theorem loaded_settings_are_usable_witness :
  Load "/etc/repoark.yml" 0%nat disk = (1%nat, disk, inr settings) ∧ usable settings ∧
  er_Enabled (sd_Erasure (cfg_Storage (view settings))) = true.
Proof.
  assert (H : Load "/etc/repoark.yml" 0%nat disk = (1%nat, disk, inr settings)) by (vm_compute; reflexivity).
  split; [exact H|]. split; [|reflexivity].
  apply (loaded_settings_are_usable "/etc/repoark.yml" 0%nat disk 1%nat disk settings); [by right|exact H].
Defined.
End SettingsDemo.
End SettingsRules.
