(* ===== verification/Scrub.v ===== *)
(** * Protecting, checking and healing the objects of a node ([internal/scrub],
    [ProtectPaths])

    [ProtectPaths] encodes the objects of a backup, [Scrubber.Run] samples objects
    and hashes them, and [LocalErasureRepair] rebuilds a damaged one from its
    shards.  The context of a call may end at any check. *)

From Stdlib Require Import Ascii String.
From S2P Require Import Prelude GoStd Text JsonText JsonStruct GoTime Sha256 Control FileSystem FileTree ErasureCodec Cas StorageHealth.
#[global] Open Scope Z_scope.

Module Scrub.
Import ErasureCodec.

Record Result := mkResult {
  rs_StartedAt : Time;
  rs_EndedAt : Time;
  rs_Available : Z;
  rs_Sampled : Z;
  rs_Healthy : Z;
  rs_Corrupt : Z;
  rs_Repaired : Z;
  rs_Failed : Z;
  rs_Digests : list string;
  rs_UnrepairedDigests : list string;
  rs_DurationMS : Z
}.

#[export] Instance Result_settable : Settable Result :=
  fun r => mkResult (r.(rs_StartedAt)) (r.(rs_EndedAt)) (r.(rs_Available)) (r.(rs_Sampled)) (r.(rs_Healthy))
    (r.(rs_Corrupt)) (r.(rs_Repaired)) (r.(rs_Failed)) (r.(rs_Digests)) (r.(rs_UnrepairedDigests))
    (r.(rs_DurationMS)).

Section Scrub.
Context {E : Env} {O : OS}.

Definition RepairFunc : Type := string → string → Disk unit.

Record Scrubber := mkScrubber {
  scr_CAS : option Cas.Store;
  scr_SampleObjects : Z;
  scr_SeedSalt : string;
  scr_Repair : option RepairFunc
}.

(** ** [Scrubber.Run] *)

Definition nul : string := String "000" "".

(** [now().UTC().Format("2006-01-02")], for a year of four digits. *)
Definition date_text (t : Time) : string :=
  let '(y, m, d) := civil (t / Second / day_seconds) in
  of_chars (digits 4 y ++ "-"%char :: digits 2 m ++ "-"%char :: digits 2 d).

(** An object with its rank. *)
Record ranked := mkRanked { rk_obj : Cas.ObjectInfo; rk_score : string }.

Definition rank (seed : string) (o : Cas.ObjectInfo) : ranked :=
  mkRanked o (sha256hex (seed +:+ nul +:+ o.(Cas.oi_Digest))).

Definition rank_less (x y : ranked) : bool :=
  if x.(rk_score) ≟ y.(rk_score) then str_less x.(rk_obj).(Cas.oi_Digest) y.(rk_obj).(Cas.oi_Digest)
  else str_less x.(rk_score) y.(rk_score).

Definition matches (o : Cas.ObjectInfo) (got : FileError + string * Z) : bool :=
  match got with inr (h, _) => h ≟ o.(Cas.oi_Digest) | inl _ => false end.

Definition unrepaired (o : Cas.ObjectInfo) (out : Result) : Result :=
  out <| rs_Failed := out.(rs_Failed) + 1 |>
      <| rs_UnrepairedDigests := out.(rs_UnrepairedDigests) ++ [o.(Cas.oi_Digest)] |>.

Definition scrub_object (s : Scrubber) (o : Cas.ObjectInfo) (out : Result) : Disk Result :=
  let out := out <| rs_Sampled := out.(rs_Sampled) + 1 |> in
  got ← try (Cas.HashFile o.(Cas.oi_Path));
  if matches o got then mret (out <| rs_Healthy := out.(rs_Healthy) + 1 |>)
  else
    let out := out <| rs_Corrupt := out.(rs_Corrupt) + 1 |>
                   <| rs_Digests := out.(rs_Digests) ++ [o.(Cas.oi_Digest)] |> in
    match s.(scr_Repair) with
    | None => mret (unrepaired o out)
    | Some repair =>
        r ← try (repair o.(Cas.oi_Digest) o.(Cas.oi_Path));
        match r with
        | inl _ => mret (unrepaired o out)
        | inr _ =>
            got ← try (Cas.HashFile o.(Cas.oi_Path));
            mret (if matches o got then out <| rs_Repaired := out.(rs_Repaired) + 1 |> else unrepaired o out)
        end
    end.

Fixpoint scrub_objects (s : Scrubber) (l : list Cas.ObjectInfo) (out : Result) : Disk (Result * option FileError) :=
  match l with
  | [] => mret (out, None)
  | o :: l' =>
      done ← try touch;
      match done with
      | inl e => mret (out, Some e)
      | inr _ => out ← scrub_object s o out; scrub_objects s l' out
      end
  end.

Definition sample (s : Scrubber) (seed : string) (objects : list Cas.ObjectInfo) : list Cas.ObjectInfo :=
  let limit := s.(scr_SampleObjects) in
  let limit := if (limit <=? 0) || (zlen objects <? limit) then zlen objects else limit in
  rk_obj <$> take (Z.to_nat limit) (sort_slice rank_less (rank seed <$> objects)).

Definition no_result (t : Time) : Result := mkResult t time_zero 0 0 0 0 0 0 [] [] 0.

Definition Run (s : Scrubber) : Disk (Result * option FileError) :=
  t ← disk_now;
  let out := no_result t in
  match s.(scr_CAS) with
  | None => mret (out, Some (Failure "CAS store is required"))
  | Some st =>
      objects ← try (Cas.ListObjects st);
      match objects with
      | inl e => mret (out, Some e)
      | inr objects =>
          let out := out <| rs_Available := zlen objects |> in
          today ← disk_now;
          '(out, err) ← scrub_objects s (sample s (date_text today +:+ nul +:+ s.(scr_SeedSalt)) objects) out;
          match err with
          | Some e => mret (out, Some e)
          | None =>
              ended ← disk_now;
              let out := out <| rs_EndedAt := ended |>
                             <| rs_DurationMS := StorageHealth.Milliseconds (time_sub ended t) |> in
              mret (out, if 0 <? out.(rs_Failed) then Some (Failure "scrub found unrepaired corrupt objects") else None)
          end
      end
  end.

(** ** Rebuilding an object in place *)

Context {RS : ReedSolomon}.

(** [io.ReadAll] through a handle. *)
Definition ReadHandle (i : positive) : Disk string := syscall (fun _ fs => (fs, inr (inode fs i).(i_content))).

Definition erasure_dir (casRoot digest : string) : string :=
  join (join (join casRoot "erasure") (String.substring 0 2 digest)) digest.

(** The copy over the object, which keeps its inode, and the check after it. *)
Definition heal (tmpPath dstPath digest : string) : Disk unit :=
  src ← Open tmpPath;
  dst ← Truncate dstPath;
  c ← ReadHandle src;
  Write dst c;;
  touch;;
  touch;;
  '(got, _) ← Cas.HashFile dstPath;
  if EqualFold got digest then mret tt else fail "post-repair digest mismatch".

Definition rebuild (casRoot dir tmpPath digest : string) : Disk unit :=
  Reconstruct dir tmpPath;;
  '(got, _) ← Cas.HashFile tmpPath;
  if EqualFold got digest then heal tmpPath (Cas.BlobPath (Cas.New casRoot 0) digest) digest
  else fail "reconstructed digest mismatch".

Definition LocalErasureRepair (casRoot : string) : RepairFunc := fun digest _ =>
  let digest := ToLower (TrimSpace digest) in
  if slen digest ≠? 64 then fail "invalid digest"
  else
    '(tmpPath, _) ← CreateTemp (join (join casRoot "sha256") (String.substring 0 2 digest)) ".repair-";
    try (Remove tmpPath);;
    finally (Remove tmpPath) (rebuild casRoot (erasure_dir casRoot digest) tmpPath digest).

(** ** [ProtectPaths] *)

Context {T : TempDirs}.

(** The callback of the walk ignores the errors it gets. *)
Fixpoint large_files (minBytes : Z) (l : list string) : Disk (list string) :=
  match l with
  | [] => mret []
  | p :: l' =>
      st ← try (Stat p);
      rest ← large_files minBytes l';
      mret match st with
           | inr info => if info.(fi_regular) && (minBytes <=? info.(fi_size)) then p :: rest else rest
           | inl _ => rest
           end
  end.

Fixpoint candidates (minBytes : Z) (paths : list string) : Disk (list string) :=
  match paths with
  | [] => mret []
  | root :: paths' =>
      r ← try (syscall (fun _ fs => (fs, walk_list fs root)));
      files ← large_files minBytes match r with inr l => l | inl _ => [] end;
      rest ← candidates minBytes paths';
      mret (files ++ rest)
  end.

(** The number of objects encoded comes with an error too. *)
Fixpoint protect_files (casRoot : string) (cfg : Config) (seen : list string) (n : Z) (l : list string)
    : Disk (Z * option FileError) :=
  match l with
  | [] => mret (n, None)
  | path :: l' =>
      h ← try (hashFile path);
      match h with
      | inl e => mret (n, Some e)
      | inr digest =>
          if bool_decide (digest ∈ seen) then protect_files casRoot cfg seen n l'
          else
            let obj := Cas.blobPath (Cas.New casRoot 0) digest in
            st ← try (Stat obj);
            match st with
            | inl _ => protect_files casRoot cfg (digest :: seen) n l'
            | inr _ =>
                r ← try (EncodeFile obj (erasure_dir casRoot digest) cfg);
                match r with
                | inl e => mret (n, Some e)
                | inr _ => protect_files casRoot cfg (digest :: seen) (n + 1) l'
                end
            end
      end
  end.

Definition ProtectPaths (casRoot : string) (paths : list string) (minBytes : Z) (cfg : Config)
    : Disk (Z * option FileError) :=
  files ← candidates minBytes paths;
  protect_files casRoot cfg [] 0 (sort_slice str_less files).
End Scrub.
End Scrub.
