(* ===== verification/HealRules.v ===== *)
(** * A damaged object is rebuilt in place (internal/scrub/repair.go)

    On a disk that does not fail, [LocalErasureRepair] rewrites the inode of the
    object from its shards, so that every hard link is healed with it, and leaves
    everything else as it was. *)

From Stdlib Require Import Ascii String.
From S2P Require Import Prelude GoStd Text JsonText JsonStruct GoTime Sha256 Control FileSystem FileTree ErasureCodec CodecRules CodecDisk CodecBack Cas Scrub.
#[global] Open Scope Z_scope.

Module HealRules.
Import ErasureCodec CodecRules CodecDisk CodecBack Scrub.

(** [os.CreateTemp] finds a name in the directory that no other name begins with. *)
Definition fresh_temps `{OS} : Prop := ∀ fs dir pat, ∃ t,
  temp_name fs dir pat = join dir (pat +:+ t) ∧ "/"%char ∉ chars t ∧
  ∀ q, is_Some (fs.(entries) !! q) ∨ q ∈ fs.(dirs) → HasPrefix q (temp_name fs dir pat) = false.

Lemma read_at_inode fs p x :
  read_at fs p = inr x ↔ ∃ n, inode_at fs p = Some n ∧ n.(i_regular) = true ∧ n.(i_content) = x.
Proof.
  unfold read_at. destruct (inode_at fs p) as [n|]; [|split; [done|by intros (? & ? & _)]].
  destruct (i_regular n) eqn:Hr; split; [intros [= <-]; eauto|by intros (? & [= <-] & _ & <-)|done|].
  intros (? & [= <-] & ? & _). congruence.
Qed.

(** An erasure set for a text, as far as it is still there. *)
Record encoded_by `{ReedSolomon} (cfg : Config) (now : Time) (dir : string) (c : list ascii) (fs : FS) : Prop := {
  en_accepted : accepted cfg;
  en_manifest_ok : manifest_ok (manifest_of cfg c now);
  en_manifest : read_at fs (join dir "manifest.json") = inr (manifest_text (manifest_of cfg c now));
  en_enough : cfg.(DataShards) ≤ zlen (List.filter (intact cfg c dir fs) (seq 0 (total cfg)));
  en_distinct : distinct cfg c dir fs
}.

Definition encoded `{ReedSolomon} (dir : string) (c : list ascii) (fs : FS) : Prop :=
  ∃ cfg now, encoded_by cfg now dir c fs.

(** The files below a directory are the same. *)
Definition same_below (dir : string) (fs fs' : FS) : Prop :=
  ∀ q, under dir q = true → inode_at fs' q = inode_at fs q.

Lemma encoded_same `{ReedSolomon} dir c fs fs' : same_below dir fs fs' → encoded dir c fs → encoded dir c fs'.
Proof.
  intros Hs (cfg & now & [H1 H2 H3 H4 H5]).
  assert (Hr : ∀ n x, read_at fs' (join dir n) = inr x ↔ read_at fs (join dir n) = inr x).
  { intros n x. rewrite !read_at_inode. by rewrite (Hs _ (under_join dir n)). }
  exists cfg, now. split; [done|done|by apply Hr| |].
  - etransitivity; [exact H4|]. apply Z.eq_le_incl. f_equal. apply List.filter_ext. intros j.
    unfold intact, shard_file. apply bool_decide_ext. symmetry. apply Hr.
  - intros j x Hj Hx. apply (H5 j x Hj). unfold read, shard_file in *. by rewrite <- (Hs _ (under_join dir _)).
Qed.

(** ** The texts of hashes *)

Lemma hash_chars s (P : ascii → Prop) :
  (∀ x, hex_char x = true → P x) → Forall P (chars (sha256hex s)).
Proof. intros H. eapply Forall_impl; [apply sha256hex_hex|]. intros x Hx. by apply H. Qed.

Lemma hash_no_slash s : "/"%char ∉ chars (sha256hex s).
Proof.
  intros H. pose proof (hash_chars s (fun x => x ≠ "/"%char)) as Hf.
  eapply Forall_forall in Hf; [by apply Hf|intros x Hx ->; by vm_compute in Hx|exact H].
Qed.

Lemma trim_right_visible s : Forall (fun x => is_space x = false) (chars s) → trim_right s = s.
Proof.
  induction s as [|x s IH]; [done|]. cbn. intros [Hx Hs]%Forall_cons. rewrite (IH Hs). destruct s; [by rewrite Hx|done].
Qed.

Lemma hash_trim s : TrimSpace (sha256hex s) = sha256hex s.
Proof.
  assert (H : Forall (fun x => is_space x = false) (chars (sha256hex s))).
  { apply hash_chars. intros x. destruct x as [[] [] [] [] [] [] [] []]; by vm_compute. }
  unfold TrimSpace. destruct (sha256hex s) as [|x l] eqn:E; [done|].
  cbn [trim_left]. rewrite (Forall_inv H). by apply trim_right_visible.
Qed.

Section Heal.
Context {RS : ReedSolomon} {E : Env} {O : OS} (Hrel : ∀ k, fault k = None).
Context (root : string) (c : list ascii).

Definition digest : string := sha256hex (of_chars c).
Definition shelf : string := join (join root "sha256") (String.substring 0 2 digest).
Definition object : string := join shelf digest.

Lemma digest_length : slen digest = 64.
Proof. unfold slen, digest. by rewrite sha256hex_length. Qed.

Lemma object_path : Cas.BlobPath (Cas.New root 0) digest = object.
Proof.
  unfold Cas.BlobPath. unfold digest at 1 2 3. rewrite hash_trim, sha256hex_lower. fold digest.
  by rewrite digest_length.
Qed.

Context (fs1 : FS) (i : positive) (Hi : fs1.(entries) !! object = Some i).

(** Only the text of the object is another. *)
Record healed (fs : FS) : Prop := {
  he_names : fs.(entries) = fs1.(entries);
  he_dirs q : is_dir fs q = is_dir fs1 q;
  he_others q j : fs1.(entries) !! q = Some j → j ≠ i → inode fs j = inode fs1 j;
  he_object : file_at fs object i (of_chars c)
}.

Lemma shelf_above q : q ∈ shelf :: ancestors shelf → is_dir fs1 q = true.
Proof.
  intros Hq. unfold is_dir. apply orb_true_iff. right. apply (existsb_intro _ _ object).
  - apply list_elem_of_fmap. exists (object, i). split; [done|]. by apply elem_of_map_to_list.
  - apply elem_of_cons in Hq as [->|Hq]; [apply under_join|].
    apply ancestors_under, under_spec in Hq as [t Ht]. apply under_spec. exists (t ++ "/"%char :: chars digest).
    unfold object. by rewrite chars_join, Ht, <- app_assoc.
Qed.

Lemma is_dir_made l :
  (∀ q, q ∈ l → is_dir fs1 q = true) →
  ∀ fs q, fs.(entries) = fs1.(entries) → fs.(dirs) = list_to_set l ∪ fs1.(dirs) → is_dir fs q = is_dir fs1 q.
Proof.
  intros Hl fs q He Hd. destruct (decide (q ∈ l)) as [Hq|Hq].
  - rewrite (Hl q Hq). apply is_dir_intro. rewrite Hd. set_solver.
  - unfold is_dir. rewrite He, Hd. f_equal. apply bool_decide_ext. set_solver.
Qed.

(** The name of the temporary file. *)
Context (t : string) (tmp := join shelf (".repair-" +:+ t)).
Context (Ht : "/"%char ∉ chars t) (Halone : ∀ q, is_Some (fs1.(entries) !! q) ∨ q ∈ fs1.(dirs) → HasPrefix q tmp = false).

Lemma tmp_name : "/"%char ∉ chars (".repair-" +:+ t).
Proof. rewrite chars_app. simpl. set_solver. Qed.

Lemma extends_alone s : fs1.(entries) !! (tmp +:+ s) = None ∧ is_dir fs1 (tmp +:+ s) = false.
Proof.
  assert (Hp : ∀ q r, chars q = chars (tmp +:+ s) ++ r → HasPrefix q tmp = true).
  { intros q r Hq. apply prefix_chars. exists (chars s ++ r). by rewrite Hq, chars_app, app_assoc. }
  assert (Hs : HasPrefix (tmp +:+ s) tmp = true) by (apply (Hp _ []); by rewrite app_nil_r).
  split.
  - destruct (entries fs1 !! (tmp +:+ s)) as [j|] eqn:Hj; [|done]. by rewrite (Halone (tmp +:+ s)) in Hs by eauto.
  - apply not_dir_spec. split.
    + intros Hd. by rewrite (Halone (tmp +:+ s)) in Hs by eauto.
    + intros q j Hq. destruct (under _ q) eqn:Hu; [|done]. apply under_spec in Hu as [r Hr].
      apply Hp in Hr. by rewrite (Halone q) in Hr by eauto.
Qed.

Lemma tmp_alone : fs1.(entries) !! tmp = None ∧ is_dir fs1 tmp = false.
Proof. pose proof (extends_alone "") as H. by rewrite text_nil in H. Qed.

Context (Hplain : existsb (occupied fs1) (shelf :: ancestors shelf) = false).

(** The text is back, and the temporary file is still there. *)
Record rebuilt (fs : FS) : Prop := {
  rb_names q : q ≠ tmp → fs.(entries) !! q = fs1.(entries) !! q;
  rb_tmp : is_Some (fs.(entries) !! tmp);
  rb_dirs : fs.(dirs) = list_to_set (shelf :: ancestors shelf) ∪ fs1.(dirs);
  rb_others q j : fs1.(entries) !! q = Some j → j ≠ i → inode fs j = inode fs1 j;
  rb_object : file_at fs object i (of_chars c)
}.

(** The state in which the copy over the object begins. *)
Record copying (i' : positive) (fs : FS) : Prop := {
  cy_names q : q ≠ tmp → fs.(entries) !! q = fs1.(entries) !! q;
  cy_tmp : file_at fs tmp i' (of_chars c);
  cy_new q : fs1.(entries) !! q ≠ Some i';
  cy_dirs : fs.(dirs) = list_to_set (shelf :: ancestors shelf) ∪ fs1.(dirs);
  cy_others q j : fs1.(entries) !! q = Some j → j ≠ i → inode fs j = inode fs1 j
}.

Lemma object_not_tmp : object ≠ tmp.
Proof. intros H. rewrite H in Hi. destruct tmp_alone as [Hn _]. congruence. Qed.

Lemma copying_put i' x tm fs : copying i' fs → copying i' (put i x tm fs).
Proof.
  intros [H1 H2 H3 H4 H5]. split; [done| |done|done|].
  - apply file_at_put_ne; [done|]. intros ->. by apply (H3 object).
  - intros q j Hq Hj. rewrite inode_put, bool_decide_eq_false_2 by done. by apply (H5 q).
Qed.

Lemma t_HashFile P p i0 x :
  (∀ fs, P fs → file_at fs p i0 x) → runs P (Cas.HashFile p) (fun fs r => P fs ∧ r = (sha256hex x, slen x)).
Proof.
  intros H. unfold Cas.HashFile. eapply t_bind; [by apply (t_ReadFile Hrel P p i0 x)|].
  intros a. apply t_ret. by intros fs [? ->].
Qed.

Lemma t_heal i' : runs (copying i') (heal tmp object digest) (fun fs _ => rebuilt fs).
Proof.
  unfold heal. eapply t_bind; [apply (t_Open Hrel _ tmp i' (of_chars c)); by intros fs []|]. intros src.
  apply t_pre with (src = i'); [by intros fs []|]. intros ->.
  apply (t_bind _ _ _ (fun fs dst => copying i' fs ∧ dst = i)).
  { apply (t_call Hrel). intros tm fs [Hc _]. rewrite (cy_names _ _ Hc) by apply object_not_tmp. rewrite Hi.
    split; [by apply copying_put|done]. }
  intros dst. apply t_pre with (dst = i); [by intros fs []|]. intros ->.
  eapply t_bind; [apply (t_look Hrel (fun fs => copying i' fs ∧ i = i))|]. intros x.
  apply t_pre with (x = of_chars c).
  { intros fs [[Hc _] ->]. apply (cy_tmp _ _ Hc). }
  intros ->. apply (t_bind _ _ _ (fun fs _ => rebuilt fs)).
  { apply (t_Write Hrel). intros tm fs [[Hc _] _]. apply (copying_put i' (of_chars c) tm) in Hc as Hc'.
    destruct Hc' as [H1 H2 H3 H4 H5]. split; [done|by destruct H2; eauto|done|done|].
    apply file_at_put. rewrite <- Hi. apply (cy_names _ _ Hc), object_not_tmp. }
  intros u. apply (t_bind _ _ _ (fun fs _ => rebuilt fs)); [apply (t_touch Hrel)|]. intros u1.
  apply (t_bind _ _ _ (fun fs _ => rebuilt fs)); [apply (t_touch Hrel)|]. intros u2.
  eapply t_bind; [apply (t_HashFile rebuilt object i (of_chars c)); by intros fs []|]. intros [h n].
  apply t_pre with (h = digest); [by intros fs [_ [= -> _]]|]. intros ->. rewrite EqualFold_refl.
  apply t_ret. by intros fs [].
Qed.

Lemma t_rebuild tm dir : encoded dir c fs1 →
  runs (fun fs => fs = put (unused fs1) "" tm fs1) (rebuild root dir tmp digest) (fun fs _ => rebuilt fs).
Proof.
  intros Hen. set (fs2 := put (unused fs1) "" tm fs1).
  assert (Hinode : ∀ q j, fs1.(entries) !! q = Some j → inode fs2 j = inode fs1 j).
  { intros q j Hq. unfold fs2. rewrite inode_put, bool_decide_eq_false_2; [done|]. intros ->. by apply (unused_free fs1 q). }
  assert (Hsame : same_below dir fs1 fs2).
  { intros q _. unfold inode_at. change (entries fs2) with (entries fs1).
    destruct (entries fs1 !! q) as [j|] eqn:Hq; [|done]. cbn. f_equal. by apply (Hinode q). }
  destruct (encoded_same _ _ _ _ Hsame Hen) as (cfg & now & [H1 H2 H3 H4 H5]).
  unfold rebuild. eapply t_bind.
  { apply (t_Reconstruct Hrel cfg H1 c dir now H2 shelf (".repair-" +:+ t) tmp_name fs2).
    split; try done; [by apply read_at_file|apply tmp_alone|]. 
    assert (Hpart : part shelf (".repair-" +:+ t) = tmp +:+ ".repoark-reconstruct.part").
    { unfold part, tmp, join. by rewrite !text_assoc. }
    rewrite Hpart. split; [by apply not_occupied_spec, extends_alone|apply extends_alone]. }
  intros u. apply (t_weaken (fun fs => ∃ i', copying i' fs) _ (fun fs _ => rebuilt fs)); [|
    |done].
  - intros k fs [i' Hc]. revert k fs Hc. change (runs (copying i')
      ('(got, _) ← Cas.HashFile tmp; if EqualFold got digest then heal tmp (Cas.BlobPath (Cas.New root 0) digest) digest
       else fail "reconstructed digest mismatch") (fun fs _ => rebuilt fs)).
    eapply t_bind; [apply (t_HashFile (copying i') tmp i' (of_chars c)); by intros fs []|]. intros [h n].
    apply t_pre with (h = digest); [by intros fs [_ [= -> _]]|]. intros ->. rewrite EqualFold_refl, object_path.
    eapply t_weaken; [apply t_heal|by intros fs []|done].
  - intros fs ((i' & Hf & Hn) & [Hk1 Hk2] & Hd). exists i'. split; [exact Hk1|exact Hf|exact Hn|exact Hd|].
    intros q j Hq _. rewrite (Hk2 q j Hq). by apply (Hinode q).
Qed.

Lemma t_remove_tmp : runs rebuilt (Remove tmp) (fun fs _ => healed fs).
Proof.
  apply (t_call Hrel). intros tm fs [H1 H2 H3 H4 H5]. unfold occupied. rewrite bool_decide_eq_true_2 by done.
  assert (He : delete tmp fs.(entries) = fs1.(entries)).
  { apply map_eq. intros q. destruct (decide (q = tmp)) as [->|Hq].
    - rewrite lookup_delete_eq. symmetry. apply tmp_alone.
    - rewrite lookup_delete_ne by done. by apply H1. }
  split; [exact He| |exact H4|].
  - intros q. by apply (is_dir_made _ shelf_above).
  - apply file_at_delete; [done|]. apply object_not_tmp.
Qed.
End Heal.

Section Repair.
Context {RS : ReedSolomon} {E : Env} {O : OS} (Hrel : ∀ k, fault k = None) (Hfresh : fresh_temps).
Context (root : string) (c : list ascii) (fs1 : FS) (i : positive).

Lemma t_LocalErasureRepair path :
  fs1.(entries) !! object root c = Some i →
  existsb (occupied fs1) (shelf root c :: ancestors (shelf root c)) = false →
  encoded (erasure_dir root (digest c)) c fs1 →
  runs (fun fs => fs = fs1) (LocalErasureRepair root (digest c) path) (fun fs _ => healed root c fs1 i fs).
Proof.
  intros Hi Hplain Hen. unfold LocalErasureRepair.
  replace (ToLower (TrimSpace (digest c))) with (digest c) by (unfold digest; by rewrite hash_trim, sha256hex_lower).
  rewrite digest_length. cbn [bool_decide]. fold (shelf root c).
  destruct (Hfresh fs1 (shelf root c) ".repair-") as (t & Htmp & Ht & Halone). rewrite Htmp in Halone.
  set (tmp := join (shelf root c) (".repair-" +:+ t)) in *.
  assert (Hfree : fs1.(entries) !! tmp = None) by (rewrite <- Htmp; apply temp_name_free).
  apply (t_bind _ _ _ (fun fs r => r = (tmp, unused fs1) ∧ ∃ tm,
    fs = put (unused fs1) "" tm (fs1 <| entries := <[tmp := unused fs1]> fs1.(entries) |>))).
  { apply (t_call Hrel). intros tm fs ->. rewrite (shelf_above root c fs1 i Hi) by (by left).
    rewrite Htmp. split; [done|]. by exists tm. }
  intros [name j]. apply t_pre with (name = tmp); [by intros fs [[= -> _] _]|]. intros ->.
  apply (t_bind _ _ _ (fun fs _ => ∃ tm, fs = put (unused fs1) "" tm fs1)).
  { apply (t_weaken (fun fs => ∃ tm, fs = put (unused fs1) "" tm
      (fs1 <| entries := <[tmp := unused fs1]> fs1.(entries) |>)) _
      (fun fs r => ∃ a, r = inr a ∧ ∃ tm, fs = put (unused fs1) "" tm fs1));
      [apply t_try|by intros fs [_ H]|by intros fs a (_ & _ & H)].
    unfold Remove. apply (t_call Hrel). intros tm0 fs [tm ->]. unfold occupied. cbn.
    rewrite lookup_insert_eq, bool_decide_eq_true_2 by eauto. exists tm. destruct fs1 as [e d n]. cbn in *.
    unfold put. cbn. by rewrite delete_insert_id. }
  intros u k fs [tm Hfs]. revert k fs Hfs. change (runs (fun fs => fs = put (unused fs1) "" tm fs1)
    (finally (Remove tmp) (rebuild root (erasure_dir root (digest c)) tmp (digest c)))
    (fun fs _ => healed root c fs1 i fs)).
  unfold finally. eapply t_bind; [apply t_try, (t_rebuild Hrel root c fs1 i Hi t Ht Halone Hplain tm _ Hen)|].
  intros r. apply t_pre with (r = inr tt); [by intros fs ([] & -> & _)|]. intros ->.
  eapply t_bind.
  { apply t_try. eapply t_weaken; [apply (t_remove_tmp Hrel root c fs1 i Hi t Halone)|by intros fs (? & _ & H)|].
    intros fs a H. exact H. }
  intros r. apply t_ret. by intros fs (a & _ & H).
Qed.
End Repair.
End HealRules.
