(* ===== verification/ScrubRules.v ===== *)
(** * What scrubbing promises (internal/scrub/scrub.go)

    The report accounts for every object sampled, whatever fails; and on a disk
    that does not fail, a full scrub with the local repair leaves every object of a
    store with the text its name is the hash of, if the damaged ones can be rebuilt
    from their shards. *)

From Stdlib Require Import Ascii String.
From S2P Require Import Prelude GoStd Text JsonText GoTime Sha256 Control FileSystem FileTree ErasureCodec CodecBack Cas Scrub HealRules.
#[global] Open Scope Z_scope.

Module ScrubRules.
Import ErasureCodec CodecBack Scrub HealRules.

(** ** The report *)

(** Every object looked at is counted once, and those that stay damaged are named. *)
Record accounted (out : Result) : Prop := {
  ac_sampled : out.(rs_Sampled) = out.(rs_Healthy) + out.(rs_Corrupt);
  ac_corrupt : out.(rs_Corrupt) = out.(rs_Repaired) + out.(rs_Failed);
  ac_digests : zlen out.(rs_Digests) = out.(rs_Corrupt);
  ac_unrepaired : zlen out.(rs_UnrepairedDigests) = out.(rs_Failed)
}.

Lemma zlen_snoc {A} (l : list A) x : zlen (l ++ [x]) = zlen l + 1.
Proof. unfold zlen. rewrite length_app. simpl. lia. Qed.

Section Report.
Context {E : Env} {O : OS}.

(** The counts go on from those before. *)
Definition continues (n : Z) (out0 out : Result) : Prop :=
  accounted out ∧ out.(rs_Sampled) = out0.(rs_Sampled) + n ∧ out.(rs_Available) = out0.(rs_Available).

(** Arithmetic on the fields of a report. *)
Ltac count := unfold unrepaired; split_and!; cbn -[zlen]; try lia; split; cbn -[zlen]; rewrite ?zlen_snoc; lia.

Lemma h_scrub_object s o out : accounted out →
  hoare (fun _ => True) (scrub_object s o out) (fun _ out' => continues 1 out out') (fun _ _ => False).
Proof.
  intros [H1 H2 H3 H4]. unfold scrub_object. eapply h_attempt; [apply h_anything| |]; intros got.
  all: destruct (matches o _); [apply h_ret; intros fs _; count|].
  all: destruct (scr_Repair s) as [repair|]; [|apply h_ret; intros fs _; count].
  all: eapply h_attempt; [apply h_anything| |]; intros r; [|apply h_ret; intros fs _; count].
  all: eapply h_attempt; [apply h_anything| |]; intros got'; apply h_ret; intros fs _;
    destruct (matches o _); count.
Qed.

Lemma h_scrub_objects s l out : accounted out →
  hoare (fun _ => True) (scrub_objects s l out)
    (fun _ r => ∃ n, continues n out r.1 ∧ 0 ≤ n ≤ zlen l ∧ (r.2 = None → n = zlen l)) (fun _ _ => False).
Proof.
  revert out. induction l as [|o l IH]; intros out Hout; cbn [scrub_objects].
  { apply h_ret. intros fs _. exists 0. unfold continues. cbn [fst snd]. by split_and!; try lia. }
  eapply h_attempt; [apply h_touch|intros []|].
  - eapply h_bind; [eapply h_before; [by apply h_scrub_object|done]|]. intros out1.
    apply h_pre with (continues 1 out out1); [done|]. intros (H1 & H2 & H3).
    eapply h_weaken; [by apply (IH out1)|done| |done]. intros fs r (n & (G1 & G2 & G3) & Hn & Hr).
    exists (n + 1). unfold continues. split_and!; [done|lia|congruence|lia|unfold zlen in *; cbn; lia|].
    intros He. rewrite (Hr He). unfold zlen. cbn. lia.
  - intros e. apply h_ret. intros fs _. exists 0. unfold continues. cbn [fst snd]. by split_and!; try lia; unfold zlen; try lia.
Qed.

(** The number of objects a scrub looks at. *)
Definition sample_size (s : Scrubber) (available : Z) : Z :=
  if (s.(scr_SampleObjects) <=? 0) || (available <? s.(scr_SampleObjects)) then available
  else s.(scr_SampleObjects).

Lemma sample_length s seed objects : zlen (sample s seed objects) = sample_size s (zlen objects).
Proof.
  unfold sample, sample_size, zlen. rewrite length_fmap, length_take, sort_slice_perm, length_fmap.
  destruct (_ || _) eqn:Hl; [lia|]. apply orb_false_iff in Hl as [H1 H2].
  apply Z.leb_gt in H1. apply Z.ltb_ge in H2. lia.
Qed.

(** The report of a scrub accounts for what was looked at, whatever calls fail and
    whatever the repair does; without an error it looked at as many objects as it
    was told to, and none stayed damaged. *)
Theorem scrub_report_accounts s k fs k' fs' r :
  Run s k fs = (k', fs', r) →
  ∃ out err, r = inr (out, err) ∧ accounted out ∧ 0 ≤ out.(rs_Sampled) ≤ sample_size s out.(rs_Available) ∧
    (err = None → out.(rs_Failed) = 0 ∧ out.(rs_UnrepairedDigests) = [] ∧
       out.(rs_Sampled) = sample_size s out.(rs_Available)).
Proof.
  intros Hrun.
  assert (H : hoare (fun _ => True) (Run s) (fun _ r => accounted r.1 ∧
    0 ≤ r.1.(rs_Sampled) ≤ sample_size s r.1.(rs_Available) ∧ (r.2 = None → r.1.(rs_Failed) = 0 ∧
    r.1.(rs_Sampled) = sample_size s r.1.(rs_Available))) (fun _ _ => False)).
  { unfold Run. apply (h_bind _ _ _ (fun _ _ => True)); [by intros i0 fs0 _|]. intros t.
    assert (H0 : 0 ≤ sample_size s 0).
    { unfold sample_size. destruct (_ || _) eqn:Hb; [done|]. apply orb_false_iff in Hb as [H1%Z.leb_gt _]. lia. }
    destruct (scr_CAS s) as [st|]; [|apply h_ret; intros fs0 _; by split_and!].
    eapply h_attempt; [apply h_anything| |]; [intros objects|intros e; apply h_ret; intros fs0 _; by split_and!].
    apply (h_bind _ _ _ (fun _ _ => True)); [by intros i0 fs0 _|]. intros today.
    eapply h_bind; [apply h_scrub_objects; by split|]. intros [out err].
    rewrite sample_length. set (n0 := sample_size s _). cbn [fst snd].
    apply h_pre with (∃ n, continues n ((no_result t) <| rs_Available := zlen objects |>) out ∧ 0 ≤ n ≤ n0 ∧
      (err = None → n = n0)); [done|]. intros (n & (G1 & G2 & G3) & Hn & He). cbn in G2, G3.
    destruct err as [e|].
    - apply h_ret. intros fs0 _. cbn -[zlen]. rewrite G2, G3. fold n0. split_and!; [done|lia|lia|by intros [=]].
    - apply (h_bind _ _ _ (fun _ _ => True)); [by intros i0 fs0 _|]. intros ended. apply h_ret. intros fs0 _.
      split; [destruct G1; by split|]. cbn -[zlen].
      rewrite G2, G3. fold n0. rewrite (He eq_refl). split_and!; [lia|lia|].
      destruct (Z.ltb_spec 0 (rs_Failed out)); [done|]. intros _. split; [|lia]. destruct G1 as [_ _ _ G4].
      unfold zlen in G4. lia. }
  specialize (H k fs I). rewrite Hrun in H. destruct r as [e|[out err]]; [done|]. cbn in H.
  destruct H as (H1 & H2 & H3). exists out, err. split_and!; try done; try lia.
  intros He. destruct (H3 He) as [Hf Hs]. split_and!; [done| |done]. destruct H1 as [_ _ _ G]. rewrite Hf in G.
  destruct (rs_UnrepairedDigests out); [done|]. unfold zlen in G. cbn in G. lia.
Qed.
End Report.

(** ** A store that can be healed *)

Section Store.
Context {RS : ReedSolomon} {E : Env} {O : OS} (Hrel : ∀ k, fault k = None) (Hfresh : fresh_temps).
Context (root : string).
Implicit Types (fs : FS) (p q : string) (i j : positive).

Definition objects_dir : string := join root "sha256".
Definition shards_dir : string := join root "erasure".

(** A name in the store has the text it is the hash of. *)
Definition verified fs p : Prop := ∃ i x, file_at fs p i x ∧ sha256hex x = Base p.

(** Every object has its text, or can be rebuilt; no object shares its inode with
    another, no damaged one with a shard, and no file is in the place of a
    directory. *)
Record repairable fs : Prop := {
  rp_root : is_dir fs objects_dir = true ∧ occupied fs objects_dir = false;
  rp_object p : under objects_dir p = true → is_Some (fs.(entries) !! p) →
    ∃ c, p = object root c ∧ (verified fs p ∨ encoded (erasure_dir root (digest c)) c fs);
  rp_regular p i : under objects_dir p = true → fs.(entries) !! p = Some i → (inode fs i).(i_regular) = true;
  rp_inodes p q i : under objects_dir p = true → under objects_dir q = true →
    fs.(entries) !! p = Some i → fs.(entries) !! q = Some i → p = q;
  rp_shards p q i : under objects_dir p = true → under shards_dir q = true →
    fs.(entries) !! p = Some i → fs.(entries) !! q = Some i → verified fs p;
  rp_tree p q : is_Some (fs.(entries) !! p) → is_Some (fs.(entries) !! q) → under p q = false
}.

(** The inode of a damaged object. *)
Definition of_damaged fs j : Prop :=
  ∃ p, under objects_dir p = true ∧ fs.(entries) !! p = Some j ∧ ¬ verified fs p.

Lemma under_trans p q r : under p q = true → under q r = true → under p r = true.
Proof.
  intros [t Ht]%under_spec [u Hu]%under_spec. apply under_spec. exists (t ++ "/"%char :: chars ""  ++ u).
  rewrite Hu, Ht. by rewrite <- app_assoc.
Qed.

Lemma object_below c : under objects_dir (object root c) = true.
Proof. eapply under_trans; [apply under_join|apply under_join]. Qed.

Lemma shards_below d q : under (erasure_dir root d) q = true → under shards_dir q = true.
Proof. intros H. eapply under_trans; [|exact H]. eapply under_trans; [apply under_join|apply under_join]. Qed.

Lemma Base_object c : Base (object root c) = digest c.
Proof. apply Base_join, hash_no_slash. Qed.

Context (fs0 : FS) (Hok : repairable fs0).

Lemma shelf_plain c i : fs0.(entries) !! object root c = Some i →
  existsb (occupied fs0) (shelf root c :: ancestors (shelf root c)) = false.
Proof.
  intros Hi. apply not_true_iff_false. intros (q & Hq & Ho)%existsb_exists. apply list_elem_of_In in Hq.
  assert (Hu : under q (object root c) = true).
  { apply elem_of_cons in Hq as [->|Hq]; [apply under_join|]. eapply under_trans; [by apply ancestors_under|apply under_join]. }
  unfold occupied in Ho. apply bool_decide_eq_true in Ho. rewrite (rp_tree _ Hok) in Hu; eauto. done.
Qed.

(** ** What holds during the scrub *)

(** Only texts of damaged objects have changed. *)
Record scrubbing fs : Prop := {
  sb_names : fs.(entries) = fs0.(entries);
  sb_dirs q : is_dir fs q = is_dir fs0 q;
  sb_others q j : fs0.(entries) !! q = Some j → ¬ of_damaged fs0 j → inode fs j = inode fs0 j;
  sb_objects p i : under objects_dir p = true → fs0.(entries) !! p = Some i →
    inode fs i = inode fs0 i ∨ verified fs p
}.

Lemma scrubbing_start : scrubbing fs0.
Proof. split; auto. Qed.

Lemma scrubbing_regular fs p i : scrubbing fs → under objects_dir p = true → fs0.(entries) !! p = Some i →
  file_at fs p i (inode fs i).(i_content).
Proof.
  intros Hs Hp Hi. split; [by rewrite (sb_names _ Hs)|]. split; [|done].
  destruct (sb_objects _ Hs p i Hp Hi) as [->|(j & x & (H1 & H2 & _) & _)]; [by apply (rp_regular _ Hok p)|].
  rewrite (sb_names _ Hs) in H1. congruence.
Qed.

(** An object that still has the wrong text can be rebuilt. *)
Lemma scrubbing_encoded fs p i : scrubbing fs → under objects_dir p = true → fs0.(entries) !! p = Some i →
  ¬ verified fs p → ∃ c, p = object root c ∧ encoded (erasure_dir root (digest c)) c fs.
Proof.
  intros Hs Hp Hi Hn. destruct (rp_object _ Hok p Hp) as (c & Hc & [Hv|He]); [by eauto| |].
  - destruct (sb_objects _ Hs p i Hp Hi) as [Heq|Hv']; [|done]. exfalso. apply Hn.
    destruct Hv as (j & x & (H1 & H2 & H3) & H4). assert (j = i) as -> by congruence.
    exists i, x. split; [|done]. rewrite <- Heq in H2, H3. split; [by rewrite (sb_names _ Hs)|done].
  - exists c. split; [done|]. apply (encoded_same _ _ fs0); [|done].
    intros q Hq%shards_below. unfold inode_at. rewrite (sb_names _ Hs).
    destruct (entries fs0 !! q) as [j|] eqn:Hj; [|done]. cbn. f_equal. apply (sb_others _ Hs q j Hj).
    intros (p' & Hp' & Hpj & Hd). by apply Hd, (rp_shards _ Hok p' q j).
Qed.

(** What is damaged now was so at the start. *)
Lemma scrubbing_damaged fs p i : scrubbing fs → under objects_dir p = true → fs0.(entries) !! p = Some i →
  ¬ verified fs p → of_damaged fs0 i.
Proof.
  intros Hs Hp Hi Hn. exists p. split_and!; [done|done|]. intros (j & x & (H1 & H2 & H3) & H4).
  assert (j = i) as -> by congruence. destruct (sb_objects _ Hs p i Hp Hi) as [Heq|Hv]; [|done].
  apply Hn. exists i, x. split; [|done]. split; [by rewrite (sb_names _ Hs)|by rewrite Heq].
Qed.

(** A repair of one object takes the scrub on. *)
Lemma healed_scrubbing fs fs' c i :
  scrubbing fs → fs0.(entries) !! object root c = Some i → ¬ verified fs (object root c) → healed root c fs i fs' →
  scrubbing fs' ∧ verified fs' (object root c) ∧ ∀ p, under objects_dir p = true → verified fs p → verified fs' p.
Proof.
  intros Hs Hi Hdam [H1 H2 H3 H4].
  assert (Hv : verified fs' (object root c)).
  { exists i, (of_chars c). split; [done|]. by rewrite Base_object. }
  assert (Hkeep : ∀ p, under objects_dir p = true → verified fs p → verified fs' p).
  { intros p Hp (j & x & (G1 & G2 & G3) & G4). destruct (decide (p = object root c)) as [->|Hne]; [done|].
    rewrite (sb_names _ Hs) in G1. assert (Hj : j ≠ i).
    { intros ->. apply Hne. by apply (rp_inodes _ Hok p (object root c) i Hp (object_below c)). }
    exists j, x. split; [|done]. unfold file_at. rewrite H1, (sb_names _ Hs), (H3 p j); [done| |done].
    by rewrite (sb_names _ Hs). }
  split_and!; [|done|done]. split.
  - by rewrite H1, (sb_names _ Hs).
  - intros q. by rewrite H2, (sb_dirs _ Hs).
  - intros q j Hq Hn. rewrite (H3 q j); [by apply (sb_others _ Hs q)|by rewrite (sb_names _ Hs)|].
    intros ->. by apply Hn, (scrubbing_damaged fs (object root c) i Hs (object_below c)).
  - intros p j Hp Hj. destruct (decide (p = object root c)) as [->|Hne]; [by right|].
    destruct (sb_objects _ Hs p j Hp Hj) as [Heq|Hv']; [left|right; by apply Hkeep].
    rewrite <- Heq. apply (H3 p); [by rewrite (sb_names _ Hs)|]. intros ->. apply Hne.
    by apply (rp_inodes _ Hok p (object root c) i Hp (object_below c)).
Qed.

(** What the list of objects says of one. *)
Definition info_of (o : Cas.ObjectInfo) : Prop :=
  under objects_dir o.(Cas.oi_Path) = true ∧ is_Some (fs0.(entries) !! o.(Cas.oi_Path)) ∧
  o.(Cas.oi_Digest) = Base o.(Cas.oi_Path).

Context (s : Scrubber) (Hrepair : s.(scr_Repair) = Some (LocalErasureRepair root)).

(** The object is now right, what was right still is, and no failure was counted. *)
Definition took_on (o : Cas.ObjectInfo) (fs : FS) (out : Result) (fs' : FS) (out' : Result) : Prop :=
  scrubbing fs' ∧ verified fs' o.(Cas.oi_Path) ∧
  (∀ p, under objects_dir p = true → verified fs p → verified fs' p) ∧ out'.(rs_Failed) = out.(rs_Failed).

Lemma t_hash_object fs p i : scrubbing fs → under objects_dir p = true → fs0.(entries) !! p = Some i →
  runs (fun f => f = fs) (try (Cas.HashFile p))
    (fun f r => f = fs ∧ ∃ n, r = inr (sha256hex (inode fs i).(i_content), n)).
Proof.
  intros Hs Hp Hi. eapply t_weaken; [apply t_try, (t_HashFile Hrel (fun f => f = fs) p i)|done|].
  - intros f ->. by apply scrubbing_regular.
  - intros f r (a & -> & -> & ->). by eauto.
Qed.

Lemma t_hash_verified P p : (∀ fs, P fs → verified fs p) →
  runs P (try (Cas.HashFile p)) (fun fs r => P fs ∧ ∃ n, r = inr (Base p, n)).
Proof.
  intros H. eapply (t_weaken P); [apply t_try|done|].
  - unfold Cas.HashFile. apply (t_bind _ _ _ (fun fs x => P fs ∧ sha256hex x = Base p)).
    + apply (t_call Hrel). intros t fs HP. destruct (H fs HP) as (i & x & (H1 & H2 & H3) & H4).
      unfold read_at, inode_at. rewrite H1. cbn. by rewrite H2, H3.
    + intros x. apply (t_ret _ (sha256hex x, slen x) (fun fs r => P fs ∧ ∃ n, r = (Base p, n))).
      intros fs [HP ->]. eauto.
  - intros fs r (a & -> & HP & n & ->). eauto.
Qed.

Lemma t_scrub_object o fs out : scrubbing fs → info_of o →
  runs (fun f => f = fs) (scrub_object s o out) (fun fs' out' => took_on o fs out fs' out').
Proof.
  intros Hs (Hp & [i Hi] & Hd). unfold scrub_object. eapply t_bind; [by apply (t_hash_object fs _ i)|].
  intros got. apply t_pre with (∃ n, got = inr (sha256hex (inode fs i).(i_content), n)); [by intros f []|].
  intros [n ->]. apply t_weaken with (fun f => f = fs) (took_on o fs out); [|by intros f []|done].
  cbn [matches]. destruct (decide (sha256hex (inode fs i).(i_content) = o.(Cas.oi_Digest))) as [Hh|Hh].
  { rewrite bool_decide_eq_true_2 by done. apply t_ret. intros f ->. split_and!; try done.
    exists i, (inode fs i).(i_content). split; [by apply scrubbing_regular|congruence]. }
  rewrite bool_decide_eq_false_2, Hrepair by done.
  assert (Hdam : ¬ verified fs (Cas.oi_Path o)).
  { intros (j & x & (H1 & _ & H3) & H4). rewrite (sb_names _ Hs) in H1. apply Hh. congruence. }
  destruct (scrubbing_encoded fs (Cas.oi_Path o) i) as (c & Hc & He); try done.
  rewrite Hc in Hp, Hi, Hd, Hdam |- *. rewrite Base_object in Hd. rewrite Hd.
  assert (Hi' : fs.(entries) !! object root c = Some i) by by rewrite (sb_names _ Hs).
  eapply t_bind.
  { apply t_try, (t_LocalErasureRepair Hrel Hfresh root c fs i (object root c)); [done| |done].
    unfold occupied. rewrite (sb_names _ Hs). by apply (shelf_plain c i). }
  intros r. apply t_pre with (r = inr tt); [by intros f ([] & -> & _)|]. intros ->.
  set (P := fun f => scrubbing f ∧ verified f (object root c) ∧
    ∀ p, under objects_dir p = true → verified fs p → verified f p).
  eapply (t_weaken P); [|intros f (a & _ & Hf); by apply (healed_scrubbing fs f c i)|intros f a Hf; exact Hf].
  eapply t_bind; [by apply (t_hash_verified P (object root c)); intros f (_ & H & _)|].
  intros got. apply t_pre with (∃ n, got = inr (Base (object root c), n)); [by intros f []|]. intros [n' ->].
  apply t_ret. intros f [(H1 & H2 & H3) _]. cbn [matches]. rewrite Hd, Base_object, bool_decide_eq_true_2 by done.
  unfold took_on. by rewrite Hc.
Qed.

Lemma t_scrub_objects l fs out : scrubbing fs → Forall info_of l →
  runs (fun f => f = fs) (scrub_objects s l out)
    (fun fs' r => r.2 = None ∧ scrubbing fs' ∧ r.1.(rs_Failed) = out.(rs_Failed) ∧
       (∀ p, under objects_dir p = true → verified fs p → verified fs' p) ∧
       ∀ o, o ∈ l → verified fs' o.(Cas.oi_Path)).
Proof.
  intros Hs Hl. revert fs out Hs. induction Hl as [|o l Ho Hl IH]; intros fs out Hs; cbn [scrub_objects].
  { apply t_ret. intros f ->. split_and!; try done. intros o Ho. by apply elem_of_nil in Ho. }
  eapply t_bind; [apply t_try, (t_touch Hrel (fun f => f = fs))|]. intros r.
  apply t_pre with (r = inr tt); [by intros f ([] & -> & _)|]. intros ->.
  eapply t_bind; [eapply t_weaken; [by apply (t_scrub_object o fs out)|by intros f (_ & _ & H)|intros f a H; exact H]|].
  intros out1 k f (Hs' & Hv & Hk & Hf). specialize (IH f out1 Hs' k f eq_refl).
  destruct (scrub_objects s l out1 k f) as [[k' f'] [e|[out2 err]]]; [done|].
  destruct IH as (H1 & H2 & H3 & H4 & H5). split_and!; [done|done|by rewrite H3|by auto|].
  intros o' [->|Ho']%elem_of_cons; [|by apply H5]. apply H4; [apply Ho|done].
Qed.

(** ** The objects of the store *)

Definition listed (p : string) (o : Cas.ObjectInfo) : Prop :=
  o.(Cas.oi_Path) = p ∧ o.(Cas.oi_Digest) = Base p.

Lemma t_list_object p acc : under objects_dir p = true → is_Some (fs0.(entries) !! p) →
  runs (fun f => f = fs0) (Cas.list_object p acc)
    (fun f r => f = fs0 ∧ ∃ o, listed p o ∧ r = (acc ++ [o], None)).
Proof.
  intros Hp [i Hi]. destruct (rp_object _ Hok p Hp) as (c & Hc & _); [by eauto|].
  unfold Cas.list_object. assert (Hb : Base p = digest c) by by rewrite Hc, Base_object.
  assert (Hlow : ToLower (Base p) = Base p) by (rewrite Hb; apply sha256hex_lower).
  assert (Hlen : slen (Base p) = 64) by (rewrite Hb; apply digest_length).
  rewrite !Hlow, Hlen. cbn [bool_decide negb].
  unfold stop_on. eapply t_bind.
  { apply t_try. eapply t_bind.
    - eapply (t_Stat Hrel (fun f => f = fs0) _ i (inode fs0 i).(i_content)). intros f ->.
      split; [done|]. split; [by apply (rp_regular _ Hok p)|done].
    - intros info. apply (t_ret _ _ (fun f a => f = fs0 ∧ ∃ o, listed p o ∧ a = acc ++ [o])).
      intros f [-> _]. split; [done|]. eexists. by split; [|done]. }
  intros r. apply t_pre with (∃ o, listed p o ∧ r = inr (acc ++ [o])).
  { intros f (a & -> & _ & o & Ho & ->). eauto. }
  intros (o & Ho & ->). apply t_ret. intros f (a & _ & -> & _). eauto.
Qed.

Lemma t_list_objects l acc : (∀ p, p ∈ l → under objects_dir p = true ∧ is_Some (fs0.(entries) !! p)) →
  runs (fun f => f = fs0) (visit Cas.list_object l acc)
    (fun f r => f = fs0 ∧ ∃ os, Forall2 listed l os ∧ r = (acc ++ os, None)).
Proof.
  revert acc. induction l as [|p l IH]; intros acc Hl; cbn [visit].
  { apply t_ret. intros f ->. split; [done|]. exists []. by rewrite app_nil_r. }
  eapply t_bind; [apply t_try, (t_touch Hrel (fun f => f = fs0))|]. intros r.
  apply t_pre with (r = inr tt); [by intros f ([] & -> & _)|]. intros ->.
  destruct (Hl p) as [Hp Hi]; [by left|].
  eapply t_bind; [eapply t_weaken; [by apply (t_list_object p acc)|by intros f (_ & _ & H)|intros f a H; exact H]|].
  intros [acc' err]. apply t_pre with (∃ o, listed p o ∧ (acc', err) = (acc ++ [o], None)); [by intros f []|].
  intros (o & Ho & [= -> ->]). eapply t_weaken; [apply (IH (acc ++ [o])); intros q Hq; apply Hl; by right|by intros f []|].
  intros f r (-> & os & Hos & ->). split; [done|]. exists (o :: os). split; [by constructor|]. by rewrite <- app_assoc.
Qed.

(** [ListObjects] gives the objects, each once. *)
Lemma t_ListObjects :
  runs (fun f => f = fs0) (Cas.ListObjects (Cas.New root 0))
    (fun f l => f = fs0 ∧ Forall info_of l ∧
       ∀ p, under objects_dir p = true → is_Some (fs0.(entries) !! p) → ∃ o, o ∈ l ∧ o.(Cas.oi_Path) = p).
Proof.
  unfold Cas.ListObjects, WalkDir. destruct (rp_root _ Hok) as [Hd Ho].
  change (Cas.objectRoot (Cas.New root 0)) with objects_dir. set (l := files_under fs0 objects_dir).
  apply (t_bind _ _ _ (fun f r => f = fs0 ∧ ∃ os, Forall2 listed l os ∧ r = (os, None))).
  { eapply t_bind.
    { apply t_try, (t_call Hrel _ _ (fun f a => f = fs0 ∧ a = l)). intros t f ->. unfold walk_list. by rewrite Ho, Hd. }
    intros r. apply t_pre with (r = inr l); [by intros f (a & -> & _ & ->)|]. intros ->.
    eapply t_weaken; [apply (t_list_objects l [])|by intros f (a & _ & -> & _)|done].
    intros p Hp. by apply elem_of_files_under. }
  intros [os err]. apply t_pre with (Forall2 listed l os ∧ err = None).
  { by intros f (_ & os' & H & [= -> ->]). }
  intros [Hos ->]. apply t_ret. intros f [-> _]. split; [done|]. split.
  - apply Forall_forall. intros o Hin. rewrite elem_of_sort_slice in Hin.
    apply list_elem_of_lookup in Hin as [n Hn]. destruct (Forall2_lookup_r _ _ _ _ _ Hos Hn) as (p & Hp & H1 & H2).
    apply list_elem_of_lookup_2, elem_of_files_under in Hp. unfold info_of. rewrite H1, H2. naive_solver.
  - intros p Hp Hi. assert (Hin : p ∈ l) by by apply elem_of_files_under.
    apply list_elem_of_lookup in Hin as [n Hn]. destruct (Forall2_lookup_l _ _ _ _ _ Hos Hn) as (o & Ho' & H1 & _).
    exists o. rewrite elem_of_sort_slice. split; [by eapply list_elem_of_lookup_2|done].
Qed.

Lemma elem_of_sample seed objects o :
  s.(scr_SampleObjects) <= 0 → o ∈ sample s seed objects ↔ o ∈ objects.
Proof.
  intros H. unfold sample. rewrite (proj2 (Z.leb_le _ _)) by done. cbn [orb]. unfold zlen. rewrite Nat2Z.id.
  rewrite take_ge by (by rewrite sort_slice_perm, length_fmap).
  rewrite sort_slice_perm, <- list_fmap_compose. unfold compose. cbn. by rewrite list_fmap_id.
Qed.

Lemma t_Run : s.(scr_CAS) = Some (Cas.New root 0) → s.(scr_SampleObjects) <= 0 →
  runs (fun f => f = fs0) (Run s)
    (fun f r => r.2 = None ∧ r.1.(rs_Failed) = 0 ∧ scrubbing f ∧
       ∀ p, under objects_dir p = true → is_Some (fs0.(entries) !! p) → verified f p).
Proof.
  intros Hcas Hall. unfold Run. rewrite Hcas.
  apply (t_bind _ _ _ (fun f _ => f = fs0)); [by intros k f ->|]. intros t.
  eapply t_bind; [apply t_try, t_ListObjects|]. intros r.
  apply t_pre with (∃ l, r = inr l ∧ Forall info_of l ∧
    ∀ p, under objects_dir p = true → is_Some (fs0.(entries) !! p) → ∃ o, o ∈ l ∧ o.(Cas.oi_Path) = p).
  { intros f (l & -> & _ & H1 & H2). eauto. }
  intros (l & -> & Hl & Hc).
  apply (t_bind _ _ _ (fun f _ => f = fs0)); [by intros k f (a & _ & -> & _)|]. intros today.
  eapply t_bind; [apply (t_scrub_objects _ fs0); [apply scrubbing_start|]|].
  { apply Forall_forall. intros o Ho. rewrite elem_of_sample in Ho by done. by eapply Forall_forall in Hl. }
  intros [out err]. cbn [fst snd].
  match goal with |- runs ?P _ _ => set (P0 := P) end.
  apply t_pre with (err = None ∧ out.(rs_Failed) = 0); [by intros f (H1 & _ & H3 & _)|]. intros [-> Hf].
  apply (t_bind _ _ _ (fun f _ => P0 f)); [by intros k f H|]. intros ended. apply t_ret.
  intros f (_ & H2 & _ & _ & H5). cbn. rewrite Hf. split_and!; [done|done|done|].
  intros p Hp Hi. destruct (Hc p Hp Hi) as (o & Ho & <-). apply H5. by rewrite elem_of_sample.
Qed.
End Store.

(** C14. A full scrub heals the store.  On a disk that does not fail, where every
    object has the text its name is the hash of or can be rebuilt from its erasure
    set, [Run] over all objects with the local repair ends without an error; then
    every object has that text, the names and directories are what they were, and
    so is every file that is not a hard link to a damaged object. *)
Theorem scrub_heals_the_store `{RS : ReedSolomon} `{E : Env} `{O : OS} root sample salt k fs :
  (∀ k, fault k = None) → fresh_temps → repairable root fs → sample <= 0 →
  ∃ k' fs' out,
    Run (mkScrubber (Some (Cas.New root 0)) sample salt (Some (LocalErasureRepair root))) k fs =
      (k', fs', inr (out, None)) ∧
    out.(rs_Failed) = 0 ∧ fs'.(entries) = fs.(entries) ∧ (∀ q, is_dir fs' q = is_dir fs q) ∧
    (∀ p, under (objects_dir root) p = true → is_Some (fs.(entries) !! p) →
       ∃ x, read fs' p = Some x ∧ sha256hex x = Base p) ∧
    ∀ q, (∀ p, under (objects_dir root) p = true → is_Some (fs.(entries) !! p) →
            fs.(entries) !! p = fs.(entries) !! q → verified fs p) →
      read fs' q = read fs q.
Proof.
  intros Hrel Hfresh Hok Hall. set (s := mkScrubber _ _ _ _).
  pose proof (t_Run Hrel Hfresh root fs Hok s eq_refl eq_refl Hall k fs eq_refl) as H.
  destruct (Run s k fs) as [[k' fs'] [e|[out err]]]; [done|]. cbn in H. destruct H as (-> & Hf & [H1 H2 H3 H4] & Hv).
  exists k', fs', out. split_and!; try done.
  - intros p Hp Hi. destruct (Hv p Hp Hi) as (i & x & Hx & Hs). exists x. split; [by eapply file_at_read|done].
  - intros q Hq. unfold read, inode_at. rewrite H1. destruct (entries fs !! q) as [j|] eqn:Hj; [|done].
    cbn. do 2 f_equal. apply (H3 q j Hj). intros (p & Hp & Hi & Hd). apply Hd, (Hq p Hp); [by eauto|congruence].
Qed.
End ScrubRules.
