(* ===== verification/ScrubDemo.v ===== *)
(** * A damaged object on a concrete disk

    A store with one object that has rotted, a hard link to it, and two of the
    three shards of its erasure set. *)

From Stdlib Require Import Ascii String.
From S2P Require Import Prelude GoStd Text JsonText GoTime Sha256 Control FileSystem FileTree ErasureCodec CodecRules CodecDisk CodecBack CodecDemo Cas Scrub HealRules ScrubRules.
#[global] Open Scope Z_scope.

Module ScrubDemo.
Import ErasureCodec CodecRules CodecDisk CodecBack CodecDemo Scrub HealRules ScrubRules.

(** ** A disk that does not fail, with temporary names longer than all others *)

#[export] Program Instance quiet : OS := {|
  fault _ := None;
  partial _ _ := "";
  dir_size _ := 4096;
  temp_name fs dir pat := join dir (pat +:+ long_name fs)
|}.
Next Obligation. intros fs dir pat. exists (long_name fs). unfold join. by rewrite !text_assoc. Qed.
Next Obligation.
  intros fs dir pat. destruct (entries fs !! _) as [i|] eqn:E; [|done].
  apply entry_named, (long_name_longer fs dir pat) in E. lia.
Qed.

Lemma quiet_fresh : fresh_temps.
Proof.
  intros fs dir pat. exists (long_name fs). split_and!; [done| |].
  - unfold long_name, of_chars. rewrite chars_of. intros H%elem_of_replicate. by destruct H.
  - intros q Hq. assert (Hl : (String.length q < String.length (join dir (pat +:+ long_name fs)))%nat).
    { apply long_name_longer. destruct Hq as [[i Hi]|Hd]; [by eapply entry_named|by apply dir_named]. }
    destruct (HasPrefix _ _) eqn:Hp; [|done]. apply prefix_chars in Hp as [t Ht].
    apply (f_equal length) in Ht. rewrite length_app, !chars_length in Ht. cbn in *. lia.
Qed.

(** ** The disk *)

Definition sum : string := Eval vm_compute in sha256hex "hello".
Definition object_name : string := Eval vm_compute in object "/cas" hello.
Definition set_dir : string := Eval vm_compute in erasure_dir "/cas" sum.

Definition names_of_disk : list (string * positive) :=
  [(object_name, 1%positive); ("/b/hello.txt", 1%positive); (join set_dir "manifest.json", 2%positive);
   (join set_dir (shard_name 1), 3%positive); (join set_dir (shard_name 2), 4%positive); ("/b/other", 5%positive)].

Definition hurt (m s1 s2 : string) : FS :=
  mkFS (list_to_map names_of_disk) ∅
    (list_to_map [(1%positive, mkInode true "rot" 0); (2%positive, mkInode true m 0); (3%positive, mkInode true s1 0);
                  (4%positive, mkInode true s2 0); (5%positive, mkInode true "other" 0)]).

Lemma entry_cases m s1 s2 p i : (hurt m s1 s2).(entries) !! p = Some i → (p, i) ∈ names_of_disk.
Proof. apply elem_of_list_to_map_2. Qed.

Lemma hello_digest : digest hello = sum.
Proof. vm_compute. reflexivity. Qed.

(** What the names say of one another is decided on the list. *)
Definition objects_only (l : list (string * positive)) : bool :=
  forallb (fun '(p, i) => negb (under (objects_dir "/cas") p) || ((p ≟ object_name) && bool_decide (i = 1%positive))) l.
Definition no_shared (l : list (string * positive)) : bool :=
  forallb (fun '(p, i) => negb (under (shards_dir "/cas") p) || negb (bool_decide (i = 1%positive))) l.
Definition no_nesting (l : list (string * positive)) : bool :=
  forallb (fun '(p, _) => forallb (fun '(q, _) => negb (under p q)) l) l.

Lemma names_checked : objects_only names_of_disk && no_shared names_of_disk && no_nesting names_of_disk = true.
Proof. vm_compute. reflexivity. Qed.

Lemma forallb_at {A} (f : A → bool) l x : forallb f l = true → x ∈ l → f x = true.
Proof. intros H Hx. rewrite forallb_forall in H. by apply H, list_elem_of_In. Qed.

Lemma nesting_at l p q i j : no_nesting l = true → (p, i) ∈ l → (q, j) ∈ l → under p q = false.
Proof.
  intros H Hp Hq. pose proof (forallb_at _ _ _ H Hp) as H1. cbn in H1. pose proof (forallb_at _ _ _ H1 Hq) as H2.
  cbn in H2. by apply negb_true_iff in H2.
Qed.

Lemma only_object m s1 s2 p i : under (objects_dir "/cas") p = true → (hurt m s1 s2).(entries) !! p = Some i →
  p = object_name ∧ i = 1%positive.
Proof.
  intros Hp Hi. pose proof (entry_cases _ _ _ _ _ Hi) as Hin.
  pose proof names_checked as [[H _]%andb_true_iff _]%andb_true_iff.
  apply (forallb_at _ _ _ H) in Hin. cbn in Hin. rewrite Hp in Hin. cbn in Hin.
  apply andb_true_iff in Hin as [->%bool_decide_eq_true ->%bool_decide_eq_true]. exact (conj eq_refl eq_refl).
Qed.

#[local] Notation man := (manifest_text (manifest_of small hello (clock 0))).
#[local] Notation left1 := (text_at small hello 1).
#[local] Notation left2 := (text_at small hello 2).

Lemma manifest_entry m s1 s2 : (hurt m s1 s2).(entries) !! join set_dir "manifest.json" = Some 2%positive.
Proof. vm_compute. reflexivity. Qed.
Lemma lost_entry m s1 s2 : (hurt m s1 s2).(entries) !! join set_dir (shard_name 0) = None.
Proof. vm_compute. reflexivity. Qed.
Lemma shard1_entry m s1 s2 : (hurt m s1 s2).(entries) !! join set_dir (shard_name 1) = Some 3%positive.
Proof. vm_compute. reflexivity. Qed.
Lemma shard2_entry m s1 s2 : (hurt m s1 s2).(entries) !! join set_dir (shard_name 2) = Some 4%positive.
Proof. vm_compute. reflexivity. Qed.

Lemma object_entry m s1 s2 : (hurt m s1 s2).(entries) !! object_name = Some 1%positive.
Proof. vm_compute. reflexivity. Qed.
Lemma other_entry m s1 s2 : (hurt m s1 s2).(entries) !! "/b/other" = Some 5%positive.
Proof. vm_compute. reflexivity. Qed.
Lemma hurt_root m s1 s2 :
  is_dir (hurt m s1 s2) (objects_dir "/cas") = true ∧ occupied (hurt m s1 s2) (objects_dir "/cas") = false.
Proof. split; vm_compute; reflexivity. Qed.

Lemma hurt_read m s1 s2 p i n : (hurt m s1 s2).(entries) !! p = Some i → inode (hurt m s1 s2) i = n →
  n.(i_regular) = true → read_at (hurt m s1 s2) p = inr n.(i_content).
Proof. intros Hi <- Hr. apply read_at_inode. exists (inode (hurt m s1 s2) i). unfold inode_at. rewrite Hi.
  exact (conj eq_refl (conj Hr eq_refl)). Qed.

Lemma hurt_manifest m s1 s2 : read_at (hurt m s1 s2) (join set_dir "manifest.json") = inr m.
Proof. exact (hurt_read _ _ _ _ _ (mkInode true m 0) (manifest_entry m s1 s2) eq_refl eq_refl). Qed.
Lemma hurt_shard1 m s1 s2 : read_at (hurt m s1 s2) (join set_dir (shard_name 1)) = inr s1.
Proof. exact (hurt_read _ _ _ _ _ (mkInode true s1 0) (shard1_entry m s1 s2) eq_refl eq_refl). Qed.
Lemma hurt_shard2 m s1 s2 : read_at (hurt m s1 s2) (join set_dir (shard_name 2)) = inr s2.
Proof. exact (hurt_read _ _ _ _ _ (mkInode true s2 0) (shard2_entry m s1 s2) eq_refl eq_refl). Qed.

Lemma read_at_read fs p x y : read_at fs p = inr x → read fs p = Some y → y = x.
Proof. intros (n & Hn & _ & <-)%read_at_inode. unfold read. rewrite Hn. by intros [= <-]. Qed.

Lemma hurt_texts m (t : nat → string) j x : (j < 3)%nat →
  read (hurt m (t 1%nat) (t 2%nat)) (join set_dir (shard_name j)) = Some x → x = t j.
Proof.
  intros Hj Hx. destruct j as [|[|[|j]]]; [|by eapply read_at_read; [apply hurt_shard1|]
    |by eapply read_at_read; [apply hurt_shard2|]|lia].
  unfold read, inode_at in Hx. by rewrite lost_entry in Hx.
Qed.

Lemma two_of_three (f : nat → bool) : f 1%nat = true → f 2%nat = true → 2 <= zlen (List.filter f [0; 1; 2]%nat).
Proof. intros H1 H2. cbn. rewrite H1, H2. by destruct (f 0%nat). Qed.

Lemma hurt_encoded : encoded set_dir hello (hurt man left1 left2).
Proof.
  exists small, (clock 0).
  split; [exact small_accepted|exact (manifest_measured small small_accepted hello 0 small_measured)|apply hurt_manifest| |].
  - change (seq 0 (total small)) with [0; 1; 2]%nat. apply two_of_three; apply bool_decide_eq_true_2;
      [apply hurt_shard1|apply hurt_shard2].
  - intros j x Hj Hx _. exact (hurt_texts man (text_at small hello) j x Hj Hx).
Qed.

Lemma hurt_repairable : repairable "/cas" (hurt man left1 left2).
Proof.
  split.
  - apply hurt_root.
  - intros p Hp [i Hi]. destruct (only_object _ _ _ _ _ Hp Hi) as [-> _].
    exists hello. split; [vm_compute; reflexivity|]. right. rewrite hello_digest. apply hurt_encoded.
  - intros p i Hp Hi. destruct (only_object _ _ _ _ _ Hp Hi) as [-> ->]. reflexivity.
  - intros p q i Hp Hq Hi Hj. destruct (only_object _ _ _ _ _ Hp Hi) as [-> _].
    by destruct (only_object _ _ _ _ _ Hq Hj) as [-> _].
  - intros p q i Hp Hq Hi Hj. destruct (only_object _ _ _ _ _ Hp Hi) as [_ ->].
    exfalso. pose proof names_checked as [[_ H]%andb_true_iff _]%andb_true_iff.
    apply entry_cases, (forallb_at _ _ _ H) in Hj. cbn in Hj. rewrite Hq in Hj. discriminate Hj.
  - intros p q [i Hi] [j Hj]. apply entry_cases in Hi, Hj.
    pose proof names_checked as [_ H]%andb_true_iff. apply (nesting_at _ _ _ _ _ H Hi Hj).
Qed.

(** C14: the object and its hard link are what they were before the rot. *)
Theorem scrub_heals_the_store_witness :
  ∃ k' fs' out,
    Run (mkScrubber (Some (Cas.New "/cas" 0)) 0 "salt" (Some (LocalErasureRepair "/cas"))) 0%nat (hurt man left1 left2) =
      (k', fs', inr (out, None)) ∧
    (∃ x, read fs' "/b/hello.txt" = Some x ∧ sha256hex x = sum) ∧ read fs' "/b/other" = Some "other".
Proof.
  destruct (scrub_heals_the_store "/cas" 0 "salt" 0%nat (hurt man left1 left2))
    as (k' & fs' & out & Hrun & _ & Hnames & _ & Hobj & Hrest); [done|apply quiet_fresh|apply hurt_repairable|done|].
  exists k', fs', out. split; [exact Hrun|]. split.
  - destruct (Hobj object_name) as (x & Hx & Hs); [vm_compute; reflexivity|by exists 1%positive|].
    exists x. split; [|rewrite Hs; vm_compute; reflexivity]. rewrite <- Hx. unfold read, inode_at. by rewrite Hnames.
  - rewrite Hrest; [reflexivity|]. intros p Hp [i Hi]. destruct (only_object _ _ _ _ _ Hp Hi) as [-> ->].
    rewrite object_entry, other_entry. discriminate.
Defined.
End ScrubDemo.
