(* ===== verification/Tiers.v ===== *)
(** * Cold copies, and repairs from the shards of other nodes ([internal/tiering],
    repair_distributed.go)

    [CopyTier] copies old objects to a second disk and, with rclone, to a remote;
    [repairObject] is the job that [ScheduleDistributedRepair] files for the node
    whose object is damaged: it stages the shards the node was sent and rebuilds
    the object in place. *)

From Stdlib Require Import Ascii String.
From S2P Require Import Prelude GoStd Text Json JsonText GoTime Sha256 Model Payloads Control FileSystem FileTree ErasureCodec Cas Scrub.
#[global] Open Scope Z_scope.

(** ** [CopyTier] *)

(** What a command prints, and whether it fails. *)
Class Commands := { CombinedOutput : string → list string → nat → string * bool }.

Module Tiering.

Record Config := mkConfig {
  ColdRoot : string;
  MinAge : Duration;
  MinBytes : Z;
  RcloneRemote : string
}.

Record Result := mkResult {
  ts_Scanned : Z;
  ts_Eligible : Z;
  ts_CopiedLocal : Z;
  ts_CopiedS3 : Z;
  ts_Bytes : Z;
  ts_Skipped : Z
}.

#[export] Instance Result_settable : Settable Result :=
  fun r => mkResult (r.(ts_Scanned)) (r.(ts_Eligible)) (r.(ts_CopiedLocal)) (r.(ts_CopiedS3)) (r.(ts_Bytes))
    (r.(ts_Skipped)).

(** [strings.TrimRight(s, cutset)] for a cutset of one character. *)
Definition TrimRight (c : ascii) (s : string) : string :=
  of_chars (foldr (fun x l => if (x ≟ c) && bool_decide (l = []) then [] else x :: l) [] (chars s)).

Definition blank (s : string) : bool := TrimSpace s ≟ "".

Section Tiering.
Context {E : Env} {O : OS} {X : Commands}.

(** Running a command: a call, which leaves the files of the node alone. *)
Definition run_command (name : string) (args : list string) : Disk (string * bool) := fun k fs =>
  (S k, fs, inr (CombinedOutput name args k)).

Definition copyVerified (src dst digest : string) : Disk bool :=
  have ← try (Cas.HashFile dst);
  match have with
  | inr (got, _) =>
      if EqualFold got digest then mret false
      else ErasureCodec.fail ("cold-tier object " +:+ digest +:+ " exists with wrong digest")
  | inl _ =>
      MkdirAll (Dir dst);;
      i ← Open src;
      '(name, tmp) ← CreateTemp (Dir dst) ".repoark-tier-";
      on_error (Remove name) (
        c ← Scrub.ReadHandle i;
        Write tmp c;;
        touch;;
        touch;;
        '(got, _) ← Cas.HashFile name;
        if negb (EqualFold got digest) then ErasureCodec.fail "cold-tier copy digest mismatch"
        else Rename name dst;; mret true)
  end.

Definition old_enough (cfg : Config) (now : Time) (o : Cas.ObjectInfo) : bool :=
  negb ((o.(Cas.oi_Bytes) <? cfg.(MinBytes)) ||
    ((0 <? cfg.(MinAge)) && (time_sub now o.(Cas.oi_ModTime) <? cfg.(MinAge)))).

Definition cold_path (cold digest : string) : string :=
  join (join (join cold "sha256") (String.substring 0 2 digest)) digest.

Definition remote_path (remote digest : string) : string :=
  TrimRight "/" remote +:+ "/sha256/" +:+ String.substring 0 2 digest +:+ "/" +:+ digest.

(** The part on the second disk. *)
Definition copy_local (cfg : Config) (o : Cas.ObjectInfo) (out : Result) : Disk Result :=
  if blank cfg.(ColdRoot) then mret out
  else
    copied ← copyVerified o.(Cas.oi_Path) (cold_path cfg.(ColdRoot) o.(Cas.oi_Digest)) o.(Cas.oi_Digest);
    mret (if copied : bool
          then out <| ts_CopiedLocal := out.(ts_CopiedLocal) + 1 |> <| ts_Bytes := out.(ts_Bytes) + o.(Cas.oi_Bytes) |>
          else out).

(** The part on the remote. *)
Definition copy_remote (cfg : Config) (o : Cas.ObjectInfo) (out : Result) : Disk Result :=
  if blank cfg.(RcloneRemote) then mret out
  else
    '(b, failed) ← run_command "rclone" ["copyto"; "--immutable"; o.(Cas.oi_Path);
      remote_path cfg.(RcloneRemote) o.(Cas.oi_Digest)];
    if failed : bool then ErasureCodec.fail ("rclone tier " +:+ o.(Cas.oi_Digest) +:+ ": " +:+ TrimSpace b)
    else mret (out <| ts_CopiedS3 := out.(ts_CopiedS3) + 1 |>).

(** The counts so far come with an error too. *)
Fixpoint copy_objects (cfg : Config) (now : Time) (l : list Cas.ObjectInfo) (out : Result)
    : Disk (Result * option FileError) :=
  match l with
  | [] => mret (out, None)
  | o :: l' =>
      done ← try touch;
      match done with
      | inl e => mret (out, Some e)
      | inr _ =>
          let out := out <| ts_Scanned := out.(ts_Scanned) + 1 |> in
          if negb (old_enough cfg now o)
          then copy_objects cfg now l' (out <| ts_Skipped := out.(ts_Skipped) + 1 |>)
          else
            let out := out <| ts_Eligible := out.(ts_Eligible) + 1 |> in
            local ← try (copy_local cfg o out);
            match local with
            | inl e => mret (out, Some e)
            | inr out =>
                remote ← try (copy_remote cfg o out);
                match remote with
                | inl e => mret (out, Some e)
                | inr out => copy_objects cfg now l' out
                end
            end
      end
  end.

Definition no_copies : Result := mkResult 0 0 0 0 0 0.

Definition CopyTier (st : option Cas.Store) (cfg : Config) (now : Time) : Disk (Result * option FileError) :=
  match st with
  | None => mret (no_copies, Some (Failure "CAS store is required"))
  | Some st =>
      objects ← try (Cas.ListObjects st);
      match objects with
      | inl e => mret (no_copies, Some e)
      | inr objects => copy_objects cfg now objects no_copies
      end
  end.
End Tiering.
End Tiering.

(** ** [repairObject] *)

Module ObjectRepair.
Import ErasureCodec.

(** *** The payload *)

Definition unmarshal_repair_shard (v : json) : option repairShard :=
  fs ← as_obj (Json v); i ← dec_int fs "index"; d ← dec_str fs "digest"; n ← dec_int fs "bytes";
  Some (mkRepairShard i d n).

Definition dec_repair_shards (fs : list (string * json)) (k : string) : option (list repairShard) :=
  match field k fs with
  | None | Some JNull => Some []
  | Some (JArr l) => mapM unmarshal_repair_shard l
  | Some _ => None
  end.

Definition unmarshal_repair_object (t : json_text) : option repairObjectPayload :=
  fs ← as_obj t;
  a ← dec_str fs "digest"; b ← dec_int fs "original_bytes"; c ← dec_int fs "data_shards";
  d ← dec_int fs "parity_shards"; e ← dec_int fs "block_bytes"; f ← dec_repair_shards fs "shards";
  Some (mkRepairObject a b c d e f).

Section Runner.
Context {E : Env} {O : OS} {T : TempDirs} {RS : ReedSolomon}.
(** [r.Config.CAS.Root] *)
Context (root : string).

Definition copyRegularFile (src dst : string) : Disk unit := b ← ReadFile src; WriteFile dst b.

Definition overwriteVerified (src dst digest : string) : Disk unit :=
  b ← ReadFile src;
  f ← Truncate dst;
  Write f b;;
  touch;;
  touch;;
  '(got, _) ← Cas.HashFile dst;
  if negb (EqualFold got digest) then fail "post-repair digest mismatch" else mret tt.

(** [fmt.Sprintf("shard-%03d.rs", i)] for any [int]. *)
Definition staged_name (i : Z) : string :=
  if 0 <=? i then shard_name (Z.to_nat i)
  else "shard--" +:+ (let d := pretty (- i) in if slen d =? 1 then "0" +:+ d else d) +:+ ".rs".

(** The loop over the shards: the shards staged, in order, and the largest number
    of blocks. *)
Fixpoint stage_shards (stage : string) (blockBytes : Z) (l : list repairShard) (shards : list Shard) (blocks : Z)
    : Disk (list Shard * Z) :=
  match l with
  | [] => mret (shards, blocks)
  | sh :: l' =>
      let path := Cas.BlobPath (Cas.New root 0) sh.(rs_Digest) in
      got ← try (Cas.HashFile path);
      match got with
      | inl _ => stage_shards stage blockBytes l' shards blocks
      | inr (got, n) =>
          if negb (EqualFold got sh.(rs_Digest)) then stage_shards stage blockBytes l' shards blocks
          else
            let name := staged_name sh.(rs_Index) in
            let dst := join stage name in
            linked ← try (Link path dst);
            match linked with
            | inl _ => copyRegularFile path dst
            | inr _ => mret tt
            end;;
            stage_shards stage blockBytes l' (shards ++ [mkShard sh.(rs_Index) name n sh.(rs_Digest)])
              (if (0 <? blockBytes) && (blocks <? n / blockBytes) then n / blockBytes else blocks)
      end
  end.

Definition repair_in (p : repairObjectPayload) (stage : string) : Disk unit :=
  created ← disk_now;
  '(shards, blocks) ← stage_shards stage p.(ro_BlockBytes) p.(ro_Shards) [] 0;
  if zlen shards <? p.(ro_DataShards) then fail "repair shards not available yet"
  else
    let manifest := mkManifest 1 p.(ro_Digest) p.(ro_OriginalBytes) p.(ro_DataShards) p.(ro_ParityShards)
      p.(ro_BlockBytes) blocks (UTC created) shards in
    WriteFile (join stage "manifest.json") (manifest_text manifest);;
    let tmp := join stage "reconstructed.object" in
    Reconstruct stage tmp;;
    '(got, _) ← Cas.HashFile tmp;
    if negb (EqualFold got p.(ro_Digest)) then fail "distributed repair digest mismatch"
    else overwriteVerified tmp (Cas.BlobPath (Cas.New root 0) p.(ro_Digest)) p.(ro_Digest).

Definition make_stage : Disk string :=
  let dir := join root ".repoark-repair" in
  stage ← try (MkdirTemp dir "obj-");
  match stage with
  | inr stage => mret stage
  | inl _ => MkdirAll dir;; MkdirTemp dir "obj-"
  end.

Definition repairObject (job : Job) : Disk unit :=
  match unmarshal_repair_object job.(Job_Payload) with
  | None => fail "json: cannot unmarshal"
  | Some p =>
      if (slen p.(ro_Digest) ≠? 64) || (p.(ro_DataShards) <? 2) || (p.(ro_BlockBytes) <=? 0)
      then fail "invalid repair-object payload"
      else stage ← make_stage; finally (RemoveAll stage) (repair_in p stage)
  end.
End Runner.
End ObjectRepair.
