(* ===== verification/TierRules.v ===== *)
(** * What copying to the second tier promises (internal/tiering/tiering.go)

    Whatever calls fail, no file but a cold copy changes its text, and a cold copy
    is only ever written with the text its name is the hash of; without an error
    every object old and large enough has one. *)

From Stdlib Require Import Ascii String.
From S2P Require Import Prelude GoStd Text Sha256 Control FileSystem FileTree TempFiles Cas ErasureCodec CodecBack Scrub Tiers.
#[global] Open Scope Z_scope.

Module TierRules.
Import Cas Tiering.

Section Copies.
Context {E : Env} {O : OS} {X : Commands} (cold : string).
Implicit Types (fs : FS) (p q d : string).

(** ** What has changed between two states *)

(** The text at the place of a digest hashes to it. *)
Definition cold_copy fs d : Prop :=
  ∃ c, read fs (cold_path cold d) = Some c ∧ EqualFold (sha256hex c) d = true.

(** A temporary name next to a cold copy. *)
Definition cold_temp q : Prop := ∃ d t, q = join (Dir (cold_path cold d)) ".repoark-tier-" +:+ t.

(** Every file reads as before, but that cold copies and temporary files may have
    been added, and what was in the place of a cold copy may have become one. *)
Definition tiered fs fs' : Prop := ∀ q,
  read fs' q = read fs q ∨
  (∃ d, slen d = 64 ∧ q = cold_path cold d ∧ cold_copy fs' d) ∨
  (read fs q = None ∧ cold_temp q).

Lemma tiered_same fs fs' : (∀ q, read fs' q = read fs q) → tiered fs fs'.
Proof. intros H q. by left. Qed.

Lemma tiered_trans fs1 fs2 fs3 : tiered fs1 fs2 → tiered fs2 fs3 → tiered fs1 fs3.
Proof.
  intros H1 H2 q. destruct (H2 q) as [Heq|[Hc|[Hn Ht]]]; [|by right; left|].
  - destruct (H1 q) as [Heq1|[(d & Hd & -> & c & Hc & Hs)|Ht]]; [left; congruence| |by right; right].
    right. left. exists d. split_and!; [done..|]. exists c. by rewrite Heq.
  - destruct (H1 q) as [Heq1|[(d & Hd & -> & c & Hc & Hs)|Ht1]]; [|congruence|by right; right].
    right. right. split; [congruence|done].
Qed.

Lemma cold_path_inj d d' : slen d = 64 → slen d' = 64 → cold_path cold d = cold_path cold d' → d = d'.
Proof.
  unfold slen. intros Hd Hd' H%(f_equal chars). unfold cold_path in H. rewrite !(chars_join _ d), !(chars_join _ d') in H.
  apply app_inj_2 in H as [_ H]; [injection H; apply chars_inj|]. simpl. rewrite !chars_length. lia.
Qed.

(** A good cold copy stays one. *)
Lemma cold_copy_kept fs fs' d : slen d = 64 → tiered fs fs' → cold_copy fs d → cold_copy fs' d.
Proof.
  intros Hd Ht (c & Hc & Hs). destruct (Ht (cold_path cold d)) as [Heq|[(d' & Hd' & Hq & Hc')|[Hn _]]].
  - exists c. by rewrite Heq.
  - by rewrite (cold_path_inj d d' Hd Hd' Hq).
  - congruence.
Qed.

(** ** One copy *)

Lemma tiered_blind fs0 fs i c t :
  tiered fs0 fs → (∀ q, fs.(entries) !! q ≠ Some i) → tiered fs0 (put i c t fs).
Proof.
  intros H Hi. apply (tiered_trans fs0 fs); [done|]. apply tiered_same. intros q. rewrite read_put.
  case_bool_decide as Hq; [by apply Hi in Hq|done].
Qed.

Lemma tiered_idle fs0 fs name i : tiered fs0 fs → cold_temp name → fs.(entries) !! name = None →
  tiered fs0 (fs <| entries := <[name := i]> fs.(entries) |>).
Proof.
  intros H Ht Hn. apply (tiered_trans fs0 fs); [done|]. intros q. destruct (decide (q = name)) as [->|Hq].
  - right. right. split; [|done]. unfold read, inode_at. by rewrite Hn.
  - left. rewrite read_insert. by rewrite bool_decide_eq_false_2.
Qed.

Lemma h_Rename_tier fs0 d name i c : slen d = 64 → EqualFold (sha256hex c) d = true →
  hoare (fun fs => temp (tiered fs0) cold_temp name i fs ∧ file_at fs name i c) (Rename name (cold_path cold d))
    (fun fs _ => tiered fs0 fs ∧ cold_copy fs d) (fun fs _ => temp (tiered fs0) cold_temp name i fs).
Proof.
  intros Hd Hs. eapply h_weaken; [apply (h_Rename_temp _ _ (tiered_idle fs0) name i (cold_path cold d) c
    (fun fs _ => tiered fs0 fs ∧ cold_copy fs d))|done|done|by intros fs e []].
  - intros fs Ht _ Hi. apply (tiered_trans fs0 fs); [done|]. intros q.
    destruct (decide (q = cold_path cold d)) as [->|Hq].
    + right. left. exists d. split_and!; [done|done|]. exists c. split; [|done].
      by rewrite read_insert, Hi, bool_decide_eq_true_2.
    + left. rewrite read_insert. by rewrite bool_decide_eq_false_2.
  - intros fs Ht Hf. split; [done|]. exists c. split; [by eapply file_at_read|done].
Qed.

Lemma h_HashFile_text P p :
  hoare P (Cas.HashFile p) (fun fs r => P fs ∧ ∃ c, read fs p = Some c ∧ r.1 = sha256hex c) (fun fs _ => P fs).
Proof.
  eapply h_seq; [apply h_ReadFile|by intros fs e []|]. intros c. apply h_ret. intros fs [HP Hc].
  split; [done|]. exists c. split; [|done]. unfold read_at in Hc. unfold read.
  destruct (inode_at fs p) as [n|]; [|done]. destruct (i_regular n); [|done]. by injection Hc as <-.
Qed.

Lemma h_look {A} P (f : FS → FileError + A) :
  hoare P (syscall (fun _ fs => (fs, f fs))) (fun fs _ => P fs) (fun fs _ => P fs).
Proof. apply h_syscall; [done|]. intros t fs HP. by destruct (f fs). Qed.

Lemma h_copyVerified fs0 src d : slen d = 64 →
  hoare (tiered fs0) (copyVerified src (cold_path cold d) d) (fun fs _ => tiered fs0 fs ∧ cold_copy fs d)
    (fun fs _ => tiered fs0 fs).
Proof.
  intros Hd. unfold copyVerified.
  eapply h_attempt; [apply h_HashFile_text|intros [got n]; simpl|intros e].
  - destruct (EqualFold got d) eqn:He; [|by apply h_throw; intros fs []]. apply h_ret. intros fs (Ht & c & Hc & Hg).
    split; [done|]. exists c. by rewrite <- Hg.
  - eapply h_seq; [apply h_MkdirAll|done|intros []].
    { intros fs l H. apply (tiered_trans _ fs); [done|]. by apply tiered_same. }
    eapply h_seq; [apply h_look|done|intros i].
    eapply h_seq; [apply (h_CreateTemp_temp _ cold_temp (tiered_blind fs0)); intros t; by exists d, t|done|]. intros [name tmp]. simpl.
    apply (h_on_error _ _ _ (fun fs _ => temp (tiered fs0) cold_temp name tmp fs)).
    2: { intros _. apply h_Remove_temp, tiered_idle. }
    eapply h_seq; [eapply h_before; [apply h_look|by intros fs []]|done|intros c].
    eapply h_seq; [apply (h_Write_temp _ _ (tiered_blind fs0))|done|intros []].
    do 2 (eapply h_seq; [apply h_touch|by intros fs e0 [[] _]|intros []]).
    eapply h_seq; [apply h_HashFile_text|by intros fs e0 []|]. intros [got n]. simpl.
    destruct (EqualFold got d) eqn:He; simpl; [|by apply h_throw; intros fs [[] _]].
    apply h_pre with (got = sha256hex c).
    { intros fs ([_ Hf] & c' & Hc & ->). apply file_at_read in Hf. congruence. }
    intros ->. eapply h_seq; [eapply h_before; [by apply (h_Rename_tier fs0 d name tmp c)|by intros fs []]|done|].
    intros []. by apply h_ret.
Qed.

(** ** All copies *)

Lemma h_copy_local fs0 cfg o out : cfg.(ColdRoot) = cold → slen o.(oi_Digest) = 64 →
  hoare (tiered fs0) (copy_local cfg o out)
    (fun fs _ => tiered fs0 fs ∧ (blank cold = false → cold_copy fs o.(oi_Digest))) (fun fs _ => tiered fs0 fs).
Proof.
  intros Hcfg Hd. unfold copy_local. rewrite Hcfg. destruct (blank cold) eqn:Hb; [by apply h_ret|].
  eapply h_seq; [by apply h_copyVerified|done|]. intros copied. apply h_ret. by intros fs [].
Qed.

Lemma h_copy_remote P cfg o out : hoare P (copy_remote cfg o out) (fun fs _ => P fs) (fun fs _ => P fs).
Proof.
  unfold copy_remote. destruct (blank _); [by apply h_ret|].
  apply (h_bind _ _ _ (fun fs _ => P fs)); [by intros k fs HP|]. intros [b [|]]; [by apply h_throw|by apply h_ret].
Qed.

(** Without an error, what is old enough has its copy. *)
Definition copied cfg (now : Time) (l : list ObjectInfo) (err : option FileError) fs : Prop :=
  err = None → blank cold = false → ∀ o, o ∈ l → old_enough cfg now o = true → cold_copy fs o.(oi_Digest).

Lemma h_copy_objects cfg now l : cfg.(ColdRoot) = cold → Forall (fun o => slen o.(oi_Digest) = 64) l →
  ∀ out fs0, hoare (fun fs => fs = fs0) (copy_objects cfg now l out)
    (fun fs r => tiered fs0 fs ∧ copied cfg now l r.2 fs) (fun _ _ => False).
Proof.
  intros Hcfg Hl. assert (H0 : ∀ fs, tiered fs fs) by (intros fs; by apply tiered_same).
  induction Hl as [|o l Hd _ IH]; intros out fs0; cbn [copy_objects].
  { apply h_ret. intros fs ->. split; [done|]. intros _ _ o Ho. by apply elem_of_nil in Ho. }
  eapply h_attempt; [apply h_touch|intros []|intros e; apply h_ret; intros fs [-> _]; by split].
  destruct (old_enough cfg now o) eqn:Hold; cbn [negb].
  - eapply h_attempt; [eapply (h_before (tiered fs0)); [by apply h_copy_local|by intros fs ->]| |].
    2: { intros e. apply h_ret. intros fs Ht. by split. }
    intros out1. eapply h_attempt; [apply h_copy_remote| |].
    2: { intros e. apply h_ret. intros fs [Ht _]. by split. }
    intros out2. apply h_here. intros fs1 [Ht1 Hc1]. eapply h_weaken; [apply (IH out2 fs1)|done| |done].
    intros fs r [Ht2 Hc2]. split; [by eapply tiered_trans|]. intros Hr Hb o' [->|Ho]%elem_of_cons Ho'; [|by apply Hc2].
    by eapply cold_copy_kept; [|done|apply Hc1].
  - eapply h_weaken; [apply (IH _ fs0)|done| |done]. intros fs r [Ht Hc]. split; [done|].
    intros Hr Hb o' [->|Ho]%elem_of_cons Ho'; [congruence|by apply Hc].
Qed.
End Copies.

(** ** The list of objects *)

Section Listing.
Context {E : Env} {O : OS} (st : Store).
Implicit Types (fs : FS) (p : string).

(** What the list says of a file. *)
Definition describes fs p (o : ObjectInfo) : Prop :=
  o.(oi_Digest) = ToLower (Base p) ∧ o.(oi_Path) = p ∧
  ∃ n, inode_at fs p = Some n ∧ o.(oi_Bytes) = slen n.(i_content) ∧ o.(oi_ModTime) = n.(i_modtime).

Definition listing fs (seen : list string) (out : list ObjectInfo) : Prop :=
  (∀ p, p ∈ seen → slen (ToLower (Base p)) = 64 ∧
     (is_Some (fs.(entries) !! p) → ∃ o, o ∈ out ∧ describes fs p o)) ∧
  Forall (fun o => slen o.(oi_Digest) = 64) out.

Lemma walked_entry fs root l p : walk_list fs root = inr l → p ∈ l → is_Some (fs.(entries) !! p).
Proof.
  unfold walk_list. destruct (occupied fs root) eqn:Ho.
  - intros [= <-] ->%list_elem_of_singleton. by apply bool_decide_eq_true in Ho.
  - destruct (is_dir fs root); [|done]. by intros [= <-] [_ Hp]%elem_of_files_under.
Qed.

(** A store whose root is a file lists nothing. *)
Lemma walked_store fs l out : walk_list fs (objectRoot st) = inr l → listing fs l out →
  l = files_under fs (objectRoot st).
Proof.
  unfold walk_list. destruct (occupied _ _).
  - intros [= <-] [H _]. destruct (H (objectRoot st)) as [H1 _]; [by left|]. by rewrite Base_objectRoot in H1.
  - destruct (is_dir _ _); [|done]. by intros [= <-].
Qed.

Lemma h_list_object fs0 seen p out :
  is_Some (fs0.(entries) !! p) →
  hoare (fun fs => fs = fs0 ∧ listing fs0 seen out) (list_object p out)
    (visited (fun seen fs out => fs = fs0 ∧ listing fs0 seen out)
       (fun fs _ e => fs = fs0 ∧ is_not_exist e = false) (seen ++ [p])) (fun _ _ => False).
Proof.
  intros [i Hi]. unfold list_object. destruct (slen (ToLower (Base p)) ≟ 64) eqn:Hl; cbn [negb].
  2: { apply h_ret. by intros fs [-> _]. }
  apply bool_decide_eq_true in Hl. eapply h_weaken; [apply (h_stop_on _ _ _
    (fun fs out' => fs = fs0 ∧ listing fs0 (seen ++ [p]) out') (fun fs e => fs = fs0 ∧ is_not_exist e = false))|intros fs H; exact H| |done].
  - eapply h_seq; [apply h_Stat| |].
    { intros fs e ([-> _] & [Hs|?]); [|done]. unfold stat_at in Hs. by rewrite Hi in Hs. }
    intros info. apply h_ret. intros fs ([-> [H1 H2]] & Hs). split; [done|]. split.
    + intros q [Hq|Hq]%elem_of_app.
      * destruct (H1 q Hq) as [Hlq Ho]. split; [done|]. intros Hs'. destruct (Ho Hs') as (o & Ho1 & Ho2).
        exists o. split; [set_solver|done].
      * apply list_elem_of_singleton in Hq as ->. split; [done|]. intros _. eexists. split; [apply elem_of_app; right; by left|].
        split; [done|]. split; [done|]. exists (inode fs0 i). unfold inode_at, stat_at in *. rewrite Hi in *.
        injection Hs as <-. done.
    + apply Forall_app. split; [done|]. by repeat constructor.
  - intros fs [out' [e|]]; unfold visited; simpl; naive_solver.
Qed.

Lemma h_ListObjects fs0 :
  hoare (fun fs => fs = fs0) (ListObjects st)
    (fun fs os => fs = fs0 ∧ Forall (fun o => slen o.(oi_Digest) = 64) os ∧
       ∀ p, p ∈ files_under fs0 (objectRoot st) → ∃ o, o ∈ os ∧ describes fs0 p o)
    (fun fs _ => fs = fs0).
Proof.
  set (none := fun e => is_not_exist e = true → files_under fs0 (objectRoot st) = []).
  unfold ListObjects. eapply h_seq.
  { apply (h_WalkDir (fun seen fs out => fs = fs0 ∧ listing fs0 seen out)
      (fun fs _ e => fs = fs0 ∧ none e) list_object fs0 (objectRoot st) []).
    - intros l _. split; [done|]. split; [|done]. intros p Hp. by apply elem_of_nil in Hp.
    - intros l seen p rest out Hl ->. eapply h_weaken; [apply (h_list_object fs0 seen p out)|done| |done].
      + eapply walked_entry; [done|]. apply elem_of_app. right. by left.
      + intros fs [out' [e|]]; unfold visited; simpl; [|done]. intros [-> He]. split; [done|]. unfold none. congruence.
    - intros seen fs out e [-> _] He. split; [done|]. unfold none. congruence.
    - intros e [He|He]; (split; [done|]); unfold none; [|congruence]. intros _. by eapply files_under_nowhere. }
  { done. }
  intros [out [e|]]; simpl.
  - destruct (is_not_exist e) eqn:He.
    + apply h_ret. intros fs [-> Hn]. split_and!; [done|done|]. rewrite (Hn He). intros p Hp. by apply elem_of_nil in Hp.
    + apply h_throw. by intros fs [-> _].
  - apply h_ret. intros fs (l & Hl & -> & H1 & H2). split_and!; [done| |].
    + apply Forall_forall. intros o. rewrite elem_of_sort_slice. intros Ho. exact (proj1 (Forall_forall _ _) H2 o Ho).
    + intros p Hp. rewrite <- (walked_store fs0 l out Hl (conj H1 H2)) in Hp.
      destruct (H1 p Hp) as [_ Ho]. destruct Ho as (o & Ho & Hd); [by eapply walked_entry|].
      exists o. by rewrite elem_of_sort_slice.
Qed.

(** Old and large enough, from the file itself. *)
Definition old_file cfg (now : Time) fs p : bool :=
  match inode_at fs p with
  | Some n => old_enough cfg now (mkObjectInfo (ToLower (Base p)) p (slen n.(i_content)) n.(i_modtime))
  | None => false
  end.

Context {X : Commands}.

(** Whatever calls fail, a run of the tiering changes the text of no file but in
    the place of a cold copy, where only the text of the digest is ever put, and
    adds nothing but cold copies and temporary files next to them; if it reports
    no error, every object that is old and large enough has its cold copy. *)
Theorem cold_copies_are_verified cfg now k fs k' fs' r :
  CopyTier (Some st) cfg now k fs = (k', fs', r) →
  ∃ out err, r = inr (out, err) ∧ tiered cfg.(ColdRoot) fs fs' ∧
    (err = None → blank cfg.(ColdRoot) = false → ∀ p, p ∈ files_under fs (objectRoot st) →
       old_file cfg now fs p = true → cold_copy cfg.(ColdRoot) fs' (ToLower (Base p))).
Proof.
  intros Hrun. assert (H : hoare (fun f => f = fs) (CopyTier (Some st) cfg now)
    (fun f r => tiered cfg.(ColdRoot) fs f ∧ (r.2 = None → blank cfg.(ColdRoot) = false →
       ∀ p, p ∈ files_under fs (objectRoot st) → old_file cfg now fs p = true →
       cold_copy cfg.(ColdRoot) f (ToLower (Base p)))) (fun _ _ => False)).
  { unfold CopyTier. eapply h_attempt; [apply h_ListObjects| |].
    2: { intros e. apply h_ret. intros f ->. split; [by apply tiered_same|done]. }
    intros os. apply h_pre with (Forall (fun o => slen o.(oi_Digest) = 64) os ∧
      ∀ p, p ∈ files_under fs (objectRoot st) → ∃ o, o ∈ os ∧ describes fs p o); [by intros f [_ H]|].
    intros [H1 H2]. eapply h_weaken; [by apply (h_copy_objects cfg.(ColdRoot) cfg now os eq_refl H1 no_copies fs)|by intros f []| |done].
    intros f [out err] [Ht Hc]. split; [done|]. intros He Hb p Hp Hold.
    destruct (H2 p Hp) as (o & Ho & Hd & Hpath & n & Hn & Hbytes & Htime). rewrite <- Hd. apply Hc; try done.
    unfold old_file in Hold. rewrite Hn in Hold. unfold old_enough in *. by rewrite Hbytes, Htime. }
  specialize (H k fs eq_refl). rewrite Hrun in H. destruct r as [e|[out err]]; [done|]. by exists out, err.
Qed.
End Listing.
End TierRules.
