(* ===== verification/RepairRules.v ===== *)
(** * What a repair from the shards of other nodes promises (repair_distributed.go)

    A job that reports success has left the object with its text, whatever calls
    failed on the way; two shards with one index, however, spoil an object. *)

From Stdlib Require Import Ascii String.
From S2P Require Import Prelude GoStd Text Json Sha256 Model Payloads Control FileSystem FileTree TempFiles ErasureCodec CodecBack Cas CasCompact Scrub Tiers.
#[global] Open Scope Z_scope.

Module RepairRules.
Import ErasureCodec CodecBack Cas ObjectRepair.

Section Rules.
Context {E : Env} {O : OS} {T : TempDirs} {RS : ReedSolomon}.
Implicit Types (fs : FS) (p q : string).

(** ** Removing a tree leaves the rest *)

Lemma h_remove_each q x l : q ∉ l →
  hoare (fun fs => read fs q = Some x) (remove_each l) (fun fs _ => read fs q = Some x) (fun _ _ => False).
Proof.
  induction l as [|p l IH]; intros Hq; cbn [remove_each]; [by apply h_ret|].
  assert (Hne : q ≠ p) by set_solver. specialize (IH ltac:(set_solver)).
  eapply h_attempt; [apply h_Remove| |]; intros a; (eapply h_before; [exact IH|]).
  - intros fs (fs1 & Hr & Ho). destruct (occupied fs1 p); subst fs; [|done].
    by rewrite CasCompact.read_delete, bool_decide_eq_false_2.
  - by intros fs [].
Qed.

Lemma h_RemoveAll q x p : q ≠ p → under p q = false →
  hoare (fun fs => read fs q = Some x) (RemoveAll p) (fun fs _ => read fs q = Some x) (fun _ _ => False).
Proof.
  intros Hne Hu. unfold RemoveAll.
  apply (h_attempt _ _ _ (fun fs l => read fs q = Some x ∧ q ∉ l) (fun fs _ => read fs q = Some x)).
  - apply h_syscall; [done|]. intros t fs Hr. split; [done|]. intros [Hq|Hq]%elem_of_app.
    + apply elem_of_files_under in Hq as [Hq _]. congruence.
    + apply list_elem_of_In, in_rev, list_elem_of_In in Hq. unfold walk_order in Hq. rewrite elem_of_sort_slice in Hq.
      apply list_elem_of_In, filter_In in Hq as [_ Hq]. congruence.
  - intros l. apply h_pre with (q ∉ l); [by intros fs []|]. intros Hl.
    eapply h_before; [apply (h_remove_each q x)|by intros fs []]. rewrite not_elem_of_app. set_solver.
  - intros e. by apply h_ret.
Qed.

(** ** The object is there when the job succeeds *)

Context (root : string).

Definition target (digest : string) : string := BlobPath (Cas.New root 0) digest.

(** The text of the object hashes to its digest. *)
Definition repaired fs (digest : string) : Prop :=
  ∃ x, read fs (target digest) = Some x ∧ EqualFold (sha256hex x) digest = true.

Lemma h_overwriteVerified src dst digest :
  hoare (fun _ => True) (overwriteVerified src dst digest)
    (fun fs _ => ∃ x, read fs dst = Some x ∧ EqualFold (sha256hex x) digest = true) (fun _ _ => True).
Proof.
  unfold overwriteVerified. do 5 (eapply h_seq; [apply h_anything|done|]; intros ?).
  eapply (h_seq _ _ _ (fun fs r => ∃ x, read fs dst = Some x ∧ r.1 = sha256hex x)); [|done|].
  { unfold Cas.HashFile. eapply h_seq; [apply h_ReadFile_text|done|]. intros x. apply h_ret. intros fs Hx. by exists x. }
  intros [got n]. simpl. destruct (EqualFold got digest) eqn:He; simpl; [|by apply h_throw].
  apply h_ret. intros fs (x & Hx & Hg). exists x. by rewrite <- Hg.
Qed.

Lemma h_repair_in (p : repairObjectPayload) stage :
  hoare (fun _ => True) (repair_in root p stage) (fun fs _ => repaired fs p.(ro_Digest)) (fun _ _ => True).
Proof.
  unfold repair_in. eapply h_seq; [apply h_anything|done|]. intros created.
  eapply h_seq; [apply h_anything|done|]. intros [shards blocks]. case_match; [by apply h_throw|].
  do 2 (eapply h_seq; [apply h_anything|done|]; intros ?).
  eapply h_seq; [apply h_anything|done|]. intros [got n]. case_match; [by apply h_throw|].
  apply h_overwriteVerified.
Qed.

(** The stage is a name of the directory of stages. *)
Lemma h_make_stage :
  hoare (fun _ => True) (make_stage root)
    (fun _ stage => ∃ t, "/"%char ∉ chars t ∧ stage = join (join root ".repoark-repair") ("obj-" +:+ t)) (fun _ _ => True).
Proof.
  assert (Hm : hoare (fun _ => True) (MkdirTemp (join root ".repoark-repair") "obj-")
    (fun _ stage => ∃ t, "/"%char ∉ chars t ∧ stage = join (join root ".repoark-repair") ("obj-" +:+ t)) (fun _ _ => True)).
  { apply h_syscall; [done|]. intros t fs _. destruct (is_dir fs _); [|done]. apply temp_dir_name. }
  unfold make_stage. eapply h_attempt; [exact Hm|intros stage; by apply h_ret|]. intros e.
  eapply h_seq; [apply h_anything|done|]. intros []. exact Hm.
Qed.

(** Objects are not among the stages. *)
Lemma target_not_staged t x :
  let stage := join (join root ".repoark-repair") ("obj-" +:+ t) in
  target x ≠ stage ∧ under stage (target x) = false.
Proof.
  cbv zeta. set (stage := join _ _).
  assert (Hs : ∃ u, chars stage = chars root ++ "/"%char :: "."%char :: u).
  { eexists. unfold stage. rewrite !chars_join, <- app_assoc. simpl. reflexivity. }
  assert (Ht : target x = "" ∨ ∃ u, chars (target x) = chars root ++ "/"%char :: "s"%char :: u).
  { unfold target, BlobPath. destruct (_ ≟ _); [right|by left]. eexists. unfold blobPath, objectRoot.
    rewrite !chars_join, <- !app_assoc. simpl. reflexivity. }
  destruct Hs as [u Hu]. split.
  - intros Heq. rewrite <- Heq in Hu. destruct Ht as [Ht|[v Hv]].
    + rewrite Ht in Hu. by destruct (chars root).
    + rewrite Hv in Hu. by apply app_inv_head in Hu.
  - destruct (under _ _) eqn:Hun; [|done]. apply under_spec in Hun as [v Hv]. rewrite Hu, <- app_assoc in Hv. exfalso.
    destruct Ht as [Ht|[w Hw]]; [rewrite Ht in Hv; by destruct (chars root)|]. rewrite Hw in Hv.
    by apply app_inv_head in Hv.
Qed.

(** Whatever calls failed on the way, a repair job that reports success has decoded
    its payload and has left the object with a text that its digest is the hash of:
    neither the text staged nor the stage that is removed again gets in between. *)
Theorem repair_job_restores_the_object job k fs k' fs' :
  repairObject root job k fs = (k', fs', inr tt) →
  ∃ p : repairObjectPayload, unmarshal_repair_object job.(Job_Payload) = Some p ∧ repaired fs' p.(ro_Digest).
Proof.
  intros Hrun. unfold repairObject in Hrun. destruct (unmarshal_repair_object _) as [p|]; [|done].
  exists p. split; [done|]. destruct (_ || _ || _); [done|].
  assert (H : hoare (fun _ => True) (stage ← make_stage root; finally (RemoveAll stage) (repair_in root p stage))
    (fun fs _ => repaired fs p.(ro_Digest)) (fun _ _ => True)).
  { eapply h_seq; [apply h_make_stage|done|]. intros stage.
    apply h_pre with (∃ t, "/"%char ∉ chars t ∧ stage = join (join root ".repoark-repair") ("obj-" +:+ t)); [done|].
    intros (t & _ & ->). apply (h_before (fun _ => True)); [|done]. apply h_finally; [apply h_repair_in|]. intros _.
    destruct (target_not_staged t p.(ro_Digest)) as [H1 H2].
    intros k0 fs0 (x & Hx & Hs). pose proof (h_RemoveAll _ x _ H1 H2 k0 fs0 Hx) as H.
    destruct (RemoveAll _ k0 fs0) as [[k1 fs1] [e|u]]; [done|]. by exists x. }
  specialize (H k fs I). by rewrite Hrun in H.
Qed.
End Rules.

(** ** Two shards with one index

    The second link fails because the name is taken, and the copy that is made
    instead goes through that name to the inode of the first shard. *)

Module Demo.
#[local] Instance env : Env := {| clock k := Z.of_nat k; fresh_token _ := "" |}.
#[local] Existing Instance reliable.

Definition sum_a : string := Eval vm_compute in sha256hex "aa".
Definition sum_b : string := Eval vm_compute in sha256hex "bb".
Definition blob (sum : string) : string := BlobPath (Cas.New "/cas" 0) sum.

Definition disk : FS :=
  (from_files [(blob sum_a, "aa"); (blob sum_b, "bb")]) <| dirs := {["/cas/.repoark-repair/obj-1"]} |>.

Definition staged : FS * bool :=
  match stage_shards "/cas" "/cas/.repoark-repair/obj-1" 2 [mkRepairShard 0 sum_a 2; mkRepairShard 0 sum_b 2] [] 0 0%nat disk with
  | (_, fs, inr _) => (fs, true)
  | (_, fs, inl _) => (fs, false)
  end.

(** The first object has lost its text, and no error is reported. *)
Example equal_indices_spoil_an_object :
  read disk (blob sum_a) = Some "aa" ∧ read staged.1 (blob sum_a) = Some "bb" ∧ staged.2 = true.
Proof. vm_compute. by split_and!. Qed.
End Demo.
End RepairRules.
