(* ===== verification/Signing.v ===== *)
(** * Signing ([internal/signing/ed25519.go])

    Keys in files, and signatures as text.  The signature scheme and the PEM format
    are parameters with the laws that [crypto/ed25519] and [encoding/pem] document;
    base64 is written out. *)

From Stdlib Require Import Ascii String.
From S2P Require Import Prelude GoStd Text JsonText Control FileSystem FileTree.
#[global] Open Scope Z_scope.

(** ** [encoding/base64], the standard alphabet with padding *)

Module Base64.

Definition alphabet : list ascii :=
  Eval vm_compute in chars "ABCDEFGHIJKLMNOPQRSTUVWXYZabcdefghijklmnopqrstuvwxyz0123456789+/".

Definition pad : ascii := "="%char.

Definition symbol (d : Z) : ascii := nth (Z.to_nat d) alphabet pad.

Definition symbol_value (c : ascii) : option Z := (fun p => Z.of_nat p.1) <$> list_find (fun x => x = c) alphabet.

Definition byte_value (c : ascii) : Z := Z.of_N (N_of_ascii c).
Definition byte (z : Z) : ascii := ascii_of_N (Z.to_N z).

(** Three bytes make four symbols. *)
Fixpoint encode (l : list ascii) : list ascii :=
  match l with
  | [] => []
  | [a] =>
      let v := byte_value a * 16 in
      [symbol (v / 64); symbol (v mod 64); pad; pad]
  | [a; b] =>
      let v := (byte_value a * 256 + byte_value b) * 4 in
      [symbol (v / 4096); symbol (v / 64 mod 64); symbol (v mod 64); pad]
  | a :: b :: c :: l' =>
      let v := (byte_value a * 256 + byte_value b) * 256 + byte_value c in
      symbol (v / 262144) :: symbol (v / 4096 mod 64) :: symbol (v / 64 mod 64) :: symbol (v mod 64) :: encode l'
  end.

(** Four symbols, of which the last two may be padding at the end; the bits left
    over are ignored. *)
Fixpoint decode (l : list ascii) : option (list ascii) :=
  match l with
  | [] => Some []
  | p :: q :: r :: s :: l' =>
      x ← symbol_value p;
      y ← symbol_value q;
      let v := x * 64 + y in
      if r ≟ pad then
        if (s ≟ pad) && bool_decide (l' = []) then Some [byte (v / 16)] else None
      else
        z ← symbol_value r;
        let v := v * 64 + z in
        if s ≟ pad then
          if bool_decide (l' = []) then Some [byte (v / 1024); byte (v / 4 mod 256)] else None
        else
          w ← symbol_value s;
          let v := v * 64 + w in
          rest ← decode l';
          Some (byte (v / 65536) :: byte (v / 256 mod 256) :: byte (v mod 256) :: rest)
  | _ => None
  end.

Definition EncodeToString (s : string) : string := of_chars (encode (chars s)).

(** Line breaks between the symbols are skipped. *)
Definition line_break (c : ascii) : bool := (c ≟ "010"%char) || (c ≟ "013"%char).

Definition DecodeString (s : string) : option string :=
  of_chars <$> decode (List.filter (fun c => negb (line_break c)) (chars s)).

(** *** What is encoded is decoded *)

Lemma symbol_reads d : 0 ≤ d < 64 → symbol_value (symbol d) = Some d ∧ symbol d ≠ pad ∧ line_break (symbol d) = false.
Proof.
  intros H. assert (∃ n, (n < 64)%nat ∧ d = Z.of_nat n) as (n & Hn & ->) by (exists (Z.to_nat d); lia).
  do 64 (destruct n as [|n]; [by vm_compute|]). lia.
Qed.

Lemma byte_bounds c : 0 ≤ byte_value c < 256.
Proof. unfold byte_value. pose proof (N_ascii_bounded c). lia. Qed.

Lemma byte_back c z : z = byte_value c → byte z = c.
Proof. intros ->. unfold byte, byte_value. rewrite N2Z.id. apply ascii_N_embedding. Qed.

Ltac bits := Z.div_mod_to_equations; lia.

(** By threes. *)
Lemma triples (P : list ascii → Prop) :
  P [] → (∀ a, P [a]) → (∀ a b, P [a; b]) → (∀ a b c l, P l → P (a :: b :: c :: l)) → ∀ l, P l.
Proof.
  intros H0 H1 H2 H3. fix IH 1. intros [|a [|b [|c l]]]; [done|apply H1|apply H2|apply H3, IH].
Qed.

Lemma decode_encode l : decode (encode l) = Some l.
Proof.
  induction l as [|a|a b|a b c l IH] using triples; [done|..]; cbn [encode decode].
  - pose proof (byte_bounds a) as Ha. set (v := byte_value a * 16).
    destruct (symbol_reads (v / 64)) as (-> & _); [unfold v; bits|].
    destruct (symbol_reads (v mod 64)) as (-> & _); [bits|]. cbn. do 2 f_equal. apply byte_back. unfold v. bits.
  - pose proof (byte_bounds a) as Ha. pose proof (byte_bounds b) as Hb. set (v := (byte_value a * 256 + byte_value b) * 4).
    destruct (symbol_reads (v / 4096)) as (-> & _); [unfold v; bits|].
    destruct (symbol_reads (v / 64 mod 64)) as (-> & _); [bits|].
    destruct (symbol_reads (v mod 64)) as (-> & Hp & _); [bits|].
    cbn. rewrite bool_decide_eq_false_2 by done. cbn.
    f_equal; f_equal; [|f_equal]; apply byte_back; unfold v; bits.
  - pose proof (byte_bounds a) as Ha. pose proof (byte_bounds b) as Hb. pose proof (byte_bounds c) as Hc.
    set (v := (byte_value a * 256 + byte_value b) * 256 + byte_value c).
    destruct (symbol_reads (v / 262144)) as (-> & _); [unfold v; bits|].
    destruct (symbol_reads (v / 4096 mod 64)) as (-> & _); [bits|].
    destruct (symbol_reads (v / 64 mod 64)) as (-> & Hp & _); [bits|].
    destruct (symbol_reads (v mod 64)) as (-> & Hq & _); [bits|].
    cbn [mbind option_bind]. rewrite !bool_decide_eq_false_2 by done. rewrite IH. cbn.
    f_equal; f_equal; [|f_equal; [|f_equal]]; apply byte_back; unfold v; bits.
Qed.

Lemma encode_unbroken l : List.filter (fun c => negb (line_break c)) (encode l) = encode l.
Proof.
  induction l as [|a|a b|a b c l IH] using triples; [done|..]; cbn [encode].
  - pose proof (byte_bounds a) as Ha. set (v := byte_value a * 16).
    destruct (symbol_reads (v / 64)) as (_ & _ & H1); [unfold v; bits|].
    destruct (symbol_reads (v mod 64)) as (_ & _ & H2); [bits|]. cbn [List.filter]. by rewrite H1, H2.
  - pose proof (byte_bounds a) as Ha. pose proof (byte_bounds b) as Hb. set (v := (byte_value a * 256 + byte_value b) * 4).
    destruct (symbol_reads (v / 4096)) as (_ & _ & H1); [unfold v; bits|].
    destruct (symbol_reads (v / 64 mod 64)) as (_ & _ & H2); [bits|].
    destruct (symbol_reads (v mod 64)) as (_ & _ & H3); [bits|]. cbn [List.filter]. by rewrite H1, H2, H3.
  - pose proof (byte_bounds a) as Ha. pose proof (byte_bounds b) as Hb. pose proof (byte_bounds c) as Hc.
    set (v := (byte_value a * 256 + byte_value b) * 256 + byte_value c).
    destruct (symbol_reads (v / 262144)) as (_ & _ & H1); [unfold v; bits|].
    destruct (symbol_reads (v / 4096 mod 64)) as (_ & _ & H2); [bits|].
    destruct (symbol_reads (v / 64 mod 64)) as (_ & _ & H3); [bits|].
    destruct (symbol_reads (v mod 64)) as (_ & _ & H4); [bits|]. cbn [List.filter]. rewrite H1, H2, H3, H4. cbn [negb]. by rewrite IH.
Qed.

Lemma base64_back s : DecodeString (EncodeToString s) = Some s.
Proof.
  unfold DecodeString, EncodeToString. replace (chars (of_chars (encode (chars s)))) with (encode (chars s))
    by (unfold of_chars; by rewrite chars_of).
  rewrite encode_unbroken, decode_encode. cbn. f_equal. apply chars_inj. unfold of_chars. apply chars_of.
Qed.

(** Every symbol is an ASCII character. *)
Lemma symbol_ascii d : is_ascii (symbol d) = true.
Proof.
  unfold symbol. destruct (nth_in_or_default (Z.to_nat d) alphabet pad) as [H|H]; [|by rewrite H].
  assert (Hall : forallb is_ascii alphabet = true) by done. rewrite forallb_forall in Hall. by apply Hall.
Qed.

Lemma encode_ascii l : Forall (fun c => is_ascii c = true) (encode l).
Proof.
  induction l as [|a|a b|a b c l IH] using triples; [done|..]; cbn [encode];
    repeat (constructor; [first [apply symbol_ascii|done]|]); done.
Qed.
End Base64.

(** ** The signature scheme and the key format *)

(** The seed [rand.Reader] yields at a call, the public key of a seed, and signing
    and verifying. *)
Class Ed25519 := {
  ed_seed : nat → option string;
  ed_derive : string → string;
  ed_sign : string → string → string;
  ed_verify : string → string → string → bool;
  ed_seed_size k s : ed_seed k = Some s → String.length s = 32%nat;
  ed_derive_size s : String.length (ed_derive s) = 32%nat;
  ed_correct s m : String.length s = 32%nat → ed_verify (ed_derive s) m (ed_sign (s +:+ ed_derive s) m) = true
}.

(** Upper-case letters, digits and spaces. *)
Definition pem_char (c : ascii) : bool := (c ≟ " "%char) || is_digit c || byte_in 65 90 c.

(** [pem.Decode] finds the first block, with its type. *)
Class Pem := {
  pem_encode : string → string → string;
  pem_decode : string → option (string * string);
  pem_back t b : forallb pem_char (chars t) = true →
    pem_decode (pem_encode t b) = Some (t, b)
}.

Module Signing.

Definition privatePEMType : string := "REPOARK ED25519 PRIVATE KEY".
Definition publicPEMType : string := "REPOARK ED25519 PUBLIC KEY".
Definition PrivateKeySize : Z := 64.
Definition PublicKeySize : Z := 32.

Section Signing.
Context {E : Env} {O : OS} {D : Ed25519} {P : Pem}.

Definition fail {A} (e : string) : Disk A := throw (Failure e).

(** [priv.Public()] *)
Definition Public (priv : string) : string := String.substring 32 32 priv.

(** [ed25519.GenerateKey(rand.Reader)]; the result is the private key. *)
Definition GenerateKey : Disk string := fun k fs =>
  match ed_seed k with
  | Some s => (S k, fs, inr (s +:+ ed_derive s))
  | None => (S k, fs, inl (Failure "rand.Reader"))
  end.

(** [atomicWrite] of a pattern; the one of the audit package differs in it. *)
Definition atomic_write (pat path data : string) : Disk unit :=
  '(name, tmp) ← CreateTemp (Dir path) pat;
  finally (Remove name) (
    touch;;
    Write tmp data;;
    touch;;
    touch;;
    renamed ← try (Rename name path);
    match renamed with
    | inr _ => mret tt
    | inl err =>
        removed ← try (Remove path);
        match removed with
        | inl e => if is_not_exist e then Rename name path else throw err
        | inr _ => Rename name path
        end
    end).

Definition atomicWrite : string → string → Disk unit := atomic_write ".repoark-key-".

Definition parsePrivate (b : string) : result string :=
  match pem_decode b with
  | Some (t, c) =>
      if t ≠? privatePEMType then Err "invalid RepoArk Ed25519 private key"
      else if slen c ≠? PrivateKeySize then Err "invalid Ed25519 private key size"
      else Ok c
  | None => Err "invalid RepoArk Ed25519 private key"
  end.

Definition of_result {A} (r : result A) : Disk A := match r with Ok a => mret a | Err e => fail e end.

Definition LoadPrivate (path : string) : Disk string := b ← ReadFile path; of_result (parsePrivate b).

Definition WritePublic (path pub : string) : Disk unit :=
  if slen pub ≠? PublicKeySize then fail "invalid Ed25519 public key"
  else MkdirAll (Dir path);; atomicWrite path (pem_encode publicPEMType pub).

Definition parse_public (b : string) : result string :=
  match pem_decode b with
  | Some (t, c) =>
      if (t ≠? publicPEMType) || (slen c ≠? PublicKeySize) then Err "invalid RepoArk Ed25519 public key" else Ok c
  | None => Err "invalid RepoArk Ed25519 public key"
  end.

Definition LoadPublic (path : string) : Disk string := b ← ReadFile path; of_result (parse_public b).

(** The private key and the public key. *)
Definition EnsureKey (path : string) : Disk (string * string) :=
  if path ≟ "" then fail "empty signing key path"
  else
    b ← try (ReadFile path);
    match b with
    | inr b => priv ← of_result (parsePrivate b); mret (priv, Public priv)
    | inl e =>
        if is_not_exist e then
          priv ← GenerateKey;
          MkdirAll (Dir path);;
          atomicWrite path (pem_encode privatePEMType priv);;
          WritePublic (path +:+ ".pub") (Public priv);;
          mret (priv, Public priv)
        else throw e
    end.

Definition Sign (priv data : string) : string := Base64.EncodeToString (ed_sign priv data).

Definition Verify (pub data encoded : string) : result unit :=
  match Base64.DecodeString encoded with
  | None => Err "decode signature"
  | Some sig => if ed_verify pub data sig then Ok tt else Err "Ed25519 signature verification failed"
  end.

(** ** Keys and signatures *)

(** A private key that was made from its seed. *)
Definition sound_key (priv : string) : Prop :=
  ∃ s, String.length s = 32%nat ∧ priv = s +:+ ed_derive s.

Lemma sound_public s : String.length s = 32%nat → Public (s +:+ ed_derive s) = ed_derive s.
Proof. intros H. unfold Public. rewrite <- H at 1. rewrite <- (ed_derive_size s) at 1. apply substring_app. Qed.

Lemma public_size priv : sound_key priv → slen (Public priv) = PublicKeySize.
Proof. intros (s & Hs & ->). rewrite sound_public by done. unfold slen. by rewrite ed_derive_size. Qed.

(** What a key signs verifies under its public key. *)
Lemma sign_verify priv m : sound_key priv → Verify (Public priv) m (Sign priv m) = Ok tt.
Proof.
  intros (s & Hs & ->). unfold Verify, Sign. rewrite Base64.base64_back, sound_public by done. by rewrite ed_correct.
Qed.

Lemma parse_public_written pub : slen pub = PublicKeySize → parse_public (pem_encode publicPEMType pub) = Ok pub.
Proof.
  intros H. unfold parse_public. rewrite pem_back by (vm_compute; reflexivity).
  by rewrite H.
Qed.

Lemma parse_private_written priv : sound_key priv → parsePrivate (pem_encode privatePEMType priv) = Ok priv.
Proof.
  intros (s & Hs & ->). unfold parsePrivate. rewrite pem_back by (vm_compute; reflexivity).
  replace (slen (s +:+ ed_derive s)) with PrivateKeySize; [done|]. unfold slen, PrivateKeySize.
  rewrite <- chars_length, chars_app, length_app, !chars_length, Hs, ed_derive_size. done.
Qed.
End Signing.
End Signing.
