(* ===== verification/Checkpoint.v ===== *)
(** * Signed checkpoints of the ledger ([internal/audit/checkpoint.go],
    [AppendWithCheckpoint])

    A checkpoint is a file next to the ledger with the number and the hash of its
    last record and a signature of them. *)

From Stdlib Require Import Ascii String.
From S2P Require Import Prelude GoStd Text JsonText JsonStruct GoTime Sha256 Control FileSystem FileTree Ledger Signing.
#[global] Open Scope Z_scope.

Module Checkpoint.
Import Ledger.

Record Checkpoint := mkCheckpoint {
  cp_Seq : Z;
  cp_Hash : string;
  cp_CreatedAt : Zoned;
  cp_Signature : string
}.

#[export] Instance Checkpoint_settable : Settable Checkpoint :=
  fun r => mkCheckpoint (r.(cp_Seq)) (r.(cp_Hash)) (r.(cp_CreatedAt)) (r.(cp_Signature)).

Record checkpointPayload := mkPayload { pl_Seq : Z; pl_Hash : string; pl_CreatedAt : Zoned }.

Definition payload_fields (p : checkpointPayload) : option (list (string * value)) :=
  t ← marshal_time p.(pl_CreatedAt);
  Some [("seq", VNum (int_text p.(pl_Seq))); ("hash", VStr p.(pl_Hash)); ("created_at", VStr t)].

(** [json.Marshal(payload)] *)
Definition marshal_payload (p : checkpointPayload) : option string :=
  fs ← payload_fields p; Some (Marshal (VObj fs)).

(** The payload is the checkpoint without its signature. *)
Definition payload_of (cp : Checkpoint) : checkpointPayload :=
  mkPayload cp.(cp_Seq) cp.(cp_Hash) cp.(cp_CreatedAt).

(** [json.MarshalIndent(cp, "", "  ")] *)
Definition marshal_checkpoint (cp : Checkpoint) : option string :=
  fs ← payload_fields (payload_of cp);
  Some (MarshalIndent (VObj (fs ++ [("signature", VStr cp.(cp_Signature))]))).

Definition no_checkpoint : Checkpoint := mkCheckpoint 0 "" (UTC time_zero) "".

Definition checkpoint_tags : list (string * (value → Checkpoint → option Checkpoint)) :=
  [("seq", fun v r => (fun x => r <| cp_Seq := x |>) <$> dec_uint v r.(cp_Seq));
   ("hash", fun v r => (fun x => r <| cp_Hash := x |>) <$> dec_text v r.(cp_Hash));
   ("created_at", fun v r => (fun x => r <| cp_CreatedAt := x |>) <$> dec_when v r.(cp_CreatedAt));
   ("signature", fun v r => (fun x => r <| cp_Signature := x |>) <$> dec_text v r.(cp_Signature))].

Definition unmarshal_checkpoint (b : string) : option Checkpoint := unmarshal checkpoint_tags no_checkpoint b.

Section Checkpoint.
Context {F : Floats} {E : Env} {O : OS} {D : Ed25519} {P : Pem}.

Definition checkpoint_file (ledger : string) : string := ledger +:+ ".checkpoint.json".
Definition checkpoint_key (ledger : string) : string := ledger +:+ ".checkpoint.pub".

Definition atomicWriteAuditFile : string → string → Disk unit := Signing.atomic_write ".repoark-audit-".

(** A marshalling whose error is returned. *)
Definition marshalled (b : option string) : Disk string :=
  match b with Some b => mret b | None => fail "json: error calling MarshalJSON for type time.Time" end.

Definition writeCheckpointForHeadLocked (ledgerPath keyPath : string) (head : Record) : Disk unit :=
  if (head.(rec_Seq) =? 0) || (TrimSpace head.(rec_Hash) ≟ "") then fail "cannot checkpoint an empty audit ledger"
  else
    '(priv, pub) ← Signing.EnsureKey keyPath;
    now ← disk_now;
    let payload := mkPayload head.(rec_Seq) head.(rec_Hash) (UTC now) in
    b ← marshalled (marshal_payload payload);
    let cp := mkCheckpoint payload.(pl_Seq) payload.(pl_Hash) payload.(pl_CreatedAt) (Signing.Sign priv b) in
    out ← marshalled (marshal_checkpoint cp);
    MkdirAll (Dir ledgerPath);;
    Signing.WritePublic (checkpoint_key ledgerPath) pub;;
    atomicWriteAuditFile (checkpoint_file ledgerPath) out.

Definition WriteCheckpoint (ledgerPath keyPath : string) : Disk unit :=
  acquireLedgerGuard ledgerPath;;
  rs ← scanVerifiedLocked ledgerPath;
  writeCheckpointForHeadLocked ledgerPath keyPath (head rs).

Definition VerifyCheckpoint (ledgerPath trustedPublicKeyPath : string) : Disk unit :=
  acquireLedgerGuard ledgerPath;;
  b ← ReadFile (checkpoint_file ledgerPath);
  match unmarshal_checkpoint b with
  | None => fail "json: cannot unmarshal"
  | Some cp =>
      rs ← scanVerifiedLocked ledgerPath;
      if ((head rs).(rec_Seq) ≠? cp.(cp_Seq)) || negb (EqualFold (head rs).(rec_Hash) cp.(cp_Hash))
      then fail "audit checkpoint does not match ledger head"
      else
        payload ← marshalled (marshal_payload (payload_of cp));
        pub ← Signing.LoadPublic trustedPublicKeyPath;
        Signing.of_result (Signing.Verify pub payload cp.(cp_Signature))
  end.

(** The record is returned together with the error of the checkpoint. *)
Definition AppendWithCheckpoint (path keyPath action target status detail : string) (fields : list (string * value))
    : Disk (Record * option FileError) :=
  prepareLedgerDir path;;
  acquireLedgerGuard path;;
  r ← appendLocked path action target status detail fields;
  done ← try (writeCheckpointForHeadLocked path keyPath r);
  mret (r, match done with inl e => Some e | inr _ => None end).
End Checkpoint.
End Checkpoint.
