(* ===== verification/CheckpointRules.v ===== *)
(** * What a signed checkpoint promises (internal/audit/checkpoint.go)

    A ledger that agrees with its checkpoint is one that the holder of the key has
    signed; and a checkpoint that was written is found good. *)

From Stdlib Require Import Ascii String.
From S2P Require Import Prelude GoStd Text JsonText JsonStruct GoTime Sha256 Control FileSystem FileTree TempFiles CodecBack Ledger LedgerRules LedgerAppend Signing Checkpoint.
#[global] Open Scope Z_scope.

Module CheckpointRules.
Import Ledger LedgerRules LedgerAppend Checkpoint.

(** ** The text that is signed *)

(** A checkpoint whose text says everything. *)
Record sealable (cp : Checkpoint) : Prop := {
  sl_seq : 0 ≤ cp.(cp_Seq) < two64;
  sl_hash : valid_utf8 cp.(cp_Hash) = true;
  sl_zone : cp.(cp_CreatedAt).(z_offset) mod 60 = 0;
  sl_signature : valid_utf8 cp.(cp_Signature) = true
}.

Lemma checkpoint_tags_ok d :
  Forall (fun tag => ∀ v r r', value_ok d v = true → sealable r → tag.2 v r = Some r' → sealable r') checkpoint_tags.
Proof.
  unfold checkpoint_tags. repeat first [apply List.Forall_nil|apply List.Forall_cons]; intros v r r' Hv [H1 H2 H3 H4]; cbn [snd];
    match goal with |- (_ <$> ?o) = _ → _ => destruct o as [x|] eqn:E; [|done] end;
    intros [= <-]; split; cbn; try done;
    first [by eapply dec_uint_ok, E|by eapply dec_when_ok, E|by eapply dec_text_ok, E].
Qed.

Lemma unmarshal_sealable b cp : unmarshal_checkpoint b = Some cp → sealable cp.
Proof.
  unfold unmarshal_checkpoint, unmarshal. destruct (parse b) as [v|] eqn:Ep; [|done]. apply parse_ok in Ep.
  assert (H0 : sealable no_checkpoint) by by split.
  cbn [mbind option_bind]. destruct v as [| | | | |fs]; try done; [by intros [= <-]|].
  cbn [dec_struct]. intros H. eapply (set_fields_keep _ sealable (value_ok (Z.to_nat maxNestingDepth - 1)));
    [apply checkpoint_tags_ok| |exact H0|exact H].
  change (obj_ok fs = true) in Ep. rewrite obj_ok_forall in Ep.
  apply forallb_forall. intros kv Hkv. rewrite forallb_forall in Ep. specialize (Ep kv Hkv).
  by apply andb_true_iff in Ep as [_ Ep].
Qed.

Lemma payload_ok p fs : valid_utf8 p.(pl_Hash) = true → payload_fields p = Some fs → obj_ok fs = true.
Proof.
  unfold payload_fields. intros Hh. destruct (marshal_time _) as [t|] eqn:Et; [|done]. intros [= <-].
  apply marshal_time_utf8 in Et. rewrite obj_ok_forall. cbn [forallb fst snd value_ok].
  by rewrite (proj1 (int_text_spec _)), Hh, Et.
Qed.

(** The text determines the hash. *)
Lemma payload_inj p q m :
  valid_utf8 p.(pl_Hash) = true → valid_utf8 q.(pl_Hash) = true →
  marshal_payload p = Some m → marshal_payload q = Some m → p.(pl_Hash) = q.(pl_Hash).
Proof.
  unfold marshal_payload. intros Hp Hq. destruct (payload_fields p) as [f|] eqn:Ef; [|done].
  destruct (payload_fields q) as [g|] eqn:Eg; [|done]. cbn [mbind option_bind]. intros [= H1] [= H2].
  assert (E : VObj f = VObj g).
  { apply Marshal_inj; [exact (payload_ok p f Hp Ef)|exact (payload_ok q g Hq Eg)|congruence]. }
  unfold payload_fields in Ef, Eg. destruct (marshal_time (pl_CreatedAt p)); [|done].
  destruct (marshal_time (pl_CreatedAt q)); [|done]. injection Ef as <-. injection Eg as <-. by injection E.
Qed.

(** ** Files that are left as they are *)

(** Names but some lead to the same inode as before, which has not changed. *)
Definition keeps (l : list string) (fs fs' : FS) : Prop :=
  ∀ q i, q ∉ l → fs.(entries) !! q = Some i → fs'.(entries) !! q = Some i ∧ inode fs' i = inode fs i.

Section Keeping.
Context {E : Env} {O : OS} (l : list string).
Implicit Types (fs : FS) (p q name : string).

Lemma keeps_refl fs : keeps l fs fs.
Proof. by intros q i. Qed.

Lemma keeps_trans fs1 fs2 fs3 : keeps l fs1 fs2 → keeps l fs2 fs3 → keeps l fs1 fs3.
Proof.
  intros H1 H2 q i Hq Hi. destruct (H1 q i Hq Hi) as [Hi2 He2]. destruct (H2 q i Hq Hi2) as [Hi3 He3].
  split; [done|congruence].
Qed.

Lemma keeps_dirs fs0 fs ds : keeps l fs0 fs → keeps l fs0 (fs <| dirs := ds |>).
Proof. intros H q i Hq Hi. apply (H q i Hq Hi). Qed.

Lemma keeps_file fs fs' q i c : q ∉ l → keeps l fs fs' → file_at fs q i c → file_at fs' q i c.
Proof. intros Hq H (H1 & H2 & H3). destruct (H q i Hq H1) as [H4 H5]. unfold file_at. by rewrite H5. Qed.

Lemma keeps_blind fs0 fs i c t : keeps l fs0 fs → (∀ q, fs.(entries) !! q ≠ Some i) → keeps l fs0 (put i c t fs).
Proof.
  intros H Hi. apply (keeps_trans fs0 fs); [done|]. intros q j _ Hj. split; [done|].
  rewrite inode_put, bool_decide_eq_false_2; [done|]. intros ->. by apply Hi in Hj.
Qed.

(** A name that was free, or that need not be kept. *)
Lemma keeps_name fs0 fs name i : keeps l fs0 fs → name ∈ l ∨ fs.(entries) !! name = None →
  keeps l fs0 (fs <| entries := <[name := i]> fs.(entries) |>).
Proof.
  intros H Hn. apply (keeps_trans fs0 fs); [done|]. intros q j Hq Hj. split; [|done]. cbn.
  rewrite lookup_insert_ne; [done|]. intros ->. destruct Hn; [done|congruence].
Qed.

Lemma h_OpenCreate_keeps fs0 p :
  hoare (keeps l fs0) (OpenCreate p) (fun fs i => keeps l fs0 fs ∧ fs.(entries) !! p = Some i) (fun fs _ => keeps l fs0 fs).
Proof.
  apply h_syscall; [done|]. intros t fs H. destruct (entries fs !! p) as [i|] eqn:Hp; [done|].
  destruct (is_dir fs p); [done|]. destruct (is_dir fs (Dir p)); [|done]. split; [|cbn; apply lookup_insert_eq].
  apply (keeps_name fs0 (put (unused fs) "" t fs)); [|by right].
  apply keeps_blind; [done|apply unused_free].
Qed.

Lemma h_read_keeps fs0 p :
  hoare (keeps l fs0) (ReadFile p) (fun fs c => keeps l fs0 fs ∧ read_at fs p = inr c) (fun fs _ => keeps l fs0 fs).
Proof. eapply h_weaken; [apply (h_ReadFile (keeps l fs0))|done|done|by intros fs e []]. Qed.
End Keeping.

(** *** A file written atomically *)

Section Atomic.
Context {E : Env} {O : OS}.

(** The temporary names of a directory do not lead to the file. *)
Definition apart_from_temps (pat path : string) : Prop := HasPrefix path (join (Dir path) pat) = false.

Lemma apart_not_temp pat path t : apart_from_temps pat path → path ≠ join (Dir path) pat +:+ t.
Proof.
  intros H Heq. unfold apart_from_temps in H. apply not_true_iff_false in H. apply H, prefix_chars. exists (chars t).
  rewrite Heq at 1. apply chars_app.
Qed.

(** The rest is kept, and the file has its text. *)
Definition settled l fs0 path data fs : Prop := keeps l fs0 fs ∧ ∃ i, file_at fs path i data.

Section Steps.
Context (l : list string) (fs0 : FS) (path data name : string) (tmp : positive).
Context (Hpath : path ∈ l) (Hne : path ≠ name).

#[local] Notation T := (temp (keeps l fs0) (fun _ => True) name tmp).

Lemma free_name fs : T fs → name ∈ l ∨ fs0.(entries) !! name = None.
Proof.
  intros [H _ _ _]. destruct (decide (name ∈ l)) as [|Hn]; [by left|right].
  destruct (fs0.(entries) !! name) as [i|] eqn:E'; [|done]. destruct (H name i Hn E') as [H1 _]. cbn in H1.
  by rewrite lookup_delete_eq in H1.
Qed.

Lemma keeps_delete fs q : keeps l fs0 fs → q ∈ l ∨ fs0.(entries) !! q = None →
  keeps l fs0 (fs <| entries := delete q fs.(entries) |>).
Proof.
  intros H Hq p i Hp Hi. destruct (H p i Hp Hi) as [H1 H2]. split; [|done]. cbn. rewrite lookup_delete_ne; [done|].
  intros ->. destruct Hq; [done|congruence].
Qed.

Lemma h_rename_settled :
  hoare (fun fs => T fs ∧ file_at fs name tmp data) (Rename name path) (fun fs _ => settled l fs0 path data fs)
    (fun fs _ => T fs ∧ file_at fs name tmp data).
Proof.
  apply h_Rename_temp.
  - intros fs q i H _ Hq. apply keeps_name; [done|by right].
  - intros fs H _ _. apply keeps_name; [done|by left].
  - intros fs H Hf. split; [done|by exists tmp].
Qed.

Lemma h_remove_old :
  hoare (fun fs => T fs ∧ file_at fs name tmp data) (Remove path) (fun fs _ => T fs ∧ file_at fs name tmp data)
    (fun fs _ => T fs ∧ file_at fs name tmp data).
Proof.
  eapply h_weaken; [apply (h_Remove (fun fs => T fs ∧ file_at fs name tmp data))|done| |by intros fs e []].
  intros fs _ (fs1 & [[H1 H2 H3 H4] Hf] & Ho). destruct (occupied fs1 path); subst fs; [|by split].
  split; [split|by apply file_at_delete].
  - intros q i Hq Hi. destruct (H1 q i Hq Hi) as [G1 G2]. split; [|done]. cbn in *.
    rewrite delete_delete, lookup_delete_ne; [done|]. by intros ->.
  - cbn. by rewrite lookup_delete_ne.
  - intros q Hq. cbn in Hq. apply lookup_delete_Some in Hq as [_ Hq]. by apply H3.
  - done.
Qed.

Lemma h_remove_name : name ∈ l ∨ fs0.(entries) !! name = None →
  hoare (settled l fs0 path data) (Remove name) (fun fs _ => settled l fs0 path data fs) (fun fs _ => settled l fs0 path data fs).
Proof.
  intros Hn. eapply h_weaken; [apply (h_Remove (settled l fs0 path data))|done| |by intros fs e []].
  intros fs _ (fs1 & [H1 [i Hf]] & Ho). destruct (occupied fs1 name); subst fs; [|by split; [|exists i]].
  split; [by apply keeps_delete|]. exists i. apply file_at_delete; [done|congruence].
Qed.
End Steps.

Lemma h_atomic_write l pat path data fs0 :
  path ∈ l → apart_from_temps pat path →
  hoare (keeps l fs0) (Signing.atomic_write pat path data) (fun fs _ => settled l fs0 path data fs) (fun _ _ => True).
Proof.
  intros Hl Hap. unfold Signing.atomic_write.
  eapply h_seq; [apply (h_CreateTemp_temp (keeps l fs0) (fun _ => True)); [intros; by apply keeps_blind|done]|done|].
  intros [name tmp]. cbn [fst snd].
  apply h_pre with (path ≠ name ∧ (name ∈ l ∨ fs0.(entries) !! name = None)).
  { intros fs [HT [t ->]]. split; [by apply apart_not_temp|by eapply free_name]. }
  intros [Hne Hfree]. apply h_finally; [|intros a; by apply h_remove_name].
  eapply h_seq; [eapply h_before; [apply h_touch|by intros fs [HT _]; exact HT]|done|intros []].
  eapply h_seq; [apply h_Write_temp; intros; by apply keeps_blind|done|intros []].
  do 2 (eapply h_seq; [apply h_touch|done|intros []]).
  eapply h_attempt; [by apply h_rename_settled|intros []; by apply h_ret|]. intros err.
  eapply h_attempt; [by apply h_remove_old| |].
  - intros []. eapply h_weaken; [by apply (h_rename_settled l fs0 path data name tmp)|done|done|done].
  - intros e. destruct (is_not_exist e); [|by apply h_throw].
    eapply h_weaken; [by apply (h_rename_settled l fs0 path data name tmp)|done|done|done].
Qed.
End Atomic.
(** ** A ledger that agrees with its checkpoint *)

Section Pinned.
Context {F : Floats} {E : Env} {O : OS} {D : Ed25519} {P : Pem}.
Implicit Types (fs : FS) (l : list string).

Lemma keeps_read l fs fs' q c : q ∉ l → keeps l fs fs' → read fs q = Some c → read fs' q = Some c.
Proof.
  intros Hq H. unfold read, inode_at. destruct (entries fs !! q) as [i|] eqn:Hi; [|done].
  destruct (H q i Hq Hi) as [-> He]. cbn. by rewrite He.
Qed.

Lemma h_guard_keeps l fs0 path :
  hoare (keeps l fs0) (acquireLedgerGuard path)
    (fun fs _ => keeps l fs0 fs ∧ TrimSpace path ≠ "" ∧ is_Some (fs.(entries) !! (path +:+ ".lock")))
    (fun fs _ => keeps l fs0 fs).
Proof.
  unfold acquireLedgerGuard. destruct (TrimSpace path ≟ "") eqn:Ht; [by apply h_throw|].
  apply bool_decide_eq_false in Ht.
  eapply h_seq; [apply h_OpenCreate_keeps|done|]. intros i.
  eapply h_weaken; [apply h_touch|intros fs Hk; exact Hk|intros fs a [H1 H2]; by split|by intros fs e [[] _]].
Qed.

Lemma h_guard_contents path q c :
  hoare (fun fs => contents fs q = c) (acquireLedgerGuard path) (fun fs _ => contents fs q = c) (fun _ _ => True).
Proof.
  unfold acquireLedgerGuard. case_match; [by apply h_throw|].
  eapply h_seq; [apply (h_OpenCreate q c)|done|]. intros i.
  eapply h_weaken; [apply (h_touch (fun fs => contents fs q = c))|by intros fs []|done|done].
Qed.

(** A read of a file that was there, is what was there. *)
Lemma h_read_kept l fs0 p c : p ∉ l → read fs0 p = Some c →
  hoare (keeps l fs0) (ReadFile p) (fun fs x => keeps l fs0 fs ∧ x = c) (fun fs _ => keeps l fs0 fs).
Proof.
  intros Hp Hc. eapply h_weaken; [apply h_read_keeps|done| |done]. intros fs x [H Hx]. split; [done|].
  pose proof (keeps_read l fs0 fs p c Hp H Hc) as Hr. unfold read_at in Hx. unfold read in Hr.
  destruct (inode_at fs p) as [n|]; [|done]. destruct (i_regular n); [|done]. injection Hx as <-. by injection Hr.
Qed.

Lemma h_scan_kept l fs0 path content : path ∉ l → read fs0 path = Some content →
  hoare (keeps l fs0) (scanVerifiedLocked path) (fun fs rs => keeps l fs0 fs ∧ scan_content content = Ok rs)
    (fun fs _ => keeps l fs0 fs).
Proof.
  intros Hp Hc. unfold scanVerifiedLocked. eapply h_seq; [by eapply h_read_kept|done|]. intros x.
  apply h_pre with (x = content); [by intros fs []|]. intros ->.
  destruct (scan_content content); [apply h_ret|apply h_throw]; by intros fs [].
Qed.

(** What a successful verification has compared. *)
Lemma verified_checkpoint path trusted k fs k' fs' content text b :
  read fs path = Some content → read fs (checkpoint_file path) = Some text → read fs trusted = Some b →
  VerifyCheckpoint path trusted k fs = (k', fs', inr tt) →
  keeps [] fs fs' ∧ ∃ rs cp m pub, scan_content content = Ok rs ∧ unmarshal_checkpoint text = Some cp ∧
    (head rs).(rec_Seq) = cp.(cp_Seq) ∧ EqualFold (head rs).(rec_Hash) cp.(cp_Hash) = true ∧
    marshal_payload (payload_of cp) = Some m ∧ Signing.parse_public b = Ok pub ∧
    Signing.Verify pub m cp.(cp_Signature) = Ok tt.
Proof.
  intros Hc Ht Hb Hrun.
  assert (Hnone : ∀ q : string, q ∉ []) by (intros q; by apply not_elem_of_nil).
  assert (H : hoare (fun f => f = fs) (VerifyCheckpoint path trusted) (fun f _ => keeps [] fs f ∧
    ∃ rs cp m pub, scan_content content = Ok rs ∧ unmarshal_checkpoint text = Some cp ∧
    (head rs).(rec_Seq) = cp.(cp_Seq) ∧ EqualFold (head rs).(rec_Hash) cp.(cp_Hash) = true ∧
    marshal_payload (payload_of cp) = Some m ∧ Signing.parse_public b = Ok pub ∧
    Signing.Verify pub m cp.(cp_Signature) = Ok tt) (fun _ _ => True)).
  { apply (h_before (keeps [] fs)); [|intros f ->; apply keeps_refl]. unfold VerifyCheckpoint.
    eapply h_seq; [apply h_guard_keeps|done|intros []].
    eapply h_seq; [eapply h_before; [apply (h_read_kept _ fs _ text (Hnone _) Ht)|by intros f []]|done|]. intros x.
    apply h_pre with (x = text); [by intros f []|]. intros ->.
    destruct (unmarshal_checkpoint text) as [cp|] eqn:Ecp; [|by apply h_throw].
    eapply h_seq; [eapply h_before; [apply (h_scan_kept _ fs path content (Hnone _) Hc)|by intros f []]|done|].
    intros rs. apply h_pre with (scan_content content = Ok rs); [by intros f []|]. intros Hrs.
    destruct (_ || _) eqn:Hcmp; [by apply h_throw|]. apply orb_false_iff in Hcmp as [H1%negb_false_iff H2%negb_false_iff].
    apply bool_decide_eq_true in H1. destruct (marshal_payload (payload_of cp)) as [m|] eqn:Em; [|by apply h_throw].
    cbn [marshalled]. apply (h_bind _ _ _ (fun f y => keeps [] fs f ∧ y = m)); [apply h_ret; by intros f []|]. intros y.
    apply h_pre with (y = m); [by intros f []|]. intros ->. unfold Signing.LoadPublic.
    apply (h_seq _ _ _ (fun f pub => keeps [] fs f ∧ Signing.parse_public b = Ok pub) (fun _ _ => True)); [|done|].
    - eapply h_seq; [eapply h_before; [apply (h_read_kept _ fs _ b (Hnone _) Hb)|by intros f []]|done|]. intros x.
      apply h_pre with (x = b); [by intros f []|]. intros ->.
      destruct (Signing.parse_public b); [apply h_ret|apply h_throw]; by intros f [].
    - intros pub. apply h_pre with (Signing.parse_public b = Ok pub); [by intros f []|]. intros Hpub.
      destruct (Signing.Verify pub m (cp_Signature cp)) as [[]|] eqn:Ev; [apply h_ret|by apply h_throw].
      intros f [Hk _]. split; [done|]. by exists rs, cp, m, pub. }
  specialize (H k fs eq_refl). by rewrite Hrun in H.
Qed.

(** C17. A ledger whose checkpoint is good under a key is a ledger that was signed with
    that key: if the signature in the checkpoint is not a forgery, that is, if the
    holder of the key has signed the text it verifies for, as the head of some
    ledger that verified then, then the records of the two ledgers are the same one
    by one, unless two different texts hashed in them have the same SHA-256; and the
    verification changes no file. *)
Theorem a_good_checkpoint_pins_the_ledger path trusted k fs k' fs' content text b pub (signed : list Record → Prop) :
  read fs path = Some content → read fs (checkpoint_file path) = Some text → read fs trusted = Some b →
  Signing.parse_public b = Ok pub →
  (∀ cp m, unmarshal_checkpoint text = Some cp → marshal_payload (payload_of cp) = Some m →
     Signing.Verify pub m cp.(cp_Signature) = Ok tt →
     ∃ rs c now, signed rs ∧ scan_content c = Ok rs ∧
       marshal_payload (mkPayload (head rs).(rec_Seq) (head rs).(rec_Hash) (UTC now)) = Some m) →
  VerifyCheckpoint path trusted k fs = (k', fs', inr tt) →
  keeps [] fs fs' ∧ ∃ rs rs', scan_content content = Ok rs ∧ signed rs' ∧ (no_collision rs rs' → Forall2 same rs rs').
Proof.
  intros Hc Ht Hb Hpub Hhonest Hrun.
  destruct (verified_checkpoint _ _ _ _ _ _ _ _ _ Hc Ht Hb Hrun)
    as [Hk (rs & cp & m & pub' & Hrs & Hcp & _ & Hhash & Hm & Hpub' & Hv)].
  assert (pub' = pub) as -> by congruence. split; [done|].
  destruct (Hhonest cp m Hcp Hm Hv) as (rs' & c & now & Hs & Hrs' & Hm'). exists rs, rs'. split_and!; [done|done|].
  intros Hno. apply content_chained in Hrs as H1, Hrs' as H2. apply (chains_same 1 1 rs rs' H1 H2 Hno).
  assert (He : cp.(cp_Hash) = (head rs').(rec_Hash)); [|by rewrite <- He].
  exact (payload_inj (payload_of cp) (mkPayload _ _ (UTC now)) m (sl_hash _ (unmarshal_sealable text cp Hcp))
    (p_hash _ (head_printable c rs' Hrs')) Hm Hm').
Qed.
End Pinned.

(** ** A checkpoint that was written *)

Lemma checkpoint_reads cp out : sealable cp → marshal_checkpoint cp = Some out → unmarshal_checkpoint out = Some cp.
Proof.
  intros [H1 H2 H3 H4] Hm. unfold unmarshal_checkpoint, unmarshal. unfold marshal_checkpoint in Hm.
  destruct (payload_fields (payload_of cp)) as [fs|] eqn:Ef; [|done]. cbn [mbind option_bind] in Hm. injection Hm as <-.
  pose proof (payload_ok (payload_of cp) fs H2 Ef) as Hok.
  pose proof (Unmarshal_MarshalIndent (VObj (fs ++ [("signature", VStr cp.(cp_Signature))])) "") as Hp.
  rewrite text_nil in Hp. rewrite Hp; [|rewrite obj_ok_forall in Hok; cbn [value_ok];
    change (obj_ok (fs ++ [("signature", VStr cp.(cp_Signature))]) = true); rewrite obj_ok_forall, forallb_app, Hok;
    cbn [forallb fst snd value_ok]; by rewrite H4|constructor].
  cbn [mbind option_bind]. unfold payload_fields in Ef.
  destruct (marshal_time (pl_CreatedAt (payload_of cp))) as [t|] eqn:Et; [|done]. injection Ef as <-.
  pose proof (dec_when_text _ _ (UTC time_zero) H3 Et) as Hw. destruct cp as [sq ha ca sg]. cbn in H1. unfold payload_of in Hw. cbn [cp_CreatedAt pl_CreatedAt] in Hw.
  unfold payload_of. cbn [cp_Seq cp_Hash cp_CreatedAt cp_Signature pl_Seq pl_Hash pl_CreatedAt].
  repeat (cbn -[dec_uint EqualFold int_text dec_when]; known_keys; try rewrite dec_uint_text by done; try rewrite Hw).
  reflexivity.
Qed.

Lemma sign_text `{Ed25519} priv m : valid_utf8 (Signing.Sign priv m) = true.
Proof.
  unfold Signing.Sign, Base64.EncodeToString. apply CodecBack.ascii_text, Base64.encode_ascii.
Qed.

Section Written.
Context {F : Floats} {E : Env} {O : OS} {D : Ed25519} {P : Pem}.
Implicit Types (fs : FS).

(** What a checkpoint that verifies needs of the files. *)
Record certified path fs : Prop := {
  ce_lock : TrimSpace path ≠ "" ∧ is_Some (fs.(entries) !! (path +:+ ".lock"));
  ce_good : ∃ i content rs j out cp m h pem pub,
    (file_at fs path i content ∧ scan_content content = Ok rs) ∧
    (file_at fs (checkpoint_file path) j out ∧ unmarshal_checkpoint out = Some cp) ∧
    (file_at fs (checkpoint_key path) h pem ∧ Signing.parse_public pem = Ok pub) ∧
    (head rs).(rec_Seq) = cp.(cp_Seq) ∧ (head rs).(rec_Hash) = cp.(cp_Hash) ∧
    marshal_payload (payload_of cp) = Some m ∧ Signing.Verify pub m cp.(cp_Signature) = Ok tt
}.

Lemma bind_ok {A B} (p : Disk A) (f : A → Disk B) k fs k' fs' a :
  p k fs = (k', fs', inr a) → (p ≫= f) k fs = f a k' fs'.
Proof. intros H. unfold mbind, disk_bind. by rewrite H. Qed.

Lemma read_ok k fs p i c : fault k = None → file_at fs p i c → ReadFile p k fs = (S k, fs, inr c).
Proof.
  intros Hk (H1 & H2 & H3). unfold ReadFile, syscall, read_at, inode_at. by rewrite Hk, H1; cbn; rewrite H2, H3.
Qed.

Lemma guard_ok k fs path : fault k = None → fault (S k) = None → TrimSpace path ≠ "" →
  is_Some (fs.(entries) !! (path +:+ ".lock")) → acquireLedgerGuard path k fs = (S (S k), fs, inr tt).
Proof.
  intros H1 H2 Hp [i Hi]. unfold acquireLedgerGuard. rewrite bool_decide_eq_false_2 by done.
  rewrite (bind_ok _ _ k fs (S k) fs i); unfold touch, OpenCreate, syscall; [by rewrite H2|by rewrite H1, Hi].
Qed.

(** The verification of a certified ledger makes five calls, none of which changes
    anything. *)
Lemma certified_verifies path k fs : (∀ j, (k <= j)%nat → fault j = None) → certified path fs →
  VerifyCheckpoint path (checkpoint_key path) k fs = ((k + 5)%nat, fs, inr tt).
Proof.
  intros Hf [[Hp Hl] (i & content & rs & j & out & cp & m & h & pem & pub & [H1 H2] & [H3 H4] & [H5 H6] & H7 & H8 & H9 & H10)].
  assert (Hfk : ∀ n, fault (n + k) = None) by (intros n; apply Hf; lia). unfold VerifyCheckpoint.
  rewrite (bind_ok _ _ _ _ _ _ _ (guard_ok k fs path (Hfk 0%nat) (Hfk 1%nat) Hp Hl)).
  rewrite (bind_ok _ _ _ _ _ _ _ (read_ok _ fs _ j out (Hfk 2%nat) H3)). rewrite H4.
  rewrite (bind_ok _ _ (S (S (S k))) fs (S (S (S (S k)))) fs rs).
  2: { unfold scanVerifiedLocked. rewrite (bind_ok _ _ _ _ _ _ _ (read_ok _ fs _ i content (Hfk 3%nat) H1)). by rewrite H2. }
  rewrite H7, H8, EqualFold_refl. rewrite bool_decide_eq_true_2 by done. cbn [negb orb]. rewrite H9. cbn [marshalled].
  rewrite (bind_ok _ _ (S (S (S (S k)))) fs (S (S (S (S k)))) fs m) by done.
  rewrite (bind_ok _ _ (S (S (S (S k)))) fs (S (S (S (S (S k))))) fs pub).
  2: { unfold Signing.LoadPublic. rewrite (bind_ok _ _ _ _ _ _ _ (read_ok _ fs _ h pem (Hfk 4%nat) H5)). by rewrite H6. }
  rewrite H10. by rewrite Nat.add_comm.
Qed.

(** *** Writing *)

Context (path keyPath : string).

(** The files a checkpoint writes. *)
Definition written : list string :=
  [keyPath; keyPath +:+ ".pub"; checkpoint_key path; checkpoint_file path].

(** The ledger and its lock are not among the files written, nor is one of these
    named like a temporary file. *)
Record well_placed : Prop := {
  wp_ledger : path ∉ written;
  wp_lock : path +:+ ".lock" ∉ written;
  wp_key : apart_from_temps ".repoark-key-" keyPath ∧ apart_from_temps ".repoark-key-" (keyPath +:+ ".pub");
  wp_pub : apart_from_temps ".repoark-key-" (checkpoint_key path);
  wp_file : apart_from_temps ".repoark-audit-" (checkpoint_file path)
}.

Lemma key_not_file : checkpoint_key path ≠ checkpoint_file path.
Proof.
  unfold checkpoint_key, checkpoint_file. intros H%(f_equal chars). rewrite !chars_app in H.
  by apply app_inv_head in H.
Qed.

Context (Hplaced : well_placed).

Lemma h_settled_keeps l pat p data fs0 : p ∈ l → apart_from_temps pat p →
  hoare (keeps l fs0) (Signing.atomic_write pat p data) (fun fs _ => keeps l fs0 fs) (fun _ _ => True).
Proof. intros Hp Ha. eapply h_weaken; [by apply (h_atomic_write l)|done|by intros fs a []|done]. Qed.

Lemma h_MkdirAll_keeps l fs0 d : hoare (keeps l fs0) (MkdirAll d) (fun fs _ => keeps l fs0 fs) (fun _ _ => True).
Proof. eapply h_weaken; [apply (h_MkdirAll d (keeps l fs0)); intros; by apply keeps_dirs|done..]. Qed.

Lemma h_WritePublic l fs0 p pub : p ∈ l → apart_from_temps ".repoark-key-" p →
  hoare (keeps l fs0) (Signing.WritePublic p pub)
    (fun fs _ => settled l fs0 p (pem_encode Signing.publicPEMType pub) fs ∧ slen pub = Signing.PublicKeySize) (fun _ _ => True).
Proof.
  intros Hp Ha. unfold Signing.WritePublic. destruct (slen pub ≟ _) eqn:Hs; [|by apply h_throw].
  apply bool_decide_eq_true in Hs. cbn [negb]. eapply h_seq; [apply h_MkdirAll_keeps|done|intros []].
  eapply h_weaken; [by apply (h_atomic_write l)|done|by split|done].
Qed.

(** The key found is sound if what is in its file is, and a new one always is. *)
Lemma h_EnsureKey fs0 : (∀ priv, Signing.parsePrivate (contents fs0 keyPath) = Ok priv → Signing.sound_key priv) →
  hoare (fun fs => fs = fs0) (Signing.EnsureKey keyPath)
    (fun fs r => keeps written fs0 fs ∧ Signing.sound_key r.1 ∧ r.2 = Signing.Public r.1) (fun _ _ => True).
Proof.
  intros Hsound. unfold Signing.EnsureKey. case_match; [by apply h_throw|].
  eapply h_attempt; [apply (h_ReadFile (fun fs => fs = fs0))|intros b|intros e].
  - apply h_pre with (contents fs0 keyPath = b).
    { intros fs [-> Hb]. unfold contents, read. unfold read_at in Hb. destruct (inode_at fs0 keyPath) as [n|]; [|done].
      destruct (i_regular n); [|done]. by injection Hb. }
    intros <-. destruct (Signing.parsePrivate _) as [priv|] eqn:Ep; cbn [Signing.of_result]; [|by apply h_throw].
    apply (h_bind _ _ _ (fun fs a => fs = fs0 ∧ a = priv)); [apply h_ret; by intros fs []|]. intros a. apply h_ret.
    intros fs [-> ->]. split; [apply keeps_refl|]. split; [by apply Hsound|done].
  - case_match; [|by apply h_throw]. apply (h_before (keeps written fs0)); [|intros fs [-> _]; apply keeps_refl].
    apply (h_seq _ _ _ (fun fs priv => keeps written fs0 fs ∧ Signing.sound_key priv) (fun _ _ => True)); [|done|].
    { intros k fs Hk. unfold Signing.GenerateKey. destruct (ed_seed k) as [s|] eqn:Es; [|done].
      split; [done|]. exists s. split; [by eapply ed_seed_size|done]. }
    intros priv. apply h_pre with (Signing.sound_key priv); [by intros fs []|]. intros Hs.
    eapply h_seq; [eapply h_before; [apply h_MkdirAll_keeps|by intros fs []]|done|intros []].
    eapply h_seq; [apply h_settled_keeps; [by left|apply Hplaced]|done|intros []].
    eapply h_seq; [apply h_WritePublic; [by right; left|apply Hplaced]|done|intros []].
    apply h_ret. by intros fs [[Hk _] _].
Qed.

(** What is written for a head is a checkpoint of it. *)
Lemma h_write_head fs0 i content rs :
  file_at fs0 path i content → scan_content content = Ok rs →
  TrimSpace path ≠ "" → is_Some (fs0.(entries) !! (path +:+ ".lock")) →
  (∀ priv, Signing.parsePrivate (contents fs0 keyPath) = Ok priv → Signing.sound_key priv) →
  hoare (fun fs => fs = fs0) (writeCheckpointForHeadLocked path keyPath (head rs))
    (fun fs _ => certified path fs ∧ file_at fs path i content) (fun _ _ => True).
Proof.
  intros Hled Hscan Htrim [lk Hlock] Hsound. unfold writeCheckpointForHeadLocked. case_match; [by apply h_throw|].
  eapply h_seq; [by apply h_EnsureKey|done|]. intros [priv pub]. cbn [fst snd].
  apply h_pre with (Signing.sound_key priv ∧ pub = Signing.Public priv); [by intros fs []|]. intros [Hs ->].
  apply (h_bind _ _ _ (fun fs _ => keeps written fs0 fs)); [intros k fs [Hk _]; exact Hk|]. intros now.
  pose proof (head_printable content rs Hscan) as Hpr.
  set (pl := mkPayload _ _ (UTC now)). destruct (marshal_payload pl) as [m|] eqn:Em; [|by apply h_throw].
  set (cp := mkCheckpoint pl.(pl_Seq) pl.(pl_Hash) pl.(pl_CreatedAt) (Signing.Sign priv m)).
  cbn [marshalled]. apply (h_bind _ _ _ (fun fs x => keeps written fs0 fs ∧ x = m)).
  { apply h_ret. by intros fs Hk. }
  intros x. apply h_pre with (x = m); [by intros fs []|]. intros ->. fold cp.
  destruct (marshal_checkpoint cp) as [out|] eqn:Eo; [|by apply h_throw]. cbn [marshalled].
  apply (h_bind _ _ _ (fun fs x => keeps written fs0 fs ∧ x = out)); [apply h_ret; by intros fs []|].
  intros x. apply h_pre with (x = out); [by intros fs []|]. intros ->.
  assert (Hcp : unmarshal_checkpoint out = Some cp).
  { apply checkpoint_reads; [|done]. split; [apply Hpr|apply Hpr|done|apply sign_text]. }
  eapply h_seq; [eapply h_before; [apply (h_MkdirAll_keeps written fs0)|by intros fs []]|done|intros []].
  eapply h_seq; [apply (h_WritePublic written fs0); [right; right; by left|apply Hplaced]|done|intros []].
  apply h_here. intros fs1 [[Hk1 [h Hpub]] _].
  eapply h_weaken; [apply (h_atomic_write [checkpoint_file path] _ _ out fs1); [by left|apply Hplaced]|intros fs ->; apply keeps_refl| |done].
  intros fs _ [Hk2 [j Hout]].
  assert (Hled1 : file_at fs path i content).
  { apply (keeps_file [checkpoint_file path] fs1); [|done|by apply (keeps_file written fs0); [apply Hplaced|..]].
    intros Hin%list_elem_of_singleton. apply (wp_ledger Hplaced). rewrite Hin. unfold written. set_solver. }
  split; [|done]. split; [split; [done|]|].
  - destruct (Hk1 _ _ (wp_lock Hplaced) Hlock) as [Hl1 _]. eexists. apply (Hk2 _ lk); [|done].
    intros Hin%list_elem_of_singleton. apply (wp_lock Hplaced). rewrite Hin. unfold written. set_solver.
  - exists i, content, rs, j, out, cp, m, h, (pem_encode Signing.publicPEMType (Signing.Public priv)), (Signing.Public priv).
    split_and!; try done.
    + apply (keeps_file [checkpoint_file path] fs1); [|done|done].
      intros Hin%list_elem_of_singleton. by apply key_not_file.
    + by apply Signing.parse_public_written, Signing.public_size.
    + by apply Signing.sign_verify.
Qed.

(** The scan of a ledger that is there. *)
Lemma h_scan_at fs0 content : read fs0 path = Some content →
  hoare (fun fs => fs = fs0) (scanVerifiedLocked path)
    (fun fs rs => fs = fs0 ∧ (∃ i, file_at fs0 path i content) ∧ scan_content content = Ok rs) (fun _ _ => True).
Proof.
  intros Hr. unfold scanVerifiedLocked.
  apply (h_seq _ _ _ (fun fs x => fs = fs0 ∧ (∃ i, file_at fs0 path i content) ∧ x = content) (fun _ _ => True)); [|done|].
  - eapply h_weaken; [apply (h_ReadFile (fun fs => fs = fs0))|done| |done]. intros fs x [-> Hx]. split; [done|].
    destruct (CodecBack.read_at_file _ _ _ Hx) as [i Hi]. pose proof (file_at_read _ _ _ _ Hi) as Hx'.
    assert (x = content) as -> by congruence. split; [by exists i|done].
  - intros x. apply h_pre with (x = content ∧ ∃ i, file_at fs0 path i content); [by intros fs (_ & H & ->)|]. intros [-> Hi].
    destruct (scan_content content); [apply h_ret|by apply h_throw]. by intros fs [-> _].
Qed.

(** C33. A checkpoint that was written is good: if [WriteCheckpoint] reports success,
    whatever calls failed on the way, and no later call fails, then the ledger,
    which still reads as before, verifies under the public key next to it. *)
Theorem a_written_checkpoint_verifies k fs k' fs' content :
  read fs path = Some content →
  (∀ priv, Signing.parsePrivate (contents fs keyPath) = Ok priv → Signing.sound_key priv) →
  WriteCheckpoint path keyPath k fs = (k', fs', inr tt) →
  (∀ j, (k' <= j)%nat → fault j = None) →
  read fs' path = Some content ∧
  VerifyCheckpoint path (checkpoint_key path) k' fs' = ((k' + 5)%nat, fs', inr tt).
Proof.
  intros Hc Hsound Hrun Hlater.
  assert (Hw : hoare (fun f => f = fs) (WriteCheckpoint path keyPath)
    (fun f _ => certified path f ∧ read f path = Some content) (fun _ _ => True)).
  { unfold WriteCheckpoint. apply (h_seq _ _ _ (fun f (_ : unit) => (keeps [] fs f ∧ TrimSpace path ≠ "" ∧
      is_Some (f.(entries) !! (path +:+ ".lock"))) ∧ contents f keyPath = contents fs keyPath) (fun _ _ => True)); [|done|intros []].
    - eapply h_weaken; [apply (h_and (fun f => f = fs))|done|intros f a HQ; exact HQ|done].
      + eapply h_before; [apply (h_guard_keeps [] fs path)|]. intros f ->. apply keeps_refl.
      + eapply h_before; [apply (h_guard_contents path keyPath (contents fs keyPath))|]. by intros f ->.
    - apply h_here. intros f1 [[Hk [Htrim Hlock]] Hkey].
      apply (h_seq _ _ _ (fun f rs => f = f1 ∧ (∃ i, file_at f1 path i content) ∧ scan_content content = Ok rs) (fun _ _ => True)); [|done|].
      { apply h_scan_at. apply (keeps_read [] fs f1 path content); [apply not_elem_of_nil|done|done]. }
      intros rs. apply h_pre with ((∃ i, file_at f1 path i content) ∧ scan_content content = Ok rs); [by intros f []|].
      intros [[i Hi] Hrs]. rewrite <- Hkey in Hsound.
      eapply h_weaken; [by apply (h_write_head f1 i content rs)|by intros f []| |done].
      intros f [] [Hcert Hf]. split; [done|]. by eapply file_at_read. }
  specialize (Hw k fs eq_refl). rewrite Hrun in Hw. destruct Hw as [Hcert Hr]. split; [done|]. by apply certified_verifies.
Qed.
End Written.
End CheckpointRules.
