(* ===== verification/CheckpointDemo.v ===== *)
(** * A signed ledger on a concrete disk

    A scheme whose signature is a keyed hash, a ledger of two records with its
    checkpoint, and the same ledger after its first record was altered. *)

From Stdlib Require Import Ascii String.
From S2P Require Import Prelude GoStd Text JsonText JsonStruct GoTime Sha256 Control FileSystem FileTree TempFiles Ledger LedgerRules LedgerAppend LedgerDemo Signing Checkpoint CheckpointRules.
#[global] Open Scope Z_scope.

Module CheckpointDemo.
Import Ledger LedgerRules LedgerAppend LedgerDemo Checkpoint CheckpointRules.

Lemma substring_size n s : (n <= String.length s)%nat → String.length (String.substring 0 n s) = n.
Proof.
  revert n. induction s as [|x s IH]; intros [|n] H; cbn in *; try done; [lia|]. by rewrite IH by lia.
Qed.

Definition public_of (s : string) : string := String.substring 0 32 (sha256hex s).

Lemma public_length s : String.length (public_of s) = 32%nat.
Proof. apply substring_size. rewrite sha256hex_length. lia. Qed.

Definition a_seed : string := "0123456789abcdef0123456789abcdef".

#[export] Program Instance hashing : Ed25519 := {|
  ed_seed _ := Some a_seed;
  ed_derive := public_of;
  ed_sign priv m := sha256hex (Signing.Public priv +:+ m);
  ed_verify pub m sig := sig ≟ sha256hex (pub +:+ m)
|}.
Next Obligation. by intros k s [= <-]. Qed.
Next Obligation. apply public_length. Qed.
Next Obligation.
  intros s m Hs. apply bool_decide_eq_true_2. do 2 f_equal. unfold Signing.Public.
  rewrite <- Hs at 1. rewrite <- (public_length s) at 1. apply substring_app.
Qed.

(** The type on the first line. *)
Fixpoint cut_line (l : list ascii) : option (list ascii * list ascii) :=
  match l with
  | [] => None
  | c :: l' => if c ≟ newline then Some ([], l') else '(a, b) ← cut_line l'; Some (c :: a, b)
  end.

Definition read_block (s : string) : option (string * string) :=
  '(a, b) ← cut_line (chars s); Some (of_chars a, of_chars b).

Lemma block_back t b : forallb pem_char (chars t) = true → read_block (t +:+ String newline b) = Some (t, b).
Proof.
  intros Ht. unfold read_block. rewrite chars_app.
  assert (H : cut_line (chars t ++ chars (String newline b)) = Some (chars t, chars b)).
  { revert Ht. generalize (chars t). induction l as [|c l IH]; intros Hl; [done|].
    cbn [forallb app cut_line] in *. apply andb_true_iff in Hl as [Hc Hl].
    rewrite bool_decide_eq_false_2 by (by intros ->). by rewrite IH. }
  rewrite H. cbn. unfold of_chars, chars. by rewrite !String.string_of_list_ascii_of_string.
Qed.

#[export] Instance lines : Pem := {|
  pem_encode t b := t +:+ String newline b;
  pem_decode := read_block;
  pem_back := block_back
|}.

#[local] Existing Instance reliable.

Definition key : string := "/k/checkpoint".
Definition signed_state : State := Eval vm_compute in after (WriteCheckpoint path key state2.1 state2.2).

Lemma demo_placed : well_placed path key.
Proof.
  split; [apply (bool_decide_eq_false_1 _)|apply (bool_decide_eq_false_1 _)|split| |]; vm_compute; reflexivity.
Qed.

(** C33, on the ledger of two records, with a key made on the way. *)
Theorem a_written_checkpoint_verifies_witness :
  (VerifyCheckpoint path (checkpoint_key path) signed_state.1 signed_state.2).2 = inr tt.
Proof.
  destruct (a_written_checkpoint_verifies path key demo_placed state2.1 state2.2 signed_state.1 signed_state.2 ledger2)
    as [_ H]; [vm_compute; reflexivity|intros priv Hp; vm_compute in Hp; discriminate Hp|vm_compute; reflexivity|intros j _; reflexivity|].
  rewrite H. reflexivity.
Defined.

Definition signed_checkpoint : Checkpoint := Eval vm_compute in
  default no_checkpoint (unmarshal_checkpoint (contents signed_state.2 (checkpoint_file path))).

(** The blank lines that were put into the ledger do not matter. *)
Definition spaced_state : State := Eval vm_compute in after (WriteFile path spaced signed_state.1 signed_state.2).

(** C17, on the ledger with other blank lines. *)
Theorem a_good_checkpoint_pins_the_ledger_witness :
  ∃ rs rs', scan_content spaced = Ok rs ∧ rs' = verified ledger2 ∧ Forall2 same rs rs'.
Proof.
  set (fs := spaced_state.2).
  destruct (a_good_checkpoint_pins_the_ledger path (checkpoint_key path) spaced_state.1 fs
    (VerifyCheckpoint path (checkpoint_key path) spaced_state.1 fs).1.1
    (VerifyCheckpoint path (checkpoint_key path) spaced_state.1 fs).1.2
    spaced (contents fs (checkpoint_file path)) (contents fs (checkpoint_key path)) (public_of a_seed)
    (fun rs => rs = verified ledger2)) as [_ (rs & rs' & Hrs & -> & Hsame)].
  - vm_compute. reflexivity.
  - vm_compute. reflexivity.
  - vm_compute. reflexivity.
  - vm_compute. reflexivity.
  - intros cp m Hcp Hm _. assert (cp = signed_checkpoint) as ->.
    { vm_compute in Hcp. injection Hcp as <-. vm_compute. reflexivity. }
    exists (verified ledger2), ledger2, (z_instant signed_checkpoint.(cp_CreatedAt)). rewrite <- Hm.
    split_and!; [reflexivity|vm_compute; reflexivity|vm_compute; reflexivity].
  - vm_compute. reflexivity.
  - exists rs, (verified ledger2). split_and!; [done|done|]. apply Hsame.
    assert (rs = verified spaced) as ->. { vm_compute in Hrs. injection Hrs as <-. vm_compute. reflexivity. }
    apply agreeing_no_collision. vm_compute. reflexivity.
Defined.

(** ** A rename that fails

    The second try comes after the old checkpoint was removed. *)

Definition failing (ks : list nat) : OS := {|
  fault i := if bool_decide (i ∈ ks) then Some "input/output error" else None;
  partial _ _ := "";
  dir_size _ := 4096;
  temp_name := @temp_name reliable;
  temp_name_prefix := @temp_name_prefix reliable;
  temp_name_free := @temp_name_free reliable
|}.

Definition rewritten (ks : list nat) : State * bool :=
  let r := WriteCheckpoint (O := failing ks) path key signed_state.1 signed_state.2 in
  (after r, match r.2 with inr _ => true | inl _ => false end).

Example a_checkpoint_is_lost :
  read signed_state.2 (checkpoint_file path) ≠ None ∧
  (rewritten [75; 77]%nat).2 = false ∧ read (rewritten [75; 77]%nat).1.2 (checkpoint_file path) = None.
Proof. split_and!; [by vm_compute|vm_compute; reflexivity|vm_compute; reflexivity]. Qed.
End CheckpointDemo.
