(* ===== verification/Protect.v ===== *)
(** * Protecting objects on a node (erasure_distributed.go)

    The job [protectErasure] works on the files of a node and on the store of the
    control plane: it encodes the large objects, ingests their shards as objects,
    and records who holds them.  Calls on either side may fail. *)

From Stdlib Require Import Ascii String.
From S2P Require Import Prelude GoStd Json GoTime Sha256 Model Payloads SqlStore SqlJobs Objects Config Control FileSystem FileTree ErasureCodec Cas.
#[global] Open Scope Z_scope.

(** ** Programs over files and a store *)

Section Node.
Context {S : Type} {E : Env} {O : OS}.

Definition Node (A : Type) : Type := nat → FS → S → nat * FS * S * (FileError + A).

#[export] Instance node_ret : MRet Node := fun A a k fs s => (k, fs, s, inr a).
#[export] Instance node_bind : MBind Node := fun A B f p k fs s =>
  match p k fs s with
  | (k', fs', s', inr a) => f a k' fs' s'
  | (k', fs', s', inl e) => (k', fs', s', inl e)
  end.

Definition node_fail {A} (e : string) : Node A := fun k fs s => (k, fs, s, inl (Failure e)).

Definition node_try {A} (p : Node A) : Node (FileError + A) := fun k fs s =>
  let '(k', fs', s', r) := p k fs s in (k', fs', s', inr r).

Definition on_disk {A} (p : Disk A) : Node A := fun k fs s =>
  let '(k', fs', r) := p k fs in (k', fs', s, r).

(** A call of the store, which may read the clock twice; one that fails changes
    nothing. *)
Definition on_store {A} (f : Time → Time → S → S * result A) : Node A := fun k fs s =>
  match fault k with
  | Some e => (Datatypes.S k, fs, s, inl (Failure e))
  | None =>
      let '(s', r) := f (clock k) (clock (Datatypes.S k)) s in
      (Datatypes.S (Datatypes.S k), fs, s', match r with Ok a => inr a | Err e => inl (Failure e) end)
  end.
End Node.
Arguments Node S A : clear implicits.

Module Protect.
Import Sql ErasureCodec.

Section Protect.
Context {MO : MapOrder} {E : Env} {O : OS} {T : TempDirs} {RS : ReedSolomon}.
Context (cfg : Config.Config).

Definition erasure_cfg : ErasureConfig := cfg.(cfg_Storage).(sd_Erasure).

Definition label (key : string) : string := TrimSpace (zero_or "" (cfg.(cfg_AgentLabels) !! key)).

Definition localFailureDomain (agentID key : string) : string :=
  if agentID ≟ LocalWorkerAffinity then
    if TrimSpace key ≟ "" then "__local__"
    else if label key ≠? "" then label key else "__local__"
  else if TrimSpace key ≟ "" then "" else label key.

Definition erasureManifestDir (casRoot digest : string) : string :=
  join (join (join casRoot "erasure") (String.substring 0 2 digest)) digest.

Definition payload_limit (t : json_text) : Z :=
  match (fs ← as_obj t; dec_int fs "limit") with Some n => n | None => 0 end.

Definition shard_owner (object : string) (index : Z) : string :=
  "erasure:" +:+ object +:+ ":" +:+ pretty index.

Definition erasure_set (obj : Cas.ObjectInfo) (m : Manifest) : ErasureSet :=
  mkErasureSet obj.(Cas.oi_Digest) obj.(Cas.oi_Bytes) m.(m_DataShards) m.(m_ParityShards) m.(m_BlockBytes) ErasureReady
    m.(m_CreatedAt).(z_instant) time_zero.

Definition shard_row (object agentID domain : string) (sh : Shard) : ErasureShard :=
  mkErasureShard object sh.(sh_Index) sh.(sh_SHA256) agentID domain ShardReady sh.(sh_Bytes) time_zero.

(** A shard becomes an object, gets an owner, and is recorded. *)
Definition protect_shard (store : Cas.Store) (dir object agentID domain : string) (sh : Shard) : Node SQLStore unit :=
  ingested ← on_disk (Cas.Ingest store (join_base dir sh.(sh_Name)));
  if negb (EqualFold ingested.(Cas.ing_SHA256) sh.(sh_SHA256)) then node_fail "erasure shard digest mismatch"
  else
    on_store (fun now later => EnsureObjectRef now later (mkObjectRef sh.(sh_SHA256) "erasure-shard" sh.(sh_Bytes) 0 time_zero)
      (shard_owner object sh.(sh_Index)));;
    on_store (fun now _ => RecordErasureShard now (shard_row object agentID domain sh)).

Fixpoint protect_shards (store : Cas.Store) (dir object agentID domain : string) (l : list Shard) : Node SQLStore unit :=
  match l with
  | [] => mret tt
  | sh :: l' => protect_shard store dir object agentID domain sh;; protect_shards store dir object agentID domain l'
  end.

(** The manifest that is there, or that of a new encoding. *)
Definition manifest_for (obj : Cas.ObjectInfo) (dir : string) : Disk Manifest :=
  m ← try (ReadManifest dir);
  match m with
  | inr m => mret m
  | inl _ => EncodeFile obj.(Cas.oi_Path) dir
      (mkConfig erasure_cfg.(er_DataShards) erasure_cfg.(er_ParityShards) erasure_cfg.(er_BlockBytes))
  end.

Definition protect_object (store : Cas.Store) (agentID domain : string) (obj : Cas.ObjectInfo) : Node SQLStore unit :=
  let dir := erasureManifestDir cfg.(cfg_CASRoot) obj.(Cas.oi_Digest) in
  m ← on_disk (manifest_for obj dir);
  if negb (EqualFold m.(m_ObjectSHA256) obj.(Cas.oi_Digest)) then node_fail "erasure manifest/object mismatch"
  else
    on_store (fun now _ => RecordErasureSet now (erasure_set obj m));;
    protect_shards store dir obj.(Cas.oi_Digest) agentID domain m.(m_Shards).

(** Whether the object is known to be a shard; an error counts as no. *)
Definition is_shard (digest : string) : Node SQLStore bool :=
  r ← node_try (on_store (fun _ _ s => (s, Ok (GetObjectRef digest s))));
  mret match r with inr (ref, ok) => ok && (ref.(Ref_Kind) ≟ "erasure-shard") | inl _ => false end.

Fixpoint protect_objects (store : Cas.Store) (agentID domain : string) (limit : Z) (l : list Cas.ObjectInfo) (protected : Z)
    : Node SQLStore Z :=
  match l with
  | [] => mret protected
  | obj :: l' =>
      if obj.(Cas.oi_Bytes) <? erasure_cfg.(er_MinObjectBytes) then protect_objects store agentID domain limit l' protected
      else
        shard ← is_shard obj.(Cas.oi_Digest);
        if shard : bool then protect_objects store agentID domain limit l' protected
        else
          protect_object store agentID domain obj;;
          let protected := protected + 1 in
          if (0 <? limit) && (limit <=? protected) then mret protected
          else protect_objects store agentID domain limit l' protected
  end.

Definition protectErasure (job : Job) : Node SQLStore unit :=
  if negb erasure_cfg.(er_Enabled) then mret tt
  else
    let store := Cas.New cfg.(cfg_CASRoot) 0 in
    objects ← on_disk (Cas.ListObjects store);
    let agentID := TrimSpace job.(Job_LeaseOwner) in
    let agentID := if agentID ≟ "" then LocalWorkerAffinity else agentID in
    let domain := localFailureDomain agentID erasure_cfg.(er_FailureDomainLabel) in
    protect_objects store agentID domain (payload_limit job.(Job_Payload)) objects 0;;
    mret tt.
End Protect.

(** ** What is recorded is held *)

Section Rules.
Context {MO : MapOrder} {E : Env} {O : OS} {T : TempDirs} {RS : ReedSolomon}.
Implicit Types (s : SQLStore).

(** Triples on the store, whatever the files are. *)
Definition stores {A} (P : SQLStore → Prop) (p : Node SQLStore A) (Q : SQLStore → A → Prop) (X : SQLStore → Prop) : Prop :=
  ∀ k fs s, P s → match p k fs s with (_, _, s', inr a) => Q s' a | (_, _, s', inl _) => X s' end.

Lemma s_ret {A} (P : SQLStore → Prop) (a : A) X : stores P (mret a) (fun s _ => P s) X.
Proof. by intros k fs s Hs. Qed.

Lemma s_fail {A} (P : SQLStore → Prop) (e : string) (Q : SQLStore → A → Prop) : stores P (node_fail e) Q P.
Proof. by intros k fs s Hs. Qed.

Lemma s_bind {A B} P (p : Node SQLStore A) (f : A → Node SQLStore B) Q' Q X :
  stores P p Q' X → (∀ a, stores (fun s => Q' s a) (f a) Q X) → stores P (p ≫= f) Q X.
Proof.
  intros Hp Hf k fs s HP. specialize (Hp k fs s HP). unfold mbind, node_bind.
  destruct (p k fs s) as [[[k' fs'] s'] [e|a]]; [done|]. by apply Hf.
Qed.

Lemma s_disk {A} P (p : Disk A) : stores P (on_disk p) (fun s _ => P s) P.
Proof. intros k fs s HP. unfold on_disk. by destruct (p k fs) as [[k' fs'] [e|a]]. Qed.

Lemma s_store {A} (P : SQLStore → Prop) (f : Time → Time → SQLStore → SQLStore * result A) (Q : SQLStore → A → Prop) :
  (∀ t u s s' r, P s → f t u s = (s', r) → P s' ∧ ∀ a, r = Ok a → Q s' a) → stores P (on_store f) Q P.
Proof.
  intros Hf k fs s HP. unfold on_store. destruct (fault k); [done|].
  destruct (f (clock k) (clock (Datatypes.S k)) s) as [s' r] eqn:Er. destruct (Hf _ _ _ _ _ HP Er) as [H1 H2].
  destruct r as [a|e]; [by apply H2|done].
Qed.

Lemma s_try {A} (P : SQLStore → Prop) (p : Node SQLStore A) :
  stores P p (fun s _ => P s) P → stores P (node_try p) (fun s _ => P s) P.
Proof. intros Hp k fs s HP. specialize (Hp k fs s HP). unfold node_try. by destruct (p k fs s) as [[[k' fs'] s'] [e|a]]. Qed.

(** Somebody owns the object, so it is not collected. *)
Definition held s (digest : string) : Prop := ∃ o, is_Some (s.(object_ref_owners) !! (Objects.norm digest, o)).

(** Only four tables have changed, the counts are right, and every shard that was
    added or changed is held. *)
Record recorded (s0 s : SQLStore) : Prop := {
  rc_counts : Objects.refs_wf s;
  rc_others : ∃ owners refs sets shards, s = s0 <| object_ref_owners := owners |> <| object_refs := refs |>
    <| erasure_sets := sets |> <| erasure_shards := shards |>;
  rc_shards key row : s.(erasure_shards) !! key = Some row →
    s0.(erasure_shards) !! key = Some row ∨ held s row.(Shard_ShardSHA256)
}.

Lemma s_ensure s0 ref owner :
  stores (recorded s0) (on_store (fun now later => EnsureObjectRef now later ref owner))
    (fun s _ => recorded s0 s ∧ held s ref.(Ref_Digest)) (recorded s0).
Proof.
  apply s_store. intros t u s s' r [H1 H2 H3] He. destruct (Objects.Ensure_inv _ _ _ _ _ _ _ H1 He) as (G1 & G2 & G3).
  assert (Hsh : s'.(erasure_shards) = s.(erasure_shards) ∧ ∃ owners refs sets shards,
    s' = s0 <| object_ref_owners := owners |> <| object_refs := refs |> <| erasure_sets := sets |> <| erasure_shards := shards |>).
  { destruct H2 as (a & b & c & d & ->). unfold EnsureObjectRef in He.
    repeat case_match; injection He as <- _; (split; [done|]); by repeat eexists. }
  destruct Hsh as [Hsh Hoth]. split.
  - split; [done|done|]. intros key row Hrow. rewrite Hsh in Hrow. destruct (H3 key row Hrow) as [|[o Ho]]; [by left|right].
    exists o. by apply G3.
  - intros b Hb. split; [|eexists; by apply (G2 b)]. split; [done|done|]. intros key row Hrow. rewrite Hsh in Hrow.
    destruct (H3 key row Hrow) as [|[o Ho]]; [by left|right]. exists o. by apply G3.
Qed.

Lemma s_record_set s0 e : stores (recorded s0) (on_store (fun now _ => RecordErasureSet now e)) (fun s _ => recorded s0 s) (recorded s0).
Proof.
  apply s_store. intros t u s s' r [H1 (a & b & c & d & ->) H3] Hr.
  assert (recorded s0 s'); [|done]. unfold RecordErasureSet in Hr. case_match; injection Hr as <- _.
  - split; [done|by repeat eexists|done].
  - split; [by destruct H1|by repeat eexists|done].
Qed.

Lemma s_record_shard s0 row :
  stores (fun s => recorded s0 s ∧ held s row.(Shard_ShardSHA256)) (on_store (fun now _ => RecordErasureShard now row))
    (fun s _ => recorded s0 s) (fun s => recorded s0 s ∧ held s row.(Shard_ShardSHA256)).
Proof.
  apply s_store. intros t u s s' r [[H1 (a & b & c & d & ->) H3] [o Ho]] Hr.
  assert (recorded s0 s' ∧ held s' row.(Shard_ShardSHA256)) as [? ?]; [|done].
  unfold RecordErasureShard in Hr. repeat case_match; injection Hr as <- _.
  - split; [split; [done|by repeat eexists|done]|by exists o].
  - split; [|by exists o]. split; [by destruct H1|by repeat eexists|]. intros key row' Hrow. cbn in Hrow. unfold upsert in Hrow.
    destruct (decide (key = shard_key (row <| Shard_UpdatedAt := t |>))) as [->|Hk].
    + rewrite lookup_insert_eq in Hrow. right. exists o.
      destruct (d !! _); injection Hrow as <-; exact Ho.
    + rewrite lookup_insert_ne in Hrow by done. by apply H3.
  - split; [split; [done|by repeat eexists|done]|by exists o].
Qed.

Lemma s_weaken {A} P' P (p : Node SQLStore A) Q' Q X' X :
  stores P' p Q' X' → (∀ s, P s → P' s) → (∀ s a, Q' s a → Q s a) → (∀ s, X' s → X s) → stores P p Q X.
Proof.
  intros H HP HQ HX k fs s Hs. specialize (H k fs s (HP s Hs)).
  destruct (p k fs s) as [[[k' fs'] s'] [e|a]]; auto.
Qed.

Context (cfg : Config.Config).

Lemma s_protect_shards s0 store dir object agentID domain l :
  stores (recorded s0) (protect_shards store dir object agentID domain l) (fun s _ => recorded s0 s) (recorded s0).
Proof.
  induction l as [|sh l IH]; cbn [protect_shards]; [apply s_ret|].
  apply (s_bind _ _ _ (fun s _ => recorded s0 s)); [|intros _; exact IH]. unfold protect_shard.
  eapply s_bind; [apply s_disk|]. intros ingested. destruct (negb _); [apply s_fail|].
  eapply s_bind; [apply s_ensure|]. intros b.
  eapply s_weaken; [apply (s_record_shard s0 (shard_row object agentID domain sh))|done|done|by intros s []].
Qed.

Lemma s_protect_objects s0 store agentID domain limit l n :
  stores (recorded s0) (protect_objects cfg store agentID domain limit l n) (fun s _ => recorded s0 s) (recorded s0).
Proof.
  revert n. induction l as [|obj l IH]; intros n; cbn [protect_objects]; [apply s_ret|].
  destruct (_ <? _); [apply IH|]. apply (s_bind _ _ _ (fun s _ => recorded s0 s)).
  { unfold is_shard. eapply s_bind; [|intros r; apply s_ret]. apply s_try, s_store. by intros t u s s' r H [= <- <-]. }
  intros [|]; [apply IH|]. apply (s_bind _ _ _ (fun s _ => recorded s0 s)); [|intros _; destruct (_ && _); [apply s_ret|apply IH]].
  unfold protect_object. eapply s_bind; [apply s_disk|]. intros m. destruct (negb _); [apply s_fail|].
  eapply s_bind; [apply s_record_set|]. intros []. apply s_protect_shards.
Qed.

(** Whatever calls fail on the disk or in the store, the shards that a protection
    job has put on record, or changed, when it ends or breaks off are protected
    from garbage collection, at any time from then on until their owners release
    them; and the job has written the objects' owners and counts, the erasure sets
    and their shards, and no other table. *)
Theorem recorded_shards_are_protected job k fs s k' fs' s' r :
  Objects.refs_wf s → protectErasure cfg job k fs s = (k', fs', s', r) →
  (∃ owners refs sets shards, s' = s <| object_ref_owners := owners |> <| object_refs := refs |>
     <| erasure_sets := sets |> <| erasure_shards := shards |>) ∧
  ∀ key row, s'.(erasure_shards) !! key = Some row →
    s.(erasure_shards) !! key = Some row ∨
    ∀ now, Objects.norm row.(Shard_ShardSHA256) ∈ ProtectedObjectDigests now s'.
Proof.
  intros Hwf Hrun.
  assert (H : stores (recorded s) (protectErasure cfg job) (fun s' _ => recorded s s') (recorded s)).
  { unfold protectErasure. destruct (negb _); [apply s_ret|].
    eapply s_bind; [apply s_disk|]. intros objects. eapply s_bind; [apply s_protect_objects|]. intros n. apply s_ret. }
  assert (H0 : recorded s s).
  { split; [done| |by left]. exists s.(object_ref_owners), s.(object_refs), s.(erasure_sets), s.(erasure_shards). by destruct s. }
  specialize (H k fs s H0). rewrite Hrun in H.
  assert (recorded s s') as [H1 H2 H3] by by destruct r. split; [done|]. intros key row Hrow.
  destruct (H3 key row Hrow) as [|Ho]; [by left|right]. intros now. apply Objects.elem_of_protected. left.
  apply (Objects.owned_iff _ _ H1) in Ho. unfold Objects.refcount in Ho.
  destruct (object_refs s' !! _) as [ref|] eqn:Eref; [|lia].
  exists (Objects.norm row.(Shard_ShardSHA256)), ref. split_and!; [done|by apply (Objects.refs_digest _ H1)|done].
Qed.
End Rules.
End Protect.
