(* ===== verification/ProtectDemo.v ===== *)
(** * A protection job on a concrete node

    An object whose erasure set is on the disk, and the disk full at the third
    shard. *)

From Stdlib Require Import Ascii String.
From S2P Require Import Prelude GoStd Json GoTime Sha256 Model Payloads SqlStore SqlJobs Objects Config Control FileSystem FileTree ErasureCodec CodecDemo Cas Protect.
#[global] Open Scope Z_scope.

Module ProtectDemo.
Import Sql ErasureCodec Protect.

#[local] Existing Instances CodecDemo.env CodecDemo.xor_code CodecDemo.long_dirs.

(** A node on which one call fails. *)
Definition failing (k : nat) : OS := {|
  fault i := if (i =? k)%nat then Some "no space left on device" else None;
  partial _ _ := "";
  dir_size _ := 4096;
  temp_name := @temp_name reliable;
  temp_name_prefix := @temp_name_prefix reliable;
  temp_name_free := @temp_name_free reliable
|}.

Definition sum : string := Eval vm_compute in sha256hex "hello".
Definition texts : list string := ["s0"; "s1"; "s2"].
Definition set_dir : string := Eval vm_compute in erasureManifestDir "/cas" sum.

Definition manifest : Manifest :=
  mkManifest 1 sum 5 2 1 65536 1 (UTC (clock 0)) (imap (fun i t => mkShard (Z.of_nat i) (shard_name i) 2 (sha256hex t)) texts).

Definition node_disk : FS := Eval vm_compute in
  from_files ((Cas.blobPath (Cas.New "/cas" 0) sum, "hello") :: (join set_dir "manifest.json", manifest_text manifest) ::
    imap (fun i t => (join set_dir (shard_name i), t)) texts).

Definition config : Config.Config :=
  zero_Config <| cfg_CASRoot := "/cas" |>
    <| cfg_Storage := zero_StorageDataConfig
         <| sd_Erasure := zero_Config.(cfg_Storage).(sd_Erasure) <| er_Enabled := true |> <| er_MinObjectBytes := 4 |> |> |>.

Definition outcome (k : nat) (fs : FS) (s : SQLStore) :=
  protectErasure (O := failing k) config (zero_Job <| Job_LeaseOwner := "node-1" |>) 0%nat fs s.

Definition rows (k : nat) : list (Z * string) :=
  (fun r => (r.(Shard_ShardIndex), r.(Shard_AgentID))) <$> (map_to_list (outcome k node_disk empty_store).1.2.(erasure_shards)).*2.

(** The job breaks off with one shard on record, *)
Example broken_off :
  rows 30 = [(0, "node-1")] ∧ (outcome 30 node_disk empty_store).2 = inl (Failure "no space left on device").
Proof. split; vm_compute; reflexivity. Qed.

Definition first_row : ErasureShard := Eval vm_compute in
  mkErasureShard sum 0 (sha256hex "s0") "node-1" "" "ready" 2 (clock 0).

Lemma first_recorded : (outcome 30 node_disk empty_store).1.2.(erasure_shards) !! (sum, 0, "node-1") = Some first_row.
Proof. vm_compute. reflexivity. Qed.

Lemma nothing_recorded key row : empty_store.(erasure_shards) !! key = Some row → False.
Proof. change (erasure_shards empty_store) with (∅ : gmap (string * Z * string) ErasureShard). by rewrite lookup_empty. Qed.

Lemma result_parts {A B C D} (x : A * B * C * D) : x = (x.1.1.1, x.1.1.2, x.1.2, x.2).
Proof. by destruct x as [[[a b] c] d]. Qed.

(** which is protected. *)
Theorem recorded_shards_are_protected_witness :
  Objects.norm first_row.(Shard_ShardSHA256) ∈ ProtectedObjectDigests (clock 0) (outcome 30 node_disk empty_store).1.2.
Proof.
  destruct (recorded_shards_are_protected (O := failing 30) config (zero_Job <| Job_LeaseOwner := "node-1" |>) 0%nat
    node_disk empty_store _ _ _ _ Objects.refs_wf_empty (result_parts _)) as [_ H].
  destruct (H _ _ first_recorded) as [H1|H1]; [destruct (nothing_recorded _ _ H1)|exact (H1 (clock 0))].
Defined.
End ProtectDemo.
