(* ===== verification/WebAuth.v ===== *)
(** * Signing in to the console ([internal/webauth/auth.go])

    OpenID Connect in front of the console: a login at the provider, the callback
    that turns an ID token into a sealed session cookie, and the checks of later
    requests.  The provider and the client library that speaks to it are
    parameters, AES-GCM is a cipher with its law. *)

From Stdlib Require Import Ascii String.
From S2P Require Import Prelude GoStd Text JsonText JsonStruct GoTime Sha256 Model Config Settings Control FileSystem FileTree Signing.
#[global] Open Scope Z_scope.

(** ** [base64.RawURLEncoding] *)

Module RawURL.

Definition url_char (c : ascii) : ascii := if c ≟ "+"%char then "-"%char else if c ≟ "/"%char then "_"%char else c.

(** The standard symbol of a character, if it has one. *)
Definition std_char (c : ascii) : option ascii :=
  if c ≟ "-"%char then Some "+"%char else if c ≟ "_"%char then Some "/"%char
  else if (c ≟ "+"%char) || (c ≟ "/"%char) || (c ≟ Base64.pad) then None else Some c.

Definition encode (l : list ascii) : list ascii :=
  url_char <$> List.filter (fun c => c ≠? Base64.pad) (Base64.encode l).

(** The padding that is left out. *)
Definition missing_pad (n : nat) : list ascii :=
  match (n mod 4)%nat with 2%nat => [Base64.pad; Base64.pad] | 3%nat => [Base64.pad] | _ => [] end.

Definition decode (l : list ascii) : option (list ascii) :=
  l' ← mapM std_char l; Base64.decode (l' ++ missing_pad (length l')).

Definition EncodeToString (s : string) : string := of_chars (encode (chars s)).

Definition DecodeString (s : string) : option string :=
  of_chars <$> decode (List.filter (fun c => negb (Base64.line_break c)) (chars s)).
End RawURL.

(** ** Randomness, the cipher, the provider *)

(** The bytes that [rand.Reader] yields at a call. *)
Class Random := {
  entropy : nat → Z → option string;
  entropy_size k n b : entropy k n = Some b → slen b = n
}.

(** An authenticated cipher. *)
Class Aead := {
  nonce_size : Z;
  aead_seal : string → string → string → string → string;
  aead_open : string → string → string → string → option string;
  nonce_positive : 0 < nonce_size;
  seal_longer key nonce plain ad : 0 < slen (aead_seal key nonce plain ad);
  aead_correct key nonce plain ad :
    slen nonce = nonce_size → aead_open key nonce (aead_seal key nonce plain ad) ad = Some plain
}.

(** What a verified ID token says; the claims are JSON. *)
Record IDToken := mkIDToken { tok_Nonce : string; tok_Expiry : Time; tok_Claims : string }.

(** The configuration that is handed to the client library. *)
Record oauth_config := mkOauth {
  oa_ClientID : string;
  oa_ClientSecret : string;
  oa_Endpoint : string;
  oa_RedirectURL : string;
  oa_Scopes : list string
}.

(** The packages [oidc] and [oauth2], and the provider behind them: discovery,
    the address of a login, the exchange of a code for an ID token, and the
    verification of that token; the number of the call stands for the time. *)
Class Oidc := {
  oidc_NewProvider : string → nat → result string;
  oauth_GenerateVerifier : nat → string;
  oauth_AuthCodeURL : oauth_config → string → string → list (string * string) → string;
  oauth_Exchange : oauth_config → string → string → nat → result (option string);
  oidc_Verify : string → string → string → nat → result IDToken
}.

Module WebAuth.
Import Settings.

(** ** Requests and responses *)

(** The parts of an HTTP request that are read; a form may be malformed. *)
Record Request := mkRequest {
  rq_Cookies : list (string * string);
  rq_Query : list (string * string);
  rq_Header : list (string * string);
  rq_Form : option (list (string * string))
}.

Inductive SameSite := Lax | Strict.

Record Cookie := mkCookie {
  ck_Name : string;
  ck_Value : string;
  ck_MaxAge : Z;
  ck_HttpOnly : bool;
  ck_Secure : bool;
  ck_SameSite : SameSite
}.

(** What has been written: the cookies, and the status with its text. *)
Record Writer := mkWriter { wr_Cookies : list Cookie; wr_Status : option (Z * string) }.

Definition blank : Writer := mkWriter [] None.

Definition lookup_first (k : string) (l : list (string * string)) : option string :=
  snd <$> List.find (fun kv => kv.1 ≟ k) l.

Definition cookie (rq : Request) (name : string) : option string := lookup_first name rq.(rq_Cookies).
Definition query (rq : Request) (name : string) : string := default "" (lookup_first name rq.(rq_Query)).
Definition header (rq : Request) (name : string) : string :=
  default "" (snd <$> List.find (fun kv => EqualFold kv.1 name) rq.(rq_Header)).

Section Writing.
Context {E : Env}.

Definition SetCookie (c : Cookie) : Prog Writer unit :=
  fun i w => (i, mkWriter (w.(wr_Cookies) ++ [c]) w.(wr_Status), Ok tt).

(** [http.Error] and [http.Redirect]; only the first status counts. *)
Definition respond (status : Z) (text : string) : Prog Writer unit :=
  fun i w => (i, mkWriter w.(wr_Cookies) (match w.(wr_Status) with Some s => Some s | None => Some (status, text) end), Ok tt).

(** A call whose error the caller looks at. *)
Definition ptry {S A} (p : Prog S A) : Prog S (result A) := fun i s =>
  let '(i', s', r) := p i s in (i', s', Ok r).

Definition of_result {S A} (r : result A) : Prog S A := fun i s => (i, s, r).

Definition of_option {S A} (o : option A) (e : string) : Prog S A :=
  match o with Some a => pret a | None => pfail e end.

(** A call of something that answers by the number of the call. *)
Definition outside {S A} (f : nat → result A) : Prog S A := fun i s => (Datatypes.S i, s, f i).
End Writing.

(** ** Roles *)

Inductive Role := RoleNone | RoleViewer | RoleOperator | RoleAdmin.

#[export] Instance Role_eq_dec : EqDecision Role.
Proof. solve_decision. Defined.

(** The [int] behind a role. *)
Definition rank (r : Role) : Z :=
  match r with RoleNone => 0 | RoleViewer => 1 | RoleOperator => 2 | RoleAdmin => 3 end.

Definition role_string (r : Role) : string :=
  match r with RoleViewer => "viewer" | RoleOperator => "operator" | RoleAdmin => "admin" | RoleNone => "none" end.

Definition roleFromString (s : string) : Role :=
  if ToLower s ≟ "admin" then RoleAdmin else if ToLower s ≟ "operator" then RoleOperator
  else if ToLower s ≟ "viewer" then RoleViewer else RoleNone.

Definition group_key (g : string) : string := ToLower (TrimSpace g).

Definition group_match (groups xs : list string) : bool :=
  existsb (fun x => bool_decide (group_key x ∈ group_key <$> groups)) xs.

Definition roleForGroups (groups : list string) (cfg : WebAuthConfig) : Role :=
  if group_match groups cfg.(web_AdminGroups) then RoleAdmin
  else if group_match groups cfg.(web_OperatorGroups) then RoleOperator
  else if group_match groups cfg.(web_ViewerGroups) then RoleViewer
  else RoleNone.

(** ** Identities as JSON *)

Record Identity := mkIdentity {
  id_Subject : string;
  id_CSRF : string;
  id_Email : string;
  id_Groups : list string;
  id_AMR : list string;
  id_ACR : string;
  id_Role : string;
  id_Expires : Z
}.

#[export] Instance Identity_settable : Settable Identity :=
  fun r => mkIdentity (r.(id_Subject)) (r.(id_CSRF)) (r.(id_Email)) (r.(id_Groups)) (r.(id_AMR)) (r.(id_ACR)) (r.(id_Role)) (r.(id_Expires)).

Definition no_identity : Identity := mkIdentity "" "" "" [] [] "" "" 0.

Definition text_unless_empty (k s : string) : list (string * value) := if s ≟ "" then [] else [(k, VStr s)].
Definition list_unless_empty (k : string) (l : list string) : list (string * value) :=
  match l with [] => [] | _ => [(k, VArr (VStr <$> l))] end.

Definition identity_value (id : Identity) : value := VObj (
  [("sub", VStr id.(id_Subject)); ("csrf", VStr id.(id_CSRF))] ++
  text_unless_empty "email" id.(id_Email) ++ list_unless_empty "groups" id.(id_Groups) ++
  list_unless_empty "amr" id.(id_AMR) ++ text_unless_empty "acr" id.(id_ACR) ++
  [("role", VStr id.(id_Role)); ("exp", VNum (int_text id.(id_Expires)))]).

(** Strings are decoded over the elements that the slice has. *)
Fixpoint dec_elements (old : list string) (l : list value) : option (list string) :=
  match l with
  | [] => Some []
  | v :: l' =>
      s ← dec_text v (default "" (head old));
      rest ← dec_elements (tail old) l';
      Some (s :: rest)
  end.

Definition dec_strings (v : value) (old : list string) : option (list string) :=
  match v with VNull => Some [] | VArr l => dec_elements old l | _ => None end.

Definition identity_tags : list (string * (value → Identity → option Identity)) :=
  [("sub", fun v r => (fun x => r <| id_Subject := x |>) <$> dec_text v r.(id_Subject));
   ("csrf", fun v r => (fun x => r <| id_CSRF := x |>) <$> dec_text v r.(id_CSRF));
   ("email", fun v r => (fun x => r <| id_Email := x |>) <$> dec_text v r.(id_Email));
   ("groups", fun v r => (fun x => r <| id_Groups := x |>) <$> dec_strings v r.(id_Groups));
   ("amr", fun v r => (fun x => r <| id_AMR := x |>) <$> dec_strings v r.(id_AMR));
   ("acr", fun v r => (fun x => r <| id_ACR := x |>) <$> dec_text v r.(id_ACR));
   ("role", fun v r => (fun x => r <| id_Role := x |>) <$> dec_text v r.(id_Role));
   ("exp", fun v r => (fun x => r <| id_Expires := x |>) <$> dec_integer v r.(id_Expires))].

Definition unmarshal_identity (b : string) : option Identity := unmarshal identity_tags no_identity b.

(** The claims that the callback reads. *)
Record Claims := mkClaims {
  cl_Subject : string;
  cl_Email : string;
  cl_Groups : list string;
  cl_AMR : list string;
  cl_ACR : string
}.

#[export] Instance Claims_settable : Settable Claims :=
  fun r => mkClaims (r.(cl_Subject)) (r.(cl_Email)) (r.(cl_Groups)) (r.(cl_AMR)) (r.(cl_ACR)).

Definition claims_tags : list (string * (value → Claims → option Claims)) :=
  [("sub", fun v r => (fun x => r <| cl_Subject := x |>) <$> dec_text v r.(cl_Subject));
   ("email", fun v r => (fun x => r <| cl_Email := x |>) <$> dec_text v r.(cl_Email));
   ("groups", fun v r => (fun x => r <| cl_Groups := x |>) <$> dec_strings v r.(cl_Groups));
   ("amr", fun v r => (fun x => r <| cl_AMR := x |>) <$> dec_strings v r.(cl_AMR));
   ("acr", fun v r => (fun x => r <| cl_ACR := x |>) <$> dec_text v r.(cl_ACR))].

Definition unmarshal_claims (b : string) : option Claims := unmarshal claims_tags (mkClaims "" "" [] [] "") b.

(** [map[string]json.RawMessage]: the last value of a key. *)
Definition raw_claim (b k : string) : option (option value) :=
  v ← parse b;
  match v with
  | VNull => Some None
  | VObj fs => Some (snd <$> List.find (fun kv => kv.1 ≟ k) (rev fs))
  | _ => None
  end.

(** The claims, with the groups from the claim that the configuration names. *)
Definition token_claims (cfg : WebAuthConfig) (b : string) : result Claims :=
  match unmarshal_claims b with
  | None => Err "json: cannot unmarshal"
  | Some claims =>
      let claim := TrimSpace cfg.(web_GroupClaim) in
      if (claim ≠? "") && (claim ≠? "groups") then
        match raw_claim b claim with
        | None => Err "json: cannot unmarshal"
        | Some None => Ok (claims <| cl_Groups := [] |>)
        | Some (Some v) =>
            match dec_strings v claims.(cl_Groups) with
            | Some groups => Ok (claims <| cl_Groups := groups |>)
            | None => Err ("OIDC group claim " +:+ claim +:+ " is not a string array")
            end
        end
      else Ok claims
  end.

(** ** The manager *)

Record Manager := mkManager { m_cfg : WebAuthConfig; m_oauth : oauth_config; m_key : string }.

Definition oidcScopes_step (out : list string) (scope : string) : list string :=
  let scope := TrimSpace scope in
  if (scope ≟ "") || bool_decide (scope ∈ out) then out else out ++ [scope].

Definition oidcScopes (configured : list string) : list string := foldl oidcScopes_step ["openid"] configured.

(** [sha256.Sum256] *)
Definition Sum256 (s : string) : string := of_chars (Base64.byte <$> sha256 (bytes_of s)).

Section Manager.
Context {E : Env} {R : Random} {A : Aead} {P : Oidc}.

(** [None] is the manager of a console without authentication. *)
Definition New (getenv : string → string) (cfg : WebAuthConfig) : Prog Writer (option Manager) :=
  if negb cfg.(web_Enabled) then mret None
  else if ToLower (TrimSpace cfg.(web_Mode)) ≠? "oidc" then pfail "unsupported web auth mode"
  else
    let secret := TrimSpace (getenv cfg.(web_ClientSecretEnv)) in
    if secret ≟ "" then pfail (cfg.(web_ClientSecretEnv) +:+ " is not set")
    else
      let session := getenv cfg.(web_SessionKeyEnv) in
      if session ≟ "" then pfail (cfg.(web_SessionKeyEnv) +:+ " is not set")
      else if slen session <? 32 then pfail (cfg.(web_SessionKeyEnv) +:+ " must contain at least 32 bytes")
      else
        endpoint ← outside (oidc_NewProvider cfg.(web_Issuer));
        mret (Some (mkManager cfg
          (mkOauth cfg.(web_ClientID) secret endpoint cfg.(web_RedirectURL) (oidcScopes cfg.(web_Scopes)))
          (Sum256 session))).

Definition randomToken {S} (n : Z) : Prog S string :=
  if n <=? 0 then pfail "random token length must be positive"
  else
    b ← outside (fun k => match entropy k n with Some b => Ok b | None => Err "generate random token" end);
    mret (RawURL.EncodeToString b).

Definition tempCookie (cfg : WebAuthConfig) (name value : string) (age : Z) : Cookie :=
  mkCookie name value age true cfg.(web_SecureCookies) Lax.
Definition setOIDCTempCookie (cfg : WebAuthConfig) (name value : string) : Prog Writer unit :=
  SetCookie (tempCookie cfg name value 600).
Definition clearOIDCTempCookie (cfg : WebAuthConfig) (name : string) : Prog Writer unit :=
  SetCookie (tempCookie cfg name "" (-1)).

Context (m : Manager).

Definition login_options (nonce : string) (stepUp : bool) : list (string * string) :=
  [("nonce", nonce)] ++
  if stepUp then
    [("prompt", "login")] ++
    match m.(m_cfg).(web_StepUpACRValues) with
    | [] => []
    | l => [("acr_values", String.concat " " l)]
    end
  else [].

Definition beginLogin (stepUp : bool) : Prog Writer unit :=
  state ← randomToken 32;
  nonce ← randomToken 32;
  verifier ← outside (fun k => Ok (oauth_GenerateVerifier k));
  setOIDCTempCookie m.(m_cfg) "repoark_oidc_state" state;;
  setOIDCTempCookie m.(m_cfg) "repoark_oidc_nonce" nonce;;
  setOIDCTempCookie m.(m_cfg) "repoark_oidc_verifier" verifier;;
  respond 302 (oauth_AuthCodeURL m.(m_oauth) state verifier (login_options nonce stepUp)).

Definition begin_or_error (stepUp : bool) : Prog Writer unit :=
  r ← ptry (beginLogin stepUp);
  match r with Ok _ => mret tt | Err _ => respond 500 "authentication initialization failed" end.

Definition Login : Prog Writer unit := begin_or_error false.
Definition StepUp : Prog Writer unit := begin_or_error true.

(** *** Sessions *)

Definition session_context : string := "repoark-web-session-v1".

Definition seal {S} (id : Identity) : Prog S string :=
  nonce ← outside (fun k => match entropy k nonce_size with Some b => Ok b | None => Err "rand.Read" end);
  mret (RawURL.EncodeToString (nonce +:+ aead_seal m.(m_key) nonce (Marshal (identity_value id)) session_context)).

(** [t.Unix()] *)
Definition Unix (t : Time) : Z := t / Second - 62135596800.

(** What a cookie seals, if it opens. *)
Definition opened (v : string) : option string :=
  raw ← RawURL.DecodeString v;
  if slen raw <=? nonce_size then None
  else aead_open m.(m_key) (String.substring 0 (Z.to_nat nonce_size) raw)
         (String.substring (Z.to_nat nonce_size) (String.length raw - Z.to_nat nonce_size) raw) session_context.

Definition open {S} (v : string) : Prog S Identity :=
  plain ← of_option (opened v) "invalid session";
  id ← of_option (unmarshal_identity plain) "json: cannot unmarshal";
  now ← pnow;
  if id.(id_Expires) <=? Unix now then pfail "session expired" else mret id.

Definition IdentityOf {S} (rq : Request) : Prog S Identity :=
  c ← of_option (cookie rq "repoark_session") "http: named cookie not present";
  open c.

(** *** The callback *)

(** A value that a login cookie must hold. *)
Definition login_cookie {S} (rq : Request) (name e : string) : Prog S string :=
  match cookie rq name with
  | Some v => if v ≟ "" then pfail e else mret v
  | None => pfail e
  end.

(** The verified ID token of a login that this browser began. *)
Definition login_token {S} (rq : Request) : Prog S IDToken :=
  state ← login_cookie rq "repoark_oidc_state" "OIDC state mismatch";
  if state ≠? query rq "state" then pfail "OIDC state mismatch"
  else
    nonce ← login_cookie rq "repoark_oidc_nonce" "OIDC nonce missing";
    verifier ← login_cookie rq "repoark_oidc_verifier" "OIDC PKCE verifier missing";
    let code := TrimSpace (query rq "code") in
    if code ≟ "" then pfail "OIDC code missing"
    else
      tok ← outside (oauth_Exchange m.(m_oauth) code verifier);
      match tok with
      | Some raw =>
          if raw ≟ "" then pfail "OIDC id_token missing"
          else
            idToken ← outside (oidc_Verify m.(m_oauth).(oa_Endpoint) m.(m_oauth).(oa_ClientID) raw);
            if idToken.(tok_Nonce) ≠? nonce then pfail "OIDC nonce mismatch" else mret idToken
      | None => pfail "OIDC id_token missing"
      end.

Definition session_expiry (now : Time) (tok : IDToken) : Time :=
  let expiry := time_add now (8 * Hour) in
  if negb (IsZero tok.(tok_Expiry)) && Before tok.(tok_Expiry) expiry then tok.(tok_Expiry) else expiry.

(** Who has signed in, and until when. *)
Definition new_identity {S} (rq : Request) : Prog S (Identity * Time) :=
  tok ← login_token rq;
  claims ← of_result (token_claims m.(m_cfg) tok.(tok_Claims));
  let role := roleForGroups claims.(cl_Groups) m.(m_cfg) in
  if bool_decide (role = RoleNone) then pfail "OIDC identity has no RepoArk role"
  else
    now ← pnow;
    let expiry := session_expiry now tok in
    if negb (After expiry now) then pfail "OIDC id_token is already expired"
    else
      csrf ← randomToken 24;
      mret (mkIdentity claims.(cl_Subject) csrf claims.(cl_Email) claims.(cl_Groups) claims.(cl_AMR) claims.(cl_ACR)
              (role_string role) (Unix expiry), expiry).

Definition sessionCookie (v : string) (age : Z) : Cookie :=
  mkCookie "repoark_session" v age true m.(m_cfg).(web_SecureCookies) Strict.

Definition Callback (rq : Request) : Prog Writer unit :=
  x ← new_identity rq;
  sealed ← seal x.1;
  now ← pnow;
  SetCookie (sessionCookie sealed (Z.quot (time_sub x.2 now) Second));;
  clearOIDCTempCookie m.(m_cfg) "repoark_oidc_state";;
  clearOIDCTempCookie m.(m_cfg) "repoark_oidc_nonce";;
  clearOIDCTempCookie m.(m_cfg) "repoark_oidc_verifier".

Definition Logout : Prog Writer unit := SetCookie (sessionCookie "" (-1)).

(** *** The checks of later requests *)

Definition has_amr (id : Identity) (required : string) : bool :=
  bool_decide (ToLower (TrimSpace required) ∈ ToLower <$> id.(id_AMR)).

Definition Authorize {S} (rq : Request) (minimum : Role) (requireStepUp : bool) : Prog S Identity :=
  id ← IdentityOf rq;
  if rank (roleFromString id.(id_Role)) <? rank minimum then pfail ("role " +:+ id.(id_Role) +:+ " is insufficient")
  else if requireStepUp && negb (forallb (has_amr id) m.(m_cfg).(web_RequiredAMR))
  then pfail "OIDC step-up requirement missing from amr"
  else mret id.

(** The token that is sent along, in the header or the form. *)
Definition provided_csrf (rq : Request) : result string :=
  let h := TrimSpace (header rq "X-CSRF-Token") in
  if h ≟ "" then
    match rq.(rq_Form) with
    | Some form => Ok (TrimSpace (default "" (lookup_first "_csrf" form)))
    | None => Err "ParseForm"
    end
  else Ok h.

Definition ValidateCSRF (rq : Request) (id : Identity) : result unit :=
  match provided_csrf rq with
  | Ok provided =>
      if (id.(id_CSRF) ≟ "") || (provided ≟ "") || (slen provided ≠? slen id.(id_CSRF)) || (provided ≠? id.(id_CSRF))
      then Err "CSRF token mismatch" else Ok tt
  | Err e => Err e
  end.

(** A handler behind the check. *)
Definition Middleware (minimum : Role) (requireStepUp : bool) (next : Request → Prog Writer unit) (rq : Request) : Prog Writer unit :=
  r ← ptry (Authorize rq minimum requireStepUp);
  match r with
  | Err e => respond 401 ("unauthorized: " +:+ e)
  | Ok _ => next rq
  end.
End Manager.

Definition StableGroups (l : list string) : list string := sort_strings l.
End WebAuth.
