(* ===== verification/WebAuthRules.v ===== *)
(** * What a session is worth

    A session that passes the checks was opened by a callback whose ID token the
    provider's library has verified, unless the cipher has been broken; and a
    session that a callback opens passes exactly the checks it should. *)

From Stdlib Require Import Ascii String.
From S2P Require Import Prelude GoStd Text JsonText JsonStruct GoTime Sha256 Model Config Settings Control FileSystem FileTree Signing WebAuth.
#[global] Open Scope Z_scope.

(** ** The text of a session *)

Module RawURLRules.
Import Base64 RawURL.

Lemma symbol_url d : 0 ≤ d < 64 → std_char (url_char (symbol d)) = Some (symbol d) ∧ (symbol d ≠? pad) = true ∧
  line_break (url_char (symbol d)) = false.
Proof.
  intros H. assert (∃ n, (n < 64)%nat ∧ d = Z.of_nat n) as (n & Hn & ->) by (exists (Z.to_nat d); lia).
  do 64 (destruct n as [|n]; [by vm_compute|]). lia.
Qed.

(** The encoding without its padding. *)
Definition symbols (l : list ascii) : list ascii := List.filter (fun c => c ≠? pad) (Base64.encode l).

(** What the standard encoding is made of: symbols, and padding at the end. *)
Lemma encode_shape l :
  Base64.encode l = symbols l ++ missing_pad (length (symbols l)) ∧
  Forall (fun c => std_char (url_char c) = Some c ∧ line_break (url_char c) = false) (symbols l).
Proof.
  unfold symbols. induction l as [|a|a b|a b c l IH] using triples; [done|..]; cbn [Base64.encode].
  - pose proof (byte_bounds a) as Ha. set (v := byte_value a * 16).
    destruct (symbol_url (v / 64)) as (S1 & N1 & B1); [unfold v; bits|].
    destruct (symbol_url (v mod 64)) as (S2 & N2 & B2); [bits|].
    cbn [List.filter]. rewrite N1, N2. split; [done|]. by repeat constructor.
  - pose proof (byte_bounds a) as Ha. pose proof (byte_bounds b) as Hb. set (v := (byte_value a * 256 + byte_value b) * 4).
    destruct (symbol_url (v / 4096)) as (S1 & N1 & B1); [unfold v; bits|].
    destruct (symbol_url (v / 64 mod 64)) as (S2 & N2 & B2); [bits|].
    destruct (symbol_url (v mod 64)) as (S3 & N3 & B3); [bits|].
    cbn [List.filter]. rewrite N1, N2, N3. split; [done|]. by repeat constructor.
  - pose proof (byte_bounds a) as Ha. pose proof (byte_bounds b) as Hb. pose proof (byte_bounds c) as Hc.
    set (v := (byte_value a * 256 + byte_value b) * 256 + byte_value c).
    destruct (symbol_url (v / 262144)) as (S1 & N1 & B1); [unfold v; bits|].
    destruct (symbol_url (v / 4096 mod 64)) as (S2 & N2 & B2); [bits|].
    destruct (symbol_url (v / 64 mod 64)) as (S3 & N3 & B3); [bits|].
    destruct (symbol_url (v mod 64)) as (S4 & N4 & B4); [bits|].
    destruct IH as [IH1 IH2]. cbn [List.filter]. rewrite N1, N2, N3, N4. split; [|by repeat constructor].
    cbn [app length]. rewrite IH1 at 1. do 4 f_equal. f_equal. unfold missing_pad.
    by rewrite <- (Nat.Div0.mod_add (length _) 1 4), Nat.add_comm.
Qed.

Lemma mapM_std l : Forall (fun c => std_char (url_char c) = Some c ∧ line_break (url_char c) = false) l →
  mapM std_char (url_char <$> l) = Some l.
Proof. induction 1 as [|c l [Hc _] _ IH]; [done|]. cbn. by rewrite Hc, IH. Qed.

Lemma raw_back s : RawURL.DecodeString (RawURL.EncodeToString s) = Some s.
Proof.
  unfold RawURL.DecodeString, RawURL.EncodeToString, RawURL.encode. unfold of_chars at 2. rewrite chars_of.
  destruct (encode_shape (chars s)) as [H1 H2]. fold (symbols (chars s)).
  assert (List.filter (fun c => negb (line_break c)) (url_char <$> symbols (chars s)) = url_char <$> symbols (chars s)) as ->.
  { clear H1. induction H2 as [|c l [_ Hc] _ IH]; [done|]. cbn. rewrite Hc. cbn. by rewrite IH. }
  unfold RawURL.decode. rewrite mapM_std by done. cbn [mbind option_bind]. rewrite <- H1, decode_encode. cbn.
  f_equal. apply of_chars_chars.
Qed.

Lemma url_char_ascii c : is_ascii c = true → is_ascii (url_char c) = true.
Proof. unfold url_char. intros H. by repeat case_match. Qed.

Lemma raw_ascii s : Forall (fun c => is_ascii c = true) (chars (RawURL.EncodeToString s)).
Proof.
  unfold RawURL.EncodeToString, of_chars. rewrite chars_of. unfold RawURL.encode. apply Forall_fmap, Forall_forall.
  intros c [Hc _]%list_elem_of_In%filter_In. apply url_char_ascii.
  pose proof (encode_ascii (chars s)) as H. rewrite Forall_forall in H. by apply H, list_elem_of_In.
Qed.
End RawURLRules.

Module WebAuthRules.
Import Settings WebAuth.

(** ** Identities read back *)

Definition utf8_all (l : list string) : Prop := Forall (fun s => valid_utf8 s = true) l.

Record utf8_identity (id : Identity) : Prop := {
  u_texts : utf8_all [id.(id_Subject); id.(id_CSRF); id.(id_Email); id.(id_ACR); id.(id_Role)];
  u_groups : utf8_all id.(id_Groups);
  u_amr : utf8_all id.(id_AMR)
}.

Definition in_int64 (z : Z) : bool := (min_int64 <=? z) && (z <=? max_int64).

Lemma utf8_values d l : utf8_all l → forallb (value_ok d) (VStr <$> l) = true.
Proof. induction 1 as [|s l Hs _ IH]; [done|]. cbn. by rewrite Hs. Qed.

Lemma identity_value_ok d id : utf8_identity id → value_ok (S (S d)) (identity_value id) = true.
Proof.
  intros [Ht Hg Ha]. unfold utf8_all in Ht. rewrite !Forall_cons in Ht. destruct Ht as (H1 & H2 & H3 & H4 & H5 & _).
  cbn [value_ok identity_value]. rewrite !forallb_app.
  assert (Hl : ∀ k l, valid_utf8 k = true → utf8_all l →
    forallb (fun kv => valid_utf8 kv.1 && value_ok (S d) kv.2) (list_unless_empty k l) = true).
  { intros k l Hk Hl. unfold list_unless_empty. destruct l as [|s l]; [done|]. cbn [forallb fst snd value_ok].
    by rewrite Hk, utf8_values. }
  assert (Hs : ∀ k s, valid_utf8 k = true → valid_utf8 s = true →
    forallb (fun kv => valid_utf8 kv.1 && value_ok (S d) kv.2) (text_unless_empty k s) = true).
  { intros k s Hk Hs. unfold text_unless_empty. case_match; [done|]. cbn [forallb fst snd value_ok]. by rewrite Hk, Hs. }
  rewrite !Hl, !Hs by done. cbn [forallb fst snd value_ok]. rewrite H1, H2, H5.
  rewrite (proj1 (int_text_spec id.(id_Expires))). by vm_compute.
Qed.

Lemma dec_elements_back old l : dec_elements old (VStr <$> l) = Some l.
Proof. revert old. induction l as [|s l IH]; intros old; [done|]. cbn. by rewrite IH. Qed.

(** A text field and a slice that were left out are empty, as in the zero value. *)
Lemma set_unless_empty {A} (tags : list (string * (value → A → option A))) k s r upd :
  set_tag tags k (VStr s) r = Some (upd s) → upd "" = r →
  set_fields tags r (text_unless_empty k s) = Some (upd s).
Proof.
  intros H Hz. unfold text_unless_empty. case_bool_decide as Hs; [by rewrite Hs, Hz|]. cbn [set_fields]. by rewrite H.
Qed.

Lemma set_list_unless_empty {A} (tags : list (string * (value → A → option A))) k l r upd :
  set_tag tags k (VArr (VStr <$> l)) r = Some (upd l) → upd [] = r →
  set_fields tags r (list_unless_empty k l) = Some (upd l).
Proof. intros H Hz. destruct l as [|s l]; [by rewrite Hz|]. cbn [list_unless_empty set_fields]. by rewrite H. Qed.

Lemma identity_back id :
  utf8_identity id →
  unmarshal_identity (Marshal (identity_value id)) = if in_int64 id.(id_Expires) then Some id else None.
Proof.
  intros Hid. unfold unmarshal_identity, unmarshal. rewrite Unmarshal_Marshal.
  2: { change (Z.to_nat maxNestingDepth) with (S (S (Z.to_nat 9998))). by apply identity_value_ok. }
  cbn [mbind option_bind]. unfold identity_value, dec_struct. rewrite !set_fields_app.
  destruct id as [sub csrf email groups amr acr role exp]. cbn [id_Subject id_CSRF id_Email id_Groups id_AMR id_ACR id_Role id_Expires].
  cbn [set_fields app]. unfold set_tag at 1 2, identity_tags. known_keys. cbn [dec_text fmap option_fmap option_map mbind option_bind].
  rewrite set_fields_app, (set_unless_empty _ _ _ _ (fun x => mkIdentity sub csrf x [] [] "" "" 0)) by done. cbn [mbind option_bind].
  rewrite set_fields_app, (set_list_unless_empty _ _ _ _ (fun x => mkIdentity sub csrf email x [] "" "" 0));
    [|unfold set_tag; known_keys; cbn [dec_strings]; by rewrite dec_elements_back|done]. cbn [mbind option_bind].
  rewrite set_fields_app, (set_list_unless_empty _ _ _ _ (fun x => mkIdentity sub csrf email groups x "" "" 0));
    [|unfold set_tag; known_keys; cbn [dec_strings]; by rewrite dec_elements_back|done]. cbn [mbind option_bind].
  rewrite set_fields_app, (set_unless_empty _ _ _ _ (fun x => mkIdentity sub csrf email groups amr x "" 0)) by done. cbn [mbind option_bind].
  cbn [set_fields]. unfold set_tag. known_keys. cbn [dec_text fmap option_fmap option_map mbind option_bind].
  unfold dec_integer, in_int64. pose proof (proj1 (proj2 (int_text_spec exp))) as Hexp. rewrite Hexp. by destruct (_ && _).
Qed.

(** ** What the callback reads is text *)

Lemma dec_elements_ok d old l out :
  forallb (value_ok d) l = true → utf8_all old → dec_elements old l = Some out → utf8_all out.
Proof.
  revert old out. induction l as [|v l IH]; intros old out Hl Ho; cbn [dec_elements]; [by intros [= <-]; constructor|].
  cbn [forallb] in Hl. apply andb_true_iff in Hl as [Hv Hl].
  destruct (dec_text v _) as [s|] eqn:Es; [|done]. cbn [mbind option_bind].
  destruct (dec_elements (tail old) l) as [rest|] eqn:Er; [|done]. intros [= <-]. constructor.
  - eapply dec_text_ok; [exact Hv| |exact Es]. destruct Ho; [by vm_compute|done].
  - eapply IH; [done| |done]. destruct Ho; [constructor|done].
Qed.

Lemma dec_strings_ok d v old out :
  value_ok d v = true → utf8_all old → dec_strings v old = Some out → utf8_all out.
Proof.
  destruct v as [| | | |l|]; cbn; intros Hv Ho H; try done; [injection H as <-; constructor|].
  destruct d as [|d]; [done|]. by eapply dec_elements_ok.
Qed.

Definition utf8_claims (c : Claims) : Prop :=
  utf8_all [c.(cl_Subject); c.(cl_Email); c.(cl_ACR)] ∧ utf8_all c.(cl_Groups) ∧ utf8_all c.(cl_AMR).

Lemma unmarshal_claims_ok b c : unmarshal_claims b = Some c → utf8_claims c.
Proof.
  unfold unmarshal_claims, unmarshal. destruct (parse b) as [v|] eqn:Ep; [|done]. cbn [mbind option_bind].
  apply parse_ok in Ep. assert (H0 : utf8_claims (mkClaims "" "" [] [] "")) by by repeat split; repeat constructor.
  destruct v as [| | | | |fs]; cbn [dec_struct]; try done; [by intros [= <-]|].
  change (Z.to_nat maxNestingDepth) with (S (Z.to_nat 9999)) in Ep. cbn [value_ok] in Ep.
  apply (set_fields_keep _ _ (value_ok (Z.to_nat 9999))); [| |done].
  2: { rewrite forallb_forall in Ep |- *. intros kv Hkv. by apply Ep, andb_true_iff in Hkv as [_ Hkv]. }
  clear. unfold claims_tags, utf8_claims, utf8_all.
  rewrite !Forall_cons; split_and!; [..|constructor]; cbn [snd]; intros v x y Hv (Ht & Hg & Ha) Hy;
    rewrite !Forall_cons in Ht; destruct Ht as (H1 & H2 & H3 & _);
    match type of Hy with _ <$> ?o = _ => destruct o eqn:E; [|done] end; injection Hy as <-; cbn;
    rewrite ?Forall_cons; try (apply (dec_text_ok _ _ _ _ Hv) in E; [|done]); try (apply (dec_strings_ok _ _ _ _ Hv) in E; [|done]);
    by repeat split.
Qed.

Lemma token_claims_ok cfg b c : token_claims cfg b = Ok c → utf8_claims c.
Proof.
  unfold token_claims. destruct (unmarshal_claims b) as [c0|] eqn:E0; [|done]. apply unmarshal_claims_ok in E0 as (H1 & H2 & H3).
  destruct (_ && _); [|by intros [= <-]].
  unfold raw_claim. destruct (parse b) as [v|] eqn:Ep; [|done]. cbn [mbind option_bind]. apply parse_ok in Ep.
  destruct v as [| | | | |fs]; try done; [by intros [= <-]; split_and!; [|constructor|]|].
  destruct (List.find _ (rev fs)) as [[k v]|] eqn:Ef; cbn [fmap option_fmap option_map snd];
    [|by intros [= <-]; split_and!; [|constructor|]].
  destruct (dec_strings v _) as [groups|] eqn:Eg; [|done]. intros [= <-]. split_and!; [done| |done].
  change (Z.to_nat maxNestingDepth) with (S (Z.to_nat 9999)) in Ep. cbn [value_ok] in Ep.
  apply find_some in Ef as [Ef _]. rewrite <- in_rev in Ef. rewrite forallb_forall in Ep. apply Ep in Ef.
  apply andb_true_iff in Ef as [_ Ef]. exact (dec_strings_ok _ _ _ _ Ef H2 Eg).
Qed.

(** ** Sessions are granted *)

(** Follows a program that has succeeded. *)
Ltac run_inv H :=
  repeat match type of H with
  | (mbind _ _) _ _ = (_, _, Ok _) =>
      let i := fresh "i" in let s := fresh "s" in let a := fresh "a" in let E := fresh "E" in
      apply bind_Ok in H as (i & s & a & E & H); cbv beta zeta in H
  | (match ?b with _ => _ end) _ _ = _ =>
      let C := fresh "C" in destruct b eqn:C
  | pfail _ _ _ = (_, _, Ok _) => discriminate H
  | mret _ _ _ = (_, _, Ok _) => injection H as <- <- <-
  | pret _ _ _ = (_, _, Ok _) => injection H as <- <- <-
  end.

Section Rules.
Context {E : Env} {R : Random} {A : Aead} {P : Oidc}.
Context (m : Manager).

(** The token was verified for this client, after the code in the request was
    exchanged with the verifier of this browser's login, for its state and nonce. *)
Definition verified_token (rq : Request) (tok : IDToken) : Prop :=
  ∃ state verifier raw k1 k2,
    cookie rq "repoark_oidc_state" = Some state ∧ state ≠ "" ∧ query rq "state" = state ∧
    cookie rq "repoark_oidc_nonce" = Some tok.(tok_Nonce) ∧ tok.(tok_Nonce) ≠ "" ∧
    cookie rq "repoark_oidc_verifier" = Some verifier ∧
    oauth_Exchange m.(m_oauth) (TrimSpace (query rq "code")) verifier k1 = Ok (Some raw) ∧
    oidc_Verify m.(m_oauth).(oa_Endpoint) m.(m_oauth).(oa_ClientID) raw k2 = Ok tok.

(** The callback [rq] at time [t] may open a session for [id]. *)
Definition granted (rq : Request) (t : Time) (id : Identity) : Prop :=
  ∃ tok cl expiry, verified_token rq tok ∧ token_claims m.(m_cfg) tok.(tok_Claims) = Ok cl ∧
    id.(id_Subject) = cl.(cl_Subject) ∧ id.(id_Groups) = cl.(cl_Groups) ∧ id.(id_AMR) = cl.(cl_AMR) ∧
    id.(id_Role) = role_string (roleForGroups cl.(cl_Groups) m.(m_cfg)) ∧
    roleForGroups cl.(cl_Groups) m.(m_cfg) ≠ RoleNone ∧
    id.(id_Expires) = Unix expiry ∧ t < expiry ≤ t + 8 * Hour ∧
    (tok.(tok_Expiry) ≠ time_zero → expiry ≤ tok.(tok_Expiry)).

Lemma login_cookie_inv {S} rq name e i (s : S) i' s' v :
  login_cookie rq name e i s = (i', s', Ok v) → s' = s ∧ cookie rq name = Some v ∧ v ≠ "".
Proof.
  unfold login_cookie. intros H. run_inv H; try done. by split_and!; [|done|intros ->].
Qed.

Lemma outside_inv {S B} (f : nat → result B) i (s : S) i' s' b :
  outside f i s = (i', s', Ok b) → s' = s ∧ f i = Ok b.
Proof. by intros [= <- <- H]. Qed.

Lemma login_token_inv {S} rq i (s : S) i' s' tok :
  login_token m rq i s = (i', s', Ok tok) → s' = s ∧ verified_token rq tok.
Proof.
  unfold login_token. intros H. run_inv H; try done.
  repeat match goal with
  | H : login_cookie _ _ _ _ _ = _ |- _ => apply login_cookie_inv in H as (-> & ? & ?)
  | H : outside _ _ _ = _ |- _ => apply outside_inv in H as [-> ?]
  end.
  bool_to_prop. split; [done|]. subst. by repeat eexists.
Qed.

Lemma role_back r : roleFromString (role_string r) = r.
Proof. by destruct r. Qed.

Lemma token_inv {S} n i (s : S) i' s' t :
  randomToken n i s = (i', s', Ok t) → s' = s ∧ valid_utf8 t = true.
Proof.
  unfold randomToken. intros H. run_inv H. apply outside_inv in E0 as [-> _]. split; [done|].
  rewrite <- (of_chars_chars (RawURL.EncodeToString _)). apply valid_of_chars, ascii_utf8, RawURLRules.raw_ascii.
Qed.

(** What is sealed in a new session. *)
Lemma new_identity_inv {S} rq i (s : S) i' s' x :
  new_identity m rq i s = (i', s', Ok x) →
  s' = s ∧ utf8_identity x.1 ∧ x.1.(id_Expires) = Unix x.2 ∧ ∃ k, granted rq (clock k) x.1 ∧ clock k < x.2 ≤ clock k + 8 * Hour.
Proof.
  unfold new_identity. intros H. run_inv H; try done. apply login_token_inv in E0 as [-> Htok].
  injection E1 as <- <- Hcl. injection E2 as <- <- <-. apply token_inv in E3 as [-> Hcsrf].
  pose proof (token_claims_ok _ _ _ Hcl) as (Ht & Hg & Ha). unfold utf8_all in Ht. rewrite !Forall_cons in Ht.
  destruct Ht as (H1 & H2 & H3 & _). cbn [fst snd]. split; [done|]. split; [|split; [done|]].
  - split; cbn; [|done|done]. repeat (apply Forall_cons; split); try done. by destruct (roleForGroups _ _).
  - assert (Hexp : clock i0 < session_expiry (clock i0) a ≤ clock i0 + 8 * Hour ∧
      (tok_Expiry a ≠ time_zero → session_expiry (clock i0) a ≤ tok_Expiry a)).
    { unfold After in C0. bool_to_prop. split; [split; [done|]|]; unfold session_expiry, Before, IsZero, time_add in *;
        case_match; bool_to_prop; try lia.
      intros Hz. apply andb_false_iff in H as [H|H]; bool_to_prop; [by destruct Hz|lia]. }
    exists i0. split; [|apply Hexp]. exists a, a0, (session_expiry (clock i0) a).
    bool_to_prop. split_and!; try done; apply Hexp.
Qed.

(** *** Checking a session *)

(** The cipher is not broken for this cookie: what opens was sealed by a callback. *)
Definition unforged (rq : Request) : Prop :=
  ∀ v plain, cookie rq "repoark_session" = Some v → opened m v = Some plain →
  ∃ rq0 i0 (w0 : Writer) i1 w1 x, new_identity m rq0 i0 w0 = (i1, w1, Ok x) ∧ plain = Marshal (identity_value x.1).

(** Every configured method is among those of the sign-in. *)
Definition stepped_up (id : Identity) : Prop :=
  ∀ required, required ∈ m.(m_cfg).(web_RequiredAMR) → ∃ v, v ∈ id.(id_AMR) ∧ ToLower v = ToLower (TrimSpace required).

Lemma has_amr_all id : forallb (has_amr id) m.(m_cfg).(web_RequiredAMR) = true ↔ stepped_up id.
Proof.
  unfold stepped_up. rewrite forallb_forall. setoid_rewrite <- list_elem_of_In. apply forall_proper. intros r.
  unfold has_amr. rewrite bool_decide_eq_true, list_elem_of_fmap. naive_solver.
Qed.

Definition admitted (minimum : Role) (step : bool) (now : Time) (id : Identity) : Prop :=
  rank minimum ≤ rank (roleForGroups id.(id_Groups) m.(m_cfg)) ∧ (step = true → stepped_up id) ∧ Unix now < id.(id_Expires).

(** The checks of an identity that a cookie carries. *)
Definition verdict (now : Time) (id : Identity) (minimum : Role) (step : bool) : result Identity :=
  if id.(id_Expires) <=? Unix now then Err "session expired"
  else if rank (roleFromString id.(id_Role)) <? rank minimum then Err ("role " +:+ id.(id_Role) +:+ " is insufficient")
  else if step && negb (forallb (has_amr id) m.(m_cfg).(web_RequiredAMR)) then Err "OIDC step-up requirement missing from amr"
  else Ok id.

Lemma Authorize_opened {S} rq v plain id minimum step i (s : S) :
  cookie rq "repoark_session" = Some v → opened m v = Some plain → unmarshal_identity plain = Some id →
  Authorize m rq minimum step i s = (Datatypes.S i, s, verdict (clock i) id minimum step).
Proof.
  intros Hc Ho Hu. unfold Authorize, IdentityOf, open, mbind, prog_bind, pbind. rewrite Hc. cbn [of_option pret].
  rewrite Ho. cbn [of_option pret]. rewrite Hu. cbn [of_option pret pnow]. unfold verdict.
  destruct (_ <=? _); [done|]. cbn. destruct (_ <? _); [done|]. by destruct (_ && _).
Qed.

Lemma Authorize_inv {S} rq minimum step i (s : S) i' s' id :
  Authorize m rq minimum step i s = (i', s', Ok id) →
  s' = s ∧ ∃ v plain, cookie rq "repoark_session" = Some v ∧ opened m v = Some plain ∧ unmarshal_identity plain = Some id ∧
    verdict (clock i) id minimum step = Ok id.
Proof.
  intros H. pose proof H as H0. unfold Authorize, IdentityOf, open in H. unfold mbind at 1 2, prog_bind at 1 2, pbind at 1 2 in H.
  destruct (cookie rq "repoark_session") as [v|] eqn:Ec; [|done]. cbn [of_option pret] in H.
  unfold mbind at 1, prog_bind at 1, pbind at 1 in H. destruct (opened m v) as [plain|] eqn:Eo; [|done].
  cbn [of_option pret] in H. unfold mbind at 1, prog_bind at 1, pbind at 1 in H.
  destruct (unmarshal_identity plain) as [id0|] eqn:Eu; [|done]. clear H.
  rewrite (Authorize_opened _ _ _ _ _ _ _ _ Ec Eo Eu) in H0. injection H0 as <- <- Hv. split; [done|].
  exists v, plain. assert (id0 = id) as ->; [|done]. unfold verdict in Hv. repeat case_match; congruence.
Qed.

(** A request that passes the check carries a session that a callback has opened:
    the provider's library had verified an ID token for this client, obtained for a
    login that the same browser began; the subject, the groups and the methods of
    the session are those of the token; its role is what the configuration gives
    these groups and is high enough; where a step-up is asked for, every configured
    method is among those of the token; and it is used within eight hours and
    before the token expires. *)
Theorem authorized_sessions_were_granted {S} rq minimum step i (s : S) i' s' id :
  unforged rq → Authorize m rq minimum step i s = (i', s', Ok id) →
  s' = s ∧ admitted minimum step (clock i) id ∧ ∃ rq0 k, granted rq0 (clock k) id.
Proof.
  intros Hu (-> & v & plain & Hc & Ho & Hid & Hv)%Authorize_inv.
  destruct (Hu v plain Hc Ho) as (rq0 & i0 & w0 & i1 & w1 & [id0 e] & Hx & ->).
  apply new_identity_inv in Hx as (_ & Hutf & _ & k & Hg & _). cbn [fst snd] in *. rewrite identity_back in Hid by done.
  destruct (in_int64 _); [|done]. injection Hid as ->. split; [done|]. split; [|by exists rq0, k].
  destruct Hg as (tok & cl & expiry & _ & _ & _ & Hgr & _ & Hrole & _). unfold verdict in Hv.
  destruct (Z.leb_spec id.(id_Expires) (Unix (clock i))); [done|]. rewrite Hrole, role_back in Hv.
  unfold admitted. rewrite Hgr. destruct (Z.ltb_spec (rank (roleForGroups (cl_Groups cl) (m_cfg m))) (rank minimum)); [done|].
  split_and!; [done| |done]. intros ->. apply has_amr_all. by destruct (forallb _ _).
Qed.

(** *** Opening a session *)

Lemma substring_head a b : String.substring 0 (String.length a) (a +:+ b) = a.
Proof. induction a as [|x a IH]; [by destruct b|]. change (String x (String.substring 0 (String.length a) (a +:+ b)) = String x a). by rewrite IH. Qed.

Lemma substring_tail a b : String.substring (String.length a) (String.length b) (a +:+ b) = b.
Proof.
  induction a as [|x a IH]; [|exact IH]. induction b as [|y b IH]; [done|].
  change (String y (String.substring 0 (String.length b) b) = String y b). f_equal. exact IH.
Qed.

Lemma string_length_app a b : String.length (a +:+ b) = (String.length a + String.length b)%nat.
Proof. induction a as [|x a IH]; [done|]. simpl. by rewrite IH. Qed.

(** What is sealed opens. *)
Lemma opened_sealed nonce plain :
  slen nonce = nonce_size →
  opened m (RawURL.EncodeToString (nonce +:+ aead_seal m.(m_key) nonce plain session_context)) = Some plain.
Proof.
  intros Hn. unfold opened. rewrite RawURLRules.raw_back. cbn [mbind option_bind].
  pose proof (seal_longer m.(m_key) nonce plain session_context) as Hl. pose proof (aead_correct m.(m_key) nonce plain session_context Hn) as Hc.
  set (x := aead_seal _ _ _ _) in *. unfold slen in *. rewrite string_length_app.
  rewrite <- Hn, (proj2 (Z.leb_gt _ _)), Nat2Z.id by lia. replace (String.length nonce + String.length x - String.length nonce)%nat with (String.length x) by lia.
  by rewrite substring_head, substring_tail.
Qed.

Lemma Unix_int64 t : 0 ≤ t ≤ max_int64 * Second → in_int64 (Unix t) = true.
Proof.
  intros Ht. unfold in_int64, Unix.
  assert (0 ≤ t / Second ≤ max_int64) as Hd.
  { split; [apply Z.div_pos; [lia|done]|]. apply Z.div_le_upper_bound; [done|lia]. }
  apply andb_true_iff. rewrite !Z.leb_le.
  assert (min_int64 + 62135596800 ≤ 0) by by vm_compute. lia.
Qed.

(** A callback that succeeds sets one session cookie and clears those of the login;
    with this cookie, and whatever else is in a request, the check then answers for
    the identity of the ID token: until the session expires, up to its role, and
    under a step-up exactly with the configured methods. *)
Theorem opened_sessions_are_honoured rq i w i' w' :
  (∀ k, 0 ≤ clock k ≤ max_int64 * Second - 8 * Hour) → Callback m rq i w = (i', w', Ok tt) →
  ∃ id k v age, granted rq (clock k) id ∧
    w'.(wr_Cookies) = w.(wr_Cookies) ++ [sessionCookie m v age; tempCookie m.(m_cfg) "repoark_oidc_state" "" (-1);
      tempCookie m.(m_cfg) "repoark_oidc_nonce" "" (-1); tempCookie m.(m_cfg) "repoark_oidc_verifier" "" (-1)] ∧
    ∀ S rq' minimum step j (s : S), cookie rq' "repoark_session" = Some v →
      Authorize m rq' minimum step j s = (Datatypes.S j, s, verdict (clock j) id minimum step).
Proof.
  intros Hclk H. unfold Callback in H. apply bind_Ok in H as (i0 & w0 & x & Ex & H).
  apply new_identity_inv in Ex as (-> & Hutf & Hexp & k & Hg & Hk).
  apply bind_Ok in H as (i1 & w1 & sealed & Es & H). unfold seal in Es.
  apply bind_Ok in Es as (i2 & w2 & nonce & En & Es). apply outside_inv in En as [-> En].
  injection Es as <- <- <-. destruct (entropy _ nonce_size) as [b|] eqn:Eb; [|done]. injection En as ->.
  apply entropy_size in Eb. pose proof (opened_sealed _ (Marshal (identity_value x.1)) Eb) as Ho.
  set (v := RawURL.EncodeToString _) in *. clearbody v. exists x.1, k, v. eexists. split; [exact Hg|]. split.
  { injection H as _ <-. cbn. by rewrite <- !(assoc_L (++)). }
  intros S rq' minimum step j s Hc. eapply Authorize_opened; [exact Hc|exact Ho|].
  rewrite identity_back by done. rewrite Hexp, Unix_int64; [done|]. specialize (Hclk k). lia.
Qed.
End Rules.
End WebAuthRules.
