(* ===== verification/WebAuthDemo.v ===== *)
(** * A sign-in from end to end

    A provider that knows one user, a cipher that hides nothing, and the session
    that a callback opens with them. *)

From Stdlib Require Import Ascii String.
From S2P Require Import Prelude GoStd Text JsonText GoTime Model Config Settings Control FileSystem Signing WebAuth WebAuthRules.
#[global] Open Scope Z_scope.

Module WebAuthDemo.
Import Settings WebAuth WebAuthRules.

#[export] Instance env : Env := {| clock k := (63900000000 + Z.of_nat (Nat.min k 99)) * Second; fresh_token _ := "t" |}.

Definition letters (n : Z) : string := String.string_of_list_ascii (repeat "r"%char (Z.to_nat n)).

Lemma letters_size n : 0 < n → slen (letters n) = n.
Proof.
  intros Hn. unfold slen, letters. rewrite <- (Z2Nat.id n) at 2 by lia. f_equal. clear Hn.
  induction (Z.to_nat n) as [|k IH]; [done|]. exact (f_equal Datatypes.S IH).
Qed.

#[export] Program Instance dice : Random := {| entropy k n := if 0 <? n then Some (letters n) else None |}.
Next Obligation. intros k n b. cbv beta. destruct (Z.ltb_spec 0 n); [|done]. intros [= <-]. by apply letters_size. Qed.

Definition behind (b : string) : option string :=
  match b with String c plain => if c ≟ "s"%char then Some plain else None | EmptyString => None end.

#[export] Instance glass : Aead.
Proof.
  refine {| nonce_size := 12; aead_seal _ _ plain _ := String "s" plain; aead_open _ _ b _ := behind b |}.
  - done.
  - intros _ _ plain _. unfold slen. cbn [String.length]. lia.
  - done.
Defined.

Definition claims (methods : string) : string :=
  String.concat (String dquote EmptyString)
    ["{"; "sub"; ":"; "u1"; ","; "groups"; ":["; "Operators"; "],"; "amr"; ":["; methods; "]}"].

#[export] Instance provider : Oidc := {|
  oidc_NewProvider issuer _ := Ok issuer;
  oauth_GenerateVerifier _ := "verifier";
  oauth_AuthCodeURL c state _ _ := c.(oa_Endpoint) +:+ "?state=" +:+ state;
  oauth_Exchange _ code verifier _ := if (code ≟ "code") && (verifier ≟ "verifier") then Ok (Some "jwt") else Err "invalid_grant";
  oidc_Verify _ _ raw _ := if raw ≟ "jwt" then Ok (mkIDToken "nonce" time_zero (claims "otp")) else Err "bad signature"
|}.

Definition settings : WebAuthConfig :=
  mkWebAuthConfig true "oidc" "https://id.example" "repoark" "S" "https://repoark/cb" "K" "" [] ["phr"] [] ["operators"] [] ["OTP"] true.
Definition manager : Manager := mkManager settings (mkOauth "repoark" "secret" "https://id.example" "https://repoark/cb" ["openid"]) "key".

(** The browser comes back from the provider. *)
Definition back : Request :=
  mkRequest [("repoark_oidc_state", "s1"); ("repoark_oidc_nonce", "nonce"); ("repoark_oidc_verifier", "verifier")]
    [("state", "s1"); ("code", "code")] [] None.
Definition replayed : Request := mkRequest back.(rq_Cookies) [("state", "s2"); ("code", "code")] [] None.

Definition came_back : nat * Writer * result unit := Callback manager back 0%nat blank.
Definition session : string := Eval vm_compute in
  match came_back.1.2.(wr_Cookies) with c :: _ => c.(ck_Value) | [] => "" end.
Definition later : Request := mkRequest [("repoark_session", session)] [] [] None.
Definition user : Identity := Eval vm_compute in
  match (Authorize manager later RoleViewer true 9%nat blank).2 with Ok id => id | Err _ => no_identity end.

Example the_operator : (user.(id_Subject), user.(id_Groups), user.(id_AMR), user.(id_Role)) = ("u1", ["Operators"], ["otp"], "operator").
Proof. vm_compute. reflexivity. Qed.

Example another_state_is_refused : (Callback manager replayed 0%nat blank).2 = Err "OIDC state mismatch".
Proof. vm_compute. reflexivity. Qed.

Example not_an_admin : (Authorize manager later RoleAdmin false 9%nat blank).2 = Err "role operator is insufficient".
Proof. vm_compute. reflexivity. Qed.

(** The configuration asks for the class phr, the token names none, and the step-up
    is passed all the same. *)
Example acr_is_not_checked : settings.(web_StepUpACRValues) = ["phr"] ∧ user.(id_ACR) = "" ∧
  is_ok (Authorize manager later RoleOperator true 9%nat blank).2 = true.
Proof. split_and!; vm_compute; reflexivity. Qed.

Definition made : nat * Writer * result (Identity * Time) := new_identity manager back 0%nat blank.
Definition until : Time := Eval vm_compute in match made.2 with Ok x => x.2 | Err _ => 0 end.

Lemma later_unforged : unforged manager later.
Proof.
  intros v plain Hc Ho. injection Hc as <-. vm_compute in Ho. injection Ho as <-.
  exists back, 0%nat, blank, made.1.1, made.1.2, (user, until). split; vm_compute; reflexivity.
Qed.

Lemma authorized_sessions_were_granted_witness :
  admitted manager RoleOperator true (clock 9) user ∧ ∃ rq0 k, granted manager rq0 (clock k) user.
Proof.
  apply (authorized_sessions_were_granted manager later RoleOperator true 9%nat blank 10%nat blank user later_unforged).
  vm_compute. reflexivity.
Defined.

Lemma opened_sessions_are_honoured_witness :
  ∃ id k, granted manager back (clock k) id ∧ ∀ minimum step j,
    Authorize manager later minimum step j blank = (S j, blank, verdict manager (clock j) id minimum step).
Proof.
  destruct (opened_sessions_are_honoured manager back 0%nat blank came_back.1.1 came_back.1.2)
    as (id & k & v & age & Hg & Hcs & Ha).
  - intros k. change (clock k) with ((63900000000 + Z.of_nat (Nat.min k 99)) * Second).
    assert (63900000099 * Second ≤ max_int64 * Second - 8 * Hour) by by vm_compute.
    assert (0 < Second) by done. nia.
  - vm_compute. reflexivity.
  - exists id, k. split; [exact Hg|]. intros minimum step j. apply (Ha Writer later).
    vm_compute in Hcs. injection Hcs as <-. reflexivity.
Defined.
End WebAuthDemo.
